(* ===== verification/_CoqProject ===== *)
-Q . S2P
Prelude.v
GoString.v
GoConv.v
Config.v
GoBytes.v
FileTemplates.v
K8sClient.v
K8sProvider.v
K8sProviderSpec.v
K8sKeys.v
K8sGroups.v
K8sData.v
K8sProviderProps.v
K8sInvariant.v
K8sSteady.v
GoPath.v
SecretGroup.v
AtomicWriter.v
PushToFile.v
FilesInvariant.v
Informer.v
Runner.v
Events.v
Concurrency.v
Conjur.v
Authenticator.v
GoQuote.v
Annotations.v
Entrypoint.v
Status.v
Composition.v
Program.v
EndToEnd.v
