(* ===== verification/Prelude.v ===== *)
(** * The CyberArk Secrets Provider for Kubernetes: verification development

    The Secrets Provider (src/cmd/secrets-provider, src/pkg) runs beside or
    before an application: it fetches variables from Conjur and provides them
    as entries of Kubernetes Secrets, or as files of a shared volume
    ("Push-to-File"). It runs once (init and application containers) or keeps
    running (sidecar and standalone mode), refreshing periodically and when
    the Kubernetes Secrets it manages change. This development models the
    program's own code and proves what makes it correct.

    ** The parts and how they call each other

    <<
    entrypoint.go ----- annotation_parser.go, config.go        Entrypoint
      |                                                        Annotations, Config
      +-- RunSecretsProvider, retry, debounce                  Runner, Concurrency
      |     +-- secret_informer.go, notifier.go                Informer, Events
      |     +-- provider_status.go, server.go                  Status
      |     +-- the provider of the store type:
      |           K8sProvider.Provide                          K8sProvider, K8sProviderSpec,
      |             |                                          K8sKeys, K8sGroups, K8sData,
      |             |                                          K8sProviderProps, K8sInvariant,
      |             |                                          K8sSteady
      |             +-- k8s_secrets_client.go                  K8sClient
      |           pushtofile.Provide                           PushToFile, FilesInvariant
      |             +-- secret_group.go, standard templates    SecretGroup
      |             +-- atomic_writer.go                       AtomicWriter
      +-- Conjur retriever, V2/V1 wrapper                      Conjur
      +-- authenticators and their access tokens               Authenticator
    shared: secret_spec.go, secret_file_templates.go           FileTemplates
            checksum.go                                        GoBytes
    providers over the retriever                               Composition
    runner over the K8s provider                               Program
    entry point over runner, providers and status files        EndToEnd
    >>

    The files, in dependency order:

    - Prelude: results of Go functions ([outcome]: a value, an error, or a
      panic), the state-and-error monad [M] of methods with their receiver,
      weakest preconditions [wp] with their rules, and iteration over Go maps:
      a [range_order] is one order in which a map may be visited and a
      [schedule] gives every loop its own, so that theorems quantify over all
      iteration orders.
    - GoString, GoConv, GoBytes, GoPath, GoQuote: the functions of Go's
      standard library that the program calls (strings, utf8, sort, strconv,
      time durations at 64 bits with their binary64 fraction, base64, SHA-256,
      the printing of maps, paths, quoted strings, scanner lines).
    - Config: pkg/secrets/config/config.go, all of it.
    - FileTemplates: pkg/secrets/file_templates; GoBytes also holds
      pkg/utils/checksum.go.
    - K8sClient: pkg/secrets/clients/k8s. The API server is a parameter with
      laws; [K8sAccess] is the interface that the provider is verified
      against, and [defaultAccess_lawful] discharges it.
    - K8sProvider: pkg/secrets/k8s_secrets_storage, one definition per Go
      function, over the state [K8sProvider] (the Secrets and destinations
      collected by a run, the checksums of the previous runs, the groups).
      K8sProviderSpec has the lemmas on retrieval, fetch list and update,
      K8sKeys those on keys and templates, K8sGroups the groups that the
      annotations declare, K8sData what every key of a Secret must hold
      ([expected_data]) and that the data built is that, K8sProviderProps the
      theorems on whole runs, K8sInvariant what holds from run to run, K8sSteady
      that a second run finds nothing to change.
    - SecretGroup, AtomicWriter, PushToFile: pkg/secrets/pushtofile and
      pkg/atomicwriter, over a file system given by laws ([FileSystem],
      [ProviderFS]) with an instance whose calls can be made to fail;
      FilesInvariant has what holds from run to run.
    - Informer: the event filters, queue and worker of pkg/secrets/k8s_informer.
    - Runner: pkg/secrets/provide_conjur_secrets.go and limited_backoff.go. The
      goroutines are the step relation [step] over [running] (clock, phase,
      state, debounce), with [reachable] from a start; a run of the provider
      with its retries is one step.
    - Events: edits of a Secret through the informer's handlers, queue and
      worker and the runner's accumulated keys into a run of the K8s provider.
    - Concurrency: the same two goroutines with one step per provider call,
      policy call and report ([cstep]); [step_executes] embeds the steps of
      Runner, and what every call keeps is kept by every interleaving. Others
      may change the world in between, as a relation says.
    - Conjur: pkg/secrets/clients/conjur over the API client [conjur_api].
    - Authenticator: conjur_authenticator.go and conjur_client.go of the same
      package; tokens live in a heap of byte buffers and strings.
    - Annotations: pkg/secrets/annotations.
    - Entrypoint: pkg/entrypoint, with the exit codes, and NewProviderForType.
    - Status: pkg/secrets/provider_status.go and pkg/server.
    - Composition: both providers with the Conjur retriever in place of their
      retriever parameter.
    - Program: the runner's goroutines with the K8s provider as their provider;
      the numbered runs get their own answers of Conjur and iteration orders.
    - EndToEnd: [startSecretsProviderWithDeps] with the program's factory, and
      the runner over the provider that the factory made.

    Definitions have the names of the Go functions; a loop body or a part of a
    function that has its own lemmas is a definition of its own. Logging,
    tracing and the wiping of secret values after their last use have no effect
    on the results and are left out; the wiping of access tokens is modelled.

    ** What the theorems show

    - The K8s provider: a whole run refines the abstract "every required
      Secret gets the entries it asks for" ([run_result]), in every iteration
      order, for Secrets with named entries, fetch-all and group templates.
      [run_result] tells for every way a run can end what it means and what it
      leaves: a failure comes from the retrieval ([failed_retrieval]), from
      Conjur, with the entries emptied exactly on a 403 or 404
      ([failed_fetch]), or from an update ([failed_update]); the data of a Secret comes down to a sequence of weak and
      strong writes ([createSecretData_writes]), whose result for one key is
      [base_entry], and a group template wins over it ([populate_expected]).
      The clusters are [orderly]: the fetch-all variable and the fetch-all key
      occur together, and in label mode a Secret is in order or fails as a
      whole (the findings show what happens otherwise). Two runs agree whatever
      the iteration orders ([runs_agree]). A run changes nothing else in the
      cluster and leaves nothing in memory; the fetch list, the group templates
      and the update of one Secret are characterised.
      From run to run, every recorded checksum is that of entries the Secret
      holds ([run_settled]), so that a Secret left unwritten holds its values,
      as long as others leave what was written alone: they may do anything to
      some Secrets and keys, of which nothing is claimed ([in_step_edited]).
      A Secret that has received its entries must receive the same again
      ([expected_again]), so the provider comes to rest. Label mode is the same
      for the listed Secrets, invalid ones skipped ([provide_selected]).
    - Push-to-File: after a successful run the checksums are those of the
      rendered contents and the flag is right ([provide_up_to_date]); the files
      match the checksums, also after earlier runs that failed, as long as no
      run has removed them ([provide_in_sync]); no failure leaves a partial file; writing is atomic;
      the groups, their paths and permissions are what the annotations say.
    - Conjur: listing ends; a V2 response is mapped back to the variables; the
      two API versions give the same secrets when none is missing
      ([retrieve_over_v2], [retrieve_over_v1]). Every buffer that held the
      access token is wiped ([token_only]); the string made of it for the API
      client is not.
    - Composition: the K8s provider over the retriever never panics
      ([Retrieve_some_value]); what is provided when all, some or none of the variables
      exist, what deleting variables does to files and Secrets, and that
      clearing all conjur-maps makes the provider fail ([retrieve_nothing]).
    - Runner and Status: retrying is a bounded loop; debouncing is bounded and
      a pending event is served; keys removed by a burst of updates are those
      of its net effect, also when they pass the informer first ([elem_of_sent]),
      and the provider's own updates cause no run, unless the Secret had no data
      before ([own_update_event]);
      readiness follows the last run. In every interleaving
      of the goroutines the retries are bounded together ([execution_spends]).
    - Program and EndToEnd: what the provider guarantees holds of the running
      program, in every interleaving ([goroutines_in]) and from the settings to
      the files, the Secrets and the exit of a container that runs once
      ([program_provide_provided]).
    - Configuration and entry point: accepted settings are well-formed, a run
      that starts has a coherent configuration, the exit code tells the
      outcome with one exception.
    - Where the code does not do what it means to, a closed theorem shows it on
      a concrete input; such theorems say so in their comments.

    ** Bounds and fuel

    [list_pages] is run with fuel 5: five pages of 100 reach the limit of 500,
    and more fuel changes nothing ([list_pages_fuel]). The loops of
    [ParseDuration] and [Unquote] use the length of the text
    ([duration_loop_fuel], [unquote_loop_fuel]). The number of retries may be
    unlimited: retrying is a relation, and the theorem on the retry wrapper
    counts its attempts.
    Integers are [Z] with the wrap-around of the source written out where it
    can happen (Atoi, durations, the retry interval).

    ** Not modelled

    yaml.v2 and yaml.v3, text/template, the Conjur API client and
    authenticator client, client-go (the informer's cache and goroutines,
    the API server), the backoff library, net/http and the operating system
    are parameters; each has an instance in a witness, and what is assumed of
    it is a [Class] or a named hypothesis. Log messages, tracing, the mocks
    and the main program are left out. The K8s provider's
    mutex makes its calls exclusive: a call of the provider is one step, also
    in Concurrency. The Push-to-File provider has no mutex, but only the
    periodic goroutine runs it, since the informer is for the K8s store only.
    An unsynchronised access to the shared backoff policy is taken as a step,
    although Go gives data races no such meaning. Others may edit
    the cluster between the calls of the provider, not during one, and not
    during the first run, nor the volume of the files. *)

From stdpp Require Export base tactics option list gmap strings fin_maps sorting.

(** ** Results of Go functions

    A Go call either returns normally, returns an error, or panics. *)
Inductive outcome (E A : Type) : Type :=
| Ret (a : A)
| Fail (e : E)
| Panic.
Arguments Ret {E A} _.
Arguments Fail {E A} _.
Arguments Panic {E A}.

(** The state-and-error monad of stateful Go methods: the state survives an
    error and a panic, as the fields of a Go receiver do. *)
Definition M (S E A : Type) : Type := S → outcome E A * S.

#[export] Instance outcome_ret E : MRet (outcome E) := λ A a, Ret a.
#[export] Instance outcome_bind E : MBind (outcome E) := λ A B f o,
  match o with Ret a => f a | Fail e => Fail e | Panic => Panic end.

#[export] Instance M_ret S E : MRet (M S E) := λ A a s, (Ret a, s).
#[export] Instance M_bind S E : MBind (M S E) := λ A B f m s,
  match m s with
  | (Ret a, s') => f a s'
  | (Fail e, s') => (Fail e, s')
  | (Panic, s') => (Panic, s')
  end.

Section monad_operations.
Context {S E : Type}.

Definition gets {A} (f : S → A) : M S E A := λ s, (Ret (f s), s).
Definition modify (f : S → S) : M S E unit := λ s, (Ret tt, f s).
Definition throw {A} (e : E) : M S E A := λ s, (Fail e, s).
Definition panic {A} : M S E A := λ s, (Panic, s).
(** A call whose error the caller inspects: the error becomes a value. *)
Definition try {E' A} (m : M S E A) : M S E' (E + A) := λ s,
  match m s with
  | (Ret a, s') => (Ret (inr a), s')
  | (Fail e, s') => (Ret (inl e), s')
  | (Panic, s') => (Panic, s')
  end.
(** [if err != nil { handler }]. *)
Definition on_error {E' A} (m : M S E A) (handler : E → M S E' A) : M S E' A := λ s,
  match m s with
  | (Ret a, s') => (Ret a, s')
  | (Fail e, s') => handler e s'
  | (Panic, s') => (Panic, s')
  end.
(** Run a pure outcome in the state monad. *)
Definition lift_outcome {A} (o : outcome E A) : M S E A := λ s, (o, s).

(** [for _, x := range xs { body }] where the body may leave with an error. *)
Fixpoint for_each {A} (xs : list A) (body : A → M S E unit) : M S E unit :=
  match xs with
  | [] => mret tt
  | x :: xs' => body x ≫= λ _, for_each xs' body
  end.

(** A loop that threads an accumulator and may leave with an error. *)
Fixpoint fold_outcome {A B} (f : B → A → outcome E B) (acc : B) (xs : list A) : outcome E B :=
  match xs with
  | [] => Ret acc
  | x :: xs' => f acc x ≫= λ acc', fold_outcome f acc' xs'
  end.
End monad_operations.

(** The result and the two parts of the state of a run. *)
Lemma run_parts {R P W} (run : R * (P * W)) r : run.1 = r → run = (r, (run.2.1, run.2.2)).
Proof. intros <-. by destruct run as [? []]. Qed.

(** What holds of the outcome and the final state of a computation. *)
Definition wp {S E A} (m : M S E A) (Q : outcome E A → S → Prop) (s : S) : Prop :=
  Q (m s).1 (m s).2.

Definition is_panic {E A} (o : outcome E A) : bool :=
  match o with Panic => true | _ => false end.

(** ** Iterating over Go maps

    The order in which Go's [range] visits a map is unspecified and changes
    from loop to loop. A [range_order] is one such choice; a [schedule] gives
    every loop of an operation its own. *)
Record range_order := RangeOrder {
  range : ∀ {V : Type}, gmap string V → list (string * V);
  range_perm : ∀ V (m : gmap string V), range m ≡ₚ map_to_list m
}.

Definition schedule := list nat → range_order.

(** The schedule of the [k]-th call of an operation, and the order of its
    [k]-th loop. *)
Definition sub (sched : schedule) (k : nat) : schedule := λ p, sched (k :: p).
Definition loop (sched : schedule) (k : nat) : range_order := sched [k].

Program Definition canonical_order : range_order :=
  {| range := λ V m, map_to_list m |}.
Next Obligation. done. Qed.

Program Definition reversed_order : range_order :=
  {| range := λ V m, reverse (map_to_list m) |}.
Next Obligation. intros V m. simpl. apply reverse_Permutation. Qed.

(** [append(m[k], xs...)] stored back in [m[k]]. *)
Definition map_append {V} (k : string) (xs : list V) (m : gmap string (list V)) :
    gmap string (list V) :=
  <[k := (m !!! k) ++ xs]> m.

(** ** Automation *)
Create HintDb go.
Create Rewrite HintDb go_string.

(** Evaluate a hypothesis [mret a s = (o, s')]. *)
Ltac run_ret H := unfold mret, M_ret in H; simplify_eq/=.

(** Split a monadic hypothesis [bind m f s = (o, s')] on the outcome of [m]. *)
Ltac step_bind H :=
  match type of H with
  | context [mbind _ ?m ?s] =>
      let E := fresh "Hrun" in
      unfold mbind, M_bind in H;
      destruct (m s) as [[] ?] eqn:E; simpl in H; try (injection H as ? ?; subst)
  end.

(** Destruct every match and if in the goal or the hypotheses, then close
    what computation closes. *)
Ltac case_all :=
  try done; repeat (case_match || case_decide || case_bool_decide; simplify_eq/=; try done).

(** ** Lemmas on iteration orders *)
Section range_lemmas.
Context {V : Type} (o : range_order).
Implicit Type m : gmap string V.

Lemma elem_of_range m k v : (k, v) ∈ range o m ↔ m !! k = Some v.
Proof. by rewrite range_perm, elem_of_map_to_list. Qed.

Lemma range_NoDup_keys m : NoDup (range o m).*1.
Proof. rewrite range_perm. apply NoDup_fst_map_to_list. Qed.

Lemma range_empty : range o (∅ : gmap string V) = [].
Proof. apply Permutation_nil_r. by rewrite range_perm, map_to_list_empty. Qed.

Lemma length_range m : length (range o m) = size m.
Proof. rewrite range_perm. apply length_map_to_list. Qed.

Lemma list_to_map_range m : list_to_map (range o m) = m.
Proof.
  rewrite (list_to_map_proper (range o m) (map_to_list m)).
  - apply list_to_map_to_list.
  - apply range_NoDup_keys.
  - apply range_perm.
Qed.

Lemma elem_of_range_keys m k : k ∈ (range o m).*1 ↔ is_Some (m !! k).
Proof.
  rewrite list_elem_of_fmap. split.
  - intros [[k' v] [-> H%elem_of_range]]. by exists v.
  - intros [v Hv]. exists (k, v). split; [done|]. by apply elem_of_range.
Qed.
End range_lemmas.

#[export] Hint Resolve range_NoDup_keys : go.

(** ** Lemmas on Go maps *)
Section map_lemmas.
Context {V : Type}.
Implicit Type m : gmap string (list V).

Lemma lookup_total_map_append k xs m j :
  map_append k xs m !!! j = if decide (k = j) then (m !!! k) ++ xs else m !!! j.
Proof.
  unfold map_append. case_decide as Hj.
  - subst. by rewrite lookup_total_insert_eq.
  - by rewrite lookup_total_insert_ne.
Qed.

Lemma map_append_lookup k xs m j :
  map_append k xs m !! j =
  if decide (k = j) then Some ((m !!! k) ++ xs) else m !! j.
Proof.
  unfold map_append. destruct (decide (k = j)) as [->|].
  - by rewrite lookup_insert_eq.
  - by rewrite lookup_insert_ne.
Qed.
End map_lemmas.

Lemma lookup_total_default {V} `{Inhabited V} (m : gmap string V) k :
  m !!! k = default inhabitant (m !! k).
Proof. rewrite lookup_total_alt. done. Qed.

Lemma map_nonempty {V} (m : gmap string V) : m ≠ ∅ ↔ ∃ k, is_Some (m !! k).
Proof.
  split.
  - intros (k & v & Hk)%map_choose. exists k. by eexists.
  - intros [k [v Hk]] ->. by rewrite lookup_empty in Hk.
Qed.

Lemma lookup_total_map {V} (m : gmap string (gmap string V)) n :
  m !!! n = default ∅ (m !! n).
Proof. by rewrite lookup_total_alt. Qed.

(** ** Lemmas on loops *)
Section loop_lemmas.
Context {S E A : Type}.

Lemma for_each_app (xs ys : list A) (f : A → M S E unit) (s : S) :
  for_each (xs ++ ys) f s = (for_each xs f ≫= λ _, for_each ys f) s.
Proof.
  revert s. induction xs as [|x xs IH]; intros s; simpl; [done|].
  unfold mbind, M_bind in *. destruct (f x s) as [[] s']; auto.
Qed.

(** An invariant that the body of a loop keeps, whatever its outcome. *)
Lemma for_each_invariant (P : S → Prop) (xs : list A) (f : A → M S E unit) (s s' : S) o :
  (∀ x t t' r, x ∈ xs → P t → f x t = (r, t') → P t') →
  P s → for_each xs f s = (o, s') → P s'.
Proof.
  revert s. induction xs as [|x xs IH]; intros s Hstep Hs Hrun; simpl in Hrun.
  - by run_ret Hrun.
  - step_bind Hrun; eauto using list_elem_of_here, list_elem_of_further.
Qed.

(** A loop whose body never panics does not panic. *)
Lemma for_each_no_panic (P : S → Prop) (xs : list A) (f : A → M S E unit) (s : S) :
  (∀ x t, x ∈ xs → P t → (f x t).1 ≠ Panic ∧ P (f x t).2) →
  P s → (for_each xs f s).1 ≠ Panic ∧ P (for_each xs f s).2.
Proof.
  revert s. induction xs as [|x xs IH]; intros s Hstep Hs; simpl; [done|].
  destruct (Hstep x s) as [Hnp Hs']; [by left|done|].
  unfold mbind, M_bind. destruct (f x s) as [[[]|e|] s1]; simpl in *; try done.
  apply IH; [|done]. intros y t Hy. apply Hstep. by right.
Qed.
End loop_lemmas.

(** ** Lemmas on indexed loops *)
Lemma imap_pair_snd {A} (l : list A) : (imap pair l).*2 = l.
Proof.
  apply list_eq. intros i. rewrite list_lookup_fmap, list_lookup_imap.
  by destruct (l !! i).
Qed.

Lemma elem_of_imap_pair {A} (l : list A) i a : (i, a) ∈ imap pair l → a ∈ l.
Proof.
  intros H. rewrite <- (imap_pair_snd l). apply list_elem_of_fmap. by exists (i, a).
Qed.

Lemma mapM_imap_pair {A B} (g : A → option B) (l : list A) :
  mapM (λ ia, g ia.2) (imap pair l) = mapM g l.
Proof.
  rewrite <- (imap_pair_snd l) at 2. generalize (imap pair l). intros l'.
  induction l' as [|ia l' IH]; [done|]. cbn. by rewrite IH.
Qed.

(** ** Rules for [wp] *)
Section wp_rules.
Context {S E : Type}.

Lemma wp_run {A} (m : M S E A) (Q : outcome E A → S → Prop) s r s' :
  wp m Q s → m s = (r, s') → Q r s'.
Proof. unfold wp. intros H Heq. by rewrite Heq in H. Qed.

Lemma wp_mono {A} (m : M S E A) (Q Q' : outcome E A → S → Prop) s :
  wp m Q s → (∀ r t, Q r t → Q' r t) → wp m Q' s.
Proof. unfold wp. auto. Qed.

Lemma wp_and {A} (m : M S E A) (Q Q' : outcome E A → S → Prop) s :
  wp m Q s → wp m Q' s → wp m (λ r t, Q r t ∧ Q' r t) s.
Proof. by split. Qed.

Lemma wp_impl {A} (P : Prop) (m : M S E A) (Q : outcome E A → S → Prop) s :
  (P → wp m Q s) → wp m (λ r t, P → Q r t) s.
Proof. done. Qed.

Lemma wp_bind {A B} (m : M S E A) (f : A → M S E B) (Q : outcome E B → S → Prop) s :
  wp m (λ r t, match r with Ret a => wp (f a) Q t | Fail e => Q (Fail e) t
                          | Panic => Q Panic t end) s →
  wp (m ≫= f) Q s.
Proof. unfold wp, mbind, M_bind. cbv beta. by destruct (m s) as [[a|e|] t]. Qed.

Lemma wp_on_error {E' A} (m : M S E A) (h : E → M S E' A) (Q : outcome E' A → S → Prop) s :
  wp m (λ r t, match r with Ret a => Q (Ret a) t | Fail e => wp (h e) Q t
                          | Panic => Q Panic t end) s →
  wp (on_error m h) Q s.
Proof. unfold wp, on_error. cbv beta. by destruct (m s) as [[a|e|] t]. Qed.

Lemma wp_try {E' A} (m : M S E A) (Q : outcome E' (E + A) → S → Prop) s :
  wp m (λ r t, match r with Ret a => Q (Ret (inr a)) t | Fail e => Q (Ret (inl e)) t
                          | Panic => Q Panic t end) s →
  wp (try m) Q s.
Proof. unfold wp, try. cbv beta. by destruct (m s) as [[a|e|] t]. Qed.

(** An invariant over the elements visited so far; [Q] must hold of every
    early exit. The step may use which elements are still to come. *)
Lemma wp_for_each_split {A} (I : list A → S → Prop) (Q : outcome E unit → S → Prop)
    (xs : list A) (body : A → M S E unit) (s : S) :
  I [] s →
  (∀ pre x suf t, pre ++ x :: suf = xs → I pre t →
    wp (body x) (λ r t', match r with Ret _ => I (pre ++ [x]) t' | Fail e => Q (Fail e) t'
                                    | Panic => Q Panic t' end) t) →
  (∀ t, I xs t → Q (Ret tt) t) →
  wp (for_each xs body) Q s.
Proof.
  intros H0 Hstep Hend.
  assert (∀ suf pre t, pre ++ suf = xs → I pre t → wp (for_each suf body) Q t) as Hgo; [|by apply (Hgo xs [])].
  induction suf as [|x suf IH]; intros pre t Heq HI.
  - apply Hend. by rewrite app_nil_r in Heq; subst.
  - apply wp_bind. eapply wp_mono; [by apply (Hstep pre x suf)|].
    intros [[]|e|] t' Ht'; [|done|done]. apply (IH (pre ++ [x])); [|done].
    by rewrite <- (assoc_L (++)).
Qed.

Lemma wp_for_each {A} (I : list A → S → Prop) (Q : outcome E unit → S → Prop)
    (xs : list A) (body : A → M S E unit) (s : S) :
  I [] s →
  (∀ pre x t, x ∈ xs → I pre t →
    wp (body x) (λ r t', match r with Ret _ => I (pre ++ [x]) t' | Fail e => Q (Fail e) t'
                                    | Panic => Q Panic t' end) t) →
  (∀ t, I xs t → Q (Ret tt) t) →
  wp (for_each xs body) Q s.
Proof.
  intros H0 Hstep. apply wp_for_each_split; [done|]. intros pre x suf t <-. apply Hstep.
  apply elem_of_app. right. by left.
Qed.
End wp_rules.

(** One step of a [wp] goal. *)
Ltac wp_step :=
  first [ apply wp_bind | apply wp_on_error | apply wp_try ].

(** ** Lemmas on folds over maps *)

Lemma NoDup_fmap_inj_on {A B} (f : A → B) (l : list A) x y :
  NoDup (f <$> l) → x ∈ l → y ∈ l → f x = f y → x = y.
Proof.
  induction l as [|a l IH]; cbn [fmap list_fmap]; intros Hnd Hx Hy Hf; [by apply not_elem_of_nil in Hx|].
  apply NoDup_cons in Hnd as [Ha Hnd].
  apply elem_of_cons in Hx as [->|Hx], Hy as [->|Hy]; [done| | |by apply IH].
  - destruct Ha. rewrite Hf. by apply list_elem_of_fmap_2.
  - destruct Ha. rewrite <- Hf. by apply list_elem_of_fmap_2.
Qed.

(** Inserting the elements of a list under different keys. *)
Lemma foldl_insert_lookup {A V} (key : A → string) (val : A → V) (l : list A)
    (m : gmap string V) k v :
  NoDup (key <$> l) →
  foldl (λ m' a, <[key a := val a]> m') m l !! k = Some v ↔
  (∃ a, a ∈ l ∧ key a = k ∧ val a = v) ∨ (k ∉ key <$> l ∧ m !! k = Some v).
Proof.
  revert m. induction l as [|a l IH]; intros m Hnd; cbn [foldl fmap list_fmap].
  - split; [intros Hm; right; split; [apply not_elem_of_nil|done]|].
    by intros [(a & ?%not_elem_of_nil & _)|[_ ?]].
  - apply NoDup_cons in Hnd as [Ha Hnd]. rewrite (IH _ Hnd), lookup_insert_Some, not_elem_of_cons.
    split.
    + intros [(b & Hb & Hk & Hv)|[Hk [[Heq Hv]|[Hne Hm]]]].
      * left. exists b. split; [by right|done].
      * left. exists a. split; [by left|done].
      * right. by split.
    + intros [(b & [->|Hb]%elem_of_cons & Hk & Hv)|[[Hne Hk] Hm]].
      * right. split; [by rewrite <- Hk|]. by left.
      * left. by exists b.
      * right. split; [done|]. right. by split.
Qed.

(** A fold whose step functions commute on distinct keys gives the same result
    in every iteration order. *)
Lemma foldr_permutation_keys {B V} (f : string * V → B → B) (b : B) l1 l2 :
  (∀ x y z, x.1 ≠ y.1 → f x (f y z) = f y (f x z)) →
  NoDup l1.*1 → l1 ≡ₚ l2 → foldr f b l1 = foldr f b l2.
Proof.
  intros Hcomm Hnd Hp. revert Hnd.
  induction Hp as [|x l1 l2 Hp IH|x y l|l1 l2 l3 Hp1 IH1 Hp2 IH2]; simpl; intros Hnd.
  - done.
  - apply NoDup_cons in Hnd as [_ Hnd]. by rewrite IH.
  - apply NoDup_cons in Hnd as [Hx Hnd]. apply Hcomm.
    intros Heq. apply Hx. rewrite Heq. by left.
  - rewrite IH1 by done. apply IH2. by rewrite <- Hp1.
Qed.
