(* ===== verification/GoString.v ===== *)
(** * Go strings

    Go strings are byte sequences: [string] here, whose characters are bytes.
    The functions of the packages [strings], [unicode/utf8] and [sort] that the
    program calls, with the lemmas the components share. *)

From S2P Require Import Prelude.
From Stdlib Require Import Ascii.
Open Scope Z_scope.

Definition byte_of (c : ascii) : Z := Z.of_N (N_of_ascii c).

(** The double quote and the line feed, which string literals cannot hold. *)
Definition dquote : ascii := ascii_of_nat 34.
Definition lf : ascii := ascii_of_nat 10.
Definition cr : ascii := ascii_of_nat 13.

(** ** Prefixes and suffixes *)

(** [cut_prefix p s] is what follows the prefix [p] of [s]. *)
Fixpoint cut_prefix (p s : string) : option string :=
  match p, s with
  | "", _ => Some s
  | String a p', String b s' => if decide (a = b) then cut_prefix p' s' else None
  | String _ _, "" => None
  end.

Definition HasPrefix (s p : string) : bool := bool_decide (is_Some (cut_prefix p s)).
Definition TrimPrefix (s p : string) : string := default s (cut_prefix p s).
Definition HasSuffix (s p : string) : bool := HasPrefix (String.rev s) (String.rev p).
Definition TrimSuffix (s p : string) : string :=
  if HasSuffix s p then String.rev (TrimPrefix (String.rev s) (String.rev p)) else s.

(** ** Searching *)
Fixpoint Contains (s sub : string) : bool :=
  HasPrefix s sub ||
  match s with "" => false | String _ s' => Contains s' sub end.

(** [strings.LastIndex(s, c)] for a one-byte [c]: -1 when there is none. *)
Fixpoint LastIndexByte (s : string) (c : ascii) : Z :=
  match s with
  | "" => -1
  | String a s' =>
      let i := LastIndexByte s' c in
      if bool_decide (0 <= i) then i + 1 else if decide (a = c) then 0 else -1
  end.

(** [s[n:]] for [n] at most [len(s)]. *)
Fixpoint slice_from (n : nat) (s : string) : string :=
  match n, s with
  | S n', String _ s' => slice_from n' s'
  | _, _ => s
  end.

(** [s[:n]] for [n] at most [len(s)]. *)
Fixpoint slice_to (n : nat) (s : string) : string :=
  match n, s with
  | S n', String a s' => String a (slice_to n' s')
  | _, _ => ""
  end.

(** ** Splitting, joining, replacing *)

(** [strings.Split(s, c)] for a one-byte separator. *)
Fixpoint Split (s : string) (c : ascii) : list string :=
  match s with
  | "" => [""]
  | String a s' =>
      if decide (a = c) then "" :: Split s' c
      else match Split s' c with
           | [] => [String a ""]
           | w :: ws => String a w :: ws
           end
  end.

(** [strings.SplitN(s, c, n)] with [n > 0]: at most [n] parts. *)
Fixpoint SplitN (s : string) (c : ascii) (n : nat) : list string :=
  match s with
  | "" => [""]
  | String a s' =>
      match n with
      | S (S n') =>
          if decide (a = c) then "" :: SplitN s' c (S n')
          else match SplitN s' c n with
               | [] => [String a ""]
               | w :: ws => String a w :: ws
               end
      | _ => [s]
      end
  end.

(** [strings.Join(ws, sep)]. *)
Fixpoint Join (ws : list string) (sep : string) : string :=
  match ws with
  | [] => ""
  | [w] => w
  | w :: ws' => w +:+ sep +:+ Join ws' sep
  end.

(** [strings.ReplaceAll(s, pat, "")] for a non-empty [pat]; [skip] counts the
    bytes of the current match still to be dropped. *)
Fixpoint remove_all_go (pat : string) (skip : nat) (s : string) : string :=
  match s with
  | "" => ""
  | String a s' =>
      match skip with
      | S k => remove_all_go pat k s'
      | O => if HasPrefix s pat then remove_all_go pat (String.length pat - 1) s'
             else String a (remove_all_go pat O s')
      end
  end.
Definition RemoveAll (s pat : string) : string := remove_all_go pat O s.

(** ** UTF-8 *)
Definition RuneError : Z := 65533.

Definition in_range (lo hi b : Z) : bool := (lo <=? b) && (b <=? hi).

(** [utf8.DecodeRune]: the first rune and its width; an invalid encoding is
    [RuneError] of width one. *)
Definition decode_rune (b0 : Z) (rest : string) : Z * nat :=
  let cont lo hi (s : string) (k : Z → string → Z * nat) :=
    match s with
    | String c s' => if in_range lo hi (byte_of c) then k (byte_of c) s' else (RuneError, 1%nat)
    | "" => (RuneError, 1%nat)
    end in
  if b0 <? 128 then (b0, 1%nat)
  else if in_range 194 223 b0 then
    cont 128 191 rest (λ b1 _, (Z.lor (Z.shiftl (Z.land b0 31) 6) (Z.land b1 63), 2%nat))
  else if in_range 224 239 b0 then
    let lo := if b0 =? 224 then 160 else 128 in
    let hi := if b0 =? 237 then 159 else 191 in
    cont lo hi rest (λ b1 r1, cont 128 191 r1 (λ b2 _,
      (Z.lor (Z.lor (Z.shiftl (Z.land b0 15) 12) (Z.shiftl (Z.land b1 63) 6))
             (Z.land b2 63), 3%nat)))
  else if in_range 240 244 b0 then
    let lo := if b0 =? 240 then 144 else 128 in
    let hi := if b0 =? 244 then 143 else 191 in
    cont lo hi rest (λ b1 r1, cont 128 191 r1 (λ b2 r2, cont 128 191 r2 (λ b3 _,
      (Z.lor (Z.lor (Z.shiftl (Z.land b0 7) 18) (Z.shiftl (Z.land b1 63) 12))
             (Z.lor (Z.shiftl (Z.land b2 63) 6) (Z.land b3 63)), 4%nat))))
  else (RuneError, 1%nat).

(** The runes of [for _, c := range s], each with the bytes it was read from. *)
Fixpoint runes_go (skip : nat) (s : string) : list (Z * string) :=
  match s with
  | "" => []
  | String a s' =>
      match skip with
      | S k => runes_go k s'
      | O => let '(r, w) := decode_rune (byte_of a) s' in
             (r, slice_to w s) :: runes_go (w - 1) s'
      end
  end.
Definition runes (s : string) : list (Z * string) := runes_go O s.

(** [unicode.IsSpace]. *)
Definition IsSpace (r : Z) : bool :=
  in_range 9 13 r || (r =? 32) || (r =? 133) || (r =? 160) || (r =? 5760) ||
  in_range 8192 8202 r || (r =? 8232) || (r =? 8233) || (r =? 8239) ||
  (r =? 8287) || (r =? 12288).

Fixpoint drop_spaces (rs : list (Z * string)) : list (Z * string) :=
  match rs with
  | (r, b) :: rs' => if IsSpace r then drop_spaces rs' else rs
  | [] => []
  end.

(** [strings.TrimSpace]. *)
Definition TrimSpace (s : string) : string :=
  Join (reverse (drop_spaces (reverse (drop_spaces (runes s))))).*2 "".

(** ** Sorting *)

(** [sort.Strings], [slices.Sort] on strings. *)
Definition sort_strings (l : list string) : list string := merge_sort String.le l.

(** ** Lemmas *)

Lemma append_cons a s t : String a s +:+ t = String a (s +:+ t).
Proof. done. Qed.

Lemma append_nil_r s : s +:+ "" = s.
Proof. induction s as [|a s IH]; [done|]. by rewrite append_cons, IH. Qed.

Lemma append_assoc_str s t u : (s +:+ t) +:+ u = s +:+ (t +:+ u).
Proof. induction s as [|a s IH]; [done|]. by rewrite !append_cons, IH. Qed.

Lemma length_append s t :
  String.length (s +:+ t) = (String.length s + String.length t)%nat.
Proof. induction s as [|a s IH]; [done|]. rewrite append_cons. simpl. by rewrite IH. Qed.

Lemma append_eq_nil s t : s +:+ t = "" ↔ s = "" ∧ t = "".
Proof. split; [|by intros [-> ->]]. by destruct s, t. Qed.

Lemma cut_prefix_Some p s r : cut_prefix p s = Some r ↔ s = p +:+ r.
Proof.
  revert s. induction p as [|a p IH]; intros s; simpl.
  - split; [by intros [= ->]|by intros ->].
  - destruct s as [|b s]; [done|]. case_decide as Hab.
    + subst. rewrite IH, append_cons. naive_solver.
    + rewrite append_cons. naive_solver.
Qed.

Lemma HasPrefix_spec s p : HasPrefix s p = true ↔ ∃ r, s = p +:+ r.
Proof.
  unfold HasPrefix. rewrite bool_decide_eq_true. unfold is_Some.
  by setoid_rewrite cut_prefix_Some.
Qed.

Lemma HasPrefix_false s p : HasPrefix s p = false ↔ ∀ r, s ≠ p +:+ r.
Proof.
  rewrite <- not_true_iff_false, HasPrefix_spec. naive_solver.
Qed.

Lemma HasPrefix_app p r : HasPrefix (p +:+ r) p = true.
Proof. apply HasPrefix_spec. eauto. Qed.

Lemma TrimPrefix_app p r : TrimPrefix (p +:+ r) p = r.
Proof. unfold TrimPrefix. by rewrite (proj2 (cut_prefix_Some p (p +:+ r) r)). Qed.

Lemma HasPrefix_TrimPrefix s p : HasPrefix s p = true → s = p +:+ TrimPrefix s p.
Proof. intros [r ->]%HasPrefix_spec. by rewrite TrimPrefix_app. Qed.

Lemma append_inj_l p r1 r2 : p +:+ r1 = p +:+ r2 → r1 = r2.
Proof. apply String.app_inj. Qed.

Lemma Contains_spec s sub : Contains s sub = true ↔ ∃ a b, s = a +:+ sub +:+ b.
Proof.
  revert sub. induction s as [|c s IH]; intros sub; simpl;
    rewrite orb_true_iff, HasPrefix_spec.
  - split.
    + intros [[r Hr]|?]; [|done]. exists "", r. done.
    + intros (a & b & H). left. exists b. by destruct a.
  - rewrite IH. split.
    + intros [[r Hr]|(a & b & ->)]; [by exists "", r|by exists (String c a), b].
    + intros (a & b & H). destruct a as [|c' a]; [left; by exists b|].
      right. injection H as -> H. eauto.
Qed.

Lemma Contains_app_r a s sub : Contains s sub = true → Contains (a +:+ s) sub = true.
Proof.
  rewrite !Contains_spec. intros (x & y & ->). exists (a +:+ x), y.
  by rewrite append_assoc_str.
Qed.

Lemma slice_from_length s : slice_from (String.length s) s = "".
Proof. induction s; auto. Qed.

Lemma slice_to_from n s : slice_to n s +:+ slice_from n s = s.
Proof.
  revert s. induction n as [|n IH]; intros [|a s]; simpl; try done.
  by rewrite append_cons, IH.
Qed.

(** ** Splitting and joining are inverse *)

Fixpoint no_byte (c : ascii) (s : string) : Prop :=
  match s with "" => True | String a s' => a ≠ c ∧ no_byte c s' end.

Lemma Split_not_nil s c : Split s c ≠ [].
Proof. destruct s; simpl; case_all. Qed.

Lemma Split_no_sep s c w : w ∈ Split s c → no_byte c w.
Proof.
  revert w. induction s as [|a s IH]; intros w; simpl.
  - intros ->%list_elem_of_singleton. done.
  - case_decide as Ha.
    + intros [->|Hw]%elem_of_cons; [done|auto].
    + destruct (Split s c) as [|v vs]; intros [->|Hw]%elem_of_cons;
        simpl; try (by apply not_elem_of_nil in Hw); auto using list_elem_of_further.
      split; [done|]. apply IH. by left.
Qed.

Lemma Join_Split s c : Join (Split s c) (String c "") = s.
Proof.
  induction s as [|a s IH]; simpl; [done|].
  pose proof (Split_not_nil s c) as Hne.
  case_decide as Ha; [subst|]; destruct (Split s c) as [|v [|v' vs]]; try done;
    simpl in *; by rewrite <- IH.
Qed.

Lemma Split_no_byte w c : no_byte c w → Split w c = [w].
Proof.
  induction w as [|a w IH]; simpl; [done|]. intros [Ha Hw].
  by rewrite decide_False, IH.
Qed.

Lemma Split_app_sep w s c : no_byte c w → Split (w +:+ String c s) c = w :: Split s c.
Proof.
  induction w as [|a w IH]; simpl.
  - intros _. by rewrite decide_True.
  - intros [Ha Hw]. rewrite ?append_cons. simpl. by rewrite decide_False, IH.
Qed.

Lemma Split_Join ws c :
  ws ≠ [] → Forall (no_byte c) ws → Split (Join ws (String c "")) c = ws.
Proof.
  intros Hne Hws. induction Hws as [|w ws Hw Hws IH]; [done|].
  destruct ws as [|w' ws]; simpl; [by apply Split_no_byte|].
  rewrite ?append_cons, Split_app_sep by done. f_equal. by apply IH.
Qed.

(** [SplitN(s, c, 2)] cuts at the first separator. *)
Lemma SplitN_2_sep w s c : no_byte c w → SplitN (w +:+ String c s) c 2 = [w; s].
Proof.
  induction w as [|a w IH]; simpl.
  - intros _. rewrite decide_True by done. by destruct s.
  - intros [Ha Hw]. rewrite ?append_cons. simpl. by rewrite decide_False, IH.
Qed.

Lemma SplitN_no_byte w c n : no_byte c w → SplitN w c n = [w].
Proof.
  revert n. induction w as [|a w IH]; intros n; simpl; [done|]. intros [Ha Hw].
  destruct n as [|[|n]]; try done. by rewrite decide_False, IH.
Qed.

Lemma SplitN_3_sep u v s c :
  no_byte c u → no_byte c v → SplitN (u +:+ String c (v +:+ String c s)) c 3 = [u; v; s].
Proof.
  intros Hu Hv. induction u as [|a u IH]; simpl.
  - rewrite decide_True by done. by rewrite SplitN_2_sep.
  - destruct Hu as [Ha Hu]. rewrite ?append_cons. simpl. by rewrite decide_False, IH.
Qed.

(** ** Sorting *)
Lemma sort_strings_perm l : sort_strings l ≡ₚ l.
Proof. apply merge_sort_Permutation. Qed.

Lemma sort_strings_sorted l : StronglySorted String.le (sort_strings l).
Proof. apply StronglySorted_merge_sort; apply _. Qed.

(** A sorted list does not depend on the order its elements were found in. *)
Lemma sort_strings_unique l1 l2 : l1 ≡ₚ l2 → sort_strings l1 = sort_strings l2.
Proof.
  intros Hp. apply (StronglySorted_unique String.le).
  - apply sort_strings_sorted.
  - apply sort_strings_sorted.
  - by rewrite !sort_strings_perm.
Qed.

#[export] Hint Rewrite append_nil_r append_assoc_str append_cons : go_string.
#[export] Hint Resolve HasPrefix_app sort_strings_perm sort_strings_sorted : go.

(** Two prefixes of one string are prefixes of one another. *)
Lemma prefixes_comparable s p q :
  HasPrefix s p = true → HasPrefix s q = true → HasPrefix p q = true ∨ HasPrefix q p = true.
Proof.
  revert p q. induction s as [|a s IH]; intros p q.
  - intros [r1 H1]%HasPrefix_spec [r2 H2]%HasPrefix_spec.
    symmetry in H1. apply append_eq_nil in H1 as [-> ->]. right. by apply HasPrefix_spec; eexists.
  - intros [r1 H1]%HasPrefix_spec [r2 H2]%HasPrefix_spec.
    destruct p as [|b p]; [right; apply HasPrefix_spec; by eexists|].
    destruct q as [|c q]; [left; apply HasPrefix_spec; by eexists|].
    rewrite append_cons in H1, H2. simplify_eq.
    destruct (IH p q) as [[r ->]%HasPrefix_spec|[r ->]%HasPrefix_spec];
      [apply HasPrefix_spec; eauto..|left|right]; apply HasPrefix_spec; exists r; done.
Qed.

Lemma no_byte_app c s t : no_byte c (s +:+ t) ↔ no_byte c s ∧ no_byte c t.
Proof.
  induction s as [|a s IH]; [naive_solver|]. rewrite append_cons. simpl. naive_solver.
Qed.
