(* ===== verification/GoConv.v ===== *)
(** * Go conversions

    [strconv.Atoi], [strconv.ParseBool] and [time.ParseDuration], at their
    widths: an [int] and a [time.Duration] are 64-bit signed, the accumulator
    of [ParseDuration] is a 64-bit unsigned, and its fraction is computed in
    binary64. *)

From S2P Require Import Prelude GoString.
From Stdlib Require Import Ascii.
From Corelib Require Import Floats.SpecFloat.
Open Scope Z_scope.

Definition MaxInt64 : Z := 9223372036854775807.
Definition MinInt64 : Z := -9223372036854775808.
Definition two63 : Z := 9223372036854775808.
Definition two64 : Z := 18446744073709551616.

(** Conversion to [int64] with wrap-around. *)
Definition wrap_int64 (z : Z) : Z := (z + two63) mod two64 - two63.

Definition is_digit (c : ascii) : bool := in_range 48 57 (byte_of c).
Definition digit_val (c : ascii) : Z := byte_of c - 48.

(** ** strconv.Atoi *)
Fixpoint digits_val (acc : Z) (s : string) : option Z :=
  match s with
  | "" => Some acc
  | String c s' => if is_digit c then digits_val (acc * 10 + digit_val c) s' else None
  end.

Definition Atoi (s : string) : option Z :=
  let unsigned (neg : bool) (t : string) :=
    match t with
    | "" => None
    | _ => match digits_val 0 t with
           | Some n =>
               let v := if neg then - n else n in
               if (MinInt64 <=? v) && (v <=? MaxInt64) then Some v else None
           | None => None
           end
    end in
  match s with
  | String c t =>
      if decide (c = "-"%char) then unsigned true t
      else if decide (c = "+"%char) then unsigned false t
      else unsigned false s
  | "" => None
  end.

(** ** strconv.ParseBool *)
Definition ParseBool (s : string) : option bool :=
  if decide (s ∈ ["1"; "t"; "T"; "TRUE"; "true"; "True"]) then Some true
  else if decide (s ∈ ["0"; "f"; "F"; "FALSE"; "false"; "False"]) then Some false
  else None.

(** ** time.ParseDuration *)
Inductive duration_error :=
| invalid_duration | missing_unit | unknown_unit (u : string).

(** [leadingInt]: the digits at the start of [s], [None] on overflow. *)
Fixpoint leadingInt (x : Z) (s : string) : option (Z * string) :=
  match s with
  | String c s' =>
      if is_digit c then
        if two63 / 10 <? x then None
        else let y := x * 10 + digit_val c in
             if two63 <? y then None else leadingInt y s'
      else Some (x, s)
  | "" => Some (x, "")
  end.

(** Binary64, as IEEE 754 operations on [spec_float]. *)
Definition f64_mul (x y : spec_float) : spec_float := SFmul 53 1024 x y.
Definition f64_div (x y : spec_float) : spec_float := SFdiv 53 1024 x y.
Definition f64_of_Z (z : Z) : spec_float := binary_normalize 53 1024 z 0 false.
(** [uint64(x)] for a finite non-negative [x]. *)
Definition f64_trunc (x : spec_float) : Z :=
  match x with
  | S754_finite false m e => if 0 <=? e then Z.shiftl (Zpos m) e else Z.shiftr (Zpos m) (- e)
  | _ => 0
  end.

(** [leadingFraction]: the digits after the point, the power of ten they are
    scaled by, and the rest; digits past the overflow are dropped. *)
Fixpoint leadingFraction (x : Z) (scale : spec_float) (overflow : bool) (s : string) :
    Z * spec_float * string :=
  match s with
  | String c s' =>
      if is_digit c then
        if overflow then leadingFraction x scale true s'
        else if MaxInt64 / 10 <? x then leadingFraction x scale true s'
        else let y := x * 10 + digit_val c in
             if two63 <? y then leadingFraction x scale true s'
             else leadingFraction y (f64_mul scale (f64_of_Z 10)) false s'
      else (x, scale, s)
  | "" => (x, scale, "")
  end.

(** The unit: everything up to the next digit or point. *)
Fixpoint span_unit (s : string) : string * string :=
  match s with
  | String c s' =>
      if (byte_of c =? 46) || is_digit c then ("", s)
      else let '(u, r) := span_unit s' in (String c u, r)
  | "" => ("", "")
  end.

(** The two UTF-8 spellings of the unit of microseconds. *)
Definition micro_sign : string := String (ascii_of_nat 194) (String (ascii_of_nat 181) "s").
Definition greek_mu : string := String (ascii_of_nat 206) (String (ascii_of_nat 188) "s").

Definition Nanosecond : Z := 1.
Definition Microsecond : Z := 1000 * Nanosecond.
Definition Millisecond : Z := 1000 * Microsecond.
Definition Second : Z := 1000 * Millisecond.
Definition Minute : Z := 60 * Second.
Definition Hour : Z := 60 * Minute.

Definition unitMap (u : string) : option Z :=
  if decide (u = "ns") then Some Nanosecond
  else if decide (u ∈ ["us"; micro_sign; greek_mu]) then Some Microsecond
  else if decide (u = "ms") then Some Millisecond
  else if decide (u = "s") then Some Second
  else if decide (u = "m") then Some Minute
  else if decide (u = "h") then Some Hour
  else None.

(** One component of a duration (a decimal number, then its unit) and what
    follows it. *)
Definition duration_component (s : string) : duration_error + (Z * string) :=
  match s with
  | "" => inl invalid_duration
  | String c0 _ =>
      if negb ((byte_of c0 =? 46) || is_digit c0) then inl invalid_duration else
      match leadingInt 0 s with
      | None => inl invalid_duration
      | Some (v, s1) =>
          let pre := negb (String.length s1 =? String.length s)%nat in
          let '(f, scale, s2, post) :=
            match s1 with
            | String c s1' =>
                if byte_of c =? 46 then
                  let '(f, scale, s2) := leadingFraction 0 (f64_of_Z 1) false s1' in
                  (f, scale, s2, negb (String.length s2 =? String.length s1')%nat)
                else (0, f64_of_Z 1, s1, false)
            | "" => (0, f64_of_Z 1, s1, false)
            end in
          if negb (pre || post) then inl invalid_duration else
          let '(u, s3) := span_unit s2 in
          if decide (u = "") then inl missing_unit else
          match unitMap u with
          | None => inl (unknown_unit u)
          | Some unit =>
              if two63 / unit <? v then inl invalid_duration else
              let v := v * unit in
              let frac :=
                if 0 <? f then f64_trunc (f64_mul (f64_of_Z f) (f64_div (f64_of_Z unit) scale))
                else 0 in
              let v' := (v + frac) mod two64 in
              if (0 <? f) && (two63 <? v') then inl invalid_duration
              else inr (v', s3)
          end
      end
  end.

(** The loop over the components; every component consumes a byte, so the
    length of the string is enough fuel: [duration_loop_fuel]. *)
Fixpoint duration_loop (fuel : nat) (d : Z) (s : string) : duration_error + Z :=
  match s with
  | "" => inr d
  | _ =>
      match fuel with
      | O => inl invalid_duration
      | S fuel' =>
          match duration_component s with
          | inl e => inl e
          | inr (v, s') =>
              let d' := (d + v) mod two64 in
              if two63 <? d' then inl invalid_duration else duration_loop fuel' d' s'
          end
      end
  end.

Definition ParseDuration (s : string) : duration_error + Z :=
  let '(neg, t) :=
    match s with
    | String c s' => if decide (c = "-"%char) then (true, s')
                     else if decide (c = "+"%char) then (false, s') else (false, s)
    | "" => (false, s)
    end in
  if decide (t = "0") then inr 0
  else if decide (t = "") then inl invalid_duration
  else match duration_loop (String.length t) 0 t with
       | inl e => inl e
       | inr d => if neg then inr (wrap_int64 (- wrap_int64 d))
                  else if MaxInt64 <? d then inl invalid_duration else inr d
       end.

(** The value of a call whose error the program discards: Go returns zero. *)
Definition duration_or_zero (r : duration_error + Z) : Z :=
  match r with inl _ => 0 | inr d => d end.

(** ** The fuel of [ParseDuration] *)
Lemma leadingInt_length x s v s' :
  leadingInt x s = Some (v, s') → (String.length s' ≤ String.length s)%nat.
Proof.
  revert x. induction s as [|c s IH]; intros x; cbn [leadingInt]; [by intros [= _ <-]|].
  destruct (is_digit c); [|by intros [= _ <-]].
  destruct (two63 / 10 <? x); [done|]. cbn zeta.
  destruct (two63 <? x * 10 + digit_val c); [done|]. intros H%IH. cbn. lia.
Qed.

Lemma leadingFraction_length x sc o s :
  (String.length (leadingFraction x sc o s).2 ≤ String.length s)%nat.
Proof.
  revert x sc o. induction s as [|c s IH]; intros x sc o; cbn [leadingFraction]; [done|].
  destruct (is_digit c); [|done]. cbn [String.length].
  cbn zeta. destruct o, (MaxInt64 / 10 <? x), (two63 <? x * 10 + digit_val c);
    (etransitivity; [apply IH|lia]).
Qed.

Lemma span_unit_length s :
  (String.length (span_unit s).1 + String.length (span_unit s).2 = String.length s)%nat.
Proof.
  induction s as [|c s IH]; cbn [span_unit]; [done|]. destruct (_ || _); [done|].
  destruct (span_unit s) as [u r]. cbn in *. lia.
Qed.

(** Every component has a unit, so it consumes at least a byte. *)
Lemma duration_component_shorter s v s' :
  duration_component s = inr (v, s') → (String.length s' < String.length s)%nat.
Proof.
  unfold duration_component. destruct s as [|c0 s0]; [done|]. set (s := String c0 s0).
  destruct (negb _); [done|]. destruct (leadingInt 0 s) as [[n s1]|] eqn:Hn; [|done].
  apply leadingInt_length in Hn. cbn zeta.
  destruct (match s1 with "" => _ | _ => _ end) as [[[f sc] s2] post] eqn:Hf.
  assert (String.length s2 ≤ String.length s1)%nat as Hs2.
  { destruct s1 as [|c s1]; [by simplify_eq|]. destruct (byte_of c =? 46); [|by simplify_eq].
    pose proof (leadingFraction_length 0 (f64_of_Z 1) false s1) as Hl.
    destruct (leadingFraction _ _ _ s1) as [[f' sc'] s3]. simplify_eq/=. lia. }
  destruct (negb _); [done|]. pose proof (span_unit_length s2) as Hu.
  destruct (span_unit s2) as [u s3]. cbn [fst snd] in Hu. destruct (decide (u = "")) as [|Hne]; [done|].
  destruct (unitMap u) as [unit|]; [|done]. destruct (two63 / unit <? n); [done|].
  destruct (_ && _); [done|]. intros [= _ <-].
  destruct u as [|a u]; [done|]. cbn [String.length] in Hu. lia.
Qed.

(** More fuel than the length of the text changes nothing. *)
Lemma duration_loop_fuel fuel d s :
  (String.length s ≤ fuel)%nat → duration_loop fuel d s = duration_loop (String.length s) d s.
Proof.
  assert (∀ n s d f f', (String.length s ≤ n)%nat → (String.length s ≤ f)%nat →
    (String.length s ≤ f')%nat → duration_loop f d s = duration_loop f' d s) as H; [|by intros; eapply H].
  clear. induction n as [|n IH]; intros s d f f' Hn Hf Hf'.
  { destruct s; [|cbn in Hn; lia]. by destruct f, f'. }
  destruct s as [|c s]; [by destruct f, f'|].
  destruct f as [|f], f' as [|f']; try (cbn in Hf, Hf'; lia). cbn [duration_loop].
  destruct (duration_component (String c s)) as [e|[v s']] eqn:Hc; [done|].
  apply duration_component_shorter in Hc. cbn [String.length] in *.
  destruct (two63 <? _); [done|]. apply IH; lia.
Qed.

(** ** Lemmas *)
Lemma Atoi_bounds s n : Atoi s = Some n → MinInt64 <= n <= MaxInt64.
Proof.
  unfold Atoi. intros H. case_all;
    match goal with H : (_ && _)%bool = true |- _ =>
      apply andb_true_iff in H as [?%Z.leb_le ?%Z.leb_le] end; lia.
Qed.

Lemma Atoi_empty : Atoi "" = None.
Proof. done. Qed.

Example Atoi_examples :
  Atoi "-1" = Some (-1) ∧ Atoi "+007" = Some 7 ∧ Atoi "9223372036854775808" = None ∧
  Atoi "1_0" = None ∧ Atoi "" = None.
Proof. by vm_compute. Qed.

Example ParseDuration_examples :
  ParseDuration "5m" = inr 300000000000 ∧ ParseDuration "1h30m" = inr 5400000000000 ∧
  ParseDuration "1.5s" = inr 1500000000 ∧ ParseDuration "0.3h" = inr 1080000000000 ∧
  ParseDuration "-2ms" = inr (-2000000) ∧ ParseDuration "" = inl invalid_duration ∧
  ParseDuration "10" = inl missing_unit ∧ ParseDuration "0" = inr 0 ∧
  ParseDuration "9223372036854775807ns" = inr MaxInt64 ∧
  ParseDuration "9223372036854775808ns" = inl invalid_duration ∧
  ParseDuration "-9223372036854775808ns" = inr MinInt64 ∧
  ParseDuration "1d" = inl (unknown_unit "d").
Proof. by vm_compute. Qed.

Section duration_bounds.

Lemma duration_loop_bounds fuel d s r :
  0 <= d <= two63 → duration_loop fuel d s = inr r → 0 <= r <= two63.
Proof.
  revert d s. induction fuel as [|fuel IH]; intros d s Hd Hr; destruct s as [|c s];
    cbn [duration_loop] in Hr; try (by injection Hr as <-); try discriminate.
  destruct (duration_component (String c s)) as [e|[v s']]; [discriminate|].
  destruct (two63 <? _) eqn:Hlt; [discriminate|].
  apply IH in Hr; [done|]. apply Z.ltb_ge in Hlt. split; [|done].
  apply Z.mod_pos_bound. done.
Qed.

(** A parsed duration is an [int64]. *)
Lemma ParseDuration_bounds s d :
  ParseDuration s = inr d → MinInt64 <= d <= MaxInt64.
Proof.
  unfold ParseDuration. destruct (match s with "" => _ | _ => _ end) as [neg t].
  intros H. repeat case_decide; simplify_eq/=; [by vm_compute|].
  destruct (duration_loop _ _ _) as [e|r] eqn:Hl; simplify_eq/=.
  apply duration_loop_bounds in Hl; [|by vm_compute].
  destruct neg; simplify_eq/=.
  - unfold wrap_int64, MinInt64, MaxInt64, two63, two64.
    pose proof (Z.mod_pos_bound
      (- ((r + 9223372036854775808) mod 18446744073709551616 - 9223372036854775808)
       + 9223372036854775808) 18446744073709551616). lia.
  - destruct (MaxInt64 <? r) eqn:Hlt; simplify_eq/=. apply Z.ltb_ge in Hlt.
    unfold MinInt64. lia.
Qed.
End duration_bounds.

Lemma ParseDuration_empty : duration_or_zero (ParseDuration "") = 0.
Proof. done. Qed.
