(* ===== verification/Config.v ===== *)
(** * Configuration (pkg/secrets/config/config.go)

    Gathering the settings from the Pod annotations and the environment, their
    validation, and the [Config] built from them. *)

From S2P Require Import Prelude GoString GoConv.
From Stdlib Require Import Ascii.
Open Scope Z_scope.

(** ** Constants *)
Definition K8s : string := "k8s_secrets".
Definition File : string := "file".
Definition ConjurMapKey : string := "conjur-map".
Definition DefaultRetryCountLimit : Z := 5.
Definition DefaultRetryCountLimitStandalone : Z := -1.
Definition DefaultRetryIntervalSec : Z := 1.
Definition MinRetryCountLimit : Z := -1.
Definition MinRetryIntervalSec : Z := 0.
Definition MinRefreshInterval : Z := Second.
Definition DefaultRefreshIntervalStr : string := "5m".
Definition DefaultSanitizeEnabled : bool := true.

Definition AuthnIdentityKey := "conjur.org/authn-identity".
Definition JwtTokenPath := "conjur.org/jwt-token-path".
Definition ContainerModeKey := "conjur.org/container-mode".
Definition NamespaceAllowlistKey := "conjur.org/namespace-allowlist".
Definition SecretsDestinationKey := "conjur.org/secrets-destination".
Definition k8sSecretsKey := "conjur.org/k8s-secrets".
Definition retryCountLimitKey := "conjur.org/retry-count-limit".
Definition retryIntervalSecKey := "conjur.org/retry-interval-sec".
Definition SecretsRefreshIntervalKey := "conjur.org/secrets-refresh-interval".
Definition SecretsRefreshEnabledKey := "conjur.org/secrets-refresh-enabled".
Definition RemoveDeletedSecretsKey := "conjur.org/remove-deleted-secrets-enabled".
Definition debugLoggingKey := "conjur.org/debug-logging".
Definition logLevelKey := "conjur.org/log-level".
Definition logTracesKey := "conjur.org/log-traces".
Definition jaegerCollectorUrl := "conjur.org/jaeger-collector-url".
Definition ManagedByProviderKey := "conjur.org/managed-by-provider".
Definition ServerAddressKey := "conjur.org/server-address".

(** ** Data *)
Record Config := mkConfig {
  PodNamespace : string;
  RequiredK8sSecrets : list string;
  RetryCountLimit : Z;
  RetryIntervalSec : Z;
  StoreType : string;
  SecretsRefreshInterval : Z;
  SanitizeEnabled : bool;
  ContainerMode : string;
  NamespaceAllowlist : string;
  ServerAddress : string
}.

Inductive annotationType := TYPESTRING | TYPEINT | TYPEBOOL.

Record annotationRestraints := Restraints {
  allowedType : annotationType;
  allowedValues : list string
}.

(** The messages of pkg/log/messages that the configuration reports, with
    their arguments. *)
Inductive refresh_reason :=
| BadDuration (e : duration_error)
| IntervalWhileDisabled
| IntervalTooSmall.

Inductive config_message :=
| CSPFK004E (var : string)
| CSPFK005E (var : string)
| CSPFK011I (key : string)
| CSPFK012I (setting env annot : string)
| CSPFK024I
| CSPFK037I
| CSPFK042E (key value type : string)
| CSPFK043E (key value : string) (accepted : list string)
| CSPFK046E
| CSPFK047E
| CSPFK050E (interval : string) (reason : refresh_reason)
| CSPFK051E (reason mode : string)
| CSPFK052E (what : string)
| CSPFK093E (what : string).

Definition secretsProviderAnnotations : gmap string annotationRestraints := list_to_map [
  (AuthnIdentityKey, Restraints TYPESTRING []);
  (JwtTokenPath, Restraints TYPESTRING []);
  (ContainerModeKey, Restraints TYPESTRING ["init"; "application"; "sidecar"; "standalone"]);
  (NamespaceAllowlistKey, Restraints TYPESTRING []);
  (SecretsDestinationKey, Restraints TYPESTRING ["file"; "k8s_secrets"]);
  (k8sSecretsKey, Restraints TYPESTRING []);
  (retryCountLimitKey, Restraints TYPEINT []);
  (retryIntervalSecKey, Restraints TYPEINT []);
  (SecretsRefreshIntervalKey, Restraints TYPESTRING []);
  (SecretsRefreshEnabledKey, Restraints TYPEBOOL []);
  (RemoveDeletedSecretsKey, Restraints TYPEBOOL []);
  (debugLoggingKey, Restraints TYPEBOOL []);
  (logLevelKey, Restraints TYPESTRING ["debug"; "info"; "warn"; "error"]);
  (logTracesKey, Restraints TYPEBOOL []);
  (jaegerCollectorUrl, Restraints TYPESTRING []);
  (ServerAddressKey, Restraints TYPESTRING [])
].

Definition pushToFileAnnotationPrefixes : gmap string annotationRestraints := list_to_map [
  ("conjur.org/conjur-secrets.", Restraints TYPESTRING []);
  ("conjur.org/conjur-secrets-policy-path.", Restraints TYPESTRING []);
  ("conjur.org/secret-file-path.", Restraints TYPESTRING []);
  ("conjur.org/secret-file-format.",
    Restraints TYPESTRING ["yaml"; "json"; "dotenv"; "bash"; "properties"; "template"]);
  ("conjur.org/secret-file-permissions.", Restraints TYPESTRING []);
  ("conjur.org/secret-file-template.", Restraints TYPESTRING [])
].

#[global] Opaque secretsProviderAnnotations pushToFileAnnotationPrefixes.

Definition validEnvVars : list string := [
  "MY_POD_NAMESPACE"; "SECRETS_DESTINATION"; "K8S_SECRETS"; "RETRY_INTERVAL_SEC";
  "RETRY_COUNT_LIMIT"; "JWT_TOKEN_PATH"; "REMOVE_DELETED_SECRETS"; "CONTAINER_MODE";
  "NAMESPACE_ALLOWLIST"; "SERVER_ADDRESS"].

(** ** Annotation validation *)
Definition valueInArray (value : string) (array : list string) : bool :=
  existsb (λ item, bool_decide (value = item)) array.

Fixpoint find_prefix (value : string) (keys : list string) : option string :=
  match keys with
  | [] => None
  | key :: keys' => if HasPrefix value key then Some key else find_prefix value keys'
  end.

Definition valuePrefixInMapKeys (o : range_order) (value : string)
    (searchMap : gmap string annotationRestraints) : option string :=
  find_prefix value (range o searchMap).*1.

(** The key or its prefix, the map it was found in, and the error: a key
    outside "conjur.org/" gives the empty match and the nil map. *)
Definition validateAnnotationKey (o : range_order) (key : string) :
    config_message + (string * gmap string annotationRestraints) :=
  if HasPrefix key "conjur.org/" then
    match secretsProviderAnnotations !! key with
    | Some _ => inr (key, secretsProviderAnnotations)
    | None =>
        match valuePrefixInMapKeys o key pushToFileAnnotationPrefixes with
        | Some prefix => inr (prefix, pushToFileAnnotationPrefixes)
        | None => inl (CSPFK011I key)
        end
    end
  else inr ("", ∅).

Definition validateAnnotationValue (key value : string) (info : annotationRestraints) :
    option config_message :=
  match allowedType info with
  | TYPEINT =>
      match Atoi value with None => Some (CSPFK042E key value "Integer") | Some _ => None end
  | TYPEBOOL =>
      match ParseBool value with None => Some (CSPFK042E key value "Boolean") | Some _ => None end
  | TYPESTRING =>
      if bool_decide (0 < length (allowedValues info))%nat &&
         negb (valueInArray value (allowedValues info))
      then Some (CSPFK043E key value (allowedValues info)) else None
  end.

#[export] Instance annotationRestraints_inhabited : Inhabited annotationRestraints :=
  populate (Restraints TYPESTRING []).

(** The body of the loop: the error and the info of one annotation. *)
Definition validate_annotation (o : range_order) (kv : string * string) :
    list config_message * list config_message :=
  let '(key, value) := kv in
  match validateAnnotationKey o key with
  | inr (match_, foundMap) =>
      match validateAnnotationValue key value (foundMap !!! match_) with
      | Some err => ([err], [])
      | None => ([], [])
      end
  | inl err => ([], [err])
  end.

Definition ValidateAnnotations (o : range_order) (annotations : gmap string string) :
    list config_message * list config_message :=
  foldr (λ kv acc, let '(errs, infos) := validate_annotation o kv in
                   (errs ++ acc.1, infos ++ acc.2)) ([], []) (range o annotations).

(** ** Gathering the settings

    [getenv] is the process environment. *)
Definition gather_annotations (o : range_order) (annotations : gmap string string) :
    gmap string string :=
  foldl (λ masterMap '(annotation, value),
    match secretsProviderAnnotations !! annotation with
    | Some _ => <[annotation := value]> masterMap
    | None => masterMap
    end) ∅ (range o annotations).

Definition GatherSecretsProviderSettings (o : range_order) (getenv : string → string)
    (annotations : gmap string string) : gmap string string :=
  foldl (λ masterMap envVar,
    if decide (getenv envVar = "") then masterMap else <[envVar := getenv envVar]> masterMap)
    (gather_annotations o annotations) validEnvVars.

(** ** Settings validation *)
Definition validStoreType (storeType : string) : bool :=
  existsb (λ v, bool_decide (storeType = v)) [K8s; File].

Definition validateStore (envStoreType : string) : string * option config_message :=
  if decide (envStoreType = K8s) then (envStoreType, None)
  else if decide (envStoreType = File) then ("", Some CSPFK047E)
  else if decide (envStoreType = "") then ("", Some CSPFK046E)
  else ("", Some (CSPFK005E "SECRETS_DESTINATION")).

(** An annotation setting takes precedence over the environment variable. *)
Definition annot_or_env (m : gmap string string) (annotKey envVar : string) : string :=
  if decide (m !!! annotKey = "") then m !!! envVar else m !!! annotKey.

Definition validRefreshInterval (intervalStr enableStr : string)
    (envAndAnnots : gmap string string) : option config_message :=
  let containerMode := annot_or_env envAndAnnots ContainerModeKey "CONTAINER_MODE" in
  if decide (intervalStr = "" ∧ enableStr = "") then None
  else if decide (containerMode ≠ "sidecar" ∧ containerMode ≠ "standalone") then
    Some (CSPFK051E "Secrets refresh is enabled while container mode is set to" containerMode)
  else
    let enabled := default false (ParseBool enableStr) in
    let duration := ParseDuration intervalStr in
    if decide (intervalStr = "" ∧ enableStr ≠ "") then None
    else match duration with
         | inl e => Some (CSPFK050E intervalStr (BadDuration e))
         | inr d =>
             if negb enabled && bool_decide (enableStr ≠ "" ∧ intervalStr ≠ "")
             then Some (CSPFK050E intervalStr IntervalWhileDisabled)
             else if d <? MinRefreshInterval
             then Some (CSPFK050E intervalStr IntervalTooSmall) else None
         end.

(** [both m a e s]: the info that setting [s] is given twice. *)
Definition both_set (m : gmap string string) (setting env annot : string) :
    list config_message :=
  if decide (m !!! annot ≠ "" ∧ m !!! env ≠ "") then [CSPFK012I setting env annot] else [].

(** The store type, with the error and the info of choosing it. *)
Definition choose_store (m : gmap string string) :
    string * list config_message * list config_message :=
  let envStoreType := m !!! "SECRETS_DESTINATION" in
  let annotStoreType := m !!! SecretsDestinationKey in
  if decide (annotStoreType = "") then
    let '(st, err) := validateStore envStoreType in (st, option_list err, [])
  else if validStoreType annotStoreType then
    (annotStoreType, [],
     if validStoreType envStoreType
     then [CSPFK012I "StoreType" "SECRETS_DESTINATION" SecretsDestinationKey] else [])
  else ("", [CSPFK043E SecretsDestinationKey annotStoreType [File; K8s]], []).

(** The checks of standalone mode. *)
Definition standalone_checks (m : gmap string string) (storeType : string) :
    list config_message * list config_message :=
  let allow := annot_or_env m NamespaceAllowlistKey "NAMESPACE_ALLOWLIST" in
  let '(e1, i1) :=
    if decide (TrimSpace allow = "") then ([CSPFK052E "Namespace allowlist"], [])
    else if decide (TrimSpace allow = "*") then ([], [CSPFK037I])
    else ([], []) in
  let e2 := if decide (TrimSpace (m !!! k8sSecretsKey) ≠ "" ∨
                       TrimSpace (m !!! "K8S_SECRETS") ≠ "")
            then [CSPFK093E "Required K8s secrets"] else [] in
  let e3 := if decide (storeType = "file") then [CSPFK093E "File store type"] else [] in
  (e1 ++ e2 ++ e3, i1).

Definition ValidateSecretsProviderSettings (m : gmap string string) :
    list config_message * list config_message :=
  let e_ns := if decide (m !!! "MY_POD_NAMESPACE" = "")
              then [CSPFK004E "MY_POD_NAMESPACE"] else [] in
  let '(storeType, e_store, i_store) := choose_store m in
  let i_k8s :=
    if decide (storeType = "k8s_secrets") then
      if decide (m !!! "K8S_SECRETS" = "" ∧ m !!! k8sSecretsKey = "") then [CSPFK024I]
      else both_set m "RequiredK8sSecrets" "K8S_SECRETS" k8sSecretsKey
    else [] in
  let i_limit := both_set m "RetryCountLimit" "RETRY_COUNT_LIMIT" retryCountLimitKey in
  let i_interval := both_set m "RetryIntervalSec" "RETRY_INTERVAL_SEC" retryIntervalSecKey in
  let e_refresh := option_list
    (validRefreshInterval (m !!! SecretsRefreshIntervalKey) (m !!! SecretsRefreshEnabledKey) m) in
  let i_mode := both_set m "ContainerMode" "CONTAINER_MODE" ContainerModeKey in
  let '(e_alone, i_alone) :=
    if decide (annot_or_env m ContainerModeKey "CONTAINER_MODE" = "standalone")
    then standalone_checks m storeType else ([], []) in
  (e_ns ++ e_store ++ e_refresh ++ e_alone,
   i_store ++ i_k8s ++ i_limit ++ i_interval ++ i_mode ++ i_alone).

(** ** The configuration *)
Definition parseIntFromStringOrDefault (value : string) (defaultValue minValue : Z) : Z :=
  match Atoi value with
  | None => defaultValue
  | Some valueInt => if valueInt <? minValue then defaultValue else valueInt
  end.

Definition parseBoolFromStringOrDefault (value : string) (defaultValue : bool) : bool :=
  default defaultValue (ParseBool value).

(** The in-place filter of [parseK8sSecretsList]: [n] elements are still to be
    visited, the next one is [arr[i]], and [w] is [writeIndex]. *)
Fixpoint compact_loop (n i w : nat) (arr : list string) : list string * nat :=
  match n with
  | O => (arr, w)
  | S n' =>
      let str := arr !!! i in
      if decide (str = "") then compact_loop n' (S i) w arr
      else compact_loop n' (S i) (S w) (<[w := str]> arr)
  end.

Definition compact (arr : list string) : list string :=
  let '(arr', writeIndex) := compact_loop (length arr) 0 0 arr in take writeIndex arr'.

Definition parseK8sSecretsList (settings : gmap string string) : list string :=
  let k8sSecretsStr := settings !!! k8sSecretsKey in
  compact
    (if decide (k8sSecretsStr ≠ "") then Split (RemoveAll k8sSecretsStr "- ") lf
     else Split (RemoveAll (settings !!! "K8S_SECRETS") " ") ","%char).

Definition NewConfig (settings : gmap string string) : Config :=
  let storeType := annot_or_env settings SecretsDestinationKey "SECRETS_DESTINATION" in
  let k8sSecretsArr :=
    if decide (storeType = "file") then [] else parseK8sSecretsList settings in
  let containerMode := annot_or_env settings ContainerModeKey "CONTAINER_MODE" in
  let retryCountLimitStr := annot_or_env settings retryCountLimitKey "RETRY_COUNT_LIMIT" in
  let defaultRetryLimit :=
    if decide (retryCountLimitStr = "" ∧ containerMode = "standalone")
    then DefaultRetryCountLimitStandalone else DefaultRetryCountLimit in
  let retryCountLimit :=
    parseIntFromStringOrDefault retryCountLimitStr defaultRetryLimit MinRetryCountLimit in
  let retryIntervalSecStr := annot_or_env settings retryIntervalSecKey "RETRY_INTERVAL_SEC" in
  let retryIntervalSec :=
    parseIntFromStringOrDefault retryIntervalSecStr DefaultRetryIntervalSec MinRetryIntervalSec in
  let refreshIntervalStr0 := settings !!! SecretsRefreshIntervalKey in
  let refreshEnableStr := settings !!! SecretsRefreshEnabledKey in
  let refreshIntervalStr :=
    if decide (refreshIntervalStr0 = "" ∧ refreshEnableStr = "true")
    then DefaultRefreshIntervalStr else refreshIntervalStr0 in
  let refreshInterval := duration_or_zero (ParseDuration refreshIntervalStr) in
  let sanitizeEnableStr := annot_or_env settings RemoveDeletedSecretsKey "REMOVE_DELETED_SECRETS" in
  let sanitizeEnable := parseBoolFromStringOrDefault sanitizeEnableStr DefaultSanitizeEnabled in
  mkConfig (settings !!! "MY_POD_NAMESPACE") k8sSecretsArr retryCountLimit retryIntervalSec
    storeType refreshInterval sanitizeEnable containerMode
    (annot_or_env settings NamespaceAllowlistKey "NAMESPACE_ALLOWLIST")
    (annot_or_env settings ServerAddressKey "SERVER_ADDRESS").

(** ** Lemmas *)

Lemma compact_loop_spec n i w (arr arr0 : list string) :
  (i + n = length arr0)%nat → (w ≤ i)%nat → length arr = length arr0 →
  take w arr = filter (λ s, s ≠ "") (take i arr0) →
  drop i arr = drop i arr0 →
  (let '(arr', w') := compact_loop n i w arr in take w' arr') = filter (λ s, s ≠ "") arr0.
Proof.
  revert i w arr. induction n as [|n IH]; intros i w arr Hn Hw Hlen Htake Hdrop;
    cbn [compact_loop].
  - by rewrite Htake, firstn_all2 by lia.
  - assert (Hi : (i < length arr)%nat) by lia.
    destruct (lookup_lt_is_Some_2 arr i Hi) as [x Hx].
    assert (Hx0 : arr0 !! i = Some x).
    { rewrite <- Hx, <- (Nat.add_0_r i), <- !lookup_drop. by rewrite Hdrop. }
    rewrite (list_lookup_total_correct _ _ _ Hx).
    assert (Hnext : drop (S i) arr = drop (S i) arr0).
    { rewrite (drop_S _ _ _ Hx), (drop_S _ _ _ Hx0) in Hdrop. by injection Hdrop. }
    case_decide as Hemp; apply IH; try lia; rewrite ?length_insert; try done.
    + rewrite (take_S_r _ _ _ Hx0), filter_app, Htake. subst.
      by rewrite filter_cons_False, filter_nil, app_nil_r by naive_solver.
    + rewrite (take_S_r _ _ x) by (apply list_lookup_insert_eq; lia).
      rewrite take_insert_ge by lia.
      by rewrite (take_S_r _ _ _ Hx0), filter_app, Htake, filter_cons_True, filter_nil.
    + rewrite drop_insert_lt by lia. done.
Qed.

(** Filtering the array in place keeps the non-empty strings in order. *)
Lemma compact_filter arr : compact arr = filter (λ s, s ≠ "") arr.
Proof.
  unfold compact. by apply compact_loop_spec.
Qed.

Lemma annot_or_env_annot m a e : m !!! a ≠ "" → annot_or_env m a e = m !!! a.
Proof. intros H. unfold annot_or_env. by rewrite decide_False. Qed.

Lemma annot_or_env_env m a e : m !!! a = "" → annot_or_env m a e = m !!! e.
Proof. intros H. unfold annot_or_env. by rewrite decide_True. Qed.

Lemma parseInt_bounds s d lo :
  lo <= d → lo <= MaxInt64 → d <= MaxInt64 →
  lo <= parseIntFromStringOrDefault s d lo <= MaxInt64.
Proof.
  intros Hd Hlo Hmax. unfold parseIntFromStringOrDefault.
  destruct (Atoi s) as [n|] eqn:Hn; [|lia]. apply Atoi_bounds in Hn.
  destruct (Z.ltb_spec n lo); lia.
Qed.

(** What makes a store type acceptable. *)
Lemma validStoreType_spec st : validStoreType st = true ↔ st = K8s ∨ st = File.
Proof.
  unfold validStoreType. simpl.
  rewrite !orb_true_iff, !bool_decide_eq_true. naive_solver.
Qed.

Lemma choose_store_ok m st infos :
  choose_store m = (st, [], infos) →
  st = annot_or_env m SecretsDestinationKey "SECRETS_DESTINATION" ∧ (st = K8s ∨ st = File).
Proof.
  unfold choose_store, annot_or_env. case_decide as Ha.
  - unfold validateStore. repeat case_decide; naive_solver.
  - destruct (validStoreType _) eqn:Hv; [|done].
    apply validStoreType_spec in Hv. naive_solver.
Qed.

Lemma filter_keeps_non_empty (l : list string) s : s ∈ filter (λ s, s ≠ "") l → s ≠ "".
Proof. rewrite list_elem_of_filter. naive_solver. Qed.

(** The refresh interval of an accepted configuration. *)
Lemma valid_refresh_interval m :
  validRefreshInterval (m !!! SecretsRefreshIntervalKey) (m !!! SecretsRefreshEnabledKey) m = None →
  SecretsRefreshInterval (NewConfig m) = 0 ∨
  (MinRefreshInterval <= SecretsRefreshInterval (NewConfig m) ∧
   (ContainerMode (NewConfig m) = "sidecar" ∨ ContainerMode (NewConfig m) = "standalone")).
Proof.
  unfold validRefreshInterval. cbn [NewConfig SecretsRefreshInterval ContainerMode].
  set (i := m !!! SecretsRefreshIntervalKey). set (e := m !!! SecretsRefreshEnabledKey).
  set (mode := annot_or_env m ContainerModeKey "CONTAINER_MODE").
  intros H. case_decide as H1.
  { destruct H1 as [-> ->]. left. by rewrite decide_False by naive_solver. }
  case_decide as H2; [done|].
  assert (Hmode : mode = "sidecar" ∨ mode = "standalone")
    by (destruct (decide (mode = "sidecar")), (decide (mode = "standalone")); naive_solver).
  case_decide as H3.
  - destruct H3 as [-> He]. case_decide; [|by left].
    right. split; [by vm_compute|done].
  - rewrite (decide_False (P := i = "" ∧ e = "true")) by naive_solver.
    destruct (ParseDuration i) as [err|d]; [done|]. simpl.
    destruct (negb _ && _); [done|]. destruct (Z.ltb_spec d MinRefreshInterval); [done|].
    by right.
Qed.

(** At most one of the Push-to-File prefixes matches a key. *)
Definition find_any_prefix (key : string) : option string :=
  find_prefix key (map_to_list pushToFileAnnotationPrefixes).*1.

Lemma find_prefix_Some value keys p :
  find_prefix value keys = Some p → p ∈ keys ∧ HasPrefix value p = true.
Proof.
  induction keys as [|k keys IH]; simpl; [done|].
  destruct (HasPrefix value k) eqn:Hk; [intros [= ->]; by split; [left|]|].
  intros [Hin Hp]%IH. split; [by right|done].
Qed.

Lemma find_prefix_None value keys p :
  find_prefix value keys = None → p ∈ keys → HasPrefix value p = false.
Proof.
  induction keys as [|k keys IH]; simpl; intros Hf Hp; [by apply not_elem_of_nil in Hp|].
  destruct (HasPrefix value k) eqn:Hk; [done|].
  apply elem_of_cons in Hp as [->|Hp]; auto.
Qed.

Lemma p2f_prefixes_incomparable p q :
  p ∈ (map_to_list pushToFileAnnotationPrefixes).*1 →
  q ∈ (map_to_list pushToFileAnnotationPrefixes).*1 →
  HasPrefix p q = true → p = q.
Proof.
  assert (Hall : forallb (λ p, forallb (λ q, implb (HasPrefix p q) (bool_decide (p = q)))
      (map_to_list pushToFileAnnotationPrefixes).*1)
      (map_to_list pushToFileAnnotationPrefixes).*1 = true) by (vm_compute; reflexivity).
  rewrite !list_elem_of_In. intros Hp Hq Hpq.
  rewrite forallb_forall in Hall. specialize (Hall p Hp).
  rewrite forallb_forall in Hall. specialize (Hall q Hq).
  rewrite Hpq in Hall. by apply bool_decide_eq_true in Hall.
Qed.

Lemma valuePrefixInMapKeys_any o key :
  valuePrefixInMapKeys o key pushToFileAnnotationPrefixes = find_any_prefix key.
Proof.
  unfold valuePrefixInMapKeys, find_any_prefix.
  pose proof p2f_prefixes_incomparable as Hinc. revert Hinc.
  generalize pushToFileAnnotationPrefixes as m. intros m Hinc.
  assert (Hperm : (range o m).*1 ≡ₚ (map_to_list m).*1) by (by rewrite (range_perm o)).
  destruct (find_prefix key (range o m).*1) as [p|] eqn:Hp;
    destruct (find_prefix key (map_to_list m).*1) as [q|] eqn:Hq; try done.
  - apply find_prefix_Some in Hp as [Hp Hkp], Hq as [Hq Hkq].
    rewrite Hperm in Hp. f_equal.
    destruct (prefixes_comparable key p q) as [H|H]; auto. symmetry. auto.
  - apply find_prefix_Some in Hp as [Hp Hkp]. rewrite Hperm in Hp.
    by rewrite (find_prefix_None _ _ _ Hq Hp) in Hkp.
  - apply find_prefix_Some in Hq as [Hq Hkq]. rewrite <- Hperm in Hq.
    by rewrite (find_prefix_None _ _ _ Hp Hq) in Hkq.
Qed.

(** The verdict on one annotation, with no iteration order in it. *)
Definition restraints_of (key : string) : config_message + annotationRestraints :=
  if HasPrefix key "conjur.org/" then
    match secretsProviderAnnotations !! key with
    | Some r => inr r
    | None => match find_any_prefix key with
              | Some p => inr (pushToFileAnnotationPrefixes !!! p)
              | None => inl (CSPFK011I key)
              end
    end
  else inr (Restraints TYPESTRING []).

Lemma validate_annotation_restraints o key value :
  validate_annotation o (key, value) =
  match restraints_of key with
  | inl info => ([], [info])
  | inr r => (option_list (validateAnnotationValue key value r), [])
  end.
Proof.
  unfold validate_annotation, validateAnnotationKey, restraints_of.
  destruct (HasPrefix key "conjur.org/").
  - destruct (secretsProviderAnnotations !! key) as [r|] eqn:Hr.
    + rewrite lookup_total_alt, Hr. simpl. by destruct (validateAnnotationValue _ _ _).
    + rewrite valuePrefixInMapKeys_any. destruct (find_any_prefix key); [|done].
      by destruct (validateAnnotationValue _ _ _).
  - rewrite lookup_total_empty. simpl. done.
Qed.

Lemma ValidateAnnotations_elem o annots e :
  (e ∈ (ValidateAnnotations o annots).1 ↔
     ∃ k v, annots !! k = Some v ∧ e ∈ (validate_annotation o (k, v)).1) ∧
  (e ∈ (ValidateAnnotations o annots).2 ↔
     ∃ k v, annots !! k = Some v ∧ e ∈ (validate_annotation o (k, v)).2).
Proof.
  setoid_rewrite <- (elem_of_range o). unfold ValidateAnnotations.
  induction (range o annots) as [|[k v] l IH]; cbn [foldr].
  - split; (split; [by intros ?%not_elem_of_nil|by intros (?&?&?%not_elem_of_nil&_)]).
  - destruct (validate_annotation o (k, v)) as [errs infos] eqn:Hv. cbn [fst snd].
    destruct IH as [IH1 IH2].
    split; rewrite elem_of_app, ?IH1, ?IH2; setoid_rewrite elem_of_cons;
      (split; [intros [H|(k' & v' & H & H')]; [exists k, v; rewrite Hv; auto|eauto]
              |intros (k' & v' & [[= -> ->]|H] & H'); [rewrite Hv in H'; auto|right; eauto]]).
Qed.

(** ** Gathering *)
Lemma gather_annotations_lookup o annots k :
  gather_annotations o annots !! k =
  match secretsProviderAnnotations !! k with Some _ => annots !! k | None => None end.
Proof.
  replace (annots !! k) with ((list_to_map (range o annots) : gmap string string) !! k)
    by (by rewrite list_to_map_range).
  unfold gather_annotations. generalize (range_NoDup_keys o annots).
  generalize (range o annots). intros l Hnd.
  induction l as [|[k' v'] l IH] using rev_ind; cbn [foldl].
  - cbn [list_to_map foldr]. rewrite lookup_empty. by destruct (secretsProviderAnnotations !! k).
  - rewrite fmap_app in Hnd. apply NoDup_app in Hnd as (Hnd & Hdisj & _). specialize (IH Hnd).
    rewrite foldl_app, list_to_map_app. cbn [foldl list_to_map foldr uncurry].
    assert (Hnone : (list_to_map l : gmap string string) !! k' = None).
    { apply not_elem_of_list_to_map_1. intros Hin. apply (Hdisj k' Hin). by left. }
    destruct (decide (k = k')) as [->|Hne].
    + destruct (secretsProviderAnnotations !! k') eqn:Hk; [|done].
      by rewrite lookup_insert_eq, lookup_union_r, lookup_insert_eq by done.
    + rewrite lookup_union, (lookup_insert_ne _ k' k), lookup_empty, (right_id_L None _) by done.
      rewrite <- IH. destruct (secretsProviderAnnotations !! k'); [|done].
      by rewrite lookup_insert_ne by done.
Qed.

Lemma gather_env_lookup (getenv : string → string) l (m0 : gmap string string) k :
  foldl (λ masterMap envVar,
    if decide (getenv envVar = "") then masterMap else <[envVar := getenv envVar]> masterMap)
    m0 l !! k =
  if decide (k ∈ l ∧ getenv k ≠ "") then Some (getenv k) else m0 !! k.
Proof.
  induction l as [|e l IH] using rev_ind; cbn [foldl].
  - rewrite decide_False by (intros [H _]; by apply not_elem_of_nil in H). done.
  - rewrite foldl_app. cbn [foldl]. destruct (decide (getenv e = "")) as [He|He].
    + rewrite IH. apply decide_ext. rewrite elem_of_app, list_elem_of_singleton. naive_solver.
    + destruct (decide (e = k)) as [->|Hne].
      * rewrite lookup_insert_eq, decide_True; [done|].
        rewrite elem_of_app, list_elem_of_singleton. auto.
      * rewrite lookup_insert_ne, IH by done. apply decide_ext.
        rewrite elem_of_app, list_elem_of_singleton. naive_solver.
Qed.

(** The settings map holds, for every environment variable of the
    list that is set, its value, and for every other key the value of the
    annotation of that name when the annotation is a known one; the order in
    which the annotations are visited does not matter. *)
Lemma gather_settings_lookup o getenv annots k :
  GatherSecretsProviderSettings o getenv annots !! k =
  if decide (k ∈ validEnvVars ∧ getenv k ≠ "") then Some (getenv k)
  else match secretsProviderAnnotations !! k with Some _ => annots !! k | None => None end.
Proof.
  unfold GatherSecretsProviderSettings.
  by rewrite gather_env_lookup, gather_annotations_lookup.
Qed.

Lemma parseK8sSecretsList_non_empty m : Forall (λ s, s ≠ "") (parseK8sSecretsList m).
Proof.
  unfold parseK8sSecretsList. rewrite compact_filter, Forall_forall.
  intros s. apply filter_keeps_non_empty.
Qed.

(** ** Rendering and parsing the annotation's YAML list *)

(** The annotation value for a list of Secret names, one "- name" per line. *)
Fixpoint yaml_list (names : list string) : string :=
  match names with
  | [] => ""
  | n :: ns => "- " +:+ n +:+ String lf (yaml_list ns)
  end.

(** A name no list separator occurs in. *)
Definition plain_name (n : string) : Prop := n ≠ "" ∧ no_byte " "%char n ∧ no_byte lf n.

Lemma remove_all_no_space n rest :
  no_byte " "%char n →
  remove_all_go "- " O (n +:+ String lf rest) = n +:+ String lf (remove_all_go "- " O rest).
Proof.
  induction n as [|a n IH]; [done|]. intros [Ha Hn]. rewrite !append_cons.
  cbn [remove_all_go]. rewrite (proj2 (HasPrefix_false _ "- ")).
  - by rewrite IH.
  - intros r Hr. rewrite append_cons in Hr. simplify_eq.
    destruct n as [|b n]; [by injection H|].
    rewrite !append_cons in H. destruct Hn as [Hb _]. by simplify_eq.
Qed.

Lemma remove_all_yaml_list ns :
  Forall plain_name ns →
  RemoveAll (yaml_list ns) "- " = Join (ns ++ [""]) (String lf "").
Proof.
  unfold RemoveAll. induction 1 as [|n ns (Hne & Hsp & Hlf) Hns IH]; [done|].
  change (remove_all_go "- " O (n +:+ String lf (yaml_list ns)) =
          Join (n :: (ns ++ [""])) (String lf "")).
  rewrite remove_all_no_space, IH by done. by destruct ns.
Qed.

Lemma filter_plain_names ns : Forall plain_name ns → filter (λ s, s ≠ "") (ns ++ [""]) = ns.
Proof.
  induction 1 as [|n ns [Hne _] Hns IH]; [done|].
  rewrite <- app_comm_cons, filter_cons_True by done. by rewrite IH.
Qed.

Lemma filter_all_plain ns : Forall plain_name ns → filter (λ s, s ≠ "") ns = ns.
Proof.
  induction 1 as [|n ns [Hne _] Hns IH]; [done|]. by rewrite filter_cons_True, IH.
Qed.

Lemma RemoveAll_no_space s : no_byte " "%char s → RemoveAll s " " = s.
Proof.
  unfold RemoveAll. induction s as [|a s IH]; [done|]. intros [Ha Hs].
  cbn [remove_all_go]. rewrite (proj2 (HasPrefix_false _ " ")).
  - by rewrite IH.
  - intros r Hr. rewrite append_cons in Hr. by simplify_eq.
Qed.

Lemma Join_no_byte c ws sep :
  Forall (no_byte c) ws → no_byte c sep → no_byte c (Join ws sep).
Proof.
  intros Hws Hsep. induction Hws as [|w [|w' ws] Hw Hws IH]; [done|done|].
  change (no_byte c (w +:+ sep +:+ Join (w' :: ws) sep)).
  by rewrite !no_byte_app.
Qed.

(** ** Accepted settings *)
Lemma validated_settings_wf m infos :
  ValidateSecretsProviderSettings m = ([], infos) →
  let c := NewConfig m in
  PodNamespace c ≠ "" ∧
  (StoreType c = K8s ∨ StoreType c = File) ∧
  (SecretsRefreshInterval c = 0 ∨
   MinRefreshInterval <= SecretsRefreshInterval c <= MaxInt64 ∧
   (ContainerMode c = "sidecar" ∨ ContainerMode c = "standalone")) ∧
  (ContainerMode c = "standalone" →
   StoreType c = K8s ∧ TrimSpace (NamespaceAllowlist c) ≠ "") ∧
  Forall (λ s, s ≠ "") (RequiredK8sSecrets c) ∧
  (StoreType c = File → RequiredK8sSecrets c = []).
Proof.
  unfold ValidateSecretsProviderSettings.
  destruct (choose_store m) as [[st e_store] i_store] eqn:Hst.
  destruct (if decide _ then standalone_checks m st else _) as [e_alone i_alone] eqn:Hal.
  intros [= Herrs _]. apply app_eq_nil in Herrs as [Hns Herrs].
  apply app_eq_nil in Herrs as [-> Herrs]. apply app_eq_nil in Herrs as [Href ->].
  apply choose_store_ok in Hst as [Hst Hkind]. cbn zeta.
  split_and!.
  - intros H. cbn [NewConfig PodNamespace] in H. by rewrite decide_True in Hns by done.
  - cbn [NewConfig StoreType]. by rewrite <- Hst.
  - destruct (valid_refresh_interval m) as [H|[H1 H2]]; [|by left|right].
    + by destruct (validRefreshInterval _ _ m); simplify_eq/=.
    + split; [|done]. split; [done|].
      cbn [NewConfig SecretsRefreshInterval]. unfold duration_or_zero.
      destruct (ParseDuration _) as [|d] eqn:Hd; [by vm_compute|].
      by apply ParseDuration_bounds in Hd as [_ ?].
  - cbn [NewConfig ContainerMode StoreType NamespaceAllowlist]. intros Hmode.
    rewrite decide_True in Hal by done. unfold standalone_checks in Hal.
    rewrite <- Hst. repeat case_decide; simplify_eq/=; split; done || naive_solver.
  - clear. cbn [NewConfig RequiredK8sSecrets]. case_decide; [done|].
    apply parseK8sSecretsList_non_empty.
  - cbn [NewConfig RequiredK8sSecrets StoreType]. intros H. by rewrite decide_True.
Qed.

(** ** Properties *)

(** C34: settings that [ValidateSecretsProviderSettings] accepts without
    an error give a well-formed configuration: the Pod namespace is set, the
    store type is one of the two known ones, the refresh interval is off or at
    least one second and then only in sidecar or standalone mode, standalone
    mode uses the K8s store with a non-blank namespace allowlist, and no
    required K8s Secret has an empty name (there is none in file mode). *)
Theorem validated_config_wf m infos :
  ValidateSecretsProviderSettings m = ([], infos) →
  let c := NewConfig m in
  PodNamespace c ≠ "" ∧
  (StoreType c = K8s ∨ StoreType c = File) ∧
  (SecretsRefreshInterval c = 0 ∨
   MinRefreshInterval <= SecretsRefreshInterval c <= MaxInt64 ∧
   (ContainerMode c = "sidecar" ∨ ContainerMode c = "standalone")) ∧
  (ContainerMode c = "standalone" →
   StoreType c = K8s ∧ TrimSpace (NamespaceAllowlist c) ≠ "") ∧
  Forall (λ s, s ≠ "") (RequiredK8sSecrets c) ∧
  (StoreType c = File → RequiredK8sSecrets c = []).
Proof. apply validated_settings_wf. Qed.

Lemma validated_config_wf_witness :
  let m : gmap string string := {[ "MY_POD_NAMESPACE" := "ns"; SecretsDestinationKey := "k8s_secrets";
    ContainerModeKey := "standalone"; NamespaceAllowlistKey := "*";
    SecretsRefreshIntervalKey := "10s" ]} in
  SecretsRefreshInterval (NewConfig m) = 10 * Second ∧ PodNamespace (NewConfig m) ≠ "".
Proof.
  intros m. split; [by vm_compute|].
  apply (validated_config_wf m [CSPFK024I; CSPFK037I]). by vm_compute.
Defined.

(** Whatever the settings, the retry limit is at least -1
    (unlimited), the retry interval is at least 0, and both are machine
    integers; without a limit setting it is 5, or -1 in standalone mode. *)
Theorem retry_settings_bounds m :
  let c := NewConfig m in
  MinRetryCountLimit <= RetryCountLimit c <= MaxInt64 ∧
  MinRetryIntervalSec <= RetryIntervalSec c <= MaxInt64 ∧
  (annot_or_env m retryCountLimitKey "RETRY_COUNT_LIMIT" = "" →
   RetryCountLimit c = if decide (ContainerMode c = "standalone") then -1 else 5).
Proof.
  cbn [NewConfig RetryCountLimit RetryIntervalSec ContainerMode]. split; [|split].
  - apply parseInt_bounds; repeat case_decide; by vm_compute.
  - apply parseInt_bounds; by vm_compute.
  - intros ->. unfold parseIntFromStringOrDefault. rewrite Atoi_empty.
    repeat case_decide; naive_solver.
Qed.

Lemma retry_settings_bounds_witness :
  RetryCountLimit (NewConfig {[ "CONTAINER_MODE" := "standalone" ]}) = -1.
Proof.
  pose proof (retry_settings_bounds {[ "CONTAINER_MODE" := "standalone" ]}) as (_ & _ & H).
  apply H. by vm_compute.
Defined.

(** C35: the errors and the infos of [ValidateAnnotations] are those of
    the individual annotations, in every iteration order: an annotation is an
    error exactly when its key (or its Push-to-File prefix) is known and its
    value breaks the restraints of that key, and an info exactly when it is
    under "conjur.org/" and not known. *)
Theorem ValidateAnnotations_spec o annots e :
  (e ∈ (ValidateAnnotations o annots).1 ↔
   ∃ k v r, annots !! k = Some v ∧ restraints_of k = inr r ∧
            validateAnnotationValue k v r = Some e) ∧
  (e ∈ (ValidateAnnotations o annots).2 ↔
   ∃ k, is_Some (annots !! k) ∧ restraints_of k = inl e).
Proof.
  destruct (ValidateAnnotations_elem o annots e) as [-> ->].
  setoid_rewrite validate_annotation_restraints. split; split.
  - intros (k & v & Hk & He). destruct (restraints_of k) as [i|r] eqn:Hr.
    + by apply not_elem_of_nil in He.
    + exists k, v, r. split_and!; [done..|].
      destruct (validateAnnotationValue k v r); [|by apply not_elem_of_nil in He].
      by apply list_elem_of_singleton in He as ->.
  - intros (k & v & r & Hk & Hr & He). exists k, v. rewrite Hr, He. split; [done|by left].
  - intros (k & v & Hk & He). destruct (restraints_of k) as [i|r] eqn:Hr.
    + apply list_elem_of_singleton in He as ->. eauto.
    + by apply not_elem_of_nil in He.
  - intros (k & [v Hk] & Hr). exists k, v. rewrite Hr. split; [done|by left].
Qed.

(** Rendering Secret names as the YAML list of the
    "conjur.org/k8s-secrets" annotation and parsing it back gives the names,
    and when the annotation is absent, the names joined with commas in the
    K8S_SECRETS environment variable parse back to the names too. *)
Theorem parseK8sSecretsList_roundtrip names m :
  Forall plain_name names → Forall (no_byte ","%char) names →
  parseK8sSecretsList (<[k8sSecretsKey := yaml_list names]> (delete "K8S_SECRETS" m)) = names ∧
  parseK8sSecretsList (<["K8S_SECRETS" := Join names ","]> (delete k8sSecretsKey m)) = names.
Proof.
  intros Hns Hcomma. unfold parseK8sSecretsList. rewrite !compact_filter. split.
  - rewrite lookup_total_insert_eq. case_decide as Hemp.
    + rewrite remove_all_yaml_list, Split_Join; [by apply filter_plain_names|by destruct names| |done].
      apply Forall_app. split; [|by repeat constructor].
      apply (Forall_impl plain_name); [done|]. by intros n (_ & _ & H).
    + rewrite lookup_total_insert_ne, lookup_total_alt, lookup_delete_eq by done.
      destruct names; [done|]. exfalso. by cbn in Hemp.
  - rewrite lookup_total_insert_ne, (lookup_total_alt (delete _ _)), lookup_delete_eq by done.
    rewrite decide_False by naive_solver. rewrite lookup_total_insert_eq.
    rewrite RemoveAll_no_space by (apply Join_no_byte; [|done];
      apply (Forall_impl plain_name); [done|]; by intros n (_ & H & _)).
    destruct names as [|n ns]; [done|]. rewrite Split_Join by done.
    by apply filter_all_plain.
Qed.

Lemma parseK8sSecretsList_roundtrip_witness :
  parseK8sSecretsList (<[k8sSecretsKey := yaml_list ["db-credentials"; "api.key"]]> ∅) =
  ["db-credentials"; "api.key"].
Proof.
  rewrite <- (delete_empty "K8S_SECRETS").
  apply (parseK8sSecretsList_roundtrip ["db-credentials"; "api.key"] ∅); repeat constructor; done.
Defined.

(** In sidecar mode a "conjur.org/secrets-refresh-enabled" that is a
    true boolean in any other spelling than "true" ("True", "TRUE", "t", "T",
    "1") passes the annotation check and the settings check, and leaves the
    refresh off: [NewConfig] compares the text with "true". *)
Theorem refresh_enabled_spelling_ignored m s :
  ParseBool s = Some true → s ≠ "true" →
  m !!! SecretsRefreshEnabledKey = s → m !!! SecretsRefreshIntervalKey = "" →
  annot_or_env m ContainerModeKey "CONTAINER_MODE" = "sidecar" →
  validateAnnotationValue SecretsRefreshEnabledKey s
    (secretsProviderAnnotations !!! SecretsRefreshEnabledKey) = None ∧
  validRefreshInterval (m !!! SecretsRefreshIntervalKey) s m = None ∧
  SecretsRefreshInterval (NewConfig m) = 0.
Proof.
  intros Hb Hs He Hi Hmode. split_and!.
  - change (secretsProviderAnnotations !!! SecretsRefreshEnabledKey) with
      (Restraints TYPEBOOL []) || (rewrite (lookup_total_alt secretsProviderAnnotations);
      replace (secretsProviderAnnotations !! SecretsRefreshEnabledKey)
        with (Some (Restraints TYPEBOOL [])) by (by vm_compute)).
    unfold validateAnnotationValue. simpl. by rewrite Hb.
  - unfold validRefreshInterval. rewrite Hmode, Hi.
    assert (s ≠ "") by (by intros ->).
    rewrite decide_False by naive_solver. rewrite decide_False by naive_solver.
    by rewrite decide_True.
  - cbn [NewConfig SecretsRefreshInterval]. rewrite Hi, He.
    by rewrite decide_False by naive_solver.
Qed.

Lemma refresh_enabled_spelling_ignored_witness :
  let m : gmap string string :=
    {[ SecretsRefreshEnabledKey := "True"; ContainerModeKey := "sidecar" ]} in
  SecretsRefreshInterval (NewConfig m) = 0.
Proof.
  intros m. apply (refresh_enabled_spelling_ignored m "True"); by vm_compute.
Defined.
