(* ===== verification/GoBytes.v ===== *)
(** * Go byte slices, base64, SHA-256 and the fmt verb %v

    A Go [[]byte] is [nil] or a byte sequence; the program tests for [nil], so
    the difference is kept. The standard library's base64 codec, SHA-256 and
    the printing of [map[string][]byte] are written out, because the change
    detection of both providers hashes that text. *)

From stdpp Require Import pretty.
From S2P Require Import Prelude GoString.
From Stdlib Require Import Ascii.
Open Scope Z_scope.

(** [None] is the nil slice. Reading a missing map key gives it too. *)
Abbreviation bytes := (option string).
Definition bytes_string (b : bytes) : string := default "" b.

Definition char_of (z : Z) : ascii := ascii_of_N (Z.to_N z).

Fixpoint string_bytes (s : string) : list Z :=
  match s with "" => [] | String c s' => byte_of c :: string_bytes s' end.

Fixpoint bytes_to_string (l : list Z) : string :=
  match l with [] => "" | b :: l' => String (char_of b) (bytes_to_string l') end.

(** ** base64.StdEncoding *)
Definition b64_char (v : Z) : ascii :=
  if v <? 26 then char_of (65 + v)
  else if v <? 52 then char_of (97 + (v - 26))
  else if v <? 62 then char_of (48 + (v - 52))
  else if v =? 62 then "+"%char else "/"%char.

Definition b64_val (b : Z) : option Z :=
  if in_range 65 90 b then Some (b - 65)
  else if in_range 97 122 b then Some (b - 97 + 26)
  else if in_range 48 57 b then Some (b - 48 + 52)
  else if b =? 43 then Some 62
  else if b =? 47 then Some 63
  else None.

Definition padding : Z := 61.

(** [EncodeToString]: three bytes to four characters, with padding. *)
Fixpoint b64_encode_go (l : list Z) : string :=
  match l with
  | [] => ""
  | [a] =>
      String (b64_char (Z.shiftr a 2))
      (String (b64_char (Z.shiftl (Z.land a 3) 4)) "==")
  | [a; b] =>
      String (b64_char (Z.shiftr a 2))
      (String (b64_char (Z.lor (Z.shiftl (Z.land a 3) 4) (Z.shiftr b 4)))
      (String (b64_char (Z.shiftl (Z.land b 15) 2)) "="))
  | a :: b :: c :: l' =>
      String (b64_char (Z.shiftr a 2))
      (String (b64_char (Z.lor (Z.shiftl (Z.land a 3) 4) (Z.shiftr b 4)))
      (String (b64_char (Z.lor (Z.shiftl (Z.land b 15) 2) (Z.shiftr c 6)))
      (String (b64_char (Z.land c 63)) (b64_encode_go l'))))
  end.
Definition EncodeToString (s : string) : string := b64_encode_go (string_bytes s).

Definition is_newline (b : Z) : bool := (b =? 10) || (b =? 13).

(** The decoder's quanta; the trailing bits of a padded quantum are ignored,
    as in the non-strict [StdEncoding], and nothing may follow the padding. *)
Fixpoint b64_decode_go (l : list Z) : option (list Z) :=
  match l with
  | [] => Some []
  | a :: b :: c :: d :: l' =>
      match b64_val a, b64_val b with
      | Some va, Some vb =>
          let b0 := Z.lor (Z.shiftl va 2) (Z.shiftr vb 4) in
          if c =? padding then
            if (d =? padding) && bool_decide (l' = []) then Some [b0] else None
          else match b64_val c with
          | None => None
          | Some vc =>
              let b1 := Z.lor (Z.shiftl (Z.land vb 15) 4) (Z.shiftr vc 2) in
              if d =? padding then if bool_decide (l' = []) then Some [b0; b1] else None
              else match b64_val d with
              | None => None
              | Some vd =>
                  let b2 := Z.lor (Z.shiftl (Z.land vc 3) 6) vd in
                  (λ r, b0 :: b1 :: b2 :: r) <$> b64_decode_go l'
              end
          end
      | _, _ => None
      end
  | _ => None
  end.

(** [Decode]: newlines are skipped wherever they stand. *)
Definition DecodeString (s : string) : option string :=
  bytes_to_string <$>
    b64_decode_go (filter (λ b, is_newline b = false) (string_bytes s)).

(** ** SHA-256 *)
Definition w32 (z : Z) : Z := z mod 4294967296.
Definition rotr (n x : Z) : Z := w32 (Z.lor (Z.shiftr x n) (Z.shiftl x (32 - n))).
Definition Ch x y z := Z.lxor (Z.land x y) (Z.land (Z.lxor x 4294967295) z).
Definition Maj x y z := Z.lxor (Z.lxor (Z.land x y) (Z.land x z)) (Z.land y z).
Definition bsig0 x := Z.lxor (Z.lxor (rotr 2 x) (rotr 13 x)) (rotr 22 x).
Definition bsig1 x := Z.lxor (Z.lxor (rotr 6 x) (rotr 11 x)) (rotr 25 x).
Definition ssig0 x := Z.lxor (Z.lxor (rotr 7 x) (rotr 18 x)) (Z.shiftr x 3).
Definition ssig1 x := Z.lxor (Z.lxor (rotr 17 x) (rotr 19 x)) (Z.shiftr x 10).

(** The constants are the leading 32 bits of the fractional parts of the cube
    roots of the first 64 primes and of the square roots of the first 8. *)
Definition primes_below (n : nat) : list Z :=
  filter (λ p, forallb (λ d, negb (p mod Z.of_nat d =? 0)) (seq 2 (Z.to_nat p - 2)) = true)
    (Z.of_nat <$> seq 2 (n - 2)).

Definition cube_root (n : Z) : Z :=
  foldl (λ r i, let r' := r + Z.shiftl 1 (Z.of_nat i) in if r' * r' * r' <=? n then r' else r) 0
    (reverse (seq 0 36)).

Definition sha_K : list Z :=
  Eval vm_compute in (λ p, w32 (cube_root (Z.shiftl p 96))) <$> take 64 (primes_below 312).

Definition sha_init : list Z :=
  Eval vm_compute in (λ p, w32 (Z.sqrt (Z.shiftl p 64))) <$> take 8 (primes_below 20).

Definition be_bytes (n : nat) (z : Z) : list Z :=
  (λ i, Z.land (Z.shiftr z (8 * Z.of_nat i)) 255) <$> reverse (seq 0 n).

(** Padding to a multiple of 64 bytes. *)
Definition sha_pad (m : list Z) : list Z :=
  m ++ [128] ++ replicate (Z.to_nat ((55 - Z.of_nat (length m)) mod 64)) 0 ++
  be_bytes 8 (8 * Z.of_nat (length m)).

Fixpoint be_words (l : list Z) : list Z :=
  match l with
  | a :: b :: c :: d :: l' => (((a * 256 + b) * 256 + c) * 256 + d) :: be_words l'
  | _ => []
  end.

(** The message schedule; the window holds the last 16 words, newest first. *)
Fixpoint sha_expand (n : nat) (window : list Z) : list Z :=
  match n with
  | O => []
  | S n' =>
      let w := w32 (ssig1 (window !!! 1%nat) + window !!! 6%nat +
                    ssig0 (window !!! 14%nat) + window !!! 15%nat) in
      w :: sha_expand n' (w :: take 15 window)
  end.

Definition sha_round (st : list Z) (kw : Z * Z) : list Z :=
  match st with
  | [a; b; c; d; e; f; g; h] =>
      let t1 := h + bsig1 e + Ch e f g + kw.1 + kw.2 in
      let t2 := bsig0 a + Maj a b c in
      [w32 (t1 + t2); a; b; c; w32 (d + t1); e; f; g]
  | _ => st
  end.

Definition sha_block (st block : list Z) : list Z :=
  let w16 := be_words block in
  let w := w16 ++ sha_expand 48 (reverse w16) in
  zip_with (λ x y, w32 (x + y)) st (foldl sha_round st (zip sha_K w)).

Fixpoint sha_blocks (n : nat) (st m : list Z) : list Z :=
  match n with
  | O => st
  | S n' => sha_blocks n' (sha_block st (take 64 m)) (drop 64 m)
  end.

Definition sha256 (s : string) : string :=
  let m := sha_pad (string_bytes s) in
  bytes_to_string (mjoin (be_bytes 4 <$> sha_blocks (length m / 64) sha_init m)).

(** ** pkg/utils/checksum.go *)
Definition Checksum : Type := string.

Definition FileChecksum (buf : string) : Checksum := sha256 buf.

Definition ContentHasChanged (groupName : string) (newChecksum : Checksum)
    (prevChecksums : gmap string Checksum) : bool :=
  match prevChecksums !! groupName with
  | Some prevChecksum => negb (bool_decide (newChecksum = prevChecksum))
  | None => true
  end.

(** ** fmt.Fprintf(b, "%v", m) for a [map[string][]byte] *)
Definition pretty_byte (z : Z) : string := pretty (Z.to_N z).
Definition pretty_bytes (b : bytes) : string :=
  "[" +:+ Join (pretty_byte <$> string_bytes (bytes_string b)) " " +:+ "]".

(** Maps print with their keys sorted. *)
Definition pretty_entry (m : gmap string bytes) (k : string) : string :=
  k +:+ ":" +:+ pretty_bytes (m !!! k).
Definition pretty_map (m : gmap string bytes) : string :=
  "map[" +:+ Join (pretty_entry m <$> sort_strings (map_to_list m).*1) " " +:+ "]".

(** ** Examples *)
Example base64_examples :
  EncodeToString "Man" = "TWFu" ∧ EncodeToString "Ma" = "TWE=" ∧ EncodeToString "M" = "TQ==" ∧
  DecodeString "TWFu" = Some "Man" ∧ DecodeString "TQ==" = Some "M" ∧
  DecodeString "TQ=" = None ∧ DecodeString "TQ==TQ==" = None ∧ DecodeString "T*Fu" = None ∧
  DecodeString ("TW" +:+ String lf "Fu") = Some "Man".
Proof. by vm_compute. Qed.

Definition hex_digit (z : Z) : ascii := if z <? 10 then char_of (48 + z) else char_of (87 + z).
Fixpoint hex (s : string) : string :=
  match s with
  | "" => ""
  | String c s' => String (hex_digit (byte_of c / 16)) (String (hex_digit (byte_of c mod 16)) (hex s'))
  end.

Example sha256_abc :
  hex (sha256 "abc") = "ba7816bf8f01cfea414140de5dae2223b00361a396177a9cb410ff61f20015ad" ∧
  hex (sha256 "") = "e3b0c44298fc1c149afbf4c8996fb92427ae41e4649b934ca495991b7852b855".
Proof. by vm_compute. Qed.

Example pretty_map_example :
  pretty_map {[ "b" := Some "AB"; "a" := Some ""; "c" := None ]} = "map[a:[] b:[65 66] c:[]]".
Proof. by vm_compute. Qed.

(** ** Bytes *)
Definition is_byte (z : Z) : Prop := 0 <= z < 256.

Lemma byte_of_range c : is_byte (byte_of c).
Proof. unfold byte_of, is_byte. pose proof (N_ascii_bounded c). lia. Qed.

Lemma char_of_byte_of c : char_of (byte_of c) = c.
Proof. unfold char_of, byte_of. by rewrite N2Z.id, ascii_N_embedding. Qed.

Lemma byte_of_char_of z : is_byte z → byte_of (char_of z) = z.
Proof. intros Hz. unfold char_of, byte_of, is_byte in *. rewrite N_ascii_embedding; lia. Qed.

Lemma byte_of_inj c d : byte_of c = byte_of d → c = d.
Proof. intros H. by rewrite <- (char_of_byte_of c), H, char_of_byte_of. Qed.

Lemma string_bytes_range s : Forall is_byte (string_bytes s).
Proof. induction s; constructor; auto using byte_of_range. Qed.

Lemma bytes_to_string_bytes s : bytes_to_string (string_bytes s) = s.
Proof. induction s as [|c s IH]; simpl; [done|]. by rewrite char_of_byte_of, IH. Qed.

Lemma string_bytes_to_string l : Forall is_byte l → string_bytes (bytes_to_string l) = l.
Proof. induction 1 as [|b l Hb Hl IH]; simpl; [done|]. by rewrite byte_of_char_of, IH. Qed.

Lemma string_bytes_inj s t : string_bytes s = string_bytes t → s = t.
Proof. intros H. by rewrite <- (bytes_to_string_bytes s), H, bytes_to_string_bytes. Qed.

(** Properties of one or two bytes, checked on all of them. *)
Definition all_bytes : list Z := seqZ 0 256.

Lemma bytes_forall (P : Z → bool) z : forallb P all_bytes = true → is_byte z → P z = true.
Proof.
  intros H Hz. rewrite forallb_forall in H. apply H.
  apply list_elem_of_In, elem_of_seqZ. unfold is_byte in Hz. lia.
Qed.

Lemma bytes_forall_2 (P : Z → Z → bool) a b :
  forallb (λ x, forallb (P x) all_bytes) all_bytes = true →
  is_byte a → is_byte b → P a b = true.
Proof.
  intros H Ha Hb. pose proof (bytes_forall _ a H Ha) as H'. by apply (bytes_forall _ b) in H'.
Qed.

Lemma pretty_byte_inj a b : is_byte a → is_byte b → pretty_byte a = pretty_byte b → a = b.
Proof.
  intros Ha Hb Heq. unfold pretty_byte in Heq. apply (inj (pretty (A:=N))) in Heq.
  unfold is_byte in *. lia.
Qed.

(** ** base64: decoding inverts encoding *)
Section base64_lemmas.
Implicit Types a b c : Z.

Definition sextet_ok (v : Z) : bool :=
  bool_decide (b64_val (byte_of (b64_char v)) = Some v) &&
  negb (is_newline (byte_of (b64_char v))) && negb (byte_of (b64_char v) =? padding).

(** The sextets of one quantum and the bytes computed back from them. *)
Definition quantum_ok (a b : Z) : bool :=
  let v1 := Z.shiftr a 2 in
  let v2 := Z.lor (Z.shiftl (Z.land a 3) 4) (Z.shiftr b 4) in
  let v3 := Z.lor (Z.shiftl (Z.land a 15) 2) (Z.shiftr b 6) in
  sextet_ok v1 && sextet_ok v2 && sextet_ok v3 && sextet_ok (Z.land b 63) &&
  sextet_ok (Z.shiftl (Z.land a 3) 4) && sextet_ok (Z.shiftl (Z.land a 15) 2) &&
  (Z.lor (Z.shiftl v1 2) (Z.shiftr v2 4) =? a) &&
  (Z.lor (Z.shiftl v1 2) (Z.shiftr (Z.shiftl (Z.land a 3) 4) 4) =? a) &&
  (Z.land v2 15 =? Z.shiftr b 4) &&
  (Z.lor (Z.shiftl (Z.shiftr a 4) 4) (Z.shiftr v3 2) =? a) &&
  (Z.lor (Z.shiftl (Z.shiftr a 4) 4) (Z.shiftr (Z.shiftl (Z.land a 15) 2) 2) =? a) &&
  (Z.lor (Z.shiftl (Z.land v3 3) 6) (Z.land b 63) =? b).

Lemma quantum_all a b : is_byte a → is_byte b → quantum_ok a b = true.
Proof. apply bytes_forall_2. vm_compute. reflexivity. Qed.

Lemma sextet_facts v :
  sextet_ok v = true →
  b64_val (byte_of (b64_char v)) = Some v ∧ is_newline (byte_of (b64_char v)) = false ∧
  (byte_of (b64_char v) =? padding) = false.
Proof.
  unfold sextet_ok. rewrite !andb_true_iff, bool_decide_eq_true, !negb_true_iff. tauto.
Qed.

Ltac quantum a b :=
  let Q := fresh "Q" in
  assert (Q : quantum_ok a b = true) by (apply quantum_all; assumption); unfold quantum_ok in Q;
  rewrite !andb_true_iff, !Z.eqb_eq in Q; destruct Q as [[[[[[[[[[[? ?] ?] ?] ?] ?] ?] ?] ?] ?] ?] ?];
  repeat match goal with H : sextet_ok _ = true |- _ =>
    apply sextet_facts in H as (?Hval & ?Hnl & ?Hpad) end.

(** Rewrite with every fact about sextets and quanta. *)
Ltac quantum_simpl :=
  repeat match goal with
  | H : b64_val _ = Some _ |- _ => rewrite H
  | H : (byte_of (b64_char _) =? padding) = false |- _ => rewrite H
  end;
  repeat match goal with H : Z.land _ 15 = Z.shiftr _ 4 |- _ => rewrite H end;
  repeat match goal with H : Z.lor _ _ = _ |- _ => rewrite H end.

Lemma b64_encode_no_newline l :
  Forall is_byte l →
  filter (λ x, is_newline x = false) (string_bytes (b64_encode_go l)) =
  string_bytes (b64_encode_go l).
Proof.
  remember (length l) as n eqn:Hn. revert l Hn.
  induction n as [n IH] using lt_wf_ind. intros l Hn Hl.
  destruct l as [|a [|b [|c l]]]; [done|..]; decompose_Forall;
    cbn [b64_encode_go string_bytes].
  - quantum a a. by rewrite !filter_cons_True by done.
  - quantum a b. quantum b b.
    by rewrite !filter_cons_True by done.
  - quantum a b. quantum b c.
    rewrite !filter_cons_True by done. do 4 f_equal.
    apply (IH (length l)); simpl; try done; lia.
Qed.

Lemma b64_decode_encode l :
  Forall is_byte l → b64_decode_go (string_bytes (b64_encode_go l)) = Some l.
Proof.
  remember (length l) as n eqn:Hn. revert l Hn.
  induction n as [n IH] using lt_wf_ind. intros l Hn Hl.
  destruct l as [|a [|b [|c l]]]; [done|..]; decompose_Forall;
    cbn [b64_encode_go string_bytes b64_decode_go].
  - quantum a a. by quantum_simpl.
  - quantum a b. quantum b b. by quantum_simpl.
  - quantum a b. quantum b c. quantum_simpl.
    by rewrite (IH (length l)) by (simpl; try done; lia).
Qed.
End base64_lemmas.

Lemma base64_roundtrip s : DecodeString (EncodeToString s) = Some s.
Proof.
  unfold DecodeString, EncodeToString.
  rewrite b64_encode_no_newline, b64_decode_encode by apply string_bytes_range.
  simpl. by rewrite bytes_to_string_bytes.
Qed.
