(* ===== verification/FileTemplates.v ===== *)
(** * Secret specs and file templates (pkg/secrets/file_templates)

    The parsing of secret specs from YAML nodes, the validation of Conjur
    variable paths, the template data and the custom template functions. The
    YAML library and the template engine are parameters: [yaml_nodes] is the
    node sequence of a document, [template_engine] parses and executes a
    template. *)

From S2P Require Import Prelude GoString GoBytes.
From Stdlib Require Import Ascii.
Open Scope Z_scope.

Definition SecretGroupPrefix : string := "conjur.org/conjur-secrets.".
Definition SecretGroupFileTemplatePrefix : string := "conjur.org/secret-file-template.".
Definition MaxConjurVarNameLen : nat := 126.

(** ** Data (secret_spec.go) *)
Record SecretSpec := mkSpec { Alias : string; Path : string; ContentType : string }.

#[export] Instance SecretSpec_eq_dec : EqDecision SecretSpec.
Proof. solve_decision. Defined.

Record SecretGroup := mkGroup {
  Name : string;
  FileTemplate : string;
  SecretSpecs : list SecretSpec
}.

(** What the YAML library hands to [UnmarshalYAML]: the kind of the node and
    the result of decoding it as a string or as a map of strings ([None] when
    the decoding fails). A null node never reaches the method and leaves the
    zero spec. *)
Inductive yaml_node :=
| ScalarNode (literal : option string)
| MappingNode (entries : option (gmap string string))
| NullNode
| OtherNode.

Inductive spec_error := invalidSecretSpecErr | yamlErr.

(** ** Secret (secret_file_templates.go) *)
Record Secret := mkSecret { secretAlias : string; Value : string }.

#[export] Instance Secret_eq_dec : EqDecision Secret.
Proof. solve_decision. Defined.

Record TemplateData := mkTemplateData {
  SecretsArray : list Secret;
  SecretsMap : gmap string Secret
}.

(** ** UnmarshalYAML *)
Definition unmarshalFromLiteralString (literal : option string) : spec_error + SecretSpec :=
  match literal with
  | None => inl invalidSecretSpecErr
  | Some literalValue =>
      inr {| Path := literalValue;
             Alias := slice_from (Z.to_nat (LastIndexByte literalValue "/" + 1)) literalValue;
             ContentType := "text" |}
  end.

(** The loop over the decoded map; [count] is the number of entries other
    than the content type seen so far. *)
Fixpoint unmarshal_entries (t : SecretSpec) (count : nat) (entries : list (string * string)) :
    spec_error + SecretSpec :=
  match entries with
  | [] => inr t
  | (k, v) :: entries' =>
      if decide (k = "content-type") then
        unmarshal_entries (mkSpec (Alias t) (Path t) v) count entries'
      else if (1 <? S count)%nat then inl invalidSecretSpecErr
      else unmarshal_entries (mkSpec k v (ContentType t)) (S count) entries'
  end.

Definition unmarshalFromMap (o : range_order) (entries : option (gmap string string)) :
    spec_error + SecretSpec :=
  match entries with
  | None => inl invalidSecretSpecErr
  | Some mapValue => unmarshal_entries (mkSpec "" "" "text") 0 (range o mapValue)
  end.

Definition UnmarshalYAML (o : range_order) (node : yaml_node) : spec_error + SecretSpec :=
  match node with
  | ScalarNode literal => unmarshalFromLiteralString literal
  | MappingNode entries => unmarshalFromMap o entries
  | NullNode => inr (mkSpec "" "" "")
  | OtherNode => inl invalidSecretSpecErr
  end.

Fixpoint unmarshal_nodes (o : range_order) (nodes : list yaml_node) :
    spec_error + list SecretSpec :=
  match nodes with
  | [] => inr []
  | n :: ns =>
      match UnmarshalYAML o n with
      | inl e => inl e
      | inr s => match unmarshal_nodes o ns with inl e => inl e | inr ss => inr (s :: ss) end
      end
  end.

(** The map that is written for a spec; of two equal keys the later wins. *)
Definition MarshalYAML (t : SecretSpec) : gmap string string :=
  <["ContentType" := ContentType t]> {[Alias t := Path t]}.

Section with_yaml.
(** [yaml.Unmarshal] into a slice: the nodes of the sequence, or [None] when
    the text is not YAML or not a sequence. *)
Context (yaml_nodes : string → option (list yaml_node)).

Definition NewSecretSpecs (o : range_order) (raw : string) : spec_error + list SecretSpec :=
  if decide (raw = "*") then inr [mkSpec "*" "*" "text"]
  else match yaml_nodes raw with
       | None => inl yamlErr
       | Some nodes =>
           match unmarshal_nodes o nodes with inl _ => inl yamlErr | inr specs => inr specs end
       end.
End with_yaml.

(** ** Validation *)
Inductive path_error :=
| NullPath (group : string)
| TrailingSlash (group path : string)
| NameTooLong (group name : string).

Definition validateSecretPath (path groupName : string) : option path_error :=
  if decide (path = "") then Some (NullPath groupName)
  else
    let varName := slice_from (Z.to_nat (LastIndexByte path "/" + 1)) path in
    if decide (varName = "") then Some (TrailingSlash groupName path)
    else if (MaxConjurVarNameLen <? String.length varName)%nat
    then Some (NameTooLong groupName varName) else None.

Definition ValidateSecretPaths (secretSpecs : list SecretSpec) (groupName : string) :
    list path_error :=
  omap (λ s, validateSecretPath (Path s) groupName) secretSpecs.

Definition validateSecretContent (content : string) : bool :=
  bool_decide (content = "text" ∨ content = "base64").

(** The content types that are not valid, with the group; they are logged. *)
Definition ValidateSecretContents (secretSpecs : list SecretSpec) (groupName : string) :
    list (string * string) :=
  omap (λ s, if validateSecretContent (ContentType s) then None
             else Some (groupName, ContentType s)) secretSpecs.

(** The errors of [ValidateSecretContents] are only logged. *)
Definition ValidateSecretPathsAndContents (secretSpecs : list SecretSpec) (groupName : string) :
    list path_error :=
  ValidateSecretPaths secretSpecs groupName.

(** ** Template functions *)

(** [secret alias]: [None] is the panic that [Execute] turns into an error. *)
Definition secret_func (secretsMap : gmap string Secret) (alias : string) : option string :=
  Value <$> secretsMap !! alias.

Definition b64encTemplateFunc (value : string) : string := EncodeToString value.
Definition b64decTemplateFunc (encValue : string) : option string := DecodeString encValue.

(** The loop that indexes the secrets of a group by alias. *)
Definition index_secrets (secrets : list Secret) : gmap string Secret :=
  foldl (λ m s, <[secretAlias s := s]> m) ∅ secrets.

(** The template engine: a name, a text and the data of [Execute] give a parse
    error, an execution error or the rendered text. *)
Inductive rendered := ParseError | ExecError | Content (content : string).
Definition template_engine : Type := string → string → TemplateData → rendered.

(** [GetTemplate(name, secretsMap).Parse(text)] then [RenderFile]. *)
Definition render_template (eng : template_engine) (name text : string) (secrets : list Secret) :
    rendered :=
  eng name text (mkTemplateData secrets (index_secrets secrets)).

(** ** Lemmas *)

Lemma LastIndexByte_bound s c : -1 <= LastIndexByte s c < Z.of_nat (String.length s).
Proof.
  induction s as [|a s IH]; cbn [LastIndexByte String.length]; [lia|].
  case_bool_decide; [lia|]. case_decide; lia.
Qed.

(** What follows the last separator: the last part of the split. *)
Fixpoint last_part (s : string) (c : ascii) : string :=
  match s with
  | "" => ""
  | String a s' => if bool_decide (0 <= LastIndexByte s' c) then last_part s' c
                   else if decide (a = c) then s' else String a s'
  end.

Lemma slice_after_last s c : slice_from (Z.to_nat (LastIndexByte s c + 1)) s = last_part s c.
Proof.
  induction s as [|a s IH]; [done|]. cbn [LastIndexByte last_part].
  case_bool_decide as H.
  - rewrite Z2Nat.inj_add by lia. rewrite Nat.add_1_r. cbn [slice_from].
    done.
  - case_decide; [done|]. done.
Qed.

Lemma LastIndexByte_none s c : no_byte c s → LastIndexByte s c = -1.
Proof.
  induction s as [|a s IH]; [done|]. intros [Ha Hs]. cbn [LastIndexByte].
  rewrite IH by done. rewrite bool_decide_eq_false_2 by lia. by rewrite decide_False.
Qed.

Lemma last_part_app p s c : no_byte c s → last_part (p +:+ String c s) c = s.
Proof.
  intros Hs. induction p as [|a p IH].
  - change ("" +:+ String c s) with (String c s). cbn [last_part].
    rewrite LastIndexByte_none by done. rewrite bool_decide_eq_false_2 by lia.
    by rewrite decide_True.
  - rewrite append_cons. cbn [last_part]. rewrite bool_decide_eq_true_2; [done|].
    clear IH. induction p as [|b p IH].
    + change ("" +:+ String c s) with (String c s). cbn [LastIndexByte].
      rewrite LastIndexByte_none by done. rewrite bool_decide_eq_false_2 by lia.
      by rewrite decide_True.
    + rewrite append_cons. cbn [LastIndexByte]. rewrite bool_decide_eq_true_2 by done. lia.
Qed.

Lemma last_part_no_sep s c : no_byte c s → last_part s c = s.
Proof.
  destruct s as [|a s]; [done|]. intros [Ha Hs]. cbn [last_part].
  rewrite LastIndexByte_none by done. rewrite bool_decide_eq_false_2 by lia.
  by rewrite decide_False.
Qed.

(** The entries other than the content type, and the content type. *)
Definition other_entries (l : list (string * string)) : list (string * string) :=
  filter (λ kv, kv.1 ≠ "content-type") l.
Definition content_type_in (d : string) (l : list (string * string)) : string :=
  default d ((list_to_map l : gmap string string) !! "content-type").

Lemma content_type_in_later (d v : string) l :
  NoDup (("content-type", v) :: l).*1 → content_type_in d l = d.
Proof.
  intros [Hk _]%NoDup_cons. unfold content_type_in.
  by rewrite (not_elem_of_list_to_map_1 l) by done.
Qed.

Lemma other_entries_ct v l : other_entries (("content-type", v) :: l) = other_entries l.
Proof. unfold other_entries. by rewrite filter_cons_False by naive_solver. Qed.

Lemma other_entries_ne k v l :
  k ≠ "content-type" → other_entries ((k, v) :: l) = (k, v) :: other_entries l.
Proof. intros Hk. unfold other_entries. by rewrite filter_cons_True by done. Qed.

Lemma content_type_in_ct d v l : content_type_in d (("content-type", v) :: l) = v.
Proof. unfold content_type_in. by rewrite list_to_map_cons, lookup_insert_eq. Qed.

Lemma content_type_in_ne d k v l :
  k ≠ "content-type" → content_type_in d ((k, v) :: l) = content_type_in d l.
Proof. intros Hk. unfold content_type_in. by rewrite list_to_map_cons, lookup_insert_ne. Qed.

Lemma unmarshal_entries_ct t n v l :
  unmarshal_entries t n (("content-type", v) :: l) =
  unmarshal_entries (mkSpec (Alias t) (Path t) v) n l.
Proof. cbn [unmarshal_entries]. by rewrite decide_True. Qed.

Lemma unmarshal_entries_one t l :
  NoDup l.*1 →
  unmarshal_entries t 1 l =
  match other_entries l with
  | [] => inr (mkSpec (Alias t) (Path t) (content_type_in (ContentType t) l))
  | _ => inl invalidSecretSpecErr
  end.
Proof.
  revert t. induction l as [|[k v] l IH]; intros t Hnd; [by destruct t|].
  pose proof (NoDup_cons_1_2 _ _ Hnd) as Hnd'. destruct (decide (k = "content-type")) as [->|Hk].
  - rewrite unmarshal_entries_ct, IH, other_entries_ct, content_type_in_ct by done.
    cbn [Alias Path ContentType]. by rewrite (content_type_in_later v v) by done.
  - cbn [unmarshal_entries]. rewrite decide_False by done. by rewrite other_entries_ne.
Qed.

Lemma unmarshal_entries_zero t l :
  NoDup l.*1 →
  unmarshal_entries t 0 l =
  match other_entries l with
  | [] => inr (mkSpec (Alias t) (Path t) (content_type_in (ContentType t) l))
  | [(k, v)] => inr (mkSpec k v (content_type_in (ContentType t) l))
  | _ => inl invalidSecretSpecErr
  end.
Proof.
  revert t. induction l as [|[k v] l IH]; intros t Hnd; [by destruct t|].
  pose proof (NoDup_cons_1_2 _ _ Hnd) as Hnd'. destruct (decide (k = "content-type")) as [->|Hk].
  - rewrite unmarshal_entries_ct, IH, other_entries_ct, content_type_in_ct by done.
    cbn [Alias Path ContentType]. by rewrite (content_type_in_later v v) by done.
  - cbn [unmarshal_entries]. rewrite decide_False by done.
    rewrite other_entries_ne, content_type_in_ne by done. cbn [Nat.ltb Nat.leb].
    rewrite unmarshal_entries_one by done. by destruct (other_entries l).
Qed.

Lemma other_entries_perm o m :
  other_entries (range o m) ≡ₚ map_to_list (delete "content-type" m).
Proof.
  apply NoDup_Permutation.
  - apply NoDup_filter. eapply NoDup_fmap_1, range_NoDup_keys.
  - apply NoDup_map_to_list.
  - intros [k v]. unfold other_entries.
    rewrite list_elem_of_filter, elem_of_range, elem_of_map_to_list, lookup_delete_Some.
    naive_solver.
Qed.

Lemma validateSecretPath_None p g :
  validateSecretPath p g = None ↔
  p ≠ "" ∧ (1 ≤ String.length (last_part p "/") ≤ MaxConjurVarNameLen)%nat.
Proof.
  unfold validateSecretPath. rewrite slice_after_last.
  destruct (decide (p = "")) as [Hp|Hp]; [naive_solver|].
  destruct (decide (last_part p "/" = "")) as [Hl|Hl].
  { rewrite Hl. simpl. split; [done|lia]. }
  assert (1 ≤ String.length (last_part p "/"))%nat
    by (destruct (last_part p "/"); [done|simpl; lia]).
  destruct (Nat.ltb_spec MaxConjurVarNameLen (String.length (last_part p "/"))) as [Hlt|Hge].
  - split; [done|]. intros [_ ?]. exfalso. lia.
  - by repeat split.
Qed.

Lemma unmarshalFromMap_eq o m :
  unmarshalFromMap o (Some m) =
  let ct := default "text" (m !! "content-type") in
  match map_to_list (delete "content-type" m) with
  | [] => inr (mkSpec "" "" ct)
  | [(alias, path)] => inr (mkSpec alias path ct)
  | _ => inl invalidSecretSpecErr
  end.
Proof.
  unfold unmarshalFromMap.
  rewrite unmarshal_entries_zero by apply range_NoDup_keys.
  unfold content_type_in. rewrite list_to_map_range. cbn [Alias Path ContentType].
  pose proof (other_entries_perm o m) as Hp.
  destruct (map_to_list (delete "content-type" m)) as [|[k v] [|kv' l]].
  - apply Permutation_nil_r in Hp. by rewrite Hp.
  - apply Permutation_singleton_r in Hp. by rewrite Hp.
  - apply Permutation_length in Hp.
    by destruct (other_entries (range o m)) as [|[? ?] [|? ?]]; simplify_eq/=.
Qed.

Lemma UnmarshalYAML_order o o' node : UnmarshalYAML o node = UnmarshalYAML o' node.
Proof.
  destruct node as [lit|[m|]| |]; try done. cbn [UnmarshalYAML].
  by rewrite !unmarshalFromMap_eq.
Qed.

(** The specs do not depend on the order maps are visited in. *)
Lemma NewSecretSpecs_order yaml_nodes o o' raw :
  NewSecretSpecs yaml_nodes o raw = NewSecretSpecs yaml_nodes o' raw.
Proof.
  unfold NewSecretSpecs. destruct (decide _); [done|]. destruct (yaml_nodes raw) as [ns|]; [|done].
  assert (unmarshal_nodes o ns = unmarshal_nodes o' ns) as ->; [|done].
  induction ns as [|node ns IH]; [done|]. cbn [unmarshal_nodes].
  rewrite (UnmarshalYAML_order o o'). destruct (UnmarshalYAML o' node); [done|]. by rewrite IH.
Qed.

(** ** Properties *)

(** A mapping node is one spec whatever order its entries are
    visited in: the single entry other than "content-type" is the alias and
    the path, the content type defaults to "text", and a second such entry is
    the invalid-spec error. *)
Theorem unmarshalFromMap_spec o m :
  unmarshalFromMap o (Some m) =
  let ct := default "text" (m !! "content-type") in
  match map_to_list (delete "content-type" m) with
  | [] => inr (mkSpec "" "" ct)
  | [(alias, path)] => inr (mkSpec alias path ct)
  | _ => inl invalidSecretSpecErr
  end.
Proof. apply unmarshalFromMap_eq. Qed.

(** What [MarshalYAML] writes cannot be read back: its key "ContentType" is
    not the "content-type" that the unmarshaller knows, so the map has two
    aliases. *)
Lemma marshalled_spec_invalid o t :
  Alias t ≠ "ContentType" → Alias t ≠ "content-type" →
  UnmarshalYAML o (MappingNode (Some (MarshalYAML t))) = inl invalidSecretSpecErr.
Proof.
  intros H1 H2. unfold UnmarshalYAML. rewrite unmarshalFromMap_eq. cbn zeta.
  assert (map_to_list (delete "content-type" (MarshalYAML t)) ≡ₚ
    [("ContentType", ContentType t); (Alias t, Path t)]) as Hp.
  { unfold MarshalYAML. rewrite delete_id by (by rewrite lookup_insert_ne, lookup_singleton_ne).
    rewrite map_to_list_insert by (by rewrite lookup_singleton_ne). by rewrite map_to_list_singleton. }
  apply Permutation_length in Hp. cbn in Hp.
  destruct (map_to_list _) as [|[a b] [|x l]]; [done|done|]. reflexivity.
Qed.

(** A literal "policy/path/name" becomes a text spec for that path
    whose alias is the part after the last slash. *)
Theorem literal_spec_alias p name :
  no_byte "/"%char name →
  unmarshalFromLiteralString (Some (p +:+ String "/" name)) =
    inr (mkSpec name (p +:+ String "/" name) "text") ∧
  unmarshalFromLiteralString (Some name) = inr (mkSpec name name "text").
Proof.
  intros Hn. unfold unmarshalFromLiteralString. rewrite !slice_after_last.
  by rewrite last_part_app, last_part_no_sep.
Qed.

Lemma literal_spec_alias_witness :
  unmarshalFromLiteralString (Some "db/prod/url") = inr (mkSpec "url" "db/prod/url" "text").
Proof. apply (literal_spec_alias "db/prod" "url"). by repeat constructor. Defined.

(** [ValidateSecretPathsAndContents] reports nothing exactly when
    every path is non-empty and its last part (the variable name) has between
    1 and 126 bytes; content types are never an error. *)
Theorem validate_paths_ok specs g :
  ValidateSecretPathsAndContents specs g = [] ↔
  Forall (λ s, Path s ≠ "" ∧
    (1 ≤ String.length (last_part (Path s) "/") ≤ MaxConjurVarNameLen)%nat) specs.
Proof.
  unfold ValidateSecretPathsAndContents, ValidateSecretPaths.
  induction specs as [|s specs IH]; [done|].
  rewrite Forall_cons, <- IH, <- (validateSecretPath_None _ g). cbn [omap list_omap].
  destruct (validateSecretPath (Path s) g); naive_solver.
Qed.

(** What is logged: the content types other than the two known ones, in order. *)
Lemma ValidateSecretContents_spec specs g gc :
  gc ∈ ValidateSecretContents specs g ↔
  ∃ s, s ∈ specs ∧ ContentType s ≠ "text" ∧ ContentType s ≠ "base64" ∧ gc = (g, ContentType s).
Proof.
  unfold ValidateSecretContents, validateSecretContent. rewrite list_elem_of_omap. split.
  - intros (s & Hs & Hc). exists s. case_bool_decide; naive_solver.
  - intros (s & Hs & H1 & H2 & ->). exists s. rewrite bool_decide_eq_false_2; naive_solver.
Qed.

(** The template function "b64dec" inverts "b64enc" on every
    secret value. *)
Theorem b64_template_roundtrip value :
  b64decTemplateFunc (b64encTemplateFunc value) = Some value.
Proof. apply base64_roundtrip. Qed.
