(* ===== verification/K8sClient.v ===== *)
(** * The Kubernetes Secrets client (pkg/secrets/clients/k8s)

    The Secret object, the three calls of the client, and the interface
    [K8sAccess] that the K8s provider is verified against. The Kubernetes API
    server is a parameter, [KubeApi], with its documented behaviour as
    [KubeApiLaws]; [sim_kube] is a concrete in-memory server. *)

From S2P Require Import Prelude GoString GoBytes Config.
Open Scope Z_scope.

(** ** Secret objects

    A nil Go map is [None]. *)
Record K8sSecret := mkK8sSecret {
  secretName_ : string;
  Labels : option (gmap string string);
  Annotations : option (gmap string string);
  Data : option (gmap string bytes)
}.

(** [m[k]] and [_, ok := m[k]] on a map that may be nil. *)
Definition nilmap_lookup {V} (m : option (gmap string V)) (k : string) : option V :=
  m ≫= λ m', m' !! k.

Definition nilmap {V} (m : option (gmap string V)) : gmap string V := default ∅ m.

Definition set_data (s : K8sSecret) (d : option (gmap string bytes)) : K8sSecret :=
  mkK8sSecret (secretName_ s) (Labels s) (Annotations s) d.

(** The label by which Secrets are listed. *)
Definition labelled (s : K8sSecret) : Prop :=
  nilmap_lookup (Labels s) ManagedByProviderKey = Some "true".

#[export] Instance labelled_dec s : Decision (labelled s).
Proof. apply _. Defined.

(** ** The interface of the providers: k8sAccessDeps *)
Record k8sAccessDeps (W : Type) := mkAccess {
  retrieveSecret : string → string → M W string K8sSecret;
  (** The original is a pointer: [None] is nil. *)
  updateSecret : string → string → option K8sSecret → gmap string bytes → M W string unit;
  listLabeledSecrets : string → M W string (list K8sSecret)
}.
Arguments retrieveSecret {W} _ _ _.
Arguments updateSecret {W} _ _ _ _ _.
Arguments listLabeledSecrets {W} _ _.

(** [entries] written over [data]. *)
Definition overlay (entries : gmap string bytes) (data : option (gmap string bytes)) :
    gmap string bytes := entries ∪ nilmap data.

(** What a provider relies on: reads leave the world alone and return stored
    objects, a successful update stores the original with the entries written
    over its data and touches nothing else, a failed one changes nothing, and
    a nil original is a nil-pointer dereference. *)
Class K8sAccess {W} (deps : k8sAccessDeps W) := {
  cluster : W → string → string → option K8sSecret;
  ready : W → Prop;
  retrieve_world ns n w : (retrieveSecret deps ns n w).2 = w;
  retrieve_ok ns n w s : (retrieveSecret deps ns n w).1 = Ret s →
    secretName_ s = n ∧ cluster w ns n = Some s;
  list_world ns w : (listLabeledSecrets deps ns w).2 = w;
  list_ok ns w l : (listLabeledSecrets deps ns w).1 = Ret l →
    NoDup (secretName_ <$> l) ∧ ∀ s, s ∈ l → cluster w ns (secretName_ s) = Some s ∧ labelled s;
  update_nil ns n d w : updateSecret deps ns n None d w = (Panic, w);
  update_ok ns n s d w w' : updateSecret deps ns n (Some s) d w = (Ret tt, w') →
    ∀ ns' n', cluster w' ns' n' =
      if decide (ns' = ns ∧ n' = secretName_ s)
      then Some (set_data s (Some (overlay d (Data s)))) else cluster w ns' n';
  update_fail ns n s d w w' e : updateSecret deps ns n (Some s) d w = (Fail e, w') →
    ∀ ns' n', cluster w' ns' n' = cluster w ns' n';
  update_ready ns n s d w : ready w →
    (updateSecret deps ns n (Some s) d w).1 ≠ Panic ∧
    ready (updateSecret deps ns n (Some s) d w).2;
  read_ready ns n w : ready w →
    (retrieveSecret deps ns n w).1 ≠ Panic ∧ (listLabeledSecrets deps ns w).1 ≠ Panic
}.

(** ** The API server *)
Class KubeApi (W : Type) := {
  (** [rest.InClusterConfig] and [kubernetes.NewForConfig] succeed. *)
  kube_config : W → bool;
  kube_get : string → string → W → option K8sSecret;
  kube_list : string → string → W → option (list K8sSecret);
  kube_update : string → K8sSecret → W → bool * W;
  kube_store : W → string → string → option K8sSecret
}.

Class KubeApiLaws (W : Type) `{KubeApi W} := {
  get_stored ns n w s : kube_get ns n w = Some s →
    secretName_ s = n ∧ kube_store w ns n = Some s;
  list_stored ns sel w l : kube_list ns sel w = Some l →
    NoDup (secretName_ <$> l) ∧ ∀ s, s ∈ l → kube_store w ns (secretName_ s) = Some s;
  (** What the selector of the program selects. *)
  list_selected ns w l : kube_list ns (ManagedByProviderKey +:+ "=true") w = Some l →
    ∀ s, s ∈ l → labelled s;
  update_stored ns s w w' : kube_update ns s w = (true, w') →
    ∀ ns' n', kube_store w' ns' n' =
      if decide (ns' = ns ∧ n' = secretName_ s) then Some s else kube_store w ns' n';
  update_rejected ns s w w' : kube_update ns s w = (false, w') →
    ∀ ns' n', kube_store w' ns' n' = kube_store w ns' n';
  update_config ns s w : kube_config (kube_update ns s w).2 = kube_config w
}.

(** ** The calls *)
Section client.
Context {W : Type} `{KubeApi W}.

(** [configK8sClient]'s error is dropped by its callers, and the method call
    on the nil client it then returns dereferences it. *)
Definition with_client {A} (k : M W string A) : M W string A :=
  λ w, if kube_config w then k w else (Panic, w).

Definition CSPFK020E := "CSPFK020E Failed to retrieve Kubernetes Secret".
Definition CSPFK022E := "CSPFK022E Failed to update Kubernetes Secret".
Definition CSPFK024E := "CSPFK024E Failed to list labeled Kubernetes Secrets".

Definition RetrieveK8sSecret (namespace secretName : string) : M W string K8sSecret :=
  with_client (λ w,
    match kube_get namespace secretName w with
    | Some k8sSecret => (Ret k8sSecret, w)
    | None => (Fail CSPFK020E, w)
    end).

(** The loop that writes the entries into the original's data, in the order
    [o]. *)
Definition write_entries (o : range_order) (entries : gmap string bytes)
    (data : gmap string bytes) : gmap string bytes :=
  foldl (λ d kv, <[kv.1 := kv.2]> d) data (range o entries).

Definition UpdateK8sSecret (o : range_order) (namespace secretName : string)
    (originalK8sSecret : option K8sSecret) (stringDataEntriesMap : gmap string bytes) :
    M W string unit :=
  with_client (λ w,
    match originalK8sSecret with
    | None => (Panic, w)
    | Some s =>
        let data := match Data s with None => ∅ | Some d => d end in
        let s' := set_data s (Some (write_entries o stringDataEntriesMap data)) in
        let '(ok, w') := kube_update namespace s' w in
        if ok then (Ret tt, w') else (Fail CSPFK022E, w')
    end).

Definition ListLabeledK8sSecrets (namespace : string) : M W string (list K8sSecret) :=
  with_client (λ w,
    match kube_list namespace (ManagedByProviderKey +:+ "=true") w with
    | Some secretList => (Ret secretList, w)
    | None => (Fail CSPFK024E, w)
    end).

Definition defaultAccess (o : range_order) : k8sAccessDeps W :=
  mkAccess W RetrieveK8sSecret (UpdateK8sSecret o) ListLabeledK8sSecrets.
End client.

(** ** An in-memory API server

    The store, whether the client can be configured, and the names whose
    update the server rejects. *)
Record sim_world := mkSim {
  sim_store : gmap string (gmap string K8sSecret);
  sim_config : bool;
  sim_denied : list string
}.

Definition sim_lookup (w : sim_world) (ns n : string) : option K8sSecret :=
  (sim_store w !!! ns) !! n.

#[export] Instance sim_kube : KubeApi sim_world := {
  kube_config := sim_config;
  kube_get ns n w := sim_lookup w ns n ≫= λ s, if decide (secretName_ s = n) then Some s else None;
  kube_list ns _ w :=
    Some (filter (λ s, labelled s)
      (omap (λ kv, if decide (secretName_ kv.2 = kv.1) then Some kv.2 else None)
         (map_to_list (sim_store w !!! ns))));
  kube_update ns s w :=
    if decide (secretName_ s ∈ sim_denied w) then (false, w)
    else (true, mkSim (<[ns := <[secretName_ s := s]> (sim_store w !!! ns)]> (sim_store w))
                      (sim_config w) (sim_denied w));
  kube_store := sim_lookup
}.

(** ** Lemmas *)
Lemma write_entries_overlay o entries data :
  write_entries o entries data = entries ∪ data.
Proof.
  unfold write_entries. rewrite <- (list_to_map_range o entries) at 2.
  generalize (range_NoDup_keys o entries). generalize (range o entries). intros l.
  revert data. induction l as [|[k v] l IH]; intros data Hnd; cbn [foldl].
  - cbn [list_to_map foldr]. by rewrite map_empty_union.
  - apply NoDup_cons in Hnd as [Hk Hnd]. rewrite IH by done. cbn [fst snd].
    rewrite list_to_map_cons, <- insert_union_l.
    rewrite <- insert_union_r; [by rewrite insert_union_l|].
    by apply not_elem_of_list_to_map_1.
Qed.

Lemma sim_named_NoDup (l : list (string * K8sSecret)) :
  NoDup l.*1 →
  NoDup (secretName_ <$> filter (λ s, labelled s)
    (omap (λ kv, if decide (secretName_ kv.2 = kv.1) then Some kv.2 else None) l)).
Proof.
  induction l as [|[k s] l IH]; intros Hnd; [constructor|].
  apply NoDup_cons in Hnd as [Hk Hnd]. cbn [omap list_omap fst snd].
  destruct (decide (secretName_ s = k)) as [<-|Hs]; [|by apply IH].
  rewrite filter_cons. destruct (decide (labelled s)); [|by apply IH].
  rewrite fmap_cons. apply NoDup_cons. split; [|by apply IH].
  intros (s' & Heq & [_ Hs']%list_elem_of_filter)%list_elem_of_fmap.
  apply list_elem_of_omap in Hs' as ([k' s''] & Hin & Hcase). cbn in Hcase.
  case_decide; simplify_eq. apply Hk, list_elem_of_fmap.
  exists (secretName_ s', s'). cbn. by rewrite Heq.
Qed.

#[export] Instance sim_kube_laws : KubeApiLaws sim_world.
Proof.
  split.
  - intros ns n w s H. simpl in H. unfold sim_lookup in H.
    destruct (_ !! n) as [s'|] eqn:Hs; simpl in H; [|done]. case_decide; simplify_eq.
    by split.
  - intros ns sel w l [= <-]. split.
    + apply sim_named_NoDup, NoDup_fst_map_to_list.
    + intros s [_ Hs]%list_elem_of_filter.
      apply list_elem_of_omap in Hs as ([k s'] & Hin & Hcase). simpl in Hcase.
      case_decide; simplify_eq. by apply elem_of_map_to_list in Hin.
  - intros ns w l [= <-] s Hs. by apply list_elem_of_filter in Hs as [? _].
  - intros ns s w w' H ns' n'. simpl in *. case_decide; simplify_eq. unfold sim_lookup. simpl.
    destruct (decide (ns' = ns)) as [->|Hns].
    + rewrite lookup_total_insert_eq. destruct (decide (n' = secretName_ s)) as [->|Hn].
      * rewrite lookup_insert_eq. by rewrite decide_True.
      * rewrite lookup_insert_ne by done. by rewrite decide_False by naive_solver.
    + rewrite lookup_total_insert_ne by done. by rewrite decide_False by naive_solver.
  - intros ns s w w' H. simpl in *. by case_decide; simplify_eq.
  - intros ns s w. simpl. by case_decide.
Qed.

Section access.
Context {W : Type} `{KubeApiLaws W} (o : range_order).

Lemma RetrieveK8sSecret_world ns n w : (RetrieveK8sSecret ns n w).2 = w.
Proof.
  unfold RetrieveK8sSecret, with_client. destruct (kube_config w); [|done].
  by destruct (kube_get ns n w).
Qed.

Lemma ListLabeledK8sSecrets_world ns w : (ListLabeledK8sSecrets ns w).2 = w.
Proof.
  unfold ListLabeledK8sSecrets, with_client. destruct (kube_config w); [|done].
  by destruct (kube_list ns _ w).
Qed.

(** What [UpdateK8sSecret] sends, and what it makes of the answer. *)
Lemma UpdateK8sSecret_eq ns n s d w :
  UpdateK8sSecret o ns n (Some s) d w =
  if kube_config w
  then let '(ok, w') := kube_update ns (set_data s (Some (overlay d (Data s)))) w in
       (if ok then Ret tt else Fail CSPFK022E, w')
  else (Panic, w).
Proof.
  unfold UpdateK8sSecret, with_client. destruct (kube_config w); [|done].
  rewrite write_entries_overlay. unfold overlay, nilmap.
  replace (match Data s with Some d0 => d0 | None => ∅ end) with (default ∅ (Data s))
    by by destruct (Data s).
  by destruct (kube_update ns _ w) as [[] w'].
Qed.

(** The client implements the interface: with a lawful API server behind it,
    [defaultAccess] keeps every promise of [K8sAccess]. *)
#[export] Program Instance defaultAccess_lawful : K8sAccess (defaultAccess o) := {
  cluster := kube_store;
  ready w := kube_config w = true
}.
Next Obligation. intros. apply RetrieveK8sSecret_world. Qed.
Next Obligation.
  intros ns n w s Hr. cbn in Hr. unfold RetrieveK8sSecret, with_client in Hr.
  destruct (kube_config w); [|done]. destruct (kube_get ns n w) eqn:Hg; [|done].
  injection Hr as ->. by apply get_stored.
Qed.
Next Obligation. intros. apply ListLabeledK8sSecrets_world. Qed.
Next Obligation.
  intros ns w l Hr. cbn in Hr. unfold ListLabeledK8sSecrets, with_client in Hr.
  destruct (kube_config w); [|done]. destruct (kube_list ns _ w) eqn:Hg; [|done].
  injection Hr as ->. destruct (list_stored _ _ _ _ Hg) as [Hn Hc]. split; [done|].
  intros s Hs. split; [by apply Hc|by eapply list_selected].
Qed.
Next Obligation.
  intros ns n d w. cbn. unfold UpdateK8sSecret, with_client. by destruct (kube_config w).
Qed.
Next Obligation.
  intros ns n s d w w' Hr ns' n'. cbn in Hr. rewrite UpdateK8sSecret_eq in Hr.
  destruct (kube_config w); [|done].
  destruct (kube_update ns _ w) as [[] w1] eqn:Hu; simplify_eq.
  by rewrite (update_stored _ _ _ _ Hu).
Qed.
Next Obligation.
  intros ns n s d w w' e Hr ns' n'. cbn in Hr. rewrite UpdateK8sSecret_eq in Hr.
  destruct (kube_config w); [|done].
  destruct (kube_update ns _ w) as [[] w1] eqn:Hu; simplify_eq.
  by rewrite (update_rejected _ _ _ _ Hu).
Qed.
Next Obligation.
  intros ns n s d w Hc. cbn. rewrite UpdateK8sSecret_eq, Hc.
  pose proof (update_config ns (set_data s (Some (overlay d (Data s)))) w) as Hcfg.
  rewrite Hc in Hcfg. by destruct (kube_update ns _ w) as [[] w1].
Qed.
Next Obligation.
  intros ns n w Hc. cbn. unfold RetrieveK8sSecret, ListLabeledK8sSecrets, with_client.
  rewrite Hc. destruct (kube_get ns n w), (kube_list ns _ w); done.
Qed.
End access.

(** ** Properties *)

(** A successful [UpdateK8sSecret] stores the original Secret with
    the entries written over its data: every other key of the data keeps its
    value, and no other Secret of the cluster changes. *)
Theorem UpdateK8sSecret_spec `{KubeApiLaws W} o ns n s d w w' :
  UpdateK8sSecret o ns n (Some s) d w = (Ret tt, w') →
  (∃ s', kube_store w' ns (secretName_ s) = Some s' ∧
    Labels s' = Labels s ∧ Annotations s' = Annotations s ∧
    ∀ k, nilmap_lookup (Data s') k =
      match d !! k with Some v => Some v | None => nilmap_lookup (Data s) k end) ∧
  ∀ ns' n', (ns', n') ≠ (ns, secretName_ s) → kube_store w' ns' n' = kube_store w ns' n'.
Proof.
  intros Hr. pose proof (update_ok (deps := defaultAccess o) ns n s d w w' Hr) as Hs.
  cbn in Hs. split.
  - rewrite Hs, decide_True by done. eexists. split; [done|]. do 2 (split; [done|]).
    intros k. cbn. unfold overlay, nilmap_lookup, nilmap.
    destruct (d !! k) as [v|] eqn:Hk.
    + by rewrite (lookup_union_Some_l _ _ _ _ Hk).
    + rewrite lookup_union_r by done. by destruct (Data s); cbn; rewrite ?lookup_empty.
  - intros ns' n' Hne. rewrite Hs. by rewrite decide_False by naive_solver.
Qed.

Lemma UpdateK8sSecret_spec_witness :
  let s := mkK8sSecret "db" None None (Some {["conjur-map" := Some "m"]}) in
  let w := mkSim ∅ true [] in
  ∃ s', kube_store (UpdateK8sSecret canonical_order "ns" "db" (Some s)
                      {["pw" := Some "hunter2"]} w).2 "ns" "db" = Some s' ∧
    nilmap_lookup (Data s') "conjur-map" = Some (Some "m").
Proof.
  intros s w.
  destruct (UpdateK8sSecret_spec canonical_order "ns" "db" s {["pw" := Some "hunter2"]} w
    (UpdateK8sSecret canonical_order "ns" "db" (Some s) {["pw" := Some "hunter2"]} w).2)
    as [(s' & Hs & _ & _ & Hd) _]; [vm_compute; reflexivity|].
  exists s'. split; [exact Hs|]. rewrite Hd. vm_compute. reflexivity.
Defined.
