(* ===== verification/K8sProvider.v ===== *)
(** * The Kubernetes Secrets provider (pkg/secrets/k8s_secrets_storage)

    The provider's state, its retrieval of the required K8s Secrets, the index
    of update destinations, the list of Conjur variables to fetch, the data
    written to every Secret, change detection, cleanup of removed keys and the
    rendering of group templates. The K8s client is the interface [K8sAccess];
    the Conjur retriever, the YAML libraries and the template engine are
    parameters. *)

From S2P Require Import Prelude GoString GoBytes Config FileTemplates K8sClient.
Open Scope Z_scope.

(** ** Messages *)
Definition CSPFK021E := "CSPFK021E Failed to retrieve Kubernetes Secrets".
Definition CSPFK023E := "CSPFK023E Failed to update Kubernetes Secrets".
Definition CSPFK025E := "CSPFK025E PathMap cannot be empty".
Definition CSPFK028E (name : string) :=
  "CSPFK028E Unable to update Kubernetes Secret '" +:+ name +:+ "'".
Definition CSPFK034E (reason : string) :=
  "CSPFK034E Failed to retrieve DAP/Conjur secrets. Reason: " +:+ reason.
Definition CSPFK037E (secret name : string) :=
  "CSPFK037E Failed to parse DAP/Conjur variable ID for secret '" +:+ secret +:+
  "' in destination '" +:+ name +:+ "'".

(** ** State *)
Record updateDestination := mkDest {
  k8sSecretName : string;
  secretName : string;
  contentType : string
}.

#[export] Instance updateDestination_eq_dec : EqDecision updateDestination.
Proof. solve_decision. Defined.

(** The Secret's name and the key in its data. *)
Definition destinationKey : Type := string * string.
Definition dest_key (d : updateDestination) : destinationKey := (k8sSecretName d, secretName d).

Record k8sSecretsState := mkSecretsState {
  originalK8sSecrets : gmap string K8sSecret;
  updateDestinations : gmap string (list updateDestination);
  updateDestinationLookup : gmap string (gset destinationKey)
}.

Definition empty_state : k8sSecretsState := mkSecretsState ∅ ∅ ∅.

Record K8sProvider := mkProvider {
  secretsState : k8sSecretsState;
  prevSecretsChecksums : gmap string Checksum;
  secretsGroups : gmap string (list SecretGroup)
}.

Definition newProvider : K8sProvider := mkProvider empty_state ∅ ∅.

(** A value of a conjur-map as yaml.v2 decodes it into an [interface{}]: a
    string, a mapping (the string values of its string keys, [None] for a
    value that is not a string), or anything else. *)
Inductive yaml_value :=
| YString (s : string)
| YMapping (m : gmap string (option string))
| YOther.

(** The libraries the provider calls: yaml.v2 into a map (the entries decoded
    before an error, and success), yaml.v3 into the nodes of a sequence, the
    text of a spec error, and text/template. *)
Record libraries := mkLibraries {
  yaml2 : string → gmap string yaml_value * bool;
  yaml_nodes : string → option (list yaml_node);
  spec_error_text : spec_error → string;
  engine : template_engine
}.

(** [k8sProviderDeps]: the K8s client, the Conjur retriever and the text of
    the error that [log.RecordedError] makes of a message. *)
Record k8sProviderDeps (W : Type) := mkDeps {
  k8s : k8sAccessDeps W;
  retrieveSecrets : list string → W → outcome string (gmap string bytes);
  recordedError : string → string
}.
Arguments k8s {W} _.
Arguments retrieveSecrets {W} _ _ _.
Arguments recordedError {W} _ _.

(** [K8sProviderConfig] with the sanitize flag. *)
Record provider_config := mkProviderConfig {
  podNamespace : string;
  requiredK8sSecrets : list string;
  sanitizeEnabled : bool
}.

(** ** Names of keys *)
Definition allowed_rune (r : Z) : bool :=
  in_range 48 57 r || in_range 65 90 r || in_range 97 122 r ||
  (r =? 95) || (r =? 45) || (r =? 46).

Definition normalizeK8sSecretName (name : string) : string :=
  Join ((λ rb : Z * string, if allowed_rune rb.1 then rb.2 else ".") <$> runes name) "".

(** ** The destination index *)
Definition set_state (p : K8sProvider) (st : k8sSecretsState) : K8sProvider :=
  mkProvider st (prevSecretsChecksums p) (secretsGroups p).

Definition appendDestination (varID : string) (dest : updateDestination)
    (st : k8sSecretsState) : k8sSecretsState :=
  let lookup1 := match updateDestinationLookup st !! varID with
                 | Some _ => updateDestinationLookup st
                 | None => <[varID := ∅]> (updateDestinationLookup st)
                 end in
  if decide (dest_key dest ∈ lookup1 !!! varID)
  then mkSecretsState (originalK8sSecrets st) (updateDestinations st) lookup1
  else mkSecretsState (originalK8sSecrets st)
         (map_append varID [dest] (updateDestinations st))
         (<[varID := {[dest_key dest]} ∪ lookup1 !!! varID]> lookup1).

(** The entries to write, per Secret and key. *)
Abbreviation secrets_data := (gmap string (gmap string bytes)).

(** ** Operations *)
Section provider.
Context {W : Type} (L : libraries) (D : k8sProviderDeps W) (C : provider_config).

(** The provider's mutable state and the world of the K8s client. *)
#[local] Abbreviation MP := (M (K8sProvider * W)).

Definition on_provider {E} (f : K8sProvider → K8sProvider) : MP E unit :=
  modify (λ s, (f s.1, s.2)).
Definition on_state {E} (f : k8sSecretsState → k8sSecretsState) : MP E unit :=
  on_provider (λ p, set_state p (f (secretsState p))).
Definition call_k8s {A} (m : M W string A) : MP string A :=
  λ s, let '(r, w) := m s.2 in (r, (s.1, w)).

Definition record_original (s : K8sSecret) (st : k8sSecretsState) : k8sSecretsState :=
  mkSecretsState (<[secretName_ s := s]> (originalK8sSecrets st))
    (updateDestinations st) (updateDestinationLookup st).
Definition delete_original (name : string) (st : k8sSecretsState) : k8sSecretsState :=
  mkSecretsState (delete name (originalK8sSecrets st))
    (updateDestinations st) (updateDestinationLookup st).

(** *** Secret groups *)
Definition quoted (s : string) : string := String dquote (s +:+ String dquote "").
Definition group_error_specs (annotation : string) (e : spec_error) : string :=
  "unable to create secret specs from annotation " +:+ quoted annotation +:+ ": " +:+
  spec_error_text L e.
Definition group_error_empty (annotation : string) : string :=
  "annotation " +:+ quoted annotation +:+ " has no secret specs defined".

(** The loop over the annotations, from the [i]-th on. *)
Fixpoint collect_groups (sched : schedule) (i : nat) (annotations : gmap string string)
    (entries : list (string * string)) : outcome string (list SecretGroup) :=
  match entries with
  | [] => Ret []
  | (annotationName, annotationValue) :: entries' =>
      if HasPrefix annotationName SecretGroupPrefix then
        let groupName := TrimPrefix annotationName SecretGroupPrefix in
        match annotations !! (SecretGroupFileTemplatePrefix +:+ groupName) with
        | None => collect_groups sched (S i) annotations entries'
        | Some _ =>
            match NewSecretSpecs (yaml_nodes L) (loop sched i) annotationValue with
            | inl e => Fail (group_error_specs annotationName e)
            | inr [] => Fail (group_error_empty annotationName)
            | inr secretSpecs =>
                groups ← collect_groups sched (S i) annotations entries';
                Ret (mkGroup groupName "" secretSpecs :: groups)
            end
        end
      else collect_groups sched (S i) annotations entries'
  end.

Definition processSecretGroupAnnotations (sched : schedule) (k8sSecret : K8sSecret) :
    MP string unit :=
  let annotations := nilmap (Annotations k8sSecret) in
  secretGroups ← lift_outcome
    (collect_groups (sub sched 1) 0 annotations (range (loop sched 0) annotations));
  if decide (secretGroups = []) then mret tt
  else on_provider (λ p, mkProvider (secretsState p) (prevSecretsChecksums p)
         (<[secretName_ k8sSecret := secretGroups]> (secretsGroups p))).

(** *** The conjur-map *)

(** The destination a conjur-map entry names, or the text of its error. *)
Definition parse_entry (k8sSecretName secretName : string) (contents : yaml_value) :
    string + (string * updateDestination) :=
  match contents with
  | YString varID => inr (varID, mkDest k8sSecretName secretName "text")
  | YMapping value =>
      match mjoin (value !! "id") with
      | None => inl (CSPFK037E secretName k8sSecretName)
      | Some varId =>
          if decide (varId = "") then inl (CSPFK037E secretName k8sSecretName)
          else
            let contentType :=
              if decide (mjoin (value !! "content-type") = Some "base64")
              then "base64" else "text" in
            inr (varId, mkDest k8sSecretName secretName contentType)
      end
  | YOther => inl (CSPFK028E k8sSecretName)
  end.

Definition refresh_entry (k8sSecretName : string) (kv : string * yaml_value) : MP string unit :=
  match parse_entry k8sSecretName kv.1 kv.2 with
  | inl e => throw (recordedError D e)
  | inr (varID, dest) => on_state (appendDestination varID dest)
  end.

Definition refreshUpdateDestinations (o : range_order) (conjurMap : gmap string yaml_value)
    (k8sSecretName : string) : MP string unit :=
  for_each (range o conjurMap) (refresh_entry k8sSecretName).

Definition parseConjurSecretsYAML (o : range_order) (k8sSecret : K8sSecret) : MP string bool :=
  match nilmap_lookup (Data k8sSecret) ConjurMapKey with
  | None => mret false
  | Some raw =>
      if decide (bytes_string raw = "") then mret false
      else
        let '(conjurMap, ok) := yaml2 L (bytes_string raw) in
        if negb ok then
          groups ← gets (λ s, secretsGroups s.1);
          if decide (groups = ∅) then throw (recordedError D (CSPFK028E (secretName_ k8sSecret)))
          else mret false
        else if decide (conjurMap = ∅) then mret false
        else
          _ ← refreshUpdateDestinations o conjurMap (secretName_ k8sSecret);
          mret true
  end.

(** *** Retrieving the K8s Secrets *)
Definition retrieveRequiredK8sSecret (sched : schedule) (k8sSecret : K8sSecret)
    (allowEmptyConjurMap : bool) : MP string unit :=
  _ ← on_state (record_original k8sSecret);
  _ ← processSecretGroupAnnotations (sub sched 0) k8sSecret;
  hasValidConjurMap ← parseConjurSecretsYAML (loop sched 1) k8sSecret;
  groups ← gets (λ s, secretsGroups s.1);
  if decide (hasValidConjurMap = false ∧ groups = ∅) then
    if allowEmptyConjurMap then mret tt
    else throw (recordedError D (CSPFK028E (secretName_ k8sSecret)))
  else mret tt.

Definition retrieve_by_name (sched : schedule) (i_name : nat * string) : MP string unit :=
  k8sSecret ← on_error (call_k8s (retrieveSecret (k8s D) (podNamespace C) i_name.2))
                (λ _, throw (recordedError D CSPFK020E));
  retrieveRequiredK8sSecret (sub sched i_name.1) k8sSecret false.

Definition process_labelled (sched : schedule) (i_secret : nat * K8sSecret) : MP string unit :=
  on_error (retrieveRequiredK8sSecret (sub sched i_secret.1) i_secret.2 true)
    (λ _, on_state (delete_original (secretName_ i_secret.2))).

Definition retrieveRequiredK8sSecrets (sched : schedule) : MP string unit :=
  if decide (requiredK8sSecrets C = []) then
    k8sSecrets ← on_error (call_k8s (listLabeledSecrets (k8s D) (podNamespace C)))
                   (λ _, throw (recordedError D CSPFK024E));
    for_each (imap pair k8sSecrets) (process_labelled sched)
  else for_each (imap pair (requiredK8sSecrets C)) (retrieve_by_name sched).

(** *** The variables to fetch *)

(** The loop over the keys of the destinations: [None] when it meets the
    fetch-all variable. *)
Fixpoint destination_ids (keys : list string) : option (list string) :=
  match keys with
  | [] => Some []
  | key :: keys' => if decide (key = "*") then None else cons key <$> destination_ids keys'
  end.

(** The loop over the specs of all groups, with the identifiers seen so far. *)
Fixpoint group_ids (seen : gset string) (paths : list string) : list string :=
  match paths with
  | [] => []
  | path :: paths' =>
      if decide (path ∈ seen) then group_ids seen paths'
      else path :: group_ids ({[path]} ∪ seen) paths'
  end.

Definition group_paths (groups : list (string * list SecretGroup)) : list string :=
  Path <$> mjoin (SecretSpecs <$> mjoin groups.*2).

Definition listConjurSecretsToFetch (sched : schedule) (p : K8sProvider) :
    outcome string (list string) :=
  let updateDests := updateDestinations (secretsState p) in
  if decide (updateDests = ∅ ∧ secretsGroups p = ∅) then Ret []
  else match destination_ids (range (loop sched 0) updateDests).*1 with
       | None => Ret ["*"]
       | Some ids =>
           let variableIDs :=
             ids ++ group_ids (list_to_set ids)
                      (group_paths (range (loop sched 1) (secretsGroups p))) in
           if decide (variableIDs = []) then Fail (recordedError D CSPFK025E) else Ret variableIDs
       end.

Definition retrieveConjurSecrets (sched : schedule) : MP string (gmap string bytes) :=
  variableIDs ← (λ s, (listConjurSecretsToFetch sched s.1, s));
  on_error (λ s, (retrieveSecrets D variableIDs s.2, s))
    (λ e, throw (recordedError D (CSPFK034E e))).

(** *** The data of the K8s Secrets *)
(** [m[k]]: nil when the key is missing. *)
Definition bytes_at (m : gmap string bytes) (k : string) : bytes := default None (m !! k).

(** [m[k1][k2] != nil], [m[k1][k2] = v] with [m[k1]] made when it is nil. *)
Definition data_set (data : secrets_data) (name key : string) : bool :=
  match (data !!! name) !! key with Some (Some _) => true | _ => false end.
Definition set_entry (name key : string) (v : bytes) (data : secrets_data) : secrets_data :=
  <[name := <[key := v]> (data !!! name)]> data.

(** The value written for a destination: base64 content is decoded, and a
    value that does not decode is written as it is. *)
Definition dest_value (dest : updateDestination) (secretValue : bytes) : bytes :=
  if decide (contentType dest = "base64") then
    match DecodeString (bytes_string secretValue) with
    | Some decoded => Some decoded
    | None => secretValue
    end
  else secretValue.

(** The body of the inner loop for one destination of one variable. *)
Definition write_dest (variableID : string) (secretValue : bytes) (data : secrets_data)
    (dest : updateDestination) : secrets_data :=
  let data1 := <[k8sSecretName dest := data !!! k8sSecretName dest]> data in
  if decide (secretName dest = "*") then
    let key := normalizeK8sSecretName variableID in
    if data_set data1 (k8sSecretName dest) key then data1
    else set_entry (k8sSecretName dest) key (dest_value dest secretValue) data1
  else set_entry (k8sSecretName dest) (secretName dest) (dest_value dest secretValue) data1.

Definition write_variable (dests : gmap string (list updateDestination))
    (data : secrets_data) (kv : string * bytes) : secrets_data :=
  foldl (write_dest kv.1 kv.2) data
    ((dests !!! kv.1) ++
     match dests !! "*" with Some fetch_all => fetch_all | None => [] end).

(** Wiping the keys of a fetch-all Secret that were not fetched. *)
Definition wipe_key (name : string) (data : secrets_data) (key : string) :
    outcome string secrets_data :=
  if decide (key ≠ ConjurMapKey ∧ data_set data name key = false) then
    match data !! name with
    | None => Panic
    | Some _ => Ret (set_entry name key (Some "") data)
    end
  else Ret data.

Definition sanitize_dest (sched : schedule) (originals : gmap string K8sSecret)
    (conjurSecrets : gmap string bytes) (varID : string) (data : secrets_data)
    (i_dest : nat * updateDestination) : outcome string secrets_data :=
  let dest := i_dest.2 in
  if decide (secretName dest = "*") then
    match originals !! k8sSecretName dest with
    | None => Panic
    | Some original =>
        fold_outcome (wipe_key (k8sSecretName dest)) data
          (range (loop sched i_dest.1) (nilmap (Data original))).*1
    end
  else
    match bytes_at conjurSecrets varID with
    | Some _ => Ret data
    | None => Ret (set_entry (k8sSecretName dest) (secretName dest) (Some "") data)
    end.

Definition sanitize_variable (sched : schedule) (originals : gmap string K8sSecret)
    (conjurSecrets : gmap string bytes) (data : secrets_data)
    (i_dests : nat * (string * list updateDestination)) : outcome string secrets_data :=
  fold_outcome (sanitize_dest (sub sched i_dests.1) originals conjurSecrets i_dests.2.1) data
    (imap pair i_dests.2.2).

Definition createSecretData (sched : schedule) (st : k8sSecretsState)
    (conjurSecrets : gmap string bytes) : outcome string secrets_data :=
  let secretData :=
    foldl (write_variable (updateDestinations st)) ∅ (range (loop sched 0) conjurSecrets) in
  if sanitizeEnabled C then
    fold_outcome (sanitize_variable (sub sched 2) (originalK8sSecrets st) conjurSecrets) secretData
      (imap pair (range (loop sched 1) (updateDestinations st)))
  else Ret secretData.

(** *** Group templates *)

(** [buf.Bytes()] of a buffer that nothing was written to is nil. *)
Definition buffer_bytes (content : string) : bytes :=
  if decide (content = "") then None else Some content.

(** The value of one spec, empty when Conjur did not return it. *)
Definition spec_secret (conjurSecrets : gmap string bytes) (s : SecretSpec) : Secret :=
  mkSecret (Alias s) (bytes_string (bytes_at conjurSecrets (Path s))).

Definition secrets_by_group (conjurSecrets : gmap string bytes) (groups : list SecretGroup) :
    gmap string (list Secret) :=
  foldl (λ m g, foldl (λ m' s, map_append (Name g) [spec_secret conjurSecrets s] m') m
                  (SecretSpecs g)) ∅ groups.

Definition render_group (original : K8sSecret) (k8sSecretName : string) (data : secrets_data)
    (group : string * list Secret) : secrets_data :=
  let groupTemplate := default "" (nilmap_lookup (Annotations original)
                         (SecretGroupFileTemplatePrefix +:+ group.1)) in
  match render_template (engine L) group.1 groupTemplate group.2 with
  | Content content => set_entry k8sSecretName group.1 (buffer_bytes content) data
  | _ => data
  end.

Definition populate_secret (sched : schedule) (originals : gmap string K8sSecret)
    (conjurSecrets : gmap string bytes) (data : secrets_data)
    (i_groups : nat * (string * list SecretGroup)) : secrets_data :=
  let '(i, (k8sSecretName, secretGroups)) := i_groups in
  match originals !! k8sSecretName with
  | None => data
  | Some original =>
      foldl (render_group original k8sSecretName) data
        (range (loop sched i) (secrets_by_group conjurSecrets secretGroups))
  end.

Definition populateGroupTemplateSecretData (sched : schedule) (p : K8sProvider)
    (conjurSecrets : gmap string bytes) (newSecretsDataMap : secrets_data) : secrets_data :=
  foldl (populate_secret (sub sched 1) (originalK8sSecrets (secretsState p)) conjurSecrets)
    newSecretsDataMap (imap pair (range (loop sched 0) (secretsGroups p))).

(** *** Updating the K8s Secrets *)

(** Secrets that only have keys to remove get an empty entry. A list of keys
    in [keysToRemove] is never a nil slice. *)
Definition add_cleanup_only (o : range_order) (originals : gmap string K8sSecret)
    (keysToRemove : gmap string (list string)) (data : secrets_data) : secrets_data :=
  foldl (λ d name,
    match d !! name, keysToRemove !! name with
    | None, Some _ => <[name := ∅]> d
    | _, _ => d
    end) data (range o originals).*1.

(** The deep copy of the original with the keys deleted; deleting from the
    data of a nil original dereferences it. *)
Definition delete_keys (ks : list string) (d : gmap string bytes) : gmap string bytes :=
  foldl (λ d' k, delete k d') d ks.
Definition remove_keys (keys : option (list string)) (original : option K8sSecret) :
    outcome string (option K8sSecret) :=
  match keys, original with
  | None, _ | Some [], _ => Ret original
  | Some _, None => Panic
  | Some ks, Some s => Ret (Some (set_data s (delete_keys ks <$> Data s)))
  end.

Definition update_secret (keysToRemove : gmap string (list string)) (updated : bool)
    (name : string) (data : gmap string bytes) : MP string bool :=
  p ← gets fst;
  let checksum := FileChecksum (pretty_map data) in
  if ContentHasChanged name checksum (prevSecretsChecksums p) then
    originalSecret ← lift_outcome
      (remove_keys (keysToRemove !! name) (originalK8sSecrets (secretsState p) !! name));
    _ ← on_error (call_k8s (updateSecret (k8s D) (podNamespace C) name originalSecret data))
          (λ _, throw (recordedError D CSPFK022E));
    _ ← on_provider (λ p, mkProvider (secretsState p)
          (<[name := checksum]> (prevSecretsChecksums p)) (secretsGroups p));
    mret true
  else mret updated.

Fixpoint update_secrets (keysToRemove : gmap string (list string)) (updated : bool)
    (entries : list (string * gmap string bytes)) : MP string bool :=
  match entries with
  | [] => mret updated
  | (name, data) :: entries' =>
      updated' ← update_secret keysToRemove updated name data;
      update_secrets keysToRemove updated' entries'
  end.

(** The entries to write, per Secret. *)
Definition new_secrets_data (sched : schedule) (p : K8sProvider)
    (conjurSecrets : gmap string bytes) (keysToRemove : gmap string (list string)) :
    outcome string secrets_data :=
  data ← createSecretData (sub sched 0) (secretsState p) conjurSecrets;
  let data1 := populateGroupTemplateSecretData (sub sched 1) p conjurSecrets data in
  Ret (if decide (keysToRemove = ∅) then data1
       else add_cleanup_only (loop sched 2) (originalK8sSecrets (secretsState p))
              keysToRemove data1).

Definition updateRequiredK8sSecretsWithCleanup (sched : schedule)
    (conjurSecrets : gmap string bytes) (keysToRemove : gmap string (list string)) :
    MP string bool :=
  newSecretsDataMap ← (λ s, (new_secrets_data sched s.1 conjurSecrets keysToRemove, s));
  update_secrets keysToRemove false (range (loop sched 3) newSecretsDataMap).

Definition updateRequiredK8sSecrets (sched : schedule) (conjurSecrets : gmap string bytes) :
    MP string bool :=
  updateRequiredK8sSecretsWithCleanup sched conjurSecrets ∅.

Definition removeDeletedSecrets (sched : schedule) : MP string unit :=
  variablesToDelete ← (λ s, (listConjurSecretsToFetch (sub sched 0) s.1, s));
  let emptySecrets := list_to_map ((λ v, (v, Some "")) <$> variablesToDelete) in
  _ ← updateRequiredK8sSecrets (sub sched 1) emptySecrets;
  mret tt.

(** *** Provide

    An error comes with the flag that is returned beside it. The mutex that
    [ProvideWithCleanup] holds makes its runs sequential. *)
Definition deletion_error (text : string) : bool := Contains text "403" || Contains text "404".

Definition provide_locked (sched : schedule) (keysToRemove : gmap string (list string)) :
    MP (bool * string) bool :=
  _ ← on_error (retrieveRequiredK8sSecrets (sub sched 0))
        (λ _, throw (false, recordedError D CSPFK021E));
  p ← gets fst;
  if decide (updateDestinations (secretsState p) = ∅ ∧ secretsGroups p = ∅ ∧ keysToRemove = ∅)
  then mret false
  else
    retrieved ← try (retrieveConjurSecrets (sub sched 1));
    match retrieved with
    | inl err =>
        updated ← (if deletion_error err && sanitizeEnabled C
                   then _ ← try (removeDeletedSecrets (sub sched 2)); mret true
                   else mret false);
        throw (updated, recordedError D (CSPFK034E err))
    | inr retrievedConjurSecrets =>
        on_error (updateRequiredK8sSecretsWithCleanup (sub sched 3) retrievedConjurSecrets
                    keysToRemove)
          (λ _, throw (false, recordedError D CSPFK023E))
    end.

(** The deferred function: it runs on every outcome. *)
Definition clear (p : K8sProvider) : K8sProvider :=
  mkProvider empty_state (prevSecretsChecksums p) ∅.

Definition ProvideWithCleanup (sched : schedule) (keysToRemove : gmap string (list string)) :
    MP (bool * string) bool :=
  λ s, let '(r, (p, w)) := provide_locked sched keysToRemove s in (r, (clear p, w)).

Definition Provide (sched : schedule) : MP (bool * string) bool := ProvideWithCleanup sched ∅.

(** ** Cleanup keys *)
Definition parseConjurMap (secret : option K8sSecret) : gmap string yaml_value :=
  match secret ≫= λ s, nilmap_lookup (Data s) ConjurMapKey with
  | None => ∅
  | Some raw => if decide (bytes_string raw = "") then ∅ else (yaml2 L (bytes_string raw)).1
  end.

(** The keys of the first map that the second does not have. *)
Definition missing_keys (o : range_order) (m m' : gmap string yaml_value) : list string :=
  filter (λ k, m' !! k = None) (range o m).*1.

Definition getRemovedConjurMapKeys (o : range_order) (oldSecret newSecret : option K8sSecret) :
    list string := missing_keys o (parseConjurMap oldSecret) (parseConjurMap newSecret).

Definition getAddedConjurMapKeys (o : range_order) (oldSecret newSecret : option K8sSecret) :
    list string := missing_keys o (parseConjurMap newSecret) (parseConjurMap oldSecret).

Definition removeKeys (keys keysToRemove : list string) : list string :=
  if decide (keysToRemove = []) then keys
  else filter (λ k, k ∉ (list_to_set keysToRemove : gset string)) keys.

Definition GetRemovedKeys (o : range_order) (oldSecret newSecret : option K8sSecret) :
    gmap string (list string) :=
  if negb (sanitizeEnabled C) then ∅
  else match oldSecret, newSecret with
       | Some _, Some new =>
           let removedKeys := getRemovedConjurMapKeys o oldSecret newSecret in
           if decide (removedKeys = []) then ∅ else {[secretName_ new := removedKeys]}
       | _, _ => ∅
       end.

Definition MergeReAddedKeys (o : range_order) (keysToRemoveCumulative : gmap string (list string))
    (oldSecret newSecret : option K8sSecret) : gmap string (list string) :=
  match newSecret with
  | None => keysToRemoveCumulative
  | Some new =>
      let addedKeys := getAddedConjurMapKeys o oldSecret newSecret in
      if decide (addedKeys = []) then keysToRemoveCumulative
      else match keysToRemoveCumulative !! secretName_ new with
           | Some (k :: ks) =>
               <[secretName_ new := removeKeys (k :: ks) addedKeys]> keysToRemoveCumulative
           | _ => keysToRemoveCumulative
           end
  end.
End provider.
