(* ===== verification/K8sProviderSpec.v ===== *)
(** * Lemmas on the Kubernetes Secrets provider

    The parts of a run of [K8sProvider]: the retrieval of one Secret and its
    destinations, the list of variables to fetch, the update of the cluster,
    and what a run leaves alone. *)

From S2P Require Import Prelude GoString GoBytes Config FileTemplates K8sClient K8sProvider.
Open Scope Z_scope.

(** ** Specification *)

(** No conjur-map of the state uses the fetch-all variable or the fetch-all
    key. *)
Definition no_fetch_all (st : k8sSecretsState) : Prop :=
  updateDestinations st !! "*" = None ∧
  ∀ v d, d ∈ updateDestinations st !!! v → secretName d ≠ "*".

(** A key of a Secret is fed by one variable. *)
Definition unique_dests (st : k8sSecretsState) : Prop :=
  ∀ v v' d d', d ∈ updateDestinations st !!! v → d' ∈ updateDestinations st !!! v' →
    dest_key d = dest_key d' → v = v' ∧ d = d'.

(** The value a destination gets from what Conjur returned for its variable:
    nothing at all, a nil value, or a value. *)
Definition wanted (sanitize : bool) (d : updateDestination) (v : option bytes) : option bytes :=
  match v with
  | Some (Some x) => Some (dest_value d (Some x))
  | Some None => Some (if sanitize then Some "" else dest_value d None)
  | None => if sanitize then Some (Some "") else None
  end.

(** ** Folds *)
Lemma foldl_bind {A B X} (f : B → X → B) (g : A → list X) (b : B) (l : list A) :
  foldl f b (l ≫= g) = foldl (λ b' a, foldl f b' (g a)) b l.
Proof.
  revert b. induction l as [|a l IH]; intros b; [done|].
  rewrite bind_cons, foldl_app, IH. done.
Qed.

(** A loop whose steps all return under an invariant. *)
Lemma fold_outcome_inv {E A B} (P : B → Prop) (f : B → A → outcome E B) (g : B → A → B) b l :
  P b → (∀ b' a, a ∈ l → P b' → f b' a = Ret (g b' a) ∧ P (g b' a)) →
  fold_outcome f b l = Ret (foldl g b l) ∧ P (foldl g b l).
Proof.
  revert b. induction l as [|a l IH]; intros b Hb Hf; [done|].
  destruct (Hf b a) as [Hr Hp]; [by left|done|].
  cbn [fold_outcome foldl]. rewrite Hr. cbn. apply IH; [done|].
  intros b' a' Ha'. apply Hf. by right.
Qed.

Lemma fold_outcome_ret {E A B} (f : B → A → outcome E B) (g : B → A → B) (b : B) (l : list A) :
  (∀ b' a, a ∈ l → f b' a = Ret (g b' a)) → fold_outcome f b l = Ret (foldl g b l).
Proof. intros Hf. by apply (fold_outcome_inv (λ _, True)); [|auto]. Qed.

(** What a fold does to a part of the accumulator that each step changes on its
    own. *)
Lemma foldl_obs {A B O} (f : B → A → B) (obs : B → O) (g : O → A → O) b l :
  (∀ b' a, a ∈ l → obs (f b' a) = g (obs b') a) → obs (foldl f b l) = foldl g (obs b) l.
Proof.
  revert b. induction l as [|a l IH]; intros b Hf; [done|]. cbn [foldl].
  rewrite IH by (intros b' a' Ha'; apply Hf; by right). by rewrite Hf by by left.
Qed.

Lemma set_entry_made n k v (data : secrets_data) :
  set_entry n k v (<[n := data !!! n]> data) = set_entry n k v data.
Proof. unfold set_entry. by rewrite lookup_total_insert_eq, insert_insert_eq. Qed.

(** ** Updating the cluster *)

(** The original with the keys to remove deleted from its data. *)
Definition without_keys (keys : option (list string)) (s : K8sSecret) : K8sSecret :=
  match keys with
  | None | Some [] => s
  | Some ks => set_data s (delete_keys ks <$> Data s)
  end.

(** What an update stores. *)
Definition written (keys : option (list string)) (s : K8sSecret) (m : gmap string bytes) :
    K8sSecret :=
  set_data s (Some (overlay m (Data (without_keys keys s)))).

Definition entry_changed (prev : gmap string Checksum) (nm : string * gmap string bytes) : bool :=
  ContentHasChanged nm.1 (FileChecksum (pretty_map nm.2)) prev.

Definition names_ok (st : k8sSecretsState) : Prop :=
  ∀ n s, originalK8sSecrets st !! n = Some s → secretName_ s = n.

Lemma remove_keys_Some keys s : remove_keys keys (Some s) = Ret (Some (without_keys keys s)).
Proof. by destruct keys as [[|k ks]|]. Qed.

Lemma remove_keys_None keys : remove_keys keys None = Panic ∨ remove_keys keys None = Ret None.
Proof. destruct keys as [[|k ks]|]; auto. Qed.

Lemma secretName_without_keys keys s : secretName_ (without_keys keys s) = secretName_ s.
Proof. by destruct keys as [[|k ks]|]. Qed.

Lemma set_data_without_keys keys s d : set_data (without_keys keys s) d = set_data s d.
Proof. by destruct keys as [[|k ks]|]. Qed.

Section update.
Context {W : Type} (D : k8sProviderDeps W) `{!K8sAccess (k8s D)} (C : provider_config).
Implicit Types (p : K8sProvider) (w : W).

Definition with_checksum (nm : string * gmap string bytes) p : K8sProvider :=
  mkProvider (secretsState p)
    (<[nm.1 := FileChecksum (pretty_map nm.2)]> (prevSecretsChecksums p)) (secretsGroups p).

Lemma update_secret_run keys u n m p w :
  update_secret D C keys u n m (p, w) =
  if entry_changed (prevSecretsChecksums p) (n, m) then
    match remove_keys (keys !! n) (originalK8sSecrets (secretsState p) !! n) with
    | Ret o =>
        match updateSecret (k8s D) (podNamespace C) n o m w with
        | (Ret _, w') => (Ret true, (with_checksum (n, m) p, w'))
        | (Fail _, w') => (Fail (recordedError D CSPFK022E), (p, w'))
        | (Panic, w') => (Panic, (p, w'))
        end
    | Fail e => (Fail e, (p, w))
    | Panic => (Panic, (p, w))
    end
  else (Ret u, (p, w)).
Proof.
  unfold update_secret, entry_changed, gets. unfold mbind at 1, M_bind at 1. cbn [fst snd].
  destruct (ContentHasChanged _ _ _); [|done].
  unfold mbind at 1, M_bind at 1, lift_outcome. destruct (remove_keys _ _) as [o|e|]; [|done..].
  unfold mbind, M_bind, on_error, call_k8s. cbn [fst snd].
  by destruct (updateSecret _ _ _ _ _ w) as [[[]|e|] w'].
Qed.

(** Every Secret of the cluster is as it was, or is a Secret of the state with
    some entries written over it. *)
Definition framed (st : k8sSecretsState) (keys : gmap string (list string)) w0 w : Prop :=
  ∀ ns n, cluster w ns n = cluster w0 ns n ∨
    ns = podNamespace C ∧ ∃ s m, originalK8sSecrets st !! n = Some s ∧
      cluster w ns n = Some (written (keys !! n) s m).

Lemma update_secret_framed keys u n m p w w0 :
  names_ok (secretsState p) → ready w → framed (secretsState p) keys w0 w →
  wp (update_secret D C keys u n m) (λ _ s,
    secretsState s.1 = secretsState p ∧ secretsGroups s.1 = secretsGroups p ∧
    ready s.2 ∧ framed (secretsState p) keys w0 s.2) (p, w).
Proof.
  intros Hn Hr Hf. unfold wp. rewrite update_secret_run.
  destruct (entry_changed _ _); [|done].
  destruct (originalK8sSecrets (secretsState p) !! n) as [s|] eqn:Hs.
  - rewrite remove_keys_Some.
    pose proof (update_ready (podNamespace C) n (without_keys (keys !! n) s) m w Hr) as [Hnp Hr'].
    destruct (updateSecret _ _ _ _ _ w) as [[[]|e|] w'] eqn:Hu; cbn in *; [| |done].
    + do 3 (split; [done|]). intros ns n'. rewrite (update_ok _ _ _ _ _ _ Hu).
      rewrite secretName_without_keys, (Hn _ _ Hs), set_data_without_keys.
      destruct (decide (ns = podNamespace C ∧ n' = n)) as [[-> ->]|]; [|apply Hf].
      right. split; [done|]. exists s, m. done.
    + do 3 (split; [done|]). intros ns n'. rewrite (update_fail _ _ _ _ _ _ _ Hu). apply Hf.
  - destruct (remove_keys_None (keys !! n)) as [-> | ->]; [done|].
    by rewrite update_nil.
Qed.

Lemma update_secrets_framed keys entries u p w w0 :
  names_ok (secretsState p) → ready w → framed (secretsState p) keys w0 w →
  wp (update_secrets D C keys u entries) (λ _ s,
    secretsState s.1 = secretsState p ∧ secretsGroups s.1 = secretsGroups p ∧
    ready s.2 ∧ framed (secretsState p) keys w0 s.2) (p, w).
Proof.
  revert u p w. induction entries as [|[n m] entries IH]; intros u p w Hn Hr Hf; [done|].
  cbn [update_secrets]. apply wp_bind.
  eapply wp_mono; [by apply (update_secret_framed keys u n m p w w0)|].
  intros [u'|e|] [p' w'] (Hst & Hg & Hr' & Hf'); cbn in *; [|by rewrite Hst|by rewrite Hst].
  eapply wp_mono; [apply IH; by rewrite ?Hst|]. cbn. intros r s. by rewrite Hst, Hg.
Qed.

(** What a run of updates that reports no error has done. *)
Definition updates_done (keys : gmap string (list string)) p entries w (u u' : bool) p' w' : Prop :=
  secretsState p' = secretsState p ∧
  u' = u || existsb (entry_changed (prevSecretsChecksums p)) entries ∧
  (∀ n m s, (n, m) ∈ entries → originalK8sSecrets (secretsState p) !! n = Some s →
     entry_changed (prevSecretsChecksums p) (n, m) = true →
     cluster w' (podNamespace C) n = Some (written (keys !! n) s m)) ∧
  (∀ ns n, (ns = podNamespace C → ∀ m, (n, m) ∈ entries →
              entry_changed (prevSecretsChecksums p) (n, m) = false) →
     cluster w' ns n = cluster w ns n).

Lemma entry_changed_other nm n m prev c :
  nm ≠ n → entry_changed (<[nm := c]> prev) (n, m) = entry_changed prev (n, m).
Proof. intros Hn. unfold entry_changed, ContentHasChanged. cbn. by rewrite lookup_insert_ne. Qed.

Lemma update_secret_done keys u n m p w s :
  ready w → names_ok (secretsState p) → originalK8sSecrets (secretsState p) !! n = Some s →
  wp (update_secret D C keys u n m) (λ r t,
    r ≠ Panic ∧ ready t.2 ∧ ∀ u', r = Ret u' →
      t.1 = (if entry_changed (prevSecretsChecksums p) (n, m) then with_checksum (n, m) p else p) ∧
      u' = u || entry_changed (prevSecretsChecksums p) (n, m) ∧
      (∀ ns n', cluster t.2 ns n' =
         if decide (ns = podNamespace C ∧ n' = n ∧ entry_changed (prevSecretsChecksums p) (n, m) = true)
         then Some (written (keys !! n) s m) else cluster w ns n')) (p, w).
Proof.
  intros Hr Hn Hs. unfold wp. rewrite update_secret_run, Hs, remove_keys_Some.
  destruct (entry_changed _ _).
  - pose proof (update_ready (podNamespace C) n (without_keys (keys !! n) s) m w Hr) as [Hnp Hr'].
    destruct (updateSecret _ _ _ _ _ w) as [[[]|e|] w'] eqn:Hu; cbn in *; [| |done].
    + do 2 (split; [done|]). intros u' [= <-]. split; [done|]. split; [by rewrite orb_true_r|].
      intros ns n'. rewrite (update_ok _ _ _ _ _ _ Hu).
      rewrite secretName_without_keys, (Hn _ _ Hs), set_data_without_keys.
      apply decide_ext. naive_solver.
    + by do 2 (split; [done|]).
  - cbn. split; [done|]. split; [done|]. intros u' [= <-]. split; [done|].
    split; [by rewrite orb_false_r|]. intros ns n'. by rewrite decide_False by naive_solver.
Qed.

Lemma update_secrets_done keys entries u p w :
  NoDup entries.*1 → names_ok (secretsState p) → ready w →
  (∀ n m, (n, m) ∈ entries → is_Some (originalK8sSecrets (secretsState p) !! n)) →
  wp (update_secrets D C keys u entries) (λ r t,
    r ≠ Panic ∧ ∀ u', r = Ret u' → updates_done keys p entries w u u' t.1 t.2) (p, w).
Proof.
  revert u p w. induction entries as [|[n m] entries IH]; intros u p w Hnd Hn Hr Ho.
  { split; [done|]. intros u' [= <-]. split; [done|]. cbn. split; [by rewrite orb_false_r|].
    split; [|done]. by intros ? ? ? ?%not_elem_of_nil. }
  apply NoDup_cons in Hnd as [Hni Hnd]. cbn [update_secrets].
  destruct (Ho n m) as [s Hs]; [by left|]. apply wp_bind.
  eapply wp_mono; [by apply (update_secret_done keys u n m p w s)|].
  intros [u1|e|] [p1 w1] (Hnp & Hr1 & Hd); [|by split|done].
  destruct (Hd u1 eq_refl) as (Hp1 & -> & Hc). clear Hd. cbn [fst snd] in *.
  assert (secretsState p1 = secretsState p) as Hst by by subst p1; destruct (entry_changed _ _).
  assert (∀ n' m', (n', m') ∈ entries →
    entry_changed (prevSecretsChecksums p1) (n', m') =
    entry_changed (prevSecretsChecksums p) (n', m')) as Hch.
  { intros n' m' Hin. subst p1. destruct (entry_changed _ _); [|done]. apply entry_changed_other.
    intros Heq. cbn in Heq. subst n'. apply Hni, list_elem_of_fmap. by exists (n, m'). }
  assert (existsb (entry_changed (prevSecretsChecksums p1)) entries =
          existsb (entry_changed (prevSecretsChecksums p)) entries) as Hex.
  { clear -Hch. induction entries as [|[n' m'] l IH]; [done|]. cbn [existsb].
    rewrite Hch by by left. rewrite IH; [done|]. intros. apply Hch. by right. }
  eapply wp_mono; [apply IH; rewrite ?Hst; try done|].
  { intros n' m' ?. eapply Ho. by right. }
  intros r [p' w'] (Hnp' & Hdone). split; [done|]. intros u' Hu'.
  destruct (Hdone u' Hu') as (Hst' & -> & Hw & Hf). clear Hdone.
  split; [by rewrite Hst', Hst|]. cbn [existsb fst snd] in *.
  split; [by rewrite Hex, orb_assoc|]. split.
  - intros n' m' s' [[= -> ->]|Hin]%elem_of_cons Hs' Hch'.
    + rewrite Hf, Hc, decide_True by (try done; intros _ m' Hin; exfalso; apply Hni;
        apply list_elem_of_fmap; by exists (n, m')).
      by simplify_eq.
    + apply (Hw n' m'); [done|by rewrite Hst|by rewrite Hch].
  - intros ns n' Hno. rewrite Hf, Hc.
    + rewrite decide_False; [done|]. intros (-> & -> & Ht).
      rewrite (Hno eq_refl m) in Ht; [done|by left].
    + intros -> m' Hin. rewrite Hch by done. apply Hno; [done|by right].
Qed.

(** What a run of updates that stops at an error has done: every Secret is as
    it was or has been written, and the call that stopped it has failed. *)
Definition updates_interrupted (keys : gmap string (list string)) p
    (entries : list (string * gmap string bytes)) w w' : Prop :=
  (∀ ns n, cluster w' ns n = cluster w ns n ∨
     ns = podNamespace C ∧ ∃ m s, (n, m) ∈ entries ∧
       originalK8sSecrets (secretsState p) !! n = Some s ∧
       cluster w' ns n = Some (written (keys !! n) s m)) ∧
  ∃ n m s w1 w2 e, (n, m) ∈ entries ∧ originalK8sSecrets (secretsState p) !! n = Some s ∧ ready w1 ∧
    updateSecret (k8s D) (podNamespace C) n (Some (without_keys (keys !! n) s)) m w1 = (Fail e, w2).

Lemma update_secret_fails keys u n m p w s e t :
  originalK8sSecrets (secretsState p) !! n = Some s → update_secret D C keys u n m (p, w) = (Fail e, t) →
  (∀ ns n', cluster t.2 ns n' = cluster w ns n') ∧
  ∃ w2 e', updateSecret (k8s D) (podNamespace C) n (Some (without_keys (keys !! n) s)) m w = (Fail e', w2).
Proof.
  intros Hs. rewrite update_secret_run, Hs, remove_keys_Some. destruct (entry_changed _ _); [|done].
  destruct (updateSecret _ _ _ _ _ w) as [[[]|e'|] w'] eqn:Hu; [done| |done].
  intros [= _ <-]. split; [intros ns n'; by eapply update_fail|by exists w', e'].
Qed.

Lemma updates_interrupted_cons keys p1 p nm entries w w1 w' :
  secretsState p1 = secretsState p →
  (∀ ns n, cluster w1 ns n = cluster w ns n ∨
     ns = podNamespace C ∧ n = nm.1 ∧ ∃ s, originalK8sSecrets (secretsState p) !! n = Some s ∧
       cluster w1 ns n = Some (written (keys !! n) s nm.2)) →
  updates_interrupted keys p1 entries w1 w' → updates_interrupted keys p (nm :: entries) w w'.
Proof.
  intros Hst Hw1 [Hc (n & m & s & wa & wb & e & Hin & Ho & Hu)]. rewrite Hst in Ho. split.
  - intros ns n'. destruct (Hc ns n') as [->|(-> & m' & s' & Hin' & Ho' & Hw)].
    + destruct (Hw1 ns n') as [|(-> & -> & s' & Ho' & Hw)]; [by left|right].
      split; [done|]. exists nm.2, s'. split_and!; [|done..].
        rewrite <- surjective_pairing. by left.
    + right. rewrite Hst in Ho'. split; [done|]. exists m', s'. split_and!; [by right|done..].
  - exists n, m, s, wa, wb, e. split; [by right|done].
Qed.

Lemma update_secrets_interrupted keys entries u p w :
  names_ok (secretsState p) → ready w →
  (∀ n m, (n, m) ∈ entries → is_Some (originalK8sSecrets (secretsState p) !! n)) →
  wp (update_secrets D C keys u entries) (λ r t, ∀ e, r = Fail e →
    updates_interrupted keys p entries w t.2) (p, w).
Proof.
  revert u p w. induction entries as [|[n m] entries IH]; intros u p w Hn Hr Ho; [done|].
  cbn [update_secrets]. destruct (Ho n m) as [s Hs]; [by left|]. apply wp_bind. unfold wp at 1.
  pose proof (update_secret_done keys u n m p w s Hr Hn Hs) as Hd. unfold wp in Hd.
  destruct (update_secret D C keys u n m (p, w)) as [[u1|e|] [p1 w1]] eqn:Hu; [| |done].
  - destruct Hd as (_ & Hr1 & Hd). destruct (Hd u1 eq_refl) as (Hp1 & _ & Hc). cbn [fst snd] in *.
    assert (secretsState p1 = secretsState p) as Hst by by subst p1; destruct (entry_changed _ _).
    eapply wp_mono; [apply IH; rewrite ?Hst; [done|done|intros n' m' ?; eapply Ho; by right]|].
    intros r t Hint e He. eapply (updates_interrupted_cons _ p1); [done| |by apply (Hint e)].
    intros ns n'. rewrite Hc.
    destruct (decide (ns = podNamespace C ∧ _)) as [(-> & -> & _)|]; [right|by left].
    split; [done|]. split; [done|]. by exists s.
  - destruct (update_secret_fails _ _ _ _ _ _ _ _ _ Hs Hu) as [Hc (w2 & e' & Hf)].
    intros e'' _. split; [intros ns n'; left; apply Hc|].
    exists n, m, s, w, w2, e'. split; [by left|done].
Qed.
End update.

(** ** The destination index *)

(** The fast index holds the keys of the listed destinations. *)
Definition index_ok (st : k8sSecretsState) : Prop :=
  ∀ v k, k ∈ updateDestinationLookup st !!! v ↔ ∃ d, d ∈ updateDestinations st !!! v ∧ dest_key d = k.

Lemma appendDestination_spec v d st :
  index_ok st →
  index_ok (appendDestination v d st) ∧
  originalK8sSecrets (appendDestination v d st) = originalK8sSecrets st ∧
  ∀ v' d', d' ∈ updateDestinations (appendDestination v d st) !!! v' ↔
    d' ∈ updateDestinations st !!! v' ∨
    (v' = v ∧ d' = d ∧ ∀ d0, d0 ∈ updateDestinations st !!! v → dest_key d0 ≠ dest_key d).
Proof.
  unfold index_ok at 1. intros Hix. unfold appendDestination. cbv zeta.
  set (lookup1 := match updateDestinationLookup st !! v with
                  | Some _ => _ | None => _ end).
  assert (∀ v', lookup1 !!! v' = updateDestinationLookup st !!! v') as Hl.
  { intros v'. subst lookup1. destruct (_ !! v) eqn:Hv; [done|].
    destruct (decide (v' = v)) as [->|Hne].
    - rewrite lookup_total_insert_eq. by rewrite lookup_total_default, Hv.
    - by rewrite lookup_total_insert_ne. }
  rewrite Hl. destruct (decide (dest_key d ∈ _)) as [Hin|Hni]; cbn.
  - split; [intros v' k; cbn; rewrite Hl; apply Hix|]. split; [done|].
    apply Hix in Hin as (d0 & Hd0 & Hk0). intros v' d'. split; [by left|].
    intros [?|(-> & -> & Hno)]; [done|]. by destruct (Hno d0).
  - assert (∀ v' d', d' ∈ map_append v [d] (updateDestinations st) !!! v' ↔
              d' ∈ updateDestinations st !!! v' ∨ (v' = v ∧ d' = d)) as Hm.
    { intros v' d'. rewrite lookup_total_map_append. destruct (decide (v = v')) as [->|].
      - rewrite elem_of_app, list_elem_of_singleton. naive_solver.
      - naive_solver. }
    split; [|split; [done|]].
    + intros v' k. cbn. setoid_rewrite Hm. destruct (decide (v' = v)) as [->|Hne].
      * rewrite lookup_total_insert_eq, elem_of_union, elem_of_singleton, Hix. naive_solver.
      * rewrite lookup_total_insert_ne by done. rewrite Hl, Hix. naive_solver.
    + intros v' d'. rewrite Hm. split; [|naive_solver].
      intros [?|[-> ->]]; [by left|]. right. do 2 (split; [done|]). intros d0 Hd0 Hk.
      apply Hni, Hix. by exists d0.
Qed.

Definition no_empty_dests (st : k8sSecretsState) : Prop :=
  ∀ v, updateDestinations st !! v ≠ Some [].

Lemma appendDestination_nonempty v d st :
  no_empty_dests st → no_empty_dests (appendDestination v d st).
Proof.
  intros He. unfold appendDestination. cbv zeta. destruct (decide _); [done|].
  intros v'. cbn. unfold map_append. destruct (decide (v' = v)) as [->|Hne].
  - rewrite lookup_insert_eq. by destruct (updateDestinations st !!! v).
  - by rewrite lookup_insert_ne.
Qed.

(** ** Retrieval *)

(** The conjur-map of a Secret: empty when it is missing, empty or not YAML. *)
Definition conjur_map (L : libraries) (s : K8sSecret) : gmap string yaml_value :=
  match nilmap_lookup (Data s) ConjurMapKey with
  | None => ∅
  | Some raw =>
      if decide (bytes_string raw = "") then ∅
      else let '(m, ok) := yaml2 L (bytes_string raw) in if ok then m else ∅
  end.

(** [v] feeds the destination [d] according to the conjur-map of [s]. *)
Definition feeds (L : libraries) (s : K8sSecret) (v : string) (d : updateDestination) : Prop :=
  k8sSecretName d = secretName_ s ∧
  ∃ c, conjur_map L s !! secretName d = Some c ∧
       parse_entry (secretName_ s) (secretName d) c = inr (v, d).

Lemma parse_entry_key n k c v d : parse_entry n k c = inr (v, d) → dest_key d = (n, k).
Proof.
  destruct c as [x|m|]; cbn; [by intros [= <- <-]| |done].
  destruct (mjoin (m !! "id")) as [i|]; [|done]. destruct (decide (i = "")); [done|].
  by intros [= <- <-].
Qed.

Lemma feeds_unique L s v v' d d' :
  feeds L s v d → feeds L s v' d' → dest_key d = dest_key d' → v = v' ∧ d = d'.
Proof.
  intros [_ (c & Hc & Hp)] [_ (c' & Hc' & Hp')] [= Hn Hk].
  rewrite <- Hk in *. simplify_eq. rewrite Hp in Hp'. by simplify_eq.
Qed.

Section retrieval.
Context {W : Type} (L : libraries) (D : k8sProviderDeps W) `{!K8sAccess (k8s D)}.
Context (C : provider_config) (w0 : W).

(** The Secrets [ss] have been processed completely. *)
Record retrieved (ss : list K8sSecret) (st : k8sSecretsState) : Prop := {
  retr_cluster s : s ∈ ss → cluster w0 (podNamespace C) (secretName_ s) = Some s;
  retr_originals n s : originalK8sSecrets st !! n = Some s ↔ s ∈ ss ∧ secretName_ s = n;
  retr_index : index_ok st;
  retr_nonempty : no_empty_dests st;
  retr_dests v d : d ∈ updateDestinations st !!! v ↔ ∃ s, s ∈ ss ∧ feeds L s v d
}.

Lemma retrieved_empty : retrieved [] empty_state.
Proof.
  split.
  - by intros s ?%not_elem_of_nil.
  - intros n s. cbn. rewrite lookup_empty. split; [done|]. by intros [?%not_elem_of_nil _].
  - intros v k. cbn. rewrite !lookup_total_empty. split; [by intros ?%not_elem_of_empty|].
    by intros (d & ?%not_elem_of_nil & _).
  - done.
  - intros v d. cbn. rewrite lookup_total_empty. split; [by intros ?%not_elem_of_nil|].
    by intros (s & ?%not_elem_of_nil & _).
Qed.

Lemma retrieved_same_name ss st s s' :
  retrieved ss st → s ∈ ss → s' ∈ ss → secretName_ s = secretName_ s' → s = s'.
Proof.
  intros Hr Hs Hs' Hn. apply (retr_cluster _ _ Hr) in Hs, Hs'. rewrite Hn in Hs. congruence.
Qed.

Lemma retrieved_unique ss st : retrieved ss st → unique_dests st.
Proof.
  intros Hr v v' d d' Hd Hd' Hk.
  apply (retr_dests _ _ Hr) in Hd as (s & Hs & Hf). apply (retr_dests _ _ Hr) in Hd' as (s' & Hs' & Hf').
  assert (s = s') as ->; [|by eapply feeds_unique].
  eapply retrieved_same_name; try done. destruct Hf as [<- _], Hf' as [<- _]. by injection Hk.
Qed.

Lemma retrieved_names ss st : retrieved ss st → names_ok st.
Proof. intros Hr n s Hs. by apply (retr_originals _ _ Hr) in Hs as [_ ?]. Qed.

(** The entries [done] of the conjur-map of [s] have been processed, and the
    Secrets [ss] completely. *)
Record in_progress (ss : list K8sSecret) (s : K8sSecret) (done : list (string * yaml_value))
    (st : k8sSecretsState) : Prop := {
  prog_cluster s' : s' ∈ ss ++ [s] → cluster w0 (podNamespace C) (secretName_ s') = Some s';
  prog_originals n s' : originalK8sSecrets st !! n = Some s' ↔ s' ∈ ss ++ [s] ∧ secretName_ s' = n;
  prog_index : index_ok st;
  prog_nonempty : no_empty_dests st;
  prog_entries k c : (k, c) ∈ done → conjur_map L s !! k = Some c;
  prog_dests v d : d ∈ updateDestinations st !!! v ↔
    (∃ s', s' ∈ ss ∧ feeds L s' v d) ∨
    (∃ k c, (k, c) ∈ done ∧ parse_entry (secretName_ s) k c = inr (v, d))
}.

Lemma in_progress_feeds ss s done st v d :
  in_progress ss s done st → d ∈ updateDestinations st !!! v →
  ∃ s', s' ∈ ss ++ [s] ∧ feeds L s' v d.
Proof.
  intros Hp Hd. apply (prog_dests _ _ _ _ Hp) in Hd as [(s' & Hs' & Hf)|(k & c & Hin & Hpe)].
  - exists s'. split; [|done]. apply elem_of_app. by left.
  - exists s. split; [apply elem_of_app; right; by left|].
    pose proof (parse_entry_key _ _ _ _ _ Hpe) as [= Hn Hk]. subst k.
    split; [done|]. exists c. split; [|done]. by apply (prog_entries _ _ _ _ Hp).
Qed.

Lemma in_progress_unique ss s done st v v' d s' d' :
  in_progress ss s done st → d ∈ updateDestinations st !!! v →
  s' ∈ ss ++ [s] → feeds L s' v' d' → dest_key d = dest_key d' → v = v' ∧ d = d'.
Proof.
  intros Hp Hd Hs' Hf' Hk. destruct (in_progress_feeds _ _ _ _ _ _ Hp Hd) as (s1 & Hs1 & Hf).
  assert (s1 = s') as ->; [|by eapply feeds_unique].
  apply (prog_cluster _ _ _ _ Hp) in Hs1, Hs'. destruct Hf as [Hn _], Hf' as [Hn' _].
  injection Hk as Hk _. rewrite <- Hn, Hk, Hn' in Hs1. congruence.
Qed.

Lemma in_progress_record ss s st :
  retrieved ss st → cluster w0 (podNamespace C) (secretName_ s) = Some s →
  in_progress ss s [] (record_original s st).
Proof.
  intros Hr Hs.
  assert (∀ s', s' ∈ ss ++ [s] → cluster w0 (podNamespace C) (secretName_ s') = Some s') as Hc.
  { intros s' [Hin| Heq%list_elem_of_singleton]%elem_of_app; [|by subst].
    by apply (retr_cluster _ _ Hr). }
  split; [done| |apply (retr_index _ _ Hr)|apply (retr_nonempty _ _ Hr)|by intros ? ? ?%not_elem_of_nil|].
  - intros n s'. cbn. rewrite lookup_insert_Some, (retr_originals _ _ Hr), elem_of_app,
      list_elem_of_singleton. split.
    + intros [[Hn Hs']|(Hne & Hin & Hn)]; subst; [by split; [right|]|by split; [left|]].
    + intros [[Hin|Heq] Hn]; [|by subst; left]. subst n. destruct (decide (secretName_ s = secretName_ s')) as [Heq|];
        [|by right]. left. split; [done|].
      assert (Some s = Some s') as [=]; [|done].
      rewrite <- Hs, Heq. apply Hc, elem_of_app. by left.
  - intros v d. cbn. rewrite (retr_dests _ _ Hr). split; [by left|].
    intros [?|(? & ? & ?%not_elem_of_nil & _)]; done.
Qed.

Lemma in_progress_step ss s done st k c v d :
  in_progress ss s done st → conjur_map L s !! k = Some c →
  parse_entry (secretName_ s) k c = inr (v, d) →
  in_progress ss s (done ++ [(k, c)]) (appendDestination v d st).
Proof.
  intros Hp Hc Hpe. pose proof (parse_entry_key _ _ _ _ _ Hpe) as Hk.
  destruct (appendDestination_spec v d st) as (Hix & Ho & Hd); [apply (prog_index _ _ _ _ Hp)|].
  split; [apply (prog_cluster _ _ _ _ Hp)|rewrite Ho; apply (prog_originals _ _ _ _ Hp)|done
        |by apply appendDestination_nonempty, (prog_nonempty _ _ _ _ Hp)| |].
  - intros k' c' [Hin|[= -> ->]%list_elem_of_singleton]%elem_of_app; [|done].
    by apply (prog_entries _ _ _ _ Hp).
  - assert (d ∈ updateDestinations st !!! v ∨
            ∀ d0, d0 ∈ updateDestinations st !!! v → dest_key d0 ≠ dest_key d) as Hnew.
    { destruct (decide (d ∈ updateDestinations st !!! v)) as [|Hni]; [by left|right].
      intros d0 Hd0 Hkk. apply Hni.
      destruct (in_progress_unique _ _ _ _ v v d0 s d Hp Hd0) as [_ <-]; try done.
      - apply elem_of_app. right. by left.
      - injection Hk as Hn1 Hn2. split; [done|]. exists c. by rewrite Hn2. }
    intros v' d'. rewrite Hd, (prog_dests _ _ _ _ Hp). setoid_rewrite elem_of_app.
    setoid_rewrite list_elem_of_singleton. split.
    + intros [[?|(k' & c' & Hin & Hpe')]|(-> & -> & _)]; [by left| |].
      * right. exists k', c'. by split; [left|].
      * right. exists k, c. by split; [right|].
    + intros [?|(k' & c' & [Hin|[= -> ->]] & Hpe')]; [by left; left|left; right; by eauto|].
      rewrite Hpe in Hpe'. injection Hpe' as <- <-. destruct Hnew as [Hin|Hnew]; [|by right].
      left. by apply (prog_dests _ _ _ _ Hp).
Qed.

Lemma in_progress_done ss s done st :
  in_progress ss s done st → (∀ k c, conjur_map L s !! k = Some c → (k, c) ∈ done) →
  retrieved (ss ++ [s]) st.
Proof.
  intros Hp Hall.
  split; [apply (prog_cluster _ _ _ _ Hp)|apply (prog_originals _ _ _ _ Hp)
         |apply (prog_index _ _ _ _ Hp)|apply (prog_nonempty _ _ _ _ Hp)|].
  intros v d. split; [by apply (in_progress_feeds ss s done)|].
  rewrite (prog_dests _ _ _ _ Hp). intros (s' & [Hin|Heq]%elem_of_app & Hf); [left; by exists s'|].
  apply list_elem_of_singleton in Heq as ->. destruct Hf as [Hn (c & Hc & Hpe)].
  right. exists (secretName d), c. split; [by apply Hall|done].
Qed.

(** *** The handlers *)
Definition state_of (t : K8sProvider * W) : k8sSecretsState := secretsState t.1.

Lemma refresh_entry_run n k c p w :
  refresh_entry (W := W) D n (k, c) (p, w) =
  match parse_entry n k c with
  | inl e => (Fail (recordedError D e), (p, w))
  | inr (v, d) => (Ret tt, (set_state p (appendDestination v d (secretsState p)), w))
  end.
Proof. unfold refresh_entry. cbn [fst snd]. by destruct (parse_entry n k c) as [e|[v d]]. Qed.

Lemma appendDestination_originals v d st :
  originalK8sSecrets (appendDestination v d st) = originalK8sSecrets st.
Proof. unfold appendDestination. cbv zeta. by destruct (decide _). Qed.

(** What the handlers of the conjur-map leave alone. *)
Definition keeps p w (t : K8sProvider * W) : Prop :=
  t.2 = w ∧ originalK8sSecrets (state_of t) = originalK8sSecrets (secretsState p) ∧
  secretsGroups t.1 = secretsGroups p ∧ prevSecretsChecksums t.1 = prevSecretsChecksums p.

Lemma refresh_keeps o m n p w :
  wp (refreshUpdateDestinations D o m n) (λ r t, keeps p w t ∧ r ≠ Panic) (p, w).
Proof.
  apply (wp_for_each (λ _ t, keeps p w t)); [done| |done].
  intros pre [k c] [p' w'] _ (Hw & Ho & Hg & Hpr). unfold wp. rewrite refresh_entry_run.
  destruct (parse_entry n k c) as [e|[v d]]; [by split_and!|].
  split; [done|]. cbn. split; [|done]. unfold state_of. cbn.
  by rewrite appendDestination_originals.
Qed.

Lemma refresh_retrieved ss s o p w :
  in_progress ss s [] (secretsState p) →
  wp (refreshUpdateDestinations D o (conjur_map L s) (secretName_ s))
    (λ r t, r = Ret tt → retrieved (ss ++ [s]) (state_of t)) (p, w).
Proof.
  intros Hp.
  apply (wp_for_each (λ pre t, in_progress ss s pre (state_of t))); [done| |].
  - intros pre [k c] [p' w'] Hin%elem_of_range Hpre. unfold wp. rewrite refresh_entry_run.
    destruct (parse_entry (secretName_ s) k c) as [e|[v d]] eqn:Hpe; [done|].
    by eapply in_progress_step.
  - intros t Ht _. eapply in_progress_done; [done|]. intros k c Hk. by apply elem_of_range.
Qed.

Lemma parse_keeps o s p w :
  wp (parseConjurSecretsYAML L D o s) (λ r t, keeps p w t ∧ r ≠ Panic) (p, w).
Proof.
  unfold parseConjurSecretsYAML. destruct (nilmap_lookup _ _) as [raw|]; [|done].
  destruct (decide _); [done|]. destruct (yaml2 L _) as [m ok]. destruct ok; cbn [negb].
  - destruct (decide _); [done|]. apply wp_bind. eapply wp_mono; [apply refresh_keeps|].
    by intros [[]|e|] t [Hk Hnp].
  - apply wp_bind. unfold wp, gets. cbn [fst snd]. by destruct (decide _).
Qed.

Lemma parse_retrieved ss s o p w :
  in_progress ss s [] (secretsState p) →
  wp (parseConjurSecretsYAML L D o s)
    (λ r t, ∀ b, r = Ret b → retrieved (ss ++ [s]) (state_of t)) (p, w).
Proof.
  intros Hp.
  assert (conjur_map L s = ∅ → retrieved (ss ++ [s]) (secretsState p)) as Hempty.
  { intros Hm. eapply in_progress_done; [done|]. intros k c. by rewrite Hm, lookup_empty. }
  pose proof (refresh_retrieved ss s o p w Hp) as Href.
  unfold parseConjurSecretsYAML. unfold conjur_map in Hempty, Href.
  destruct (nilmap_lookup _ _) as [raw|]; [|intros b _; by apply Hempty].
  destruct (decide (bytes_string raw = "")); [intros b _; by apply Hempty|].
  destruct (yaml2 L _) as [m ok]. destruct ok; cbn [negb].
  - destruct (decide (m = ∅)); [intros b _; by apply Hempty|].
    apply wp_bind. eapply wp_mono; [apply Href|].
    intros [[]|e|] t Hr; [|done|done]. intros b _. by apply Hr.
  - apply wp_bind. unfold wp, gets. cbn [fst snd]. destruct (decide _); [done|].
    intros b _. by apply Hempty.
Qed.

Lemma collect_groups_no_panic sched i annots l : collect_groups L sched i annots l ≠ Panic.
Proof.
  revert i. induction l as [|[k v] l IH]; intros i; [done|]. cbn [collect_groups].
  destruct (HasPrefix _ _); [|apply IH]. destruct (annots !! _); [|apply IH].
  destruct (NewSecretSpecs _ _ _) as [e|[|x xs]]; [done|done|].
  specialize (IH (S i)). by destruct (collect_groups L sched (S i) annots l).
Qed.

Lemma process_groups_keeps sched s p w :
  wp (processSecretGroupAnnotations (W := W) L sched s) (λ r t,
    t.2 = w ∧ secretsState t.1 = secretsState p ∧
    prevSecretsChecksums t.1 = prevSecretsChecksums p ∧ r ≠ Panic) (p, w).
Proof.
  unfold processSecretGroupAnnotations. apply wp_bind. unfold wp, lift_outcome. cbn [fst snd].
  pose proof (collect_groups_no_panic (sub sched 1) 0 (nilmap (Annotations s))
    (range (loop sched 0) (nilmap (Annotations s)))) as Hnp.
  destruct (collect_groups _ _ _ _ _) as [gs|e|]; [|done|done]. by destruct (decide _).
Qed.

Lemma retrieve_one_keeps sched s allow p w :
  wp (retrieveRequiredK8sSecret L D sched s allow) (λ r t,
    t.2 = w ∧ originalK8sSecrets (state_of t) =
      <[secretName_ s := s]> (originalK8sSecrets (secretsState p)) ∧
    prevSecretsChecksums t.1 = prevSecretsChecksums p ∧ r ≠ Panic) (p, w).
Proof.
  unfold retrieveRequiredK8sSecret. apply wp_bind. unfold wp at 1. cbn.
  apply wp_bind. eapply wp_mono; [apply process_groups_keeps|].
  intros [[]|e|] [p1 w1] (Hw & Hst & Hpr & Hnp); cbn in *; unfold state_of; cbn; [|by rewrite Hst|done].
  apply wp_bind. eapply wp_mono; [apply parse_keeps|].
  intros [b|e|] [p2 w2] ((Hw2 & Ho & Hg & Hpr2) & Hnp2); unfold state_of in Ho; cbn in *;
    rewrite Hst in Ho; cbn in Ho; [|by rewrite Hpr2; subst|done].
  apply wp_bind. unfold wp, gets. cbn. destruct (decide _); [destruct allow|];
    cbn; by rewrite Hpr2, Hpr, Ho, Hw2, Hw.
Qed.

Lemma retrieve_one_retrieved ss sched s allow p w :
  retrieved ss (secretsState p) → cluster w0 (podNamespace C) (secretName_ s) = Some s →
  wp (retrieveRequiredK8sSecret L D sched s allow) (λ r t,
    r = Ret tt → retrieved (ss ++ [s]) (state_of t)) (p, w).
Proof.
  intros Hr Hs. unfold retrieveRequiredK8sSecret. apply wp_bind. unfold wp at 1. cbn.
  apply wp_bind. eapply wp_mono; [apply process_groups_keeps|].
  intros [[]|e|] [p1 w1] (Hw & Hst & _); [|done|done]. cbn in Hst.
  apply wp_bind. eapply wp_mono; [apply (parse_retrieved ss s)|].
  { rewrite Hst. by apply in_progress_record. }
  intros [b|e|] [p2 w2] Hb; [|done|done]. apply wp_bind. unfold wp, gets. cbn.
  destruct (decide _); [|intros _; by apply (Hb b)]. destruct allow; [|done].
  intros _. by apply (Hb b).
Qed.

(** *** All Secrets *)

(** The Secrets the provider manages in the cluster [w0]. *)
Definition managed (s : K8sSecret) : Prop :=
  if decide (requiredK8sSecrets C = [])
  then ∃ l, (listLabeledSecrets (k8s D) (podNamespace C) w0).1 = Ret l ∧ s ∈ l
  else secretName_ s ∈ requiredK8sSecrets C.

Definition origin_ok (st : k8sSecretsState) : Prop :=
  ∀ n s, originalK8sSecrets st !! n = Some s →
    secretName_ s = n ∧ cluster w0 (podNamespace C) n = Some s ∧ managed s.

Lemma origin_ok_insert s (m : gmap string K8sSecret) :
  (∀ n s', m !! n = Some s' → secretName_ s' = n ∧ cluster w0 (podNamespace C) n = Some s' ∧ managed s') →
  cluster w0 (podNamespace C) (secretName_ s) = Some s → managed s →
  ∀ n s', <[secretName_ s := s]> m !! n = Some s' →
    secretName_ s' = n ∧ cluster w0 (podNamespace C) n = Some s' ∧ managed s'.
Proof. intros Hm Hc Hs n s' [[Hn Hs']|[_ ?]]%lookup_insert_Some; [by subst|by apply Hm]. Qed.

Lemma call_k8s_run {A} (m : M W string A) p w :
  call_k8s m (p, w) = ((m w).1, (p, (m w).2)).
Proof. unfold call_k8s. cbn. by destruct (m w). Qed.

Lemma retrieve_all_keeps sched p :
  origin_ok (secretsState p) →
  wp (retrieveRequiredK8sSecrets L D C sched)
    (λ r t, t.2 = w0 ∧ origin_ok (state_of t) ∧ prevSecretsChecksums t.1 = prevSecretsChecksums p ∧
      (ready w0 → r ≠ Panic)) (p, w0).
Proof.
  intros Ho. unfold retrieveRequiredK8sSecrets.
  destruct (decide (requiredK8sSecrets C = [])) as [Hreq|Hreq].
  - apply wp_bind, wp_on_error. unfold wp at 1. rewrite call_k8s_run. cbn.
    rewrite list_world. pose proof (list_ok (podNamespace C) w0) as Hl.
    pose proof (read_ready (podNamespace C) "" w0) as Hrd.
    destruct (listLabeledSecrets _ _ w0).1 as [l|e|] eqn:Hrun; [|by split_and!|].
    2: { split_and!; [done..|]. intros Hr. by destruct (Hrd Hr). }
    destruct (Hl l eq_refl) as [_ Hc].
    apply (wp_for_each (λ _ t, t.2 = w0 ∧ origin_ok (state_of t) ∧
      prevSecretsChecksums t.1 = prevSecretsChecksums p)); [done| |by intros t (? & ? & ?)].
    intros pre [i s] [p1 w1] Hin%elem_of_imap_pair (Hw & Ho1 & Hpr1). cbn in Hw, Hpr1. subst w1.
    unfold process_labelled. apply wp_on_error.
    eapply wp_mono; [apply retrieve_one_keeps|]. cbn. intros r [p2 w2] (Hw2 & Hor & Hpr2 & Hnp).
    assert (origin_ok (secretsState p2)) as Ho2.
    { intros n s'. unfold state_of in Hor. cbn in Hor. rewrite Hor.
      apply origin_ok_insert; [done|by apply Hc|]. unfold managed. rewrite decide_True by done.
      by exists l. }
    rewrite Hpr1 in Hpr2.
    destruct r as [[]|e|]; [done| |done]. unfold wp. cbn. split; [done|]. split; [|done].
    intros n s' Hs'. cbn in Hs'. apply lookup_delete_Some in Hs' as [_ Hs']. by apply Ho2.
  - apply (wp_for_each (λ _ t, t.2 = w0 ∧ origin_ok (state_of t) ∧
      prevSecretsChecksums t.1 = prevSecretsChecksums p)); [done| |by intros t (? & ? & ?)].
    intros pre [i n] [p1 w1] Hin%elem_of_imap_pair (Hw & Ho1 & Hpr1). cbn in Hw, Hpr1. subst w1.
    unfold retrieve_by_name. apply wp_bind, wp_on_error. unfold wp at 1. rewrite call_k8s_run. cbn.
    rewrite retrieve_world. pose proof (retrieve_ok (podNamespace C) n w0) as Hl.
    pose proof (read_ready (podNamespace C) n w0) as Hrd.
    destruct (retrieveSecret _ _ n w0).1 as [s|e|] eqn:Hrun; [|by split_and!|].
    2: { split_and!; [done..|]. intros Hr. by destruct (Hrd Hr). }
    destruct (Hl s eq_refl) as [Hn Hc].
    eapply wp_mono; [apply retrieve_one_keeps|]. cbn. intros r [p2 w2] (Hw2 & Hor & Hpr2 & Hnp).
    assert (origin_ok (secretsState p2)) as Ho2.
    { intros n' s'. unfold state_of in Hor. cbn in Hor. rewrite Hor.
      apply origin_ok_insert; [done|by rewrite Hn|]. unfold managed. rewrite decide_False by done.
      by rewrite Hn. }
    rewrite Hpr1 in Hpr2. by destruct r.
Qed.

(** *** Listed Secrets

    In label mode a Secret whose handling fails is dropped. *)
Definition yaml_ok (s : K8sSecret) : Prop :=
  match nilmap_lookup (Data s) ConjurMapKey with
  | None => True
  | Some raw => bytes_string raw = "" ∨ (yaml2 L (bytes_string raw)).2 = true
  end.

(** The conjur-map is in order; or it fails before it has any effect. *)
Definition valid_map (s : K8sSecret) : Prop :=
  yaml_ok s ∧ ∀ k c, conjur_map L s !! k = Some c → ∃ vd, parse_entry (secretName_ s) k c = inr vd.
Definition broken_map (s : K8sSecret) : Prop :=
  ¬ yaml_ok s ∨
  conjur_map L s ≠ ∅ ∧ ∀ k c, conjur_map L s !! k = Some c → ∃ e, parse_entry (secretName_ s) k c = inl e.

Lemma valid_not_broken s : valid_map s → broken_map s → False.
Proof.
  intros [Hok Hv] [Hn|[(k & c & Hk)%map_choose Hb]]; [done|].
  destruct (Hv k c Hk) as [vd Hvd], (Hb k c Hk) as [e He]. congruence.
Qed.

Lemma parse_valid o s p w :
  valid_map s →
  (parseConjurSecretsYAML L D o s (p, w)).1 = Ret (bool_decide (conjur_map L s ≠ ∅)).
Proof.
  intros [Hok Hv]. unfold parseConjurSecretsYAML. unfold yaml_ok in Hok. unfold conjur_map in *.
  destruct (nilmap_lookup _ _) as [raw|]; [|done].
  destruct (decide (bytes_string raw = "")); [done|].
  destruct (yaml2 L _) as [m ok]. destruct Hok as [|[= ->]]; [done|]. cbn [negb].
  destruct (decide (m = ∅)) as [->|]; [done|]. rewrite bool_decide_eq_true_2 by done.
  assert (∀ l p, (∀ kc, kc ∈ l → kc ∈ range o m) →
    (for_each l (refresh_entry (W := W) D (secretName_ s)) (p, w)).1 = Ret tt) as Hall.
  { clear p. induction l as [|[k c] l IH]; intros p Hl; [done|]. cbn [for_each].
    unfold mbind, M_bind. rewrite refresh_entry_run.
    destruct (Hv k c) as [[v d] ->]; [by apply (elem_of_range o), Hl; left|]. apply IH.
    intros kc Hkc. apply Hl. by right. }
  unfold mbind, M_bind, refreshUpdateDestinations. specialize (Hall _ p (λ _ H, H)).
  by destruct (for_each _ _ _) as [[[]|e|] t].
Qed.

(** Text that is not YAML is an error only while no group has been found. *)
Lemma parse_broken o s p w :
  yaml_ok s ∨ secretsGroups p = ∅ → broken_map s → ∃ e, parseConjurSecretsYAML L D o s (p, w) = (Fail e, (p, w)).
Proof.
  intros Hg Hb. unfold parseConjurSecretsYAML. unfold broken_map, yaml_ok, conjur_map in Hb.
  unfold yaml_ok in Hg.
  destruct (nilmap_lookup _ _) as [raw|]; [|by destruct Hb as [?|[? _]]].
  destruct (decide (bytes_string raw = "")); [by destruct Hb as [Hn|[? _]]; [destruct Hn; left|]|].
  destruct (yaml2 L _) as [m ok]. destruct ok; cbn [negb].
  - destruct Hb as [Hn|[Hm Hb]]; [destruct Hn; by right|]. rewrite decide_False by done.
    unfold mbind, M_bind, refreshUpdateDestinations.
    destruct (range o m) as [|[k c] l] eqn:Hl.
    { destruct Hm. apply map_empty. intros k. destruct (m !! k) as [c|] eqn:Hk; [|done].
      apply (elem_of_range o) in Hk. rewrite Hl in Hk. by apply not_elem_of_nil in Hk. }
    destruct (Hb k c) as [e He]; [apply (elem_of_range o); rewrite Hl; by left|].
    cbn [for_each]. unfold mbind, M_bind. rewrite refresh_entry_run, He. by eexists.
  - destruct Hg as [[|]|Hg]; [done|done|].
    unfold mbind, M_bind, gets. cbn [fst snd]. rewrite Hg, decide_True by done. by eexists.
Qed.
End retrieval.

(** ** The variables to fetch *)
Lemma destination_ids_spec keys :
  destination_ids keys = if decide ("*" ∈ keys) then None else Some keys.
Proof.
  induction keys as [|k keys IH]; [by rewrite decide_False by apply not_elem_of_nil|].
  cbn [destination_ids]. rewrite IH. destruct (decide (k = "*")) as [->|Hk].
  - by rewrite decide_True by by left.
  - destruct (decide ("*" ∈ keys)) as [Hin|Hni].
    + by rewrite decide_True by by right.
    + rewrite decide_False; [done|]. by intros [?|?]%elem_of_cons.
Qed.

Lemma group_ids_spec seen paths :
  NoDup (group_ids seen paths) ∧ ∀ x, x ∈ group_ids seen paths ↔ x ∈ paths ∧ x ∉ seen.
Proof.
  revert seen. induction paths as [|y paths IH]; intros seen.
  { split; [constructor|]. cbn. set_solver. }
  cbn [group_ids]. destruct (decide (y ∈ seen)) as [Hy|Hy].
  - destruct (IH seen) as [Hnd Hx]. split; [done|]. intros x. rewrite Hx, elem_of_cons. set_solver.
  - destruct (IH ({[y]} ∪ seen)) as [Hnd Hx]. split.
    + apply NoDup_cons. split; [|done]. rewrite Hx. set_solver.
    + intros x. rewrite !elem_of_cons, Hx. destruct (decide (x = y)); set_solver.
Qed.

(** The variables that the group specs name. *)
Definition group_variable (p : K8sProvider) (x : string) : Prop :=
  ∃ n gs g spec, secretsGroups p !! n = Some gs ∧ g ∈ gs ∧ spec ∈ SecretSpecs g ∧ Path spec = x.

Lemma elem_of_group_paths o p x :
  x ∈ group_paths (range o (secretsGroups p)) ↔ group_variable p x.
Proof.
  unfold group_paths. rewrite list_elem_of_fmap. setoid_rewrite list_elem_of_join. split.
  - intros (spec & -> & specs & Hspec & (g & -> & Hg)%list_elem_of_fmap).
    apply list_elem_of_join in Hg as (gs & Hg & ([n gs'] & -> & Hr)%list_elem_of_fmap).
    apply elem_of_range in Hr. by exists n, gs', g, spec.
  - intros (n & gs & g & spec & Hn & Hg & Hs & <-). exists spec. split; [done|].
    exists (SecretSpecs g). split; [done|]. apply list_elem_of_fmap. exists g. split; [done|].
    apply list_elem_of_join. exists gs. split; [done|]. apply list_elem_of_fmap.
    exists (n, gs). split; [done|]. by apply elem_of_range.
Qed.

(** What [listConjurSecretsToFetch] may answer. *)
Definition fetch_spec {W} (D : k8sProviderDeps W) (p : K8sProvider) (r : outcome string (list string)) :
    Prop :=
  let dests := updateDestinations (secretsState p) in
  match r with
  | Ret ids =>
      match dests !! "*" with
      | Some _ => ids = ["*"]
      | None => NoDup ids ∧ ∀ x, x ∈ ids ↔ is_Some (dests !! x) ∨ group_variable p x
      end
  | Fail e => e = recordedError D CSPFK025E ∧ dests = ∅ ∧ secretsGroups p ≠ ∅ ∧
              ∀ x, ¬ group_variable p x
  | Panic => False
  end.

Lemma list_fetch_spec {W} (D : k8sProviderDeps W) sched p :
  fetch_spec D p (listConjurSecretsToFetch D sched p).
Proof.
  unfold fetch_spec, listConjurSecretsToFetch.
  set (dests := updateDestinations (secretsState p)).
  destruct (decide (dests = ∅ ∧ secretsGroups p = ∅)) as [[Hd Hg]|Hne].
  { rewrite Hd, lookup_empty. split; [constructor|]. intros x. rewrite lookup_empty. split.
    - by intros ?%not_elem_of_nil.
    - intros [[? ?]|(n & gs & g & sp & Hn & _)]; [done|]. by rewrite Hg, lookup_empty in Hn. }
  rewrite destination_ids_spec.
  destruct (decide ("*" ∈ (range (loop sched 0) dests).*1)) as [Hs|Hs];
    rewrite elem_of_range_keys in Hs.
  { by destruct (dests !! "*"); [|destruct Hs]. }
  destruct (dests !! "*") eqn:Hstar; [by destruct Hs; eexists|]. clear Hs.
  set (ids := (range (loop sched 0) dests).*1).
  destruct (group_ids_spec (list_to_set ids) (group_paths (range (loop sched 1) (secretsGroups p))))
    as [Hnd Hin].
  assert (∀ x, x ∈ ids ++ group_ids (list_to_set ids)
                        (group_paths (range (loop sched 1) (secretsGroups p))) ↔
               is_Some (dests !! x) ∨ group_variable p x) as Hall.
  { intros x. rewrite elem_of_app, Hin, elem_of_list_to_set, elem_of_group_paths. subst ids.
    rewrite elem_of_range_keys. destruct (dests !! x); naive_solver. }
  destruct (decide (_ = [])) as [He|He].
  - rewrite He in Hall.
    assert (dests = ∅) as Hde.
    { apply map_empty. intros x. destruct (dests !! x) eqn:Hx; [|done].
      destruct (not_elem_of_nil x). apply Hall. left. by rewrite Hx. }
    split_and!; [done|done|intros Hg; by apply Hne|].
    intros x Hx. apply (not_elem_of_nil x), Hall. by right.
  - split; [|done]. apply NoDup_app. split; [apply range_NoDup_keys|]. split; [|done].
    intros x Hx [_ Hx']%Hin. by apply Hx', elem_of_list_to_set.
Qed.

(** ** ProvideWithCleanup *)
Section provide.
Context {W : Type} (L : libraries) (D : k8sProviderDeps W) `{!K8sAccess (k8s D)}.
Context (C : provider_config).
Implicit Types (p : K8sProvider) (w : W).

Lemma framed_refl st keys w : framed D C st keys w w.
Proof. intros ns n. by left. Qed.

Lemma update_required_framed sched conj keys p w :
  names_ok (secretsState p) → ready w →
  wp (updateRequiredK8sSecretsWithCleanup L D C sched conj keys)
    (λ _ s, framed D C (secretsState p) keys w s.2) (p, w).
Proof.
  intros Hn Hr. unfold updateRequiredK8sSecretsWithCleanup. apply wp_bind. unfold wp at 1. cbn.
  destruct (new_secrets_data _ _ _ _ _ _) as [data|e|]; try apply framed_refl.
  eapply wp_mono; [apply update_secrets_framed; try done; apply framed_refl|].
  by intros r t (_ & _ & _ & Hf).
Qed.

(** Every change a run may make to the cluster: a managed Secret, with entries
    written over its data after the removal of keys that were to be removed. *)
Definition only_managed_changed (keys : gmap string (list string)) w w' : Prop :=
  ∀ ns n, cluster w' ns n = cluster w ns n ∨
    ns = podNamespace C ∧ ∃ s m ks, managed D C w s ∧ secretName_ s = n ∧ cluster w ns n = Some s ∧
      (ks = keys !! n ∨ ks = None) ∧ cluster w' ns n = Some (written ks s m).

Lemma framed_managed st ks keys w w' :
  origin_ok D C w st → framed D C st ks w w' → (ks = keys ∨ ks = ∅) →
  only_managed_changed keys w w'.
Proof.
  intros Ho Hf Hks ns n. destruct (Hf ns n) as [|(-> & s & m & Hs & Hw)]; [by left|].
  destruct (Ho n s Hs) as (Hn & Hc & Hm). right. split; [done|].
  exists s, m, (ks !! n). split_and!; try done.
  destruct Hks as [->| ->]; [by left|right; by rewrite lookup_empty].
Qed.

Lemma only_managed_refl keys w : only_managed_changed keys w w.
Proof. intros ns n. by left. Qed.

Lemma retrieve_conjur_keeps sched p w :
  wp (retrieveConjurSecrets D sched) (λ _ t, t = (p, w)) (p, w).
Proof.
  unfold retrieveConjurSecrets. apply wp_bind. unfold wp at 1. cbn.
  destruct (listConjurSecretsToFetch D sched p); [|done|done].
  apply wp_on_error. unfold wp at 1. cbn. by destruct (retrieveSecrets D _ w).
Qed.

Lemma remove_deleted_framed sched p w :
  names_ok (secretsState p) → ready w →
  wp (removeDeletedSecrets L D C sched) (λ _ t, framed D C (secretsState p) ∅ w t.2) (p, w).
Proof.
  intros Hn Hr. unfold removeDeletedSecrets. apply wp_bind. unfold wp at 1. cbn.
  destruct (listConjurSecretsToFetch D _ p); try apply framed_refl.
  apply wp_bind. eapply wp_mono; [by apply update_required_framed|]. cbn. by intros [b|e|] t Ht.
Qed.

Lemma provide_locked_frame sched keys p w :
  origin_ok D C w (secretsState p) → ready w →
  wp (provide_locked L D C sched keys) (λ _ t, only_managed_changed keys w t.2) (p, w).
Proof.
  intros Ho Hr. unfold provide_locked. apply wp_bind, wp_on_error.
  eapply wp_mono; [by apply retrieve_all_keeps|].
  intros [[]|e|] [p1 w1] (Hw & Ho1 & _ & Hnp); cbn in Hw; subst w1; try apply only_managed_refl.
  assert (names_ok (secretsState p1)) as Hn by by intros n s Hs; apply Ho1 in Hs as [? _].
  apply wp_bind. unfold wp at 1, gets. cbn [fst snd].
  destruct (decide _); [apply only_managed_refl|].
  apply wp_bind, wp_try. eapply wp_mono; [apply retrieve_conjur_keeps|].
  intros [conj|err|] ? ->; [| |apply only_managed_refl].
  - apply wp_on_error. eapply wp_mono; [by apply update_required_framed|].
    intros r [p2 w2] Hf. destruct r; eapply framed_managed; eauto.
  - apply wp_bind. destruct (_ && _); [|apply only_managed_refl].
    apply wp_bind, wp_try. eapply wp_mono; [by apply remove_deleted_framed|].
    intros r [p2 w2] Hf. destruct r; eapply framed_managed; eauto.
Qed.
End provide.

