(* ===== verification/K8sKeys.v ===== *)
(** * Keys of the K8s Secrets: cleanup, group templates, normalized names

    Which keys an update removes after changes of the conjur-map, which entry
    a group template writes, and what the keys of fetch-all mode look like. *)

From S2P Require Import Prelude GoString GoBytes Config FileTemplates K8sClient.
From S2P Require Import K8sProvider K8sProviderSpec.
From Stdlib Require Import Ascii.
Open Scope Z_scope.

(** ** Folds that touch one key at a time *)
Section keyed_fold.
Context {A B K O : Type} `{EqDecision K}.
Context (key : A → K) (f : B → A → B) (obs : B → K → O) (g : A → O → O).
Hypothesis touch : ∀ b a j, obs (f b a) j = if decide (j = key a) then g a (obs b j) else obs b j.

Lemma foldl_keyed_other (l : list A) b j : j ∉ key <$> l → obs (foldl f b l) j = obs b j.
Proof.
  revert b. induction l as [|a l IH]; intros b Hj; [done|].
  apply not_elem_of_cons in Hj as [Hne Hj]. cbn [foldl]. rewrite IH by done.
  by rewrite touch, decide_False.
Qed.

Lemma foldl_keyed (l : list A) b a :
  NoDup (key <$> l) → a ∈ l → obs (foldl f b l) (key a) = g a (obs b (key a)).
Proof.
  revert b. induction l as [|a' l IH]; intros b Hnd Ha; [by apply not_elem_of_nil in Ha|].
  apply NoDup_cons in Hnd as [Hni Hnd]. cbn [foldl]. apply elem_of_cons in Ha as [->|Ha].
  - by rewrite foldl_keyed_other, touch, decide_True.
  - rewrite IH by done. rewrite touch, decide_False; [done|].
    intros Heq. apply Hni. rewrite <- Heq. by apply list_elem_of_fmap_2.
Qed.
End keyed_fold.

(** ** Group templates *)
Section groups.
Context (L : libraries) (conj : gmap string bytes).

(** What the rendering of a group's template does to the value of its key. *)
Definition rendered_entry (original : K8sSecret) (group : string) (secrets : list Secret)
    (old : option bytes) : option bytes :=
  match render_template (engine L) group
          (default "" (nilmap_lookup (Annotations original)
             (SecretGroupFileTemplatePrefix +:+ group))) secrets with
  | Content content => Some (buffer_bytes content)
  | _ => old
  end.

Lemma lookup_set_entry n k v (data : secrets_data) n' k' :
  (set_entry n k v data !!! n') !! k' =
  if decide (n = n' ∧ k = k') then Some v else (data !!! n') !! k'.
Proof.
  unfold set_entry. destruct (decide (n = n')) as [->|Hn].
  - rewrite lookup_total_insert_eq. destruct (decide (k = k')) as [->|Hk].
    + by rewrite lookup_insert_eq, decide_True.
    + rewrite lookup_insert_ne by done. by rewrite decide_False by naive_solver.
  - rewrite lookup_total_insert_ne by done. by rewrite decide_False by naive_solver.
Qed.

Lemma render_group_touch original n (data : secrets_data) group k :
  (render_group L original n data group !!! n) !! k =
  if decide (k = group.1) then rendered_entry original group.1 group.2 ((data !!! n) !! k)
  else (data !!! n) !! k.
Proof.
  unfold render_group, rendered_entry. destruct (render_template _ _ _ _) as [| |content].
  - by destruct (decide _).
  - by destruct (decide _).
  - rewrite lookup_set_entry. apply decide_ext. naive_solver.
Qed.

Lemma render_group_other original n (data : secrets_data) group n' :
  n' ≠ n → render_group L original n data group !!! n' = data !!! n'.
Proof.
  intros Hn. unfold render_group. destruct (render_template _ _ _ _); [done..|].
  unfold set_entry. by rewrite lookup_total_insert_ne.
Qed.

(** The entry of the data after the groups of the Secret [n] are rendered. *)
Definition group_entry (original : option K8sSecret) (groups : list SecretGroup) (k : string)
    (old : option bytes) : option bytes :=
  match original with
  | None => old
  | Some s =>
      match secrets_by_group conj groups !! k with
      | Some secrets => rendered_entry s k secrets old
      | None => old
      end
  end.

Lemma populate_secret_touch sched originals (data : secrets_data) i n groups n' k :
  (populate_secret L sched originals conj data (i, (n, groups)) !!! n') !! k =
  if decide (n' = n) then group_entry (originals !! n) groups k ((data !!! n') !! k)
  else (data !!! n') !! k.
Proof.
  unfold populate_secret, group_entry. destruct (originals !! n) as [s|]; [|by destruct (decide _)].
  set (l := range (loop sched i) (secrets_by_group conj groups)).
  destruct (decide (n' = n)) as [->|Hn].
  - destruct (secrets_by_group conj groups !! k) as [secrets|] eqn:Hk.
    + apply (foldl_keyed fst (render_group L s n) (λ d j, (d !!! n) !! j)
        (λ gr, rendered_entry s gr.1 gr.2) (render_group_touch s n) l data (k, secrets)).
      * apply range_NoDup_keys.
      * by apply elem_of_range.
    + apply (foldl_keyed_other fst (render_group L s n) (λ d j, (d !!! n) !! j)
        (λ gr, rendered_entry s gr.1 gr.2) (render_group_touch s n)).
      change (fst <$> l) with l.*1. subst l. rewrite elem_of_range_keys, Hk. by intros [? ?].
  - f_equal. clear -Hn. revert data. induction l as [|gr l IH]; intros data; [done|].
    cbn [foldl]. by rewrite IH, render_group_other.
Qed.
(** The rendering of group templates sets, in the data of a Secret,
    exactly the keys that are names of its groups and whose template renders,
    to the rendered text, and leaves every other entry alone, in every
    iteration order; the secrets handed to the template are the specs of the
    group in order, with an empty value for a variable Conjur did not return. *)
Lemma populateGroupTemplateSecretData_spec sched p (data : secrets_data) n k :
  (populateGroupTemplateSecretData L sched p conj data !!! n) !! k =
  match secretsGroups p !! n with
  | Some groups =>
      group_entry (originalK8sSecrets (secretsState p) !! n) groups k ((data !!! n) !! k)
  | None => (data !!! n) !! k
  end.
Proof.
  unfold populateGroupTemplateSecretData.
  set (originals := originalK8sSecrets (secretsState p)).
  set (l := range (loop sched 0) (secretsGroups p)).
  assert ((λ ing : nat * (string * list SecretGroup), ing.2.1) <$> imap pair l = l.*1) as Hkeys.
  { rewrite <- (imap_pair_snd l) at 2. by rewrite <- list_fmap_compose. }
  assert (∀ (d : secrets_data) ing j, (populate_secret L (sub sched 1) originals conj d ing !!! j) !! k =
    if decide (j = ing.2.1) then group_entry (originals !! ing.2.1) ing.2.2 k ((d !!! j) !! k)
    else (d !!! j) !! k) as Htouch.
  { intros d [i [n' gs]] j. apply populate_secret_touch. }
  destruct (secretsGroups p !! n) as [groups|] eqn:Hg.
  - assert ((n, groups) ∈ (imap pair l).*2) as Hin.
    { rewrite imap_pair_snd. by apply elem_of_range. }
    apply list_elem_of_fmap in Hin as ([i [n' gs]] & [= <- <-] & Hin).
    apply (foldl_keyed (λ ing : nat * (string * list SecretGroup), ing.2.1)
      (populate_secret L (sub sched 1) originals conj) (λ d j, (d !!! j) !! k)
      (λ ing, group_entry (originals !! ing.2.1) ing.2.2 k) Htouch _ data (i, (n, groups)));
      [|done]. rewrite Hkeys. apply range_NoDup_keys.
  - apply (foldl_keyed_other (λ ing : nat * (string * list SecretGroup), ing.2.1)
      (populate_secret L (sub sched 1) originals conj) (λ d j, (d !!! j) !! k)
      (λ ing, group_entry (originals !! ing.2.1) ing.2.2 k) Htouch).
    rewrite Hkeys. unfold l. rewrite elem_of_range_keys, Hg. by intros [? ?].
Qed.

Lemma populate_other sched p (data : secrets_data) n :
  originalK8sSecrets (secretsState p) !! n = None →
  populateGroupTemplateSecretData L sched p conj data !! n = data !! n.
Proof.
  intros Ho. unfold populateGroupTemplateSecretData.
  generalize (imap pair (range (loop sched 0) (secretsGroups p))). intros l. revert data.
  induction l as [|[i [n' gs]] l IH]; intros data; [done|]. cbn [foldl]. rewrite IH.
  unfold populate_secret. destruct (originalK8sSecrets (secretsState p) !! n') as [s|] eqn:Hs; [|done].
  assert (n' ≠ n) as Hne by by intros ->; rewrite Ho in Hs.
  generalize (range (loop (sub sched 1) i) (secrets_by_group conj gs)). intros grs.
  clear IH. revert data. induction grs as [|gr grs IH]; intros data; [done|]. cbn [foldl].
  rewrite IH. unfold render_group. destruct (render_template _ _ _ _); [done..|].
  unfold set_entry. by rewrite lookup_insert_ne.
Qed.
End groups.

(** ** Normalized names *)
Definition allowed_byte (c : ascii) : bool := allowed_rune (byte_of c).
Fixpoint all_bytes_allowed (s : string) : bool :=
  match s with "" => true | String c s' => allowed_byte c && all_bytes_allowed s' end.

Lemma all_bytes_allowed_app s t :
  all_bytes_allowed (s +:+ t) = all_bytes_allowed s && all_bytes_allowed t.
Proof.
  induction s as [|c s IH]; [done|]. rewrite append_cons. cbn. by rewrite IH, andb_assoc.
Qed.

Lemma all_bytes_allowed_join ws :
  all_bytes_allowed (Join ws "") = forallb all_bytes_allowed ws.
Proof.
  induction ws as [|w [|w' ws] IH]; [done|cbn; by rewrite andb_true_r|].
  cbn [Join]. cbn [Join] in IH. rewrite !all_bytes_allowed_app. cbn [all_bytes_allowed andb].
  rewrite IH. done.
Qed.

Lemma lor_ge_l a b : 0 <= b → a <= Z.lor a b.
Proof.
  intros Hb. pose proof (Z.sub_lor_l_same_l b a) as H.
  assert (0 <= Z.land b (Z.lnot a)) by (apply Z.land_nonneg; by left). lia.
Qed.

Lemma lor_ge_r a b : 0 <= a → b <= Z.lor a b.
Proof. rewrite Z.lor_comm. apply lor_ge_l. Qed.

Lemma land_low b k : 0 <= k → Z.land b (Z.ones k) = b mod 2 ^ k.
Proof. apply Z.land_ones. Qed.

(** The bytes of a continuation shifted to their place. *)
Definition cont_bits (b k : Z) : Z := Z.shiftl (Z.land b 63) k.

Lemma cont_bits_nonneg b k : 0 <= cont_bits b k.
Proof. unfold cont_bits. apply Z.shiftl_nonneg. apply Z.land_nonneg. right. lia. Qed.

Lemma cont_bits_ge b lo k : 128 <= lo <= b → b <= 191 → 0 <= k → (lo - 128) * 2 ^ k <= cont_bits b k.
Proof.
  intros Hlo Hb Hk. unfold cont_bits. change 63 with (Z.ones 6). rewrite land_low by lia.
  rewrite Z.shiftl_mul_pow2 by done. apply Z.mul_le_mono_nonneg_r; [lia|].
  change (2 ^ 6) with 64. assert (b mod 64 = b - 128); [|lia].
  rewrite <- (Z.mod_unique b 64 2 (b - 128)); lia.
Qed.

Lemma lead_bits b m k hi : 0 <= k → 0 <= m → hi * 2 ^ m <= b < (hi + 1) * 2 ^ m →
  Z.shiftl (Z.land b (Z.ones m)) k = (b - hi * 2 ^ m) * 2 ^ k.
Proof.
  intros Hk Hm Hb. rewrite land_low, Z.shiftl_mul_pow2 by done. f_equal.
  symmetry. apply (Z.mod_unique b (2 ^ m) hi); lia.
Qed.

Lemma two_bytes b0 b1 : 194 <= b0 <= 223 →
  128 <= Z.lor (Z.shiftl (Z.land b0 31) 6) (Z.land b1 63).
Proof.
  intros Hb. change 31 with (Z.ones 5). rewrite (lead_bits b0 5 6 6) by lia.
  assert (0 <= Z.land b1 63) by (apply Z.land_nonneg; right; lia).
  pose proof (lor_ge_l ((b0 - 6 * 2 ^ 5) * 2 ^ 6) (Z.land b1 63)). lia.
Qed.

Lemma three_bytes b0 b1 b2 :
  224 <= b0 <= 239 → (if b0 =? 224 then 160 else 128) <= b1 <= 191 →
  128 <= Z.lor (Z.lor (Z.shiftl (Z.land b0 15) 12) (cont_bits b1 6)) (Z.land b2 63).
Proof.
  intros Hb H1. change 15 with (Z.ones 4). rewrite (lead_bits b0 4 12 14) by lia.
  assert (0 <= Z.land b2 63) by (apply Z.land_nonneg; right; lia).
  set (A := (b0 - 14 * 2 ^ 4) * 2 ^ 12). assert (0 <= A) by lia.
  pose proof (cont_bits_nonneg b1 6) as HB.
  pose proof (lor_ge_l (Z.lor A (cont_bits b1 6)) (Z.land b2 63)).
  pose proof (lor_ge_l A (cont_bits b1 6)). pose proof (lor_ge_r A (cont_bits b1 6)).
  destruct (Z.eqb_spec b0 224); [|lia].
  pose proof (cont_bits_ge b1 160 6). lia.
Qed.

Lemma four_bytes b0 b1 b2 b3 :
  240 <= b0 <= 244 → (if b0 =? 240 then 144 else 128) <= b1 <= 191 →
  128 <= Z.lor (Z.lor (Z.shiftl (Z.land b0 7) 18) (cont_bits b1 12))
               (Z.lor (cont_bits b2 6) (Z.land b3 63)).
Proof.
  intros Hb H1. change 7 with (Z.ones 3). rewrite (lead_bits b0 3 18 30) by lia.
  assert (0 <= Z.land b3 63) by (apply Z.land_nonneg; right; lia).
  pose proof (cont_bits_nonneg b2 6).
  pose proof (lor_ge_l (cont_bits b2 6) (Z.land b3 63)).
  set (A := (b0 - 30 * 2 ^ 3) * 2 ^ 18). assert (0 <= A) by lia.
  pose proof (cont_bits_nonneg b1 12) as HB.
  pose proof (lor_ge_l (Z.lor A (cont_bits b1 12)) (Z.lor (cont_bits b2 6) (Z.land b3 63))).
  pose proof (lor_ge_l A (cont_bits b1 12)). pose proof (lor_ge_r A (cont_bits b1 12)).
  destruct (Z.eqb_spec b0 240); [|lia].
  pose proof (cont_bits_ge b1 144 12). lia.
Qed.

Lemma in_range_spec lo hi b : in_range lo hi b = true ↔ lo <= b <= hi.
Proof. unfold in_range. rewrite andb_true_iff, !Z.leb_le. done. Qed.

(** A rune below 128 is the byte it was read from. *)
Lemma decode_rune_ascii b0 rest :
  (decode_rune b0 rest).1 < 128 → decode_rune b0 rest = (b0, 1%nat).
Proof.
  unfold decode_rune, RuneError. destruct (Z.ltb_spec b0 128) as [|_]; [done|].
  destruct (in_range 194 223 b0) eqn:H2.
  { apply in_range_spec in H2. destruct rest as [|c1 r1]; [done|].
    destruct (in_range _ _ _); [|done]. cbn [fst].
    pose proof (two_bytes b0 (byte_of c1) H2). lia. }
  destruct (in_range 224 239 b0) eqn:H3.
  { apply in_range_spec in H3. cbv zeta. destruct rest as [|c1 r1]; [done|].
    destruct (in_range _ _ (byte_of c1)) eqn:Hc1; [|done].
    destruct r1 as [|c2 r2]; [done|]. destruct (in_range _ _ (byte_of c2)); [|done]. cbn [fst].
    apply in_range_spec in Hc1.
    pose proof (three_bytes b0 (byte_of c1) (byte_of c2) H3) as Hge. unfold cont_bits in Hge.
    destruct (b0 =? 237), (b0 =? 224); lia. }
  destruct (in_range 240 244 b0) eqn:H4; [|done].
  apply in_range_spec in H4. cbv zeta. destruct rest as [|c1 r1]; [done|].
  destruct (in_range _ _ (byte_of c1)) eqn:Hc1; [|done].
  destruct r1 as [|c2 r2]; [done|]. destruct (in_range _ _ (byte_of c2)); [|done].
  destruct r2 as [|c3 r3]; [done|]. destruct (in_range _ _ (byte_of c3)); [|done]. cbn [fst].
  apply in_range_spec in Hc1.
  pose proof (four_bytes b0 (byte_of c1) (byte_of c2) (byte_of c3) H4) as Hge.
  unfold cont_bits in Hge. destruct (b0 =? 244), (b0 =? 240); lia.
Qed.

Lemma allowed_rune_ascii r : allowed_rune r = true → 0 <= r < 128.
Proof.
  unfold allowed_rune. rewrite !orb_true_iff, !in_range_spec, !Z.eqb_eq. lia.
Qed.

Lemma runes_allowed skip s rb :
  rb ∈ runes_go skip s → allowed_rune rb.1 = true → all_bytes_allowed rb.2 = true.
Proof.
  revert skip. induction s as [|a s IH]; intros skip Hin Hr; [by apply not_elem_of_nil in Hin|].
  destruct skip as [|k]; cbn [runes_go] in Hin; [|by eapply IH].
  destruct (decode_rune (byte_of a) s) as [r w] eqn:Hd.
  apply elem_of_cons in Hin as [->|Hin]; [|by eapply IH].
  cbn [fst snd] in *. pose proof (allowed_rune_ascii r Hr).
  pose proof (decode_rune_ascii (byte_of a) s) as Ha. rewrite Hd in Ha. cbn [fst] in Ha.
  specialize (Ha ltac:(lia)). injection Ha as -> ->. cbn. unfold allowed_byte. rewrite Hr. by destruct s.
Qed.

Lemma runes_of_allowed s :
  all_bytes_allowed s = true →
  runes s = (λ c, (byte_of c, String c "")) <$> String.list_ascii_of_string s.
Proof.
  unfold runes. induction s as [|a s IH]; [done|]. cbn [all_bytes_allowed].
  intros [Ha Hs]%andb_true_iff. cbn [runes_go String.list_ascii_of_string].
  unfold allowed_byte in Ha. apply allowed_rune_ascii in Ha. unfold decode_rune.
  destruct (Z.ltb_spec (byte_of a) 128); [|lia].
  rewrite fmap_cons. cbn [slice_to Nat.sub]. rewrite IH by done. by destruct s.
Qed.

Lemma Join_chars s : Join ((λ c, String c "") <$> String.list_ascii_of_string s) "" = s.
Proof.
  induction s as [|c [|c' s] IH]; [done|done|].
  cbn [String.list_ascii_of_string] in *. rewrite !fmap_cons in *. cbn [Join] in *. by rewrite IH.
Qed.

Lemma normalize_allowed name : all_bytes_allowed (normalizeK8sSecretName name) = true.
Proof.
  unfold normalizeK8sSecretName. rewrite all_bytes_allowed_join. apply forallb_forall.
  intros w Hw. apply list_elem_of_In, list_elem_of_fmap in Hw as (rb & -> & Hrb).
  destruct (allowed_rune rb.1) eqn:Hr; [by eapply runes_allowed|done].
Qed.

Lemma normalize_id name : all_bytes_allowed name = true → normalizeK8sSecretName name = name.
Proof.
  intros Hn. unfold normalizeK8sSecretName. rewrite runes_of_allowed by done.
  rewrite <- list_fmap_compose. rewrite <- (Join_chars name) at 2. f_equal.
  revert Hn. induction name as [|c name IH]; [done|]. cbn [all_bytes_allowed].
  intros [Hc Hn]%andb_true_iff. cbn [String.list_ascii_of_string]. rewrite !fmap_cons, IH by done.
  cbn. unfold allowed_byte in Hc. by rewrite Hc.
Qed.

(** ** Change detection *)
Lemma no_byte_app_inj c a b x y :
  no_byte c a → no_byte c b → a +:+ String c x = b +:+ String c y → a = b ∧ x = y.
Proof.
  revert b. induction a as [|d a IH]; intros [|e b] Ha Hb; rewrite ?append_cons.
  - by intros [= ->].
  - intros [= Heq _]. by destruct Hb as [Hb _].
  - intros [= Heq _]. by destruct Ha as [Ha _].
  - intros [= -> Heq]. destruct Ha as [_ Ha], Hb as [_ Hb].
    by destruct (IH b Ha Hb Heq) as [-> ->].
Qed.

(** A boolean version of [no_byte]. *)
Fixpoint lacks (c : ascii) (s : string) : bool :=
  match s with "" => true | String d s' => negb (bool_decide (d = c)) && lacks c s' end.

Lemma lacks_spec c s : lacks c s = true → no_byte c s.
Proof.
  induction s as [|d s IH]; [done|]. cbn. intros [Hd Hs]%andb_true_iff.
  apply negb_true_iff, bool_decide_eq_false in Hd. by split; [|apply IH].
Qed.

Definition pretty_byte_check (z : Z) : bool :=
  lacks " "%char (pretty_byte z) && lacks "]"%char (pretty_byte z) &&
  negb (String.eqb (pretty_byte z) "").

Lemma pretty_byte_ok z : is_byte z →
  no_byte " "%char (pretty_byte z) ∧ no_byte "]"%char (pretty_byte z) ∧ pretty_byte z ≠ "".
Proof.
  intros Hz. assert (pretty_byte_check z = true) as H.
  { apply bytes_forall; [vm_compute; reflexivity|done]. }
  apply andb_true_iff in H as [[H1 H2]%andb_true_iff H3%negb_true_iff%String.eqb_neq].
  split_and!; [by apply lacks_spec|by apply lacks_spec|done].
Qed.

(** The bytes of a value, as [pretty_bytes] prints them between the brackets. *)
Definition byte_words (s : string) : string := Join (pretty_byte <$> string_bytes s) " ".

Lemma Join_spaces_no_byte c ws : c ≠ " "%char → (∀ w, w ∈ ws → no_byte c w) → no_byte c (Join ws " ").
Proof.
  intros Hc. induction ws as [|w [|w' ws] IH]; intros Hw; [done|apply Hw; by left|].
  change (Join (w :: w' :: ws) " ") with (w +:+ " " +:+ Join (w' :: ws) " ").
  apply no_byte_app. split; [apply Hw; by left|]. apply no_byte_app. split; [by split|].
  apply IH. intros x Hx. apply Hw. by right.
Qed.

Lemma elem_pretty_bytes s w :
  w ∈ pretty_byte <$> string_bytes s → ∃ z, is_byte z ∧ w = pretty_byte z.
Proof.
  intros (z & -> & Hz)%list_elem_of_fmap. exists z. split; [|done].
  pose proof (string_bytes_range s) as Hs. rewrite Forall_forall in Hs. by apply Hs.
Qed.

Lemma byte_words_no_bracket s : no_byte "]"%char (byte_words s).
Proof.
  apply Join_spaces_no_byte; [done|]. intros w (z & Hz & ->)%elem_pretty_bytes.
  by apply pretty_byte_ok.
Qed.

Lemma byte_words_nil s : byte_words s = "" → s = "".
Proof.
  destruct s as [|c s]; [done|]. unfold byte_words. cbn [string_bytes].
  rewrite fmap_cons. intros H. exfalso. destruct (pretty_byte_ok (byte_of c) (byte_of_range c))
    as (_ & _ & Hne). apply Hne.
  destruct (pretty_byte <$> string_bytes s); cbn [Join] in H; [done|].
  by apply append_eq_nil in H as [? _].
Qed.

Lemma byte_words_inj s t : byte_words s = byte_words t → s = t.
Proof.
  intros Heq. destruct (decide (s = "")) as [->|Hs].
  { symmetry. by apply byte_words_nil. }
  destruct (decide (t = "")) as [->|Ht]; [by apply byte_words_nil|].
  assert (∀ u, u ≠ "" → Split (byte_words u) " "%char = pretty_byte <$> string_bytes u) as Hsplit.
  { intros u Hu. apply Split_Join; [by destruct u|].
    apply Forall_forall. intros w (z & Hz & ->)%elem_pretty_bytes. by apply pretty_byte_ok. }
  apply (f_equal (λ x, Split x " "%char)) in Heq. rewrite !Hsplit in Heq by done.
  apply string_bytes_inj. revert Heq. generalize (string_bytes_range s), (string_bytes_range t).
  generalize (string_bytes s), (string_bytes t). clear.
  intros l. induction l as [|a l IH]; intros [|b l'] Hl Hl' Heq; try done.
  apply Forall_cons in Hl as [Ha Hl], Hl' as [Hb Hl']. rewrite !fmap_cons in Heq.
  injection Heq as Hab Heq. f_equal; [by apply pretty_byte_inj|by apply IH].
Qed.

(** An entry of a printed map, and the printed map. *)
Definition print_entry (kb : string * string) : string :=
  kb.1 +:+ ":" +:+ "[" +:+ byte_words kb.2 +:+ "]".

(** What follows the closing bracket of an entry. *)
Definition print_rest (l : list (string * string)) : string :=
  match l with [] => "" | _ => String " " (Join (print_entry <$> l) " ") end.

Lemma print_entries_cons kb l :
  Join (print_entry <$> kb :: l) " " =
  kb.1 +:+ String ":" (String "[" (byte_words kb.2 +:+ String "]" (print_rest l))).
Proof.
  destruct kb as [k b]. unfold print_rest. cbn [fst snd]. destruct l as [|x l].
  - cbn [fmap list_fmap Join]. unfold print_entry. cbn [fst snd]. rewrite ?append_assoc_str. done.
  - change (Join (print_entry <$> (k, b) :: x :: l) " ")
      with (print_entry (k, b) +:+ " " +:+ Join (print_entry <$> x :: l) " ").
    generalize (Join (print_entry <$> x :: l) " "). intros r. unfold print_entry. cbn [fst snd].
    by rewrite ?append_assoc_str.
Qed.

Lemma print_entries_inj l l' :
  (∀ kb, kb ∈ l → no_byte ":"%char kb.1) → (∀ kb, kb ∈ l' → no_byte ":"%char kb.1) →
  Join (print_entry <$> l) " " = Join (print_entry <$> l') " " → l = l'.
Proof.
  revert l'. induction l as [|[k b] l IH]; intros [|[k' b'] l'] Hl Hl' Heq;
    rewrite ?print_entries_cons in Heq; [done|destruct k'; discriminate|destruct k; discriminate|]. cbn [fst snd] in Heq.
  apply no_byte_app_inj in Heq as [-> [= Heq]];
    [|apply (Hl (k, b)); by left|apply (Hl' (k', b')); by left].
  apply no_byte_app_inj in Heq as [Hb Hrest]; [|apply byte_words_no_bracket..].
  apply byte_words_inj in Hb as ->. f_equal. apply IH.
  - intros kb Hkb. apply Hl. by right.
  - intros kb Hkb. apply Hl'. by right.
  - unfold print_rest in Hrest. destruct l, l'; [done|done|done|by injection Hrest].
Qed.

(** Keys without a colon, as the API server accepts them. *)
Definition plain_keys (m : gmap string bytes) : Prop :=
  ∀ k, is_Some (m !! k) → no_byte ":"%char k.

(** The same data, when nil and empty values are not told apart. *)
Definition same_data (m m' : gmap string bytes) : Prop := bytes_string <$> m = bytes_string <$> m'.

Lemma pretty_map_entries m :
  pretty_map m = "map[" +:+ Join (print_entry <$>
    ((λ k, (k, bytes_string (m !!! k))) <$> sort_strings (map_to_list m).*1)) " " +:+ "]".
Proof.
  unfold pretty_map. do 2 f_equal. rewrite <- list_fmap_compose. do 2 f_equal.
Qed.

Lemma elem_of_sorted_keys {V} (m : gmap string V) k :
  k ∈ sort_strings (map_to_list m).*1 ↔ is_Some (m !! k).
Proof. rewrite sort_strings_perm. apply (elem_of_range_keys canonical_order). Qed.

Lemma append_inj_r s t r : s +:+ r = t +:+ r → s = t.
Proof.
  intros Heq. assert (String.length s = String.length t) as Hl.
  { apply (f_equal String.length) in Heq. rewrite !length_append in Heq. lia. }
  revert t Hl Heq. induction s as [|c s IH]; intros [|d t] Hl Heq; try done.
  rewrite !append_cons in Heq. injection Heq as -> Heq. injection Hl as Hl. f_equal. by apply IH.
Qed.

Lemma pretty_map_inj m m' :
  plain_keys m → plain_keys m' → pretty_map m = pretty_map m' → same_data m m'.
Proof.
  intros Hm Hm'. rewrite !pretty_map_entries. intros Heq%append_inj_l%append_inj_r.
  apply print_entries_inj in Heq.
  - set (ks := sort_strings (map_to_list m).*1) in *.
    set (ks' := sort_strings (map_to_list m').*1) in *.
    assert (ks = ks') as Hks.
    { apply (f_equal (fmap fst)) in Heq. rewrite <- !list_fmap_compose in Heq. cbn in Heq.
      by rewrite !list_fmap_id in Heq. }
    apply map_eq. intros k. rewrite !lookup_fmap.
    assert (is_Some (m !! k) ↔ is_Some (m' !! k)) as Hdom.
    { rewrite <- !elem_of_sorted_keys. fold ks ks'. by rewrite Hks. }
    destruct (m !! k) as [v|] eqn:Hv, (m' !! k) as [v'|] eqn:Hv'; [|naive_solver..].
    cbn. f_equal.
    assert ((k, bytes_string (m !!! k)) ∈ (λ k, (k, bytes_string (m' !!! k))) <$> ks') as Hin.
    { rewrite <- Heq. apply (list_elem_of_fmap_2 (λ k, (k, bytes_string (m !!! k)))).
      apply elem_of_sorted_keys. by eexists. }
    apply list_elem_of_fmap in Hin as (k' & [= <- Hval] & _).
    by rewrite !lookup_total_alt, Hv, Hv' in Hval.
  - intros kb (k & -> & Hk%elem_of_sorted_keys)%list_elem_of_fmap. by apply Hm.
  - intros kb (k & -> & Hk%elem_of_sorted_keys)%list_elem_of_fmap. by apply Hm'.
Qed.

(** ** Cleanup keys *)
Section cleanup.
Context (L : libraries) (C : provider_config).
Implicit Types (s : K8sSecret) (cum : gmap string (list string)).

(** The key [k] is in the conjur-map of the object. *)
Definition mapped (s : option K8sSecret) (k : string) : Prop := is_Some (parseConjurMap L s !! k).

Lemma elem_of_missing_keys o m m' k :
  k ∈ missing_keys o m m' ↔ is_Some (m !! k) ∧ ¬ is_Some (m' !! k).
Proof.
  unfold missing_keys. rewrite list_elem_of_filter, elem_of_range_keys, <- eq_None_not_Some.
  naive_solver.
Qed.

Lemma elem_of_removeKeys k keys ks : k ∈ removeKeys keys ks ↔ k ∈ keys ∧ k ∉ ks.
Proof.
  unfold removeKeys. destruct (decide (ks = [])) as [->|].
  - split; [|by intros [? _]]. intros ?. split; [done|]. apply not_elem_of_nil.
  - rewrite list_elem_of_filter, elem_of_list_to_set. naive_solver.
Qed.

Lemma elem_of_GetRemovedKeys o old new n k :
  k ∈ GetRemovedKeys L C o old new !!! n ↔
  sanitizeEnabled C = true ∧ is_Some old ∧ (secretName_ <$> new = Some n) ∧
  mapped old k ∧ ¬ mapped new k.
Proof.
  assert (∀ k', k' ∉ (∅ : gmap string (list string)) !!! n) as Hno.
  { intros k'. rewrite lookup_total_empty. apply not_elem_of_nil. }
  unfold GetRemovedKeys, getRemovedConjurMapKeys.
  destruct (sanitizeEnabled C); cbn [negb]; [|naive_solver].
  destruct old as [old|]; [|split; [naive_solver|]; by intros (_ & [? ?] & _)].
  destruct new as [new|]; [|split; [naive_solver|]; by intros (_ & _ & ? & _)].
  assert (∀ k', k' ∈ missing_keys o (parseConjurMap L (Some old)) (parseConjurMap L (Some new)) ↔
    mapped (Some old) k' ∧ ¬ mapped (Some new) k') as Hm by (intros; apply elem_of_missing_keys).
  cbn [fmap option_fmap option_map].
  destruct (decide (missing_keys _ _ _ = [])) as [He|He].
  - rewrite He in Hm. split; [naive_solver|]. intros (_ & _ & _ & Hk).
    apply Hm in Hk. by apply not_elem_of_nil in Hk.
  - destruct (decide (secretName_ new = n)) as [<-|Hn].
    + rewrite lookup_total_default, lookup_singleton_eq. cbn. unfold id. rewrite Hm. naive_solver.
    + rewrite lookup_total_default, lookup_singleton_ne by done. split.
      * by intros ?%not_elem_of_nil.
      * naive_solver.
Qed.

Lemma elem_of_MergeReAddedKeys o cum old new n k :
  k ∈ MergeReAddedKeys L o cum old new !!! n ↔
  k ∈ cum !!! n ∧ ¬ (secretName_ <$> new = Some n ∧ mapped new k ∧ ¬ mapped old k).
Proof.
  unfold MergeReAddedKeys, getAddedConjurMapKeys.
  destruct new as [new|]; [|naive_solver]. cbn [fmap option_fmap option_map].
  assert (∀ k', k' ∈ missing_keys o (parseConjurMap L (Some new)) (parseConjurMap L old) ↔
    mapped (Some new) k' ∧ ¬ mapped old k') as Hm by (intros; apply elem_of_missing_keys).
  set (added := missing_keys _ _ _) in *.
  destruct (decide (added = [])) as [He|He].
  { rewrite He in Hm. split; [|by intros [? _]]. intros ?. split; [done|].
    intros (_ & Hk). apply Hm in Hk. by apply not_elem_of_nil in Hk. }
  destruct (cum !! secretName_ new) as [[|x xs]|] eqn:Hc.
  - split; [|by intros [? _]]. intros Hk. split; [done|]. intros [[= <-] _].
    rewrite (lookup_total_correct _ _ _ Hc) in Hk. by apply not_elem_of_nil in Hk.
  - destruct (decide (secretName_ new = n)) as [<-|Hn].
    + rewrite lookup_total_insert_eq, (lookup_total_correct _ _ _ Hc), elem_of_removeKeys, Hm.
      naive_solver.
    + rewrite lookup_total_insert_ne by done. naive_solver.
  - split; [|by intros [? _]]. intros Hk. split; [done|]. intros [[= <-] _].
    rewrite lookup_total_default, Hc in Hk. by apply not_elem_of_nil in Hk.
Qed.
End cleanup.

(** ** Properties *)

(** The normalized name of a Conjur variable consists of the bytes a
    key of a K8s Secret may have (letters, digits, ".", "_" and "-"), whatever
    bytes the name has, and names of such bytes are the ones it leaves alone;
    so normalizing twice changes nothing. *)
Theorem normalized_names_valid name :
  all_bytes_allowed (normalizeK8sSecretName name) = true ∧
  (normalizeK8sSecretName name = name ↔ all_bytes_allowed name = true).
Proof.
  split; [apply normalize_allowed|]. split; [|apply normalize_id].
  intros <-. apply normalize_allowed.
Qed.

(** C37: the change detection misses nothing but a SHA-256 collision:
    when the checksum of new data equals the stored checksum of old data, and
    the keys have no colon, then both hold the same bytes under the same
    keys, or the two printed maps are different texts with one SHA-256. *)
Theorem unchanged_means_same_data prev n m m' :
  plain_keys m → plain_keys m' → prev !! n = Some (FileChecksum (pretty_map m)) →
  entry_changed prev (n, m') = false →
  same_data m m' ∨ (pretty_map m ≠ pretty_map m' ∧ sha256 (pretty_map m) = sha256 (pretty_map m')).
Proof.
  intros Hm Hm' Hprev. unfold entry_changed, ContentHasChanged. cbn [fst snd]. rewrite Hprev.
  rewrite negb_false_iff, bool_decide_eq_true. intros Heq.
  destruct (decide (pretty_map m = pretty_map m')); [left; by apply pretty_map_inj|].
  right. by split.
Qed.

Lemma unchanged_means_same_data_witness :
  let m : gmap string bytes := {["a" := Some "x"]} in
  same_data m m ∨ (pretty_map m ≠ pretty_map m ∧ sha256 (pretty_map m) = sha256 (pretty_map m)).
Proof.
  intros m. assert (plain_keys m) as Hm.
  { intros k [v Hk]. apply lookup_singleton_Some in Hk as [<- _]. by repeat split. }
  apply (unchanged_means_same_data {["s" := FileChecksum (pretty_map m)]} "s" m m Hm Hm).
  - reflexivity.
  - vm_compute. reflexivity.
Defined.
