(* ===== verification/K8sGroups.v ===== *)
(** * The group templates of the K8s Secrets

    Which groups the annotations of a Secret declare, that the provider
    collects exactly those in every iteration order, and what the templates are
    given to render. *)

From S2P Require Import Prelude GoString GoBytes Config FileTemplates K8sClient.
From S2P Require Import K8sProvider K8sProviderSpec K8sKeys.
Open Scope Z_scope.

(** ** The groups that the annotations declare *)
Section annotations.
Context (L : libraries).
Implicit Types (s : K8sSecret) (gs : list SecretGroup).

(** The annotation of the group [k]: one without a template is ignored. *)
Definition group_annotation s (k : string) : option string :=
  _ ← nilmap_lookup (Annotations s) (SecretGroupFileTemplatePrefix +:+ k);
  nilmap_lookup (Annotations s) (SecretGroupPrefix +:+ k).

(** The specs in an annotation, when there is at least one and no error. *)
Definition parsed_specs (v : string) : option (list SecretSpec) :=
  match NewSecretSpecs (yaml_nodes L) canonical_order v with
  | inr (spec :: specs) => Some (spec :: specs)
  | _ => None
  end.

Definition group_specs s (k : string) : option (list SecretSpec) :=
  group_annotation s k ≫= parsed_specs.

Definition groups_ok s : Prop := ∀ k v, group_annotation s k = Some v → is_Some (parsed_specs v).

Definition no_groups s : Prop := ∀ k, group_annotation s k = None.

(** [gs] lists the groups of [s]. *)
Record collected s gs : Prop := {
  coll_names : NoDup (Name <$> gs);
  coll_specs g : g ∈ gs → group_specs s (Name g) = Some (SecretSpecs g);
  coll_all k : is_Some (group_specs s k) → k ∈ Name <$> gs
}.

Lemma parsed_specs_order o v :
  NewSecretSpecs (yaml_nodes L) o v = NewSecretSpecs (yaml_nodes L) canonical_order v.
Proof. apply NewSecretSpecs_order. Qed.

Lemma parsed_specs_nonempty v specs : parsed_specs v = Some specs → specs ≠ [].
Proof. unfold parsed_specs. by destruct (NewSecretSpecs _ _ _) as [|[]]; intros; simplify_eq. Qed.

Lemma group_specs_nonempty s k specs : group_specs s k = Some specs → specs ≠ [].
Proof. intros (v & _ & Hv)%bind_Some. by eapply parsed_specs_nonempty. Qed.

(** The annotations of the entries [l] that declare the group [k]. *)
Definition declares (annots : gmap string string) (l : list (string * string)) (k v : string) : Prop :=
  (SecretGroupPrefix +:+ k, v) ∈ l ∧ is_Some (annots !! (SecretGroupFileTemplatePrefix +:+ k)).

Definition collects (annots : gmap string string) (l : list (string * string)) gs : Prop :=
  NoDup (Name <$> gs) ∧
  (∀ k specs, mkGroup k "" specs ∈ gs ↔ ∃ v, declares annots l k v ∧ parsed_specs v = Some specs) ∧
  (∀ g, g ∈ gs → FileTemplate g = "") ∧
  (∀ k v, declares annots l k v → is_Some (parsed_specs v)).

Lemma declares_cons annots kv l k v :
  declares annots (kv :: l) k v ↔
  declares annots l k v ∨
  (kv = (SecretGroupPrefix +:+ k, v) ∧ is_Some (annots !! (SecretGroupFileTemplatePrefix +:+ k))).
Proof. unfold declares. rewrite elem_of_cons. naive_solver. Qed.

Lemma collects_skip annots kv l gs :
  (∀ k v, kv = (SecretGroupPrefix +:+ k, v) → annots !! (SecretGroupFileTemplatePrefix +:+ k) = None) →
  collects annots l gs → collects annots (kv :: l) gs.
Proof.
  intros Hkv (Hnd & Hgs & Ht & Hok).
  assert (∀ k v, declares annots (kv :: l) k v ↔ declares annots l k v) as Hd.
  { intros k v. rewrite declares_cons. split; [|by left].
    intros [?|[He [? Hs]]]; [done|]. by rewrite (Hkv _ _ He) in Hs. }
  split_and!; [done| |done|by intros k v ?%Hd; eapply Hok].
  intros k specs. rewrite Hgs. by setoid_rewrite Hd.
Qed.

Lemma collects_take annots k v specs l gs :
  (SecretGroupPrefix +:+ k) ∉ l.*1 → is_Some (annots !! (SecretGroupFileTemplatePrefix +:+ k)) →
  parsed_specs v = Some specs → collects annots l gs →
  collects annots ((SecretGroupPrefix +:+ k, v) :: l) (mkGroup k "" specs :: gs).
Proof.
  intros Hni Ha Hv (Hnd & Hgs & Ht & Hok). split_and!.
  - cbn. apply NoDup_cons. split; [|done]. intros ([k' t specs'] & Hk' & Hin)%list_elem_of_fmap.
    cbn in Hk'. subst k'. pose proof (Ht _ Hin) as Ht'. cbn in Ht'. subst t.
    apply Hgs in Hin as (v' & [Hin _] & _).
    apply Hni, list_elem_of_fmap. by exists (SecretGroupPrefix +:+ k, v').
  - intros k' specs'. rewrite elem_of_cons, Hgs. setoid_rewrite declares_cons. split.
    + intros [[= -> ->]|(v' & ? & ?)]; [|by eauto]. exists v. by split; [right|].
    + intros (v' & [?|[[= Hk <-] ?]] & Hp); [right; by eauto|left].
      change (k = k') in Hk. subst k'. congruence.
  - intros g [->|Hg]%elem_of_cons; [done|by apply Ht].
  - intros k' v' [?|[[= _ <-] _]]%declares_cons; [by eapply Hok|by eexists].
Qed.

(** What the loop over the entries [l] answers. *)
Definition collecting (annots : gmap string string) (l : list (string * string))
    (o : outcome string (list SecretGroup)) : Prop :=
  match o with
  | Ret gs => collects annots l gs
  | Fail _ => ∃ k v, declares annots l k v ∧ parsed_specs v = None
  | Panic => False
  end.

Lemma collecting_skip annots kv l o :
  (∀ k v, kv = (SecretGroupPrefix +:+ k, v) → annots !! (SecretGroupFileTemplatePrefix +:+ k) = None) →
  collecting annots l o → collecting annots (kv :: l) o.
Proof.
  intros Hkv Ho. destruct o as [gs|e|]; [by apply collects_skip| |done].
  destruct Ho as (k & v & Hd & ?). exists k, v. split; [|done]. apply declares_cons. by left.
Qed.

Lemma collecting_bad annots k v l e :
  is_Some (annots !! (SecretGroupFileTemplatePrefix +:+ k)) → parsed_specs v = None →
  collecting annots ((SecretGroupPrefix +:+ k, v) :: l) (Fail e).
Proof. intros Ha Hv. exists k, v. split; [|done]. split; [by left|done]. Qed.

Lemma collect_groups_collects sched i annots l :
  NoDup l.*1 → collecting annots l (collect_groups L sched i annots l).
Proof.
  revert i. induction l as [|[a v] l IH]; intros i Hnd.
  { split_and!; [constructor| |by intros g ?%not_elem_of_nil|by intros k v [?%not_elem_of_nil _]].
    intros k specs. split; [by intros ?%not_elem_of_nil|by intros (v & [?%not_elem_of_nil _] & _)]. }
  apply NoDup_cons in Hnd as [Hni Hnd]. specialize (IH (S i) Hnd). cbn [collect_groups].
  destruct (HasPrefix a SecretGroupPrefix) eqn:Hp.
  2: { apply collecting_skip; [|done]. intros k v' [= -> _]. by rewrite HasPrefix_app in Hp. }
  apply HasPrefix_TrimPrefix in Hp. set (k := TrimPrefix a SecretGroupPrefix) in *. clearbody k.
  subst a. destruct (annots !! _) as [t|] eqn:Ht.
  2: { apply collecting_skip; [|done]. intros k' v' [= Hk _]. change (k = k') in Hk. by subst k'. }
  rewrite parsed_specs_order.
  destruct (NewSecretSpecs _ _ v) as [e|[|x xs]] eqn:Hs;
    [apply collecting_bad; [done|unfold parsed_specs; by rewrite Hs]..|].
  destruct (collect_groups _ _ _ _ l) as [gs|e|]; cbn; [| |done].
  - apply collects_take; [done|by eexists| |done]. unfold parsed_specs. by rewrite Hs.
  - destruct IH as (k' & v' & Hd & ?). exists k', v'. split; [|done]. apply declares_cons. by left.
Qed.

(** The entries of the loop are the annotations of the Secret. *)
Lemma declares_annotations s o k v :
  declares (nilmap (Annotations s)) (range o (nilmap (Annotations s))) k v ↔
  group_annotation s k = Some v.
Proof.
  unfold declares, group_annotation. rewrite elem_of_range. unfold nilmap, nilmap_lookup.
  destruct (Annotations s) as [m|]; cbn.
  - destruct (m !! (SecretGroupFileTemplatePrefix +:+ k)) as [t|]; cbn; [|naive_solver].
    split; [by intros [? _]|by split].
  - rewrite lookup_empty. naive_solver.
Qed.

Lemma collects_collected s o gs :
  collects (nilmap (Annotations s)) (range o (nilmap (Annotations s))) gs →
  groups_ok s ∧ collected s gs.
Proof.
  intros (Hnd & Hgs & Ht & Hok). split.
  { intros k v Hk. apply (Hok k). by apply declares_annotations. }
  split; [done| |].
  - intros [k t specs] Hg. pose proof (Ht _ Hg) as Ht'. cbn in *. subst t.
    apply Hgs in Hg as (v & Hv%declares_annotations & Hp). unfold group_specs. by rewrite Hv.
  - intros k [specs (v & Hv & Hp)%bind_Some]. apply list_elem_of_fmap.
    exists (mkGroup k "" specs). split; [done|]. apply Hgs. exists v. split; [|done].
    by apply declares_annotations.
Qed.

(** The provider with the groups [gs] of [s]. *)
Definition with_groups s gs (p : K8sProvider) : K8sProvider :=
  mkProvider (secretsState p) (prevSecretsChecksums p)
    (if decide (gs = []) then secretsGroups p else <[secretName_ s := gs]> (secretsGroups p)).

(** [processSecretGroupAnnotations] records the groups of the Secret, or fails
    without an effect when an annotation is not in order. *)
Lemma process_groups_run {W} sched s p (w : W) :
  match processSecretGroupAnnotations L sched s (p, w) with
  | (Ret _, t) => groups_ok s ∧ ∃ gs, collected s gs ∧ t = (with_groups s gs p, w)
  | (Fail _, t) => ¬ groups_ok s ∧ t = (p, w)
  | (Panic, _) => False
  end.
Proof.
  unfold processSecretGroupAnnotations, mbind, M_bind, lift_outcome.
  pose proof (collect_groups_collects (sub sched 1) 0 (nilmap (Annotations s))
    (range (loop sched 0) (nilmap (Annotations s)))) as Hc.
  specialize (Hc (range_NoDup_keys _ _)).
  destruct (collect_groups _ _ _ _ _) as [gs|e|]; cbn in *; [| |done].
  - apply collects_collected in Hc as [Hok Hc]. unfold with_groups.
    destruct (decide (gs = [])) as [Hn|Hn]; cbn; (split; [done|]); exists gs; (split; [done|]).
    + rewrite decide_True by done. by destruct p.
    + by rewrite decide_False.
  - split; [|done]. intros Hok. destruct Hc as (k & v & Hd%declares_annotations & Hn).
    destruct (Hok k v Hd) as [? ?]. congruence.
Qed.

Lemma collected_none s gs : collected s gs → no_groups s → gs = [].
Proof.
  intros Hc Hn. destruct gs as [|g gs]; [done|exfalso].
  pose proof (coll_specs _ _ Hc g (list_elem_of_here _ _)) as Hg. unfold group_specs in Hg.
  by rewrite Hn in Hg.
Qed.

(** ** What the templates are given *)
Lemma add_secrets (f : SecretSpec → Secret) name specs m :
  foldl (λ m' x, map_append name [f x] m') m specs =
  if decide (specs = []) then m else map_append name (f <$> specs) m.
Proof.
  revert m. induction specs as [|x specs IH]; intros m; [done|]. cbn [foldl]. rewrite IH.
  destruct (decide (specs = [])) as [->|]; [done|]. rewrite decide_False by done.
  unfold map_append. rewrite lookup_total_insert_eq, insert_insert_eq, <- app_assoc. done.
Qed.

Definition add_group (conj : gmap string bytes) (m : gmap string (list Secret)) (g : SecretGroup) :=
  foldl (λ m' x, map_append (Name g) [spec_secret conj x] m') m (SecretSpecs g).

Definition group_secrets (conj : gmap string bytes) (g : SecretGroup) (old : option (list Secret)) :
    option (list Secret) :=
  if decide (SecretSpecs g = []) then old
  else Some (default [] old ++ (spec_secret conj <$> SecretSpecs g)).

Lemma add_group_touch conj m g j :
  add_group conj m g !! j = if decide (j = Name g) then group_secrets conj g (m !! j) else m !! j.
Proof.
  unfold add_group, group_secrets. rewrite add_secrets. destruct (decide (SecretSpecs g = [])) as [He|He].
  - by destruct (decide _).
  - rewrite map_append_lookup. destruct (decide (j = Name g)) as [->|Hne].
    + rewrite decide_True by done. by rewrite lookup_total_default.
    + by rewrite decide_False.
Qed.

Lemma secrets_by_group_spec conj s gs k :
  collected s gs → secrets_by_group conj gs !! k =
  (λ specs : list SecretSpec, spec_secret conj <$> specs) <$> group_specs s k.
Proof.
  intros Hc. change (secrets_by_group conj gs) with (foldl (add_group conj) ∅ gs).
  destruct (decide (k ∈ Name <$> gs)) as [Hk|Hk].
  - apply list_elem_of_fmap in Hk as (g & -> & Hg).
    rewrite (foldl_keyed Name (add_group conj) (λ m j, m !! j) (group_secrets conj) (add_group_touch conj) gs ∅ g);
      [|by eapply coll_names|done].
    unfold group_secrets. rewrite (coll_specs _ _ Hc g Hg), lookup_empty.
    rewrite decide_False by by eapply group_specs_nonempty, coll_specs. done.
  - rewrite (foldl_keyed_other Name (add_group conj) (λ m j, m !! j) (group_secrets conj) (add_group_touch conj)) by done.
    rewrite lookup_empty. destruct (group_specs s k) as [specs|] eqn:Hs; [|done].
    destruct Hk. apply (coll_all _ _ Hc). by rewrite Hs.
Qed.
End annotations.

(** ** Retrieval *)
Section retrieval.
Context {W : Type} (L : libraries) (D : k8sProviderDeps W) `{!K8sAccess (k8s D)}.
Context (C : provider_config) (w0 : W).
Implicit Types (s : K8sSecret) (p : K8sProvider) (w : W) (l ss : list K8sSecret).

(** [groups] holds the groups of the Secrets [ss]. *)
Record grouped ss (groups : gmap string (list SecretGroup)) : Prop := {
  grp_of n gs : groups !! n = Some gs →
    gs ≠ [] ∧ ∃ s, s ∈ ss ∧ secretName_ s = n ∧ collected L s gs;
  grp_all s k : s ∈ ss → is_Some (group_specs L s k) → is_Some (groups !! secretName_ s)
}.

Lemma grouped_empty : grouped [] ∅.
Proof. split; [intros n gs; by rewrite lookup_empty|by intros s k ?%not_elem_of_nil]. Qed.

Lemma grouped_add ss s gs p :
  grouped ss (secretsGroups p) → collected L s gs →
  grouped (ss ++ [s]) (secretsGroups (with_groups s gs p)).
Proof.
  intros [Hof Hall] Hc. unfold with_groups. cbn.
  assert (∀ n gs', secretsGroups p !! n = Some gs' →
    gs' ≠ [] ∧ ∃ s', s' ∈ ss ++ [s] ∧ secretName_ s' = n ∧ collected L s' gs') as Hold.
  { intros n gs' Hn. destruct (Hof n gs' Hn) as (? & s' & ? & ? & ?). split; [done|].
    exists s'. split; [apply elem_of_app; by left|done]. }
  destruct (decide (gs = [])) as [->|Hne]; (split; [|intros s' k [Hs'| ->%list_elem_of_singleton]%elem_of_app Hk]).
  - done.
  - by eapply Hall.
  - apply (coll_all _ _ _ Hc) in Hk. by apply not_elem_of_nil in Hk.
  - intros n gs' [[<- <-]|[_ Hn]]%lookup_insert_Some; [|by apply Hold]. split; [done|].
    exists s. split; [apply elem_of_app; right; by left|done].
  - apply lookup_insert_is_Some'. right. by eapply Hall.
  - apply lookup_insert_is_Some'. by left.
Qed.

Lemma grouped_none ss groups : grouped ss groups → (∀ s, s ∈ ss → no_groups s) → groups = ∅.
Proof.
  intros [Hof _] Hno. apply map_empty. intros n. destruct (groups !! n) as [gs|] eqn:Hn; [|done].
  destruct (Hof n gs Hn) as (Hne & s & Hs & _ & Hc). destruct Hne. eapply collected_none; eauto.
Qed.

(** The groups of one Secret. *)
Lemma grouped_secret ss st groups s :
  retrieved L D C w0 ss st → grouped ss groups → s ∈ ss →
  match groups !! secretName_ s with
  | Some gs => collected L s gs
  | None => ∀ k, group_specs L s k = None
  end.
Proof.
  intros Hr [Hof Hall] Hs. destruct (groups !! secretName_ s) as [gs|] eqn:Hn.
  - destruct (Hof _ _ Hn) as (_ & s' & Hs' & Heq & Hc).
    by rewrite <- (retrieved_same_name _ _ _ _ _ _ _ _ Hr Hs' Hs Heq).
  - intros k. destruct (group_specs L s k) as [specs|] eqn:Hk; [|done].
    destruct (Hall s k) as [gs Hgs]; [done|by rewrite Hk|]. congruence.
Qed.

(** The handling of one Secret. *)
Lemma retrieve_one_grouped ss sched s allow p w :
  grouped ss (secretsGroups p) →
  wp (retrieveRequiredK8sSecret L D sched s allow) (λ r t,
    r = Ret tt → groups_ok L s ∧ grouped (ss ++ [s]) (secretsGroups t.1)) (p, w).
Proof.
  intros Hg. unfold retrieveRequiredK8sSecret. apply wp_bind. unfold wp at 1. cbn.
  apply wp_bind. unfold wp at 1.
  pose proof (process_groups_run L (sub sched 0) s (set_state p (record_original s (secretsState p))) w) as Hp.
  destruct (processSecretGroupAnnotations _ _ _ _) as [[[]|e|] [p1 w1]]; [|done|done].
  destruct Hp as (Hok & gs & Hc & [= -> ->]). cbn [fst snd].
  assert (grouped (ss ++ [s]) (secretsGroups (with_groups s gs
    (set_state p (record_original s (secretsState p)))))) as Hg1 by by apply grouped_add.
  apply wp_bind. eapply wp_mono; [apply parse_keeps|].
  intros [b|e|] [p2 w2] ((_ & _ & Hg2 & _) & _); [|done|done]. cbn [fst] in Hg2. rewrite <- Hg2 in Hg1.
  apply wp_bind. unfold wp, gets. cbn. destruct (decide _); [|done]. by destruct allow.
Qed.

(** The listed Secrets that are processed, and those that are dropped without
    an effect: a bad group annotation comes first; a bad conjur-map leaves the
    groups of its Secret behind, so it must have none. *)
Definition sound s : Prop := groups_ok L s ∧ valid_map L s.
Definition broken l s : Prop :=
  ¬ groups_ok L s ∨
  no_groups s ∧ broken_map L s ∧ (yaml_ok L s ∨ ∀ s', s' ∈ l → no_groups s').

Lemma sound_not_broken l s : sound s → broken l s → False.
Proof.
  intros [Hok Hv] [Hn|(_ & Hb & _)]; [by destruct Hn|]. by eapply valid_not_broken.
Qed.

Lemma retrieve_one_sound sched s p w :
  sound s → wp (retrieveRequiredK8sSecret L D sched s true) (λ r _, r = Ret tt) (p, w).
Proof.
  intros [Hs Hv]. unfold retrieveRequiredK8sSecret. apply wp_bind. unfold wp at 1. cbn.
  apply wp_bind. unfold wp at 1.
  pose proof (process_groups_run L (sub sched 0) s (set_state p (record_original s (secretsState p))) w) as Hp.
  destruct (processSecretGroupAnnotations _ _ _ _) as [[[]|e|] [p1 w1]]; [|by destruct Hp|done].
  cbn [fst snd]. apply wp_bind. unfold wp at 1.
  pose proof (parse_valid L D (loop sched 1) s p1 w1 Hv) as Hb.
  destruct (parseConjurSecretsYAML _ _ _ _ _) as [r [p2 w2]]. cbn in Hb. subst r. cbn [fst snd].
  apply wp_bind. unfold wp, gets. cbn. by destruct (decide _).
Qed.

(** A Secret that can be required by name: it is in order, and asks for
    something. *)
Definition usable s : Prop := sound s ∧ (conjur_map L s ≠ ∅ ∨ ¬ no_groups s).

Lemma collected_some s gs : groups_ok L s → collected L s gs → ¬ no_groups s → gs ≠ [].
Proof.
  intros Hok Hc Hno ->. apply Hno. intros k.
  destruct (group_annotation s k) as [v|] eqn:Hv; [exfalso|done].
  destruct (not_elem_of_nil k). apply (coll_all _ _ _ Hc). unfold group_specs. rewrite Hv. by apply (Hok k).
Qed.

Lemma retrieve_one_usable sched s p w :
  usable s → wp (retrieveRequiredK8sSecret L D sched s false) (λ r _, r = Ret tt) (p, w).
Proof.
  intros [[Hs Hv] Hask]. unfold retrieveRequiredK8sSecret. apply wp_bind. unfold wp at 1. cbn.
  apply wp_bind. unfold wp at 1.
  pose proof (process_groups_run L (sub sched 0) s (set_state p (record_original s (secretsState p))) w) as Hp.
  destruct (processSecretGroupAnnotations _ _ _ _) as [[[]|e|] [p1 w1]]; [|by destruct Hp|done].
  destruct Hp as (_ & gs & Hc & [= -> ->]). cbn [fst snd]. set (p1 := with_groups _ _ _).
  apply wp_bind. unfold wp at 1.
  pose proof (parse_keeps L D (loop sched 1) s p1 w) as Hk. unfold wp in Hk.
  pose proof (parse_valid L D (loop sched 1) s p1 w Hv) as Hb.
  destruct (parseConjurSecretsYAML _ _ _ _ _) as [r [p2 w2]]. cbn in Hb. subst r. cbn [fst snd].
  destruct Hk as [(_ & _ & Hg & _) _]. cbn in Hg. apply wp_bind. unfold wp, gets. cbn.
  rewrite decide_False; [done|]. intros [Hm He]. apply bool_decide_eq_false in Hm.
  destruct Hask as [?|Hno]; [done|]. rewrite Hg in He. subst p1. unfold with_groups in He. cbn in He.
  rewrite decide_False in He by by eapply collected_some. by apply insert_non_empty in He.
Qed.

Lemma retrieve_one_broken sched s p w l ss :
  broken l s → grouped ss (secretsGroups p) → (∀ s', s' ∈ ss → s' ∈ l) →
  ∃ e, retrieveRequiredK8sSecret L D sched s true (p, w) =
    (Fail e, (set_state p (record_original s (secretsState p)), w)).
Proof.
  intros Hb Hg Hl. unfold retrieveRequiredK8sSecret.
  set (p1 := set_state p (record_original s (secretsState p))).
  unfold mbind, M_bind. cbn [on_state on_provider modify fst snd]. fold p1.
  pose proof (process_groups_run L (sub sched 0) s p1 w) as Hp.
  destruct (processSecretGroupAnnotations _ _ _ _) as [[[]|e|] t]; [|destruct Hp as [_ ->]; by exists e|done].
  destruct Hp as (Hok & gs & Hc & ->). destruct Hb as [Hn|(Hno & Hb & Halone)]; [done|].
  rewrite (collected_none _ _ _ Hc Hno). unfold with_groups. rewrite decide_True by done.
  destruct (parse_broken L D (loop sched 1) s p1 w) as [e He]; [|done|].
  { destruct Halone as [?|Halone]; [by left|right]. cbn.
    eapply grouped_none; [done|]. intros s' Hs'. by apply Halone, Hl. }
  exists e. cbn [fst snd]. replace (mkProvider _ _ _) with p1 by (by destruct p1). by rewrite He.
Qed.

Lemma process_labelled_broken sched i s p l ss :
  broken l s → grouped ss (secretsGroups p) → (∀ s', s' ∈ ss → s' ∈ l) →
  originalK8sSecrets (secretsState p) !! secretName_ s = None →
  process_labelled L D sched (i, s) (p, w0) = (Ret tt, (p, w0)).
Proof.
  intros Hb Hg Hl Ho. unfold process_labelled, on_error. cbn [fst snd].
  destruct (retrieve_one_broken (sub sched i) s p w0 l ss Hb Hg Hl) as [e ->].
  unfold on_state, on_provider, modify, set_state, delete_original, record_original. cbn.
  rewrite delete_insert_id by done. by destruct p as [[] ].
Qed.

Lemma process_labelled_sound ss sched i s p :
  sound s → retrieved L D C w0 ss (secretsState p) → grouped ss (secretsGroups p) →
  cluster w0 (podNamespace C) (secretName_ s) = Some s →
  wp (process_labelled L D sched (i, s)) (λ r t, r = Ret tt ∧ t.2 = w0 ∧
    prevSecretsChecksums t.1 = prevSecretsChecksums p ∧
    retrieved L D C w0 (ss ++ [s]) (state_of t) ∧ grouped (ss ++ [s]) (secretsGroups t.1)) (p, w0).
Proof.
  intros Hs Hr Hg Hc. unfold process_labelled. apply wp_on_error. cbn [fst snd].
  eapply wp_mono; [apply wp_and; [apply wp_and; [apply retrieve_one_keeps|by apply retrieve_one_grouped]|
    apply wp_and; [by apply (retrieve_one_retrieved L D C w0 ss)|by apply retrieve_one_sound]]|].
  cbn. intros r [p2 w2] [[(Hw2 & _ & Hpr & _) Hg2] [Hret ->]]. cbn in *.
  destruct (Hg2 eq_refl) as [_ ?]. split_and!; try done. by apply Hret.
Qed.

(** A retrieval in label mode, without an error in the listing. *)
Lemma retrieve_all_labelled sched p :
  requiredK8sSecrets C = [] → secretsState p = empty_state → secretsGroups p = ∅ →
  (∀ l s, (listLabeledSecrets (k8s D) (podNamespace C) w0).1 = Ret l → s ∈ l → sound s ∨ broken l s) →
  wp (retrieveRequiredK8sSecrets L D C sched) (λ r t, r = Ret tt →
    ∃ l ss, (listLabeledSecrets (k8s D) (podNamespace C) w0).1 = Ret l ∧
      (∀ s, s ∈ ss ↔ s ∈ l ∧ sound s) ∧ retrieved L D C w0 ss (state_of t) ∧
      grouped ss (secretsGroups t.1)) (p, w0).
Proof.
  intros Hreq Hp Hg Hlist. unfold retrieveRequiredK8sSecrets. rewrite decide_True by done.
  apply wp_bind, wp_on_error. unfold wp at 1. rewrite call_k8s_run. cbn. rewrite list_world.
  pose proof (list_ok (podNamespace C) w0) as Hl.
  destruct (listLabeledSecrets _ _ w0).1 as [l|e|] eqn:Hrun; [|done..].
  destruct (Hl l eq_refl) as [Hnd Hc]. clear Hl.
  apply (wp_for_each_split (λ pre t, t.2 = w0 ∧ ∃ ss, (∀ s, s ∈ ss ↔ s ∈ pre.*2 ∧ sound s) ∧
    retrieved L D C w0 ss (state_of t) ∧ grouped ss (secretsGroups t.1))).
  - split; [done|]. exists []. unfold state_of. cbn. rewrite Hp, Hg.
    split_and!; [|apply retrieved_empty|apply grouped_empty].
    intros s. split; [by intros ?%not_elem_of_nil|by intros [?%not_elem_of_nil _]].
  - intros pre [i s] suf [p1 w1] Hpre (Hw & ss & Hss & Hr & Hg1). cbn in Hw. subst w1.
    apply (f_equal (fmap snd)) in Hpre. rewrite imap_pair_snd, fmap_app in Hpre. cbn in Hpre.
    assert (s ∈ l) as Hin by (rewrite <- Hpre; apply elem_of_app; right; by left).
    destruct (Hlist l s eq_refl Hin) as [Hs|Hb].
    + eapply wp_mono; [apply (process_labelled_sound ss); [done..|by apply Hc]|].
      cbn. intros r [p2 w2] (-> & Hw2 & _ & Hr2). cbn in *. split; [done|]. exists (ss ++ [s]).
      split; [|done]. intros s'. rewrite fmap_app, !elem_of_app, Hss. cbn.
      rewrite list_elem_of_singleton. naive_solver.
    + unfold wp. rewrite (process_labelled_broken _ _ _ _ l ss); [|done|done| |].
      * cbn. split; [done|]. exists ss. split; [|done]. intros s'.
        rewrite Hss, fmap_app, elem_of_app. cbn. rewrite list_elem_of_singleton.
        pose proof (sound_not_broken l s). naive_solver.
      * intros s' [Hs' _]%Hss. rewrite <- Hpre. apply elem_of_app. by left.
      * destruct (originalK8sSecrets (secretsState p1) !! secretName_ s) as [s'|] eqn:Ho; [|done].
        apply (retr_originals _ _ _ _ _ _ Hr) in Ho as [[Hs' _]%Hss Hn]. exfalso.
        rewrite <- Hpre, fmap_app in Hnd. apply NoDup_app in Hnd as (_ & Hnd & _).
        apply (Hnd (secretName_ s)); [|by left]. rewrite <- Hn. by apply list_elem_of_fmap_2.
  - intros t (_ & ss & Hss & Hr) _. exists l, ss. rewrite imap_pair_snd in Hss. done.
Qed.

(** With a list of required Secrets, a retrieval that succeeds has processed
    exactly those. *)
Lemma retrieve_all_required sched p :
  requiredK8sSecrets C ≠ [] → secretsState p = empty_state → secretsGroups p = ∅ →
  wp (retrieveRequiredK8sSecrets L D C sched) (λ r t, r = Ret tt →
    ∃ ss, secretName_ <$> ss = requiredK8sSecrets C ∧ retrieved L D C w0 ss (state_of t) ∧
      grouped ss (secretsGroups t.1)) (p, w0).
Proof.
  intros Hreq Hp Hg. unfold retrieveRequiredK8sSecrets. rewrite decide_False by done.
  apply (wp_for_each (λ pre t, t.2 = w0 ∧ ∃ ss, secretName_ <$> ss = pre.*2 ∧
    retrieved L D C w0 ss (state_of t) ∧ grouped ss (secretsGroups t.1))).
  - split; [done|]. exists []. unfold state_of. cbn. rewrite Hp, Hg.
    split_and!; [done|apply retrieved_empty|apply grouped_empty].
  - intros pre [i n] [p1 w1] _ [Hw (ss & Hss & Hr & Hg1)]. cbn in Hw. subst w1.
    unfold retrieve_by_name. apply wp_bind, wp_on_error. unfold wp at 1. rewrite call_k8s_run. cbn.
    rewrite retrieve_world. pose proof (retrieve_ok (podNamespace C) n w0) as Hl.
    destruct (retrieveSecret _ _ n w0).1 as [s|e|]; [|done|done].
    destruct (Hl s eq_refl) as [Hn Hc].
    eapply wp_mono; [apply wp_and; [apply wp_and; [apply retrieve_one_keeps|by apply (retrieve_one_grouped ss)]|
      by apply (retrieve_one_retrieved L D C w0 ss); [|rewrite Hn]]|].
    cbn. intros [[]|e|] [p2 w2] [[(Hw2 & _) Hg2] Hret]; [|done|done].
    destruct (Hg2 eq_refl) as [_ Hgs].
    split; [done|]. exists (ss ++ [s]). split_and!; [by rewrite !fmap_app, Hss, <- Hn|by apply Hret|done].
  - intros t [_ (ss & Hss & Hr)] _. exists ss. by rewrite Hss, imap_pair_snd.
Qed.

(** Why a retrieval fails: the listing failed, or a required Secret could not
    be read or is not usable. *)
Definition retrieval_failed : Prop :=
  if decide (requiredK8sSecrets C = [])
  then ∃ e, (listLabeledSecrets (k8s D) (podNamespace C) w0).1 = Fail e
  else ∃ n, n ∈ requiredK8sSecrets C ∧
    ∀ s, (retrieveSecret (k8s D) (podNamespace C) n w0).1 = Ret s → ¬ usable s.

Lemma retrieve_all_fails sched p :
  wp (retrieveRequiredK8sSecrets L D C sched) (λ r _, ∀ e, r = Fail e → retrieval_failed) (p, w0).
Proof.
  unfold retrieveRequiredK8sSecrets, retrieval_failed. destruct (decide (requiredK8sSecrets C = [])) as [|Hreq].
  - apply wp_bind, wp_on_error. unfold wp at 1. rewrite call_k8s_run. cbn.
    destruct (listLabeledSecrets _ _ w0).1 as [l|err|]; [|intros ? _; by exists err|done].
    apply (wp_for_each (λ _ _, True)); [done| |done]. intros _ [i s] [p1 w1] _ _.
    unfold process_labelled. apply wp_on_error. eapply wp_mono; [apply retrieve_one_keeps|].
    intros [[]|err|] t (_ & _ & _ & Hnp); [done|done|by destruct Hnp].
  - apply (wp_for_each (λ _ t, t.2 = w0)); [done| |done].
    intros _ [i n] [p1 w1] Hin Hw. apply elem_of_imap_pair in Hin. cbn in Hw. subst w1.
    unfold retrieve_by_name. apply wp_bind, wp_on_error. unfold wp at 1. rewrite call_k8s_run. cbn.
    rewrite retrieve_world. destruct (retrieveSecret _ _ n w0).1 as [s|err|] eqn:Hs; [| |done].
    + pose proof (retrieve_one_usable (sub sched i) s p1 w0) as Hu.
      eapply wp_mono; [apply wp_and; [apply retrieve_one_keeps|exact (wp_impl _ _ _ _ Hu)]|].
      cbn. intros [[]|err|] t [(Hw & _) Hret]; [done| |done].
      intros e' _. exists n. split; [done|]. intros s'. rewrite Hs. intros [= <-] Hus.
      by specialize (Hret Hus).
    + intros e' _. exists n. split; [done|]. intros s'. by rewrite Hs.
Qed.

(** The variables that the groups of a Secret name. *)
Definition group_asks s (x : string) : Prop :=
  ∃ k specs, group_specs L s k = Some specs ∧ x ∈ Path <$> specs.

Lemma grouped_variable ss st p x :
  retrieved L D C w0 ss st → grouped ss (secretsGroups p) →
  group_variable p x ↔ ∃ s, s ∈ ss ∧ group_asks s x.
Proof.
  intros Hr Hg. split.
  - intros (n & gs & g & spec & Hn & Hin & Hspec & <-).
    destruct (grp_of _ _ Hg n gs Hn) as (_ & s & Hs & _ & Hc). exists s. split; [done|].
    exists (Name g), (SecretSpecs g). split; [by apply (coll_specs _ _ _ Hc)|].
    by apply list_elem_of_fmap_2.
  - intros (s & Hs & k & specs & Hk & (spec & -> & Hspec)%list_elem_of_fmap).
    pose proof (grouped_secret _ _ _ _ Hr Hg Hs) as Hc.
    destruct (secretsGroups p !! secretName_ s) as [gs|] eqn:Hn; [|congruence].
    assert (k ∈ Name <$> gs) as (g & -> & Hin)%list_elem_of_fmap.
    { apply (coll_all _ _ _ Hc). by rewrite Hk. }
    exists (secretName_ s), gs, g, spec. split_and!; [done..| |done].
    rewrite (coll_specs _ _ _ Hc g Hin) in Hk. by injection Hk as ->.
Qed.
End retrieval.
