(* ===== verification/K8sData.v ===== *)
(** * The data written to the K8s Secrets

    What [createSecretData] and the rendering of group templates write, for
    every mix of named entries, fetch-all and group templates, in every
    iteration order of the maps it ranges over. *)

From S2P Require Import Prelude GoString GoBytes Config FileTemplates K8sClient.
From S2P Require Import K8sProvider K8sProviderSpec K8sKeys K8sGroups.
Open Scope Z_scope.

(** ** Writes

    Every loop of [createSecretData] comes down to a sequence of writes. A weak
    one, of fetch-all, does not replace a value that is set. *)
Record write := mkWrite {
  write_key : string * string;
  weak : bool;
  write_value : bytes
}.

Definition is_set (o : option bytes) : bool :=
  match o with Some (Some _) => true | _ => false end.

Definition apply_write (data : secrets_data) (w : write) : secrets_data :=
  if weak w && data_set data (write_key w).1 (write_key w).2 then data
  else set_entry (write_key w).1 (write_key w).2 (write_value w) data.

(** The effect of a write on the value of its key. *)
Definition write_over (w : write) (o : option bytes) : option bytes :=
  if weak w && is_set o then o else Some (write_value w).

Section writes.
Implicit Types (data : secrets_data) (w : write) (ws : list write) (nk : string * string).

Definition data_at data nk : option bytes := (data !!! nk.1) !! nk.2.

Lemma apply_write_touch data w nk :
  data_at (apply_write data w) nk =
  if decide (nk = write_key w) then write_over w (data_at data nk) else data_at data nk.
Proof.
  destruct w as [[n k] wk v], nk as [n' k']. unfold apply_write, write_over, data_at. cbn [fst snd write_key weak write_value].
  change (data_set data n k) with (is_set ((data !!! n) !! k)).
  destruct (decide ((n', k') = (n, k))) as [[= -> ->]|Hne].
  - destruct (wk && _); [done|]. rewrite lookup_set_entry. by rewrite decide_True.
  - destruct (wk && _); [done|]. rewrite lookup_set_entry. rewrite decide_False by naive_solver. done.
Qed.

Lemma data_at_empty nk : data_at ∅ nk = None.
Proof. unfold data_at. rewrite lookup_total_empty. apply lookup_empty. Qed.

(** No Secret gets an empty map. *)
Definition tight data : Prop := ∀ n, is_Some (data !! n) → data !!! n ≠ ∅.

Lemma tight_nonempty data n : tight data → is_Some (data !! n) ↔ data !!! n ≠ ∅.
Proof.
  intros Ht. split; [apply Ht|]. rewrite lookup_total_map.
  destruct (data !! n); [by eexists|by intros []].
Qed.

Lemma set_entry_tight n k v data : tight data → tight (set_entry n k v data).
Proof.
  intros Ht n'. unfold set_entry. destruct (decide (n' = n)) as [->|Hne].
  - intros _. rewrite lookup_total_insert_eq. apply insert_non_empty.
  - rewrite lookup_insert_ne, lookup_total_insert_ne by done. apply Ht.
Qed.

Lemma apply_writes_tight data ws : tight data → tight (foldl apply_write data ws).
Proof.
  revert data. induction ws as [|w ws IH]; intros data Ht; [done|]. cbn [foldl]. apply IH.
  unfold apply_write. destruct (_ && _); [done|]. by apply set_entry_tight.
Qed.

Lemma apply_write_some data w n :
  is_Some (apply_write data w !! n) ↔ is_Some (data !! n) ∨ (write_key w).1 = n.
Proof.
  unfold apply_write. destruct (weak w && _) eqn:Hw.
  - split; [by left|]. intros [?|<-]; [done|]. apply andb_true_iff in Hw as [_ Hs].
    unfold data_set in Hs. rewrite lookup_total_map in Hs.
    destruct (data !! _); [by eexists|]. cbn in Hs. by rewrite lookup_empty in Hs.
  - unfold set_entry. rewrite lookup_insert_is_Some. destruct (decide ((write_key w).1 = n)); naive_solver.
Qed.

Lemma apply_writes_some data ws n :
  is_Some (foldl apply_write data ws !! n) ↔
  is_Some (data !! n) ∨ ∃ w, w ∈ ws ∧ (write_key w).1 = n.
Proof.
  induction ws as [|w ws IH] using rev_ind; cbn [foldl].
  - split; [by left|]. intros [?|(w & ?%not_elem_of_nil & _)]; done.
  - rewrite foldl_snoc, apply_write_some, IH. setoid_rewrite elem_of_app.
    setoid_rewrite list_elem_of_singleton. naive_solver.
Qed.

(** The writes [ws] that reach the entry [nk]. *)
Definition reaches ws nk w : Prop := w ∈ ws ∧ write_key w = nk.

Lemma reaches_snoc ws w0 nk w :
  reaches (ws ++ [w0]) nk w ↔ reaches ws nk w ∨ (w = w0 ∧ write_key w0 = nk).
Proof. unfold reaches. rewrite elem_of_app, list_elem_of_singleton. naive_solver. Qed.

Lemma reaches_app ws ws' nk w :
  reaches (ws ++ ws') nk w ↔ reaches ws nk w ∨ reaches ws' nk w.
Proof. unfold reaches. rewrite elem_of_app. naive_solver. Qed.

Lemma apply_snoc data ws w nk :
  data_at (foldl apply_write data (ws ++ [w])) nk =
  if decide (nk = write_key w) then write_over w (data_at (foldl apply_write data ws) nk)
  else data_at (foldl apply_write data ws) nk.
Proof. by rewrite foldl_snoc, apply_write_touch. Qed.

(** A value is the old one or was written. *)
Lemma writes_origin data ws nk v :
  data_at (foldl apply_write data ws) nk = Some v →
  data_at data nk = Some v ∨ ∃ w, reaches ws nk w ∧ v = write_value w.
Proof.
  induction ws as [|w0 ws IH] using rev_ind; [by left|]. rewrite apply_snoc.
  setoid_rewrite reaches_snoc. destruct (decide _) as [->|Hne]; [|naive_solver].
  unfold write_over. destruct (_ && _); [naive_solver|]. intros [= <-]. right. exists w0. auto.
Qed.

Lemma writes_untouched data ws nk :
  (∀ w, ¬ reaches ws nk w) → data_at (foldl apply_write data ws) nk = data_at data nk.
Proof.
  induction ws as [|w0 ws IH] using rev_ind; [done|]. setoid_rewrite reaches_snoc. intros Hno.
  rewrite apply_snoc, decide_False by naive_solver. apply IH. naive_solver.
Qed.

Lemma writes_present data ws nk :
  is_Some (data_at data nk) ∨ (∃ w, reaches ws nk w) →
  is_Some (data_at (foldl apply_write data ws) nk).
Proof.
  induction ws as [|w0 ws IH] using rev_ind.
  { by intros [?|(w & ?%not_elem_of_nil & _)]. }
  setoid_rewrite reaches_snoc. rewrite apply_snoc. intros H.
  destruct (decide _) as [->|Hne]; [|apply IH; naive_solver].
  unfold write_over. destruct (weak w0 && _) eqn:Hw; [|by eexists].
  apply andb_true_iff in Hw as [_ Hs]. clear IH H. by destruct (data_at _ _).
Qed.

(** The strong writes of a key win, when they agree on a value that is set. *)
Lemma writes_strong data ws nk b :
  (∃ w, reaches ws nk w ∧ weak w = false) →
  (∀ w, reaches ws nk w → weak w = false → write_value w = Some b) →
  data_at (foldl apply_write data ws) nk = Some (Some b).
Proof.
  induction ws as [|w0 ws IH] using rev_ind.
  { by intros (w & [?%not_elem_of_nil _] & _). }
  setoid_rewrite reaches_snoc. rewrite apply_snoc. intros Hex Hall.
  destruct (decide _) as [->|Hne]; [|apply IH; naive_solver].
  unfold write_over. destruct (weak w0) eqn:Hw; cbn [andb].
  - rewrite IH; [done| |naive_solver]. destruct Hex as (w & [?|[-> _]] & ?); [by exists w|congruence].
  - f_equal. apply Hall; [by right|done].
Qed.

(** Without strong writes the first value that is set stays. *)
Lemma writes_weak_kept data ws nk :
  (∀ w, reaches ws nk w → weak w = true) → is_set (data_at data nk) = true →
  data_at (foldl apply_write data ws) nk = data_at data nk.
Proof.
  induction ws as [|w0 ws IH] using rev_ind; [done|]. setoid_rewrite reaches_snoc.
  rewrite apply_snoc. intros Hall Hs. specialize (IH ltac:(naive_solver) Hs).
  destruct (decide _) as [->|Hne]; [|done]. unfold write_over. rewrite Hall by naive_solver.
  by rewrite IH, Hs.
Qed.

Lemma writes_weak_set data ws nk :
  (∀ w, reaches ws nk w → weak w = true) →
  (∃ w b, reaches ws nk w ∧ write_value w = Some b) →
  is_set (data_at (foldl apply_write data ws) nk) = true.
Proof.
  induction ws as [|w0 ws IH] using rev_ind.
  { by intros _ (w & b & [?%not_elem_of_nil _] & _). }
  setoid_rewrite reaches_snoc. rewrite apply_snoc. intros Hall (w & b & Hr & Hv).
  destruct (decide _) as [->|Hne]; [|apply IH; naive_solver].
  unfold write_over. rewrite Hall by naive_solver. cbn [andb].
  destruct (is_set _) eqn:Hs; [done|]. destruct Hr as [Hr|[-> _]]; [|by rewrite Hv].
  rewrite IH in Hs; naive_solver.
Qed.
End writes.

(** ** The entries of one Secret *)
Section entries.
Context (C : provider_config) (conj : gmap string bytes).
(** The destinations of the Secret with their variables, and its data. *)
Context (feed : string → updateDestination → Prop) (original : option (gmap string bytes)).

(** The key [k] is named, and the value of its variable comes to [o]. *)
Definition named (k : string) (o : option bytes) : Prop :=
  ∃ var d, feed var d ∧ secretName d = k ∧ k ≠ "*" ∧
    wanted (sanitizeEnabled C) d (conj !! var) = o.

(** [v] is the value of a fetched variable whose normalized name is [k]. *)
Definition normalized_value (d : updateDestination) (k : string) (v : bytes) : Prop :=
  ∃ x y, conj !! x = Some y ∧ normalizeK8sSecretName x = k ∧ v = dest_value d y.

(** Sanitizing empties the keys that a fetch-all Secret already has. *)
Definition wiped (k : string) : Prop :=
  sanitizeEnabled C = true ∧ k ≠ ConjurMapKey ∧ is_Some (nilmap_lookup original k).

(** Fetch-all gives the key [k] the value [v]: that of a variable, or the empty
    value where no variable has one. *)
Definition fetched (k : string) (v : bytes) : Prop :=
  ∃ d, feed "*" d ∧
    (normalized_value d k v ∧ (v = None → ¬ wiped k) ∨
     wiped k ∧ v = Some "" ∧ ∀ v', normalized_value d k v' → v' = None).

(** A named key whose value is determined wins over fetch-all. *)
Definition base_entry (k : string) (v : bytes) : Prop :=
  named k (Some v) ∨ (∀ b, ¬ named k (Some (Some b))) ∧ fetched k v.
End entries.

(** The fetch-all variable and the fetch-all key only occur together. *)
Definition star_ok (feed : string → updateDestination → Prop) : Prop :=
  ∀ v d, feed v d → v = "*" ↔ secretName d = "*".

(** The destinations that the state lists for the Secret [n]. *)
Definition listed_feed (st : k8sSecretsState) (n v : string) (d : updateDestination) : Prop :=
  d ∈ updateDestinations st !!! v ∧ k8sSecretName d = n.

(** *** The writes of [createSecretData] *)
Lemma foldl_fmap {A B X} (f : B → X → B) (h : A → X) b l :
  foldl f b (h <$> l) = foldl (λ b' a, f b' (h a)) b l.
Proof. revert b. induction l as [|a l IH]; intros b; [done|apply IH]. Qed.

Lemma foldl_ext_in {A B} (f g : B → A → B) b l :
  (∀ b' a, a ∈ l → f b' a = g b' a) → foldl f b l = foldl g b l.
Proof.
  revert b. induction l as [|a l IH]; intros b H; [done|]. cbn. rewrite H by by left.
  apply IH. intros b' a' Ha'. apply H. by right.
Qed.

(** A loop whose bodies are loops that all return under an invariant. *)
Lemma fold_outcome_bind {E A B X} (P : B → Prop) (f : B → A → outcome E B) (g : B → X → B)
    (h : A → list X) b l :
  (∀ b' x, P b' → P (g b' x)) → P b →
  (∀ b' a, a ∈ l → P b' → f b' a = Ret (foldl g b' (h a))) →
  fold_outcome f b l = Ret (foldl g b (l ≫= h)) ∧ P (foldl g b (l ≫= h)).
Proof.
  intros Hg Hb Hf. rewrite foldl_bind.
  assert (∀ b' xs, P b' → P (foldl g b' xs)) as Hgs.
  { intros b' xs. revert b'. induction xs as [|x xs IH]; intros b' Hb'; [done|by apply IH, Hg]. }
  apply (fold_outcome_inv P _ (λ b' a, foldl g b' (h a))); [done|].
  intros b' a Ha Hb'. split; [by apply Hf|by apply Hgs].
Qed.

(** The same without the invariant: the loops may panic instead. *)
Lemma fold_outcome_bind_or_panic {E A B X} (f : B → A → outcome E B) (g : B → X → B)
    (h : A → list X) b l :
  (∀ b' a, a ∈ l → f b' a = Ret (foldl g b' (h a)) ∨ f b' a = Panic) →
  fold_outcome f b l = Ret (foldl g b (l ≫= h)) ∨ fold_outcome f b l = Panic.
Proof.
  rewrite foldl_bind. revert b. induction l as [|a l IH]; intros b Hf; [by left|].
  cbn [fold_outcome foldl]. destruct (Hf b a) as [-> | ->]; [by left| |by right].
  cbn. apply IH. intros b' a' Ha'. apply Hf. by right.
Qed.

Section create.
Context (C : provider_config) (sched : schedule) (st : k8sSecretsState) (conj : gmap string bytes).

Abbreviation dests := (updateDestinations st).

Definition fetch_write (kv : string * bytes) (d : updateDestination) : write :=
  if decide (secretName d = "*")
  then mkWrite (k8sSecretName d, normalizeK8sSecretName kv.1) true (dest_value d kv.2)
  else mkWrite (dest_key d) false (dest_value d kv.2).

Definition fetch_writes : list write :=
  range (loop sched 0) conj ≫= λ kv,
    fetch_write kv <$> (dests !!! kv.1) ++
      match dests !! "*" with Some fetch_all => fetch_all | None => [] end.

Definition wipe_write (n key : string) : list write :=
  if decide (key = ConjurMapKey) then [] else [mkWrite (n, key) true (Some "")].

Definition sanitize_writes (o : range_order) (var : string) (d : updateDestination) : list write :=
  if decide (secretName d = "*") then
    match originalK8sSecrets st !! k8sSecretName d with
    | None => []
    | Some original =>
        (range o (nilmap (Data original))).*1 ≫= wipe_write (k8sSecretName d)
    end
  else match bytes_at conj var with
       | Some _ => []
       | None => [mkWrite (dest_key d) false (Some "")]
       end.

Definition all_writes : list write :=
  fetch_writes ++
  (if sanitizeEnabled C then
     imap pair (range (loop sched 1) dests) ≫= λ ivds,
       imap pair ivds.2.2 ≫= λ jd,
         sanitize_writes (loop (sub (sub sched 2) ivds.1) jd.1) ivds.2.1 jd.2
   else []).

Lemma write_dest_write v x data d : write_dest v x data d = apply_write data (fetch_write (v, x) d).
Proof.
  unfold write_dest, fetch_write, apply_write. destruct (decide _); cbn [weak write_key write_value fst snd andb].
  - change (data_set (<[k8sSecretName d := data !!! k8sSecretName d]> data) (k8sSecretName d)
      (normalizeK8sSecretName v)) with (is_set ((<[k8sSecretName d := data !!! k8sSecretName d]> data
        !!! k8sSecretName d) !! normalizeK8sSecretName v)).
    rewrite lookup_total_insert_eq.
    change (is_set ((data !!! k8sSecretName d) !! normalizeK8sSecretName v))
      with (data_set data (k8sSecretName d) (normalizeK8sSecretName v)).
    destruct (data_set data _ _) eqn:Hs; [|apply set_entry_made].
    apply insert_id. unfold data_set in Hs. rewrite lookup_total_map in Hs |- *.
    destruct (data !! _); [done|]. cbn in Hs. by rewrite lookup_empty in Hs.
  - apply set_entry_made.
Qed.

Lemma fetch_writes_fold data :
  foldl (write_variable dests) data (range (loop sched 0) conj) = foldl apply_write data fetch_writes.
Proof.
  unfold fetch_writes. rewrite foldl_bind. apply foldl_ext_in. intros data' [v x] _.
  rewrite foldl_fmap. unfold write_variable. apply foldl_ext_in. intros. apply write_dest_write.
Qed.

Lemma elem_of_star_dests d :
  d ∈ match dests !! "*" with Some fetch_all => fetch_all | None => [] end ↔ d ∈ dests !!! "*".
Proof. rewrite lookup_total_default. by destruct (dests !! "*"). Qed.

Lemma elem_of_fetch_writes w :
  w ∈ fetch_writes ↔ ∃ v x d, conj !! v = Some x ∧ (d ∈ dests !!! v ∨ d ∈ dests !!! "*") ∧
    w = fetch_write (v, x) d.
Proof.
  unfold fetch_writes. rewrite list_elem_of_bind. split.
  - intros ([v x] & Hw & Hr%elem_of_range). apply list_elem_of_fmap in Hw as (d & -> & Hd).
    rewrite elem_of_app, elem_of_star_dests in Hd. by exists v, x, d.
  - intros (v & x & d & Hv & Hd & ->). exists (v, x). split; [|by apply elem_of_range].
    apply list_elem_of_fmap_2, elem_of_app. by rewrite elem_of_star_dests.
Qed.

(** Wiping dereferences the original of a fetch-all destination and the data
    that the fetch has made for it. *)
Definition wipeable (data : secrets_data) : Prop :=
  ∀ v d, d ∈ dests !!! v → secretName d = "*" →
    is_Some (originalK8sSecrets st !! k8sSecretName d) ∧ is_Some (data !! k8sSecretName d).

Lemma wipeable_write data w : wipeable data → wipeable (apply_write data w).
Proof.
  intros Hd v d Hin Hs. destruct (Hd v d Hin Hs) as [? ?]. split; [done|].
  apply apply_write_some. by left.
Qed.

Lemma wipe_key_write n data key :
  is_Some (data !! n) → wipe_key n data key = Ret (foldl apply_write data (wipe_write n key)).
Proof.
  intros [m Hm]. unfold wipe_key, wipe_write. destruct (decide (key = ConjurMapKey)) as [->|Hne].
  - by rewrite decide_False by by intros [? _].
  - cbn [foldl]. unfold apply_write. cbn. rewrite Hm.
    destruct (data_set data n key); [by rewrite decide_False by by intros [_ ?]|].
    by rewrite decide_True by done.
Qed.

Lemma sanitize_dest_writes sched' v data jd :
  wipeable data → jd.2 ∈ dests !!! v →
  sanitize_dest sched' (originalK8sSecrets st) conj v data jd =
  Ret (foldl apply_write data (sanitize_writes (loop sched' jd.1) v jd.2)).
Proof.
  intros Hd Hin. unfold sanitize_dest, sanitize_writes. destruct (decide _) as [Hs|Hs].
  - destruct (Hd v jd.2 Hin Hs) as [[original ->] Hsome].
    apply (fold_outcome_bind (λ data', is_Some (data' !! k8sSecretName jd.2))); [|done|].
    + intros data' w ?. apply apply_write_some. by left.
    + intros data' key _ ?. by apply wipe_key_write.
  - by destruct (bytes_at conj v).
Qed.

Lemma createSecretData_writes :
  (sanitizeEnabled C = true → wipeable (foldl apply_write ∅ fetch_writes)) →
  createSecretData C sched st conj = Ret (foldl apply_write ∅ all_writes).
Proof.
  intros Hw. unfold createSecretData, all_writes. rewrite fetch_writes_fold, foldl_app.
  destruct (sanitizeEnabled C); [|done].
  apply (fold_outcome_bind wipeable); [apply wipeable_write|by apply Hw|].
  intros data [i [v ds]] Hin%elem_of_imap_pair Hd. apply elem_of_range in Hin.
  unfold sanitize_variable. cbn [fst snd].
  apply (fold_outcome_bind wipeable); [apply wipeable_write|done|].
  intros data' [j d] Hj%elem_of_imap_pair Hd'. apply (sanitize_dest_writes _ v data' (j, d)); [done|].
  by rewrite (lookup_total_correct _ _ _ Hin).
Qed.

Lemma createSecretData_or_panic :
  createSecretData C sched st conj = Ret (foldl apply_write ∅ all_writes) ∨
  createSecretData C sched st conj = Panic.
Proof.
  unfold createSecretData, all_writes. rewrite fetch_writes_fold, foldl_app.
  destruct (sanitizeEnabled C); [|by left].
  apply fold_outcome_bind_or_panic. intros data [i [v ds]] _. unfold sanitize_variable. cbn [fst snd].
  apply fold_outcome_bind_or_panic. intros data' [j d] _.
  unfold sanitize_dest, sanitize_writes. cbn [fst snd]. destruct (decide _).
  - destruct (_ !! k8sSecretName d) as [s|]; [|by right].
    apply fold_outcome_bind_or_panic. intros data'' key _.
    destruct (data'' !! k8sSecretName d) eqn:Hn; [left; by apply wipe_key_write|].
    unfold wipe_key, wipe_write. rewrite Hn. destruct (decide (key = ConjurMapKey)) as [->|].
    + left. by rewrite decide_False by by intros [? _].
    + destruct (decide _) as [|Hne]; [by right|]. destruct Hne. split; [done|].
      unfold data_set. rewrite lookup_total_map, Hn. cbn. by rewrite lookup_empty.
  - left. by destruct (bytes_at conj v).
Qed.
End create.

(** *** The entry that the writes of one key leave *)
Section one_key.
Context (C : provider_config) (conj : gmap string bytes).
Context (feed : string → updateDestination → Prop) (original : option (gmap string bytes)).
Hypothesis feed_unique : ∀ v v' d d',
  feed v d → feed v' d' → secretName d = secretName d' → v = v' ∧ d = d'.
Context (k : string).

(** The values of the strong and weak writes that fetching makes for [k], and
    of those that sanitizing makes. *)
Definition fetch_strong (v : bytes) : Prop :=
  ∃ var x d, feed var d ∧ secretName d = k ∧ k ≠ "*" ∧ conj !! var = Some x ∧ v = dest_value d x.
Definition fetch_weak (v : bytes) : Prop := ∃ d, feed "*" d ∧ normalized_value conj d k v.
Definition sanitize_strong (v : bytes) : Prop :=
  sanitizeEnabled C = true ∧ v = Some "" ∧
  ∃ var d, feed var d ∧ secretName d = k ∧ k ≠ "*" ∧ bytes_at conj var = None.
Definition sanitize_weak (v : bytes) : Prop :=
  wiped C original k ∧ v = Some "" ∧ ∃ d, feed "*" d.

Lemma named_write v :
  named C conj feed k (Some v) → fetch_strong v ∨ sanitize_strong v.
Proof.
  intros (var & d & Hf & Hk & Hs & Hw). unfold wanted in Hw.
  destruct (conj !! var) as [[x|]|] eqn:Hx.
  - left. exists var, (Some x), d. naive_solver.
  - destruct (sanitizeEnabled C) eqn:Hsan; simplify_eq; [right|left; by exists var, None, d].
    do 2 (split; [done|]). exists var, d. unfold bytes_at. by rewrite Hx.
  - destruct (sanitizeEnabled C) eqn:Hsan; simplify_eq. right.
    do 2 (split; [done|]). exists var, d. unfold bytes_at. by rewrite Hx.
Qed.

Lemma named_unique o o' : named C conj feed k o → named C conj feed k o' → o = o'.
Proof.
  intros (v & d & Hf & Hk & _ & <-) (v' & d' & Hf' & Hk' & _ & <-).
  destruct (feed_unique v v' d d') as [-> ->]; congruence.
Qed.

Lemma dest_value_set d x : dest_value d (Some x) ≠ None.
Proof. unfold dest_value. destruct (decide _); [|done]. by destruct (DecodeString _). Qed.

(** A strong write comes from a named key: either the value of that key is
    determined, or it is the nil value that Conjur returned. *)
Lemma strong_named v :
  fetch_strong v ∨ sanitize_strong v →
  (∃ b, named C conj feed k (Some (Some b))) ∨
  (sanitizeEnabled C = false ∧ v = None ∧ named C conj feed k (Some None)).
Proof.
  intros [(var & x & d & Hf & Hk & Hs & Hx & ->)|(Hsan & -> & var & d & Hf & Hk & Hs & Hx)].
  - destruct (wanted (sanitizeEnabled C) d (conj !! var)) as [[b|]|] eqn:Hw.
    + left. exists b. by exists var, d.
    + right. rewrite Hx in Hw. cbn in Hw. destruct x as [x|].
      { injection Hw as Hw. by destruct (dest_value_set d x). }
      destruct (sanitizeEnabled C) eqn:Hsan; [done|]. injection Hw as Hw.
      split_and!; [done|done|]. exists var, d. rewrite Hx, Hsan. cbn. by rewrite Hw.
    + rewrite Hx in Hw. cbn in Hw. by destruct x, (sanitizeEnabled C).
  - left. exists "", var, d. split_and!; [done..|]. unfold bytes_at in Hx. rewrite Hsan.
    by destruct (conj !! var) as [[]|].
Qed.

Context (nk : string * string) (l1 l2 : list write).
Hypothesis l1_strong : ∀ v, mkWrite nk false v ∈ l1 ↔ fetch_strong v.
Hypothesis l1_weak : ∀ v, mkWrite nk true v ∈ l1 ↔ fetch_weak v.
Hypothesis l2_strong : ∀ v, mkWrite nk false v ∈ l2 ↔ sanitize_strong v.
Hypothesis l2_weak : ∀ v, mkWrite nk true v ∈ l2 ↔ sanitize_weak v.

Abbreviation final := (data_at (foldl apply_write ∅ (l1 ++ l2)) nk).

Lemma strong_writes w :
  reaches (l1 ++ l2) nk w → weak w = false →
  fetch_strong (write_value w) ∨ sanitize_strong (write_value w).
Proof.
  destruct w as [nk' b v]. unfold reaches. cbn. intros [Hin ->] ->.
  rewrite <- l1_strong, <- l2_strong. by apply elem_of_app.
Qed.

Lemma weak_writes w :
  reaches (l1 ++ l2) nk w → weak w = true →
  fetch_weak (write_value w) ∨ sanitize_weak (write_value w).
Proof.
  destruct w as [nk' b v]. unfold reaches. cbn. intros [Hin ->] ->.
  rewrite <- l1_weak, <- l2_weak. by apply elem_of_app.
Qed.

(** A named key with a determined value. *)
Lemma determined_entry b : named C conj feed k (Some (Some b)) → final = Some (Some b).
Proof.
  intros Hb. pose proof (named_write _ Hb) as Hw.
  destruct (decide (Exists (λ w, write_key w = nk ∧ weak w = false) l2)) as [Hex|Hno];
    rewrite Exists_exists in *.
  - rewrite foldl_app. destruct Hex as ([nk' [] v] & Hin & Hk & [=]). cbn in Hk. subst nk'.
    apply writes_strong; [by exists (mkWrite nk false v)|].
    intros [nk' [] v'] [Hin' Hk'] [=]. cbn in *. subst nk'.
    apply l2_strong in Hin' as (Hsan & -> & var & d & Hf & Hd & Hs & Hx).
    assert (named C conj feed k (Some (Some ""))) as Hn.
    { exists var, d. split_and!; [done..|]. unfold bytes_at in Hx. rewrite Hsan.
      by destruct (conj !! var) as [[]|]. }
    by pose proof (named_unique _ _ Hb Hn) as [= <-].
  - assert (∀ v, ¬ sanitize_strong v) as Hns.
    { intros v Hv. apply Hno. exists (mkWrite nk false v). split; [by apply l2_strong|done]. }
    destruct Hw as [Hw|Hw]; [|by apply Hns in Hw].
    apply writes_strong.
    + exists (mkWrite nk false (Some b)). split; [|done]. split; [|done].
      apply elem_of_app. left. by apply l1_strong.
    + intros w Hr Hwk. destruct (strong_writes w Hr Hwk) as [Hs|Hs]; [|by apply Hns in Hs].
      destruct Hs as (var & x & d & Hf & Hd & Hs & Hx & ->).
      destruct Hb as (var' & d' & Hf' & Hd' & _ & Hw').
      destruct (feed_unique var' var d' d) as [-> ->]; [done..|congruence|].
      rewrite Hx in Hw'. cbn in Hw'. destruct x as [x|]; [congruence|].
      destruct (sanitizeEnabled C) eqn:Hsan; [|congruence].
      destruct (Hns (Some "")). do 2 (split; [done|]). exists var, d.
      unfold bytes_at. by rewrite Hx.
Qed.

(** A key that fetch-all alone writes. *)
Lemma fetched_entry v :
  (∀ w, reaches (l1 ++ l2) nk w → weak w = true) → final = Some v →
  fetched C conj feed original k v.
Proof.
  intros Hall Hv.
  assert (∀ w, reaches l1 nk w → fetch_weak (write_value w)) as H1.
  { intros [nk' b v'] [Hin Hk]. cbn in *. subst nk'. destruct b; [by apply l1_weak|].
    exfalso. assert (weak (mkWrite nk false v') = true); [|done]. apply Hall, reaches_app. by left. }
  set (obs := data_at (foldl apply_write ∅ l1) nk).
  assert (final = data_at (foldl apply_write (foldl apply_write ∅ l1) l2) nk) as Hfinal
    by by rewrite foldl_app.
  rewrite Hfinal in Hv. clear Hfinal.
  assert (∀ w, reaches l2 nk w → weak w = true) as Hall2.
  { intros w Hw. apply Hall, reaches_app. by right. }
  assert (∀ v', obs = Some v' → fetch_weak v') as Hobs.
  { intros v' [Hn|(w & Hw & ->)]%writes_origin; [|by apply H1]. by rewrite data_at_empty in Hn. }
  destruct (is_set obs) eqn:Hset.
  - rewrite writes_weak_kept in Hv by done. destruct (Hobs v Hv) as (d & Hf & Hn).
    exists d. split; [done|]. left. split; [done|]. intros ->. fold obs in Hv. by rewrite Hv in Hset.
  - assert (∀ v', fetch_weak v' → v' = None) as Hnil.
    { intros [b|] Hb; [|done]. exfalso. unfold obs in Hset. rewrite writes_weak_set in Hset; [done| |].
      - intros w Hw. apply Hall, reaches_app. by left.
      - exists (mkWrite nk true (Some b)), b. split; [|done]. split; [by apply l1_weak|done]. }
    apply writes_origin in Hv as Hor. destruct Hor as [Ho|([nk' b v'] & [Hin Hk] & ->)].
    + destruct (Hobs v Ho) as (d & Hf & Hn). exists d. split; [done|]. left. split; [done|].
      intros -> Hwi. assert (is_set (Some None : option bytes) = true); [|done].
      rewrite <- Hv. apply writes_weak_set; [done|].
      exists (mkWrite nk true (Some "")), "". split; [|done]. split; [|done].
      apply l2_weak. do 2 (split; [done|]). by exists d.
    + cbn in *. subst nk'. destruct b.
      * apply l2_weak in Hin as (Hwi & -> & d & Hf). exists d. split; [done|]. right.
        do 2 (split; [done|]). intros v' Hn. apply Hnil. by exists d.
      * by specialize (Hall2 (mkWrite nk false v') ltac:(by split)).
Qed.

(** The entry, whatever writes reach it. *)
Lemma key_entry :
  match final with
  | Some v => base_entry C conj feed original k v
  | None => ∀ v, ¬ base_entry C conj feed original k v
  end.
Proof.
  destruct final as [v|] eqn:Hv.
  - destruct (decide (Exists (λ w, write_key w = nk ∧ weak w = false) (l1 ++ l2))) as [Hex|Hno];
      rewrite Exists_exists in *.
    + destruct Hex as (w & Hin & Hk & Hw).
      destruct (strong_named _ (strong_writes w (Logic.conj Hin Hk) Hw)) as [[b Hb]|(Hsan & Hnil & Hn)].
      * left. rewrite (determined_entry b Hb) in Hv. by injection Hv as <-.
      * apply writes_origin in Hv as [He|(w' & Hr & ->)]; [by rewrite data_at_empty in He|].
        assert (∀ v', ¬ sanitize_strong v' ∧ ¬ sanitize_weak v') as Hns.
        { intros v'. split; [intros [? _]|intros [[? _] _]]; congruence. }
        destruct (weak w') eqn:Hw'.
        -- destruct (weak_writes w' Hr Hw') as [(d & Hf & Hd)|Hs]; [|by apply Hns in Hs].
           right. split; [intros b Hb; by pose proof (named_unique _ _ Hb Hn)|].
           exists d. split; [done|]. left. split; [done|]. intros _ [? _]. congruence.
        -- left. destruct (strong_named _ (strong_writes w' Hr Hw')) as [[b Hb]|(_ & -> & _)]; [|done].
           by pose proof (named_unique _ _ Hb Hn).
    + assert (∀ w, reaches (l1 ++ l2) nk w → weak w = true) as Hall.
      { intros w [Hin Hk]. destruct (weak w) eqn:Hw; [done|]. destruct Hno. by exists w. }
      right. split; [|by apply fetched_entry].
      intros b [Hs|Hs]%named_write; apply Hno; exists (mkWrite nk false (Some b)); split_and!; try done;
        apply elem_of_app; [left; by apply l1_strong|right; by apply l2_strong].
  - intros v Hb. assert (is_Some final) as [? ?]; [|congruence].
    apply writes_present. right. setoid_rewrite reaches_app. unfold reaches.
    destruct Hb as [[Hs|Hs]%named_write|[_ (d & Hf & [[Hn _]|(Hw & -> & _)])]].
    + exists (mkWrite nk false v). left. split; [by apply l1_strong|done].
    + exists (mkWrite nk false v). right. split; [by apply l2_strong|done].
    + exists (mkWrite nk true v). left. split; [apply l1_weak; by exists d|done].
    + exists (mkWrite nk true (Some "")). right. split; [|done]. apply l2_weak.
      do 2 (split; [done|]). by exists d.
Qed.
End one_key.

(** ** [createSecretData] *)
Section spec.
Context (C : provider_config) (sched : schedule) (st : k8sSecretsState) (conj : gmap string bytes).
Abbreviation dests := (updateDestinations st).
Hypothesis paired : ∀ n, star_ok (listed_feed st n).

Lemma paired_dest v d : d ∈ dests !!! v → v = "*" ↔ secretName d = "*".
Proof. intros Hd. by apply (paired (k8sSecretName d)). Qed.

Lemma fetch_writes_strong n k v :
  mkWrite (n, k) false v ∈ fetch_writes sched st conj ↔ fetch_strong conj (listed_feed st n) k v.
Proof.
  rewrite elem_of_fetch_writes. split.
  - intros (var & x & d & Hx & Hd & Hw). unfold fetch_write, dest_key in Hw.
    destruct (decide (secretName d = "*")) as [|Hs]; [done|]. injection Hw as -> -> ->.
    destruct Hd as [Hd|Hd]; [|by apply paired_dest in Hd; destruct Hs; apply Hd].
    by exists var, x, d.
  - intros (var & x & d & [Hd <-] & <- & Hs & Hx & ->). exists var, x, d.
    split_and!; [done|by left|]. unfold fetch_write. by rewrite decide_False.
Qed.

Lemma fetch_writes_weak n k v :
  mkWrite (n, k) true v ∈ fetch_writes sched st conj ↔ fetch_weak conj (listed_feed st n) k v.
Proof.
  rewrite elem_of_fetch_writes. split.
  - intros (var & x & d & Hx & Hd & Hw). unfold fetch_write, dest_key in Hw.
    destruct (decide (secretName d = "*")) as [Hs|Hs]; [|done]. injection Hw as -> -> ->.
    exists d. split; [|by exists var, x]. split; [|done].
    destruct Hd as [Hd|Hd]; [|done]. apply paired_dest in Hd as Hv. by rewrite (proj2 Hv Hs) in Hd.
  - intros (d & [Hd <-] & x & y & Hx & <- & ->). exists x, y, d. split_and!; [done|by right|].
    unfold fetch_write. rewrite decide_True; [done|]. by apply (paired_dest "*").
Qed.

Definition sanitizing : list write :=
  if sanitizeEnabled C then
    imap pair (range (loop sched 1) dests) ≫= λ ivds,
      imap pair ivds.2.2 ≫= λ jd,
        sanitize_writes st conj (loop (sub (sub sched 2) ivds.1) jd.1) ivds.2.1 jd.2
  else [].

Lemma elem_of_sanitizing w :
  w ∈ sanitizing ↔ sanitizeEnabled C = true ∧
    ∃ v d o, d ∈ dests !!! v ∧ w ∈ sanitize_writes st conj o v d ∧
      ∀ o', w ∈ sanitize_writes st conj o' v d.
Proof.
  assert (∀ o o' v d, w ∈ sanitize_writes st conj o v d → w ∈ sanitize_writes st conj o' v d) as Ho.
  { intros o o' v d. unfold sanitize_writes. destruct (decide _); [|done].
    destruct (_ !! k8sSecretName d) as [s|]; [|done]. rewrite !list_elem_of_bind.
    by setoid_rewrite elem_of_range_keys. }
  unfold sanitizing. destruct (sanitizeEnabled C).
  - rewrite list_elem_of_bind. split.
    + intros ([i [v ds]] & Hw & Hin%elem_of_imap_pair). apply elem_of_range in Hin. cbn in Hw.
      apply list_elem_of_bind in Hw as ([j d] & Hw & Hd%elem_of_imap_pair). cbn in *.
      split; [done|]. eexists v, d, _. rewrite (lookup_total_correct _ _ _ Hin).
      split_and!; [done|done|]. intros o'. by eapply Ho.
    + intros (_ & v & d & o & Hd & _ & Hw). rewrite lookup_total_default in Hd.
      destruct (dests !! v) as [ds|] eqn:Hv; [|by apply not_elem_of_nil in Hd]. cbn in Hd.
      apply (elem_of_range (loop sched 1)) in Hv. rewrite <- (imap_pair_snd (range _ _)) in Hv.
      apply list_elem_of_fmap in Hv as ([i vds] & Heq & Hin). cbn in Heq. subst vds.
      exists (i, (v, ds)). split; [|done]. apply list_elem_of_bind. cbn.
      unfold id in Hd. rewrite <- (imap_pair_snd ds) in Hd.
      apply list_elem_of_fmap in Hd as ([j d'] & -> & Hj). by exists (j, d').
  - split; [by intros ?%not_elem_of_nil|]. by intros [? _].
Qed.

Lemma nilmap_nilmap_lookup {V} (m : option (gmap string V)) k : nilmap m !! k = nilmap_lookup m k.
Proof. destruct m; [done|]. apply lookup_empty. Qed.

(** The data of the original of [n]. *)
Definition original_data (n : string) : option (gmap string bytes) :=
  originalK8sSecrets st !! n ≫= Data.

Lemma sanitizing_strong n k v :
  mkWrite (n, k) false v ∈ sanitizing ↔ sanitize_strong C conj (listed_feed st n) k v.
Proof.
  rewrite elem_of_sanitizing. split.
  - intros (Hsan & var & d & o & Hd & Hw & _). unfold sanitize_writes, dest_key in Hw.
    destruct (decide (secretName d = "*")) as [Hs|Hs].
    + destruct (_ !! k8sSecretName d) as [s|]; [|by apply not_elem_of_nil in Hw].
      apply list_elem_of_bind in Hw as (key & Hw & _). unfold wipe_write in Hw.
      destruct (decide _); [by apply not_elem_of_nil in Hw|]. by apply list_elem_of_singleton in Hw.
    + destruct (bytes_at conj var) eqn:Hx; [by apply not_elem_of_nil in Hw|].
      apply list_elem_of_singleton in Hw. injection Hw as -> -> ->.
      do 2 (split; [done|]). by exists var, d.
  - intros (Hsan & -> & var & d & [Hd <-] & <- & Hs & Hx). split; [done|].
    assert (∀ o, mkWrite (k8sSecretName d, secretName d) false (Some "") ∈
      sanitize_writes st conj o var d) as Hw.
    { intros o. unfold sanitize_writes. rewrite decide_False, Hx by done. by left. }
    exists var, d, canonical_order. by split_and!.
Qed.

Lemma sanitizing_weak n k v :
  (∀ d, d ∈ dests !!! "*" → is_Some (originalK8sSecrets st !! k8sSecretName d)) →
  mkWrite (n, k) true v ∈ sanitizing ↔
  sanitize_weak C (listed_feed st n) (original_data n) k v.
Proof.
  intros Horig. rewrite elem_of_sanitizing. unfold sanitize_weak, wiped, original_data. split.
  - intros (Hsan & var & d & o & Hd & Hw & _). unfold sanitize_writes, dest_key in Hw.
    destruct (decide (secretName d = "*")) as [Hs|Hs].
    + destruct (_ !! k8sSecretName d) as [s|] eqn:Ho; [|by apply not_elem_of_nil in Hw].
      apply list_elem_of_bind in Hw as (key & Hw & Hkey). unfold wipe_write in Hw.
      destruct (decide _) as [|Hc]; [by apply not_elem_of_nil in Hw|]. apply list_elem_of_singleton in Hw.
      injection Hw as -> -> ->. rewrite elem_of_range_keys, nilmap_nilmap_lookup in Hkey.
      rewrite Ho. split_and!; [done..|]. exists d. split; [|done].
      by rewrite <- (proj2 (paired_dest var d Hd) Hs).
    + destruct (bytes_at conj var); [by apply not_elem_of_nil in Hw|].
      by apply list_elem_of_singleton in Hw.
  - intros ((Hsan & Hc & Hk) & -> & d & Hd & <-). split; [done|].
    destruct (Horig d Hd) as [s Hs]. rewrite Hs in Hk. cbn in Hk.
    assert (∀ o, mkWrite (k8sSecretName d, k) true (Some "") ∈ sanitize_writes st conj o "*" d) as Hw.
    { intros o. unfold sanitize_writes. rewrite decide_True, Hs by by apply (paired_dest "*").
      apply list_elem_of_bind. exists k. unfold wipe_write. rewrite decide_False by done.
      split; [by left|]. by rewrite elem_of_range_keys, nilmap_nilmap_lookup. }
    exists "*", d, canonical_order. by split_and!.
Qed.
End spec.

(** The state's destinations: one variable per key, the fetch-all variable
    and key together, and an original for every fetch-all Secret. *)
Record dests_ok (st : k8sSecretsState) : Prop := {
  dests_unique : unique_dests st;
  dests_paired n : star_ok (listed_feed st n);
  dests_original d : d ∈ updateDestinations st !!! "*" →
    is_Some (originalK8sSecrets st !! k8sSecretName d)
}.

(** With fetch-all, sanitizing dereferences data that is only there when at
    least one variable was fetched. *)
Definition starved (C : provider_config) (st : k8sSecretsState) (conj : gmap string bytes) : Prop :=
  sanitizeEnabled C = true ∧ updateDestinations st !!! "*" ≠ [] ∧ conj = ∅.

Lemma not_starved_wipeable C sched st conj :
  dests_ok st → sanitizeEnabled C = true → ¬ starved C st conj →
  wipeable st (foldl apply_write ∅ (fetch_writes sched st conj)).
Proof.
  intros Hok Hsan Hns v d Hd Hs.
  pose proof (proj2 (dests_paired _ Hok (k8sSecretName d) v d ltac:(by split)) Hs) as ->.
  split; [by apply (dests_original _ Hok)|]. apply apply_writes_some. right.
  assert (conj ≠ ∅) as (x & y & Hx)%map_choose.
  { intros ->. apply Hns. split; [done|]. split; [|done]. intros Hn. rewrite Hn in Hd.
    by apply not_elem_of_nil in Hd. }
  exists (fetch_write (x, y) d). split; [|unfold fetch_write; by destruct (decide _)].
  apply elem_of_fetch_writes. exists x, y, d. by split_and!; [..|right|].
Qed.

(** What [createSecretData] makes of the state, for every key. *)
Definition base_data (C : provider_config) (st : k8sSecretsState) (conj : gmap string bytes)
    (data : secrets_data) : Prop :=
  tight data ∧
  ∀ n k, match (data !!! n) !! k with
         | Some v => base_entry C conj (listed_feed st n) (original_data st n) k v
         | None => ∀ v, ¬ base_entry C conj (listed_feed st n) (original_data st n) k v
         end.

Lemma create_entries C sched st conj :
  dests_ok st →
  (createSecretData C sched st conj = Panic ∧ starved C st conj) ∨
  ∃ data, createSecretData C sched st conj = Ret data ∧ base_data C st conj data.
Proof.
  intros Hok. set (data := foldl apply_write ∅ (all_writes C sched st conj)).
  assert (base_data C st conj data) as Hdata.
  { split; [apply apply_writes_tight; by intros n [? ?%lookup_empty_Some]|]. intros n k.
    refine (key_entry C conj (listed_feed st n) (original_data st n) _ k (n, k)
      (fetch_writes sched st conj) (sanitizing C sched st conj) _ _ _ _).
    - intros v v' d d' [Hd Hn] [Hd' Hn'] Hk. apply (dests_unique _ Hok v v' d d'); [done..|].
      unfold dest_key. congruence.
    - intros v. apply fetch_writes_strong, Hok.
    - intros v. apply fetch_writes_weak, Hok.
    - intros v. apply sanitizing_strong.
    - intros v. apply sanitizing_weak; apply Hok. }
  destruct (createSecretData_or_panic C sched st conj) as [Hr|Hr]; [right; by exists data|].
  assert (starved C st conj ∨ ¬ starved C st conj) as [Hs|Hs]; [|left; done|exfalso].
  { unfold starved. destruct (sanitizeEnabled C); [|by right; intros [? _]].
    destruct (decide (updateDestinations st !!! "*" = [])); [by right; intros (_ & ? & _)|].
    destruct (decide (conj = ∅)); [by left|by right; intros (_ & _ & ?)]. }
  rewrite createSecretData_writes in Hr; [done|]. intros Hsan. by apply not_starved_wipeable with C.
Qed.

(** Without fetch-all the data is the same in every iteration order, and there
    is no panic. *)
Lemma createSecretData_named C sched st conj :
  no_fetch_all st → unique_dests st →
  ∃ data, createSecretData C sched st conj = Ret data ∧
    ∀ n k v, (data !!! n) !! k = Some v ↔
      ∃ var d, d ∈ updateDestinations st !!! var ∧ dest_key d = (n, k) ∧
        wanted (sanitizeEnabled C) d (conj !! var) = Some v.
Proof.
  intros [Hs Hk] Hu.
  assert (∀ d, d ∉ updateDestinations st !!! "*") as Hns.
  { intros d. rewrite lookup_total_default, Hs. apply not_elem_of_nil. }
  assert (dests_ok st) as Hok.
  { split; [done| |by intros d ?%Hns]. intros n v d [Hd _]. split; [intros ->; by apply Hns in Hd|].
    intros Hd'. by apply Hk in Hd. }
  destruct (create_entries C sched st conj Hok) as [[_ (_ & Hn & _)]|(data & Hrun & [_ Hdata])].
  { destruct Hn. by rewrite lookup_total_default, Hs. }
  exists data. split; [done|]. intros n k.
  assert (∀ v, base_entry C conj (listed_feed st n) (original_data st n) k v ↔
    named C conj (listed_feed st n) k (Some v)) as Hbase.
  { intros v. split; [|by left]. intros [|(_ & d & [Hd _] & _)]; [done|]. by apply Hns in Hd. }
  assert (∀ v, named C conj (listed_feed st n) k (Some v) ↔ ∃ var d,
    d ∈ updateDestinations st !!! var ∧ dest_key d = (n, k) ∧
      wanted (sanitizeEnabled C) d (conj !! var) = Some v) as Hnamed.
  { intros v. split; intros (var & d & H).
    - destruct H as ([Hd <-] & <- & _ & Hw). by exists var, d.
    - destruct H as (Hd & [= <- <-] & Hw). exists var, d. split_and!; [done..|by eapply Hk|done]. }
  intros v. rewrite <- Hnamed. specialize (Hdata n k). split.
  - intros Hv. rewrite Hv in Hdata. by apply Hbase.
  - intros Hv. destruct (_ !! k) as [v'|]; [|by apply Hbase, Hdata in Hv].
    f_equal. apply Hbase in Hdata. assert (Some v' = Some v) as [=]; [|done].
    eapply named_unique; [|done|done]. intros x x' d d' [Hd Hn] [Hd' Hn'] Hkk.
    apply (Hu x x' d d'); [done..|]. unfold dest_key. congruence.
Qed.

(** ** Group templates *)
Lemma populate_tight L sched p conj (data : secrets_data) :
  tight data → tight (populateGroupTemplateSecretData L sched p conj data).
Proof.
  intros Ht. unfold populateGroupTemplateSecretData.
  generalize (imap pair (range (loop sched 0) (secretsGroups p))). intros l. revert data Ht.
  induction l as [|[i [n gs]] l IH]; intros data Ht; [done|]. cbn [foldl]. apply IH.
  unfold populate_secret. destruct (_ !! n) as [s|]; [|done].
  generalize (range (loop (sub sched 1) i) (secrets_by_group conj gs)). intros grs.
  clear IH. revert data Ht. induction grs as [|gr grs IH]; intros data Ht; [done|]. cbn [foldl].
  apply IH. unfold render_group. destruct (render_template _ _ _ _); [done..|].
  by apply set_entry_tight.
Qed.

(** ** What a Secret must receive *)
Section expected.
Context (L : libraries) (C : provider_config) (conj : gmap string bytes).
Implicit Types (s : K8sSecret) (m : gmap string bytes).

(** The text of the group [k], when its template renders. *)
Definition group_content s (k : string) : option string :=
  match group_specs L s k with
  | None => None
  | Some specs =>
      match render_template (engine L) k
              (default "" (nilmap_lookup (Annotations s) (SecretGroupFileTemplatePrefix +:+ k)))
              (spec_secret conj <$> specs) with
      | Content content => Some content
      | _ => None
      end
  end.

(** The value [v] of the key [k], given what Conjur returned: a group template
    wins over the conjur-map. *)
Definition expected_entry s (k : string) (v : bytes) : Prop :=
  match group_content s k with
  | Some content => v = buffer_bytes content
  | None => base_entry C conj (feeds L s) (Data s) k v
  end.

Definition expected_data s m : Prop :=
  ∀ k, match m !! k with
       | Some v => expected_entry s k v
       | None => ∀ v, ¬ expected_entry s k v
       end.

(** The fetch-all variable and the fetch-all key only occur together in the
    conjur-map. *)
Definition tidy_secret s : Prop := star_ok (feeds L s).

Lemma base_entry_ext (feed feed' : string → updateDestination → Prop) original k v :
  (∀ x d, feed x d ↔ feed' x d) →
  base_entry C conj feed original k v ↔ base_entry C conj feed' original k v.
Proof.
  intros Hf. unfold base_entry, named, fetched. by setoid_rewrite Hf.
Qed.

(** Without groups and fetch-all: exactly the named entries. *)
Lemma expected_plain s m :
  no_groups s → (∀ d, ¬ feeds L s "*" d) → tidy_secret s → expected_data s m →
  ∀ k v, m !! k = Some v ↔ ∃ var d, feeds L s var d ∧ secretName d = k ∧
    wanted (sanitizeEnabled C) d (conj !! var) = Some v.
Proof.
  intros Hg Hn Ht Hm k v. specialize (Hm k).
  assert (∀ v, expected_entry s k v ↔ ∃ var d, feeds L s var d ∧ secretName d = k ∧
    wanted (sanitizeEnabled C) d (conj !! var) = Some v) as He.
  { intros v'. unfold expected_entry, group_content, group_specs. rewrite Hg. cbn. split.
    - intros [(var & d & Hf & Hk & _ & Hw)|(_ & d & Hf & _)]; [by exists var, d|by apply Hn in Hf].
    - intros (var & d & Hf & Hk & Hw). left. exists var, d. split_and!; [done..| |done].
      intros ->. apply (Ht var d Hf) in Hk as ->. by apply Hn in Hf. }
  split.
  - intros Hv. rewrite Hv in Hm. by apply He.
  - intros Hv%He. destruct (m !! k) as [v'|]; [|by destruct (Hm v)]. f_equal.
    apply He in Hm as (var & d & Hf & Hk & Hw), Hv as (var' & d' & Hf' & Hk' & Hw').
    destruct (feeds_unique L s var var' d d') as [-> ->]; [done..| |congruence].
    destruct Hf as [Hf _], Hf' as [Hf' _]. unfold dest_key. congruence.
Qed.

(** Two fetched variables with one normalized name. *)
Definition names_distinct : Prop :=
  ∀ x x', is_Some (conj !! x) → is_Some (conj !! x') →
    normalizeK8sSecretName x = normalizeK8sSecretName x' → x = x'.

Lemma star_unique s d d' : tidy_secret s → feeds L s "*" d → feeds L s "*" d' → d = d'.
Proof.
  intros Ht Hd Hd'. apply (feeds_unique L s "*" "*" d d'); [done..|]. unfold dest_key.
  rewrite (proj1 (Ht _ _ Hd) eq_refl), (proj1 (Ht _ _ Hd') eq_refl).
  destruct Hd as [-> _], Hd' as [-> _]. done.
Qed.

Lemma no_star_entry s d : tidy_secret s → conjur_map L s !! "*" = None → ¬ feeds L s "*" d.
Proof.
  intros Ht Hn Hf. pose proof (proj1 (Ht _ _ Hf) eq_refl) as Hd.
  destruct Hf as [_ (c & Hc & _)]. congruence.
Qed.

Lemma fetch_all_or_not s :
  tidy_secret s → (∃ d, feeds L s "*" d) ∨ ∀ d, ¬ feeds L s "*" d.
Proof.
  intros Ht. destruct (conjur_map L s !! "*") as [c|] eqn:Hc; [|right; intros d; by apply no_star_entry].
  destruct (parse_entry (secretName_ s) "*" c) as [e|[v d]] eqn:Hp.
  - right. intros d Hf. pose proof (proj1 (Ht _ _ Hf) eq_refl) as Hd.
    destruct Hf as [_ (c' & Hc' & Hp')]. rewrite Hd in Hc', Hp'. congruence.
  - left. exists d. pose proof (parse_entry_key _ _ _ _ _ Hp) as [= Hn Hk].
    assert (feeds L s v d) as Hf by (split; [done|]; exists c; by rewrite Hk).
    by rewrite (proj2 (Ht _ _ Hf) Hk) in Hf.
Qed.

Lemma fetched_functional s k v v' :
  tidy_secret s → names_distinct →
  fetched C conj (feeds L s) (Data s) k v → fetched C conj (feeds L s) (Data s) k v' → v = v'.
Proof.
  intros Ht Hd (d & Hf & Hv) (d' & Hf' & Hv').
  rewrite <- (star_unique s d d' Ht Hf Hf') in Hv'.
  destruct Hv as [[Hn Hw]|(Hw & -> & Hall)], Hv' as [[Hn' Hw']|(Hw' & -> & Hall')].
  - destruct Hn as (x & y & Hx & Hk & ->), Hn' as (x' & y' & Hx' & Hk' & ->).
    assert (x = x') as <-; [|congruence]. apply Hd; [by eexists..|congruence].
  - destruct (Hw (Hall' _ Hn)). done.
  - destruct (Hw' (Hall _ Hn')). done.
  - done.
Qed.

Lemma named_feeds_functional s k o o' :
  named C conj (feeds L s) k o → named C conj (feeds L s) k o' → o = o'.
Proof.
  apply named_unique. intros v v' d d' Hd Hd' Hk. apply (feeds_unique L s v v' d d' Hd Hd').
  destruct Hd as [Hd _], Hd' as [Hd' _]. unfold dest_key. congruence.
Qed.

(** What a Secret must receive is one map, unless fetch-all finds two
    variables with one normalized name or a variable without a value. *)
Lemma expected_functional s m m' :
  tidy_secret s →
  (∀ d, ¬ feeds L s "*" d) ∨ (names_distinct ∧ ∀ x, conj !! x ≠ Some None) →
  expected_data s m → expected_data s m' → m = m'.
Proof.
  intros Ht Hor Hm Hm'.
  assert (∀ k v v', expected_entry s k v → expected_entry s k v' → v = v') as Hf.
  { intros k v v'. unfold expected_entry. destruct (group_content s k); [congruence|].
    assert (∀ v1, named C conj (feeds L s) k (Some v1) →
      (∀ b, ¬ named C conj (feeds L s) k (Some (Some b))) →
      ∀ v2, fetched C conj (feeds L s) (Data s) k v2 → False) as Hnil.
    { intros [b|] Hn Hno v2 Hv2; [by apply (Hno b)|].
      destruct Hor as [Hnos|[_ Hnone]]; [destruct Hv2 as (d & Hd & _); by apply Hnos in Hd|].
      destruct Hn as (var & d & _ & _ & _ & Hw). unfold wanted in Hw.
      destruct (conj !! var) as [[x|]|] eqn:Hx; [|by apply Hnone in Hx|by destruct (sanitizeEnabled C)].
      injection Hw as Hw. by apply dest_value_set in Hw. }
    intros [Hn|[Hno Hfe]] [Hn'|[Hno' Hfe']].
    - by pose proof (named_feeds_functional _ _ _ _ Hn Hn') as [= ->].
    - destruct (Hnil v Hn Hno' v' Hfe').
    - destruct (Hnil v' Hn' Hno v Hfe).
    - destruct Hor as [Hnos|[Hd _]]; [destruct Hfe as (d & Hd & _); by apply Hnos in Hd|].
      by eapply fetched_functional. }
  apply map_eq. intros k. specialize (Hm k). specialize (Hm' k).
  destruct (m !! k) as [v|], (m' !! k) as [v'|]; [|by apply Hm' in Hm|by apply Hm in Hm'|done].
  f_equal. by apply (Hf k).
Qed.
End expected.

(** *** The Secrets of a retrieval *)
Section retrieved_data.
Context {W : Type} (L : libraries) (D : k8sProviderDeps W) `{!K8sAccess (k8s D)}.
Context (C : provider_config) (w : W) (ss : list K8sSecret) (p : K8sProvider).
Hypothesis Hr : retrieved L D C w ss (secretsState p).
Hypothesis Hg : grouped L ss (secretsGroups p).
Hypothesis Ht : ∀ s, s ∈ ss → tidy_secret L s.
Implicit Types (s : K8sSecret).

Lemma retrieved_feeds s v d :
  s ∈ ss → listed_feed (secretsState p) (secretName_ s) v d ↔ feeds L s v d.
Proof.
  intros Hs. unfold listed_feed. rewrite (retr_dests _ _ _ _ _ _ Hr). split.
  - intros [(s' & Hs' & Hf) Hn]. assert (s' = s) as <-; [|done].
    eapply retrieved_same_name; try done. destruct Hf as [<- _]. done.
  - intros Hf. split; [by exists s|]. by destruct Hf.
Qed.

Lemma retrieved_original s :
  s ∈ ss → originalK8sSecrets (secretsState p) !! secretName_ s = Some s.
Proof. intros Hs. by apply (retr_originals _ _ _ _ _ _ Hr). Qed.

Lemma retrieved_dest v d :
  d ∈ updateDestinations (secretsState p) !!! v →
  ∃ s, s ∈ ss ∧ feeds L s v d ∧ secretName_ s = k8sSecretName d.
Proof.
  intros (s & Hs & Hf)%(retr_dests _ _ _ _ _ _ Hr). exists s. split_and!; [done..|].
  by destruct Hf.
Qed.

Lemma retrieved_dests_ok : dests_ok (secretsState p).
Proof.
  split; [by eapply retrieved_unique| |].
  - intros n v d [Hd _]. apply retrieved_dest in Hd as (s & Hs & Hf & _). by apply (Ht s).
  - intros d (s & Hs & _ & <-)%retrieved_dest. exists s. by apply retrieved_original.
Qed.

(** Only Secrets of the retrieval get data. *)
Lemma base_data_original conj data n :
  base_data C (secretsState p) conj data → is_Some (data !! n) →
  is_Some (originalK8sSecrets (secretsState p) !! n).
Proof.
  intros [Htight Hdata] (k & v & Hv)%Htight%map_choose. specialize (Hdata n k). rewrite Hv in Hdata.
  assert (∃ x d, listed_feed (secretsState p) n x d) as (x & d & Hd & <-).
  { destruct Hdata as [(x & d & Hf & _)|(_ & d & Hf & _)]; by eexists _, _. }
  apply retrieved_dest in Hd as (s & Hs & _ & <-). exists s. by apply retrieved_original.
Qed.

Lemma populate_expected sched conj data s :
  base_data C (secretsState p) conj data → s ∈ ss →
  expected_data L C conj s
    (populateGroupTemplateSecretData L sched p conj data !!! secretName_ s).
Proof.
  intros [_ Hdata] Hs k. rewrite populateGroupTemplateSecretData_spec, retrieved_original by done.
  specialize (Hdata (secretName_ s) k). unfold original_data in Hdata.
  rewrite retrieved_original in Hdata by done. cbn in Hdata.
  assert (match (data !!! secretName_ s) !! k with
          | Some v => base_entry C conj (feeds L s) (Data s) k v
          | None => ∀ v, ¬ base_entry C conj (feeds L s) (Data s) k v end) as Hbase.
  { destruct (_ !! k); [|intros v]; rewrite base_entry_ext; try done;
      intros; symmetry; by apply retrieved_feeds. }
  clear Hdata. pose proof (grouped_secret _ _ _ _ _ _ _ _ Hr Hg Hs) as Hc.
  unfold expected_entry, group_content.
  destruct (secretsGroups p !! secretName_ s) as [gs|]; [|by rewrite Hc].
  unfold group_entry. rewrite (secrets_by_group_spec L conj s gs k Hc).
  destruct (group_specs L s k) as [specs|]; [|done]. cbn. unfold rendered_entry.
  by destruct (render_template _ _ _ _).
Qed.
End retrieved_data.

(** ** Checks for concrete Secrets *)
Section checks.
Context (L : libraries) (s : K8sSecret).

Definition tidy_check : bool :=
  forallb (λ kc, match parse_entry (secretName_ s) kc.1 kc.2 with
                 | inr (v, _) => Bool.eqb (bool_decide (v = "*")) (bool_decide (kc.1 = "*"))
                 | inl _ => true
                 end) (map_to_list (conjur_map L s)).

Definition groups_check : bool :=
  forallb (λ kv,
    if HasPrefix kv.1 SecretGroupPrefix then
      match nilmap (Annotations s) !!
              (SecretGroupFileTemplatePrefix +:+ TrimPrefix kv.1 SecretGroupPrefix) with
      | Some _ => bool_decide (is_Some (parsed_specs L kv.2))
      | None => true
      end
    else true) (map_to_list (nilmap (Annotations s))).

Definition map_check : bool :=
  match nilmap_lookup (Data s) ConjurMapKey with
  | None => true
  | Some raw => bool_decide (bytes_string raw = "") || (yaml2 L (bytes_string raw)).2
  end &&
  forallb (λ kc, match parse_entry (secretName_ s) kc.1 kc.2 with inr _ => true | inl _ => false end)
    (map_to_list (conjur_map L s)).

Lemma forallb_map {V} (f : string * V → bool) (m : gmap string V) k v :
  forallb f (map_to_list m) = true → m !! k = Some v → f (k, v) = true.
Proof.
  intros Hf Hk. rewrite forallb_forall in Hf. apply Hf.
  apply list_elem_of_In. by apply elem_of_map_to_list.
Qed.

Lemma tidy_check_ok : tidy_check = true → tidy_secret L s.
Proof.
  intros Hc v d [_ (c & Hk & Hp)]. pose proof (forallb_map _ _ _ _ Hc Hk) as H. cbn [fst snd] in H.
  rewrite Hp in H. apply eqb_prop in H. rewrite <- (bool_decide_eq_true (v = "*")), H.
  apply bool_decide_eq_true.
Qed.

Lemma groups_check_ok : groups_check = true → groups_ok L s.
Proof.
  intros Hc k v (t & Ht & Hv)%bind_Some. rewrite <- nilmap_nilmap_lookup in Ht, Hv.
  pose proof (forallb_map _ _ _ _ Hc Hv) as H. cbn [fst snd] in H.
  rewrite HasPrefix_app, TrimPrefix_app, Ht in H. by apply bool_decide_eq_true in H.
Qed.

Lemma map_check_ok : map_check = true → valid_map L s.
Proof.
  intros [Hy Hc]%andb_true_iff. split.
  - unfold yaml_ok. destruct (nilmap_lookup _ _); [|done].
    apply orb_true_iff in Hy as [Hy%bool_decide_eq_true|Hy]; auto.
  - intros k c Hk. pose proof (forallb_map _ _ _ _ Hc Hk) as H. cbn in H.
    destruct (parse_entry _ _ _) as [|vd]; [done|by exists vd].
Qed.
End checks.

(** A map without a clash of normalized names. *)
Lemma names_distinct_check (conj : gmap string bytes) :
  NoDup (normalizeK8sSecretName <$> (map_to_list conj).*1) → names_distinct conj.
Proof.
  intros Hnd x x' [y Hx] [y' Hx']. apply (NoDup_fmap_inj_on _ _ x x' Hnd);
    apply list_elem_of_fmap; [exists (x, y)|exists (x', y')]; by rewrite elem_of_map_to_list.
Qed.

Lemma names_distinct_subset (conj conj' : gmap string bytes) :
  conj ⊆ conj' → names_distinct conj' → names_distinct conj.
Proof.
  intros Hsub Hd x x' [y Hx] [y' Hx']. apply Hd; eexists; by eapply lookup_weaken.
Qed.
