(* ===== verification/K8sProviderProps.v ===== *)
(** * Properties of the Kubernetes Secrets provider

    Whole runs of the provider, for Secrets with named entries, fetch-all and
    group templates, with witnesses on an in-memory cluster. *)

From S2P Require Import Prelude GoString GoBytes Config FileTemplates K8sClient.
From S2P Require Import K8sProvider K8sProviderSpec K8sKeys K8sGroups K8sData.
From Stdlib Require Import Ascii.
Open Scope Z_scope.

(** ** Runs *)

(** The Secret is written when its entries (or the keys to remove) are there
    and their checksum is new. *)
Definition must_write (keys : option (list string)) (prev : gmap string Checksum) (n : string)
    (m : gmap string bytes) : bool :=
  (bool_decide (m ≠ ∅) || bool_decide (is_Some keys)) && entry_changed prev (n, m).

Section run.
Context {W : Type} (L : libraries) (D : k8sProviderDeps W) `{!K8sAccess (k8s D)}.
Context (C : provider_config).
Implicit Types (p : K8sProvider) (w : W) (keys : gmap string (list string)).

Lemma add_cleanup_only_lookup o originals keys data n :
  add_cleanup_only o originals keys data !! n =
  match data !! n with
  | Some m => Some m
  | None => if decide (is_Some (keys !! n) ∧ is_Some (originals !! n)) then Some ∅ else None
  end.
Proof.
  unfold add_cleanup_only.
  assert (∀ l (d : secrets_data), foldl (λ d name,
      match d !! name, keys !! name with None, Some _ => <[name := ∅]> d | _, _ => d end) d l !! n =
    match d !! n with
    | Some m => Some m
    | None => if decide (is_Some (keys !! n) ∧ n ∈ l) then Some ∅ else None
    end) as Hl.
  { induction l as [|x l IH]; intros d; cbn [foldl].
    - destruct (d !! n); [done|]. by rewrite decide_False by by intros [_ ?%not_elem_of_nil].
    - rewrite IH. clear IH. destruct (decide (x = n)) as [->|Hne].
      + destruct (d !! n) eqn:Hd; [by rewrite Hd|].
        destruct (keys !! n) eqn:Hk.
        * rewrite lookup_insert_eq, decide_True; [done|]. split; [by eexists|by left].
        * rewrite Hd, !decide_False; [done|by intros [[? ?] _]..].
      + assert (∀ d' : secrets_data, d' = match d !! x, keys !! x with
          None, Some _ => <[x := ∅]> d | _, _ => d end → d' !! n = d !! n) as Hd.
        { intros d' ->. destruct (d !! x), (keys !! x); try done. by apply lookup_insert_ne. }
        rewrite (Hd _ eq_refl). destruct (d !! n); [done|]. apply decide_ext.
        rewrite elem_of_cons. naive_solver. }
  rewrite Hl. destruct (data !! n); [done|]. apply decide_ext. by rewrite elem_of_range_keys.
Qed.

(** The provider and the cluster after a complete retrieval of [ss]. *)
Record ready_to_provide w (ss : list K8sSecret) p : Prop := {
  rtp_retrieved : retrieved L D C w ss (secretsState p);
  rtp_grouped : grouped L ss (secretsGroups p);
  rtp_tidy s : s ∈ ss → tidy_secret L s
}.

(** The data that is written for the state of a complete retrieval. *)
Lemma new_secrets_data_spec sched p w ss conj keys :
  ready_to_provide w ss p →
  (new_secrets_data L C sched p conj keys = Panic ∧ starved C (secretsState p) conj) ∨
  ∃ data, new_secrets_data L C sched p conj keys = Ret data ∧
    (∀ n, is_Some (data !! n) → is_Some (originalK8sSecrets (secretsState p) !! n)) ∧
    ∀ s, s ∈ ss →
      expected_data L C conj s (data !!! secretName_ s) ∧
      (is_Some (data !! secretName_ s) ↔
         data !!! secretName_ s ≠ ∅ ∨ is_Some (keys !! secretName_ s)).
Proof.
  intros [Hr Hg Ht]. unfold new_secrets_data.
  destruct (create_entries C (sub sched 0) (secretsState p) conj) as [[-> Hs]|(data & -> & Hdata)];
    [by eapply retrieved_dests_ok|by left|right]. cbn [mbind outcome_bind].
  set (data1 := populateGroupTemplateSecretData _ _ _ _ _).
  assert (∀ n, is_Some (data1 !! n) ↔ data1 !!! n ≠ ∅) as Hsome.
  { intros n. apply tight_nonempty, populate_tight, Hdata. }
  assert (∀ n, is_Some (data1 !! n) → is_Some (originalK8sSecrets (secretsState p) !! n)) as Horig.
  { intros n Hn. destruct (originalK8sSecrets (secretsState p) !! n) eqn:Ho; [by eexists|].
    unfold data1 in Hn. rewrite populate_other in Hn by done.
    rewrite <- Ho. by eapply base_data_original. }
  assert (∀ s, s ∈ ss → expected_data L C conj s (data1 !!! secretName_ s)) as Hexp.
  { intros s Hs. by eapply populate_expected. }
  eexists. split; [done|]. destruct (decide (keys = ∅)) as [->|Hk].
  - split; [done|]. intros s Hin. split; [by apply Hexp|].
    rewrite Hsome, lookup_empty. split; [by left|]. by intros [?|[? ?]].
  - set (data' := add_cleanup_only _ _ _ _).
    assert (∀ n, data' !!! n = data1 !!! n) as Heq.
    { intros n. rewrite !lookup_total_map. subst data'. rewrite add_cleanup_only_lookup.
      destruct (data1 !! n); [done|]. by destruct (decide _). }
    split; [|intros s Hin; rewrite Heq; split; [by apply Hexp|]].
    + intros n. subst data'. rewrite add_cleanup_only_lookup.
      destruct (data1 !! n) eqn:Hd; [intros _; apply Horig; by rewrite Hd|].
      destruct (decide _) as [[_ ?]|]; [done|]. by intros [? ?].
    + subst data'. rewrite add_cleanup_only_lookup, <- Hsome.
      assert (is_Some (originalK8sSecrets (secretsState p) !! secretName_ s)) as Ho.
      { exists s. by eapply retrieved_original. }
      destruct (data1 !! secretName_ s); [split; [by left; eexists|by eexists]|].
      destruct (decide _) as [[Hks _]|Hno].
      * split; [by right|by eexists].
      * split; [by intros [? ?]|]. intros [[? ?]|?]; [done|]. by destruct Hno.
Qed.

(** The update of a complete retrieval. *)
Lemma update_required_done sched p w ss conj keys :
  ready w → ready_to_provide w ss p →
  wp (updateRequiredK8sSecretsWithCleanup L D C sched conj keys) (λ r t,
    (r = Panic → starved C (secretsState p) conj) ∧ ∀ u, r = Ret u →
      (u = false → ∀ ns n, cluster t.2 ns n = cluster w ns n) ∧
      ∀ s, s ∈ ss → ∃ m, expected_data L C conj s m ∧
        cluster t.2 (podNamespace C) (secretName_ s) =
          Some (if must_write (keys !! secretName_ s) (prevSecretsChecksums p) (secretName_ s) m
                then written (keys !! secretName_ s) s m else s)) (p, w).
Proof.
  intros Hw Hrp. pose proof (rtp_retrieved _ _ _ Hrp) as Hr.
  unfold updateRequiredK8sSecretsWithCleanup. apply wp_bind. unfold wp at 1. cbn.
  destruct (new_secrets_data_spec sched p w ss conj keys Hrp)
    as [[-> Hs]|(data & -> & Horig & Hexp)]; [done|].
  eapply wp_mono; [apply update_secrets_done; [apply range_NoDup_keys|by eapply retrieved_names|done|]|].
  { intros n m Hin%elem_of_range. apply Horig. by eexists. }
  intros r [p' w'] [Hnp Hdone]. split; [done|]. intros u Hu.
  destruct (Hdone u Hu) as (_ & -> & Hwr & Hkeep). cbn [fst snd orb] in *. clear Hdone Hnp Hu. split.
  - intros Hex ns n. apply Hkeep. intros _ m Hin.
    destruct (entry_changed _ (n, m)) eqn:Hch; [|done].
    assert (existsb (entry_changed (prevSecretsChecksums p)) (range (loop sched 3) data) = true);
      [|congruence]. apply existsb_exists. exists (n, m). split; [|done].
    by apply list_elem_of_In.
  - intros s Hin. destruct (Hexp s Hin) as [He Hsome]. exists (data !!! secretName_ s).
    split; [done|]. pose proof (retr_cluster _ _ _ _ _ _ Hr s Hin) as Hc.
    assert (originalK8sSecrets (secretsState p) !! secretName_ s = Some s) as Ho
      by by apply (retr_originals _ _ _ _ _ _ Hr).
    unfold must_write. destruct (data !! secretName_ s) as [m|] eqn:Hm.
    + rewrite !lookup_total_map, Hm in *. cbn [default] in *.
      destruct Hsome as [Hsome _]. specialize (Hsome (ex_intro _ _ eq_refl)).
      destruct (entry_changed _ _) eqn:Hch.
      * rewrite (Hwr _ m s); [|by apply elem_of_range|done|done]. rewrite andb_true_r.
        destruct Hsome as [Hk|Hk]; rewrite (bool_decide_eq_true_2 _ Hk); [done|].
        by rewrite orb_true_r.
      * rewrite andb_false_r, <- Hc. apply Hkeep. intros _ m' Hm'%elem_of_range. by simplify_eq.
    + rewrite !bool_decide_eq_false_2; cbn.
      * rewrite <- Hc. apply Hkeep. intros _ m' Hm'%elem_of_range. by simplify_eq.
      * intros Hk. by destruct (proj2 Hsome (or_intror Hk)).
      * intros Hk. by destruct (proj2 Hsome (or_introl Hk)).
Qed.

(** What an update that ends with an error has done to the Secrets. *)
Lemma update_required_interrupted sched p w ss conj keys :
  ready w → ready_to_provide w ss p →
  wp (updateRequiredK8sSecretsWithCleanup L D C sched conj keys) (λ r t, ∀ e, r = Fail e →
    (∀ s, s ∈ ss → ∃ m, expected_data L C conj s m ∧
       (cluster t.2 (podNamespace C) (secretName_ s) = Some s ∨
        cluster t.2 (podNamespace C) (secretName_ s) = Some (written (keys !! secretName_ s) s m))) ∧
    ∃ s m w1 w2 e', s ∈ ss ∧ ready w1 ∧
      updateSecret (k8s D) (podNamespace C) (secretName_ s)
        (Some (without_keys (keys !! secretName_ s) s)) m w1 = (Fail e', w2)) (p, w).
Proof.
  intros Hw Hrp. pose proof (rtp_retrieved _ _ _ Hrp) as Hr.
  unfold updateRequiredK8sSecretsWithCleanup. apply wp_bind. unfold wp at 1. cbn.
  destruct (new_secrets_data_spec sched p w ss conj keys Hrp)
    as [[-> Hs]|(data & -> & Horig & Hexp)]; [done|].
  eapply wp_mono; [apply update_secrets_interrupted; [by eapply retrieved_names|done|]|].
  { intros n m Hin%elem_of_range. apply Horig. by eexists. }
  intros r t Hint e He. destruct (Hint e He) as [Hc (n & m & s & w1 & w2 & e' & _ & Ho & Hr1 & Hu)].
  split.
  - intros s' Hs'. destruct (Hexp s' Hs') as [He' _]. exists (data !!! secretName_ s').
    split; [done|]. destruct (Hc (podNamespace C) (secretName_ s')) as [->|(_ & m' & s1 & Hin & Ho1 & Hc1)].
    + left. by apply (retr_cluster _ _ _ _ _ _ Hr).
    + right. apply elem_of_range in Hin. rewrite (lookup_total_correct _ _ _ Hin).
      assert (originalK8sSecrets (secretsState p) !! secretName_ s' = Some s') as Ho'
        by by apply (retr_originals _ _ _ _ _ _ Hr).
      congruence.
  - apply (retr_originals _ _ _ _ _ _ Hr) in Ho as [Hs <-]. by exists s, m, w1, w2, e'.
Qed.

(** *** Whole runs *)

(** The names of the Secrets that a run provides in the cluster [w]: the
    required ones, or those of the listed ones whose conjur-map and group
    annotations are in order. *)
Definition selected w (n : string) : Prop :=
  if decide (requiredK8sSecrets C = [])
  then ∃ l s, (listLabeledSecrets (k8s D) (podNamespace C) w).1 = Ret l ∧ s ∈ l ∧
       sound L s ∧ secretName_ s = n
  else n ∈ requiredK8sSecrets C.

(** The fetch-all variable only under the fetch-all key and conversely; in
    label mode no Secret that is in order in part. *)
Definition orderly w : Prop :=
  if decide (requiredK8sSecrets C = [])
  then ∀ l s, (listLabeledSecrets (k8s D) (podNamespace C) w).1 = Ret l → s ∈ l →
       tidy_secret L s ∧ (sound L s ∨ broken L l s)
  else ∀ n s, n ∈ requiredK8sSecrets C → cluster w (podNamespace C) n = Some s → tidy_secret L s.

(** A selected Secret of the cluster [w]. *)
Definition selected_secret w s : Prop :=
  ∃ n, selected w n ∧ cluster w (podNamespace C) n = Some s.

(** [x] is a variable that the conjur-map or a group of a selected Secret asks
    for; or one conjur-map asks for all. *)
Definition asked_for w (x : string) : Prop :=
  ∃ s, selected_secret w s ∧ ((∃ d, feeds L s x d) ∨ group_asks L s x).
Definition asked_all w : Prop := ∃ s d, selected_secret w s ∧ feeds L s "*" d.

(** The list of variables that a run requests. *)
Definition requested w (ids : list string) : Prop :=
  (asked_all w ∧ ids = ["*"]) ∨
  (¬ asked_all w ∧ NoDup ids ∧ ∀ x, x ∈ ids ↔ asked_for w x).

(** Every selected Secret has been written with its share of [conj], or was
    left alone because its entries have not changed. *)
Definition secrets_written keys (prev : gmap string Checksum) w w' (conj : gmap string bytes) :
    Prop :=
  ∀ n, selected w n → ∃ s m, cluster w (podNamespace C) n = Some s ∧
    expected_data L C conj s m ∧
    cluster w' (podNamespace C) n =
      Some (if must_write (keys !! n) prev n m
            then written (keys !! n) s m else s).

(** Every selected Secret has been written with its share of [conj], or is as
    it was. *)
Definition secrets_partly_written keys w w' (conj : gmap string bytes) : Prop :=
  ∀ n, selected w n → ∃ s m, cluster w (podNamespace C) n = Some s ∧ expected_data L C conj s m ∧
    (cluster w' (podNamespace C) n = Some s ∨
     cluster w' (podNamespace C) n = Some (written (keys !! n) s m)).

(** A call that updates a selected Secret has failed. *)
Definition update_failed w : Prop :=
  ∃ n s m w1 w2 e, selected w n ∧ ready w1 ∧
    updateSecret (k8s D) (podNamespace C) n (Some s) m w1 = (Fail e, w2).

Definition unchanged w w' : Prop := ∀ ns n, cluster w' ns n = cluster w ns n.

(** Conjur's error says that variables were deleted or access was revoked. *)
Definition revoked (text : string) : Prop :=
  Contains text "403" = true ∨ Contains text "404" = true.

(** What sanitizing writes: an empty value for every variable. *)
Definition wiped_values (ids : list string) : gmap string bytes :=
  list_to_map ((λ x, (x, Some "")) <$> ids).

(** The entries of the selected Secrets have been overwritten; or an update
    failed in the middle of it. *)
Definition secrets_wiped prev w w' (ids : list string) : Prop :=
  secrets_written ∅ prev w w' (wiped_values ids) ∨
  update_failed w ∧ secrets_partly_written ∅ w w' (wiped_values ids).

(** Why a run fails, and what it leaves: the retrieval failed; Conjur did not
    answer, and exactly when its error is a 403 or 404 and sanitizing is on the
    flag is set and the entries are wiped; or an update failed. *)
Definition failed_retrieval w (ue : bool * string) w' : Prop :=
  ue = (false, recordedError D CSPFK021E) ∧ retrieval_failed L D C w ∧ unchanged w w'.

Definition failed_fetch prev w (ue : bool * string) w' : Prop :=
  ∃ ids err, let text := recordedError D (CSPFK034E err) in
    requested w ids ∧ retrieveSecrets D ids w = Fail err ∧
    ue.2 = recordedError D (CSPFK034E text) ∧
    (ue.1 = true ↔ sanitizeEnabled C = true ∧ revoked text) ∧
    (ue.1 = true → secrets_wiped prev w w' ids) ∧ (ue.1 = false → unchanged w w').

Definition failed_update keys w (ue : bool * string) w' : Prop :=
  ue = (false, recordedError D CSPFK023E) ∧ update_failed w ∧
  ∃ ids conj, requested w ids ∧ retrieveSecrets D ids w = Ret conj ∧
    secrets_partly_written keys w w' conj.

(** The result of a run, from the outcome and the final cluster. *)
Definition run_result keys (prev : gmap string Checksum) w (r : outcome (bool * string) bool) w' : Prop :=
  match r with
  | Ret u =>
      (u = false → unchanged w w') ∧
      ((u = false ∧ keys = ∅ ∧ ∀ x, ¬ asked_for w x) ∨
       ∃ ids conj, retrieveSecrets D ids w = Ret conj ∧ requested w ids ∧
         secrets_written keys prev w w' conj)
  | Fail ue => failed_retrieval w ue w' ∨ failed_fetch prev w ue w' ∨ failed_update keys w ue w'
  | Panic => ∃ ids, requested w ids ∧
      (retrieveSecrets D ids w = Panic ∨
       asked_all w ∧ sanitizeEnabled C = true ∧ retrieveSecrets D ids w = Ret ∅)
  end.

Lemma requested_same w ids ids' x :
  requested w ids → requested w ids' → x ∈ ids ↔ x ∈ ids'.
Proof. intros [[? ->]|(? & _ & H)] [[? ->]|(? & _ & H')]; [done..|]. by rewrite H, H'. Qed.

Lemma requested_perm w ids ids' : requested w ids → requested w ids' → ids ≡ₚ ids'.
Proof.
  intros [[? ->]|(? & Hnd & H)] [[? ->]|(? & Hnd' & H')]; [done..|].
  apply NoDup_Permutation; [done..|]. intros x. by rewrite H, H'.
Qed.

(** The Secrets [ss] are the selected ones. *)
Definition selection w (ss : list K8sSecret) : Prop :=
  ∀ n, selected w n ↔ n ∈ secretName_ <$> ss.

Lemma retrieved_selected ss st w :
  retrieved L D C w ss st → selection w ss →
  ∀ n, selected w n ↔ ∃ s, s ∈ ss ∧ secretName_ s = n ∧ cluster w (podNamespace C) n = Some s.
Proof.
  intros Hr Hss n. rewrite (Hss n), list_elem_of_fmap. split.
  - intros (s & -> & Hs). exists s. split_and!; try done. by apply (retr_cluster _ _ _ _ _ _ Hr).
  - intros (s & Hs & <- & _). by exists s.
Qed.

Lemma retrieved_selected_secret ss st w s :
  retrieved L D C w ss st → selection w ss → selected_secret w s ↔ s ∈ ss.
Proof.
  intros Hr Hss. unfold selected_secret. setoid_rewrite (retrieved_selected ss st w Hr Hss). split.
  - intros (n & (s' & Hs' & _ & Hc) & Hc'). congruence.
  - intros Hs. pose proof (retr_cluster _ _ _ _ _ _ Hr s Hs). by exists (secretName_ s); eauto.
Qed.

Lemma retrieved_destination ss st w x :
  retrieved L D C w ss st → selection w ss →
  is_Some (updateDestinations st !! x) ↔ ∃ s d, selected_secret w s ∧ feeds L s x d.
Proof.
  intros Hr Hss. setoid_rewrite (retrieved_selected_secret ss st w _ Hr Hss). split.
  - intros [[|d ds] Hx]; [by destruct (retr_nonempty _ _ _ _ _ _ Hr x)|].
    assert (d ∈ updateDestinations st !!! x) as Hd.
    { rewrite (lookup_total_correct _ _ _ Hx). by left. }
    apply (retr_dests _ _ _ _ _ _ Hr) in Hd as (s & Hs & Hf). by exists s, d.
  - intros (s & d & Hs & Hf). assert (d ∈ updateDestinations st !!! x) as Hd.
    { apply (retr_dests _ _ _ _ _ _ Hr). by exists s. }
    rewrite lookup_total_default in Hd. destruct (_ !! x); [by eexists|].
    by apply not_elem_of_nil in Hd.
Qed.

Lemma retrieved_asked_for ss p w x :
  ready_to_provide w ss p → selection w ss →
  is_Some (updateDestinations (secretsState p) !! x) ∨ group_variable p x ↔ asked_for w x.
Proof.
  intros [Hr Hg _] Hss. rewrite (retrieved_destination ss _ w x Hr Hss).
  rewrite (grouped_variable L D C w ss _ p x Hr Hg). unfold asked_for.
  setoid_rewrite (retrieved_selected_secret ss _ w _ Hr Hss). naive_solver.
Qed.

Lemma secrets_written_intro ss st keys prev w w' conj :
  retrieved L D C w ss st → selection w ss →
  (∀ s, s ∈ ss → ∃ m, expected_data L C conj s m ∧
     cluster w' (podNamespace C) (secretName_ s) =
       Some (if must_write (keys !! secretName_ s) prev (secretName_ s) m
             then written (keys !! secretName_ s) s m else s)) →
  secrets_written keys prev w w' conj.
Proof.
  intros Hr Hss Hall n (s & Hs & <- & Hc)%(retrieved_selected _ _ _ Hr Hss).
  destruct (Hall s Hs) as (m & He & Hm). by exists s, m.
Qed.

Lemma interrupted_intro ss st keys w w' conj :
  retrieved L D C w ss st → selection w ss →
  (∀ s, s ∈ ss → ∃ m, expected_data L C conj s m ∧
     (cluster w' (podNamespace C) (secretName_ s) = Some s ∨
      cluster w' (podNamespace C) (secretName_ s) = Some (written (keys !! secretName_ s) s m))) ∧
  (∃ s m w1 w2 e, s ∈ ss ∧ ready w1 ∧
     updateSecret (k8s D) (podNamespace C) (secretName_ s)
       (Some (without_keys (keys !! secretName_ s) s)) m w1 = (Fail e, w2)) →
  update_failed w ∧ secrets_partly_written keys w w' conj.
Proof.
  intros Hr Hss [Hall (s & m & w1 & w2 & e & Hs & Hr1 & Hu)]. split.
  - exists (secretName_ s), (without_keys (keys !! secretName_ s) s), m, w1, w2, e.
    split; [|done]. apply Hss. by apply list_elem_of_fmap_2.
  - intros n (s' & Hs' & <- & Hc)%(retrieved_selected _ _ _ Hr Hss).
    destruct (Hall s' Hs') as (m' & He & Hm). by exists s', m'.
Qed.

Lemma lookup_constant_map (l : list string) (c : bytes) x :
  (list_to_map ((λ y, (y, c)) <$> l) : gmap string bytes) !! x =
  if decide (x ∈ l) then Some c else None.
Proof.
  induction l as [|y l IH]; [by rewrite decide_False by apply not_elem_of_nil|].
  rewrite fmap_cons. cbn [list_to_map foldr fst snd]. destruct (decide (x = y)) as [->|Hne].
  - by rewrite lookup_insert_eq, decide_True by by left.
  - rewrite lookup_insert_ne by done. etrans; [apply IH|]. apply decide_ext.
    rewrite elem_of_cons. naive_solver.
Qed.

Lemma constant_map_ext (l l' : list string) (c : bytes) :
  (∀ x, x ∈ l ↔ x ∈ l') →
  (list_to_map ((λ y, (y, c)) <$> l) : gmap string bytes) = list_to_map ((λ y, (y, c)) <$> l').
Proof.
  intros Hl. apply map_eq. intros x. rewrite !lookup_constant_map. by apply decide_ext.
Qed.

(** The list of variables is what is asked for; the retrieval of the group
    specs leaves no empty group, so it never fails. *)
Lemma fetch_requested sched ss p w :
  ready_to_provide w ss p → selection w ss →
  ∃ ids, listConjurSecretsToFetch D sched p = Ret ids ∧ requested w ids.
Proof.
  intros Hrp Hss. pose proof (list_fetch_spec D sched p) as Hf. unfold fetch_spec in Hf.
  pose proof (rtp_retrieved _ _ _ Hrp) as Hr.
  pose proof (retrieved_destination ss _ w "*" Hr Hss) as Hstar.
  destruct (listConjurSecretsToFetch D sched p) as [ids|e|]; [| |done].
  - exists ids. split; [done|]. destruct (_ !! "*") as [ds|].
    + left. split; [by apply Hstar|done].
    + destruct Hf as [Hnd Hids]. right. split_and!; [|done|].
      * intros Hall. destruct (proj2 Hstar Hall) as [? ?]. done.
      * intros x. rewrite Hids. by apply (retrieved_asked_for ss).
  - destruct Hf as (_ & _ & Hne & Hno). exfalso.
    apply map_choose in Hne as (n & gs & Hn).
    destruct (grp_of _ _ _ (rtp_grouped _ _ _ Hrp) n gs Hn) as (Hne & s & _ & _ & Hc).
    destruct gs as [|g gs]; [done|].
    pose proof (coll_specs _ _ _ Hc g (list_elem_of_here _ _)) as Hs%group_specs_nonempty.
    destruct (SecretSpecs g) as [|spec specs] eqn:Hg; [done|].
    apply (Hno (Path spec)). exists n, (g :: gs), g, spec. rewrite Hg.
    split_and!; [done|by left|by left|done].
Qed.

(** The values that a deletion writes are never short of what fetch-all needs. *)
Lemma deletion_not_starved ss p w ids :
  ready_to_provide w ss p → selection w ss → requested w ids →
  ¬ starved C (secretsState p) (list_to_map ((λ x, (x, Some "")) <$> ids)).
Proof.
  intros Hrp Hss Hids (_ & Hstar & Hempty).
  assert (asked_all w) as Hall.
  { apply (retrieved_destination ss _ w "*" (rtp_retrieved _ _ _ Hrp) Hss).
    rewrite lookup_total_default in Hstar. destruct (_ !! "*"); [by eexists|done]. }
  destruct Hids as [[_ ->]|[Hno _]]; [|done].
  apply (f_equal (lookup "*")) in Hempty. by rewrite lookup_constant_map, lookup_empty in Hempty.
Qed.

Lemma remove_deleted_done sched p w ss ids :
  ready w → ready_to_provide w ss p → selection w ss → requested w ids →
  wp (removeDeletedSecrets L D C sched) (λ r t, r ≠ Panic ∧
    secrets_wiped (prevSecretsChecksums p) w t.2 ids) (p, w).
Proof.
  intros Hw Hrp Hss Hids. unfold removeDeletedSecrets. apply wp_bind. unfold wp at 1. cbn.
  pose proof (deletion_not_starved ss p w ids Hrp Hss Hids) as Hns.
  destruct (fetch_requested (sub sched 0) ss p w Hrp Hss) as (ids' & -> & Hids').
  unfold secrets_wiped, wiped_values.
  rewrite (constant_map_ext ids ids' (Some "")) in Hns |- * by (intros x; by eapply requested_same).
  set (conj := list_to_map _) in *. apply wp_bind. unfold updateRequiredK8sSecrets.
  eapply wp_mono; [apply wp_and; [by apply (update_required_done (sub sched 1) p w ss conj ∅)|
    by apply (update_required_interrupted (sub sched 1) p w ss conj ∅)]|].
  intros r [p' w'] [[Hnp Hdone] Hint]. destruct r as [u|e|]; [| |by destruct (Hns (Hnp eq_refl))].
  - split; [done|]. left. destruct (Hdone u eq_refl) as [_ Hall].
    eapply secrets_written_intro; [apply Hrp|done|done].
  - split; [done|]. right. eapply interrupted_intro; [apply Hrp|done|by apply (Hint e)].
Qed.

(** The retrieval of an orderly cluster finds the selected Secrets. *)
Lemma retrieve_selected sched p w :
  secretsState p = empty_state → secretsGroups p = ∅ → orderly w →
  wp (retrieveRequiredK8sSecrets L D C sched) (λ r t,
    r = Ret tt → ∃ ss, selection w ss ∧ ready_to_provide w ss t.1) (p, w).
Proof.
  intros Hp Hg Hord. unfold orderly in Hord. case_decide as Hreq.
  - eapply wp_mono; [apply (retrieve_all_labelled L D C w); [done..|]|].
    { intros l s Hl Hs. by apply (Hord l s). }
    intros r t Hret Hr. destruct (Hret Hr) as (l & ss & Hl & Hss & Hre & Hgr). exists ss. split.
    + intros n. unfold selected. rewrite decide_True by done. rewrite list_elem_of_fmap. split.
      * intros (l' & s & Hl' & Hs & Hv & <-). exists s. split; [done|]. apply Hss. split; [|done]. congruence.
      * intros (s & -> & [Hs Hv]%Hss). by exists l, s.
    + split; [done|done|]. intros s [Hs _]%Hss. by apply (Hord l).
  - eapply wp_mono; [by apply (retrieve_all_required L D C w)|].
    intros r t Hret Hr. destruct (Hret Hr) as (ss & Hss & Hre & Hgr). exists ss. split.
    + intros n. unfold selected. rewrite decide_False by done. by rewrite Hss.
    + split; [done|done|]. intros s Hs. apply (Hord (secretName_ s)).
      * rewrite <- Hss. by apply list_elem_of_fmap_2.
      * by apply (retr_cluster _ _ _ _ _ _ Hre).
Qed.

Lemma revoked_spec text : deletion_error text = true ↔ revoked text.
Proof. unfold deletion_error, revoked. by rewrite orb_true_iff. Qed.

(** The rest of a run, once the Secrets have been collected and Conjur has
    answered, or not. *)
Lemma fetched_result sched keys p w ss ids conj :
  ready w → ready_to_provide w ss p → selection w ss → requested w ids →
  retrieveSecrets D ids w = Ret conj →
  wp (on_error (updateRequiredK8sSecretsWithCleanup L D C sched conj keys)
        (λ _, throw (false, recordedError D CSPFK023E)))
    (λ r t, run_result keys (prevSecretsChecksums p) w r t.2) (p, w).
Proof.
  intros Hw Hrp Hss Hids Hconj. apply wp_on_error.
  eapply wp_mono; [apply wp_and; [by apply (update_required_done sched p w ss conj keys)|
    by apply (update_required_interrupted sched p w ss conj keys)]|].
  intros [u|e|] [p2 w2] [[Hnp Hdone] Hint].
  - destruct (Hdone u eq_refl) as [Hu Hall]. split; [done|]. right. exists ids, conj.
    split_and!; [done..|]. eapply secrets_written_intro; [apply Hrp|done|done].
  - unfold wp. cbn [throw fst snd]. right. right.
    destruct (interrupted_intro ss _ keys w w2 conj (rtp_retrieved _ _ _ Hrp) Hss (Hint e eq_refl)) as [Hf Hp].
    split; [done|]. split; [done|]. by exists ids, conj.
  - destruct (Hnp eq_refl) as (Hsan & Hstar & ->). exists ids. split; [done|]. right.
    split_and!; [|done|done].
    apply (retrieved_destination ss _ w "*" (rtp_retrieved _ _ _ Hrp) Hss).
    rewrite lookup_total_default in Hstar. destruct (_ !! "*"); [by eexists|done].
Qed.

Lemma unfetched_result sched keys p w ss ids err :
  ready w → ready_to_provide w ss p → selection w ss → requested w ids →
  retrieveSecrets D ids w = Fail err →
  let text := recordedError D (CSPFK034E err) in
  wp (updated ← (if deletion_error text && sanitizeEnabled C
                 then _ ← try (removeDeletedSecrets L D C sched); mret true else mret false);
      (throw (updated, recordedError D (CSPFK034E text)) : M (K8sProvider * W) (bool * string) bool))
    (λ r t, run_result keys (prevSecretsChecksums p) w r t.2) (p, w).
Proof.
  intros Hw Hrp Hss Hids Hconj text. apply wp_bind.
  destruct (deletion_error text && sanitizeEnabled C) eqn:Hdel.
  - apply andb_true_iff in Hdel as [Hdel%revoked_spec Hsan]. apply wp_bind, wp_try.
    eapply wp_mono; [by apply (remove_deleted_done sched p w ss ids)|].
    intros r [p2 w2] [Hnp Hwiped]. cbn [snd] in Hwiped.
    assert (run_result keys (prevSecretsChecksums p) w
      (Fail (true, recordedError D (CSPFK034E text))) w2) as Hres; [|by destruct r].
    right. left. exists ids, err. by split_and!.
  - unfold wp. cbn. right. left. exists ids, err. split_and!; [done..| |done|done].
    cbn. split; [done|]. intros [Hsan Hrev%revoked_spec]. fold text in Hrev.
    by rewrite Hrev, Hsan in Hdel.
Qed.

Lemma provide_locked_result sched keys p w :
  ready w → secretsState p = empty_state → secretsGroups p = ∅ → orderly w →
  wp (provide_locked L D C sched keys)
    (λ r t, run_result keys (prevSecretsChecksums p) w r t.2) (p, w).
Proof.
  intros Hw Hp Hg Hord. unfold provide_locked. apply wp_bind, wp_on_error.
  assert (origin_ok D C w (secretsState p)) as Ho.
  { rewrite Hp. intros n s. cbn. by rewrite lookup_empty. }
  eapply wp_mono; [apply wp_and; [by apply retrieve_all_keeps|
    apply wp_and; [by apply retrieve_selected|apply (retrieve_all_fails L D C w)]]|].
  intros [[]|e|] [p1 w1] [(Hw1 & _ & Hprev & Hnp) [Hret Hfail]]; cbn in Hw1; subst w1;
    [| |by destruct (Hnp Hw)].
  2: { unfold wp. left. split; [done|]. split; [by apply (Hfail e)|done]. }
  destruct (Hret eq_refl) as (ss & Hss & Hrp). cbn [fst snd] in *. clear Hret Hnp Hfail.
  apply wp_bind. unfold wp at 1, gets. cbn [fst snd].
  destruct (decide _) as [(Hde & Hge & Hk)|_].
  { split; [done|]. left. do 2 (split; [done|]). intros x Hx.
    apply (retrieved_asked_for ss p1 w x Hrp Hss) in Hx as [Hx|(n & gs & g & sp & Hn & _)].
    - rewrite Hde, lookup_empty in Hx. by destruct Hx.
    - by rewrite Hge, lookup_empty in Hn. }
  apply wp_bind, wp_try. unfold retrieveConjurSecrets. apply wp_bind. unfold wp at 1. cbn.
  destruct (fetch_requested (sub sched 1) ss p1 w Hrp Hss) as (ids & -> & Hids).
  apply wp_on_error. unfold wp at 1. cbn. rewrite <- Hprev.
  destruct (retrieveSecrets D ids w) as [conj|err|] eqn:Hconj; [| |by exists ids; auto].
  - by apply (fetched_result (sub sched 3) keys p1 w ss ids).
  - by apply (unfetched_result (sub sched 2) keys p1 w ss ids).
Qed.

(** Whatever the outcome, only selected Secrets change. *)
Definition only_selected_changed w w' : Prop :=
  ∀ ns n, cluster w' ns n = cluster w ns n ∨ ns = podNamespace C ∧ selected w n.

Lemma framed_selected ss st keys w w' :
  retrieved L D C w ss st → selection w ss → framed D C st keys w w' → only_selected_changed w w'.
Proof.
  intros Hr Hss Hf ns n. destruct (Hf ns n) as [|(-> & s & m & [Hs <-]%(retr_originals _ _ _ _ _ _ Hr) & _)];
    [by left|right]. split; [done|]. apply Hss. by apply list_elem_of_fmap_2.
Qed.

Lemma provide_locked_selected sched keys p w :
  ready w → secretsState p = empty_state → secretsGroups p = ∅ → orderly w →
  wp (provide_locked L D C sched keys) (λ _ t, only_selected_changed w t.2) (p, w).
Proof.
  intros Hw Hp Hg Hord. assert (only_selected_changed w w) as Hrefl by by left.
  unfold provide_locked. apply wp_bind, wp_on_error.
  eapply wp_mono; [apply wp_and; [apply (retrieve_all_keeps L D C w)|by apply retrieve_selected]|].
  { rewrite Hp. intros n s. cbn. by rewrite lookup_empty. }
  intros [[]|e|] [p1 w1] [(Hw1 & _) Hret]; cbn in Hw1; subst w1; [|done|done].
  destruct (Hret eq_refl) as (ss & Hss & [Hr _ _]). cbn [fst snd] in *.
  pose proof (retrieved_names _ _ _ _ _ _ Hr) as Hn.
  apply wp_bind. unfold wp at 1, gets. cbn [fst snd]. destruct (decide _); [done|].
  apply wp_bind, wp_try. eapply wp_mono; [apply (retrieve_conjur_keeps D)|].
  intros [conj|err|] ? ->; [| |done].
  - apply wp_on_error. eapply wp_mono; [by apply (update_required_framed L D C)|].
    intros r [p2 w2] Hf. destruct r; by eapply framed_selected.
  - apply wp_bind. destruct (_ && _); [|done].
    apply wp_bind, wp_try. eapply wp_mono; [by apply (remove_deleted_framed L D C)|].
    intros r [p2 w2] Hf. destruct r; by eapply framed_selected.
Qed.

Lemma provide_selected sched keys p w r p' w' :
  ready w → secretsState p = empty_state → secretsGroups p = ∅ → orderly w →
  ProvideWithCleanup L D C sched keys (p, w) = (r, (p', w')) → only_selected_changed w w'.
Proof.
  intros Hr Hp Hg Ho Hrun. pose proof (provide_locked_selected sched keys p w Hr Hp Hg Ho) as Hl.
  unfold wp in Hl. unfold ProvideWithCleanup in Hrun.
  destruct (provide_locked L D C sched keys (p, w)) as [r1 [p1 w1]]. by simplify_eq.
Qed.

Lemma provide_result sched keys p w r p' w' :
  ready w → secretsState p = empty_state → secretsGroups p = ∅ → orderly w →
  ProvideWithCleanup L D C sched keys (p, w) = (r, (p', w')) →
  run_result keys (prevSecretsChecksums p) w r w'.
Proof.
  intros Hr Hp Hg Ho Hrun. pose proof (provide_locked_result sched keys p w Hr Hp Hg Ho) as Hl.
  unfold wp in Hl. unfold ProvideWithCleanup in Hrun.
  destruct (provide_locked L D C sched keys (p, w)) as [r1 [p1 w1]]. by simplify_eq.
Qed.
(** *** Two runs *)

(** An entry is there because a variable was asked for. *)
Lemma expected_asks conj s k v :
  expected_entry L C conj s k v → ∃ x, (∃ d, feeds L s x d) ∨ group_asks L s x.
Proof.
  unfold expected_entry, group_content. destruct (group_specs L s k) as [specs|] eqn:Hg.
  - intros _. pose proof (group_specs_nonempty L s k specs Hg) as Hne.
    destruct specs as [|spec specs]; [done|]. exists (Path spec). right.
    exists k, (spec :: specs). split; [done|]. by left.
  - intros [(x & d & Hf & _)|(_ & d & Hf & _)]; eexists; left; by exists d.
Qed.

(** Conjur's answer does not depend on the order of the variables. *)
Definition same_answers w : Prop :=
  ∀ ids ids', ids ≡ₚ ids' → retrieveSecrets D ids w = retrieveSecrets D ids' w.

(** Fetch-all finds no two variables for one key, and no variable without a
    value. *)
Definition clear_answers w : Prop :=
  asked_all w → ∀ ids conj, retrieveSecrets D ids w = Ret conj →
    names_distinct conj ∧ ∀ x, conj !! x ≠ Some None.

Lemma orderly_tidy w s : orderly w → selected_secret w s → tidy_secret L s.
Proof.
  intros Ho (n & Hn & Hc). unfold orderly, selected in *. case_decide.
  - destruct Hn as (l & s' & Hl & Hs' & _ & <-).
    destruct (list_ok (podNamespace C) w l Hl) as [_ Hlc]. destruct (Hlc s' Hs') as [Hc' _].
    assert (s' = s) as <- by congruence. by apply (Ho l).
  - by apply (Ho n).
Qed.

Lemma written_agree keys prev w w1 w2 conj n :
  orderly w → clear_answers w → (∃ ids, retrieveSecrets D ids w = Ret conj) → selected w n →
  secrets_written keys prev w w1 conj → secrets_written keys prev w w2 conj →
  cluster w1 (podNamespace C) n = cluster w2 (podNamespace C) n.
Proof.
  intros Ho Hcl [ids Hret] Hn H1 H2.
  destruct (H1 n Hn) as (s & m1 & Hc & Hm1 & ->), (H2 n Hn) as (s' & m2 & Hc' & Hm2 & ->).
  assert (s' = s) as -> by congruence.
  assert (selected_secret w s) as Hs by by exists n.
  assert (m1 = m2) as ->; [|done].
  pose proof (orderly_tidy w s Ho Hs) as Ht. eapply expected_functional; [done| |done|done].
  destruct (fetch_all_or_not L s Ht) as [[d Hd]|Hno]; [right|by left].
  apply (Hcl ltac:(by exists s, d) ids conj Hret).
Qed.

(** Nothing is written when nothing is asked for. *)
Lemma written_nothing prev w w' conj n :
  (∀ x, ¬ asked_for w x) → selected w n → secrets_written ∅ prev w w' conj →
  cluster w' (podNamespace C) n = cluster w (podNamespace C) n.
Proof.
  intros Hno Hn Hw. destruct (Hw n Hn) as (s & m & Hc & Hm & ->).
  assert (m = ∅) as ->.
  { apply map_empty. intros k. specialize (Hm k). destruct (m !! k) as [v|]; [|done].
    destruct (expected_asks conj s k v Hm) as [x Hx]. destruct (Hno x). exists s. split; [|done]. by exists n. }
  unfold must_write. rewrite lookup_empty, !bool_decide_eq_false_2; [by rewrite Hc|by intros [? ?]|by intros []].
Qed.

Lemma runs_agree keys prev w u1 u2 w1 w2 :
  orderly w → same_answers w → clear_answers w →
  run_result keys prev w (Ret u1) w1 → only_selected_changed w w1 →
  run_result keys prev w (Ret u2) w2 → only_selected_changed w w2 →
  ∀ ns n, cluster w1 ns n = cluster w2 ns n.
Proof.
  intros Ho Hsame Hcl [Hk1 H1] Hs1 [Hk2 H2] Hs2 ns n.
  destruct (Hs1 ns n) as [He1|[-> Hn]].
  { destruct (Hs2 ns n) as [->|[-> Hn]]; [done|].
    destruct H2 as [(-> & _)|(ids2 & conj2 & Hr2 & Hid2 & Hw2)]; [by rewrite (Hk2 eq_refl)|].
    destruct H1 as [(_ & -> & Hno)|(ids1 & conj1 & Hr1 & Hid1 & Hw1)].
    - rewrite He1. symmetry. by eapply written_nothing.
    - rewrite (Hsame ids1 ids2), Hr2 in Hr1 by by eapply requested_perm.
      injection Hr1 as <-. by eapply written_agree; eauto. }
  destruct H1 as [(-> & -> & Hno)|(ids1 & conj1 & Hr1 & Hid1 & Hw1)].
  - rewrite (Hk1 eq_refl). destruct H2 as [(-> & _)|(ids2 & conj2 & Hr2 & Hid2 & Hw2)];
      [by rewrite (Hk2 eq_refl)|]. symmetry. by eapply written_nothing.
  - destruct H2 as [(-> & -> & Hno)|(ids2 & conj2 & Hr2 & Hid2 & Hw2)].
    + rewrite (Hk2 eq_refl). by eapply written_nothing.
    + rewrite (Hsame ids1 ids2), Hr2 in Hr1 by by eapply requested_perm.
      injection Hr1 as <-. by eapply written_agree; eauto.
Qed.
End run.

(** ** An in-memory provider

    A YAML subset of "key:value" lines, where a value that starts with a
    bracket is a sequence; a template engine; a Conjur that knows a table of
    variables. *)
Definition sim_line (l : string) : option (string * yaml_value) :=
  match SplitN l ":"%char 2 with
  | [k; v] => Some (k, if HasPrefix v "[" then YOther else YString v)
  | _ => None
  end.

Definition sim_yaml2 (raw : string) : gmap string yaml_value * bool :=
  let ls := sim_line <$> Split raw lf in
  (list_to_map (omap id ls), forallb (λ l, bool_decide (is_Some l)) ls).

(** A sequence of "- path" and "- alias:path" lines. *)
Definition sim_node (l : string) : option yaml_node :=
  if HasPrefix l "- " then
    Some (match SplitN (TrimPrefix l "- ") ":"%char 2 with
          | [k; v] => MappingNode (Some {[k := v]})
          | _ => ScalarNode (Some (TrimPrefix l "- "))
          end)
  else None.

Definition sim_yaml_nodes (raw : string) : option (list yaml_node) :=
  let ls := sim_node <$> Split raw lf in
  if forallb (λ l, bool_decide (is_Some l)) ls then Some (omap id ls) else None.

(** A template is its text followed by the secrets; the empty one has an
    error. *)
Definition sim_templates : template_engine := λ _ text data,
  if decide (text = "") then ParseError
  else Content (text +:+ Join ((λ s, secretAlias s +:+ "=" +:+ Value s) <$> SecretsArray data) ",").

Definition sim_libraries : libraries :=
  mkLibraries sim_yaml2 sim_yaml_nodes (λ _, "") sim_templates.

Definition sim_conjur (table : gmap string bytes) (ids : list string) (w : sim_world) :
    outcome string (gmap string bytes) :=
  if decide (ids = ["*"]) then Ret table
  else if decide (Forall (λ x, is_Some (table !! x)) ids)
  then Ret (filter (λ kv, kv.1 ∈ ids) table) else Fail "HTTP status 404 Not Found".

Definition sim_deps (o : range_order) (table : gmap string bytes) : k8sProviderDeps sim_world :=
  mkDeps _ (defaultAccess o) (sim_conjur table) id.

#[export] Instance sim_deps_access o table : K8sAccess (k8s (sim_deps o table)) :=
  defaultAccess_lawful o.

Definition sim_sched : schedule := λ _, canonical_order.

Definition sim_secret (name conjurMap : string) (data : gmap string bytes) : K8sSecret :=
  mkK8sSecret name (Some {[ManagedByProviderKey := "true"]}) None
    (Some (<[ConjurMapKey := Some conjurMap]> data)).

Definition sim_cluster (ss : list K8sSecret) : sim_world :=
  mkSim {["ns" := list_to_map ((λ s, (secretName_ s, s)) <$> ss)]} true [].

Definition sim_run (C : provider_config) (table : gmap string bytes) (ss : list K8sSecret) :=
  ProvideWithCleanup sim_libraries (sim_deps canonical_order table) C sim_sched ∅
    (newProvider, sim_cluster ss).

(** The data of a Secret after a run. *)
Definition sim_data (r : outcome (bool * string) bool * (K8sProvider * sim_world)) (n k : string) :=
  kube_store r.2.2 "ns" n ≫= λ s, nilmap_lookup (Data s) k.

Definition sim_config_required : provider_config := mkProviderConfig "ns" ["db"; "web"] true.
Definition sim_table : gmap string bytes :=
  {["db/user" := Some "admin"; "db/pw" := Some "hunter2"; "web/key" := Some "k1"]}.
Definition sim_db : K8sSecret :=
  sim_secret "db" ("user:db/user" +:+ String lf "password:db/pw") {["other" := Some "kept"]}.
Definition sim_web : K8sSecret := sim_secret "web" "key:web/key" ∅.

Example sim_run_ok :
  let r := sim_run sim_config_required sim_table [sim_db; sim_web] in
  r.1 = Ret true ∧ sim_data r "db" "password" = Some (Some "hunter2") ∧
  sim_data r "db" "other" = Some (Some "kept") ∧ sim_data r "web" "key" = Some (Some "k1").
Proof. by vm_compute. Qed.

Lemma sim_stored ss n s : kube_store (sim_cluster ss) "ns" n = Some s → s ∈ ss.
Proof.
  intros Hs. cbn in Hs. unfold sim_lookup in Hs. cbn in Hs. rewrite lookup_total_singleton_eq in Hs.
  by apply elem_of_list_to_map_2, list_elem_of_fmap in Hs as (s' & [= _ ->] & Hin).
Qed.

Lemma sim_listed ss o table l s :
  (listLabeledSecrets (k8s (sim_deps o table)) "ns" (sim_cluster ss)).1 = Ret l → s ∈ l → s ∈ ss.
Proof.
  intros Hl Hs. destruct (list_ok "ns" (sim_cluster ss) l Hl) as [_ Hc].
  destruct (Hc s Hs) as [Hn _]. by eapply sim_stored.
Qed.

(** A Secret with a conjur-map and a group template, and one in fetch-all
    mode. *)
Definition sim_app : K8sSecret :=
  mkK8sSecret "app" (Some {[ManagedByProviderKey := "true"]})
    (Some {[SecretGroupPrefix +:+ "conf" := "- pw:db/pw" +:+ String lf "- web/key";
            SecretGroupFileTemplatePrefix +:+ "conf" := "cfg "]})
    (Some {[ConjurMapKey := Some "user:db/user"]}).
Definition sim_all : K8sSecret := sim_secret "all" "*:*" {["old" := Some "x"]}.

(** ** Properties *)

(** C1: with a list of required Secrets whose conjur-maps use the fetch-all
    variable and the fetch-all key only together, in any iteration order, a
    run of [ProvideWithCleanup] ends in one of these ways.
    It succeeds: then the variables that were requested are everything when
    some conjur-map asks for it, and otherwise exactly those that the
    conjur-maps and the group templates name, each once; and every required
    Secret holds its old data minus the keys to remove, overlaid with exactly
    the entries it asks for - the texts of its group templates, its named
    variables, and for fetch-all the variables under their normalized names and
    the empty value for the other keys it has - or is untouched because there
    is nothing new to write; the flag is false only when nothing in the cluster
    changed.
    It fails with CSPFK021E and without a change, and a required Secret could
    not be read or is not usable: a group annotation or an entry of its
    conjur-map is not in order, or it has neither.
    It fails with CSPFK034E, and Conjur's answer to that request was an error:
    the flag is set exactly when sanitizing is on and the text of the error has
    a "403" or "404", and exactly then the entries are overwritten with empty
    values, all of them unless a call that updates a Secret fails meanwhile;
    otherwise nothing changes.
    It fails with CSPFK023E, without the flag, after a call that updates a
    Secret failed: every required Secret is as it was or holds its entries.
    It panics only if the Conjur client does, or answers a fetch-all request
    with nothing at all. *)
Theorem provide_required_correct {W} L (D : k8sProviderDeps W) `{!K8sAccess (k8s D)} C sched keys
    p w r p' w' :
  ready w → requiredK8sSecrets C ≠ [] → secretsState p = empty_state → secretsGroups p = ∅ →
  (∀ n s, n ∈ requiredK8sSecrets C → cluster w (podNamespace C) n = Some s → tidy_secret L s) →
  ProvideWithCleanup L D C sched keys (p, w) = (r, (p', w')) →
  run_result L D C keys (prevSecretsChecksums p) w r w'.
Proof.
  intros Hr Hreq Hp Hg Htidy. apply provide_result; [done..|].
  unfold orderly. by rewrite decide_False by done.
Qed.

Lemma provide_required_correct_witness :
  let C := mkProviderConfig "ns" ["all"; "app"] true in
  let D := sim_deps canonical_order sim_table in
  let w := sim_cluster [sim_all; sim_app] in
  let run := ProvideWithCleanup sim_libraries D C sim_sched ∅ (newProvider, w) in
  run.1 = Ret true ∧ sim_data run "app" "conf" = Some (Some "cfg pw=hunter2,key=k1") ∧
  sim_data run "app" "user" = Some (Some "admin") ∧
  sim_data run "all" "db.pw" = Some (Some "hunter2") ∧ sim_data run "all" "old" = Some (Some "") ∧
  run_result sim_libraries D C ∅ ∅ w run.1 run.2.2 ∧
  (** A variable of the group is gone. *)
  let C1 := mkProviderConfig "ns" ["app"] true in
  let D1 := sim_deps canonical_order (delete "web/key" sim_table) in
  let gone := ProvideWithCleanup sim_libraries D1 C1 sim_sched ∅ (newProvider, w) in
  gone.1 = Fail (true, CSPFK034E (CSPFK034E "HTTP status 404 Not Found")) ∧
  sim_data gone "app" "user" = Some (Some "") ∧
  sim_data gone "app" "conf" = Some (Some "cfg pw=,key=") ∧
  run_result sim_libraries D1 C1 ∅ ∅ w gone.1 gone.2.2.
Proof.
  intros C D w run. do 5 (split; [vm_compute; reflexivity|]). split.
  - apply (provide_required_correct sim_libraries D C sim_sched ∅ newProvider w run.1 run.2.1);
      [reflexivity|discriminate|reflexivity|reflexivity| |].
    + intros n s _ Hs%sim_stored. apply tidy_check_ok.
      rewrite !elem_of_cons in Hs. destruct Hs as [->|[->|Hs]];
        [| |destruct (not_elem_of_nil s Hs)]; vm_compute; reflexivity.
    + subst run. by destruct (ProvideWithCleanup _ _ _ _ _ _) as [r [p' w']].
  - intros C1 D1 gone.
    do 3 (split; [vm_compute; reflexivity|]).
    apply (provide_required_correct sim_libraries D1 C1 sim_sched ∅ newProvider w gone.1 gone.2.1);
      [reflexivity|discriminate|reflexivity|reflexivity| |].
    + intros n s _ Hs%sim_stored. apply tidy_check_ok.
      rewrite !elem_of_cons in Hs. destruct Hs as [->|[->|Hs]];
        [| |destruct (not_elem_of_nil s Hs)]; vm_compute; reflexivity.
    + change (gone = (gone.1, (gone.2.1, gone.2.2))). generalize gone. intros [r [p' w']]. reflexivity.
Defined.

(** C6: the same of label mode, for a cluster in which the conjur-map of
    every listed Secret uses the fetch-all variable and the fetch-all key only
    together, and every listed Secret is either in order, or fails before it
    has an effect (a group annotation is not in order; or it has none, and
    either no entry of its conjur-map is in order, or the conjur-map is not
    YAML and no listed Secret has groups): the run requests exactly the variables of the listed Secrets
    that are in order, and provides those Secrets. The others do not stop it:
    it fails before it asks Conjur only if the listing fails. Whatever the
    outcome, they and every Secret that is not listed are not touched. *)
Theorem provide_labelled_correct {W} L (D : k8sProviderDeps W) `{!K8sAccess (k8s D)} C sched keys
    p w r p' w' :
  ready w → requiredK8sSecrets C = [] → secretsState p = empty_state → secretsGroups p = ∅ →
  (∀ l s, (listLabeledSecrets (k8s D) (podNamespace C) w).1 = Ret l → s ∈ l →
     tidy_secret L s ∧ (sound L s ∨ broken L l s)) →
  ProvideWithCleanup L D C sched keys (p, w) = (r, (p', w')) →
  run_result L D C keys (prevSecretsChecksums p) w r w' ∧ only_selected_changed L D C w w'.
Proof.
  intros Hr Hreq Hp Hg Hlist Hrun.
  assert (orderly L D C w) as Ho by (unfold orderly; by rewrite decide_True).
  split; [by eapply provide_result|by eapply provide_selected].
Qed.

(** A Secret whose group annotation is not YAML. *)
Definition sim_broken : K8sSecret :=
  mkK8sSecret "broken" (Some {[ManagedByProviderKey := "true"]})
    (Some {[SecretGroupPrefix +:+ "conf" := "no sequence";
            SecretGroupFileTemplatePrefix +:+ "conf" := "cfg "]})
    (Some {[ConjurMapKey := Some "user:db/user"]}).

Lemma sim_broken_groups : ¬ groups_ok sim_libraries sim_broken.
Proof.
  intros Hok. destruct (Hok "conf" "no sequence") as [specs Hs]; [vm_compute; reflexivity|].
  vm_compute in Hs. discriminate.
Qed.

Lemma provide_labelled_correct_witness :
  let C := mkProviderConfig "ns" [] true in
  let D := sim_deps canonical_order sim_table in
  let w := sim_cluster [sim_app; sim_web; sim_broken] in
  let run := ProvideWithCleanup sim_libraries D C sim_sched ∅ (newProvider, w) in
  run.1 = Ret true ∧ sim_data run "web" "key" = Some (Some "k1") ∧
  sim_data run "app" "conf" = Some (Some "cfg pw=hunter2,key=k1") ∧
  sim_data run "broken" "user" = None ∧
  run_result sim_libraries D C ∅ ∅ w run.1 run.2.2 ∧ only_selected_changed sim_libraries D C w run.2.2.
Proof.
  intros C D w run. do 4 (split; [vm_compute; reflexivity|]).
  apply (provide_labelled_correct sim_libraries D C sim_sched ∅ newProvider w run.1 run.2.1 run.2.2);
    [reflexivity|reflexivity|reflexivity|reflexivity| |].
  - intros l s Hl Hs. apply (sim_listed _ _ _ _ _ Hl) in Hs.
    rewrite !elem_of_cons in Hs. destruct Hs as [->|[->|[->|Hs]]];
      [| | |destruct (not_elem_of_nil s Hs)]; (split; [apply tidy_check_ok; vm_compute; reflexivity|]).
    + left. split; [apply groups_check_ok|apply map_check_ok]; vm_compute; reflexivity.
    + left. split; [apply groups_check_ok|apply map_check_ok]; vm_compute; reflexivity.
    + right. left. apply sim_broken_groups.
  - subst run. by destruct (ProvideWithCleanup _ _ _ _ _ _) as [r [p' w']].
Defined.

(** C7: Go's iteration order does not decide what the Secrets hold: two runs
    of [ProvideWithCleanup] from the same provider and cluster, in any two
    iteration orders, that both succeed leave the same cluster, when Conjur's
    answer does not depend on the order of the variables and fetch-all finds no
    two variables with one normalized name. *)
Theorem iteration_order_irrelevant {W} L (D : k8sProviderDeps W) `{!K8sAccess (k8s D)} C sched sched'
    keys p w u u' p1 w1 p2 w2 :
  ready w → secretsState p = empty_state → secretsGroups p = ∅ → orderly L D C w →
  same_answers D w → clear_answers L D C w →
  ProvideWithCleanup L D C sched keys (p, w) = (Ret u, (p1, w1)) →
  ProvideWithCleanup L D C sched' keys (p, w) = (Ret u', (p2, w2)) →
  ∀ ns n, cluster w1 ns n = cluster w2 ns n.
Proof.
  intros Hr Hp Hg Ho Hs Hc H1 H2.
  eapply (runs_agree L D C keys (prevSecretsChecksums p) w u u'); [done..| | | |].
  - by eapply provide_result.
  - by eapply provide_selected.
  - by eapply provide_result.
  - by eapply provide_selected.
Qed.

Lemma sim_conjur_same table w : same_answers (sim_deps canonical_order table) w.
Proof.
  intros ids ids' Hp. cbn. unfold sim_conjur.
  assert (ids = ["*"] ↔ ids' = ["*"]) as Hstar.
  { split; intros ->; [symmetry in Hp|]; by apply Permutation_singleton_r in Hp. }
  rewrite (decide_ext _ _ _ _ Hstar). destruct (decide (ids' = ["*"])); [done|].
  assert (Forall (λ x, is_Some (table !! x)) ids ↔ Forall (λ x, is_Some (table !! x)) ids') as Hall
    by by rewrite Hp.
  rewrite (decide_ext _ _ _ _ Hall). destruct (decide _); [|done]. f_equal.
  apply map_filter_ext. intros x v _. cbn. by rewrite Hp.
Qed.

Lemma sim_conjur_subset table ids w conj : sim_conjur table ids w = Ret conj → conj ⊆ table.
Proof.
  unfold sim_conjur. intros Hret. destruct (decide _); [by injection Hret as ->|].
  destruct (decide _); [|done]. injection Hret as <-. apply map_filter_subseteq.
Qed.

Lemma sim_conjur_clear L C table w :
  names_distinct table → (∀ x, table !! x ≠ Some None) →
  clear_answers L (sim_deps canonical_order table) C w.
Proof.
  intros Hd Hn _ ids conj Hret. pose proof (sim_conjur_subset table ids w conj Hret) as Hsub.
  split; [by eapply names_distinct_subset|]. intros x Hx. eapply Hn, lookup_weaken; eauto.
Qed.

Lemma sim_table_distinct : names_distinct sim_table.
Proof. apply names_distinct_check, (bool_decide_unpack _). vm_compute. exact I. Qed.

Lemma sim_table_valued x : sim_table !! x ≠ Some None.
Proof.
  assert (map_Forall (λ _ v, v ≠ None) sim_table) as Hall
    by (apply (bool_decide_unpack _); vm_compute; exact I).
  intros Hx. exact (Hall x None Hx eq_refl).
Qed.

Lemma iteration_order_irrelevant_witness :
  let C := mkProviderConfig "ns" ["all"; "app"] true in
  let D := sim_deps canonical_order sim_table in
  let w := sim_cluster [sim_all; sim_app] in
  let run1 := ProvideWithCleanup sim_libraries D C sim_sched ∅ (newProvider, w) in
  let run2 := ProvideWithCleanup sim_libraries D C (λ _, reversed_order) ∅ (newProvider, w) in
  run1.1 = Ret true ∧ sim_data run1 "all" "db.pw" = Some (Some "hunter2") ∧
  run2.1 = Ret true ∧ ∀ ns n, kube_store run1.2.2 ns n = kube_store run2.2.2 ns n.
Proof.
  intros C D w run1 run2. assert (run1.1 = Ret true) as H1 by (vm_compute; reflexivity).
  assert (run2.1 = Ret true) as H2 by (vm_compute; reflexivity).
  split; [exact H1|]. split; [vm_compute; reflexivity|]. split; [exact H2|].
  change (∀ ns n, @cluster _ (k8s D) _ run1.2.2 ns n = @cluster _ (k8s D) _ run2.2.2 ns n).
  apply (iteration_order_irrelevant sim_libraries D C sim_sched (λ _, reversed_order) ∅ newProvider w
    true true run1.2.1 run1.2.2 run2.2.1 run2.2.2).
  - reflexivity.
  - reflexivity.
  - reflexivity.
  - intros n s _ Hs%sim_stored. apply tidy_check_ok.
    rewrite !elem_of_cons in Hs. destruct Hs as [->|[->|Hs]];
      [| |destruct (not_elem_of_nil s Hs)]; vm_compute; reflexivity.
  - apply sim_conjur_same.
  - apply sim_conjur_clear; [apply sim_table_distinct|apply sim_table_valued].
  - exact (run_parts _ _ H1).
  - exact (run_parts _ _ H2).
Defined.

(** C12: whatever a run of [ProvideWithCleanup] returns, it leaves the
    provider without Secret objects, destinations or groups in memory, and the
    cluster changed in no other way than this: a Secret it manages (required
    by name, or listed by label) in its own namespace keeps its labels and
    annotations and has entries written over its data, after the removal of
    keys that the caller asked to remove. *)
Theorem provide_frame {W} L (D : k8sProviderDeps W) `{!K8sAccess (k8s D)} C sched keys p w r p' w' :
  ready w → secretsState p = empty_state →
  ProvideWithCleanup L D C sched keys (p, w) = (r, (p', w')) →
  secretsState p' = empty_state ∧ secretsGroups p' = ∅ ∧ only_managed_changed D C keys w w'.
Proof.
  intros Hr Hp Hrun. unfold ProvideWithCleanup in Hrun.
  destruct (provide_locked L D C sched keys (p, w)) as [r1 [p1 w1]] eqn:Hl. simplify_eq.
  do 2 (split; [done|]).
  eapply (wp_run _ (λ _ t, only_managed_changed D C keys w t.2) _ r (p1, w')); [|done].
  apply provide_locked_frame; [|done]. rewrite Hp. intros n s. cbn. by rewrite lookup_empty.
Qed.

Lemma provide_frame_witness :
  let run := sim_run sim_config_required sim_table [sim_db; sim_web] in
  only_managed_changed (sim_deps canonical_order sim_table) sim_config_required ∅
    (sim_cluster [sim_db; sim_web]) run.2.2.
Proof.
  intros run. apply (provide_frame sim_libraries (sim_deps canonical_order sim_table)
    sim_config_required sim_sched ∅ newProvider _ run.1 run.2.1);
    [reflexivity|reflexivity|].
  subst run. unfold sim_run. by destruct (ProvideWithCleanup _ _ _ _ _ _) as [r [p' w']].
Defined.

(** C23: [createSecretData], in every iteration order: a key of a Secret holds
    the (decoded) value of the variable that the conjur-map names for it, or
    the empty value when the variable was not returned and sanitizing is on;
    any other key of a fetch-all Secret holds the value of a fetched variable
    with that normalized name, or the empty value when none has one,
    sanitizing is on and the Secret has the key already, the conjur-map
    apart; there are no other keys, and no Secret gets an empty map. It panics
    only when sanitizing meets a fetch-all Secret and Conjur returned nothing
    at all. *)
Theorem createSecretData_spec C sched st conj :
  dests_ok st →
  (createSecretData C sched st conj = Panic ∧ starved C st conj) ∨
  ∃ data, createSecretData C sched st conj = Ret data ∧
    (∀ n, is_Some (data !! n) ↔ data !!! n ≠ ∅) ∧
    ∀ n k, match (data !!! n) !! k with
           | Some v => base_entry C conj (listed_feed st n) (original_data st n) k v
           | None => ∀ v, ¬ base_entry C conj (listed_feed st n) (original_data st n) k v
           end.
Proof.
  intros Hok. destruct (create_entries C sched st conj Hok) as [|(data & Hrun & Ht & Hdata)];
    [by left|right]. exists data. split_and!; [done| |done]. intros n. by apply tight_nonempty.
Qed.

Definition sim_state : k8sSecretsState :=
  record_original sim_all
    (appendDestination "*" (mkDest "all" "*" "text")
       (appendDestination "db/pw" (mkDest "db" "password" "text") empty_state)).

Lemma sim_state_dests v d :
  d ∈ updateDestinations sim_state !!! v ↔
  (v = "db/pw" ∧ d = mkDest "db" "password" "text") ∨ (v = "*" ∧ d = mkDest "all" "*" "text").
Proof.
  assert (updateDestinations sim_state =
    <["db/pw" := [mkDest "db" "password" "text"]]> {["*" := [mkDest "all" "*" "text"]]}) as ->
    by (vm_compute; reflexivity).
  destruct (decide (v = "db/pw")) as [->|Hv]; [|destruct (decide (v = "*")) as [->|Hv']].
  - rewrite lookup_total_insert_eq, list_elem_of_singleton. naive_solver.
  - rewrite lookup_total_insert_ne, lookup_total_singleton_eq, list_elem_of_singleton by done. naive_solver.
  - rewrite lookup_total_insert_ne, lookup_total_singleton_ne by done.
    split; [by intros ?%not_elem_of_nil|naive_solver].
Qed.

Lemma sim_state_ok : dests_ok sim_state.
Proof.
  split.
  - intros v v' d d' [[-> ->]|[-> ->]]%sim_state_dests [[-> ->]|[-> ->]]%sim_state_dests; done.
  - intros n v d [[[-> ->]|[-> ->]]%sim_state_dests _]; done.
  - intros d [[? _]|[_ ->]]%sim_state_dests; [done|]. exists sim_all. vm_compute. reflexivity.
Qed.

Lemma createSecretData_spec_witness :
  let C := mkProviderConfig "ns" ["db"; "all"] true in
  let conj : gmap string bytes := {["db/pw" := Some "x"]} in
  ∃ data, createSecretData C sim_sched sim_state conj = Ret data ∧
    (data !!! "db") !! "password" = Some (Some "x") ∧
    (data !!! "all") !! "old" = Some (Some "") ∧
    base_entry C conj (listed_feed sim_state "all") (original_data sim_state "all") "db.pw" (Some "x").
Proof.
  intros C conj.
  pose (read := λ n k, match createSecretData C sim_sched sim_state conj with
                       | Ret data => (data !!! n) !! k | _ => None end).
  assert (read "db" "password" = Some (Some "x")) as Hpw by (vm_compute; reflexivity).
  assert (read "all" "old" = Some (Some "")) as Hold by (vm_compute; reflexivity).
  assert (read "all" "db.pw" = Some (Some "x")) as Hall by (vm_compute; reflexivity).
  unfold read in Hpw, Hold, Hall. clear read.
  destruct (createSecretData_spec C sim_sched sim_state conj sim_state_ok)
    as [[Hp _]|(data & Hrun & _ & Hdata)]; [rewrite Hp in Hall; discriminate Hall|].
  rewrite Hrun in Hpw, Hold, Hall. exists data.
  split; [exact Hrun|]. split; [exact Hpw|]. split; [exact Hold|].
  specialize (Hdata "all" "db.pw"). rewrite Hall in Hdata. exact Hdata.
Defined.

(** C24: [listConjurSecretsToFetch] asks for everything ("*" alone) when
    some conjur-map names the fetch-all variable, and otherwise for the
    variables of the destinations and of the group specs, each once, in every
    iteration order; it fails only when there are groups but no destination
    and no spec. *)
Theorem listConjurSecretsToFetch_spec {W} (D : k8sProviderDeps W) sched p :
  fetch_spec D p (listConjurSecretsToFetch D sched p).
Proof. apply list_fetch_spec. Qed.

(** A labelled Secret whose conjur-map has one valid and one invalid
    entry crashes the provider: the Secret is dropped from the originals, but
    the destination of its valid entry stays, and the update dereferences the
    missing original. *)
Theorem partly_valid_conjur_map_panics :
  (sim_run (mkProviderConfig "ns" [] true) {["x/1" := Some "v"]}
     [sim_secret "bad" ("a:x/1" +:+ String lf "b:[1]") ∅]).1 = Panic.
Proof. vm_compute. reflexivity. Qed.

(** A K8s Secret that is deleted and created again gets nothing from
    the next run when the Conjur values are the same: the checksums of the
    previous run survive it, so the run writes nothing and reports that
    nothing was updated. *)
Theorem recreated_secret_not_written :
  let C := mkProviderConfig "ns" [] true in
  let first := sim_run C sim_table [sim_db] in
  let second := ProvideWithCleanup sim_libraries (sim_deps canonical_order sim_table) C sim_sched ∅
                  (first.2.1, sim_cluster [sim_db]) in
  first.1 = Ret true ∧ sim_data first "db" "password" = Some (Some "hunter2") ∧
  second.1 = Ret false ∧ sim_data second "db" "password" = None.
Proof. vm_compute. done. Qed.

(** A required Secret without a conjur-map is an error or not
    depending on the order of the list of required Secrets: the check asks
    whether any Secret so far has group annotations. *)
Theorem missing_map_depends_on_order :
  let grouped := mkK8sSecret "g" None
    (Some {["conjur.org/conjur-secrets.app" := "*"; "conjur.org/secret-file-template.app" := "t"]})
    None in
  let empty := mkK8sSecret "e" None None None in
  let run names := (sim_run (mkProviderConfig "ns" names false) sim_table [grouped; empty]).1 in
  run ["g"; "e"] = Ret true ∧ run ["e"; "g"] = Fail (false, CSPFK021E).
Proof. vm_compute. done. Qed.

(** In fetch-all mode with sanitizing on, a 403 or 404 from Conjur
    empties the values of the Secret, and also adds a key "." that nobody asked
    for: the only variable to delete is "*", which is normalized as a key. *)
Theorem fetch_all_deletion_writes_dot :
  let D := mkDeps sim_world (defaultAccess canonical_order) (λ _ _, Fail "403 Forbidden") id in
  let r := ProvideWithCleanup sim_libraries D (mkProviderConfig "ns" [] true) sim_sched ∅
             (newProvider, sim_cluster [sim_secret "all" "*:*" {["app.pw" := Some "old"]}]) in
  sim_data r "all" "app.pw" = Some (Some "") ∧ sim_data r "all" "." = Some (Some "").
Proof. vm_compute. done. Qed.

(** A key removed from a conjur-map that also uses fetch-all is not deleted: it
    is in the Secret that the run has read, so fetch-all writes the empty
    value for it after the removal. *)
Theorem fetch_all_keeps_removed_key :
  let r := ProvideWithCleanup sim_libraries (sim_deps canonical_order sim_table)
             (mkProviderConfig "ns" [] true) sim_sched {["all" := ["old"]]}
             (newProvider, sim_cluster [sim_all]) in
  r.1 = Ret true ∧ sim_data r "all" "old" = Some (Some "").
Proof. vm_compute. done. Qed.

(** A fetch-all variable whose name normalizes to "conjur-map" replaces the
    conjur-map. *)
Theorem fetch_all_overwrites_map :
  let r := sim_run (mkProviderConfig "ns" [] true) {["conjur-map" := Some "b"]} [sim_all] in
  r.1 = Ret true ∧ sim_data r "all" ConjurMapKey = Some (Some "b").
Proof. vm_compute. done. Qed.

(** The annotation "*" of a group passes as a list of specs, but its template
    gets one secret, named "*", without a value, although everything was
    fetched. *)
Theorem group_fetch_all_is_empty :
  let grouped := mkK8sSecret "g" (Some {[ManagedByProviderKey := "true"]})
    (Some {[SecretGroupPrefix +:+ "conf" := "*"; SecretGroupFileTemplatePrefix +:+ "conf" := "cfg "]})
    None in
  let r := sim_run (mkProviderConfig "ns" [] true) sim_table [grouped] in
  r.1 = Ret true ∧ sim_data r "g" "conf" = Some (Some "cfg *=").
Proof. vm_compute. done. Qed.

(** The content type of a group's spec is ignored: a base64 value reaches the
    template as it is. *)
Theorem group_base64_not_decoded :
  let L := mkLibraries sim_yaml2
    (λ _, Some [MappingNode (Some {["pw" := "db/pw"; "content-type" := "base64"]})]) (λ _, "") sim_templates in
  let r := ProvideWithCleanup L
    (sim_deps canonical_order {["db/pw" := Some "aGk="; "db/user" := Some "admin"]})
    (mkProviderConfig "ns" ["app"] true) sim_sched ∅ (newProvider, sim_cluster [sim_app]) in
  group_specs L sim_app "conf" = Some [mkSpec "pw" "db/pw" "base64"] ∧
  r.1 = Ret true ∧ sim_data r "app" "conf" = Some (Some "cfg pw=aGk=").
Proof. vm_compute. done. Qed.

(** A labelled Secret that is dropped for its conjur-map leaves its groups
    behind: their variables are still requested, and when one of them is gone
    the values of the Secrets that are in order are emptied. *)
Theorem dropped_secret_still_fetched :
  let bad := mkK8sSecret "bad" (Some {[ManagedByProviderKey := "true"]})
    (Some {[SecretGroupPrefix +:+ "conf" := "- gone/x"; SecretGroupFileTemplatePrefix +:+ "conf" := "cfg "]})
    (Some {[ConjurMapKey := Some "a:[1]"]}) in
  let web := sim_secret "web" "key:web/key" {["key" := Some "k1"]} in
  let run ss := ProvideWithCleanup sim_libraries (sim_deps canonical_order sim_table)
    (mkProviderConfig "ns" [] true) sim_sched ∅ (newProvider, sim_cluster ss) in
  sim_data (run [web]) "web" "key" = Some (Some "k1") ∧
  sim_data (run [web; bad]) "web" "key" = Some (Some "").
Proof. vm_compute. done. Qed.
