(* ===== verification/K8sInvariant.v ===== *)
(** * What the K8s provider keeps from run to run

    The recorded checksums decide which Secrets are written. Here: every
    recorded checksum is that of entries the Secret holds, on every branch of a
    run, so that a Secret left alone because its checksum has not changed does
    hold its entries; and what holds after any sequence of runs, with edits of
    the cluster by others in between. The Secrets that others may do anything
    to, and the keys that they may change in those which the provider has
    written, are parameters, [Y] and [X]. *)

From S2P Require Import Prelude GoString GoBytes FileTemplates K8sClient K8sProvider K8sProviderSpec K8sGroups K8sData K8sProviderProps.
Open Scope Z_scope.

(** ** Predicates that every update keeps *)
Section kept.
Context {W : Type} (L : libraries) (D : k8sProviderDeps W) `{!K8sAccess (k8s D)}.
Context (C : provider_config) (I : gmap string Checksum → W → Prop).
Implicit Types (p : K8sProvider) (w : W) (keys : gmap string (list string)).

(** One update of a Secret, with its checksum recorded when it succeeds. *)
Definition kept_by_updates : Prop :=
  ∀ prev (keys : option (list string)) n s m w, secretName_ s = n → ready w → I prev w →
    let '(r, w') := updateSecret (k8s D) (podNamespace C) n (Some (without_keys keys s)) m w in
    I (match r with Ret _ => <[n := FileChecksum (pretty_map m)]> prev | _ => prev end) w'.

Hypothesis updates_keep : kept_by_updates.

Definition kept (t : K8sProvider * W) : Prop := ready t.2 ∧ I (prevSecretsChecksums t.1) t.2.

Lemma update_secret_kept keys u n m p w :
  names_ok (secretsState p) → kept (p, w) →
  wp (update_secret D C keys u n m) (λ _ t, secretsState t.1 = secretsState p ∧ kept t) (p, w).
Proof.
  intros Hn [Hr HI]. unfold wp. rewrite update_secret_run. destruct (entry_changed _ _); [|done].
  destruct (originalK8sSecrets (secretsState p) !! n) as [s|] eqn:Hs.
  - rewrite remove_keys_Some.
    pose proof (update_ready (podNamespace C) n (without_keys (keys !! n) s) m w Hr) as [_ Hr'].
    pose proof (updates_keep _ (keys !! n) n s m w (Hn _ _ Hs) Hr HI) as Hk.
    by destruct (updateSecret _ _ _ _ _ w) as [[[]|e|] w'].
  - destruct (remove_keys_None (keys !! n)) as [-> | ->]; [done|]. by rewrite update_nil.
Qed.

Lemma update_secrets_kept keys u entries p w :
  names_ok (secretsState p) → kept (p, w) →
  wp (update_secrets D C keys u entries) (λ _ t, kept t) (p, w).
Proof.
  revert u p w. induction entries as [|[n m] entries IH]; intros u p w Hn Hk; [done|].
  cbn [update_secrets]. apply wp_bind. eapply wp_mono; [by apply update_secret_kept|].
  intros [u'|e|] [p' w'] [Hst Hk']; cbn in *; [|done|done]. by apply IH; rewrite ?Hst.
Qed.

Lemma update_required_kept sched conj keys p w :
  names_ok (secretsState p) → kept (p, w) →
  wp (updateRequiredK8sSecretsWithCleanup L D C sched conj keys) (λ _ t, kept t) (p, w).
Proof.
  intros Hn Hk. unfold updateRequiredK8sSecretsWithCleanup. apply wp_bind. unfold wp at 1. cbn.
  destruct (new_secrets_data _ _ _ _ _ _) as [data|e|]; [by apply update_secrets_kept|done..].
Qed.

Lemma remove_deleted_kept sched p w :
  names_ok (secretsState p) → kept (p, w) →
  wp (removeDeletedSecrets L D C sched) (λ _ t, kept t) (p, w).
Proof.
  intros Hn Hk. unfold removeDeletedSecrets. apply wp_bind. unfold wp at 1. cbn.
  destruct (listConjurSecretsToFetch D _ p); [|done..].
  apply wp_bind. eapply wp_mono; [by apply update_required_kept|]. cbn. by intros [b|e|] t Ht.
Qed.

Lemma provide_locked_kept sched keys p w :
  secretsState p = empty_state → kept (p, w) →
  wp (provide_locked L D C sched keys) (λ _ t, kept t) (p, w).
Proof.
  intros Hp Hk. unfold provide_locked. apply wp_bind, wp_on_error.
  eapply wp_mono; [apply (retrieve_all_keeps L D C w)|].
  { rewrite Hp. intros n s. cbn. by rewrite lookup_empty. }
  intros r [p1 w1] (Hw & Ho1 & Hpr & _). cbn in Hw, Hpr. subst w1.
  assert (kept (p1, w)) as Hk1 by (unfold kept in *; cbn in *; by rewrite Hpr).
  assert (names_ok (secretsState p1)) as Hn by by intros n s Hs; apply Ho1 in Hs as [? _].
  destruct r as [[]|e|]; [|done|done]. apply wp_bind. unfold wp at 1, gets. cbn [fst snd].
  destruct (decide _); [done|].
  apply wp_bind, wp_try. eapply wp_mono; [apply (retrieve_conjur_keeps D)|].
  intros [conj|err|] ? ->; [| |done].
  - apply wp_on_error. eapply wp_mono; [by apply update_required_kept|]. by intros [].
  - apply wp_bind. destruct (_ && _); [|done].
    apply wp_bind, wp_try. eapply wp_mono; [by apply remove_deleted_kept|]. by intros [].
Qed.

Lemma provide_kept sched keys p w :
  secretsState p = empty_state → kept (p, w) →
  kept (ProvideWithCleanup L D C sched keys (p, w)).2.
Proof.
  intros Hp Hk. pose proof (provide_locked_kept sched keys p w Hp Hk) as Hl. unfold wp in Hl.
  unfold ProvideWithCleanup. by destruct (provide_locked _ _ _ _ _ _) as [r [p' w']].
Qed.
End kept.

(** ** The recorded checksums and the cluster *)

(** Others leave all Secrets alone that the provider has written. *)
Definition nobody : string → Prop := λ _, False.

Section holding.
Context (X : gset string).

(** The Secret has the entries [m], those of the keys [X] apart. *)
Definition holds (s : K8sSecret) (m : gmap string bytes) : Prop :=
  ∀ k v, k ∉ X → m !! k = Some v → nilmap_lookup (Data s) k = Some v.

Lemma holds_written keys s m : holds (written keys s m) m.
Proof.
  intros k v _ Hk. unfold written, nilmap_lookup, overlay. cbn. by apply lookup_union_Some_l.
Qed.

Lemma holds_nothing s : holds s ∅.
Proof. intros k v _. by rewrite lookup_empty. Qed.

(** [s] with labels, annotations and entries changed, but no entry of a key
    outside of [X] changed or removed. *)
Definition entries_kept (s s' : K8sSecret) : Prop :=
  ∀ k v, k ∉ X → nilmap_lookup (Data s) k = Some v → nilmap_lookup (Data s') k = Some v.

Lemma holds_kept s s' m : entries_kept s s' → holds s m → holds s' m.
Proof. intros He Hh k v HX Hk. by apply He, Hh. Qed.
End holding.

Section in_step.
Context {W : Type} (L : libraries) (D : k8sProviderDeps W) `{!K8sAccess (k8s D)}.
Context (C : provider_config) (X : gset string) (Y : string → Prop).
Implicit Types (p : K8sProvider) (w : W).

(** Every recorded checksum is that of entries which the Secret holds, the
    Secrets of [Y] apart. *)
Definition in_step (prev : gmap string Checksum) w : Prop :=
  ∀ n ck, ¬ Y n → prev !! n = Some ck → ∃ s m, cluster w (podNamespace C) n = Some s ∧
    FileChecksum (pretty_map m) = ck ∧ holds X s m.

Lemma in_step_fresh w : in_step ∅ w.
Proof. intros n ck _. by rewrite lookup_empty. Qed.

Lemma in_step_same prev w w' :
  (∀ n, cluster w' (podNamespace C) n = cluster w (podNamespace C) n) →
  in_step prev w → in_step prev w'.
Proof. intros Hc Hs n ck HY Hn. destruct (Hs n ck HY Hn) as (s & m & ? & ? & ?). exists s, m. by rewrite Hc. Qed.

(** What others may do: anything to the Secrets of [Y] and to those that the
    provider has not written, creating and deleting them included; and change
    the others, except the entries of the keys outside of [X]. *)
Definition edited (prev : gmap string Checksum) w w' : Prop :=
  ready w' ∧ ∀ n s, ¬ Y n → is_Some (prev !! n) → cluster w (podNamespace C) n = Some s →
    ∃ s', cluster w' (podNamespace C) n = Some s' ∧ entries_kept X s s'.

Lemma in_step_edited prev w w' : edited prev w w' → in_step prev w → in_step prev w'.
Proof.
  intros [_ He] Hi n ck HY Hn. destruct (Hi n ck HY Hn) as (s & m & Hs & Hck & Hh).
  destruct (He n s) as (s' & Hs' & Hk); [done|by eexists|done|]. exists s', m.
  split_and!; [done..|]. by eapply holds_kept.
Qed.

Lemma in_step_kept : kept_by_updates D C in_step.
Proof.
  intros prev keys n s m w <- Hr Hi.
  pose proof (update_ready (podNamespace C) (secretName_ s) (without_keys keys s) m w Hr) as [Hnp _].
  destruct (updateSecret _ _ _ _ _ w) as [[[]|e|] w'] eqn:Hu; [| |done].
  - intros n ck HY. rewrite (update_ok _ _ _ _ _ _ Hu), secretName_without_keys, set_data_without_keys.
    intros [[<- <-]|[Hne Hck]]%lookup_insert_Some.
    + rewrite decide_True by done. eexists _, m. split; [done|]. split; [done|]. apply holds_written.
    + rewrite decide_False by naive_solver. by apply Hi.
  - eapply in_step_same; [|done]. intros n. by rewrite (update_fail _ _ _ _ _ _ _ Hu).
Qed.

(** The Secret named [n] held [s] before and holds the entries it was to
    receive from [conj] now. *)
Definition provided (w w' : W) (conj : gmap string bytes) (n : string) : Prop :=
  ∃ s s' m m', cluster w (podNamespace C) n = Some s ∧ expected_data L C conj s m ∧
    cluster w' (podNamespace C) n = Some s' ∧
    FileChecksum (pretty_map m') = FileChecksum (pretty_map m) ∧ holds X s' m'.

(** Written or left alone for its checksum, a Secret is provided. *)
Lemma written_provided keys prev w w' conj n :
  in_step prev w → secrets_written L D C keys prev w w' conj → selected L D C w n → ¬ Y n →
  provided w w' conj n.
Proof.
  intros Hs Hw Hn HY. destruct (Hw n Hn) as (s & m & Hc & Hm & Hc'). exists s.
  unfold must_write in Hc'. destruct (decide (m = ∅)) as [->|Hne].
  { eexists _, ∅, ∅. split_and!; [done|done|exact Hc'|done|apply holds_nothing]. }
  rewrite bool_decide_eq_true_2 in Hc' by done. cbn [orb andb] in Hc'.
  unfold entry_changed, ContentHasChanged in Hc'. cbn [fst snd] in Hc'.
  destruct (prev !! n) as [ck|] eqn:Hp.
  - destruct (decide (FileChecksum (pretty_map m) = ck)) as [<-|Hck].
    + destruct (Hs n _ HY Hp) as (s1 & m' & Hs1 & Hck & Hh). rewrite Hc in Hs1. injection Hs1 as <-.
      exists s, m, m'. split_and!; try done. rewrite Hc'. by rewrite bool_decide_eq_true_2.
    + eexists _, m, m. split_and!; [done..|]. rewrite bool_decide_eq_false_2 by congruence.
      apply holds_written.
  - eexists _, m, m. split_and!; [done..|]. apply holds_written.
Qed.

(** What a successful run provides. *)
Definition values_provided w w' : Prop :=
  (∀ x, ¬ asked_for L D C w x) ∨
  ∃ ids conj, retrieveSecrets D ids w = Ret conj ∧ requested L D C w ids ∧
    ∀ n, selected L D C w n → ¬ Y n → provided w w' conj n.

Lemma run_provided keys prev w u w' :
  in_step prev w → run_result L D C keys prev w (Ret u) w' → values_provided w w'.
Proof.
  intros Hs [_ [(_ & _ & Hno)|(ids & conj & Hr & Hids & Hw)]]; [by left|right].
  exists ids, conj. split_and!; [done..|]. intros n Hn HY. by eapply written_provided.
Qed.
End in_step.

(** ** Sequences of runs *)
Section runs.
Context {W : Type} (L : libraries) (access : k8sAccessDeps W) `{!K8sAccess access}.
Context (recorded : string → string) (C : provider_config) (X : gset string) (Y : string → Prop).
#[local] Abbreviation no_conjur := (mkDeps W access (λ _ _, Panic) recorded).

(** A run: Conjur answers as it does at the time, the maps are visited in any
    order, any keys are to be removed. *)
Definition run_once (t t' : K8sProvider * W) : Prop :=
  ∃ retrieve sched keys,
    t' = (ProvideWithCleanup L (mkDeps W access retrieve recorded) C sched keys t).2.

(** An edit of the cluster by others. *)
Definition edit_once (t t' : K8sProvider * W) : Prop :=
  t'.1 = t.1 ∧ edited no_conjur C X Y (prevSecretsChecksums t.1) t.2 t'.2.

(** What is true between two runs. *)
Definition settled (t : K8sProvider * W) : Prop :=
  secretsState t.1 = empty_state ∧ secretsGroups t.1 = ∅ ∧ ready t.2 ∧
  in_step no_conjur C X Y (prevSecretsChecksums t.1) t.2.

Lemma run_settled retrieve sched keys t :
  settled t → settled (ProvideWithCleanup L (mkDeps W access retrieve recorded) C sched keys t).2.
Proof.
  destruct t as [p w]. intros (He & _ & Hr & Hi). cbn in He, Hr, Hi.
  pose proof (provide_kept L (mkDeps W access retrieve recorded) C
    (in_step (mkDeps W access retrieve recorded) C X Y)
    (in_step_kept (mkDeps W access retrieve recorded) C X Y) sched keys p w He (conj Hr Hi)) as [Hr' Hi'].
  revert Hr' Hi'. unfold ProvideWithCleanup. by destruct (provide_locked _ _ _ _ _ _) as [r [p' w']].
Qed.

Lemma edit_settled t t' : edit_once t t' → settled t → settled t'.
Proof.
  intros [Hp He] (Hst & Hg & _ & Hi). unfold settled. rewrite Hp. split_and!; [done|done|apply He|].
  by eapply in_step_edited.
Qed.

(** Runs and edits in any order. *)
Definition run_or_edit (t t' : K8sProvider * W) : Prop := run_once t t' ∨ edit_once t t'.

Lemma runs_settled t t' : settled t → rtc run_or_edit t t' → settled t'.
Proof.
  intros Ht Hrun. induction Hrun as [t|t t1 t' [(retrieve & sched & keys & ->)|He] _ IH]; [done| |].
  - by apply IH, run_settled.
  - by eapply IH, edit_settled.
Qed.
End runs.

(** ** Properties *)

(** C4: after any runs of a new provider, successful or not, with whatever
    Conjur answered and whatever keys were removed, and any edits of the
    cluster by others in between, a successful run on an orderly cluster, with a
    list of required Secrets or in label mode, leaves every Secret it provides
    holding entries with the checksum of those that it asks for, from the
    values Conjur has just returned - also the Secrets that it did not write
    because their checksum had not changed. This is said of the Secrets, and of
    their keys, that others have left alone since the provider wrote them:
    others may do anything to the Secrets [Y] and to the entries [X] of every
    Secret, for any [Y] and [X], and of these nothing is claimed, since a Secret
    that is deleted and created again is not written again while the values are
    the same ([recreated_secret_not_written]). *)
Theorem secrets_hold_values {W} L (access : k8sAccessDeps W) `{!K8sAccess access} recorded C X Y w0 p w
    retrieve sched keys u p' w' :
  ready w0 → rtc (run_or_edit L access recorded C X Y) (newProvider, w0) (p, w) →
  let D := mkDeps W access retrieve recorded in
  orderly L D C w → ProvideWithCleanup L D C sched keys (p, w) = (Ret u, (p', w')) →
  values_provided L D C X Y w w'.
Proof.
  intros Hr Hruns D Hord Hrun.
  destruct (runs_settled L access recorded C X Y (newProvider, w0) (p, w)) as (He & Hg & Hw & Hi);
    [by split_and!|done|].
  cbn in He, Hg, Hw, Hi. eapply (run_provided L D C X Y keys (prevSecretsChecksums p)); [done|].
  by apply (provide_result L D C sched keys p w (Ret u) p').
Qed.

(** A first run writes two Secrets, others add an entry to one of them and
    create the other one again, and a second run finds nothing new. *)
Definition noted (s : K8sSecret) : K8sSecret :=
  set_data s (Some (<["note" := Some "mine"]> (nilmap (Data s)))).

Lemma noted_kept X s : nilmap_lookup (Data s) "note" = None → entries_kept X s (noted s).
Proof.
  intros Hn k v _ Hk. unfold noted, nilmap_lookup, nilmap in *. cbn.
  destruct (decide (k = "note")) as [->|Hne]; [by rewrite Hn in Hk|].
  rewrite lookup_insert_ne by done. by destruct (Data s).
Qed.

Lemma secrets_hold_values_witness :
  let C := mkProviderConfig "ns" ["web"; "db"] true in
  let D := sim_deps canonical_order sim_table in
  let first := ProvideWithCleanup sim_libraries D C sim_sched ∅ (newProvider, sim_cluster [sim_web; sim_db]) in
  let provided_web := default sim_web (kube_store first.2.2 "ns" "web") in
  let w := (kube_update "ns" sim_db (kube_update "ns" (noted provided_web) first.2.2).2).2 in
  let second := ProvideWithCleanup sim_libraries D C (λ _, reversed_order) ∅ (first.2.1, w) in
  first.1 = Ret true ∧ second.1 = Ret false ∧ sim_data second "web" "note" = Some (Some "mine") ∧
  sim_data second "db" "password" = None ∧
  values_provided sim_libraries D C ∅ (λ n, n = "db") w second.2.2.
Proof.
  intros C D first provided_web w second. split; [vm_compute; reflexivity|].
  assert (second.1 = Ret false) as Hsecond by (vm_compute; reflexivity). split; [exact Hsecond|].
  do 2 (split; [vm_compute; reflexivity|]).
  apply (secrets_hold_values sim_libraries (defaultAccess canonical_order) id C ∅ (λ n, n = "db")
    (sim_cluster [sim_web; sim_db]) first.2.1 w (sim_conjur sim_table) (λ _, reversed_order) ∅ false
    second.2.1 second.2.2).
  - reflexivity.
  - eapply (rtc_l _ _ first.2).
    + left. exists (sim_conjur sim_table), sim_sched, ∅. reflexivity.
    + apply rtc_once. right. split; [reflexivity|]. split; [vm_compute; reflexivity|].
      intros n s HY Hn Hs. assert (n = "web") as ->.
      { apply elem_of_dom in Hn.
        assert (dom (prevSecretsChecksums first.2.1) = {["db"; "web"]}) as Hd by (vm_compute; reflexivity).
        rewrite Hd in Hn. apply elem_of_union in Hn as [Hn|Hn]; apply elem_of_singleton in Hn;
          [destruct (HY Hn)|exact Hn]. }
      exists (noted provided_web). split; [vm_compute; reflexivity|].
      assert (s = provided_web) as -> by (unfold provided_web; cbn in Hs |- *; by rewrite Hs).
      apply noted_kept. vm_compute. reflexivity.
  - intros n s Hn Hs. apply tidy_check_ok. apply elem_of_cons in Hn as [->|Hn];
      [|apply list_elem_of_singleton in Hn as ->]; vm_compute in Hs; injection Hs as <-; vm_compute; reflexivity.
  - exact (run_parts _ _ Hsecond).
Defined.
