(* ===== verification/K8sSteady.v ===== *)
(** * A run after a run

    What an update leaves of a Secret, and that a second run with the same
    answers of Conjur finds nothing to change: what the Secrets must receive
    is the same once they have received it. *)

From S2P Require Import Prelude GoString GoBytes Config FileTemplates K8sClient K8sProvider K8sProviderSpec K8sKeys K8sGroups K8sData K8sProviderProps K8sInvariant.
Open Scope Z_scope.

(** ** What a run leaves of a Secret *)
Lemma lookup_delete_keys ks d k :
  delete_keys ks d !! k = if decide (k ∈ ks) then None else d !! k.
Proof.
  unfold delete_keys. revert d. induction ks as [|k' ks IH]; intros d; cbn [foldl].
  { by rewrite decide_False by apply not_elem_of_nil. }
  rewrite IH. destruct (decide (k = k')) as [->|Hne].
  - rewrite (decide_True (P := k' ∈ k' :: ks)) by by left. rewrite lookup_delete_eq. by case_decide.
  - rewrite lookup_delete_ne by done. apply decide_ext. rewrite elem_of_cons. naive_solver.
Qed.

(** An update writes its entries, drops the keys to remove, and leaves the
    rest. *)
Lemma lookup_written keys s m k :
  nilmap_lookup (Data (written keys s m)) k =
  match m !! k with
  | Some v => Some v
  | None => if decide (k ∈ default [] keys) then None else nilmap_lookup (Data s) k
  end.
Proof.
  unfold written, overlay, nilmap_lookup, nilmap. cbn. rewrite lookup_union.
  assert (default ∅ (Data (without_keys keys s)) !! k =
    if decide (k ∈ default [] keys) then None else Data s ≫= λ m', m' !! k) as ->.
  { destruct keys as [[|k' ks]|]; cbn [default without_keys Data set_data].
    - rewrite decide_False by apply not_elem_of_nil. by destruct (Data s); cbn; rewrite ?lookup_empty.
    - destruct (Data s) as [d|]; cbn -[delete_keys]; [apply lookup_delete_keys|].
      rewrite lookup_empty. by case_decide.
    - rewrite decide_False by apply not_elem_of_nil. by destruct (Data s); cbn; rewrite ?lookup_empty. }
  destruct (m !! k), (decide _); cbn; try done; by destruct (Data s ≫= _).
Qed.

Lemma lookup_total_nil (m : gmap string (list string)) n : default [] (m !! n) = m !!! n.
Proof. by rewrite lookup_total_alt. Qed.

Lemma conjur_map_mapped L s k : is_Some (conjur_map L s !! k) → mapped L (Some s) k.
Proof.
  unfold mapped, parseConjurMap, conjur_map. cbn.
  destruct (nilmap_lookup (Data s) ConjurMapKey) as [raw|]; [|done].
  destruct (decide (bytes_string raw = "")); [done|].
  destruct (yaml2 L (bytes_string raw)) as [y []]; [done|]. rewrite lookup_empty. by intros [? ?].
Qed.

(** Where an entry comes from that is not in the conjur-map: a group template,
    or fetch-all. *)
Definition beside_map L (conj : gmap string bytes) s k : Prop :=
  is_Some (group_specs L s k) ∨
  (∃ d, feeds L s "*" d) ∧
    (k = ConjurMapKey → ∃ x, is_Some (conj !! x) ∧ normalizeK8sSecretName x = ConjurMapKey).

Lemma beside_none L conj s k :
  tidy_secret L s → conjur_map L s !! "*" = None → group_specs L s k = None → ¬ beside_map L conj s k.
Proof.
  intros Ht Hn Hg [[? ?]|[[d Hd] _]]; [congruence|]. by apply (no_star_entry L s d Ht Hn).
Qed.

Lemma expected_origin L C conj s m k :
  expected_data L C conj s m → is_Some (m !! k) →
  is_Some (conjur_map L s !! k) ∨ beside_map L conj s k.
Proof.
  intros Hm [v Hv]. specialize (Hm k). rewrite Hv in Hm. unfold expected_entry, group_content in Hm.
  destruct (group_specs L s k) as [specs|] eqn:Hg; [right; left; by rewrite Hg|].
  destruct Hm as [(var & d & [_ (c & Hc & _)] & <- & _)|(_ & d & Hf & Hor)]; [left; by eexists|].
  right. right. split; [by exists d|]. intros ->.
  destruct Hor as [[(x & y & Hx & Hn & _) _]|[(_ & Hne & _) _]]; [|done].
  exists x. split; [by eexists|done].
Qed.

(** ** The same Secret, after it was written *)
Section again.
Context (L : libraries) (C : provider_config) (conj : gmap string bytes).
Implicit Types (s : K8sSecret) (m : gmap string bytes).

(** Nothing writes or removes the conjur-map. *)
Definition map_kept (ks : option (list string)) s m : Prop :=
  m !! ConjurMapKey = None ∧ ConjurMapKey ∉ default [] ks.

Lemma written_map ks s m : map_kept ks s m → conjur_map L (written ks s m) = conjur_map L s.
Proof.
  intros [Hm Hk]. unfold conjur_map. rewrite lookup_written, Hm. by rewrite decide_False.
Qed.

Lemma feeds_written ks s m v d : map_kept ks s m → feeds L (written ks s m) v d ↔ feeds L s v d.
Proof. intros Hk. unfold feeds. by rewrite (written_map ks s m Hk). Qed.

Lemma written_again ks s m : written None (written ks s m) m = written ks s m.
Proof.
  unfold written, overlay. cbn. f_equal. f_equal. unfold nilmap.
  by rewrite (assoc_L (∪)), (idemp_L (∪)).
Qed.

(** What the Secret must receive does not change, as long as fetch-all brings
    values. *)
Lemma expected_again ks s m :
  map_kept ks s m → ((∃ d, feeds L s "*" d) → ∀ x, conj !! x ≠ Some None) →
  expected_data L C conj s m → expected_data L C conj (written ks s m) m.
Proof.
  intros Hk Hval Hm k. specialize (Hm k).
  assert (∀ v, base_entry C conj (feeds L (written ks s m)) (Data (written ks s m)) k v ↔
    base_entry C conj (feeds L s) (Data (written ks s m)) k v) as Hbase.
  { intros v. apply base_entry_ext. intros. by apply feeds_written. }
  assert (∀ v, group_content L conj (written ks s m) v = group_content L conj s v) as Hg by done.
  assert (wiped C (Data (written ks s m)) k → m !! k = None → wiped C (Data s) k) as Hw.
  { intros (Hsan & Hne & [v Hv]) Hmk. split_and!; [done..|]. rewrite lookup_written, Hmk in Hv.
    case_decide; [done|by eexists]. }
  assert (∀ d v, feeds L s "*" d → normalized_value conj d k v → v ≠ None) as Hn.
  { intros d v Hd (x & [y|] & Hx & _ & ->); [apply dest_value_set|]. by destruct (Hval ltac:(by exists d) x). }
  unfold expected_entry in *. rewrite Hg. destruct (group_content L conj s k) as [c|]; [done|].
  destruct (m !! k) as [v|] eqn:Hmk.
  - apply Hbase. destruct Hm as [Hnamed|[Hno (d & Hd & Hor)]]; [by left|right]. split; [done|].
    exists d. split; [done|]. destruct Hor as [[Hv _]|((Hsan & Hne & _) & -> & Hall)].
    + left. split; [done|]. intros ->. by destruct (Hn d None Hd Hv).
    + right. split_and!; [|done|done]. split_and!; [done..|]. rewrite lookup_written, Hmk. by eexists.
  - intros v Hv%Hbase. apply (Hm v). destruct Hv as [Hnamed|[Hno (d & Hd & Hor)]]; [by left|right].
    split; [done|]. exists d. split; [done|]. destruct Hor as [[Hv _]|(Hwi & -> & Hall)].
    + left. split; [done|]. intros ->. by destruct (Hn d None Hd Hv).
    + right. split_and!; [by apply Hw|done|done].
Qed.
End again.

(** ** Two runs *)
Section two_runs.
Context {W : Type} (L : libraries) (D : k8sProviderDeps W) `{!K8sAccess (k8s D)}.
Context (C : provider_config).
Implicit Types (s : K8sSecret) (w : W) (keys : gmap string (list string)).

(** No selected Secret has its conjur-map written over or removed. *)
Definition maps_kept keys w : Prop :=
  ∀ n s, selected L D C w n → cluster w (podNamespace C) n = Some s →
    conjur_map L s !! ConjurMapKey = None ∧
    (∀ ids conj, retrieveSecrets D ids w = Ret conj → ¬ beside_map L conj s ConjurMapKey) ∧
    ConjurMapKey ∉ keys !!! n.

(** What two versions of a Secret ask for is the same. *)
Definition alike s s' : Prop :=
  secretName_ s' = secretName_ s ∧ Annotations s' = Annotations s ∧ conjur_map L s' = conjur_map L s.

Lemma alike_asks s s' x :
  alike s s' →
  (∃ d, feeds L s' x d) ∨ group_asks L s' x ↔ (∃ d, feeds L s x d) ∨ group_asks L s x.
Proof.
  intros (Hn & Ha & Hm). unfold feeds, group_asks, group_specs, group_annotation. by rewrite Hn, Ha, Hm.
Qed.

Lemma alike_feeds s s' x d : alike s s' → feeds L s' x d ↔ feeds L s x d.
Proof. intros (Hn & _ & Hm). unfold feeds. by rewrite Hn, Hm. Qed.

Lemma selected_written_kept keys w conj s m n :
  maps_kept keys w → selected L D C w n → cluster w (podNamespace C) n = Some s →
  (∃ ids, retrieveSecrets D ids w = Ret conj) → expected_data L C conj s m →
  map_kept (keys !! n) s m.
Proof.
  intros Hk Hn Hs [ids Hret] Hm. destruct (Hk n s Hn Hs) as (Hmap & Hside & Hkey). split.
  - apply eq_None_not_Some. intros [[? ?]|Hb]%(expected_origin L C conj s m _ Hm); [congruence|].
    by apply (Hside ids conj).
  - by rewrite lookup_total_nil.
Qed.

(** After a first run of a new provider, a selected Secret asks for the same,
    and holds what it was to receive. *)
Lemma first_run keys w u w1 :
  orderly L D C w → maps_kept keys w → clear_answers L D C w →
  run_result L D C keys ∅ w (Ret u) w1 →
  ((∀ n, cluster w1 (podNamespace C) n = cluster w (podNamespace C) n) ∧ ∀ x, ¬ asked_for L D C w x) ∨
  ∃ ids conj, retrieveSecrets D ids w = Ret conj ∧ requested L D C w ids ∧
    ∀ n, selected L D C w n → ∃ s s1 m, cluster w (podNamespace C) n = Some s ∧
      cluster w1 (podNamespace C) n = Some s1 ∧ alike s s1 ∧ expected_data L C conj s1 m ∧
      (m = ∅ ∨ written None s1 m = s1).
Proof.
  intros Ho Hk Hcl [Hu [(-> & _ & Hno)|(ids & conj & Hret & Hids & Hw)]].
  { left. split; [intros n; by apply Hu|done]. }
  right. exists ids, conj. split_and!; [done..|]. intros n Hn.
  destruct (Hw n Hn) as (s & m & Hs & Hm & Hc).
  assert (map_kept (keys !! n) s m) as Hmk by (eapply selected_written_kept; eauto).
  unfold must_write, entry_changed, ContentHasChanged in Hc. cbn [fst snd] in Hc.
  rewrite lookup_empty, andb_true_r in Hc.
  destruct (_ || _) eqn:Hor.
  - exists s, (written (keys !! n) s m), m. split_and!; [done|done| | |right; apply written_again].
    + split_and!; [done|done|by apply written_map].
    + apply expected_again; [done| |done]. intros [d Hd] x.
      apply (Hcl ltac:(by exists s, d; split; [exists n|]) ids conj Hret).
  - exists s, s, m. split_and!; [done|done|done|done|left].
    apply orb_false_iff in Hor as [Hor _]. apply bool_decide_eq_false in Hor.
    by destruct (decide (m = ∅)).
Qed.

Lemma second_run keys w w1 u u2 prev2 w2 :
  orderly L D C w → orderly L D C w1 → maps_kept keys w → clear_answers L D C w →
  (∀ n, selected L D C w1 n ↔ selected L D C w n) →
  (∀ ids ids', ids ≡ₚ ids' → retrieveSecrets D ids w1 = retrieveSecrets D ids' w) →
  run_result L D C keys ∅ w (Ret u) w1 →
  run_result L D C ∅ prev2 w1 (Ret u2) w2 → only_selected_changed L D C w1 w2 →
  ∀ ns n, cluster w2 ns n = cluster w1 ns n.
Proof.
  intros Ho Ho1 Hk Hcl Hsel Hsame H1 [Hu2 H2] Honly ns n.
  destruct (Honly ns n) as [|[-> Hn]]; [done|].
  destruct H2 as [(-> & _)|(ids2 & conj2 & Hret2 & Hids2 & Hw2)]; [by apply Hu2|].
  destruct (first_run keys w u w1 Ho Hk Hcl H1) as [[Hc Hno]|(ids & conj & Hret & Hids & Hall)].
  { apply (written_nothing L D C prev2 w1 w2 conj2 n); [|done|done].
    intros x (s & (n' & Hn' & Hs) & Hx). apply (Hno x). exists s. split; [|done].
    exists n'. rewrite <- Hc. split; [by apply Hsel|done]. }
  assert (∀ s1, selected_secret L D C w1 s1 → ∃ s, selected_secret L D C w s ∧ alike s s1) as Hback.
  { intros s1 (n' & Hn'%Hsel & Hs1). destruct (Hall n' Hn') as (s & s1' & m & Hs & Hs1' & Ha & _).
    exists s. split; [by exists n'|]. congruence. }
  assert (∀ s, selected_secret L D C w s → ∃ s1, selected_secret L D C w1 s1 ∧ alike s s1) as Hforth.
  { intros s (n' & Hn' & Hs). destruct (Hall n' Hn') as (s' & s1 & m & Hs' & Hs1 & Ha & _).
    exists s1. split; [exists n'; by rewrite Hsel|]. congruence. }
  assert (requested L D C w ids2) as Hids2'.
  { destruct Hids2 as [[(s1 & d & Hs1 & Hd) ->]|(Hna & Hnd & Hx)]; [left|right].
    - destruct (Hback s1 Hs1) as (s & Hs & Ha). split; [|done]. exists s, d. split; [done|].
      by apply (alike_feeds _ _ _ _ Ha).
    - split_and!; [|done|].
      + intros (s & d & Hs & Hd). destruct (Hforth s Hs) as (s1 & Hs1 & Ha). apply Hna.
        exists s1, d. split; [done|]. by apply (alike_feeds _ _ _ _ Ha).
      + intros x. rewrite Hx. unfold asked_for. split.
        * intros (s1 & Hs1 & Hask). destruct (Hback s1 Hs1) as (s & Hs & Ha). exists s.
          split; [done|]. by apply (alike_asks _ _ _ Ha).
        * intros (s & Hs & Hask). destruct (Hforth s Hs) as (s1 & Hs1 & Ha). exists s1.
          split; [done|]. by apply (alike_asks _ _ _ Ha). }
  assert (conj2 = conj) as ->.
  { rewrite (Hsame ids2 ids), Hret in Hret2 by by eapply requested_perm. by injection Hret2. }
  destruct (Hall n (proj1 (Hsel n) Hn)) as (s & s1 & m & Hs & Hs1 & Ha & Hm & Hwr).
  destruct (Hw2 n Hn) as (s1' & m2 & Hs1' & Hm2 & Hc2).
  assert (s1' = s1) as -> by congruence.
  assert (m2 = m) as ->.
  { assert (tidy_secret L s1) as Ht by by eapply (orderly_tidy L D C w1); [|exists n].
    apply (expected_functional L C conj s1); [done| |done|done].
    destruct (fetch_all_or_not L s1 Ht) as [[d Hd]|]; [right|by left].
    apply (Hcl ltac:(exists s, d; split; [by exists n; rewrite <- Hsel|by apply (alike_feeds _ _ _ _ Ha)]) ids conj Hret). }
  rewrite Hc2, Hs1, lookup_empty. f_equal. destruct (must_write _ _ _ _) eqn:Hmw; [|done].
  destruct Hwr as [->|]; [|done]. unfold must_write in Hmw.
  by rewrite !bool_decide_eq_false_2 in Hmw by (by intros [? ?] || by intros []).
Qed.
End two_runs.

(** ** Properties *)

(** C8: the provider comes to rest: after a first successful run of a new
    provider, with any keys to remove, a second successful run, with both runs
    in any iteration orders, leaves the cluster as it is, when
    - the cluster is orderly before each run, and both select the same Secrets;
    - Conjur has the same values, whatever the order of the request;
    - fetch-all finds no two variables with one normalized name and no variable
      without a value ([clear_answers]): of two variables with one name the
      iteration order decides which is written;
    - nothing writes over the conjur-maps of the Secrets or removes them
      ([maps_kept]).
    The Secrets may have named entries, fetch-all and group templates. *)
Theorem second_run_changes_nothing {W} L (access : k8sAccessDeps W) `{!K8sAccess access} retrieve
    recorded C keys sched sched2 w u p1 w1 u2 p2 w2 :
  let D := mkDeps W access retrieve recorded in
  ready w → orderly L D C w → orderly L D C w1 → maps_kept L D C keys w → clear_answers L D C w →
  (∀ n, selected L D C w1 n ↔ selected L D C w n) →
  (∀ ids ids', ids ≡ₚ ids' → retrieve ids w1 = retrieve ids' w) →
  ProvideWithCleanup L D C sched keys (newProvider, w) = (Ret u, (p1, w1)) →
  ProvideWithCleanup L D C sched2 ∅ (p1, w1) = (Ret u2, (p2, w2)) →
  ∀ ns n, cluster w2 ns n = cluster w1 ns n.
Proof.
  intros D Hr Ho Ho1 Hk Hcl Hsel Hsame H1 H2.
  assert (settled access recorded C ∅ nobody (newProvider, w)) as Hset by by split_and!.
  pose proof (run_settled L access recorded C ∅ nobody retrieve sched keys _ Hset) as Hset1.
  change (mkDeps W access retrieve recorded) with D in Hset1. rewrite H1 in Hset1.
  destruct Hset1 as (He & Hg & Hr1 & _). cbn in He, Hg, Hr1.
  apply (second_run L D C keys w w1 u u2 (prevSecretsChecksums p1) w2); try done.
  - by apply (provide_result L D C sched keys newProvider w (Ret u) p1 w1).
  - by apply (provide_result L D C sched2 ∅ p1 w1 (Ret u2) p2 w2).
  - by apply (provide_selected L D C sched2 ∅ p1 w1 (Ret u2) p2 w2).
Qed.

Lemma second_run_changes_nothing_witness :
  let C := mkProviderConfig "ns" ["all"; "app"] true in
  let D := sim_deps canonical_order sim_table in
  let w := sim_cluster [sim_all; sim_app] in
  let run1 := ProvideWithCleanup sim_libraries D C sim_sched ∅ (newProvider, w) in
  let run2 := ProvideWithCleanup sim_libraries D C (λ _, reversed_order) ∅ run1.2 in
  run1.1 = Ret true ∧ sim_data run1 "all" "db.pw" = Some (Some "hunter2") ∧
  run2.1 = Ret false ∧ ∀ ns n, kube_store run2.2.2 ns n = kube_store run1.2.2 ns n.
Proof.
  intros C D w run1 run2. assert (run1.1 = Ret true) as H1 by (vm_compute; reflexivity).
  assert (run2.1 = Ret false) as H2 by (vm_compute; reflexivity).
  split; [exact H1|]. split; [vm_compute; reflexivity|]. split; [exact H2|].
  change (∀ ns n, @cluster _ (k8s D) _ run2.2.2 ns n = @cluster _ (k8s D) _ run1.2.2 ns n).
  assert (∀ n s, kube_store w "ns" n = Some s → s = sim_all ∨ s = sim_app) as Hw.
  { intros n s Hs%sim_stored. rewrite !elem_of_cons in Hs. destruct Hs as [->|[->|Hs]];
      [by left|by right|destruct (not_elem_of_nil s Hs)]. }
  apply (second_run_changes_nothing sim_libraries (defaultAccess canonical_order) (sim_conjur sim_table) id
    C ∅ sim_sched (λ _, reversed_order) w true run1.2.1 run1.2.2 false run2.2.1 run2.2.2).
  - reflexivity.
  - intros n s _ Hs. apply tidy_check_ok.
    destruct (Hw n s Hs) as [->| ->]; vm_compute; reflexivity.
  - intros n s Hn Hs. apply tidy_check_ok.
    pose (tidy := λ n, match kube_store run1.2.2 "ns" n with
                       | Some s => tidy_check sim_libraries s | None => true end).
    assert (tidy "all" = true ∧ tidy "app" = true) as [Hall Happ] by (split; vm_compute; reflexivity).
    change (kube_store run1.2.2 "ns" n = Some s) in Hs. unfold tidy in Hall, Happ.
    change (n ∈ ["all"; "app"]) in Hn. rewrite !elem_of_cons in Hn. destruct Hn as [->|[->|Hn]]; [| |destruct (not_elem_of_nil n Hn)];
      rewrite Hs in *; assumption.
  - intros n s _ Hs. destruct (Hw n s Hs) as [->| ->]; (split; [vm_compute; reflexivity|]);
      (split; [|rewrite lookup_total_empty; apply not_elem_of_nil]).
    + intros ids conj Hret [[specs Hg]|[_ Hx]]; [discriminate Hg|].
      destruct (Hx eq_refl) as (x & [y Hxy] & Hn).
      pose proof (lookup_weaken _ _ _ _ Hxy (sim_conjur_subset sim_table ids w conj Hret)) as Hin.
      assert (map_Forall (λ x _, normalizeK8sSecretName x ≠ ConjurMapKey) sim_table) as Hno
        by (apply (bool_decide_unpack _); vm_compute; exact I).
      exact (Hno x y Hin Hn).
    + intros ids conj _. apply beside_none; [apply tidy_check_ok| |]; vm_compute; reflexivity.
  - apply sim_conjur_clear; [apply sim_table_distinct|apply sim_table_valued].
  - reflexivity.
  - intros ids ids' Hids. apply (sim_conjur_same sim_table w ids ids' Hids).
  - exact (run_parts _ _ H1).
  - rewrite <- surjective_pairing. exact (run_parts _ _ H2).
Defined.
