(* ===== verification/GoPath.v ===== *)
(** * Go slash-separated paths

    The functions of the package [path] that the program calls (on the Linux
    containers it runs in, [path/filepath] is the same). *)

From S2P Require Import Prelude GoString FileTemplates.
From Stdlib Require Import Ascii.
Open Scope Z_scope.

Definition IsAbs (p : string) : bool := HasPrefix p "/".

(** The elements of a path that [path.Clean] keeps, in reverse order: [stack]
    holds those kept so far. *)
Definition clean_step (rooted : bool) (stack : list string) (elem : string) : list string :=
  if decide (elem = "" ∨ elem = ".") then stack
  else if decide (elem = "..") then
    match stack with
    | [] => if rooted then [] else [".."]
    | top :: stack' => if decide (top = "..") then ".." :: stack else stack'
    end
  else elem :: stack.

Definition clean_elems (rooted : bool) (elems : list string) : list string :=
  reverse (foldl (clean_step rooted) [] elems).

Definition Clean (p : string) : string :=
  let rooted := IsAbs p in
  let body := Join (clean_elems rooted (Split p "/"%char)) "/" in
  if rooted then "/" +:+ body else if decide (body = "") then "." else body.

(** [path.Join] of two elements. *)
Definition join2 (a b : string) : string :=
  if decide (a = "") then (if decide (b = "") then "" else Clean b)
  else Clean (a +:+ "/" +:+ b).

(** The file name that [path.Split] returns. *)
Definition split_file (p : string) : string := last_part p "/"%char.

(** The directory that [path.Split] returns, and [filepath.Dir]. *)
Definition split_dir (p : string) : string :=
  slice_to (Z.to_nat (LastIndexByte p "/"%char + 1)) p.
Definition Dir (p : string) : string := Clean (split_dir p).

Example clean_examples :
  Clean "a/b/../c" = "a/c" ∧ Clean "/../a//b/./c/.." = "/a/b" ∧ Clean "../../x" = "../../x" ∧
  Clean "" = "." ∧ Clean "/" = "/" ∧ join2 "/conjur/secrets" "../x" = "/conjur/x" ∧
  Dir "/a/b/c" = "/a/b" ∧ split_file "/a/b/c" = "c".
Proof. by vm_compute. Qed.

(** ** Lemmas *)

(** The elements kept in a rooted path: proper names only. *)
Definition proper (elem : string) : Prop :=
  elem ≠ "" ∧ elem ≠ "." ∧ elem ≠ ".." ∧ no_byte "/"%char elem.

Lemma clean_step_rooted stack elem :
  no_byte "/"%char elem → Forall proper stack → Forall proper (clean_step true stack elem).
Proof.
  intros He Hs. unfold clean_step. destruct (decide (elem = "" ∨ elem = ".")) as [|Hne]; [done|].
  destruct (decide (elem = "..")) as [|Hdd].
  - destruct stack as [|top stack]; [done|]. apply Forall_cons in Hs as [Ht Hs].
    destruct (decide (top = "..")) as [->|]; [|done]. by destruct Ht as (_ & _ & ? & _).
  - constructor; [|done]. unfold proper. naive_solver.
Qed.

Lemma clean_elems_rooted p : Forall proper (clean_elems true (Split p "/"%char)).
Proof.
  unfold clean_elems. apply Forall_reverse.
  assert (∀ l stack, (∀ w, w ∈ l → no_byte "/"%char w) → Forall proper stack →
    Forall proper (foldl (clean_step true) stack l)) as H.
  { induction l as [|w l IH]; intros stack Hl Hs; [done|]. cbn [foldl]. apply IH.
    - intros w' Hw'. apply Hl. by right.
    - apply clean_step_rooted; [|done]. apply Hl. by left. }
  apply H; [|done]. intros w Hw. by eapply Split_no_sep.
Qed.

(** A path of proper names below the root. *)
Definition clean_path (elems : list string) : string := "/" +:+ Join elems "/".

Lemma Clean_rooted p :
  IsAbs p = true → ∃ elems, Clean p = clean_path elems ∧ Forall proper elems.
Proof.
  intros Hp. unfold Clean. rewrite Hp. eexists. split; [done|]. apply clean_elems_rooted.
Qed.
