(* ===== verification/SecretGroup.v ===== *)
(** * Secret groups of Push-to-File (pkg/secrets/pushtofile)

    secret_group.go with the standard templates of standard_templates*.go: the
    groups parsed from the Pod annotations, the validation of their aliases,
    permissions and file paths. *)

From S2P Require Import Prelude GoString GoBytes FileTemplates GoPath.
From Stdlib Require Import Ascii.
Open Scope Z_scope.

Definition secretGroupPolicyPathPrefix : string := "conjur.org/conjur-secrets-policy-path.".
Definition secretGroupFilePathPrefix : string := "conjur.org/secret-file-path.".
Definition secretGroupFileFormatPrefix : string := "conjur.org/secret-file-format.".
Definition secretGroupFilePermissionsPrefix : string := "conjur.org/secret-file-permissions.".
Definition defaultFilePermissions : Z := 420.
Definition maxFilenameLen : nat := 255.
Definition maxYAMLKeyLen : nat := 1024.
Definition maxJSONKeyLen : Z := 2097152.

Record SecretGroup := mkSecretGroup {
  Name : string;
  FilePath : string;
  FileTemplate : string;
  FileFormat : string;
  PolicyPathPrefix : string;
  FilePermissions : Z;
  SecretSpecs : list SecretSpec
}.

(** Reading a file: [os.IsNotExist], any other error, or the content. *)
Inductive file_read := FileNotExist | FileError | FileContent (content : string).

Record Config := mkConfig {
  secretsBasePath : string;
  templatesBasePath : string;
  openRead : string → file_read
}.

Inductive group_error :=
| SpecPath (e : path_error)
| UnknownFormat (format : string)
| BadAlias (format alias : string)
| BadFormat (group format : string) (e : group_error)
| BadTemplate (group : string)
| TemplateUnreadable (group : string)
| TemplateTwice (group : string)
| TemplateMissing (group : string)
| BadPermissionsFormat (perms : string)
| BadPermissions (perms : string)
| BadSpecs (annotation : string)
| AbsolutePath (path group : string)
| OutsideBasePath (path group : string)
| FilenameTooLong (filename group : string)
| DuplicatePath (path : string) (groups : list string)
| SecretCount (secrets specs : nat)
| MissingAliases (aliases : list string).

(** ** Aliases of the standard formats (standard_templates_validate.go) *)
Definition isValidYAMLChar (c : Z) : bool :=
  (c =? 9) || (c =? 10) || (c =? 13) || in_range 32 126 c || (c =? 133) ||
  in_range 160 55295 c || in_range 57344 65533 c || in_range 65536 1114111 c.

Definition validateYAMLKey (key : string) : bool :=
  negb (maxYAMLKeyLen <? String.length key)%nat && forallb isValidYAMLChar (runes key).*1.

Definition isValidJSONChar (c : Z) : bool :=
  negb (in_range 0 31 c) && negb (c =? 127) && negb (c =? 34) && negb (c =? 92).

Definition validateJSONKey (key : string) : bool :=
  negb (maxJSONKeyLen <? Z.of_nat (String.length key)) && forallb isValidJSONChar (runes key).*1.

Definition is_letter_ (c : ascii) : bool :=
  in_range 65 90 (byte_of c) || in_range 97 122 (byte_of c) || (byte_of c =? 95).
Definition is_word (c : ascii) : bool := is_letter_ c || in_range 48 57 (byte_of c).

Fixpoint all_chars (f : ascii → bool) (s : string) : bool :=
  match s with "" => true | String c s' => f c && all_chars f s' end.

(** The regular expressions "^[a-zA-Z_][a-zA-Z0-9_.]*$" and
    "^[a-zA-Z_][a-zA-Z0-9_]*$" (the end is the end of the text). *)
Definition validatePropertyVarName (name : string) : bool :=
  match name with
  | "" => false
  | String c s => is_letter_ c && all_chars (λ d, is_word d || (byte_of d =? 46)) s
  end.
Definition validateBashVarName (name : string) : bool :=
  match name with "" => false | String c s => is_letter_ c && all_chars is_word s end.

(** ** The standard templates *)

(** Single quotes stand for double quotes in the text of a template. *)
Fixpoint with_quotes (s : string) : string :=
  match s with
  | "" => ""
  | String c s' => String (if decide (c = "'"%char) then dquote else c) (with_quotes s')
  end.

Definition lines (ls : list string) : string := Join (with_quotes <$> ls) (String lf "").

Definition jsonTemplate : string := lines [
  "{";
  "{{- range $index, $secret := .SecretsArray }}";
  "{{- if $index }},{{ end }}";
  "{{- printf '%q' $secret.Alias }}:{{ printf '%q' $secret.Value }}";
  "{{- end -}}";
  "}"].
Definition yamlTemplate : string := lines [
  "";
  "{{- range $index, $secret := .SecretsArray }}";
  "{{- if $index }}{{ '\n' }}{{ end }}";
  "{{- printf '%q' $secret.Alias }}: {{ printf '%q' $secret.Value -}}";
  "{{- end -}}";
  ""].
Definition dotenvTemplate : string := lines [
  "";
  "{{- range $index, $secret := .SecretsArray -}}";
  "{{- if $index }}{{ '\n' }}{{ end }}";
  "{{- $secret.Alias }}={{ printf '%q' $secret.Value }}";
  "{{- end -}}";
  ""].
Definition bashTemplate : string := lines [
  "";
  "{{- range $index, $secret := .SecretsArray -}}";
  "{{- if $index }}{{ '\n' }}{{ end }}";
  "{{- ''}}export {{ $secret.Alias }}={{ printf '%q' $secret.Value }}";
  "{{- end -}}";
  ""].

Record standardTemplate := mkStandard { template : string; ValidateAlias : string → bool }.

Definition standardTemplates (format : string) : option standardTemplate :=
  if decide (format = "yaml") then Some (mkStandard yamlTemplate validateYAMLKey)
  else if decide (format = "json") then Some (mkStandard jsonTemplate validateJSONKey)
  else if decide (format = "dotenv") then Some (mkStandard dotenvTemplate validateBashVarName)
  else if decide (format = "properties")
  then Some (mkStandard dotenvTemplate validatePropertyVarName)
  else if decide (format = "bash") then Some (mkStandard bashTemplate validateBashVarName)
  else None.

(** The first alias that the format does not accept. *)
Fixpoint bad_alias (valid : string → bool) (specs : list SecretSpec) : option string :=
  match specs with
  | [] => None
  | s :: specs' => if valid (Alias s) then bad_alias valid specs' else Some (Alias s)
  end.

Definition FileTemplateForFormat (fileFormat : string) (secretSpecs : list SecretSpec) :
    group_error + string :=
  match standardTemplates fileFormat with
  | None => inl (UnknownFormat fileFormat)
  | Some t =>
      match bad_alias (ValidateAlias t) secretSpecs with
      | Some alias => inl (BadAlias fileFormat alias)
      | None => inr (template t)
      end
  end.

(** ** Groups *)
Definition resolvedSecretSpecs (policyPathPrefix : string) (secretSpecs : list SecretSpec) :
    list SecretSpec :=
  if decide (policyPathPrefix = "") then secretSpecs
  else (λ s, mkSpec (Alias s)
               (TrimSuffix policyPathPrefix "/" +:+ "/" +:+ TrimPrefix (Path s) "/")
               (ContentType s)) <$> secretSpecs.

Definition absoluteFilePath (sg : SecretGroup) (secretsBasePath : string) : group_error + string :=
  if IsAbs (FilePath sg) then inl (AbsolutePath (FilePath sg) (Name sg))
  else
    let pathContainsFilename :=
      negb (HasSuffix (FilePath sg) "/") && negb (bool_decide (FilePath sg = "")) in
    let fileExt := if decide (FileTemplate sg = "") then FileFormat sg else "out" in
    let filePath := if pathContainsFilename then FilePath sg
                    else join2 (FilePath sg) (Name sg +:+ "." +:+ fileExt) in
    let absolute := join2 secretsBasePath filePath in
    if negb (HasPrefix absolute secretsBasePath) then inl (OutsideBasePath filePath (Name sg))
    else if (maxFilenameLen <? String.length (split_file absolute))%nat
    then inl (FilenameTooLong (split_file absolute) (Name sg))
    else inr absolute.

Definition maybeFileTemplateFromFormat (fileTemplate fileFormat : string)
    (secretSpecs : list SecretSpec) : group_error + string :=
  let fileFormat := if decide (fileTemplate = "" ∧ fileFormat = "") then "yaml" else fileFormat in
  if decide (fileTemplate = "") then FileTemplateForFormat fileFormat secretSpecs
  else inr fileTemplate.

Definition validateSecretsAgainstSpecs (secrets : list Secret) (specs : list SecretSpec) :
    option group_error :=
  if decide (Path <$> specs = ["*"]) then None
  else if decide (length secrets ≠ length specs)
  then Some (SecretCount (length secrets) (length specs))
  else
    let aliasInSecrets : gset string := list_to_set (secretAlias <$> secrets) in
    let missingAliases := sort_strings (filter (λ a, a ∉ aliasInSecrets) (Alias <$> specs)) in
    if decide (missingAliases = []) then None else Some (MissingAliases missingAliases).

(** *** Permissions *)
Fixpoint perm_bits (perms : string) (expected : list (ascii * Z)) (result : Z) : option Z :=
  match expected, perms with
  | [], _ => Some result
  | (c, v) :: expected', String p perms' =>
      if decide (p = c) then perm_bits perms' expected' (result + v)
      else if decide (p = "-"%char) then perm_bits perms' expected' result
      else None
  | _ :: _, "" => None
  end.

Definition perm_values : list (ascii * Z) :=
  multipliers ← [64; 8; 1];
  [("r"%char, 4 * multipliers); ("w"%char, 2 * multipliers); ("x"%char, 1 * multipliers)].

(** The nine permission characters of the annotation. *)
Definition perm_body (perms : string) : option string :=
  match String.length perms with
  | 9%nat => Some perms
  | 10%nat =>
      match perms with
      | String c perms' => if decide (c = "-"%char) then Some perms' else None
      | "" => None
      end
  | _ => None
  end.

Definition permStrToFileMode (perms : string) : group_error + Z :=
  if decide (perms = "") then inr defaultFilePermissions
  else match perm_body perms with
       | None => inl (BadPermissionsFormat perms)
       | Some body =>
           if HasPrefix body "rw" then
             match perm_bits body perm_values 0 with
             | Some mode => inr mode
             | None => inl (BadPermissionsFormat perms)
             end
           else inl (BadPermissions body)
       end.

(** *** File paths *)
Definition group_file_paths (secretGroups : list SecretGroup) : gmap string (list string) :=
  foldl (λ m sg, map_append (FilePath sg) [Name sg] m) ∅ secretGroups.

Definition validateGroupFilePaths (o : range_order) (secretGroups : list SecretGroup) :
    list group_error :=
  omap (λ pg, if decide (1 < length pg.2)%nat then Some (DuplicatePath pg.1 pg.2) else None)
    (range o (group_file_paths secretGroups)).

(** *** From annotations to groups *)
Section groups.
Context (yaml_nodes : string → option (list yaml_node)) (engine : template_engine) (c : Config).
Implicit Types (annotations : gmap string string).

Definition readTemplateFromFile (groupName : string) : file_read :=
  openRead c (join2 (templatesBasePath c) (groupName +:+ ".tpl")).

Definition collectTemplate (groupName : string) annotations : group_error + string :=
  let annotationTemplate := annotations !!! (SecretGroupFileTemplatePrefix +:+ groupName) in
  match readTemplateFromFile groupName with
  | FileNotExist => inr annotationTemplate
  | FileError => inl (TemplateUnreadable groupName)
  | FileContent configmapTemplate =>
      if decide (annotationTemplate ≠ "" ∧ configmapTemplate ≠ "")
      then inl (TemplateTwice groupName)
      else if decide (annotationTemplate = "" ∧ configmapTemplate = "")
      then inl (TemplateMissing groupName)
      else inr configmapTemplate
  end.

Definition dummy_secrets (specs : list SecretSpec) : list Secret :=
  (λ s, mkSecret (Alias s) "REDACTED") <$> specs.

Definition validate (sg : SecretGroup) : list group_error :=
  match ValidateSecretPathsAndContents (SecretSpecs sg) (Name sg) with
  | [] =>
      match (if decide (FileFormat sg ≠ "" ∧ FileFormat sg ≠ "template")
             then FileTemplateForFormat (FileFormat sg) (SecretSpecs sg) else inr "") with
      | inl err => [BadFormat (Name sg) (FileFormat sg) err]
      | inr _ =>
          if decide (FileTemplate sg = "") then []
          else match render_template engine (Name sg) (FileTemplate sg)
                       (dummy_secrets (SecretSpecs sg)) with
               | Content _ => []
               | _ => [BadTemplate (Name sg)]
               end
      end
  | errors => SpecPath <$> errors
  end.

Definition set_file_path (sg : SecretGroup) (p : string) : SecretGroup :=
  mkSecretGroup (Name sg) p (FileTemplate sg) (FileFormat sg) (PolicyPathPrefix sg)
    (FilePermissions sg) (SecretSpecs sg).

(** The group of the annotations, before its validation. *)
Definition read_group (o : range_order) (groupName : string) annotations :
    group_error + SecretGroup :=
  let groupSecrets := annotations !!! (SecretGroupPrefix +:+ groupName) in
  let filePath := annotations !!! (secretGroupFilePathPrefix +:+ groupName) in
  let fileFormat := annotations !!! (secretGroupFileFormatPrefix +:+ groupName) in
  let policyPathPrefix :=
    TrimPrefix (annotations !!! (secretGroupPolicyPathPrefix +:+ groupName)) "/" in
  let filePermissions := annotations !!! (secretGroupFilePermissionsPrefix +:+ groupName) in
  match (if decide (fileFormat = "template") then collectTemplate groupName annotations
         else inr "") with
  | inl err => inl err
  | inr fileTemplate =>
      let fileFormat := if decide (fileFormat = "") then "yaml" else fileFormat in
      match permStrToFileMode filePermissions with
      | inl err => inl err
      | inr fileMode =>
          match NewSecretSpecs yaml_nodes o groupSecrets with
          | inl _ => inl (BadSpecs (SecretGroupPrefix +:+ groupName))
          | inr secretSpecs =>
              inr (mkSecretGroup groupName filePath fileTemplate fileFormat policyPathPrefix
                     fileMode (resolvedSecretSpecs policyPathPrefix secretSpecs))
          end
      end
  end.

Definition newSecretGroup (o : range_order) (groupName : string) annotations :
    list group_error + SecretGroup :=
  match read_group o groupName annotations with
  | inl err => inl [err]
  | inr sg =>
      match validate sg with
      | [] =>
          match absoluteFilePath sg (secretsBasePath c) with
          | inl err => inl [err]
          | inr p => inr (set_file_path sg p)
          end
      | errors => inl errors
      end
  end.

(** The loop over the annotations: the groups and the errors. *)
Fixpoint collect_secret_groups (sched : schedule) (i : nat) annotations (keys : list string) :
    list SecretGroup * list group_error :=
  match keys with
  | [] => ([], [])
  | key :: keys' =>
      let '(sgs, errors) := collect_secret_groups sched (S i) annotations keys' in
      if HasPrefix key SecretGroupPrefix then
        match newSecretGroup (loop sched i) (TrimPrefix key SecretGroupPrefix) annotations with
        | inl errs => (sgs, errs ++ errors)
        | inr sg => (sg :: sgs, errors)
        end
      else (sgs, errors)
  end.

(** Group names are unique, so the order of equal names does not matter. *)
Definition sort_groups (sgs : list SecretGroup) : list SecretGroup :=
  merge_sort (λ a b, String.le (Name a) (Name b)) sgs.

Definition newSecretGroupsWithDeps (sched : schedule) annotations :
    list group_error + list SecretGroup :=
  let '(sgs, errors) :=
    collect_secret_groups (sub sched 2) 0 annotations (range (loop sched 0) annotations).*1 in
  let errors := errors ++ validateGroupFilePaths (loop sched 1) sgs in
  if decide (errors = []) then inr (sort_groups sgs) else inl errors.
End groups.

(** ** Lemmas *)

(** *** Permissions *)

(** The nine characters of a mode. *)
Definition mode_string (mode : Z) : string :=
  foldr (λ cv s, String (if Z.land mode cv.2 =? 0 then "-"%char else cv.1) s) "" perm_values.

Lemma perm_bits_bounds expected perms r mode :
  Forall (λ cv, 0 <= cv.2) expected → perm_bits perms expected r = Some mode →
  r <= mode <= r + foldr (λ cv n, cv.2 + n) 0 expected.
Proof.
  revert perms r. induction expected as [|[c v] expected IH]; intros perms r Hf Hp.
  { destruct perms; injection Hp as ->; cbn; lia. }
  apply Forall_cons in Hf as [Hv Hf]. destruct perms as [|p perms]; [done|]. cbn [perm_bits] in Hp.
  cbn [foldr snd] in *. destruct (decide (p = c)).
  - apply IH in Hp; [lia|done].
  - destruct (decide (p = "-"%char)); [|done]. apply IH in Hp; [lia|done].
Qed.

Lemma perm_rw_bits body mode :
  HasPrefix body "rw" = true → perm_bits body perm_values 0 = Some mode → 384 <= mode < 512.
Proof.
  intros [r ->]%HasPrefix_spec Hp.
  change (perm_bits r (drop 2 perm_values) (0 + 4 * 64 + 2 * 64) = Some mode) in Hp.
  apply perm_bits_bounds in Hp; [|by repeat constructor; cbn; lia]. cbn in Hp. lia.
Qed.

(** *** Paths *)
Lemma Split_app s t c : Split (s +:+ String c t) c = Split s c ++ Split t c.
Proof.
  induction s as [|a s IH].
  - change ("" +:+ String c t) with (String c t). cbn [Split]. by rewrite decide_True.
  - rewrite append_cons. cbn [Split]. rewrite IH. destruct (decide (a = c)); [done|].
    pose proof (Split_not_nil s c). by destruct (Split s c).
Qed.

Lemma clean_steps_names stack elems :
  Forall (λ e, e ≠ "..") elems →
  foldl (clean_step true) stack elems = reverse (filter (λ e, e ≠ "" ∧ e ≠ ".") elems) ++ stack.
Proof.
  revert stack. induction elems as [|e elems IH]; intros stack Hf; [done|].
  apply Forall_cons in Hf as [He Hf]. cbn [foldl]. rewrite IH by done. unfold clean_step.
  rewrite filter_cons. destruct (decide (e = "" ∨ e = ".")) as [Hd|Hd].
  - by rewrite decide_False by naive_solver.
  - rewrite (decide_False _ _ He), decide_True by naive_solver.
    by rewrite reverse_cons, <- (assoc_L (++)).
Qed.

Lemma Split_clean_path elems :
  elems ≠ [] → Forall proper elems → Split (clean_path elems) "/"%char = "" :: elems.
Proof.
  intros Hne Hp. unfold clean_path. change ("/" +:+ ?s) with (String "/" s). cbn [Split].
  rewrite decide_True by done. f_equal. apply Split_Join; [done|].
  eapply Forall_impl; [done|]. by intros e (_ & _ & _ & ?).
Qed.

Lemma filter_proper elems : Forall proper elems → filter (λ e, e ≠ "" ∧ e ≠ ".") elems = elems.
Proof.
  induction 1 as [|e elems (? & ? & _) _ IH]; [done|]. by rewrite filter_cons_True, IH.
Qed.

(** Joining a relative path without ".." stays below the base directory. *)
Lemma join2_below base_elems rel :
  base_elems ≠ [] → Forall proper base_elems → Forall (λ e, e ≠ "..") (Split rel "/"%char) →
  join2 (clean_path base_elems) rel =
  clean_path (base_elems ++ filter (λ e, e ≠ "" ∧ e ≠ ".") (Split rel "/"%char)).
Proof.
  intros Hne Hb Hrel. unfold join2. rewrite decide_False by done.
  unfold Clean. replace (IsAbs (clean_path base_elems +:+ "/" +:+ rel)) with true
    by (symmetry; apply HasPrefix_spec; by eexists).
  unfold clean_path at 2. do 2 f_equal. unfold clean_elems.
  change (clean_path base_elems +:+ "/" +:+ rel) with (clean_path base_elems +:+ String "/" rel).
  rewrite Split_app, Split_clean_path by done.
  rewrite clean_steps_names.
  - rewrite app_nil_r, reverse_involutive. rewrite filter_app, filter_cons_False by naive_solver.
    by rewrite filter_proper.
  - apply Forall_app. split; [|done]. constructor; [done|].
    eapply Forall_impl; [done|]. by intros e (_ & _ & ? & _).
Qed.

(** *** Groups *)
(** The names that share a file path. *)
Lemma group_file_paths_lookup sgs p :
  group_file_paths sgs !!! p = Name <$> filter (λ sg, FilePath sg = p) sgs.
Proof.
  unfold group_file_paths.
  induction sgs as [|sg sgs IH] using rev_ind; [cbn [foldl]; by rewrite lookup_total_default, lookup_empty|].
  rewrite foldl_snoc, lookup_total_map_append, filter_app, fmap_app, filter_cons, filter_nil.
  destruct (decide (FilePath sg = p)) as [->|]; [by rewrite IH|]. by rewrite IH, app_nil_r.
Qed.

Lemma group_file_paths_dom sgs p :
  is_Some (group_file_paths sgs !! p) ↔ p ∈ FilePath <$> sgs.
Proof.
  unfold group_file_paths.
  induction sgs as [|sg sgs IH] using rev_ind.
  { cbn. rewrite lookup_empty. split; [by intros [? ?]|by intros ?%not_elem_of_nil]. }
  rewrite foldl_snoc, map_append_lookup, fmap_app, elem_of_app. cbn [fmap list_fmap].
  rewrite list_elem_of_singleton. destruct (decide (FilePath sg = p)) as [->|Hne].
  - split; [by right|by eexists].
  - rewrite IH. naive_solver.
Qed.

Lemma NoDup_paths sgs :
  NoDup (FilePath <$> sgs) ↔ ∀ p, (length (filter (λ sg, FilePath sg = p) sgs) ≤ 1)%nat.
Proof.
  induction sgs as [|sg sgs IH]; [split; [intros _ p; cbn; lia|constructor]|].
  rewrite fmap_cons, NoDup_cons, IH. split.
  - intros [Hni Hall] p. rewrite filter_cons. destruct (decide (FilePath sg = p)) as [<-|]; [|done].
    cbn [length]. destruct (filter _ sgs) as [|sg' l] eqn:Hf; [cbn; lia|]. exfalso. apply Hni.
    assert (sg' ∈ filter (λ sg0, FilePath sg0 = FilePath sg) sgs) as Hin by (rewrite Hf; by left).
    apply list_elem_of_filter in Hin as [<- Hin]. by apply list_elem_of_fmap_2.
  - intros Hall. split.
    + intros (sg' & Heq & Hin)%list_elem_of_fmap. specialize (Hall (FilePath sg)).
      rewrite filter_cons_True in Hall by done. cbn [length] in Hall.
      assert (sg' ∈ filter (λ sg0, FilePath sg0 = FilePath sg) sgs) as Hin'
        by by apply list_elem_of_filter.
      destruct (filter _ sgs); [by apply not_elem_of_nil in Hin'|cbn in Hall; lia].
    + intros p. specialize (Hall p). rewrite filter_cons in Hall.
      destruct (decide (FilePath sg = p)); cbn [length] in Hall; lia.
Qed.

Lemma validateGroupFilePaths_nil o sgs :
  validateGroupFilePaths o sgs = [] ↔ NoDup (FilePath <$> sgs).
Proof.
  rewrite NoDup_paths. unfold validateGroupFilePaths. split.
  - intros Hnil p. rewrite <- (length_fmap Name), <- group_file_paths_lookup.
    destruct (group_file_paths sgs !! p) as [names|] eqn:Hp;
      [|rewrite lookup_total_default, Hp; cbn; lia].
    rewrite (lookup_total_correct _ _ _ Hp).
    destruct (decide (1 < length names)%nat) as [Hlt|]; [exfalso|lia].
    assert (DuplicatePath p names ∈ (omap (λ pg : string * list string,
      if decide (1 < length pg.2)%nat then Some (DuplicatePath pg.1 pg.2) else None)
      (range o (group_file_paths sgs)))) as Hin.
    { apply list_elem_of_omap. exists (p, names). split; [by apply elem_of_range|].
      cbn. by rewrite decide_True. }
    rewrite Hnil in Hin. by apply not_elem_of_nil in Hin.
  - intros Hall. destruct (omap _ _) as [|e l] eqn:Hom; [done|]. exfalso.
    assert (e ∈ e :: l) as Hin by by left. rewrite <- Hom in Hin.
    apply list_elem_of_omap in Hin as ([p names] & Hr%elem_of_range & Hd). cbn in Hd.
    destruct (decide _) as [Hlt|]; [|done]. specialize (Hall p).
    rewrite <- (length_fmap Name), <- group_file_paths_lookup in Hall.
    rewrite (lookup_total_correct _ _ _ Hr) in Hall. lia.
Qed.

Section groups_lemmas.
Context (yaml_nodes : string → option (list yaml_node)) (engine : template_engine) (c : Config).

Lemma newSecretGroup_order o o' g annots :
  newSecretGroup yaml_nodes engine c o g annots = newSecretGroup yaml_nodes engine c o' g annots.
Proof.
  unfold newSecretGroup, read_group. by rewrite (NewSecretSpecs_order yaml_nodes o o').
Qed.

(** The group of an annotation, for any order. *)
Definition group_of annots (g : string) : list group_error + SecretGroup :=
  newSecretGroup yaml_nodes engine c canonical_order g annots.

Lemma newSecretGroup_name o g annots sg :
  newSecretGroup yaml_nodes engine c o g annots = inr sg → Name sg = g.
Proof.
  unfold newSecretGroup. destruct (read_group _ _ _ _ _) as [e|sg'] eqn:Hr; [done|].
  destruct (validate _ sg'); [|done]. destruct (absoluteFilePath _ _); [done|].
  intros [= <-]. cbn. revert Hr. unfold read_group. destruct (if decide _ then _ else _); [done|].
  destruct (permStrToFileMode _); [done|]. destruct (NewSecretSpecs _ _ _); [done|].
  by intros [= <-].
Qed.

Lemma newSecretGroup_inl_nonempty o g annots errs :
  newSecretGroup yaml_nodes engine c o g annots = inl errs → errs ≠ [].
Proof.
  unfold newSecretGroup. destruct (read_group _ _ _ _ _) as [e|sg]; [by intros [= <-]|].
  destruct (validate engine sg) as [|e l] eqn:Hv.
  - destruct (absoluteFilePath _ _); [by intros [= <-]|done].
  - by intros [= <-].
Qed.

Lemma collect_groups_spec sched i annots keys sgs errors :
  collect_secret_groups yaml_nodes engine c sched i annots keys = (sgs, errors) →
  (∀ sg, sg ∈ sgs ↔ ∃ g, SecretGroupPrefix +:+ g ∈ keys ∧ group_of annots g = inr sg) ∧
  (errors = [] ↔ ∀ g, SecretGroupPrefix +:+ g ∈ keys → ∃ sg, group_of annots g = inr sg) ∧
  (NoDup keys → NoDup (Name <$> sgs)).
Proof.
  revert i sgs errors. induction keys as [|key keys IH]; intros i sgs errors Hc.
  { injection Hc as <- <-. split_and!.
    - intros sg. split; [by intros ?%not_elem_of_nil|by intros (g & ?%not_elem_of_nil & _)].
    - split; [by intros _ g ?%not_elem_of_nil|done].
    - constructor. }
  cbn [collect_secret_groups] in Hc.
  destruct (collect_secret_groups _ _ _ _ (S i) _ keys) as [sgs1 errors1] eqn:Hrec.
  destruct (IH _ _ _ Hrec) as (Hin & Herr & Hnd). clear IH.
  destruct (HasPrefix key SecretGroupPrefix) eqn:Hpre.
  - pose proof (HasPrefix_TrimPrefix _ _ Hpre) as Hkey. set (g := TrimPrefix key SecretGroupPrefix) in *.
    rewrite (newSecretGroup_order _ canonical_order) in Hc. fold (group_of annots g) in Hc.
    assert (∀ g', SecretGroupPrefix +:+ g' ∈ key :: keys ↔
                  g' = g ∨ SecretGroupPrefix +:+ g' ∈ keys) as Hg.
    { intros g'. rewrite elem_of_cons, Hkey. split.
      - intros [Heq%append_inj_l|?]; [by left|by right].
      - intros [->|?]; [by left|by right]. }
    destruct (group_of annots g) as [errs|sg] eqn:Hnew; injection Hc as <- <-.
    + split_and!.
      * intros sg. rewrite Hin. setoid_rewrite Hg. split; [naive_solver|].
        intros (g' & [->|?] & Hok); [congruence|by exists g'].
      * split.
        -- intros [He _]%app_nil. by destruct (newSecretGroup_inl_nonempty _ _ _ _ Hnew).
        -- intros Hall. destruct (Hall g) as [sg Hsg]; [apply Hg; by left|]. congruence.
      * intros Hk. apply Hnd. by apply NoDup_cons in Hk as [_ ?].
    + split_and!.
      * intros sg'. rewrite elem_of_cons, Hin. setoid_rewrite Hg. split; [naive_solver|].
        intros (g' & [->|?] & Hok); [left; congruence|right; by exists g'].
      * rewrite Herr. split.
        -- intros Hall g' [->|?]%Hg; [by exists sg|by apply Hall].
        -- intros Hall g' Hg'. apply Hall, Hg. by right.
      * intros [Hni Hk]%NoDup_cons. rewrite fmap_cons. apply NoDup_cons. split; [|by apply Hnd].
        intros (sg' & Heq & (g' & Hg' & Hok)%Hin)%list_elem_of_fmap. apply Hni.
        rewrite Hkey. apply newSecretGroup_name in Hok, Hnew. congruence.
  - injection Hc as <- <-.
    assert (∀ g', SecretGroupPrefix +:+ g' ∈ key :: keys ↔ SecretGroupPrefix +:+ g' ∈ keys) as Hg.
    { intros g'. rewrite elem_of_cons. split; [|by right]. intros [Heq|?]; [|done].
      by rewrite <- Heq, HasPrefix_app in Hpre. }
    setoid_rewrite Hg. split_and!; [done|done|]. intros [_ ?]%NoDup_cons. by apply Hnd.
Qed.

(** The annotations name the group [g]. *)
Definition annotated (annots : gmap string string) (g : string) : Prop :=
  is_Some (annots !! (SecretGroupPrefix +:+ g)).

Lemma sort_groups_perm sgs : sort_groups sgs ≡ₚ sgs.
Proof. apply merge_sort_Permutation. Qed.

Lemma sort_groups_sorted sgs : StronglySorted String.le (Name <$> sort_groups sgs).
Proof.
  assert (StronglySorted (λ a b, String.le (Name a) (Name b)) (sort_groups sgs)) as Hs.
  { apply StronglySorted_merge_sort; [intros x y z; by etrans|intros x y; apply (total String.le)]. }
  induction Hs as [|sg l Hs IH Hf]; [constructor|]. rewrite fmap_cons. constructor; [done|].
  by apply Forall_fmap.
Qed.

(** A list of groups that is sorted by distinct names is determined by its
    elements. *)
Lemma sorted_groups_unique sgs sgs' :
  (∀ sg, sg ∈ sgs ↔ sg ∈ sgs') → NoDup (Name <$> sgs) → NoDup (Name <$> sgs') →
  StronglySorted String.le (Name <$> sgs) → StronglySorted String.le (Name <$> sgs') → sgs = sgs'.
Proof.
  intros Hin Hnd Hnd' Hs Hs'.
  assert (Name <$> sgs = Name <$> sgs') as Hnames.
  { apply (StronglySorted_unique String.le); [done..|]. apply fmap_Permutation, NoDup_Permutation;
      [by eapply NoDup_fmap_1|by eapply NoDup_fmap_1|done]. }
  apply list_eq. intros i. apply (f_equal (lookup i)) in Hnames as Hi.
  rewrite !list_lookup_fmap in Hi.
  destruct (sgs !! i) as [a|] eqn:Ha, (sgs' !! i) as [b|] eqn:Hb; try done. f_equal.
  injection Hi as Hab. apply list_elem_of_lookup_2 in Ha as Ha'. apply Hin in Ha'.
  apply list_elem_of_lookup in Ha' as [j Hj].
  assert (i = j) as <-; [|congruence].
  eapply (NoDup_lookup (Name <$> sgs')); [done| |]; rewrite list_lookup_fmap.
  - by rewrite Hb.
  - rewrite Hj. cbn. by rewrite Hab.
Qed.

(** The successful results, without reference to an iteration order. *)
Definition groups_spec (annots : gmap string string) (sgs : list SecretGroup) : Prop :=
  (∀ g, annotated annots g → ∃ sg, group_of annots g = inr sg) ∧
  (∀ sg, sg ∈ sgs ↔ ∃ g, annotated annots g ∧ group_of annots g = inr sg) ∧
  NoDup (FilePath <$> sgs) ∧ NoDup (Name <$> sgs) ∧ StronglySorted String.le (Name <$> sgs).

Lemma newSecretGroups_inr sched annots sgs :
  newSecretGroupsWithDeps yaml_nodes engine c sched annots = inr sgs ↔ groups_spec annots sgs.
Proof.
  unfold newSecretGroupsWithDeps.
  destruct (collect_secret_groups _ _ _ _ _ _ _) as [sgs0 errors] eqn:Hc.
  apply collect_groups_spec in Hc as (Hin & Herr & Hnd).
  assert (∀ g, SecretGroupPrefix +:+ g ∈ (range (loop sched 0) annots).*1 ↔ annotated annots g) as Hk
    by (intros g; apply elem_of_range_keys).
  setoid_rewrite Hk in Hin. setoid_rewrite Hk in Herr. clear Hk.
  specialize (Hnd (range_NoDup_keys _ _)).
  pose proof (sort_groups_perm sgs0) as Hp.
  assert (errors = [] → NoDup (FilePath <$> sgs0) → groups_spec annots (sort_groups sgs0)) as Hspec.
  { intros He Hpaths. split_and!; [by apply Herr| | | |apply sort_groups_sorted].
    - intros sg. by rewrite Hp.
    - by rewrite Hp.
    - by rewrite Hp. }
  destruct (decide (errors ++ validateGroupFilePaths (loop sched 1) sgs0 = [])) as [He|He].
  - apply app_nil in He as [He Hv%validateGroupFilePaths_nil]. specialize (Hspec He Hv).
    split; [by intros [= <-]|]. intros Hsgs. f_equal.
    destruct Hspec as (_ & Hin1 & _ & Hn1 & Hs1), Hsgs as (_ & Hin2 & _ & Hn2 & Hs2).
    apply sorted_groups_unique; try done. intros sg. by rewrite Hin1, Hin2.
  - split; [done|]. intros (Hall & Hin2 & Hpaths & Hn2 & _). exfalso. apply He.
    apply app_nil. split; [by apply Herr|]. apply (validateGroupFilePaths_nil).
    assert (sgs0 ≡ₚ sgs) as ->; [|done].
    apply NoDup_Permutation; [by eapply NoDup_fmap_1|by eapply NoDup_fmap_1|].
    intros sg. by rewrite Hin, Hin2.
Qed.
End groups_lemmas.

Lemma Join_app ws ws' sep :
  ws ≠ [] → ws' ≠ [] → Join (ws ++ ws') sep = Join ws sep +:+ sep +:+ Join ws' sep.
Proof.
  intros Hne Hne'. induction ws as [|w [|w2 ws] IH]; [done| |].
  - cbn [app]. by destruct ws'.
  - change (Join ((w :: w2 :: ws) ++ ws') sep) with (w +:+ sep +:+ Join ((w2 :: ws) ++ ws') sep).
    rewrite IH by done. change (Join (w :: w2 :: ws) sep) with (w +:+ sep +:+ Join (w2 :: ws) sep).
    by rewrite !append_assoc_str.
Qed.

Lemma clean_path_prefix base names :
  base ≠ [] → HasPrefix (clean_path (base ++ names)) (clean_path base) = true.
Proof.
  intros Hb. apply HasPrefix_spec. destruct names as [|n names].
  - exists "". by rewrite app_nil_r, append_nil_r.
  - exists ("/" +:+ Join (n :: names) "/"). unfold clean_path. by rewrite Join_app.
Qed.

Definition permissions_ok (mode : Z) : bool :=
  negb (Z.land mode 384 =? 384) ||
  match permStrToFileMode (mode_string mode), permStrToFileMode ("-" +:+ mode_string mode) with
  | inr m, inr m' => (m =? mode) && (m' =? mode)
  | _, _ => false
  end.

Lemma permissions_all_ok : forallb permissions_ok (seqZ 0 512) = true.
Proof. vm_compute. reflexivity. Qed.

(** ** Properties *)

(** C25: the groups of a set of annotations are determined by the
    annotations, whatever order they are visited in: the call succeeds exactly
    when every annotated group is valid and no two of them share a file path,
    and then returns each of them once, sorted by name. *)
Theorem newSecretGroups_spec yaml_nodes engine c sched annots sgs :
  newSecretGroupsWithDeps yaml_nodes engine c sched annots = inr sgs ↔
  groups_spec yaml_nodes engine c annots sgs.
Proof. apply newSecretGroups_inr. Qed.

(** C39: a file path with a file name and without ".." elements stays
    below a clean base directory: the absolute path is the base followed by
    the names of the path, and it is refused only when the file name is longer
    than 255 bytes. *)
Theorem absoluteFilePath_below sg base :
  base ≠ [] → Forall proper base →
  IsAbs (FilePath sg) = false → FilePath sg ≠ "" → HasSuffix (FilePath sg) "/" = false →
  Forall (λ e, e ≠ "..") (Split (FilePath sg) "/"%char) →
  let p := clean_path (base ++ filter (λ e, e ≠ "" ∧ e ≠ ".") (Split (FilePath sg) "/"%char)) in
  absoluteFilePath sg (clean_path base) =
  if (maxFilenameLen <? String.length (split_file p))%nat
  then inl (FilenameTooLong (split_file p) (Name sg)) else inr p.
Proof.
  intros Hne Hb Hrel Hf Hs Hdd p. unfold absoluteFilePath. rewrite Hrel, Hs.
  rewrite bool_decide_eq_false_2 by done. cbn [negb andb].
  rewrite join2_below by done. fold p. unfold p at 1.
  rewrite clean_path_prefix by done. done.
Qed.

Lemma absoluteFilePath_below_witness :
  absoluteFilePath (mkSecretGroup "g" "app//./db.yaml" "" "yaml" "" 420 []) "/conjur/secrets" =
  inr "/conjur/secrets/app/db.yaml".
Proof.
  etrans; [apply (absoluteFilePath_below (mkSecretGroup "g" "app//./db.yaml" "" "yaml" "" 420 [])
    ["conjur"; "secrets"])|].
  - discriminate.
  - repeat constructor; by vm_compute.
  - reflexivity.
  - discriminate.
  - vm_compute. reflexivity.
  - repeat constructor; discriminate.
  - vm_compute. reflexivity.
Defined.

(** The check that a file path stays below the base directory
    compares text, not path elements: with the default base directory, a path
    with ".." reaches a sibling directory whose name starts like the base, and
    the base directory itself. *)
Theorem absoluteFilePath_escapes :
  let group f := mkSecretGroup "g" f "" "yaml" "" 420 [] in
  absoluteFilePath (group "../secrets-other/x") "/conjur/secrets" = inr "/conjur/secrets-other/x" ∧
  absoluteFilePath (group "x/..") "/conjur/secrets" = inr "/conjur/secrets" ∧
  absoluteFilePath (group "../x") "/conjur/secrets" = inl (OutsideBasePath "../x" "g").
Proof. vm_compute. done. Qed.

(** A mode that gives its owner read and write access is parsed back
    from its nine-character string, with or without a leading dash. *)
Theorem permissions_roundtrip mode :
  0 <= mode < 512 → Z.land mode 384 = 384 →
  permStrToFileMode (mode_string mode) = inr mode ∧
  permStrToFileMode ("-" +:+ mode_string mode) = inr mode.
Proof.
  intros Hm Hrw. pose proof permissions_all_ok as Hall. rewrite forallb_forall in Hall.
  specialize (Hall mode). unfold permissions_ok in Hall. rewrite Hrw in Hall. cbn [negb orb] in Hall.
  destruct (permStrToFileMode (mode_string mode)) as [e|m], (permStrToFileMode _) as [e'|m'];
    try (exfalso; discriminate Hall; apply list_elem_of_In, elem_of_seqZ; lia).
  assert ((m =? mode) && (m' =? mode) = true) as [->%Z.eqb_eq ->%Z.eqb_eq]%andb_true_iff; [|done].
  apply Hall, list_elem_of_In, elem_of_seqZ. lia.
Qed.

Lemma permissions_roundtrip_witness : permStrToFileMode "rw-r--r--" = inr 420.
Proof. apply (permissions_roundtrip 420); [lia|reflexivity]. Defined.

(** Whatever the annotation says, an accepted file mode has no bits
    beyond the nine permission bits and always lets the owner read and write. *)
Theorem permissions_bounds perms mode :
  permStrToFileMode perms = inr mode → 384 <= mode < 512.
Proof.
  unfold permStrToFileMode. destruct (decide (perms = "")).
  { intros [= <-]. unfold defaultFilePermissions. lia. }
  destruct (perm_body perms) as [body|]; [|done].
  destruct (HasPrefix body "rw") eqn:Hrw; [|done].
  destruct (perm_bits body perm_values 0) as [m|] eqn:Hb; [|done]. intros [= <-].
  by eapply perm_rw_bits.
Qed.

Lemma permissions_bounds_witness : 384 <= 488 < 512.
Proof. apply (permissions_bounds "-rwxr-x---"). vm_compute. reflexivity. Defined.
