(* ===== verification/AtomicWriter.v ===== *)
(** * The atomic writer (pkg/atomicwriter)

    A writer that collects its content in a temporary file and renames it over
    the destination when it is closed. The operating system is the record
    [osFuncs] of the calls, with their documented effect on the files as the
    class [FileSystem]; [sim_os] is an in-memory file system whose calls can
    be made to fail. *)

From S2P Require Import Prelude GoString GoPath.
Open Scope Z_scope.

(** An error that [os.IsNotExist] recognizes, or any other. *)
Inductive os_error := ENotExist | EOther.

(** ** The OS function table

    An open temporary file is known by its name. *)
Record osFuncs (F : Type) := mkOsFuncs {
  chmod : string → Z → M F os_error unit;
  rename : string → string → M F os_error unit;
  remove : string → M F os_error unit;
  sync : string → M F os_error unit;
  tempFile : string → string → M F os_error string;
  truncate : string → Z → M F os_error unit;
  write : string → string → M F os_error unit
}.
Arguments chmod {F} _ _ _.
Arguments rename {F} _ _ _.
Arguments remove {F} _ _.
Arguments sync {F} _ _.
Arguments tempFile {F} _ _ _.
Arguments truncate {F} _ _ _.
Arguments write {F} _ _ _.

(** What the calls do to the content of the files: a call that fails changes
    nothing, except that a failed write may leave part of its content in the
    file it writes to. *)
Class FileSystem {F : Type} (os : osFuncs F) := {
  content : F → string → option string;
  no_panic_chmod p m f : (chmod os p m f).1 ≠ Panic;
  no_panic_rename p q f : (rename os p q f).1 ≠ Panic;
  no_panic_remove p f : (remove os p f).1 ≠ Panic;
  no_panic_sync p f : (sync os p f).1 ≠ Panic;
  no_panic_temp d n f : (tempFile os d n f).1 ≠ Panic;
  no_panic_truncate p k f : (truncate os p k f).1 ≠ Panic;
  no_panic_write p c f : (write os p c f).1 ≠ Panic;
  chmod_content p m f q : content (chmod os p m f).2 q = content f q;
  sync_content p f q : content (sync os p f).2 q = content f q;
  rename_ok p p' f f' : rename os p p' f = (Ret tt, f') → p ≠ p' →
    ∀ q, content f' q = if decide (q = p') then content f p
                        else if decide (q = p) then None else content f q;
  rename_fail p p' f f' e : rename os p p' f = (Fail e, f') → ∀ q, content f' q = content f q;
  remove_ok p f f' : remove os p f = (Ret tt, f') →
    ∀ q, content f' q = if decide (q = p) then None else content f q;
  remove_fail p f f' e : remove os p f = (Fail e, f') →
    (∀ q, content f' q = content f q) ∧ (e = ENotExist → content f p = None);
  temp_ok d n f f' name : tempFile os d n f = (Ret name, f') →
    content f name = None ∧ name ≠ d +:+ n ∧
    ∀ q, content f' q = if decide (q = name) then Some "" else content f q;
  temp_fail d n f f' e : tempFile os d n f = (Fail e, f') → ∀ q, content f' q = content f q;
  truncate_ok p f f' : truncate os p 0 f = (Ret tt, f') →
    ∀ q, content f' q = if decide (q = p) then Some "" else content f q;
  truncate_fail p f f' e : truncate os p 0 f = (Fail e, f') →
    (∀ q, content f' q = content f q) ∧ (e = ENotExist → content f p = None);
  write_ok p c f f' : write os p c f = (Ret tt, f') →
    ∀ q, content f' q = if decide (q = p) then Some (default "" (content f p) +:+ c) else content f q;
  write_fail p c f f' e : write os p c f = (Fail e, f') →
    ∀ q, q ≠ p → content f' q = content f q
}.

(** ** The writer *)
Record atomicWriter := mkWriter {
  path : string;
  permissions : Z;
  temp : option string
}.

Definition NewAtomicWriter (path : string) (permissions : Z) : atomicWriter :=
  mkWriter path permissions None.

Definition set_temp (w : atomicWriter) (t : option string) : atomicWriter :=
  mkWriter (path w) (permissions w) t.

Section writer.
Context {F : Type} (os : osFuncs F).

#[local] Abbreviation MW := (M (atomicWriter * F)).

Definition on_writer {E} (f : atomicWriter → atomicWriter) : MW E unit :=
  modify (λ s, (f s.1, s.2)).
Definition call_os {A} (m : M F os_error A) : MW os_error A :=
  λ s, let '(r, f) := m s.2 in (r, (s.1, f)).

(** Remove the temporary file, or at least its content. *)
Definition Cleanup {E} : MW E unit :=
  w ← gets fst;
  match temp w with
  | None => mret tt
  | Some name =>
      removed ← try (call_os (remove os name));
      match removed with
      | inr _ | inl ENotExist => on_writer (λ w, set_temp w None)
      | inl EOther =>
          truncated ← try (call_os (truncate os name 0));
          match truncated with
          | inl ENotExist => on_writer (λ w, set_temp w None)
          | _ => mret tt
          end
      end
  end.

Definition ensure_temp : MW os_error string :=
  w ← gets fst;
  match temp w with
  | Some name => mret name
  | None =>
      name ← call_os (tempFile os (split_dir (path w)) (split_file (path w)));
      _ ← on_writer (λ w, set_temp w (Some name));
      mret name
  end.

Definition Write (c : string) : MW os_error unit :=
  name ← ensure_temp;
  on_error (call_os (write os name c)) (λ err, _ ← Cleanup; throw err).

(** The body of [Close], before the deferred [Cleanup]. *)
Definition close_body (name : string) : MW os_error unit :=
  w ← gets fst;
  _ ← call_os (sync os name);
  _ ← try (call_os (chmod os name (permissions w)));
  _ ← call_os (rename os name (path w));
  on_writer (λ w, set_temp w None).

Definition Close : MW os_error unit :=
  w ← gets fst;
  match temp w with
  | None => mret tt
  | Some name =>
      result ← try (close_body name);
      _ ← Cleanup;
      match result with inl err => throw err | inr _ => mret tt end
  end.
End writer.

(** ** Lemmas *)
Lemma split_dir_file p : split_dir p +:+ split_file p = p.
Proof.
  unfold split_dir, split_file. rewrite <- FileTemplates.slice_after_last. apply slice_to_from.
Qed.

Section lemmas.
Context {F : Type} (os : osFuncs F) `{!FileSystem os}.
Implicit Types (w : atomicWriter) (f : F).

(** Removing a file works unless it is not there. *)
Definition removable : Prop := ∀ name f, (remove os name f).1 ≠ Fail EOther.

(** Temporary files can be made and written. *)
Definition writable : Prop :=
  (∀ d n f e, (tempFile os d n f).1 ≠ Fail e) ∧ ∀ p c f e, (write os p c f).1 ≠ Fail e.

(** Flushing works, and so does renaming a file that is there. *)
Definition reliable : Prop :=
  (∀ name f, (sync os name f).1 = Ret tt) ∧
  ∀ name p f, content f name ≠ None → (rename os name p f).1 = Ret tt.

Definition same_files f f' : Prop := ∀ q, content f' q = content f q.

(** The files are those of [f], and the file [name], which [f] does not have. *)
Definition plus_file (name : string) (c : option string) f f' : Prop :=
  content f name = None ∧ ∀ q, content f' q = if decide (q = name) then c else content f q.

Lemma call_os_run {A} (m : M F os_error A) w f : call_os m (w, f) = ((m f).1, (w, (m f).2)).
Proof. unfold call_os. cbn. by destruct (m f). Qed.

Lemma plus_file_removed name c f f' f'' :
  plus_file name c f f' → (∀ q, content f'' q = if decide (q = name) then None else content f' q) →
  same_files f f''.
Proof.
  intros [Hn Hc] Hr q. rewrite Hr. destruct (decide (q = name)) as [->|Hq]; [done|].
  by rewrite Hc, decide_False.
Qed.

Lemma Cleanup_none {E} w f :
  temp w = None → Cleanup os (E := E) (w, f) = (Ret tt, (w, f)).
Proof. intros Hw. unfold Cleanup, gets, mbind, M_bind. cbn. by rewrite Hw. Qed.

Lemma Cleanup_some {E} w f0 f name c :
  removable → temp w = Some name → plus_file name c f0 f →
  wp (Cleanup os (E := E)) (λ r t, r = Ret tt ∧ path t.1 = path w ∧ temp t.1 = None ∧
    same_files f0 t.2) (w, f).
Proof.
  intros Hrem Hw Hf. unfold Cleanup. apply wp_bind. unfold wp at 1, gets. cbn. rewrite Hw.
  apply wp_bind, wp_try. unfold wp at 1. rewrite call_os_run. cbn.
  pose proof (no_panic_remove name f) as Hnp. specialize (Hrem name f).
  destruct (remove os name f) as [[[]|e|] f1] eqn:Hrm; [| |done]; cbn.
  - unfold wp. cbn. split_and!; try done.
    by eapply plus_file_removed, (remove_ok _ _ _ Hrm).
  - destruct e; [|done]. destruct (remove_fail _ _ _ _ Hrm) as [Hc He]. specialize (He eq_refl).
    unfold wp. cbn. split_and!; try done.
    eapply plus_file_removed; [done|]. intros q. rewrite Hc.
    by destruct (decide (q = name)) as [->|].
Qed.

(** The outcomes of a write to a fresh writer: nothing is left behind, or a
    new file that is not the destination holds the content. *)
Definition written_temp (p c : string) f (r : outcome os_error unit) w f' : Prop :=
  path w = p ∧
  match r with
  | Ret _ => ∃ name, name ≠ p ∧ temp w = Some name ∧ plus_file name (Some c) f f'
  | Fail _ => temp w = None ∧ same_files f f' ∧ (writable → False)
  | Panic => False
  end.

Lemma Write_spec p m c f :
  removable → wp (Write os c) (λ r t, written_temp p c f r t.1 t.2) (NewAtomicWriter p m, f).
Proof.
  intros Hrem. unfold Write, ensure_temp. apply wp_bind, wp_bind. unfold wp at 1, gets. cbn.
  apply wp_bind. unfold wp at 1. rewrite call_os_run. cbn.
  pose proof (no_panic_temp (split_dir p) (split_file p) f) as Hnp.
  destruct (tempFile os _ _ f) as [[name|e|] f1] eqn:Ht; [| |done]; cbn.
  2: { split; [done|]. split_and!; [done|exact (temp_fail _ _ _ _ _ Ht)|].
       intros [Hwr _]. apply (Hwr (split_dir p) (split_file p) f e). by rewrite Ht. }
  destruct (temp_ok _ _ _ _ _ Ht) as (Hfresh & Hname & Hc). rewrite split_dir_file in Hname.
  assert (plus_file name (Some "") f f1) as Hf1 by by split.
  apply wp_bind. unfold wp at 1. cbn. unfold wp at 1. cbn.
  apply wp_on_error. unfold wp at 1. rewrite call_os_run. cbn.
  pose proof (no_panic_write name c f1) as Hnpw.
  destruct (write os name c f1) as [[[]|e|] f2] eqn:Hw; [| |done]; cbn.
  - split; [done|]. exists name. do 2 (split; [done|]). split; [done|]. intros q.
    rewrite (write_ok _ _ _ _ Hw), !Hc. rewrite (decide_True _ _ (eq_refl name)). cbn.
    by destruct (decide (q = name)).
  - apply wp_bind.
    assert (plus_file name (content f2 name) f f2) as Hf2.
    { split; [done|]. intros q. destruct (decide (q = name)) as [->|Hq]; [done|].
      by rewrite (write_fail _ _ _ _ _ Hw), Hc, decide_False. }
    eapply wp_mono; [by eapply Cleanup_some|]. intros r [w3 f3] (-> & Hp & Htemp & Hs).
    split; [done|]. split_and!; [done..|]. intros [_ Hwr]. apply (Hwr name c f1 e). by rewrite Hw.
Qed.

(** The outcomes of closing it: the destination holds the content, or nothing
    has changed. *)
Definition closed (p : string) (c : option string) f (r : outcome os_error unit) f' : Prop :=
  match r with
  | Ret _ => ∀ q, content f' q = if decide (q = p) then c else content f q
  | Fail _ => same_files f f'
  | Panic => False
  end.

Lemma Close_spec w f0 f name c :
  removable → temp w = Some name → name ≠ path w → plus_file name (Some c) f0 f →
  wp (Close os) (λ r t, closed (path w) (Some c) f0 r t.2 ∧ (reliable → r = Ret tt)) (w, f).
Proof.
  intros Hrem Hw Hne Hf. set (Q := λ (r : outcome os_error unit) (t : atomicWriter * F),
    closed (path w) (Some c) f0 r t.2 ∧ (reliable → r = Ret tt)).
  assert (∀ e f1, plus_file name (Some c) f0 f1 → (reliable → False) →
    wp (Cleanup os ≫= λ _, throw e) Q (w, f1)) as Hfail.
  { intros e f1 Hf1 Hnr. apply wp_bind. eapply wp_mono; [by eapply Cleanup_some|].
    intros r [w2 f2] (-> & _ & _ & Hs). split; [done|]. by intros ?%Hnr. }
  unfold Close. apply wp_bind. unfold wp at 1, gets. cbn. rewrite Hw.
  apply wp_bind, wp_try. unfold close_body. apply wp_bind. unfold wp at 1, gets. cbn.
  apply wp_bind. unfold wp at 1. rewrite call_os_run. cbn.
  pose proof (no_panic_sync name f) as Hnp. pose proof (sync_content name f) as Hsy.
  destruct (sync os name f) as [[[]|e|] f1] eqn:Hsync; cbn in *; [| |done].
  2: { apply Hfail; [|intros [Hr _]; specialize (Hr name f); by rewrite Hsync in Hr].
       destruct Hf as [? Hf]. split; [done|]. intros q. by rewrite Hsy. }
  apply wp_bind, wp_try. unfold wp at 1. rewrite call_os_run. cbn.
  pose proof (no_panic_chmod name (permissions w) f1) as Hnp1.
  pose proof (chmod_content name (permissions w) f1) as Hch.
  assert (plus_file name (Some c) f0 (chmod os name (permissions w) f1).2) as Hf2.
  { destruct Hf as [? Hf]. split; [done|]. intros q. by rewrite Hch, Hsy. }
  assert (wp (call_os (rename os name (path w)) ≫= λ _, on_writer (λ w, set_temp w None))
    (λ (r : outcome os_error unit) t,
     match r with
     | Ret _ => wp (Cleanup os ≫= λ _, mret tt) Q t
     | Fail e => wp (Cleanup os ≫= λ _, throw e) Q t
     | Panic => False
     end) (w, (chmod os name (permissions w) f1).2)) as Hrename.
  { generalize dependent (chmod os name (permissions w) f1).2. intros f2 _ Hf2.
    apply wp_bind. unfold wp at 1. rewrite call_os_run. cbn.
    pose proof (no_panic_rename name (path w) f2) as Hnp2. destruct Hf2 as [Hn Hc].
    destruct (rename os name (path w) f2) as [[[]|e|] f3] eqn:Hr; [| |done]; cbn.
    - unfold wp at 1. cbn. apply wp_bind. unfold wp at 1. rewrite Cleanup_none by done. cbn.
      split; [|done]. intros q. rewrite (rename_ok _ _ _ _ Hr), !Hc by done.
      destruct (decide (q = path w)); [by rewrite decide_True|].
      by destruct (decide (q = name)) as [->|].
    - apply Hfail.
      + split; [done|]. intros q. by rewrite (rename_fail _ _ _ _ _ Hr).
      + intros [_ Hrel]. specialize (Hrel name (path w) f2). rewrite Hr, Hc, decide_True in Hrel by done.
        by discriminate Hrel. }
  destruct (chmod os name (permissions w) f1) as [[[]|e|] f2]; cbn in *; [| |done];
    (eapply wp_mono; [exact Hrename|]; by intros [[]|?|] ?).
Qed.
End lemmas.

(** ** An in-memory file system

    Files by path; [deny] lists the calls that fail. *)
Abbreviation sim_fs := (gmap string string).

Definition sim_temp_name (d n : string) (f : sim_fs) : string :=
  fresh ({[d +:+ n]} ∪ dom f : gset string).

Section sim.
Variable deny : list string.

Definition sim_call {A} (name : string) (k : M sim_fs os_error A) : M sim_fs os_error A :=
  λ f, if decide (name ∈ deny) then (Fail EOther, f) else k f.

(** A call on the file [p], which has to exist. *)
Definition sim_on (p : string) (k : string → sim_fs → sim_fs) : M sim_fs os_error unit :=
  λ f, match f !! p with
       | Some c => (Ret tt, k c f)
       | None => (Fail ENotExist, f)
       end.

Definition sim_os : osFuncs sim_fs := {|
  chmod p m := sim_call "chmod" (mret tt);
  rename p p' := sim_call "rename" (sim_on p (λ c f, <[p' := c]> (delete p f)));
  remove p := sim_call "remove" (sim_on p (λ _ f, delete p f));
  sync p := sim_call "sync" (mret tt);
  tempFile d n := sim_call "tempFile"
    (λ f, (Ret (sim_temp_name d n f), <[sim_temp_name d n f := ""]> f));
  truncate p k := sim_call "truncate" (sim_on p (λ c f, <[p := slice_to (Z.to_nat k) c]> f));
  write p c := sim_call "write" (λ f, (Ret tt, <[p := default "" (f !! p) +:+ c]> f))
|}.

Ltac sim_run :=
  cbn; unfold sim_call, sim_on; intros;
  repeat match goal with
  | H : context [decide (_ ∈ deny)] |- _ => destruct (decide (_ ∈ deny))
  | |- context [decide (_ ∈ deny)] => destruct (decide (_ ∈ deny))
  | H : context [match ?f !! ?p with _ => _ end] |- _ => destruct (f !! p) eqn:?
  | |- context [match ?f !! ?p with _ => _ end] => destruct (f !! p) eqn:?
  end; simplify_eq/=; try done.

Lemma insert_decide (f : sim_fs) p c q : <[p := c]> f !! q = if decide (q = p) then Some c else f !! q.
Proof. rewrite lookup_insert. by destruct (decide (p = q)), (decide (q = p)); subst. Qed.

Lemma delete_decide (f : sim_fs) p q : delete p f !! q = if decide (q = p) then None else f !! q.
Proof. rewrite lookup_delete. by destruct (decide (p = q)), (decide (q = p)); subst. Qed.

#[export] Instance sim_file_system : FileSystem sim_os.
Proof.
  refine {| content (f : sim_fs) p := f !! p |}.
  all: try by sim_run.
  - sim_run. by rewrite insert_decide, delete_decide.
  - sim_run. apply delete_decide.
  - intros d n f f' name. sim_run. unfold sim_temp_name.
    pose proof (is_fresh ({[d +:+ n]} ∪ dom f : gset string)) as Hf.
    apply not_elem_of_union in Hf as [Hd%not_elem_of_singleton Hn%not_elem_of_dom].
    split_and!; [done|done|]. intros q. apply insert_decide.
  - sim_run. rewrite insert_decide. by destruct s.
  - sim_run. apply insert_decide.
Defined.

Lemma sim_removable : "remove" ∉ deny → removable sim_os.
Proof. intros Hd name f. sim_run. Qed.

Lemma sim_writable : "tempFile" ∉ deny → "write" ∉ deny → writable sim_os.
Proof. intros Ht Hw. split; sim_run. Qed.

Lemma sim_reliable : "sync" ∉ deny → "rename" ∉ deny → reliable sim_os.
Proof. intros Hs Hr. split; sim_run. Qed.
End sim.

(** ** Properties *)

(** C26: as long as files can be removed, writing content through a fresh
    atomic writer and closing it never leaves a partial file, whatever call of
    the operating system fails: before [Close] no file but a temporary one has
    changed, a run without errors leaves exactly the destination with the
    whole content, and a run with an error leaves all files as they were, with
    no temporary file behind. *)
Theorem write_close_atomic {F} (os : osFuncs F) `{!FileSystem os} p m c f :
  removable os →
  let s1 := Write os c (NewAtomicWriter p m, f) in
  let s2 := Close os s1.2 in
  content s1.2.2 p = content f p ∧
  match s1.1, s2.1 with
  | Ret _, Ret _ => ∀ q, content s2.2.2 q = if decide (q = p) then Some c else content f q
  | Ret _, Fail _ | Fail _, Ret _ => ∀ q, content s2.2.2 q = content f q
  | _, _ => False
  end.
Proof.
  intros Hrem s1 s2. pose proof (Write_spec os p m c f Hrem) as Hw. unfold wp in Hw.
  fold s1 in Hw. destruct Hw as [Hp Hw]. subst s2. destruct s1 as [r1 [w1 f1]]. cbn [fst snd] in *.
  destruct r1 as [[]|e|]; [| |done].
  - destruct Hw as (name & Hne & Htemp & Hf1). split.
    + destruct Hf1 as [_ Hf1]. by rewrite Hf1, decide_False.
    + rewrite <- Hp in Hne.
      pose proof (Close_spec os w1 f f1 name c Hrem Htemp Hne Hf1) as Hc. unfold wp in Hc.
      destruct Hc as [Hc _].
      destruct (Close os (w1, f1)) as [[[]|e|] [w2 f2]]; cbn in *; [|done|done].
      by rewrite Hp in Hc.
  - destruct Hw as (Htemp & Hs & _). split; [apply Hs|]. unfold Close, mbind, M_bind, gets. cbn.
    rewrite Htemp. cbn. apply Hs.
Qed.

Lemma write_close_atomic_witness :
  let os := sim_os ["rename"] in
  let f := {["/s/db.yaml" := "old"]} in
  let s1 := Write os "new" (NewAtomicWriter "/s/db.yaml" 420, f) in
  let s2 := Close os s1.2 in
  s1.1 = Ret tt ∧ s2.1 = Fail EOther ∧ ∀ q, s2.2.2 !! q = f !! q.
Proof.
  intros os f s1 s2.
  assert (s1.1 = Ret tt) as H1 by (vm_compute; reflexivity).
  assert (s2.1 = Fail EOther) as H2 by (vm_compute; reflexivity).
  split_and!; [exact H1|exact H2|].
  assert (removable os) as Hrem by (apply sim_removable; compute_done).
  pose proof (write_close_atomic os "/s/db.yaml" 420 "new" f Hrem) as [_ Hw].
  fold s1 s2 in Hw. rewrite H1, H2 in Hw. exact Hw.
Defined.

(** When neither the write nor the removal of the temporary file
    works, [Cleanup] truncates the file and keeps it, so that closing the
    writer afterwards replaces the destination by an empty file and reports no
    error: the old content is lost. *)
Theorem failed_write_then_close_empties_destination :
  let os := sim_os ["write"; "remove"] in
  let s1 := Write os "new" (NewAtomicWriter "/s/db.yaml" 420, {["/s/db.yaml" := "old"]}) in
  let s2 := Close os s1.2 in
  s1.1 = Fail EOther ∧ s2.1 = Ret tt ∧ s2.2.2 !! "/s/db.yaml" = Some "".
Proof. vm_compute. done. Qed.
