(* ===== verification/PushToFile.v ===== *)
(** * The Push-to-File provider (pkg/secrets/pushtofile)

    retrieve_secrets.go, push_to_writer.go, [pushToFileWithDeps] of
    secret_group.go and provide_conjur_secrets.go: the secrets of every group
    are fetched, rendered and written with the atomic writer; a checksum per
    group skips files whose content has not changed. The Conjur retriever, the
    template engine and the operating system are parameters. *)

From S2P Require Import Prelude GoString GoBytes FileTemplates GoPath SecretGroup AtomicWriter.
Open Scope Z_scope.

Definition CSPFK068E (path group : string) : string :=
  "CSPFK068E Retrieved secrets did not include secret '" +:+ path +:+
  "' requested by secret group '" +:+ group +:+ "'".

(** The errors of [Provide]; only the text of a fetch error is inspected. *)
Inductive p2f_error :=
| FetchError (text : string)
| GroupError (e : group_error)
| MkdirError (path : string)
| OpenError (path : string)
| MaskError (group : string).

(** ** Fetching (retrieve_secrets.go) *)

(** The set of paths, or [None] when a path is the fetch-all variable. *)
Fixpoint collect_paths (pathSet : gmap string unit) (paths : list string) :
    option (gmap string unit) :=
  match paths with
  | [] => Some pathSet
  | path :: paths' =>
      if decide (path = "*") then None else collect_paths (<[path := tt]> pathSet) paths'
  end.

Definition all_specs (secretGroups : list SecretGroup) : list SecretSpec :=
  mjoin (SecretSpecs <$> secretGroups).

Definition getAllPaths (o : range_order) (secretGroups : list SecretGroup) : list string :=
  match collect_paths ∅ (Path <$> all_specs secretGroups) with
  | None => ["*"]
  | Some pathSet => (range o pathSet).*1
  end.

(** A value that does not decode is provided as it is. *)
Definition decodeIfNeeded (spec : SecretSpec) (sValue : bytes) : bytes :=
  if decide (ContentType spec ≠ "base64") then sValue
  else match DecodeString (bytes_string sValue) with
       | Some decoded => Some decoded
       | None => sValue
       end.

(** [None] is the error for a path that was not fetched. *)
Definition getSecretValueByID (secretValuesByID : gmap string bytes) (spec : SecretSpec)
    (path : string) : option Secret :=
  let alias := if decide (Alias spec = "" ∨ Alias spec = "*") then path else Alias spec in
  match secretValuesByID !! path with
  | None => None
  | Some sValue => Some (mkSecret alias (bytes_string (decodeIfNeeded spec sValue)))
  end.

Definition spec_paths (o : range_order) (secretValueById : gmap string bytes)
    (spec : SecretSpec) : list string :=
  if decide (Path spec = "*") then sort_strings (range o secretValueById).*1 else [Path spec].

Abbreviation secrets_by_name := (gmap string (list Secret)).

Definition fetch_path (secretValueById : gmap string bytes) (group : SecretGroup)
    (spec : SecretSpec) (secretsByGroup : secrets_by_name) (path : string) :
    outcome string secrets_by_name :=
  match getSecretValueByID secretValueById spec path with
  | None => Fail (CSPFK068E path (Name group))
  | Some secret => Ret (map_append (Name group) [secret] secretsByGroup)
  end.

Definition fetch_spec (sched : schedule) (secretValueById : gmap string bytes)
    (group : SecretGroup) (secretsByGroup : secrets_by_name) (i_spec : nat * SecretSpec) :
    outcome string secrets_by_name :=
  fold_outcome (fetch_path secretValueById group i_spec.2) secretsByGroup
    (spec_paths (loop sched i_spec.1) secretValueById i_spec.2).

Definition fetch_group (sched : schedule) (secretValueById : gmap string bytes)
    (secretsByGroup : secrets_by_name) (i_group : nat * SecretGroup) :
    outcome string secrets_by_name :=
  fold_outcome (fetch_spec (sub sched i_group.1) secretValueById i_group.2) secretsByGroup
    (imap pair (SecretSpecs i_group.2)).

Definition RetrieveSecretsFunc : Type := list string → outcome string (gmap string bytes).

(** The deferred wiping of the fetched values comes after [string(sValue)]
    has copied them. *)
Definition FetchSecretsForGroups (depRetrieveSecrets : RetrieveSecretsFunc) (sched : schedule)
    (secretGroups : list SecretGroup) : outcome string secrets_by_name :=
  secretValueById ← depRetrieveSecrets (getAllPaths (loop sched 0) secretGroups);
  fold_outcome (fetch_group (sub sched 1) secretValueById) ∅ (imap pair secretGroups).

(** ** The operating system of the provider

    [os.MkdirAll] and [os.OpenFile] with O_CREATE, beside the calls of the
    atomic writer; [os.Remove] is the writer's. *)
Record providerOS (F : Type) := mkProviderOS {
  base : osFuncs F;
  mkdirAll : string → M F os_error unit;
  openCreate : string → Z → M F os_error unit
}.
Arguments base {F} _.
Arguments mkdirAll {F} _ _ _.
Arguments openCreate {F} _ _ _ _.

Definition created {F} (os : osFuncs F) `{!FileSystem os} (p : string) (f f' : F) : Prop :=
  ∀ q, content f' q = if decide (q = p) then Some (default "" (content f p)) else content f q.

Class ProviderFS {F : Type} (os : providerOS F) := {
  base_fs :: FileSystem (base os);
  mkdir_no_panic d f : (mkdirAll os d f).1 ≠ Panic;
  open_no_panic p m f : (openCreate os p m f).1 ≠ Panic;
  mkdir_files d f : same_files (base os) f (mkdirAll os d f).2;
  open_files p m f :
    match (openCreate os p m f).1 with
    | Ret _ => created (base os) p f (openCreate os p m f).2
    | _ => same_files (base os) f (openCreate os p m f).2
    end
}.

(** ** Pushing (push_to_writer.go, secret_group.go) *)
Inductive push_error := TemplateError | WriteError (e : os_error).

Section provider.
Context {F : Type} (os : providerOS F) (engine : template_engine)
  (retrieveSecrets : RetrieveSecretsFunc) (sanitizeEnabled : bool).

(** The files, and the package variable [prevFileChecksums]. *)
#[local] Abbreviation MP := (M (F * gmap string Checksum)).
(** With the open writer. *)
#[local] Abbreviation MPW := (M (atomicWriter * (F * gmap string Checksum))).

Definition call_files {E A} (m : M F E A) : MP E A :=
  λ s, let '(r, f) := m s.1 in (r, (f, s.2)).
Definition call_writer {E A} (m : M (atomicWriter * F) E A) : MPW E A :=
  λ s, let '(r, (w, f)) := m (s.1, s.2.1) in (r, (w, (f, s.2.2))).

Definition openFileAsWriteCloser (path : string) (permissions : Z) : MP p2f_error atomicWriter :=
  _ ← on_error (call_files (mkdirAll os (Dir path))) (λ _, throw (MkdirError path));
  _ ← on_error (call_files (openCreate os path permissions)) (λ _, throw (OpenError path));
  mret (NewAtomicWriter path permissions).

Definition writeContent (fileContent groupName : string) : MPW push_error bool :=
  let checksum := FileChecksum fileContent in
  prevFileChecksums ← gets (λ s, s.2.2);
  if negb (ContentHasChanged groupName checksum prevFileChecksums) then mret false
  else
    _ ← on_error (call_writer (Write (base os) fileContent)) (λ e, throw (WriteError e));
    _ ← modify (λ s, (s.1, (s.2.1, <[groupName := checksum]> s.2.2)));
    mret true.

Definition pushToWriter (groupName groupTemplate : string) (groupSecrets : list Secret) :
    MPW push_error bool :=
  match render_template engine groupName groupTemplate groupSecrets with
  | Content fileContent => writeContent fileContent groupName
  | _ => throw TemplateError
  end.

(** The part after the file is open: [recover] runs before the deferred
    [Close], whose error is dropped; every error is replaced. *)
Definition with_writer (wc : atomicWriter) (maskError : p2f_error) (push : MPW push_error bool) :
    MP p2f_error bool := λ s,
  let '(r, s1) := push (wc, s) in
  let '(c, (_, s2)) := call_writer (Close (base os)) s1 in
  match c with
  | Panic => (Panic, s2)
  | _ => match r with
         | Ret updated => (Ret updated, s2)
         | Fail _ | Panic => (Fail maskError, s2)
         end
  end.

Definition pushToFileWithDeps (sg : SecretGroup) (secrets : list Secret) : MP p2f_error bool :=
  match validateSecretsAgainstSpecs secrets (SecretSpecs sg) with
  | Some err => throw (GroupError err)
  | None =>
      match maybeFileTemplateFromFormat (FileTemplate sg) (FileFormat sg) (SecretSpecs sg) with
      | inl err => throw (GroupError err)
      | inr fileTemplate =>
          wc ← openFileAsWriteCloser (FilePath sg) (FilePermissions sg);
          with_writer wc (MaskError (Name sg)) (pushToWriter (Name sg) fileTemplate secrets)
      end
  end.

(** ** Provide (provide_conjur_secrets.go)

    An error comes with the flag returned beside it. *)
Definition deletion_error (text : string) : bool :=
  Contains text "403" || Contains text "404" || Contains text "CSPFK068E".

(** Errors of [os.Remove] are logged. *)
Definition remove_files {E} (groups : list SecretGroup) : MP E unit :=
  for_each groups (λ group, _ ← try (call_files (remove (base os) (FilePath group))); mret tt).

Fixpoint push_groups (secretsByGroup : secrets_by_name) (updated : bool)
    (groups : list SecretGroup) : MP (bool * p2f_error) bool :=
  match groups with
  | [] => mret updated
  | group :: groups' =>
      groupUpdated ← on_error (pushToFileWithDeps group (secretsByGroup !!! Name group))
                       (λ err, throw (updated, err));
      push_groups secretsByGroup (if groupUpdated : bool then true else updated) groups'
  end.

Definition provideWithDeps (sched : schedule) (groups : list SecretGroup) :
    MP (bool * p2f_error) bool :=
  match FetchSecretsForGroups retrieveSecrets sched groups with
  | Panic => panic
  | Fail err =>
      updated ← (if deletion_error err && sanitizeEnabled
                 then _ ← remove_files groups; mret true
                 else mret false);
      throw (updated, FetchError err)
  | Ret secretsByGroup => push_groups secretsByGroup false groups
  end.
End provider.

(** ** Lemmas on fetching *)

(** The secrets of a spec and of a group, [None] when one was not fetched. *)
Definition requested_paths (m : gmap string bytes) (spec : SecretSpec) : list string :=
  if decide (Path spec = "*") then sort_strings (map_to_list m).*1 else [Path spec].
Definition spec_secrets (m : gmap string bytes) (spec : SecretSpec) : option (list Secret) :=
  mapM (getSecretValueByID m spec) (requested_paths m spec).
Definition group_requests (m : gmap string bytes) (group : SecretGroup) : list string :=
  SecretSpecs group ≫= requested_paths m.
Definition group_secrets (m : gmap string bytes) (group : SecretGroup) : option (list Secret) :=
  mjoin <$> mapM (spec_secrets m) (SecretSpecs group).

Definition appended (name : string) (ss : list Secret) (acc acc' : secrets_by_name) : Prop :=
  ∀ j, acc' !!! j = if decide (j = name) then (acc !!! j) ++ ss else (acc !!! j).

(** A step of the fetch either appends [ss] to the group, or fails because of
    one of the [paths] that was not fetched. *)
Definition fetched (m : gmap string bytes) (name : string) (paths : list string)
    (ss : option (list Secret)) (acc : secrets_by_name) (r : outcome string secrets_by_name) : Prop :=
  match r with
  | Ret acc' => ∃ l, ss = Some l ∧ appended name l acc acc'
  | Fail e => ss = None ∧ ∃ path, path ∈ paths ∧ m !! path = None ∧ e = CSPFK068E path name
  | Panic => False
  end.

Lemma spec_paths_eq o m spec : spec_paths o m spec = requested_paths m spec.
Proof.
  unfold spec_paths, requested_paths. case_decide; [|done]. apply sort_strings_unique.
  by rewrite range_perm.
Qed.

Lemma fetched_fold m name {X} (f : secrets_by_name → X → outcome string secrets_by_name)
    (h : X → list string) (g : X → option (list Secret)) acc xs :
  (∀ acc' x, fetched m name (h x) (g x) acc' (f acc' x)) →
  fetched m name (xs ≫= h) (mjoin <$> mapM g xs) acc (fold_outcome f acc xs).
Proof.
  intros Hf. revert acc. induction xs as [|x xs IH]; intros acc.
  { exists []. split; [done|]. intros j. case_decide; [by rewrite app_nil_r|done]. }
  cbn [fold_outcome]. specialize (Hf acc x). destruct (f acc x) as [acc1|e|]; [|..|done].
  - destruct Hf as (l & Hl & Happ). specialize (IH acc1).
    change (mapM g (x :: xs)) with (y ← g x; k ← mapM g xs; mret (y :: k)). rewrite Hl.
    unfold fetched in *. cbn. destruct (fold_outcome f acc1 xs) as [acc2|e|]; [| |done].
    + destruct IH as (l' & Hl' & Happ'). destruct (mapM g xs) as [k|]; [|done].
      cbn in *. injection Hl' as <-. exists (l ++ mjoin k). split; [done|]. intros j. rewrite Happ', Happ.
      case_decide; [|done]. by rewrite (assoc_L (++)).
    + destruct IH as [Hn (path & Hp & Hnone)]. split; [by destruct (mapM g xs)|].
      exists path. split; [|done]. cbn. apply elem_of_app. by right.
  - destruct Hf as [Hn (path & Hp & Hnone)]. split.
    { change (mapM g (x :: xs)) with (y ← g x; k ← mapM g xs; mret (y :: k)). by rewrite Hn. }
    exists path. split; [|done]. cbn. apply elem_of_app. by left.
Qed.

Lemma mapM_singletons {A B} (f : A → option B) xs :
  mapM f xs = mjoin <$> mapM (λ x, (λ y, [y]) <$> f x) xs.
Proof.
  induction xs as [|x xs IH]; [done|]. cbn. rewrite IH. destruct (f x); [|done]. cbn.
  destruct (mapM (λ x0 : A, (λ y : B, [y]) <$> f x0) xs); reflexivity.
Qed.

Lemma bind_singletons {A} (l : list A) : l ≫= (λ x, [x]) = l.
Proof. induction l as [|x l IH]; [done|]. cbn. by rewrite IH. Qed.

Lemma fetch_spec_fetched sched m group acc i_spec :
  fetched m (Name group) (requested_paths m i_spec.2) (spec_secrets m i_spec.2) acc
    (fetch_spec sched m group acc i_spec).
Proof.
  unfold fetch_spec. rewrite spec_paths_eq. unfold spec_secrets.
  rewrite mapM_singletons, <- (bind_singletons (requested_paths m i_spec.2)) at 1.
  apply fetched_fold. intros acc' p. unfold fetch_path.
  destruct (getSecretValueByID m i_spec.2 p) as [s|] eqn:Hs.
  - exists [s]. split; [done|]. intros j. rewrite lookup_total_map_append.
    by destruct (decide (j = Name group)), (decide (Name group = j)); subst.
  - split; [done|]. exists p. split; [by left|]. split; [|done].
    unfold getSecretValueByID in Hs. by destruct (m !! p).
Qed.

Lemma fetch_group_fetched sched m acc i_group :
  fetched m (Name i_group.2) (group_requests m i_group.2) (group_secrets m i_group.2) acc
    (fetch_group sched m acc i_group).
Proof.
  unfold fetch_group, group_secrets, group_requests.
  rewrite <- (mapM_imap_pair (spec_secrets m)).
  assert (SecretSpecs i_group.2 ≫= requested_paths m =
    imap pair (SecretSpecs i_group.2) ≫= λ i_spec, requested_paths m i_spec.2) as ->
    by (rewrite <- (imap_pair_snd (SecretSpecs i_group.2)) at 1; by rewrite list_fmap_bind).
  apply fetched_fold. intros acc' i_spec. apply fetch_spec_fetched.
Qed.

(** The outcome of the whole fetch, the groups having different names. *)
Definition fetched_all (m : gmap string bytes) (groups : list SecretGroup)
    (acc : secrets_by_name) (r : outcome string secrets_by_name) : Prop :=
  match r with
  | Ret acc' =>
      (∀ g, g ∈ groups → ∃ ss, group_secrets m g = Some ss ∧
         acc' !!! Name g = (acc !!! Name g) ++ ss) ∧
      ∀ j, j ∉ Name <$> groups → acc' !!! j = acc !!! j
  | Fail e => ∃ g path, g ∈ groups ∧ group_secrets m g = None ∧ path ∈ group_requests m g ∧
      m !! path = None ∧ e = CSPFK068E path (Name g)
  | Panic => False
  end.

Lemma fetch_groups_fetched sched m acc (l : list (nat * SecretGroup)) :
  NoDup (Name <$> l.*2) →
  fetched_all m l.*2 acc (fold_outcome (fetch_group sched m) acc l).
Proof.
  revert acc. induction l as [|[i g] l IH]; intros acc Hnd.
  { split; [by intros g ?%not_elem_of_nil|done]. }
  cbn [fold_outcome fmap list_fmap snd] in *. apply NoDup_cons in Hnd as [Hg Hnd].
  pose proof (fetch_group_fetched sched m acc (i, g)) as Hf. cbn [snd] in Hf.
  destruct (fetch_group sched m acc (i, g)) as [acc1|e|]; [|..|done].
  - destruct Hf as (ss & Hss & Happ). specialize (IH acc1 Hnd). cbn.
    destruct (fold_outcome (fetch_group sched m) acc1 l) as [acc2|e|]; [| |done].
    + destruct IH as [Hin Hout]. split.
      * intros g' [->|Hg']%elem_of_cons.
        { exists ss. split; [done|]. by rewrite Hout, Happ, decide_True. }
        destruct (Hin g' Hg') as (ss' & Hss' & Hacc). exists ss'. split; [done|].
        rewrite Hacc, Happ, decide_False; [done|]. intros Heq. apply Hg. rewrite <- Heq.
        by apply list_elem_of_fmap_2.
      * intros j [Hj Hj']%not_elem_of_cons. by rewrite Hout, Happ, decide_False.
    + destruct IH as (g' & path & Hg' & Hp). exists g', path. split; [by right|done].
  - destruct Hf as (Hn & path & Hp & Hnone & ->). exists g, path. split; [by left|done].
Qed.

(** [FetchSecretsForGroups] is one call of the retriever and then a function of
    what it returned. *)
Lemma Fetch_eq retrieve sched groups :
  NoDup (Name <$> groups) →
  match retrieve (getAllPaths (loop sched 0) groups) with
  | Ret m => fetched_all m groups ∅ (FetchSecretsForGroups retrieve sched groups)
  | Fail e => FetchSecretsForGroups retrieve sched groups = Fail e
  | Panic => FetchSecretsForGroups retrieve sched groups = Panic
  end.
Proof.
  intros Hnd. unfold FetchSecretsForGroups.
  destruct (retrieve _) as [m|e|]; [|done..]. cbn [mbind outcome_bind].
  pose proof (fetch_groups_fetched (sub sched 1) m ∅ (imap pair groups)) as Hf.
  rewrite imap_pair_snd in Hf. by apply Hf.
Qed.

Lemma collect_paths_spec pathSet paths :
  match collect_paths pathSet paths with
  | None => "*" ∈ paths
  | Some s => "*" ∉ paths ∧ ∀ p, is_Some (s !! p) ↔ p ∈ paths ∨ is_Some (pathSet !! p)
  end.
Proof.
  revert pathSet. induction paths as [|p paths IH]; intros pathSet.
  { split; [apply not_elem_of_nil|]. intros p. set_solver. }
  cbn [collect_paths]. destruct (decide (p = "*")) as [->|Hp]; [by left|].
  specialize (IH (<[p:=tt]> pathSet)). destruct (collect_paths _ paths) as [s|].
  - destruct IH as [Hn Hs]. split; [set_solver|]. intros q. rewrite Hs, lookup_insert_is_Some.
    rewrite elem_of_cons. destruct (decide (p = q)); naive_solver.
  - by right.
Qed.

Lemma getAllPaths_eq o groups :
  let paths := Path <$> all_specs groups in
  ("*" ∈ paths ∧ getAllPaths o groups = ["*"]) ∨
  ("*" ∉ paths ∧ NoDup (getAllPaths o groups) ∧ ∀ p, p ∈ getAllPaths o groups ↔ p ∈ paths).
Proof.
  intros paths. unfold getAllPaths. pose proof (collect_paths_spec ∅ paths) as Hc.
  fold paths. destruct (collect_paths ∅ paths) as [s|]; [right|by left].
  destruct Hc as [Hn Hs]. split_and!; [done|apply range_NoDup_keys|]. intros p.
  rewrite elem_of_range_keys, Hs, lookup_empty. split; [|by left]. by intros [|[]].
Qed.

(** ** Lemmas on pushing *)
#[local] Opaque FileChecksum.

Section pushing.
Context {F : Type} (os : providerOS F) `{!ProviderFS os} (engine : template_engine).
Implicit Types (f : F) (cs : gmap string Checksum) (sg : SecretGroup).

(** The content of a group's file for its secrets. *)
Definition rendered_group sg (secrets : list Secret) (c : string) : Prop :=
  validateSecretsAgainstSpecs secrets (SecretSpecs sg) = None ∧
  ∃ tpl, maybeFileTemplateFromFormat (FileTemplate sg) (FileFormat sg) (SecretSpecs sg) = inr tpl ∧
    render_template engine (Name sg) tpl secrets = Content c.

Definition written (p c : string) f f' : Prop :=
  ∀ q, content (os := base os) f' q = if decide (q = p) then Some c else content (os := base os) f q.

(** Nothing fails before the file is closed. *)
Definition openable : Prop :=
  (∀ d f e, (mkdirAll os d f).1 ≠ Fail e) ∧ ∀ p m f e, (openCreate os p m f).1 ≠ Fail e.
Definition pushable sg (secrets : list Secret) : Prop :=
  openable ∧ writable (base os) ∧ ∃ c, rendered_group sg secrets c.

(** What a push does to the files and the checksums. *)
Definition pushed sg (secrets : list Secret) (s : F * gmap string Checksum)
    (r : outcome p2f_error bool) (s' : F * gmap string Checksum) : Prop :=
  match r with
  | Ret true => ∃ c, rendered_group sg secrets c ∧
      ContentHasChanged (Name sg) (FileChecksum c) s.2 = true ∧
      s'.2 = <[Name sg := FileChecksum c]> s.2 ∧
      (written (FilePath sg) c s.1 s'.1 ∨
       ¬ reliable (base os) ∧ created (base os) (FilePath sg) s.1 s'.1)
  | Ret false => ∃ c, rendered_group sg secrets c ∧
      ContentHasChanged (Name sg) (FileChecksum c) s.2 = false ∧
      s'.2 = s.2 ∧ created (base os) (FilePath sg) s.1 s'.1
  | Fail _ => s'.2 = s.2 ∧ (pushable sg secrets → False) ∧
      (same_files (base os) s.1 s'.1 ∨ created (base os) (FilePath sg) s.1 s'.1)
  | Panic => False
  end.

Lemma call_files_run {E A} (m : M F E A) f cs :
  call_files m (f, cs) = ((m f).1, ((m f).2, cs)).
Proof. unfold call_files. cbn. by destruct (m f). Qed.

Lemma call_writer_run {E A} (m : M (atomicWriter * F) E A) w f cs :
  call_writer m (w, (f, cs)) = ((m (w, f)).1, ((m (w, f)).2.1, ((m (w, f)).2.2, cs))).
Proof. unfold call_writer. cbn. by destruct (m (w, f)) as [r [w' f']]. Qed.

Lemma same_created p f f1 f2 :
  same_files (base os) f f1 → created (base os) p f1 f2 → created (base os) p f f2.
Proof. intros H1 H2 q. by rewrite H2, !H1. Qed.

Lemma created_same p f f1 f2 :
  created (base os) p f f1 → same_files (base os) f1 f2 → created (base os) p f f2.
Proof. intros H1 H2 q. by rewrite H2, H1. Qed.

Lemma openFile_wp p m f cs :
  wp (openFileAsWriteCloser os p m) (λ r s', s'.2 = cs ∧
    match r with
    | Ret w => w = NewAtomicWriter p m ∧ created (base os) p f s'.1
    | Fail _ => same_files (base os) f s'.1 ∧ (openable → False)
    | Panic => False
    end) (f, cs).
Proof.
  unfold openFileAsWriteCloser. apply wp_bind, wp_on_error. unfold wp at 1.
  rewrite call_files_run. cbn. pose proof (mkdir_no_panic (Dir p) f) as Hp1.
  pose proof (mkdir_files (Dir p) f) as Hf1.
  destruct (mkdirAll os (Dir p) f) as [[[]|e|] f1] eqn:Hm; cbn in *; [| |done].
  2: { split_and!; [done..|]. intros [Ho _]. apply (Ho (Dir p) f e). by rewrite Hm. }
  apply wp_bind, wp_on_error. unfold wp at 1. rewrite call_files_run. cbn.
  pose proof (open_no_panic p m f1) as Hp2. pose proof (open_files p m f1) as Hf2.
  destruct (openCreate os p m f1) as [[[]|e|] f2] eqn:Hopen; cbn in *; [| |done].
  - unfold wp. cbn. split_and!; [done..|]. by eapply same_created.
  - unfold wp. cbn. split_and!; [done|intros q; by rewrite Hf2, Hf1|].
    intros [_ Ho]. apply (Ho p m f1 e). by rewrite Hopen.
Qed.

(** Closing the writer after a push that did not write. *)
Lemma close_unwritten p m f :
  Close (base os) (NewAtomicWriter p m, f) = (Ret tt, (NewAtomicWriter p m, f)).
Proof. done. Qed.

(** Closing a writer without a temporary file does nothing. *)
Lemma close_no_temp w f :
  temp w = None → Close (base os) (w, f) = (Ret tt, (w, f)).
Proof. intros Hw. unfold Close, mbind, M_bind, gets. cbn. by rewrite Hw. Qed.

Lemma writeContent_run c name w f cs :
  writeContent os c name (w, (f, cs)) =
  if ContentHasChanged name (FileChecksum c) cs then
    match Write (base os) c (w, f) with
    | (Ret _, (w', f')) => (Ret true, (w', (f', <[name := FileChecksum c]> cs)))
    | (Fail e, (w', f')) => (Fail (WriteError e), (w', (f', cs)))
    | (Panic, (w', f')) => (Panic, (w', (f', cs)))
    end
  else (Ret false, (w, (f, cs))).
Proof.
  unfold writeContent, mbind, M_bind, gets. cbn [fst snd].
  destruct (ContentHasChanged name (FileChecksum c) cs); cbn [negb]; [|done].
  unfold on_error. rewrite call_writer_run.
  by destruct (Write (base os) c (w, f)) as [[[]|e|] [w' f']].
Qed.

Lemma with_writer_wp sg secrets tpl f0 f cs :
  removable (base os) →
  validateSecretsAgainstSpecs secrets (SecretSpecs sg) = None →
  maybeFileTemplateFromFormat (FileTemplate sg) (FileFormat sg) (SecretSpecs sg) = inr tpl →
  created (base os) (FilePath sg) f0 f →
  wp (with_writer os (NewAtomicWriter (FilePath sg) (FilePermissions sg)) (MaskError (Name sg))
        (pushToWriter os engine (Name sg) tpl secrets))
    (pushed sg secrets (f0, cs)) (f, cs).
Proof.
  intros Hrem Hval Htpl Hf. unfold wp, with_writer, pushToWriter.
  destruct (render_template engine (Name sg) tpl secrets) as [| |c] eqn:Hr.
  1, 2: split_and!; [done| |by right]; intros (_ & _ & c & _ & tpl' & Htpl' & Hr'); congruence.
  assert (rendered_group sg secrets c) as Hrend by (split; [done|]; by exists tpl).
  rewrite writeContent_run.
  destruct (ContentHasChanged (Name sg) (FileChecksum c) cs) eqn:Hch; cbn.
  2: { exists c. by split_and!. }
  pose proof (Write_spec (base os) (FilePath sg) (FilePermissions sg) c f Hrem) as Hw.
  unfold wp in Hw. destruct (Write (base os) c _) as [[[]|e|] [w1 f1]]; cbn in *; [| |by destruct Hw].
  - destruct Hw as (Hp & name & Hne & Ht & Hpf). rewrite <- Hp in Hne.
    pose proof (Close_spec (base os) w1 f f1 name c Hrem Ht Hne Hpf) as Hc.
    rewrite call_writer_run. unfold wp in Hc.
    destruct (Close (base os) (w1, f1)) as [[[]|e|] [w2 f2]]; cbn in *; [| |by destruct Hc].
    + exists c. split_and!; [done..|]. left. destruct Hc as [Hc _]. intros q. cbn. rewrite Hc, Hp.
      case_decide as Hq; [done|]. by rewrite Hf, decide_False.
    + destruct Hc as [Hc Hrel]. exists c. split_and!; [done..|]. right. split; [by intros ?%Hrel|].
      by eapply created_same.
  - destruct Hw as (Hp & Ht & Hs & Hnw). rewrite call_writer_run, close_no_temp by done. cbn.
    split_and!; [done|by intros (_ & ?%Hnw & _)|]. right. by eapply created_same.
Qed.

Lemma pushToFile_wp sg secrets f cs :
  removable (base os) →
  wp (pushToFileWithDeps os engine sg secrets) (pushed sg secrets (f, cs)) (f, cs).
Proof.
  intros Hrem. unfold pushToFileWithDeps.
  destruct (validateSecretsAgainstSpecs _ _) as [err|] eqn:Hval.
  { split_and!; [done| |by left]. intros (_ & _ & c & Hv & _). congruence. }
  destruct (maybeFileTemplateFromFormat _ _ _) as [err|tpl] eqn:Htpl.
  { split_and!; [done| |by left]. intros (_ & _ & c & _ & t & Ht & _). congruence. }
  apply wp_bind. eapply wp_mono; [apply openFile_wp|].
  intros [w|e|] [f1 cs1]; cbn; [| |by intros []].
  2: { intros (-> & Hs & Ho). split_and!; [done| |by left]. by intros [?%Ho _]. }
  intros (-> & -> & Hf1). by apply (with_writer_wp _ _ tpl).
Qed.

Lemma changed_iff name ck cs : ContentHasChanged name ck cs = true ↔ cs !! name ≠ Some ck.
Proof.
  unfold ContentHasChanged. destruct (cs !! name) as [ck'|]; [|done].
  case_bool_decide; naive_solver.
Qed.

(** Every file is as it was, or it is the file of a group and is complete: the
    file that was there before, an empty one when there was none, or the
    rendered content. *)
Definition whole_files (secretsByGroup : secrets_by_name) (groups : list SecretGroup) f f' : Prop :=
  ∀ q, content (os := base os) f' q = content (os := base os) f q ∨
    ∃ g, g ∈ groups ∧ q = FilePath g ∧
      (content (os := base os) f' q = Some (default "" (content (os := base os) f q)) ∨
       ∃ c, rendered_group g (secretsByGroup !!! Name g) c ∧ content (os := base os) f' q = Some c).

Lemma whole_files_trans byGroup groups f f1 f2 :
  whole_files byGroup groups f f1 → whole_files byGroup groups f1 f2 →
  whole_files byGroup groups f f2.
Proof.
  intros H1 H2 q. destruct (H2 q) as [Hq|(g & Hg & Hp & [Hq|Hq])].
  - rewrite Hq. apply H1.
  - rewrite Hq. destruct (H1 q) as [->|(g' & Hg' & Hp' & [->|(c & Hr & ->)])].
    + right. exists g. split_and!; [done..|by left].
    + right. exists g. split_and!; [done..|by left].
    + right. exists g'. split_and!; [done..|]. right. by exists c.
  - right. exists g. split_and!; [done..|by right].
Qed.

Lemma pushed_whole byGroup groups sg s r s' :
  sg ∈ groups → pushed sg (byGroup !!! Name sg) s r s' → whole_files byGroup groups s.1 s'.1.
Proof.
  intros Hsg Hp.
  assert (∀ f f', created (base os) (FilePath sg) f f' → whole_files byGroup groups f f') as Hcr.
  { intros f f' Hc q. rewrite Hc. destruct (decide (q = FilePath sg)) as [->|]; [|by left].
    right. exists sg. split_and!; [done..|]. by left. }
  destruct r as [[]|e|]; cbn in Hp; [| | |done].
  - destruct Hp as (c & Hr & _ & _ & [Hw|[_ Hc]]); [|by apply Hcr].
    intros q. rewrite Hw. destruct (decide (q = FilePath sg)) as [->|]; [|by left].
    right. exists sg. split_and!; [done..|]. right. by exists c.
  - destruct Hp as (c & _ & _ & _ & Hc). by apply Hcr.
  - destruct Hp as (_ & _ & [Hs|Hc]); [|by apply Hcr]. intros q. left. apply Hs.
Qed.

Lemma push_groups_whole byGroup all groups updated s :
  removable (base os) → groups ⊆ all →
  wp (push_groups os engine byGroup updated groups)
    (λ r s', r ≠ Panic ∧ whole_files byGroup all s.1 s'.1) s.
Proof.
  intros Hrem. revert updated s. induction groups as [|g groups IH]; intros updated [f cs] Hsub.
  { split; [done|]. intros q. by left. }
  cbn [push_groups]. apply wp_bind, wp_on_error.
  eapply wp_mono; [by apply pushToFile_wp|]. intros r [f1 cs1] Hp.
  assert (whole_files byGroup all f f1) as Hw 
    by exact (pushed_whole byGroup all g (f, cs) r (f1, cs1) ltac:(set_solver) Hp).
  destruct r as [u|e|]; [| |by cbn in Hp].
  - eapply wp_mono; [apply IH; set_solver|]. intros r [f2 cs2] [Hnp Hw2]. split; [done|].
    by eapply whole_files_trans.
  - by split.
Qed.

(** A group is up to date: its checksum is recorded, and its file holds the
    content unless the recorded checksum was already that of the content. *)
Definition up_to_date (byGroup : secrets_by_name) (s s' : F * gmap string Checksum)
    (g : SecretGroup) : Prop :=
  ∃ c, rendered_group g (byGroup !!! Name g) c ∧ s'.2 !! Name g = Some (FileChecksum c) ∧
    (content (os := base os) s'.1 (FilePath g) = Some c ∨
     s.2 !! Name g = Some (FileChecksum c) ∧
     content (os := base os) s'.1 (FilePath g) =
       Some (default "" (content (os := base os) s.1 (FilePath g)))).

(** The frame of a successful push of [groups]. *)
Definition elsewhere (groups : list SecretGroup) (s s' : F * gmap string Checksum) : Prop :=
  (∀ q, q ∉ FilePath <$> groups → content (os := base os) s'.1 q = content (os := base os) s.1 q) ∧
  ∀ n, n ∉ Name <$> groups → s'.2 !! n = s.2 !! n.

Lemma pushed_ok byGroup sg u s s' :
  reliable (base os) → pushed sg (byGroup !!! Name sg) s (Ret u) s' →
  up_to_date byGroup s s' sg ∧ elsewhere [sg] s s' ∧ (u = true ↔ s'.2 !! Name sg ≠ s.2 !! Name sg).
Proof.
  intros Hrel Hp. destruct u; cbn in Hp.
  - destruct Hp as (c & Hr & Hch & Hcs & [Hw|[Hn _]]); [|done]. apply changed_iff in Hch.
    split_and!.
    + exists c. rewrite Hcs, lookup_insert_eq, Hw, decide_True by done. split_and!; [done..|by left].
    + split; [intros q Hq; rewrite Hw, decide_False; [done|set_solver]|].
      intros n Hn. rewrite Hcs, lookup_insert_ne; [done|set_solver].
    + split; [intros _|done]. rewrite Hcs, lookup_insert_eq. done.
  - destruct Hp as (c & Hr & Hch & Hcs & Hw).
    assert (s.2 !! Name sg = Some (FileChecksum c)) as Hck.
    { apply dec_stable. intros ?%changed_iff. congruence. }
    split_and!.
    + exists c. rewrite Hcs, Hck, Hw, decide_True by done. split_and!; [done..|by right].
    + split; [intros q Hq; rewrite Hw, decide_False; [done|set_solver]|by rewrite Hcs].
    + split; [done|by rewrite Hcs].
Qed.

Lemma elsewhere_trans groups groups' s s1 s2 :
  elsewhere groups s s1 → elsewhere groups' s1 s2 → elsewhere (groups ++ groups') s s2.
Proof.
  intros [Hf Hc] [Hf' Hc']. split.
  - intros q. rewrite fmap_app, not_elem_of_app. intros [??]. by rewrite Hf', Hf.
  - intros n. rewrite fmap_app, not_elem_of_app. intros [??]. by rewrite Hc', Hc.
Qed.

Lemma push_groups_ok byGroup groups updated s :
  removable (base os) → reliable (base os) →
  NoDup (Name <$> groups) → NoDup (FilePath <$> groups) →
  wp (push_groups os engine byGroup updated groups) (λ r s', ∀ u, r = Ret u →
    (∀ g, g ∈ groups → up_to_date byGroup s s' g) ∧ elsewhere groups s s' ∧
    (u = true ↔ updated = true ∨ ∃ g, g ∈ groups ∧ s'.2 !! Name g ≠ s.2 !! Name g)) s.
Proof.
  intros Hrem Hrel. revert updated s. induction groups as [|g groups IH]; intros updated s Hn Hp.
  { intros u [= <-]. split_and!; [by intros g ?%not_elem_of_nil|done|].
    split; [by left|]. intros [?|(g & ?%not_elem_of_nil & _)]; done. }
  apply NoDup_cons in Hn as [Hg Hn], Hp as [Hgp Hp]. destruct s as [f cs].
  cbn [push_groups]. apply wp_bind, wp_on_error.
  eapply wp_mono; [by apply pushToFile_wp|]. intros r s1 Hpush.
  destruct r as [u1|e|]; [|done|done].
  destruct (pushed_ok _ _ _ _ _ Hrel Hpush) as (Hup & Helse & Hu1).
  eapply wp_mono; [by apply IH|]. intros r s2 Hrest u Hu.
  destruct (Hrest u Hu) as (Hall & Helse2 & Hu2). clear Hrest.
  assert (s2.2 !! Name g = s1.2 !! Name g) as Hck by by apply Helse2.
  split_and!.
  - intros g' [->|Hg']%elem_of_cons.
    + destruct Hup as (c & Hr & Hc & Hf). exists c. rewrite Hck.
      destruct Helse2 as [-> _]; [|done]. by split_and!.
    + destruct (Hall g' Hg') as (c & Hr & Hc & Hf). exists c. split_and!; [done..|].
      destruct Helse as [He1 He2]. rewrite <- He1, <- He2; [done| |].
      * intros Heq%list_elem_of_singleton. apply Hg. rewrite <- Heq. by apply list_elem_of_fmap_2.
      * intros Heq%list_elem_of_singleton. apply Hgp. rewrite <- Heq. by apply list_elem_of_fmap_2.
  - by apply (elsewhere_trans [g] groups _ s1).
  - rewrite Hu2. assert (∀ g', g' ∈ groups → s1.2 !! Name g' = cs !! Name g') as Hsame.
    { intros g' Hg'. destruct Helse as [_ He2]. apply He2.
      intros Heq%list_elem_of_singleton. apply Hg. rewrite <- Heq. by apply list_elem_of_fmap_2. }
    cbn [snd] in *. rewrite <- Hck in Hu1. split.
    + intros [Hu'|(g' & Hg' & Hne)].
      * destruct u1; [right; exists g; split; [by left|by apply Hu1]|by left].
      * right. exists g'. split; [by right|]. by rewrite <- Hsame.
    + intros [->|(g' & [->|Hg']%elem_of_cons & Hne)].
      * left. by destruct u1.
      * left. apply Hu1 in Hne. by rewrite Hne.
      * right. exists g'. split; [done|]. by rewrite Hsame.
Qed.

Lemma remove_files_wp {E} groups s :
  removable (base os) →
  wp (remove_files os (E := E) groups) (λ r s', r = Ret tt ∧ s'.2 = s.2 ∧
    ∀ q, content (os := base os) s'.1 q =
         if decide (q ∈ FilePath <$> groups) then None else content (os := base os) s.1 q) s.
Proof.
  intros Hrem. unfold remove_files.
  apply (wp_for_each (λ pre s', s'.2 = s.2 ∧ ∀ q, content (os := base os) s'.1 q =
    if decide (q ∈ FilePath <$> pre) then None else content (os := base os) s.1 q)).
  - split; [done|]. intros q. by rewrite decide_False by apply not_elem_of_nil.
  - intros pre g [f cs] _ [Hcs Hf]. apply wp_bind, wp_try. unfold wp at 1.
    rewrite call_files_run. cbn.
    assert (∀ f', (∀ q, content (os := base os) f' q =
                     if decide (q = FilePath g) then None else content (os := base os) f q) →
      ∀ q, content (os := base os) f' q =
        if decide (q ∈ FilePath <$> pre ++ [g]) then None else content (os := base os) s.1 q) as Hgo.
    { intros f' Hf' q. rewrite Hf', Hf. rewrite fmap_app. cbn [fmap list_fmap].
      destruct (decide (q = FilePath g)), (decide (q ∈ FilePath <$> pre)),
        (decide (q ∈ (FilePath <$> pre) ++ [FilePath g])); set_solver. }
    pose proof (no_panic_remove (os := base os) (FilePath g) f) as Hnp.
    pose proof (Hrem (FilePath g) f) as Hno.
    destruct (remove (base os) (FilePath g) f) as [[[]|[]|] f1] eqn:Hr; cbn in *; try done.
    + split; [done|]. apply Hgo. by apply remove_ok.
    + split; [done|]. destruct (remove_fail _ _ _ _ Hr) as [Hs Hn]. apply Hgo. intros q.
      rewrite Hs. destruct (decide (q = FilePath g)) as [->|]; [by rewrite Hn|done].
  - intros s' [Hcs Hf]. done.
Qed.

Lemma push_groups_returns byGroup groups updated s :
  removable (base os) → (∀ g, g ∈ groups → pushable g (byGroup !!! Name g)) →
  ∃ u, (push_groups os engine byGroup updated groups s).1 = Ret u.
Proof.
  intros Hrem. revert updated s. induction groups as [|g groups IH]; intros updated [f cs] Hg.
  { by exists updated. }
  pose proof (pushToFile_wp g (byGroup !!! Name g) f cs Hrem) as Hp. unfold wp in Hp.
  cbn [push_groups]. unfold mbind, M_bind, on_error.
  destruct (pushToFileWithDeps os engine g (byGroup !!! Name g) (f, cs)) as [[u|e|] s1];
    cbn in Hp; [| |done].
  - apply IH. intros g' Hg'. apply Hg. by right.
  - destruct Hp as (_ & Hno & _). destruct Hno. apply Hg. by left.
Qed.
End pushing.

(** Every recorded checksum is that of the group's file. *)
Definition in_sync {F} (os : osFuncs F) `{!FileSystem os} (groups : list SecretGroup)
    (s : F * gmap string Checksum) : Prop :=
  ∀ g ck, g ∈ groups → s.2 !! Name g = Some ck →
    ∃ c, content (os := os) s.1 (FilePath g) = Some c ∧ FileChecksum c = ck.

(** A run without an error, from any state. *)
Lemma provide_up_to_date {F} (os : providerOS F) `{!ProviderFS os} engine retrieve sanitize
    sched groups s u s' :
  removable (base os) → reliable (base os) →
  NoDup (Name <$> groups) → NoDup (FilePath <$> groups) →
  provideWithDeps os engine retrieve sanitize sched groups s = (Ret u, s') →
  ∃ byGroup, FetchSecretsForGroups retrieve sched groups = Ret byGroup ∧
    (∀ g, g ∈ groups → up_to_date os engine byGroup s s' g) ∧ elsewhere os groups s s' ∧
    (u = true ↔ ∃ g, g ∈ groups ∧ s'.2 !! Name g ≠ s.2 !! Name g).
Proof.
  intros Hrem Hrel Hn Hp. unfold provideWithDeps.
  destruct (FetchSecretsForGroups retrieve sched groups) as [byGroup|err|]; [| |done].
  2: { intros Hrun. exfalso. revert Hrun. unfold mbind, M_bind.
       destruct (deletion_error err && sanitize); [|done].
       by destruct (remove_files os groups s) as [[]]. }
  intros Hrun. exists byGroup. split; [done|].
  pose proof (push_groups_ok os engine byGroup groups false s Hrem Hrel Hn Hp) as Hok.
  destruct (wp_run _ _ _ _ _ Hok Hrun u eq_refl) as (Hall & Helse & Hu).
  split_and!; [done|done|]. rewrite Hu. split; [by intros [|]|by right].
Qed.

(** The file of every group has the checksum of what renders for it. *)
Definition files_rendered {F} (os : providerOS F) `{!ProviderFS os} engine (byGroup : secrets_by_name)
    (groups : list SecretGroup) (f' : F) : Prop :=
  ∀ g, g ∈ groups → ∃ c c', rendered_group engine g (byGroup !!! Name g) c ∧
    content (os := base os) f' (FilePath g) = Some c' ∧ FileChecksum c' = FileChecksum c.

(** From files in step with the checksums. *)
Lemma up_to_date_in_sync {F} (os : providerOS F) `{!ProviderFS os} engine byGroup groups s s' :
  in_sync (base os) groups s → (∀ g, g ∈ groups → up_to_date os engine byGroup s s' g) →
  in_sync (base os) groups s' ∧ files_rendered os engine byGroup groups s'.1.
Proof.
  intros Hsync Hall.
  assert (∀ g, g ∈ groups → ∃ c c', rendered_group engine g (byGroup !!! Name g) c ∧
    s'.2 !! Name g = Some (FileChecksum c) ∧
    content (os := base os) s'.1 (FilePath g) = Some c' ∧ FileChecksum c' = FileChecksum c) as Hfiles.
  { intros g Hg. destruct (Hall g Hg) as (c & Hr & Hck & [Hc|[Hck' Hc]]).
    - by exists c, c.
    - destruct (Hsync g _ Hg Hck') as (c' & Hc' & Heq). exists c, c'. by rewrite Hc, Hc'. }
  split.
  - intros g ck Hg Hck. destruct (Hfiles g Hg) as (c & c' & _ & Hck' & Hc & Heq).
    exists c'. split; [done|]. congruence.
  - intros g Hg. destruct (Hfiles g Hg) as (c & c' & Hr & _ & Hc). by exists c, c'.
Qed.

(** ** An in-memory operating system *)
Section sim_provider.
Variable deny : list string.

Definition sim_provider_os : providerOS sim_fs := {|
  base := sim_os deny;
  mkdirAll d := sim_call deny "mkdir" (mret tt);
  openCreate p m := sim_call deny "open" (λ f, (Ret tt, <[p := default "" (f !! p)]> f))
|}.

Lemma sim_mkdir d f : mkdirAll sim_provider_os d f = (Ret tt, f) ∨
  mkdirAll sim_provider_os d f = (Fail EOther, f).
Proof. cbn. unfold sim_call. case_decide; [by right|by left]. Qed.

Lemma sim_open p m f :
  openCreate sim_provider_os p m f = (Ret tt, <[p := default "" (f !! p)]> f) ∨
  openCreate sim_provider_os p m f = (Fail EOther, f).
Proof. cbn. unfold sim_call. case_decide; [by right|by left]. Qed.

Lemma sim_content f q : content (os := sim_os deny) f q = f !! q.
Proof. reflexivity. Qed.

Lemma sim_open_files p m f :
  match (openCreate sim_provider_os p m f).1 with
  | Ret _ => created (sim_os deny) p f (openCreate sim_provider_os p m f).2
  | _ => same_files (sim_os deny) f (openCreate sim_provider_os p m f).2
  end.
Proof.
  destruct (sim_open p m f) as [->| ->]; [|done]. intros q. rewrite !sim_content.
  apply insert_decide.
Qed.

Lemma sim_mkdir_no_panic d f : (mkdirAll sim_provider_os d f).1 ≠ Panic.
Proof. by destruct (sim_mkdir d f) as [->| ->]. Qed.

Lemma sim_open_no_panic p m f : (openCreate sim_provider_os p m f).1 ≠ Panic.
Proof. by destruct (sim_open p m f) as [->| ->]. Qed.

Lemma sim_mkdir_files d f : same_files (sim_os deny) f (mkdirAll sim_provider_os d f).2.
Proof. by destruct (sim_mkdir d f) as [->| ->]. Qed.

#[export] Instance sim_provider_fs : ProviderFS sim_provider_os :=
  Build_ProviderFS _ sim_provider_os (sim_file_system deny)
    sim_mkdir_no_panic sim_open_no_panic sim_mkdir_files sim_open_files.

Lemma sim_provider_content f q : content (os := base sim_provider_os) f q = f !! q.
Proof. reflexivity. Qed.
End sim_provider.

(** A template engine that ignores the text: one line per secret. *)
Definition sim_engine : template_engine := λ _ _ data,
  Content (foldr (λ s acc, secretAlias s +:+ "=" +:+ Value s +:+ String lf acc) "" (SecretsArray data)).

Definition sim_conjur (m : gmap string bytes) : RetrieveSecretsFunc := λ _, Ret m.

Definition sim_group : SecretGroup :=
  mkSecretGroup "db" "/s/db.yaml" "" "yaml" "" 420 [mkSpec "url" "db/url" "text"].
Definition sim_values : gmap string bytes := {["db/url" := Some "pg"]}.

(** ** Properties *)

(** C27: fetching asks the retriever once, for every requested path once
    or for everything when some path is "*"; it fails with an error that names
    a group and one of its paths that was not fetched, or gives every group exactly the
    secrets of its specs, in their order and, for "*", in the order of the
    identifiers, whatever order Go visits its maps in. *)
Theorem FetchSecretsForGroups_spec retrieve sched groups :
  NoDup (Name <$> groups) →
  let paths := Path <$> all_specs groups in
  let asked := getAllPaths (loop sched 0) groups in
  (("*" ∈ paths ∧ asked = ["*"]) ∨
   ("*" ∉ paths ∧ NoDup asked ∧ ∀ p, p ∈ asked ↔ p ∈ paths)) ∧
  match retrieve asked with
  | Ret m =>
      match FetchSecretsForGroups retrieve sched groups with
      | Ret byGroup => ∀ g, g ∈ groups → group_secrets m g = Some (byGroup !!! Name g)
      | Fail e => ∃ g path, g ∈ groups ∧ group_secrets m g = None ∧ path ∈ group_requests m g ∧
          m !! path = None ∧ e = CSPFK068E path (Name g)
      | Panic => False
      end
  | r => FetchSecretsForGroups retrieve sched groups =
           match r with Fail e => Fail e | _ => Panic end
  end.
Proof.
  intros Hnd paths asked. split; [apply getAllPaths_eq|].
  pose proof (Fetch_eq retrieve sched groups Hnd) as Hf. fold asked in Hf.
  destruct (retrieve asked) as [m|e|]; [|done..].
  destruct (FetchSecretsForGroups retrieve sched groups) as [byGroup|e|]; [|done..].
  destruct Hf as [Hin _]. intros g Hg. destruct (Hin g Hg) as (ss & Hss & ->).
  by rewrite lookup_total_empty.
Qed.

Lemma FetchSecretsForGroups_spec_witness :
  NoDup (Name <$> [sim_group]) ∧
  ∃ byGroup, FetchSecretsForGroups (sim_conjur sim_values) (λ _, reversed_order) [sim_group] =
    Ret byGroup ∧ byGroup !!! "db" = [mkSecret "url" "pg"].
Proof.
  assert (NoDup (Name <$> [sim_group])) as Hnd by (apply NoDup_singleton).
  split; [exact Hnd|].
  pose proof (FetchSecretsForGroups_spec (sim_conjur sim_values) (λ _, reversed_order)
                [sim_group] Hnd) as [_ Hf].
  unfold sim_conjur at 1 in Hf.
  destruct (FetchSecretsForGroups (sim_conjur sim_values) _ _) as [byGroup|e|] eqn:He.
  - exists byGroup. split; [reflexivity|]. specialize (Hf sim_group (list_elem_of_here _ _)).
    apply (inj Some). etransitivity; [symmetry; exact Hf|]. vm_compute. reflexivity.
  - vm_compute in He. discriminate He.
  - destruct Hf.
Defined.

(** C14: as long as files can be removed, [Provide] never leaves a
    partially written file, whatever else fails: after a fetch every file is as
    it was, or is a group's file that is empty when it did not exist, untouched
    when it did, or holds the whole content rendered for the group; when the
    fetch fails no file changes, unless sanitizing is on and the error text
    says that secrets are gone, and then exactly the files of the groups are
    removed and the flag reports an update. *)
Theorem provide_files_whole {F} (os : providerOS F) `{!ProviderFS os} engine retrieve sanitize
    sched groups f cs :
  removable (base os) →
  let run := provideWithDeps os engine retrieve sanitize sched groups (f, cs) in
  match FetchSecretsForGroups retrieve sched groups with
  | Ret byGroup => run.1 ≠ Panic ∧ whole_files os engine byGroup groups f run.2.1
  | Fail err =>
      let gone := deletion_error err && sanitize in
      run.1 = Fail (gone, FetchError err) ∧ run.2.2 = cs ∧
      ∀ q, content (os := base os) run.2.1 q =
           if decide (gone = true ∧ q ∈ FilePath <$> groups) then None
           else content (os := base os) f q
  | Panic => run = (Panic, (f, cs))
  end.
Proof.
  intros Hrem run. subst run. unfold provideWithDeps.
  destruct (FetchSecretsForGroups retrieve sched groups) as [byGroup|err|]; [| |done].
  - by apply (push_groups_whole os engine byGroup groups).
  - cbn zeta. destruct (deletion_error err && sanitize).
    + pose proof (remove_files_wp os (E := bool * p2f_error) groups (f, cs) Hrem) as Hr. unfold wp in Hr.
      unfold mbind, M_bind. destruct (remove_files os groups (f, cs)) as [r [f' cs']].
      destruct Hr as (Hr & Hcs & Hf). cbn in *. subst r cs'. split_and!; [done..|]. intros q.
      rewrite Hf. apply decide_ext. by split; [|intros []].
    + split_and!; [done..|]. intros q. by rewrite decide_False by by intros [].
Qed.

Lemma provide_files_whole_witness :
  let files := {["/s/db.yaml" := "old"; "/s/other" := "x"]} in
  let run := provideWithDeps (sim_provider_os []) sim_engine (λ _, Fail "CONJ 404 Not Found") true
    (λ _, canonical_order) [sim_group] (files, ∅) in
  run.1 = Fail (true, FetchError "CONJ 404 Not Found") ∧ run.2.1 !! "/s/other" = Some "x".
Proof.
  intros files run.
  assert (FetchSecretsForGroups (λ _, Fail "CONJ 404 Not Found") (λ _, canonical_order) [sim_group]
          = Fail "CONJ 404 Not Found") as Hf by (vm_compute; reflexivity).
  pose proof (provide_files_whole (sim_provider_os []) sim_engine (λ _, Fail "CONJ 404 Not Found")
    true (λ _, canonical_order) [sim_group] files ∅ (sim_removable [] ltac:(compute_done))) as Hw.
  cbv zeta in Hw. rewrite Hf in Hw. fold run in Hw. destruct Hw as (Hr & _ & _).
  split; [exact Hr|]. vm_compute. reflexivity.
Defined.

(** C13: when temporary files can be removed and the final flush and
    rename do not fail, and names and paths of the groups are distinct, a
    [Provide] without an error, from any files and recorded checksums, has
    fetched the secrets, leaves the checksum of the content rendered for every
    group recorded, and the group's file with that content - or, when that very
    checksum was recorded before, as it was, empty if it did not exist (so
    after sanitizing has removed it, [sanitized_file_stays_empty]). No other
    file is touched, and the flag is true exactly when some group's checksum
    changed. When the recorded checksums were in step with the files, they
    still are, and every file has the checksum of the rendered content. *)
Theorem provide_updates_files {F} (os : providerOS F) `{!ProviderFS os} engine retrieve sanitize
    sched groups s u s' :
  removable (base os) → reliable (base os) →
  NoDup (Name <$> groups) → NoDup (FilePath <$> groups) →
  provideWithDeps os engine retrieve sanitize sched groups s = (Ret u, s') →
  ∃ byGroup, FetchSecretsForGroups retrieve sched groups = Ret byGroup ∧
    (∀ g, g ∈ groups → up_to_date os engine byGroup s s' g) ∧
    (in_sync (base os) groups s →
       in_sync (base os) groups s' ∧ files_rendered os engine byGroup groups s'.1) ∧
    elsewhere os groups s s' ∧
    (u = true ↔ ∃ g, g ∈ groups ∧ s'.2 !! Name g ≠ s.2 !! Name g).
Proof.
  intros Hrem Hrel Hn Hp Hrun.
  destruct (provide_up_to_date os engine retrieve sanitize sched groups s u s' Hrem Hrel Hn Hp Hrun)
    as (byGroup & Hf & Hall & Helse & Hu).
  exists byGroup. split_and!; [done..| |done|done]. intros Hs.
  by apply (up_to_date_in_sync os engine byGroup groups s).
Qed.

(** The world of the examples: one existing file, nothing recorded yet. *)
Definition sim_start : sim_fs * gmap string Checksum := ({["/s/db.yaml" := "old"]}, ∅).
Definition sim_provide (deny : list string) (values : RetrieveSecretsFunc)
    (s : sim_fs * gmap string Checksum) : outcome (bool * p2f_error) bool * (sim_fs * gmap string Checksum) :=
  provideWithDeps (sim_provider_os deny) sim_engine values true (λ _, canonical_order) [sim_group] s.

Lemma provide_updates_files_witness :
  let s' := (sim_provide [] (sim_conjur sim_values) sim_start).2 in
  @in_sync _ (base (sim_provider_os [])) base_fs [sim_group] s' ∧
  s'.1 !! "/s/db.yaml" = Some ("url=pg" +:+ String lf "").
Proof.
  intros s'.
  assert (sim_provide [] (sim_conjur sim_values) sim_start = (Ret true, s')) as Hrun
    by (vm_compute; reflexivity).
  assert (@in_sync _ (base (sim_provider_os [])) base_fs [sim_group] sim_start) as Hsync
    by (intros g ck _; unfold sim_start; cbn [snd]; rewrite lookup_empty; discriminate).
  pose proof (provide_updates_files (sim_provider_os []) sim_engine (sim_conjur sim_values) true
    (λ _, canonical_order) [sim_group] sim_start true s' (sim_removable [] ltac:(compute_done))
    (sim_reliable [] ltac:(compute_done) ltac:(compute_done))
    (NoDup_singleton _) (NoDup_singleton _) Hrun) as (byGroup & _ & _ & Hsync' & _).
  split; [exact (proj1 (Hsync' Hsync))|]. vm_compute. reflexivity.
Defined.

(** C28: [Provide] does succeed: when the fetch returns secrets from which
    every group renders, and no call before the closing of the files fails, it
    returns without an error. *)
Theorem provide_succeeds {F} (os : providerOS F) `{!ProviderFS os} engine retrieve sanitize
    sched groups byGroup s :
  removable (base os) → writable (base os) → openable os →
  FetchSecretsForGroups retrieve sched groups = Ret byGroup →
  (∀ g, g ∈ groups → ∃ c, rendered_group engine g (byGroup !!! Name g) c) →
  ∃ u, (provideWithDeps os engine retrieve sanitize sched groups s).1 = Ret u.
Proof.
  intros Hrem Hw Ho Hf Hg. unfold provideWithDeps. rewrite Hf.
  apply (push_groups_returns os engine byGroup groups false s Hrem).
  intros g Hin. split; [done|]. split; [done|]. by apply Hg.
Qed.

Lemma provide_succeeds_witness :
  ∃ u, (sim_provide ["sync"; "rename"] (sim_conjur sim_values) sim_start).1 = Ret u.
Proof.
  destruct (FetchSecretsForGroups (sim_conjur sim_values) (λ _, canonical_order) [sim_group])
    as [byGroup|e|] eqn:Hf; [|vm_compute in Hf; discriminate Hf..].
  assert (byGroup !!! "db" = [mkSecret "url" "pg"]) as Hdb.
  { assert (match FetchSecretsForGroups (sim_conjur sim_values) (λ _, canonical_order) [sim_group]
            with Ret b => b !!! "db" | _ => [] end = [mkSecret "url" "pg"]) as Hv by (vm_compute; reflexivity).
    rewrite Hf in Hv. exact Hv. }
  apply (provide_succeeds (sim_provider_os ["sync"; "rename"]) sim_engine (sim_conjur sim_values)
    true (λ _, canonical_order) [sim_group] byGroup sim_start).
  - apply sim_removable; compute_done.
  - apply sim_writable; compute_done.
  - split; intros; vm_compute; discriminate.
  - exact Hf.
  - intros g ->%list_elem_of_singleton. exists ("url=pg" +:+ String lf ""). change (Name sim_group) with "db".
    rewrite Hdb. split; [vm_compute; reflexivity|]. exists yamlTemplate.
    split; vm_compute; reflexivity.
Defined.

(** The checksum of a group survives the removal of its file by
    sanitizing: when the secrets come back with their old values, [Provide]
    creates an empty file, reports no update and no error, and the file stays
    empty until the content changes. *)
Theorem sanitized_file_stays_empty :
  let s1 := (sim_provide [] (sim_conjur sim_values) sim_start).2 in
  let s2 := (sim_provide [] (λ _, Fail "404 Not Found") s1).2 in
  let run := sim_provide [] (sim_conjur sim_values) s2 in
  s2.1 !! "/s/db.yaml" = None ∧ run.1 = Ret false ∧ run.2.1 !! "/s/db.yaml" = Some "".
Proof. vm_compute. done. Qed.

(** An error of the deferred [Close] is dropped and the checksum is
    recorded before it: when the final rename fails, [Provide] reports an
    update although the file has its old content, and a later run with a
    working file system does not repair it. *)
Theorem failed_close_reported_as_update :
  let run1 := sim_provide ["rename"] (sim_conjur sim_values) sim_start in
  let run2 := sim_provide [] (sim_conjur sim_values) run1.2 in
  run1.1 = Ret true ∧ run1.2.1 !! "/s/db.yaml" = Some "old" ∧
  run2.1 = Ret false ∧ run2.2.1 !! "/s/db.yaml" = Some "old".
Proof. vm_compute. done. Qed.
