(* ===== verification/FilesInvariant.v ===== *)
(** * What the Push-to-File provider keeps from run to run

    The checksums of the previous runs decide which files are written. Here:
    as long as no run has removed the files, every recorded checksum is that of
    the group's file, on every branch of a run, so that a file left alone
    because its checksum has not changed does hold the secrets. *)

From S2P Require Import Prelude GoString GoBytes FileTemplates SecretGroup AtomicWriter PushToFile.
Open Scope Z_scope.

#[local] Opaque FileChecksum.

Section in_sync.
Context {F : Type} (os : providerOS F) `{!ProviderFS os} (engine : template_engine).
Context (groups : list SecretGroup).
Hypothesis files_removable : removable (base os).
Hypothesis files_reliable : reliable (base os).
Hypothesis names_distinct : NoDup (Name <$> groups).
Hypothesis paths_distinct : NoDup (FilePath <$> groups).
#[local] Abbreviation St := (F * gmap string Checksum)%type.

Lemma same_path (g g' : SecretGroup) : g ∈ groups → g' ∈ groups → FilePath g = FilePath g' → g = g'.
Proof.
  intros Hg Hg'. apply list_elem_of_lookup in Hg as [i Hi], Hg' as [j Hj]. intros Heq.
  assert (i = j) as ->; [|congruence].
  by eapply (NoDup_lookup (FilePath <$> groups)); rewrite ?list_lookup_fmap, ?Hi, ?Hj; cbn; rewrite ?Heq.
Qed.
Lemma same_name (g g' : SecretGroup) : g ∈ groups → g' ∈ groups → Name g = Name g' → g = g'.
Proof.
  intros Hg Hg'. apply list_elem_of_lookup in Hg as [i Hi], Hg' as [j Hj]. intros Heq.
  assert (i = j) as ->; [|congruence].
  by eapply (NoDup_lookup (Name <$> groups)); rewrite ?list_lookup_fmap, ?Hi, ?Hj; cbn; rewrite ?Heq.
Qed.

(** Making an empty file where there is none, or touching one that is there. *)
Lemma created_in_sync (s s' : St) p :
  in_sync (base os) groups s → created (base os) p s.1 s'.1 → s'.2 = s.2 → in_sync (base os) groups s'.
Proof.
  intros Hs Hc Hck g ck Hg Hn. rewrite Hck in Hn. destruct (Hs g ck Hg Hn) as (c & Hf & Heq).
  exists c. split; [|done]. rewrite Hc. case_decide as Hp; [|done]. by rewrite <- Hp, Hf.
Qed.

(** A push keeps the checksums in step, whatever its outcome. *)
Lemma pushed_in_sync sg secrets (s s' : St) r :
  sg ∈ groups → in_sync (base os) groups s → pushed os engine sg secrets s r s' →
  in_sync (base os) groups s'.
Proof.
  intros Hsg Hs Hp. destruct r as [[]|e|]; cbn in Hp; [| | |done].
  - destruct Hp as (c & _ & _ & Hck & [Hw|[Hnr _]]); [|by destruct Hnr].
    intros g ck Hg. rewrite Hck, Hw. intros [[Hn <-]|[Hn Hl]]%lookup_insert_Some.
    + apply same_name in Hn as ->; [|done..]. exists c. by rewrite decide_True.
    + rewrite decide_False; [by apply Hs|]. intros Hpath. apply Hn.
      by rewrite (same_path g sg).
  - destruct Hp as (c & _ & _ & Hck & Hc). by eapply created_in_sync.
  - destruct Hp as (Hck & _ & [Hsame|Hc]); [|by eapply created_in_sync].
    intros g ck Hg Hn. rewrite Hck in Hn. destruct (Hs g ck Hg Hn) as (c & Hf & Heq).
    exists c. by rewrite Hsame.
Qed.

Lemma push_groups_in_sync byGroup gs updated (s : St) :
  gs ⊆ groups → in_sync (base os) groups s →
  wp (push_groups os engine byGroup updated gs) (λ _ s', in_sync (base os) groups s') s.
Proof.
  revert updated s. induction gs as [|g gs IH]; intros updated [f cs] Hsub Hs; [done|].
  cbn [push_groups]. apply wp_bind, wp_on_error.
  eapply wp_mono; [by apply (pushToFile_wp os engine)|].
  intros r s1 Hp. assert (in_sync (base os) groups s1) as Hs1.
  { eapply pushed_in_sync; [apply Hsub; by left|exact Hs|exact Hp]. }
  destruct r as [u|e|]; [|done|done]. apply IH; [|done]. intros g' Hg'. apply Hsub. by right.
Qed.

(** Sanitizing has removed the files. *)
Definition sanitized (r : outcome (bool * p2f_error) bool) : Prop :=
  ∃ err, r = Fail (true, FetchError err).

(** Whether a run removes the files. *)
Definition removes_files (retrieve : RetrieveSecretsFunc) (sanitize : bool) (sched : schedule) : bool :=
  match FetchSecretsForGroups retrieve sched groups with
  | Fail err => deletion_error err && sanitize
  | _ => false
  end.

Lemma provide_keeps_sync retrieve sanitize sched (s : St) :
  in_sync (base os) groups s → removes_files retrieve sanitize sched = false →
  in_sync (base os) groups (provideWithDeps os engine retrieve sanitize sched groups s).2.
Proof.
  intros Hs. unfold provideWithDeps, removes_files.
  destruct (FetchSecretsForGroups retrieve sched groups) as [byGroup|err|]; [|by intros ->|done].
  intros _. by apply push_groups_in_sync.
Qed.

(** A run that could not fetch records no checksum. *)
Lemma provide_unfetched retrieve sanitize sched (s : St) :
  (¬ ∃ byGroup, FetchSecretsForGroups retrieve sched groups = Ret byGroup) →
  (provideWithDeps os engine retrieve sanitize sched groups s).2.2 = s.2.
Proof.
  intros Hno. unfold provideWithDeps.
  destruct (FetchSecretsForGroups retrieve sched groups) as [byGroup|err|]; [by destruct Hno; exists byGroup| |done].
  unfold mbind, M_bind. destruct (deletion_error err && sanitize); [|done].
  pose proof (remove_files_wp os (E := bool * p2f_error) groups s files_removable) as Hr. unfold wp in Hr.
  destruct (remove_files os groups s) as [r s1]. destruct Hr as (Hret & Hcs & _). cbn in *. by subst r.
Qed.

Lemma removes_unfetched retrieve sanitize sched :
  removes_files retrieve sanitize sched = true →
  ¬ ∃ byGroup, FetchSecretsForGroups retrieve sched groups = Ret byGroup.
Proof. unfold removes_files. intros Hr [byGroup Hf]. by rewrite Hf in Hr. Qed.

Lemma provide_in_sync retrieve sanitize sched (s : St) :
  let run := provideWithDeps os engine retrieve sanitize sched groups s in
  in_sync (base os) groups s → ¬ sanitized run.1 → in_sync (base os) groups run.2.
Proof.
  intros run Hs Hno. apply provide_keeps_sync; [done|]. subst run.
  unfold provideWithDeps, removes_files in *.
  destruct (FetchSecretsForGroups retrieve sched groups) as [byGroup|err|]; [done| |done].
  unfold mbind, M_bind in *. destruct (deletion_error err && sanitize); [|done].
  pose proof (remove_files_wp os (E := bool * p2f_error) groups s files_removable) as Hr. unfold wp in Hr.
  destruct (remove_files os groups s) as [r s1]. destruct Hr as (Hret & _). cbn in Hret. subst r.
  destruct Hno. by exists err.
Qed.

(** A sequence of runs that have not removed the files. *)
Inductive file_runs (sanitize : bool) : St → St → Prop :=
| no_run s : file_runs sanitize s s
| one_run s s' retrieve sched r s'' :
    file_runs sanitize s s' →
    provideWithDeps os engine retrieve sanitize sched groups s' = (r, s'') → ¬ sanitized r →
    file_runs sanitize s s''.

Lemma runs_in_sync sanitize s s' :
  file_runs sanitize s s' → in_sync (base os) groups s → in_sync (base os) groups s'.
Proof.
  induction 1 as [s|s s1 retrieve sched r s2 _ IH Hrun Hno]; [done|]. intros Hs.
  pose proof (provide_in_sync retrieve sanitize sched s1 (IH Hs)) as Hp. cbv zeta in Hp.
  rewrite Hrun in Hp. by apply Hp.
Qed.
End in_sync.

Lemma in_sync_fresh {F} (os : osFuncs F) `{!FileSystem os} groups f : in_sync os groups (f, ∅).
Proof. intros g ck _. cbn. by rewrite lookup_empty. Qed.

(** What a successful run provides: the file of every group has a content with
    the checksum of what renders from the values that were fetched. *)
Definition files_provided {F} (os : providerOS F) `{!ProviderFS os} engine retrieve sched groups
    (f' : F) : Prop :=
  ∃ byGroup, FetchSecretsForGroups retrieve sched groups = Ret byGroup ∧
    files_rendered os engine byGroup groups f'.

Lemma run_files_provided {F} (os : providerOS F) `{!ProviderFS os} engine retrieve sanitize sched
    groups s u s' :
  removable (base os) → reliable (base os) →
  NoDup (Name <$> groups) → NoDup (FilePath <$> groups) → in_sync (base os) groups s →
  provideWithDeps os engine retrieve sanitize sched groups s = (Ret u, s') →
  files_provided os engine retrieve sched groups s'.1.
Proof.
  intros Hrem Hrel Hn Hp Hs Hrun.
  destruct (provide_up_to_date os engine retrieve sanitize sched groups s u s' Hrem Hrel Hn Hp Hrun)
    as (byGroup & Hf & Hall & _). exists byGroup. split; [done|]. by apply (up_to_date_in_sync os engine byGroup groups s s').
Qed.

(** ** Properties *)

(** C5: after any runs of a new provider, with whatever Conjur answered
    and however pushing the files failed, as long as none of them removed the
    files: a run without an error leaves every group's file with the checksum
    of what renders from the values that Conjur has just returned - also the
    files that it did not write because their checksum had not changed. It
    takes that files can be removed and that the final flush and rename do not
    fail. *)
Theorem files_hold_values {F} (os : providerOS F) `{!ProviderFS os} engine groups sanitize f0 s
    retrieve sched u s' :
  removable (base os) → reliable (base os) →
  NoDup (Name <$> groups) → NoDup (FilePath <$> groups) →
  file_runs os engine groups sanitize (f0, ∅) s →
  provideWithDeps os engine retrieve sanitize sched groups s = (Ret u, s') →
  files_provided os engine retrieve sched groups s'.1.
Proof.
  intros Hrem Hrel Hn Hp Hruns Hrun.
  assert (in_sync (base os) groups s) as Hs by (eapply runs_in_sync; try done; apply in_sync_fresh).
  by apply (run_files_provided os engine retrieve sanitize sched groups s u).
Qed.

(** A run that cannot fetch, one that writes, and one with nothing new. *)
Lemma files_hold_values_witness :
  let s1 := (sim_provide [] (λ _, Fail "timeout") sim_start).2 in
  let s2 := (sim_provide [] (sim_conjur sim_values) s1).2 in
  let run := sim_provide [] (sim_conjur sim_values) s2 in
  run.1 = Ret false ∧
  files_provided (sim_provider_os []) sim_engine (sim_conjur sim_values) (λ _, canonical_order)
    [sim_group] run.2.1.
Proof.
  intros s1 s2 run. assert (run.1 = Ret false) as Hrun by (vm_compute; reflexivity).
  split; [exact Hrun|].
  apply (files_hold_values (sim_provider_os []) sim_engine [sim_group] true {["/s/db.yaml" := "old"]} s2
    (sim_conjur sim_values) (λ _, canonical_order) false run.2).
  - apply sim_removable. compute_done.
  - apply sim_reliable; compute_done.
  - apply NoDup_singleton.
  - apply NoDup_singleton.
  - apply (one_run _ _ _ _ _ s1 (sim_conjur sim_values) (λ _, canonical_order) (Ret true));
      [|vm_compute; reflexivity|by intros [err [=]]].
    apply (one_run _ _ _ _ _ sim_start (λ _, Fail "timeout") (λ _, canonical_order)
      (Fail (false, FetchError "timeout"))); [apply no_run|vm_compute; reflexivity|by intros [err [=]]].
  - rewrite <- Hrun. apply surjective_pairing.
Defined.
