(* ===== verification/Informer.v ===== *)
(** * The Secret informer (pkg/secrets/k8s_informer)

    secret_informer.go and notifier.go: the handlers that decide which events
    on K8s Secrets make the provider run, the queue they fill and the worker
    that empties it. The shared informer and the work queue are client-go's:
    the handlers are called with what the informer passes them, and the queue
    is a first-in first-out list that refuses additions once it is shut down
    (every queued event holds new deep copies, so no two are equal). *)

From S2P Require Import Prelude GoString GoConv GoBytes Config FileTemplates K8sClient.
Open Scope Z_scope.

Inductive event_type := SecretEventTypeAdd | SecretEventTypeUpdate.

#[export] Instance event_type_eq_dec : EqDecision event_type.
Proof. solve_decision. Defined.

(** [OldSecret] is nil for an added Secret. *)
Record SecretEvent := mkEvent {
  event_secret : K8sSecret;
  OldSecret : option K8sSecret;
  EventType : event_type
}.

(** What client-go passes to a handler: a pointer to a Secret, which may be
    nil, or an object of another type. *)
Inductive informer_object :=
| SecretObject (s : option K8sSecret)
| OtherObject.

Record SecretInformer := mkInformer {
  informer : bool;
  hasSynced : bool;
  queue : list SecretEvent;
  shuttingDown : bool
}.

Definition NewSecretInformer : SecretInformer := mkInformer false false [] false.

Definition queue_add (e : SecretEvent) (si : SecretInformer) : SecretInformer :=
  if shuttingDown si then si
  else mkInformer (informer si) (hasSynced si) (queue si ++ [e]) (shuttingDown si).

(** ** What counts as a change *)
Definition hasManagedByProviderLabel (secret : option K8sSecret) : bool :=
  match secret with
  | None => false
  | Some s =>
      match Labels s with
      | None => false
      | Some labels =>
          match ParseBool (labels !!! ManagedByProviderKey) with
          | Some boolVal => boolVal
          | None => false
          end
      end
  end.

(** The loop over the bytes of two slices of one length. *)
Fixpoint bytes_differ (a b : string) : bool :=
  match a, b with
  | String x a', String y b' => if decide (x ≠ y) then true else bytes_differ a' b'
  | _, _ => false
  end.

(** [None] is the nil-pointer dereference. *)
Definition conjurMapChanged (oldSecret newSecret : option K8sSecret) : option bool :=
  match oldSecret, newSecret with
  | Some old, Some new =>
      match Data old, Data new with
      | Some oldData, Some newData =>
          let oldMap := bytes_string (default None (oldData !! ConjurMapKey)) in
          let newMap := bytes_string (default None (newData !! ConjurMapKey)) in
          if decide (String.length oldMap ≠ String.length newMap) then Some true
          else Some (bytes_differ oldMap newMap)
      | Some _, None | None, Some _ => Some true
      | None, None => Some false
      end
  | _, _ => None
  end.

Definition labelsChanged (oldSecret newSecret : option K8sSecret) : bool :=
  negb (eqb (hasManagedByProviderLabel oldSecret) (hasManagedByProviderLabel newSecret)).

Definition isRelevantAnnotation (key : string) : bool :=
  HasPrefix key SecretGroupPrefix || HasPrefix key SecretGroupFileTemplatePrefix.

(** The set of relevant keys of both maps, and the loop over it. *)
Definition relevant_keys (o : range_order) (annotations : gmap string string)
    (keys : gmap string bool) : gmap string bool :=
  foldl (λ ks key, if isRelevantAnnotation key then <[key := true]> ks else ks) keys
    (range o annotations).*1.

Definition relevantAnnotationsChanged (sched : schedule) (oldSecret newSecret : K8sSecret) : bool :=
  match Annotations oldSecret, Annotations newSecret with
  | None, None => false
  | _, _ =>
      let oldAnnotations := nilmap (Annotations oldSecret) in
      let newAnnotations := nilmap (Annotations newSecret) in
      let relevantKeys := relevant_keys (loop sched 1) newAnnotations
                            (relevant_keys (loop sched 0) oldAnnotations ∅) in
      existsb (λ key, bool_decide (oldAnnotations !!! key ≠ newAnnotations !!! key))
        (range (loop sched 2) relevantKeys).*1
  end.

(** ** The handlers

    [None] is a panic. *)
Definition onAdd (obj : informer_object) (si : SecretInformer) : SecretInformer :=
  if negb (informer si) || negb (hasSynced si) then si
  else match obj with
       | OtherObject => si
       | SecretObject secret =>
           match secret with
           | Some s => if hasManagedByProviderLabel (Some s)
                       then queue_add (mkEvent s None SecretEventTypeAdd) si else si
           | None => si
           end
       end.

Definition onUpdate (sched : schedule) (oldObj newObj : informer_object) (si : SecretInformer) :
    option SecretInformer :=
  if negb (informer si) || negb (hasSynced si) then Some si
  else match newObj, oldObj with
       | OtherObject, _ | _, OtherObject => Some si
       | SecretObject newSecret, SecretObject oldSecret =>
           if negb (hasManagedByProviderLabel newSecret) then Some si
           else
             match newSecret, oldSecret with
             | Some new, Some old =>
                 changed ← conjurMapChanged (Some old) (Some new);
                 if changed || labelsChanged (Some old) (Some new)
                    || relevantAnnotationsChanged sched old new
                 then Some (queue_add (mkEvent new (Some old) SecretEventTypeUpdate) si)
                 else Some si
             | _, _ => None
             end
       end.

(** ** The worker and the notifier *)

(** [NotifySecretEvent]: sending on the channel, which is nil, or is received
    from within three seconds or not. *)
Definition NotifySecretEvent (eventsChan : option bool) : bool :=
  match eventsChan with None => false | Some received_in_time => received_in_time end.

Inductive process_result := Sent (e : SecretEvent) | Dropped (e : SecretEvent).

Definition processEvent (eventsChan : option bool) (e : SecretEvent) : process_result :=
  if NotifySecretEvent eventsChan then Sent e else Dropped e.

(** [processNextItem] with an item in the queue, or with the queue shut down
    and empty ([None], the worker ends). On an empty queue [Get] blocks. *)
Definition processNextItem (eventsChan : option bool) (si : SecretInformer) :
    option process_result * SecretInformer :=
  match queue si with
  | [] => (None, si)
  | e :: q => (Some (processEvent eventsChan e),
               mkInformer (informer si) (hasSynced si) q (shuttingDown si))
  end.

(** The worker after the queue is shut down, until it is empty; [chan k] is
    the channel when the [k]-th event is sent. The length of the queue is
    enough fuel: [runWorker_drains]. *)
Fixpoint runWorker (fuel k : nat) (chan : nat → option bool) (si : SecretInformer) :
    list process_result * SecretInformer :=
  match fuel with
  | O => ([], si)
  | S fuel' =>
      match processNextItem (chan k) si with
      | (None, si') => ([], si')
      | (Some r, si') => let '(rs, si'') := runWorker fuel' (S k) chan si' in (r :: rs, si'')
      end
  end.

(** ** Starting and stopping *)
Inductive start_error := CSPFK076E | CSPFK078E.

(** Whether there is a notifier, and whether registering the handlers works.
    A start that fails to register leaves the informer set. *)
Definition Start (notifier registered : bool) : M SecretInformer start_error unit := λ si,
  if negb notifier then (Fail CSPFK076E, si)
  else
    let si' := mkInformer true (hasSynced si) (queue si) (shuttingDown si) in
    if negb registered then (Fail CSPFK078E, si') else (Ret tt, si').

(** [stopOnce] makes the second call do nothing, as shutting down twice does. *)
Definition Stop (si : SecretInformer) : SecretInformer :=
  mkInformer (informer si) (hasSynced si) (queue si) true.

(** ** Lemmas *)
Lemma queue_add_stopped e si : shuttingDown si = true → queue_add e si = si.
Proof. unfold queue_add. by intros ->. Qed.

(** A stopped informer takes no more events. *)
Lemma stopped_ignores_events sched obj obj' si :
  shuttingDown si = true →
  onAdd obj si = si ∧ (onUpdate sched obj obj' si = None ∨ onUpdate sched obj obj' si = Some si).
Proof.
  intros Hs. split.
  - unfold onAdd. destruct (_ || _); [done|]. destruct obj as [[s|]|]; [|done..].
    destruct (hasManagedByProviderLabel _); [|done]. by apply queue_add_stopped.
  - unfold onUpdate. destruct (_ || _); [by right|].
    destruct obj' as [new|]; [|by right]. destruct obj as [old|]; [|by right].
    destruct (negb _); [by right|]. destruct new as [new|]; [|by left]. destruct old as [old|]; [|by left].
    destruct (conjurMapChanged _ _) as [c|]; [right|by left]. cbn [mbind option_bind].
    destruct (_ || _); [by rewrite queue_add_stopped|done].
Qed.

(** Before it is started an informer takes no events. *)
Lemma new_ignores_events sched obj obj' :
  onAdd obj NewSecretInformer = NewSecretInformer ∧
  onUpdate sched obj obj' NewSecretInformer = Some NewSecretInformer.
Proof. done. Qed.

(** The worker sends or drops every queued event, in order, and ends. *)
Lemma runWorker_drains fuel k chan si :
  (length (queue si) ≤ fuel)%nat →
  runWorker fuel k chan si =
  (imap (λ i e, processEvent (chan (k + i)%nat) e) (queue si),
   mkInformer (informer si) (hasSynced si) [] (shuttingDown si)).
Proof.
  revert fuel k. destruct si as [inf syn q sd]. cbn [queue informer hasSynced shuttingDown].
  induction q as [|e q IH]; intros [|fuel] k Hf; cbn in Hf; try lia; [done..|].
  cbn [runWorker processNextItem queue informer hasSynced shuttingDown]. rewrite IH by lia.
  cbn [imap]. f_equal. rewrite Nat.add_0_r. f_equal. apply imap_ext. intros i x _. cbn.
  by rewrite Nat.add_succ_r.
Qed.

Lemma bytes_differ_spec a b :
  String.length a = String.length b → bytes_differ a b = negb (bool_decide (a = b)).
Proof.
  revert b. induction a as [|x a IH]; intros [|y b] Hl; try done.
  cbn [bytes_differ]. injection Hl as Hl. case_decide as Hxy.
  - by rewrite bool_decide_eq_false_2 by congruence.
  - subst y. rewrite IH by done. f_equal. apply bool_decide_ext.
    split; congruence.
Qed.

(** The parts of a Secret that the handlers compare. *)
Definition conjur_map_of (s : K8sSecret) : option string :=
  (λ d : gmap string bytes, bytes_string (default None (d !! ConjurMapKey))) <$> Data s.
Definition annotation_of (s : K8sSecret) (key : string) : string :=
  nilmap (Annotations s) !!! key.

Lemma conjurMapChanged_spec old new :
  conjurMapChanged (Some old) (Some new) = Some (bool_decide (conjur_map_of old ≠ conjur_map_of new)).
Proof.
  unfold conjurMapChanged, conjur_map_of.
  destruct (Data old) as [d|], (Data new) as [d'|]; cbn; try done.
  set (a := bytes_string _). set (b := bytes_string _). case_decide as Hl.
  - f_equal. symmetry. apply bool_decide_eq_true_2. congruence.
  - rewrite bytes_differ_spec by done. f_equal.
    rewrite bool_decide_not. f_equal. apply bool_decide_ext. split; congruence.
Qed.

Lemma relevant_keys_spec o annots keys k :
  is_Some (relevant_keys o annots keys !! k) ↔
  is_Some (keys !! k) ∨ isRelevantAnnotation k = true ∧ is_Some (annots !! k).
Proof.
  unfold relevant_keys. rewrite <- (elem_of_range_keys o annots k).
  generalize (range o annots).*1. intros l. revert keys.
  induction l as [|key l IH]; intros keys; cbn [foldl].
  - split; [by left|]. intros [?|[_ ?%not_elem_of_nil]]; done.
  - rewrite IH, elem_of_cons. destruct (isRelevantAnnotation key) eqn:Hr.
    + rewrite lookup_insert_is_Some'. naive_solver.
    + naive_solver congruence.
Qed.

Lemma relevantAnnotationsChanged_spec sched old new :
  relevantAnnotationsChanged sched old new = true ↔
  ∃ key, isRelevantAnnotation key = true ∧ annotation_of old key ≠ annotation_of new key.
Proof.
  unfold relevantAnnotationsChanged, annotation_of.
  assert (∀ m m' : gmap string string,
    existsb (λ key, bool_decide (m !!! key ≠ m' !!! key))
      (range (loop sched 2) (relevant_keys (loop sched 1) m' (relevant_keys (loop sched 0) m ∅))).*1
      = true ↔ ∃ key, isRelevantAnnotation key = true ∧ m !!! key ≠ m' !!! key) as Hgo.
  { intros m m'. rewrite existsb_exists. setoid_rewrite bool_decide_eq_true.
    setoid_rewrite <- list_elem_of_In. setoid_rewrite elem_of_range_keys.
    setoid_rewrite relevant_keys_spec. setoid_rewrite relevant_keys_spec.
    setoid_rewrite lookup_empty. split; [intros (k & Hk & Hne); exists k; naive_solver|].
    intros (k & Hk & Hne). exists k. split; [|done].
    rewrite !lookup_total_alt in Hne.
    destruct (m !! k) eqn:Hm; [left; right; eauto|]. right. split; [done|].
    destruct (m' !! k) eqn:Hm'; [eauto|]. done. }
  destruct (Annotations old) as [m|], (Annotations new) as [m'|]; try apply Hgo.
  split; [done|]. intros (k & _ & Hne). done.
Qed.

(** Which updates queue an event. *)
Lemma onUpdate_events sched old new si :
  onUpdate sched (SecretObject (Some old)) (SecretObject (Some new)) si =
  Some (if decide (informer si = true ∧ hasSynced si = true ∧
                   hasManagedByProviderLabel (Some new) = true ∧
                   (conjur_map_of old ≠ conjur_map_of new ∨
                    hasManagedByProviderLabel (Some old) = false ∨
                    relevantAnnotationsChanged sched old new = true))
        then queue_add (mkEvent new (Some old) SecretEventTypeUpdate) si else si).
Proof.
  unfold onUpdate.
  destruct (informer si) eqn:Hi; cbn [negb orb]; [|by rewrite decide_False by naive_solver].
  destruct (hasSynced si) eqn:Hs; cbn [negb orb]; [|by rewrite decide_False by naive_solver].
  destruct (hasManagedByProviderLabel (Some new)) eqn:Hn; cbn [negb];
    [|by rewrite decide_False by naive_solver].
  rewrite conjurMapChanged_spec. cbn [mbind option_bind]. unfold labelsChanged. rewrite Hn.
  case_bool_decide as Hc; cbn [orb]; [by rewrite decide_True by naive_solver|].
  destruct (hasManagedByProviderLabel (Some old)) eqn:Ho; cbn [eqb negb orb];
    [|by rewrite decide_True by naive_solver].
  destruct (relevantAnnotationsChanged sched old new).
  - by rewrite decide_True by naive_solver.
  - by rewrite decide_False by naive_solver.
Qed.

(** ** Properties *)

(** C32: an update of a Secret queues exactly one event, holding both
    versions, when the informer has synced, the new version is labelled as
    managed, and its conjur-map, its label or one of its secret-group
    annotations is not what it was; every other update leaves the queue alone,
    and no update of two Secrets panics. *)
Theorem onUpdate_spec sched old new si :
  onUpdate sched (SecretObject (Some old)) (SecretObject (Some new)) si =
  Some (if decide (informer si = true ∧ hasSynced si = true ∧
                   hasManagedByProviderLabel (Some new) = true ∧
                   (conjur_map_of old ≠ conjur_map_of new ∨
                    hasManagedByProviderLabel (Some old) = false ∨
                    relevantAnnotationsChanged sched old new = true))
        then queue_add (mkEvent new (Some old) SecretEventTypeUpdate) si else si) ∧
  (relevantAnnotationsChanged sched old new = true ↔
   ∃ key, isRelevantAnnotation key = true ∧ annotation_of old key ≠ annotation_of new key).
Proof.
  split; [apply onUpdate_events|apply relevantAnnotationsChanged_spec].
Qed.

(** The informer reads the label with [strconv.ParseBool] and the
    provider lists by the selector "conjur.org/managed-by-provider=true": a
    Secret labelled "True" or "1" makes the provider run, and the run does not
    see it. *)
Theorem label_spelling_not_listed :
  ∀ spelling, spelling ∈ ["True"; "1"; "t"] →
  let s := mkK8sSecret "app" (Some {[ManagedByProviderKey := spelling]}) None
             (Some {[ConjurMapKey := Some "user: db/user"]}) in
  queue (onAdd (SecretObject (Some s)) (mkInformer true true [] false)) =
    [mkEvent s None SecretEventTypeAdd] ∧
  (ListLabeledK8sSecrets "ns" (mkSim {["ns" := {["app" := s]}]} true [])).1 = Ret [] ∧
  (RetrieveK8sSecret "ns" "app" (mkSim {["ns" := {["app" := s]}]} true [])).1 = Ret s.
Proof.
  intros spelling Hs. rewrite !elem_of_cons, elem_of_nil in Hs.
  destruct Hs as [->|[->|[->|[]]]]; vm_compute; done.
Qed.

Lemma label_spelling_not_listed_witness :
  let s := mkK8sSecret "app" (Some {[ManagedByProviderKey := "1"]}) None
             (Some {[ConjurMapKey := Some "user: db/user"]}) in
  (ListLabeledK8sSecrets "ns" (mkSim {["ns" := {["app" := s]}]} true [])).1 = Ret [].
Proof.
  exact (proj1 (proj2 (label_spelling_not_listed "1" ltac:(set_solver)))).
Defined.
