(* ===== verification/Runner.v ===== *)
(** * Running a provider (pkg/secrets/provide_conjur_secrets.go)

    The retry wrapper with its backoff policy (pkg/utils/limited_backoff.go),
    [RunSecretsProvider] with its periodic and its informer-triggered refresh,
    and the readiness flag of the HTTP server. The loops are the step relation
    [step]; a provider is any [ProviderFunc] over a world [W]. The backoff
    library is a relation [RetryNotify] with its documented behaviour as
    [RetryLaws]; waiting is not modelled, time passes
    between steps. *)

From S2P Require Import Prelude GoString GoBytes FileTemplates K8sClient K8sProvider K8sKeys K8sProviderProps Informer.
Open Scope Z_scope.

Definition informerDebounceDelay : Z := 200000000.
Definition informerDebounceMaxDelay : Z := 10000000000.

(** ** limitedBackOff *)
Record limitedBackOff := mkBackOff { Interval : Z; RetryLimit : Z; retryCount : Z }.

Definition NewLimitedBackOff (duration retryLimit : Z) : limitedBackOff :=
  mkBackOff duration retryLimit 0.
Definition Reset (b : limitedBackOff) : limitedBackOff := mkBackOff (Interval b) (RetryLimit b) 0.

(** [None] is [backoff.Stop]. *)
Definition NextBackOff (b : limitedBackOff) : option Z * limitedBackOff :=
  if (0 <=? RetryLimit b) && (RetryLimit b <=? retryCount b) then (None, b)
  else (Some (Interval b), mkBackOff (Interval b) (RetryLimit b) (retryCount b + 1)).

(** ** The backoff library

    [RetryNotify op policy notify] as the relation between the state before,
    the result and the state after; it need not return. *)
Definition retry_relation : Type := ∀ (S E : Type) (op : M S E unit)
  (reset : S → S) (next : S → option Z * S) (notify : E → Z → S → S),
  S → outcome E unit → S → Prop.

(** One attempt: the operation is called; after an error the policy either
    says stop or says how long to wait, [notify] is called, and [again] follows. *)
Definition retry_body {S E} (op : M S E unit) (next : S → option Z * S) (notify : E → Z → S → S)
    (again : S → outcome E unit → S → Prop) (s : S) (r : outcome E unit) (s' : S) : Prop :=
  match op s with
  | (Ret _, s1) => r = Ret tt ∧ s' = s1
  | (Panic, s1) => r = Panic ∧ s' = s1
  | (Fail e, s1) =>
      match next s1 with
      | (None, s2) => r = Fail e ∧ s' = s2
      | (Some d, s2) => again (notify e d s2) r s'
      end
  end.

(** The policy is reset; then there are attempts until one succeeds or the
    policy says stop. A call that returns has made finitely many. *)
Class RetryLaws (RetryNotify : retry_relation) := {
  attempt : retry_relation;
  retry_start S E op reset next notify (s : S) (r : outcome E unit) s' :
    RetryNotify S E op reset next notify s r s' ↔
    attempt S E op reset next notify (reset s) r s';
  retry_attempt S E op reset next notify (s : S) (r : outcome E unit) s' :
    attempt S E op reset next notify s r s' ↔
    retry_body op next notify (attempt S E op reset next notify) s r s';
  retry_least S E op reset next notify (P : S → outcome E unit → S → Prop) :
    (∀ s r s', retry_body op next notify P s r s' → P s r s') →
    ∀ s r s', attempt S E op reset next notify s r s' → P s r s'
}.

(** ** State *)
Record StatusUpdater (W : Type) := mkStatus {
  SetSecretsProvided : M W string unit;
  SetSecretsUpdated : M W string unit;
  CopyScripts : M W string unit
}.
Arguments SetSecretsProvided {W} _ _.
Arguments SetSecretsUpdated {W} _ _.
Arguments CopyScripts {W} _ _.

(** [ProviderRefreshConfig]; [InformerEvents] is whether the channel is there. *)
Record ProviderRefreshConfig := mkRefresh {
  Mode : string;
  RunOnce : bool;
  SecretRefreshInterval : Z;
  InformerEvents : bool;
  RetryInterval : Z;
  RetryCountLimit : Z
}.

(** The world, the flag of the HTTP server ([None] without a server), and the
    policy that the retry wrapper closes over. *)
Record runner_state (W : Type) := mkRunner {
  world : W;
  isReady : option bool;
  policy : limitedBackOff
}.
Arguments mkRunner {W} _ _ _.
Arguments world {W} _.
Arguments isReady {W} _.
Arguments policy {W} _.

Definition ProviderFunc (W : Type) : Type := M W (bool * string) bool.

(** The error of a provider's result. *)
Definition error_of (r : outcome (bool * string) bool) : option string :=
  match r with Fail (_, e) => Some e | _ => None end.

Section runner.
Context {W : Type}.
#[local] Abbreviation St := (runner_state W).

Definition set_world (st : St) (w : W) : St := mkRunner w (isReady st) (policy st).
Definition set_policy (st : St) (b : limitedBackOff) : St := mkRunner (world st) (isReady st) b.

Definition setReady (err : option string) (st : St) : St :=
  match isReady st with
  | None => st
  | Some _ => mkRunner (world st) (Some (bool_decide (err = None))) (policy st)
  end.

Definition call_world {E A} (m : M W E A) : M St E A :=
  λ st, let '(r, w) := m (world st) in (r, set_world st w).

(** ** RetryableSecretProvider *)
Section retry.
Context (RetryNotify : retry_relation) (provideSecrets : ProviderFunc W).

(** The operation stores the flag in the variable [updated]. *)
Definition retry_op : M (bool * St) string unit :=
  λ s, match call_world provideSecrets s.2 with
       | (Ret updated, st) => (Ret tt, (updated, st))
       | (Fail (updated, err), st) => (Fail err, (updated, st))
       | (Panic, st) => (Panic, (s.1, st))
       end.
Definition retry_reset (s : bool * St) : bool * St := (s.1, set_policy s.2 (Reset (policy s.2))).
Definition retry_next (s : bool * St) : option Z * (bool * St) :=
  let '(d, b) := NextBackOff (policy s.2) in (d, (s.1, set_policy s.2 b)).
Definition retry_notify (onRetry : option (string → St → St)) (err : string) (next : Z)
    (s : bool * St) : bool * St :=
  match onRetry with None => s | Some f => (s.1, f err s.2) end.

Definition RetryableSecretProvider (onRetry : option (string → St → St))
    (st : St) (r : outcome (bool * string) bool) (st' : St) : Prop :=
  ∃ o updated,
    RetryNotify (bool * St)%type string retry_op retry_reset retry_next (retry_notify onRetry)
      (false, st) o (updated, st') ∧
    r = match o with Ret _ => Ret updated | Fail err => Fail (updated, err) | Panic => Panic end.
End retry.

(** ** RunSecretsProvider *)

(** How the runner has ended, if it has. *)
Inductive run_phase := Serving | Returned (err : option string) | Crashed.

Section run.
Context (RetryNotify : retry_relation) (raw : ProviderFunc W)
  (cleanup : gmap string (list string) → ProviderFunc W)
  (L : libraries) (C : provider_config) (status : StatusUpdater W) (cfg : ProviderRefreshConfig).

(** The readiness callback is there when the server is. *)
Definition onRetry (st : St) : option (string → St → St) :=
  match isReady st with None => None | Some _ => Some (λ err, setReady (Some err)) end.

(** [provideSecrets] after the wrapping: with a retry interval of 0 it is the
    provider itself. *)
Definition provideSecrets (st : St) (r : outcome (bool * string) bool) (st' : St) : Prop :=
  if 0 <? RetryInterval cfg
  then RetryableSecretProvider RetryNotify raw (onRetry st) st r st'
  else (r, st') = call_world raw st.

(** From the result of the first run to the goroutines. *)
Definition after_first (r : outcome (bool * string) bool) (st : St) : run_phase * St :=
  let continue := if RunOnce cfg then Returned None else Serving in
  match r with
  | Panic => (Crashed, st)
  | Fail (_, err) =>
      if RunOnce cfg then (Returned (Some err), st) else (continue, setReady (Some err) st)
  | Ret _ =>
      match call_world (SetSecretsProvided status) (setReady None st) with
      | (Ret _, st1) => (continue, st1)
      | (Fail err, st1) => (if RunOnce cfg then Returned (Some err) else continue, st1)
      | (Panic, st1) => (Crashed, st1)
      end
  end.

Definition start (st : St) (phase : run_phase) (st' : St) : Prop :=
  match call_world (CopyScripts status) st with
  | (Fail err, st1) => phase = Returned (Some err) ∧ st' = st1
  | (Panic, st1) => phase = Crashed ∧ st' = st1
  | (Ret _, st1) => ∃ r st2, provideSecrets st1 r st2 ∧ (phase, st') = after_first r st2
  end.

(** An error that a goroutine sends ends the wait of [RunSecretsProvider]. *)
Definition on_periodic_error (err : string) : run_phase :=
  Returned (if decide (Mode cfg ≠ "standalone") then Some err else None).

(** From the result of a later run, in either goroutine. *)
Definition after_refresh (r : outcome (bool * string) bool) (st : St) : run_phase * St :=
  match r with
  | Panic => (Crashed, st)
  | Fail (_, err) => (on_periodic_error err, setReady (Some err) st)
  | Ret false => (Serving, setReady None st)
  | Ret true =>
      match call_world (SetSecretsUpdated status) (setReady None st) with
      | (Ret _, st1) => (Serving, st1)
      | (Fail err, st1) => (on_periodic_error err, st1)
      | (Panic, st1) => (Crashed, st1)
      end
  end.

(** ** informerTriggeredProvider *)

(** [timer] is when the armed timer fires. *)
Record informer_state := mkInformerState {
  timer : option Z;
  eventCount : nat;
  firstEventTime : Z;
  keysToRemoveCumulative : gmap string (list string)
}.
Definition idle : informer_state := mkInformerState None 0 0 ∅.

(** The keys to remove after one more event. *)
Definition accumulate (o : range_order) (cum : gmap string (list string)) (event : SecretEvent) :
    gmap string (list string) :=
  match EventType event with
  | SecretEventTypeAdd => cum
  | SecretEventTypeUpdate =>
      let merged := MergeReAddedKeys L o cum (OldSecret event) (Some (event_secret event)) in
      let keysToRemove := GetRemovedKeys L C o (OldSecret event) (Some (event_secret event)) in
      foldl (λ m nk, map_append nk.1 nk.2 m) merged (range o keysToRemove)
  end.

(** An event at the time [now]; the flag is whether the provider runs at once. *)
Definition on_event (o : range_order) (now : Z) (event : SecretEvent) (inf : informer_state) :
    informer_state * bool :=
  let count := S (eventCount inf) in
  let first := if decide (count = 1%nat) then now else firstEventTime inf in
  let cum := accumulate o (keysToRemoveCumulative inf) event in
  if informerDebounceMaxDelay <=? now - first
  then (mkInformerState (timer inf) count first cum, true)
  else (mkInformerState (Some (now + informerDebounceDelay)) count first cum, false).

(** [runProvideSecrets]: with keys to remove the K8s provider runs directly,
    without retries. *)
Definition informer_provide (inf : informer_state) (st : St)
    (r : outcome (bool * string) bool) (st' : St) : Prop :=
  if decide (keysToRemoveCumulative inf = ∅) then provideSecrets st r st'
  else (r, st') = call_world (cleanup (keysToRemoveCumulative inf)) st.

Definition after_informer_run (inf : informer_state) : informer_state :=
  mkInformerState None 0 (firstEventTime inf) ∅.

(** ** The goroutines *)
Record running := mkRunning {
  clock : Z;
  phase : run_phase;
  state : St;
  inf : informer_state
}.

Inductive step : running → running → Prop :=
| step_time x now : clock x ≤ now → step x (mkRunning now (phase x) (state x) (inf x))
| step_tick x r st' :
    phase x = Serving → 0 < SecretRefreshInterval cfg → provideSecrets (state x) r st' →
    step x (mkRunning (clock x) (after_refresh r st').1 (after_refresh r st').2 (inf x))
| step_event o x event i :
    phase x = Serving → InformerEvents cfg = true →
    on_event o (clock x) event (inf x) = (i, false) →
    step x (mkRunning (clock x) Serving (state x) i)
| step_event_run o x event i r st' :
    phase x = Serving → InformerEvents cfg = true →
    on_event o (clock x) event (inf x) = (i, true) → informer_provide i (state x) r st' →
    step x (mkRunning (clock x) (after_refresh r st').1 (after_refresh r st').2
              (after_informer_run i))
| step_timer x d r st' :
    phase x = Serving → timer (inf x) = Some d → d ≤ clock x →
    informer_provide (inf x) (state x) r st' →
    step x (mkRunning (clock x) (after_refresh r st').1 (after_refresh r st').2
              (after_informer_run (inf x)))
| step_quit x : phase x = Serving → step x (mkRunning (clock x) (Returned None) (state x) (inf x)).

(** The states the runner gets to from a start in [st]. *)
Inductive reachable (st : St) : running → Prop :=
| reach_start now ph st' : start st ph st' → reachable st (mkRunning now ph st' idle)
| reach_step x y : reachable st x → step x y → reachable st y.
End run.
End runner.

(** ** Lemmas on retrying *)
Section retry_lemmas.
Context {W : Type} (RetryNotify : retry_relation) `{!RetryLaws RetryNotify}.
Context (provide : ProviderFunc W) (onRetry : option (string → runner_state W → runner_state W)).
#[local] Abbreviation St := (runner_state W).

(** [retries] more attempts after a failed one. *)
Fixpoint bounded_attempts (retries : nat) (st : St) : outcome (bool * string) bool * St :=
  match call_world provide st with
  | (Fail (updated, err), st1) =>
      match retries with
      | O => (Fail (updated, err), st1)
      | S retries' =>
          let b := policy st1 in
          bounded_attempts retries'
            (default (λ _ st, st) onRetry err
               (set_policy st1 (mkBackOff (Interval b) (RetryLimit b) (retryCount b + 1))))
      end
  | r => r
  end.

(** A callback does not touch the policy. *)
Definition keeps_policy : Prop :=
  ∀ f err st, onRetry = Some f → policy (f err st) = policy st.

Lemma call_world_policy {E A} (m : M W E A) st : policy (call_world m st).2 = policy st.
Proof. unfold call_world. by destruct (m (world st)). Qed.

Lemma notified err d u (st : St) :
  retry_notify onRetry err d (u, st) = (u, default (λ _ st, st) onRetry err st).
Proof. unfold retry_notify. by destruct onRetry. Qed.

Lemma notified_policy err st :
  keeps_policy → policy (default (λ _ st, st) onRetry err st) = policy st.
Proof. intros Hk. unfold keeps_policy in Hk. destruct onRetry; [by eapply Hk|done]. Qed.

#[local] Abbreviation attempts s r s' :=
  (attempt (bool * St)%type string (retry_op provide) retry_reset retry_next
     (retry_notify onRetry) s r s').

Definition result_of (o : outcome string unit) (updated : bool) : outcome (bool * string) bool :=
  match o with Ret _ => Ret updated | Fail err => Fail (updated, err) | Panic => Panic end.

Lemma next_stop (st : St) u :
  0 ≤ RetryLimit (policy st) → retryCount (policy st) = RetryLimit (policy st) →
  retry_next (u, st) = (None, (u, st)).
Proof.
  intros H0 Hc. unfold retry_next, NextBackOff. cbn [snd fst].
  destruct (Z.leb_spec 0 (RetryLimit (policy st))); [|lia].
  destruct (Z.leb_spec (RetryLimit (policy st)) (retryCount (policy st))); [|lia].
  cbn. by destruct st.
Qed.

Definition bumped (st : St) : St :=
  set_policy st (mkBackOff (Interval (policy st)) (RetryLimit (policy st)) (retryCount (policy st) + 1)).

Lemma next_go (st : St) u :
  RetryLimit (policy st) < 0 ∨ retryCount (policy st) < RetryLimit (policy st) →
  retry_next (u, st) = (Some (Interval (policy st)), (u, bumped st)).
Proof.
  intros Hc. unfold retry_next, NextBackOff. cbn [snd fst].
  destruct (Z.leb_spec 0 (RetryLimit (policy st))), (Z.leb_spec (RetryLimit (policy st)) (retryCount (policy st)));
    try done; lia.
Qed.

(** [retries] more attempts are what is left of the budget, or the budget is
    unlimited and they are enough. *)
Definition enough (retries : nat) (st : St) : Prop :=
  0 ≤ RetryLimit (policy st) ∧ retryCount (policy st) + Z.of_nat retries = RetryLimit (policy st) ∨
  RetryLimit (policy st) < 0 ∧ ∀ e, (bounded_attempts retries st).1 ≠ Fail e.

Lemma attempts_bounded retries u st r st' :
  keeps_policy → enough retries st →
  (∃ o u', attempts (u, st) o (u', st') ∧ r = result_of o u') ↔
  (r, st') = bounded_attempts retries st.
Proof.
  intros Hk. revert u st. induction retries as [|n IH]; intros u st Hen.
  - setoid_rewrite retry_attempt. unfold retry_body, retry_op. cbn [snd fst bounded_attempts].
    pose proof (call_world_policy provide st) as Hp. unfold enough in Hen. cbn [bounded_attempts] in Hen.
    destruct (call_world provide st) as [[a|[a e]|] st1]; cbn in Hp.
    + split; [by intros (o & u' & [-> [= -> ->]] & ->)|]. intros [= -> ->]. by exists (Ret tt), a.
    + destruct Hen as [[H0 Hc]|[_ Hc]]; [|by destruct (Hc (a, e))].
      rewrite next_stop by (rewrite Hp; lia).
      split; [by intros (o & u' & [-> [= -> ->]] & ->)|]. intros [= -> ->]. by exists (Fail e), a.
    + split; [by intros (o & u' & [-> [= -> ->]] & ->)|]. intros [= -> ->]. by exists Panic, u.
  - setoid_rewrite retry_attempt. unfold retry_body, retry_op. cbn [snd fst bounded_attempts].
    pose proof (call_world_policy provide st) as Hp. unfold enough in Hen. cbn [bounded_attempts] in Hen.
    destruct (call_world provide st) as [[a|[a e]|] st1]; cbn in Hp.
    + split; [by intros (o & u' & [-> [= -> ->]] & ->)|]. intros [= -> ->]. by exists (Ret tt), a.
    + rewrite next_go by (rewrite Hp; destruct Hen as [[]|[]]; [right; lia|by left]). rewrite notified.
      apply IH. unfold enough. rewrite notified_policy by done. fold (bumped st1).
      assert (RetryLimit (policy (bumped st1)) = RetryLimit (policy st)) as -> by (cbn; by rewrite Hp).
      assert (retryCount (policy (bumped st1)) = retryCount (policy st) + 1) as -> by (cbn; by rewrite Hp).
      destruct Hen as [[H0 Hc]|[Hlt Hc]]; [left; lia|right].
      split; [done|exact Hc].
    + split; [by intros (o & u' & [-> [= -> ->]] & ->)|]. intros [= -> ->]. by exists Panic, u.
Qed.

End retry_lemmas.

(** ** Lemmas on the accumulated keys *)
Section keys.
Context (L : libraries) (C : provider_config).

(** The update events of the Secret [n] among [es] follow one another, from
    the version [v]. *)
Fixpoint chained (n : string) (v : K8sSecret) (es : list SecretEvent) : Prop :=
  match es with
  | [] => True
  | e :: es' =>
      if decide (EventType e = SecretEventTypeUpdate ∧ secretName_ (event_secret e) = n)
      then OldSecret e = Some v ∧ chained n (event_secret e) es'
      else chained n v es'
  end.
Fixpoint versions (n : string) (v : K8sSecret) (es : list SecretEvent) : list K8sSecret :=
  match es with
  | [] => []
  | e :: es' =>
      if decide (EventType e = SecretEventTypeUpdate ∧ secretName_ (event_secret e) = n)
      then v :: versions n (event_secret e) es' else versions n v es'
  end.
Fixpoint latest (n : string) (v : K8sSecret) (es : list SecretEvent) : K8sSecret :=
  match es with
  | [] => v
  | e :: es' =>
      if decide (EventType e = SecretEventTypeUpdate ∧ secretName_ (event_secret e) = n)
      then latest n (event_secret e) es' else latest n v es'
  end.

Definition accumulate_all (os : list (range_order * SecretEvent)) (cum : gmap string (list string)) :=
  foldl (λ m oe, accumulate L C oe.1 m oe.2) cum os.

Lemma elem_of_merged (m : gmap string (list string)) (l : list (string * list string)) n k :
  k ∈ foldl (λ m nk, map_append nk.1 nk.2 m) m l !!! n ↔
  k ∈ m !!! n ∨ ∃ ks, (n, ks) ∈ l ∧ k ∈ ks.
Proof.
  revert m. induction l as [|[j ks] l IH]; intros m; cbn [foldl fst snd].
  - split; [by left|]. intros [?|(ks & ?%not_elem_of_nil & _)]; done.
  - rewrite IH, lookup_total_map_append. setoid_rewrite elem_of_cons.
    destruct (decide (j = n)) as [->|Hj]; [rewrite elem_of_app|]; naive_solver.
Qed.

Lemma elem_of_range_total (o : range_order) (m : gmap string (list string)) n k :
  (∃ ks, (n, ks) ∈ range o m ∧ k ∈ ks) ↔ k ∈ m !!! n.
Proof.
  setoid_rewrite elem_of_range. rewrite lookup_total_alt.
  destruct (m !! n) as [ks|]; cbn; [naive_solver|]. split; [naive_solver|].
  by intros ?%not_elem_of_nil.
Qed.

(** One event adds the keys its Secret lost and drops the keys it gained. *)
Lemma elem_of_accumulate o cum e n k :
  k ∈ accumulate L C o cum e !!! n ↔
  if decide (EventType e = SecretEventTypeUpdate ∧ secretName_ (event_secret e) = n) then
    (k ∈ cum !!! n ∧ (mapped L (Some (event_secret e)) k → mapped L (OldSecret e) k)) ∨
    (sanitizeEnabled C = true ∧ is_Some (OldSecret e) ∧ mapped L (OldSecret e) k ∧
     ¬ mapped L (Some (event_secret e)) k)
  else k ∈ cum !!! n.
Proof.
  unfold accumulate. destruct (EventType e) eqn:Ht; [by rewrite decide_False by naive_solver|].
  rewrite elem_of_merged, elem_of_range_total, elem_of_MergeReAddedKeys, elem_of_GetRemovedKeys.
  cbn [fmap option_fmap option_map].
  assert (Decision (mapped L (OldSecret e) k)) as Hd by (unfold mapped; apply _).
  case_decide as Hn.
  - destruct Hn as [_ <-]. split; [|naive_solver].
    intros [[Hk Hnot]|?]; [left|naive_solver]. split; [done|]. intros Hm.
    destruct (decide (mapped L (OldSecret e) k)); [done|]. by destruct Hnot.
  - split; [|naive_solver]. intros [[Hk _]|(_ & _ & [= Heq] & _)]; [done|]. naive_solver.
Qed.

Lemma latest_or_version n v es : latest n v es = v ∨ v ∈ versions n v es.
Proof.
  revert v. induction es as [|e es IH]; intros v; [by left|]. cbn [latest versions].
  case_decide; [right; by left|apply IH].
Qed.

Lemma elem_of_accumulate_all os cum n v k :
  chained n v os.*2 →
  (k ∈ cum !!! n → sanitizeEnabled C = true ∧ ¬ mapped L (Some v) k) →
  k ∈ accumulate_all os cum !!! n ↔
  ¬ mapped L (Some (latest n v os.*2)) k ∧
  (k ∈ cum !!! n ∨ sanitizeEnabled C = true ∧
     ∃ s, s ∈ versions n v os.*2 ∧ mapped L (Some s) k).
Proof.
  revert cum v. induction os as [|[o e] os IH]; intros cum v Hch Hcum.
  { cbn. split; [intros Hk; split; [by apply Hcum|by left]|].
    intros [_ [?|(_ & s & ?%not_elem_of_nil & _)]]; done. }
  change (accumulate_all ((o, e) :: os) cum) with (accumulate_all os (accumulate L C o cum e)).
  cbn [fmap list_fmap snd] in *.
  cbn [latest versions chained] in *. pose proof (elem_of_accumulate o cum e n k) as Hacc.
  destruct (decide (EventType e = _ ∧ _)) as [Hn|Hn].
  - destruct Hch as [Hold Hch]. rewrite Hold in Hacc.
    assert (Decision (mapped L (Some (event_secret e)) k)) as Hd by (unfold mapped; apply _).
    rewrite (IH _ (event_secret e)); [|done|].
    + rewrite Hacc. setoid_rewrite elem_of_cons. split.
      * intros [Hl Hor]. split; [done|]. naive_solver.
      * intros [Hl Hor]. split; [done|]. destruct (decide (mapped L (Some (event_secret e)) k)) as [Hm|Hm].
        -- assert (sanitizeEnabled C = true) as Hs by naive_solver.
           destruct (latest_or_version n (event_secret e) os.*2) as [Heq|Hin]; [congruence|].
           right. split; [done|]. by exists (event_secret e).
        -- naive_solver.
    + rewrite Hacc. naive_solver.
  - rewrite (IH _ v); [by rewrite Hacc|done|]. by rewrite Hacc.
Qed.
End keys.

(** ** Lemmas on the runner *)
Section run_lemmas.
Context {W : Type} (RetryNotify : retry_relation) (raw : ProviderFunc W)
  (cleanup : gmap string (list string) → ProviderFunc W)
  (L : libraries) (C : provider_config) (status : StatusUpdater W) (cfg : ProviderRefreshConfig).

#[local] Abbreviation step := (step RetryNotify raw cleanup L C status cfg).
#[local] Abbreviation reachable := (reachable RetryNotify raw cleanup L C status cfg).

(** Nothing pending, or a timer that is due soon. *)
Definition debounced (x : @running W) : Prop :=
  (eventCount (inf x) = 0%nat ∧ timer (inf x) = None ∧ keysToRemoveCumulative (inf x) = ∅) ∨
  ∃ d, (0 < eventCount (inf x))%nat ∧ timer (inf x) = Some d ∧ firstEventTime (inf x) ≤ clock x ∧
    d ≤ clock x + informerDebounceDelay ∧
    d < firstEventTime (inf x) + informerDebounceMaxDelay + informerDebounceDelay.

Lemma on_event_debounced o x event i ph st :
  debounced x → on_event L C o (clock x) event (inf x) = (i, false) →
  debounced (mkRunning (clock x) ph st i).
Proof.
  intros Hx. unfold on_event.
  destruct (Z.leb_spec informerDebounceMaxDelay
    (clock x - if decide (S (eventCount (inf x)) = 1%nat) then clock x else firstEventTime (inf x)))
    as [|Hlt]; [done|].
  intros [= <-]. right. exists (clock x + informerDebounceDelay). cbn [inf eventCount timer clock firstEventTime].
  split_and!; [lia|done| |lia|].
  - case_decide; [lia|]. destruct Hx as [(Hc & _)|(d & _ & _ & Hf & _)]; [lia|done].
  - unfold informerDebounceMaxDelay in *. case_decide; lia.
Qed.

Lemma step_debounced x y : debounced x → step x y → phase y = Serving → debounced y.
Proof.
  intros Hx Hstep Hy. destruct Hstep as [x now Hnow| | | |x d r st' Hs Ht Hd Hr|x Hs]; cbn in *.
  - destruct Hx as [?|(d & ? & ? & ? & ? & ?)]; [by left|]. right. exists d. cbn. split_and!; done || lia.
  - exact Hx.
  - by eapply on_event_debounced.
  - by left.
  - by left.
  - done.
Qed.

Lemma returned_stays x y e : phase x = Returned e → step x y → phase y = Returned e.
Proof. intros Hx Hstep. destruct Hstep; cbn in *; congruence. Qed.

Lemma reachable_debounced st x : reachable st x → phase x = Serving → debounced x.
Proof.
  induction 1 as [now ph st' Hst|x y Hx IH Hstep]; intros Hy; [by left|].
  eapply step_debounced; [|done|done]. apply IH.
  destruct Hstep; cbn in *; congruence.
Qed.

(** A step that serves no pending event and does not let an armed timer pass. *)
Definition waiting_step (x y : @running W) : Prop :=
  step x y ∧ phase y = Serving ∧ (0 < eventCount (inf y))%nat ∧
  ∀ d, timer (inf x) = Some d → clock y ≤ d.

(** While events are pending, the first one stays the first. *)
Lemma first_event_kept x y :
  step x y → (0 < eventCount (inf x))%nat → (0 < eventCount (inf y))%nat →
  firstEventTime (inf y) = firstEventTime (inf x).
Proof.
  intros Hstep Hx Hy. destruct Hstep as [| |o x event i Hs Hi Hev| | |]; cbn in *; try done; try lia.
  unfold on_event in Hev. rewrite (decide_False (P := S (eventCount (inf x)) = 1%nat)) in Hev by lia.
  destruct (informerDebounceMaxDelay <=? _); [done|]. by injection Hev as <-.
Qed.

Lemma waiting_bounded x z :
  debounced x → (0 < eventCount (inf x))%nat →
  (∀ d, timer (inf x) = Some d → clock x ≤ d) → rtc waiting_step x z →
  clock z < firstEventTime (inf x) + informerDebounceMaxDelay + informerDebounceDelay.
Proof.
  intros Hx Hc Ht Hxz. induction Hxz as [x|x y z (Hstep & Hph & Hcy & Hty) _ IH].
  - destruct Hx as [(? & _)|(d & _ & Hd & _ & _ & Hlt)]; [lia|]. specialize (Ht d Hd). lia.
  - rewrite <- (first_event_kept x y) by done. apply IH; [by eapply step_debounced|done|].
    intros d Hd. destruct Hx as [(? & _)|(dx & _ & Hdx & _ & _ & Hlt)]; [lia|].
    specialize (Hty dx Hdx).
    destruct Hstep as [x now Hnow| |o x event i Hs Hi Hev| | |]; cbn in *; try congruence.
    unfold on_event in Hev. destruct (informerDebounceMaxDelay <=? _); [done|].
    injection Hev as <-. cbn in Hd. injection Hd as <-. unfold informerDebounceDelay. lia.
Qed.

(** When its time has come the timer makes the provider run. *)
Lemma timer_serves x d r st' :
  phase x = Serving → timer (inf x) = Some d → clock x ≤ d →
  informer_provide RetryNotify raw cleanup cfg (inf x) (state x) r st' →
  ∃ y, rtc step x y ∧ clock y = d ∧ eventCount (inf y) = 0%nat ∧
    (phase y, state y) = after_refresh status cfg r st'.
Proof.
  intros Hph Ht Hd Hr.
  set (x1 := mkRunning d (phase x) (state x) (inf x)).
  eexists (mkRunning d (after_refresh status cfg r st').1 (after_refresh status cfg r st').2
             (after_informer_run (inf x))).
  split.
  - eapply rtc_l; [by apply (step_time _ _ _ _ _ _ _ x d)|].
    apply rtc_once. by apply (step_timer _ _ _ _ _ _ _ x1 d r st').
  - cbn. split_and!; [done..|]. by destruct (after_refresh status cfg r st').
Qed.
End run_lemmas.

(** ** A concrete backoff library, provider and status updater *)
Inductive sim_attempt (S E : Type) (op : M S E unit) (reset : S → S) (next : S → option Z * S)
    (notify : E → Z → S → S) : S → outcome E unit → S → Prop :=
| sim_done s s1 : op s = (Ret tt, s1) → sim_attempt S E op reset next notify s (Ret tt) s1
| sim_panic s s1 : op s = (Panic, s1) → sim_attempt S E op reset next notify s Panic s1
| sim_stop s e s1 s2 :
    op s = (Fail e, s1) → next s1 = (None, s2) → sim_attempt S E op reset next notify s (Fail e) s2
| sim_again s e s1 d s2 r s' :
    op s = (Fail e, s1) → next s1 = (Some d, s2) →
    sim_attempt S E op reset next notify (notify e d s2) r s' →
    sim_attempt S E op reset next notify s r s'.

Definition sim_retry : retry_relation := λ S E op reset next notify s r s',
  sim_attempt S E op reset next notify (reset s) r s'.

#[export] Instance sim_retry_laws : RetryLaws sim_retry.
Proof.
  refine {| attempt := sim_attempt |}; [done|..]; intros S E op reset next notify.
  - intros s r s'. unfold retry_body. split.
    + by destruct 1 as [? ? ->| ? ? ->|? ? ? ? -> ->|? ? ? ? ? ? ? -> ->].
    + destruct (op s) as [[[]|e|] s1] eqn:Hop.
      * intros [-> ->]. by apply sim_done.
      * destruct (next s1) as [[d|] s2] eqn:Hn.
        -- intros Ha. by eapply sim_again.
        -- intros [-> ->]. by eapply sim_stop.
      * intros [-> ->]. by apply sim_panic.
  - intros P HP. induction 1 as [s s1 Ho|s s1 Ho|s e s1 s2 Ho Hn|s e s1 d s2 r s' Ho Hn _ IH];
      apply HP; unfold retry_body; rewrite Ho, ?Hn; by try split.
Defined.

(** The world is what the next runs return: an error, or an update. *)
Definition sim_provider : ProviderFunc (list (option string)) := λ w,
  match w with
  | Some e :: w' => (Fail (false, e), w')
  | None :: w' => (Ret true, w')
  | [] => (Ret false, [])
  end.
Definition sim_status : StatusUpdater (list (option string)) :=
  mkStatus _ (mret tt) (mret tt) (mret tt).

(** ** Properties *)

(** C18: the retry wrapper resets its budget on every call and then calls
    the provider again after every error until it succeeds or the limit of
    retries is used up, notifying in between: with a limit it always returns,
    with the result of the last of at most limit + 1 calls; without one it
    returns the first success, if there is one. *)
Theorem retry_spec {W} RetryNotify `{!RetryLaws RetryNotify} (provide : ProviderFunc W) onRetry st r st' retries :
  keeps_policy onRetry →
  let st0 := set_policy st (Reset (policy st)) in
  (0 ≤ RetryLimit (policy st) ∧ retries = Z.to_nat (RetryLimit (policy st)) ∨
   RetryLimit (policy st) < 0 ∧ ∀ e, (bounded_attempts provide onRetry retries st0).1 ≠ Fail e) →
  RetryableSecretProvider RetryNotify provide onRetry st r st' ↔
  (r, st') = bounded_attempts provide onRetry retries st0.
Proof.
  intros Hk st0 Hen. unfold RetryableSecretProvider. setoid_rewrite retry_start.
  unfold retry_reset at 1. cbn [fst snd]. fold st0.
  apply attempts_bounded; [done|]. unfold enough. unfold st0 at 1 2 3 4. cbn [policy set_policy Reset].
  destruct Hen as [[H0 ->]|?]; [left; cbn; lia|by right].
Qed.

Lemma retry_spec_witness :
  let st := mkRunner [Some "e1"; Some "e2"; None] (Some true) (NewLimitedBackOff 1 5) in
  RetryableSecretProvider sim_retry sim_provider (Some (λ e, setReady (Some e))) st (Ret true)
    (mkRunner [] (Some false) (mkBackOff 1 5 2)).
Proof.
  intros st. apply (retry_spec sim_retry sim_provider (Some (λ e, setReady (Some e))) st (Ret true)
    (mkRunner [] (Some false) (mkBackOff 1 5 2)) 5).
  - intros f err st0 [= <-]. unfold setReady. by destruct (isReady st0).
  - left. by split.
  - vm_compute. reflexivity.
Defined.

(** C29: while the runner is serving, events of the informer are never
    forgotten and never starved by later ones: either none is pending, or the
    timer is armed and fires at most 200 ms from now and less than 10.2 s after
    the first pending event, however fast further events arrive. *)
Theorem informer_debounce_bounded {W} RetryNotify (raw : ProviderFunc W) cleanup L C status cfg st x :
  reachable RetryNotify raw cleanup L C status cfg st x → phase x = Serving →
  (eventCount (inf x) = 0%nat ∧ timer (inf x) = None ∧ keysToRemoveCumulative (inf x) = ∅) ∨
  ∃ d, (0 < eventCount (inf x))%nat ∧ timer (inf x) = Some d ∧ firstEventTime (inf x) ≤ clock x ∧
    d ≤ clock x + informerDebounceDelay ∧
    d < firstEventTime (inf x) + informerDebounceMaxDelay + informerDebounceDelay.
Proof. apply reachable_debounced. Qed.

Definition sim_refresh (mode : string) : ProviderRefreshConfig := mkRefresh mode false 60 true 0 0.

Lemma informer_debounce_bounded_witness :
  let x := mkRunning 5 Serving (mkRunner [] (Some true) (NewLimitedBackOff 1 1))
             (mkInformerState (Some 200000005) 1 5 ∅) in
  let st := mkRunner [None] (Some false) (NewLimitedBackOff 1 1) in
  reachable sim_retry sim_provider (λ _, sim_provider) sim_libraries sim_config_required sim_status
    (sim_refresh "sidecar") st x ∧
  ∃ d, timer (inf x) = Some d ∧ d < 5 + 10200000000.
Proof.
  intros x st.
  assert (reachable sim_retry sim_provider (λ _, sim_provider) sim_libraries sim_config_required
    sim_status (sim_refresh "sidecar") st x) as Hx.
  { eapply reach_step; [|apply (step_event _ _ _ _ _ _ _ canonical_order
      (mkRunning 5 Serving (mkRunner [] (Some true) (NewLimitedBackOff 1 1)) idle)
      (mkEvent sim_db None SecretEventTypeAdd)); vm_compute; reflexivity].
    apply reach_start. exists (Ret true), (mkRunner [] (Some false) (NewLimitedBackOff 1 1)).
    split; vm_compute; reflexivity. }
  split; [exact Hx|].
  destruct (informer_debounce_bounded sim_retry sim_provider (λ _, sim_provider) sim_libraries
    sim_config_required sim_status (sim_refresh "sidecar") st x Hx eq_refl)
    as [(Hc & _)|(d & _ & Ht & _ & _ & Hd)]; [discriminate Hc|].
  exists d. split; [exact Ht|exact Hd].
Defined.

(** C19: a pending event is served. As long as the timer is not let past
    its time, every execution in which the informer's provider does not run
    stays below 10.2 s after the first pending event, whatever events and ticks
    it consists of; and when the time of the timer comes the provider does run,
    with the outcome handled and nothing pending afterwards. *)
Theorem pending_event_served {W} RetryNotify (raw : ProviderFunc W) cleanup L C status cfg st x d :
  reachable RetryNotify raw cleanup L C status cfg st x → phase x = Serving →
  timer (inf x) = Some d → clock x ≤ d →
  (∀ z, rtc (waiting_step RetryNotify raw cleanup L C status cfg) x z →
     clock z < firstEventTime (inf x) + informerDebounceMaxDelay + informerDebounceDelay) ∧
  ∀ r st', informer_provide RetryNotify raw cleanup cfg (inf x) (state x) r st' →
    ∃ y, rtc (step RetryNotify raw cleanup L C status cfg) x y ∧ clock y = d ∧
      eventCount (inf y) = 0%nat ∧ (phase y, state y) = after_refresh status cfg r st'.
Proof.
  intros Hreach Hph Ht Hd. pose proof (reachable_debounced _ _ _ _ _ _ _ _ _ Hreach Hph) as Hdeb.
  split; [|intros r st' Hr; by apply timer_serves].
  intros z Hz. eapply waiting_bounded; [done| | |done].
  - destruct Hdeb as [(_ & Hn & _)|(d' & Hc & _)]; [congruence|done].
  - intros d' Hd'. congruence.
Qed.

Lemma pending_event_served_witness :
  let x := mkRunning 5 Serving (mkRunner [Some "timeout"] (Some true) (NewLimitedBackOff 1 1))
             (mkInformerState (Some 200000005) 1 5 ∅) in
  ∃ y, rtc (step sim_retry sim_provider (λ _, sim_provider) sim_libraries sim_config_required
              sim_status (sim_refresh "sidecar")) x y ∧
    clock y = 200000005 ∧ phase y = Returned (Some "timeout").
Proof.
  intros x. set (st := mkRunner [None; Some "timeout"] (Some false) (NewLimitedBackOff 1 1)).
  assert (reachable sim_retry sim_provider (λ _, sim_provider) sim_libraries sim_config_required
    sim_status (sim_refresh "sidecar") st x) as Hx.
  { eapply reach_step; [|apply (step_event _ _ _ _ _ _ _ canonical_order
      (mkRunning 5 Serving (mkRunner [Some "timeout"] (Some true) (NewLimitedBackOff 1 1)) idle)
      (mkEvent sim_db None SecretEventTypeAdd)); vm_compute; reflexivity].
    apply reach_start. exists (Ret true), (mkRunner [Some "timeout"] (Some false) (NewLimitedBackOff 1 1)).
    split; vm_compute; reflexivity. }
  destruct (pending_event_served sim_retry sim_provider (λ _, sim_provider) sim_libraries
    sim_config_required sim_status (sim_refresh "sidecar") st x 200000005 Hx eq_refl eq_refl)
    as [_ Hrun]; [discriminate|].
  destruct (Hrun (Fail (false, "timeout")) (mkRunner [] (Some true) (NewLimitedBackOff 1 1)))
    as (y & Hy & Hclock & _ & Hph); [vm_compute; reflexivity|].
  exists y. split_and!; [exact Hy|exact Hclock|]. exact (f_equal fst Hph).
Defined.

(** The keys to remove from a Secret after a burst of events, its
    update events following one another, are exactly the keys that some
    version before the latest had in its conjur-map and the latest does not
    have, and only when sanitizing is on: a key that is removed and added again
    before the provider runs is not removed. *)
Theorem accumulated_keys_spec L C es n v k :
  chained n v es.*2 →
  k ∈ accumulate_all L C es ∅ !!! n ↔
  sanitizeEnabled C = true ∧ ¬ mapped L (Some (latest n v es.*2)) k ∧
  ∃ s, s ∈ versions n v es.*2 ∧ mapped L (Some s) k.
Proof.
  intros Hch. rewrite (elem_of_accumulate_all L C es ∅ n v k Hch).
  - rewrite lookup_total_empty. split; [|naive_solver].
    intros [? [?%not_elem_of_nil|[? ?]]]; done.
  - rewrite lookup_total_empty. by intros ?%not_elem_of_nil.
Qed.

(** A Secret that loses a key, gains another, and gets the first one back. *)
Definition sim_burst : list (range_order * SecretEvent) :=
  let v0 := sim_secret "db" ("user:db/user" +:+ String lf "password:db/pw") ∅ in
  let v1 := sim_secret "db" "password:db/pw" ∅ in
  let v2 := sim_secret "db" "user:db/user" ∅ in
  [(canonical_order, mkEvent v1 (Some v0) SecretEventTypeUpdate);
   (reversed_order, mkEvent v2 (Some v1) SecretEventTypeUpdate)].

Lemma accumulated_keys_spec_witness :
  ¬ ("user" ∈ accumulate_all sim_libraries sim_config_required sim_burst ∅ !!! "db") ∧
  "password" ∈ accumulate_all sim_libraries sim_config_required sim_burst ∅ !!! "db".
Proof.
  set (v0 := sim_secret "db" ("user:db/user" +:+ String lf "password:db/pw") ∅).
  assert (chained "db" v0 sim_burst.*2) as Hch by (split; [reflexivity|split; [reflexivity|exact I]]).
  split.
  - intros Hk. apply (accumulated_keys_spec _ _ _ "db" v0 "user" Hch) in Hk as (_ & Hn & _).
    apply Hn. eexists. vm_compute. reflexivity.
  - apply (accumulated_keys_spec _ _ _ "db" v0 "password" Hch). split_and!; [reflexivity| |].
    + intros [c Hc]. vm_compute in Hc. discriminate Hc.
    + exists v0. split; [by left|]. eexists. vm_compute. reflexivity.
Defined.

(** In standalone mode an error of a periodic run ends the runner for
    good, with no error, although the comment at the place says that it should
    keep working: nothing is refreshed after it. *)
Theorem standalone_error_stops {W} RetryNotify (raw : ProviderFunc W) cleanup L C status cfg x u err st' :
  Mode cfg = "standalone" → phase x = Serving → 0 < SecretRefreshInterval cfg →
  provideSecrets RetryNotify raw cfg (state x) (Fail (u, err)) st' →
  ∃ y, step RetryNotify raw cleanup L C status cfg x y ∧
    ∀ z, rtc (step RetryNotify raw cleanup L C status cfg) y z →
      phase z = Returned None ∧ world (state z) = world st'.
Proof.
  intros Hm Hx Hi Hp. eexists. split; [by eapply step_tick|]. cbn [after_refresh fst snd].
  assert (world (setReady (Some err) st') = world st') as Hw by (unfold setReady; by destruct (isReady st')).
  unfold on_periodic_error. rewrite decide_False by naive_solver.
  intros z Hz. remember (mkRunning _ _ _ _) as y eqn:Hy.
  assert (phase y = Returned None ∧ world (state y) = world st') as Hinv by by subst.
  clear Hy. induction Hz as [y|y y1 z Hstep Hz IH]; [done|]. apply IH.
  destruct Hinv as [Hph Hst]. destruct Hstep; cbn in *; by rewrite ?Hph in *.
Qed.

Lemma standalone_error_stops_witness :
  let x := mkRunning 60 Serving (mkRunner [Some "timeout"; None] (Some true) (NewLimitedBackOff 1 1)) idle in
  ∃ y, step sim_retry sim_provider (λ _, sim_provider) sim_libraries sim_config_required sim_status
         (sim_refresh "standalone") x y ∧ phase y = Returned None.
Proof.
  intros x.
  destruct (standalone_error_stops sim_retry sim_provider (λ _, sim_provider) sim_libraries
    sim_config_required sim_status (sim_refresh "standalone") x false "timeout"
    (mkRunner [None] (Some true) (NewLimitedBackOff 1 1))) as (y & Hstep & Hy);
    [reflexivity..|].
  exists y. split; [exact Hstep|]. apply (Hy y). apply rtc_refl.
Defined.
