(* ===== verification/Events.v ===== *)
(** * From edits of a Secret to the next run of the provider

    The informer's handlers, its queue and worker, the accumulated keys of the
    runner and the K8s provider, one after the other: what a burst of edits of
    a Secret makes the provider do, and that what the provider writes itself
    makes it do nothing. *)

From S2P Require Import Prelude GoString GoBytes Config FileTemplates K8sClient K8sProvider K8sProviderSpec K8sKeys K8sGroups K8sData K8sProviderProps K8sInvariant K8sSteady Informer Runner.
Open Scope Z_scope.

(** ** Edits and their events *)

(** An update of a Secret, as client-go passes it to the handler. *)
Record edit := mkEdit {
  before : K8sSecret;
  after : K8sSecret;
  edit_schedule : schedule
}.

Definition relevant (e : edit) : Prop :=
  hasManagedByProviderLabel (Some (after e)) = true ∧
  (conjur_map_of (before e) ≠ conjur_map_of (after e) ∨
   hasManagedByProviderLabel (Some (before e)) = false ∨
   relevantAnnotationsChanged (edit_schedule e) (before e) (after e) = true).

#[export] Instance relevant_dec e : Decision (relevant e).
Proof. apply _. Defined.

Definition reported (e : edit) : SecretEvent := mkEvent (after e) (Some (before e)) SecretEventTypeUpdate.

(** The handler is called for one edit after the other. *)
Fixpoint handle_edits (es : list edit) (si : SecretInformer) : option SecretInformer :=
  match es with
  | [] => Some si
  | e :: es' =>
      onUpdate (edit_schedule e) (SecretObject (Some (before e))) (SecretObject (Some (after e))) si
        ≫= handle_edits es'
  end.

(** What the worker sends to the runner when every event is received in time. *)
Definition sent_events (rs : list process_result) : list SecretEvent :=
  omap (λ r, match r with Sent e => Some e | Dropped _ => None end) rs.
Definition delivered (es : list edit) : option (list SecretEvent) :=
  si ← handle_edits es (mkInformer true true [] false);
  Some (sent_events (runWorker (length (queue si)) 0 (λ _, Some true) si).1).

Lemma handle_edits_queue es q :
  handle_edits es (mkInformer true true q false) =
  Some (mkInformer true true (q ++ (reported <$> filter relevant es)) false).
Proof.
  revert q. induction es as [|e es IH]; intros q; [by rewrite app_nil_r|].
  cbn [handle_edits]. rewrite onUpdate_events. cbn [informer hasSynced mbind option_bind].
  rewrite (decide_ext _ (relevant e)) by (unfold relevant; naive_solver).
  rewrite filter_cons. case_decide; [|apply IH]. unfold queue_add. cbn [shuttingDown informer hasSynced queue].
  rewrite IH, <- app_assoc. done.
Qed.

Lemma sent_all (l : list SecretEvent) : sent_events (imap (λ _ e, processEvent (Some true) e) l) = l.
Proof.
  unfold sent_events. generalize 0%nat as k. induction l as [|e l IH]; [done|]. intros k. cbn.
  f_equal. apply IH. exact k.
Qed.

(** Exactly the relevant edits reach the runner, in order. *)
Lemma delivered_eq es : delivered es = Some (reported <$> filter relevant es).
Proof.
  unfold delivered. rewrite handle_edits_queue. cbn [mbind option_bind app].
  rewrite runWorker_drains by done. cbn [fst queue]. by rewrite sent_all.
Qed.

(** ** The keys that a burst of edits removes *)

(** The edits of the Secret [n] among [es] follow one another from the version
    [v], and leave it labelled; its last version, and those before. *)
Fixpoint follows (n : string) (v : K8sSecret) (es : list edit) : Prop :=
  match es with
  | [] => True
  | e :: es' =>
      if decide (secretName_ (after e) = n)
      then before e = v ∧ hasManagedByProviderLabel (Some (after e)) = true ∧ follows n (after e) es'
      else follows n v es'
  end.
Fixpoint final (n : string) (v : K8sSecret) (es : list edit) : K8sSecret :=
  match es with
  | [] => v
  | e :: es' => if decide (secretName_ (after e) = n) then final n (after e) es' else final n v es'
  end.
Fixpoint passed (n : string) (v : K8sSecret) (es : list edit) : list K8sSecret :=
  match es with
  | [] => []
  | e :: es' =>
      if decide (secretName_ (after e) = n) then v :: passed n (after e) es' else passed n v es'
  end.

Lemma final_or_passed n v es : final n v es = v ∨ v ∈ passed n v es.
Proof.
  revert v. induction es as [|e es IH]; intros v; [by left|]. cbn [final passed].
  case_decide; [right; by left|apply IH].
Qed.

Section keys.
Context (L : libraries) (C : provider_config).
#[local] Abbreviation mapped := (mapped L).

(** What the handler compares decides what is mapped. *)
Lemma same_map_mapped s s' k :
  conjur_map_of s = conjur_map_of s' → mapped (Some s) k ↔ mapped (Some s') k.
Proof.
  intros He. unfold K8sKeys.mapped.
  assert (∀ s, parseConjurMap L (Some s) =
    match conjur_map_of s with
    | None => ∅
    | Some raw => if decide (raw = "") then ∅ else (yaml2 L raw).1
    end) as Hp; [|by rewrite !Hp, He].
  intros t. unfold parseConjurMap, conjur_map_of, nilmap_lookup. cbn [mbind option_bind].
  destruct (Data t) as [d|]; [|done]. cbn [mbind option_bind fmap option_fmap option_map].
  by destruct (d !! ConjurMapKey) as [raw|].
Qed.

(** A key is to be removed from the Secret [n]: some version had it in its
    conjur-map and the last one does not. *)
Definition removed (n : string) (v : K8sSecret) (es : list edit) (k : string) : Prop :=
  sanitizeEnabled C = true ∧ ¬ mapped (Some (final n v es)) k ∧
  ∃ s, s ∈ passed n v es ∧ mapped (Some s) k.

Lemma mapped_dec s k : Decision (mapped s k).
Proof. unfold K8sKeys.mapped. apply _. Defined.

Lemma elem_of_delivered es os cum n v k :
  follows n v es → os.*2 = reported <$> filter relevant es →
  (k ∈ cum !!! n → sanitizeEnabled C = true ∧ ¬ mapped (Some v) k) →
  k ∈ accumulate_all L C os cum !!! n ↔
  ¬ mapped (Some (final n v es)) k ∧
  (k ∈ cum !!! n ∨ sanitizeEnabled C = true ∧ ∃ s, s ∈ passed n v es ∧ mapped (Some s) k).
Proof.
  revert os cum v. induction es as [|e es IH]; intros os cum v Hf Hos Hcum.
  { destruct os; [|done]. cbn. split; [intros Hk; split; [by apply Hcum|by left]|].
    intros [_ [?|(_ & s & ?%not_elem_of_nil & _)]]; done. }
  cbn [follows final passed] in *. rewrite filter_cons in Hos.
  destruct (decide (relevant e)) as [Hrel|Hrel].
  - destruct os as [|[o ev] os]; [done|]. injection Hos as Hev Hos. cbn [snd] in Hev. subst ev.
    change (accumulate_all L C ((o, reported e) :: os) cum)
      with (accumulate_all L C os (accumulate L C o cum (reported e))).
    pose proof (elem_of_accumulate L C o cum (reported e) n k) as Hacc. cbn [reported EventType event_secret OldSecret] in Hacc.
    destruct (decide (secretName_ (after e) = n)) as [Hn|Hn].
    + rewrite decide_True in Hacc by done. destruct Hf as (Hb & _ & Hf). rewrite Hb in Hacc.
      destruct (mapped_dec (Some (after e)) k) as [Hm|Hm].
      * rewrite (IH os _ (after e)) by (done || (rewrite Hacc; naive_solver)).
        rewrite Hacc. setoid_rewrite elem_of_cons. split.
        -- intros [Hl Hor]. split; [done|]. naive_solver.
        -- intros [Hl Hor]. split; [done|].
           assert (sanitizeEnabled C = true) as Hs by naive_solver.
           destruct (final_or_passed n (after e) es) as [Heq|Hin]; [congruence|].
           right. split; [done|]. by exists (after e).
      * rewrite (IH os _ (after e)) by (done || (rewrite Hacc; naive_solver)).
        rewrite Hacc. setoid_rewrite elem_of_cons. naive_solver.
    + rewrite decide_False in Hacc by naive_solver.
      rewrite (IH os _ v) by (done || by rewrite Hacc). by rewrite Hacc.
  - destruct (decide (secretName_ (after e) = n)) as [Hn|Hn]; [|by rewrite (IH os cum v)].
    destruct Hf as (Hb & Hl & Hf).
    assert (conjur_map_of v = conjur_map_of (after e)) as Hsame.
    { rewrite <- Hb. unfold relevant in Hrel.
      destruct (decide (conjur_map_of (before e) = conjur_map_of (after e))); [done|naive_solver]. }
    pose proof (same_map_mapped _ _ k Hsame) as Hm.
    rewrite (IH os cum (after e)) by (done || (rewrite <- Hm; done)).
    setoid_rewrite elem_of_cons. split; [naive_solver|]. intros [Hl' Hor]. split; [done|].
    destruct Hor as [?|(Hs & s & [->|Hin] & Hms)]; [by left| |right; naive_solver].
    destruct (final_or_passed n (after e) es) as [Heq|Hin]; [rewrite Heq in Hl'; naive_solver|].
    right. split; [done|]. exists (after e). split; [done|]. by apply Hm.
Qed.

(** The keys accumulated from what the worker sends. *)
Lemma elem_of_sent es evs os n v k :
  follows n v es → delivered es = Some evs → os.*2 = evs →
  k ∈ accumulate_all L C os ∅ !!! n ↔ removed n v es k.
Proof.
  intros Hf. rewrite delivered_eq. intros [= <-] Hos.
  rewrite (elem_of_delivered es os ∅ n v k Hf Hos).
  - rewrite lookup_total_empty. unfold removed. split; [|naive_solver].
    intros [? [?%not_elem_of_nil|[? ?]]]; done.
  - rewrite lookup_total_empty. by intros ?%not_elem_of_nil.
Qed.
End keys.

(** ** Runs with keys to remove *)
Section runs.
Context {W : Type} (L : libraries) (D : k8sProviderDeps W) `{!K8sAccess (k8s D)}.
Context (C : provider_config).

(** A successful run with keys to remove from a selected Secret. *)
Lemma selected_after keys sched p w u p' w' n s :
  ready w → secretsState p = empty_state → secretsGroups p = ∅ → orderly L D C w →
  selected L D C w n → cluster w (podNamespace C) n = Some s →
  ProvideWithCleanup L D C sched keys (p, w) = (Ret u, (p', w')) → keys ≠ ∅ →
  ∃ ids conj m, retrieveSecrets D ids w = Ret conj ∧ requested L D C w ids ∧
    expected_data L C conj s m ∧
    cluster w' (podNamespace C) n =
      Some (if must_write (keys !! n) (prevSecretsChecksums p) n m then written (keys !! n) s m else s).
Proof.
  intros Hr Hp Hg Ho Hn Hs Hrun Hk.
  destruct (provide_result L D C sched keys p w _ _ _ Hr Hp Hg Ho Hrun)
    as [_ [(_ & ? & _)|(ids & conj & Hret & Hids & Hw)]]; [done|].
  destruct (Hw n Hn) as (s' & m & Hs' & Hm & Hc). rewrite Hs in Hs'. injection Hs' as <-.
  by exists ids, conj, m.
Qed.

(** What a successful run does to any Secret: nothing, or an update with the
    entries it is to receive. *)
Lemma run_changes keys sched p w u p' w' ns n :
  ready w → secretsState p = empty_state → secretsGroups p = ∅ → orderly L D C w →
  ProvideWithCleanup L D C sched keys (p, w) = (Ret u, (p', w')) →
  cluster w' ns n = cluster w ns n ∨
  ns = podNamespace C ∧ selected L D C w n ∧ ∃ s ids conj m, cluster w ns n = Some s ∧
    retrieveSecrets D ids w = Ret conj ∧ expected_data L C conj s m ∧
    cluster w' ns n = Some (written (keys !! n) s m).
Proof.
  intros Hr Hp Hg Ho Hrun.
  destruct (provide_selected L D C sched keys p w _ _ _ Hr Hp Hg Ho Hrun ns n) as [|[-> Hn]]; [by left|].
  destruct (provide_result L D C sched keys p w _ _ _ Hr Hp Hg Ho Hrun)
    as [Hsame [(-> & _)|(ids & conj & Hret & _ & Hw)]]; [left; by apply Hsame|].
  destruct (Hw n Hn) as (s & m & Hs & Hm & Hc). rewrite Hc.
  destruct (must_write _ _ _ _); [right|left; by rewrite Hs].
  split; [done|]. split; [done|]. by exists s, ids, conj, m.
Qed.
End runs.

(** What the handler does with an update of the provider's that leaves the
    conjur-map alone: it counts only when the Secret had no data at all. *)
Definition own_event (old new : K8sSecret) (si : SecretInformer) : SecretInformer :=
  if decide (Data old = None ∧ is_Some (Data new) ∧ informer si = true ∧ hasSynced si = true ∧
             hasManagedByProviderLabel (Some old) = true)
  then queue_add (mkEvent new (Some old) SecretEventTypeUpdate) si else si.

Lemma conjur_map_of_written keys s m :
  m !! ConjurMapKey = None → ConjurMapKey ∉ default [] keys →
  conjur_map_of (written keys s m) = if decide (Data s = None) then Some "" else conjur_map_of s.
Proof.
  intros Hm Hk. pose proof (lookup_written keys s m ConjurMapKey) as Hl.
  rewrite Hm, decide_False in Hl by done. unfold conjur_map_of, written, nilmap_lookup in *.
  cbn in *. rewrite Hl. by destruct (Data s).
Qed.

Lemma own_update_event keys s m sched si :
  m !! ConjurMapKey = None → ConjurMapKey ∉ default [] keys →
  onUpdate sched (SecretObject (Some s)) (SecretObject (Some (written keys s m))) si =
  Some (own_event s (written keys s m) si).
Proof.
  intros Hm Hk. rewrite onUpdate_events, (conjur_map_of_written keys s m Hm Hk). unfold own_event.
  f_equal. apply decide_ext.
  change (hasManagedByProviderLabel (Some (written keys s m))) with (hasManagedByProviderLabel (Some s)).
  assert (relevantAnnotationsChanged sched s (written keys s m) ≠ true) as Hann.
  { intros (key & _ & Hne)%relevantAnnotationsChanged_spec. by apply Hne. }
  assert (is_Some (Data (written keys s m))) as Hdata by by eexists.
  destruct (decide (Data s = None)) as [Hd|Hd].
  - assert (conjur_map_of s = None) as -> by (unfold conjur_map_of; by rewrite Hd).
    split; [naive_solver|]. intros (_ & _ & ? & ? & ?). split_and!; [done..|]. by left.
  - split; [|by intros [? _]]. intros (_ & _ & ? & [?|[?|?]]); congruence.
Qed.

Lemma unchanged_event s sched si :
  onUpdate sched (SecretObject (Some s)) (SecretObject (Some s)) si = Some (own_event s s si).
Proof.
  rewrite onUpdate_events. unfold own_event. rewrite !decide_False; [done| |].
  - intros (Hd & [d Hs] & _). congruence.
  - intros (_ & _ & Hl & [?|[Ho|Hr]]); [done|congruence|].
    apply relevantAnnotationsChanged_spec in Hr as (key & _ & Hne). by apply Hne.
Qed.

(** An update with the keys to remove: what it takes out, writes and keeps. *)
Lemma written_removes L C conj (keys : gmap string (list string)) s m n (gone : string → Prop) k :
  expected_data L C conj s m → (∀ k, k ∈ keys !!! n ↔ gone k) → (∀ k, gone k → ¬ mapped L (Some s) k) →
  (gone k → nilmap_lookup (Data (written (keys !! n) s m)) k = m !! k ∧
     (is_Some (m !! k) → beside_map L conj s k)) ∧
  (∀ b, m !! k = Some b → nilmap_lookup (Data (written (keys !! n) s m)) k = Some b) ∧
  (m !! k = None → ¬ gone k →
     nilmap_lookup (Data (written (keys !! n) s m)) k = nilmap_lookup (Data s) k).
Proof.
  intros Hm Hk Hg. rewrite lookup_written, lookup_total_nil. split_and!.
  - intros Hgone. split.
    + destruct (m !! k) eqn:Hmk; [done|by rewrite decide_True by by apply Hk].
    + intros Hmk. destruct (expected_origin L C conj s m k Hm Hmk) as [Hmap|]; [|done].
      destruct (Hg k Hgone). by apply conjur_map_mapped.
  - by intros b ->.
  - intros -> Hgone. by rewrite decide_False by by rewrite Hk.
Qed.

(** ** Properties *)

(** C10: a burst of edits of a Secret, each following the other and leaving
    it labelled, goes through the informer's filter, queue and worker to the
    runner, between edits of other Secrets: with sanitizing on, a run for it
    that succeeds takes every key out of the Secret that some version had in
    its conjur-map and the last version does not have, unless a group template
    or fetch-all of the last version writes it, writes the entries that the
    last version asks for, and keeps all other entries, also those of keys
    that were taken out and put back. Edits that the filter leaves out
    change nothing in this. Only when the checksum of the entries is the
    recorded one does the Secret stay as it is. *)
Theorem removed_keys_leave {W} L (D : k8sProviderDeps W) `{!K8sAccess (k8s D)} C es evs os n v
    sched p w u p' w' :
  follows n v es → delivered es = Some evs → os.*2 = evs →
  ready w → secretsState p = empty_state → secretsGroups p = ∅ → orderly L D C w →
  selected L D C w n → cluster w (podNamespace C) n = Some (final n v es) →
  (∃ k, removed L C n v es k) →
  ProvideWithCleanup L D C sched (accumulate_all L C os ∅) (p, w) = (Ret u, (p', w')) →
  ∃ ids conj m s', retrieveSecrets D ids w = Ret conj ∧ requested L D C w ids ∧
    expected_data L C conj (final n v es) m ∧ cluster w' (podNamespace C) n = Some s' ∧
    if decide (prevSecretsChecksums p !! n = Some (FileChecksum (pretty_map m)))
    then s' = final n v es
    else ∀ k, (removed L C n v es k → nilmap_lookup (Data s') k = m !! k ∧
                (is_Some (m !! k) → beside_map L conj (final n v es) k)) ∧
      (∀ b, m !! k = Some b → nilmap_lookup (Data s') k = Some b) ∧
      (m !! k = None → ¬ removed L C n v es k →
         nilmap_lookup (Data s') k = nilmap_lookup (Data (final n v es)) k).
Proof.
  intros Hf Hd Hos Hr Hp Hg Ho Hn Hs [k0 Hk0] Hrun.
  assert (∀ k, k ∈ accumulate_all L C os ∅ !!! n ↔ removed L C n v es k) as Hkeys
    by (intros k; by apply (elem_of_sent L C es evs)).
  set (keys := accumulate_all L C os ∅) in *.
  assert (is_Some (keys !! n)) as [ks Hks].
  { apply Hkeys in Hk0. rewrite lookup_total_default in Hk0.
    destruct (keys !! n); [by eexists|by apply not_elem_of_nil in Hk0]. }
  destruct (selected_after L D C keys sched p w u p' w' n (final n v es))
    as (ids & conj & m & Hret & Hids & Hm & Hc); [done..| |].
  { intros He. by rewrite He, lookup_empty in Hks. }
  exists ids, conj, m. eexists. split_and!; [exact Hret|exact Hids|exact Hm|exact Hc|].
  unfold must_write. rewrite Hks, (bool_decide_eq_true_2 (is_Some (Some ks))), orb_true_r by by eexists.
  cbn [andb]. unfold entry_changed, ContentHasChanged. cbn [fst snd].
  destruct (prevSecretsChecksums p !! n) as [ck|] eqn:Hck.
  - case_decide as Heq; [injection Heq as ->; by rewrite bool_decide_eq_true_2|].
    rewrite bool_decide_eq_false_2 by congruence. cbn [negb]. rewrite <- Hks.
    intros k. apply (written_removes L C conj); [done|done|by intros k' (_ & ? & _)].
  - rewrite decide_False by done. rewrite <- Hks. intros k. apply (written_removes L C conj); [done|done|by intros k' (_ & ? & _)].
Qed.

(** Two edits of a Secret, one of them for the informer, and a run. *)
Definition sim_old : K8sSecret :=
  sim_secret "web" ("key:web/key" +:+ String lf "old:web/old") {["old" := Some "o1"]}.
Definition sim_noted : K8sSecret :=
  sim_secret "web" ("key:web/key" +:+ String lf "old:web/old") {["old" := Some "o1"; "note" := Some "mine"]}.
Definition sim_new : K8sSecret :=
  sim_secret "web" "key:web/key" {["old" := Some "o1"; "note" := Some "mine"]}.
Definition sim_edits : list edit :=
  [mkEdit sim_old sim_noted sim_sched; mkEdit sim_noted sim_new sim_sched].

Lemma removed_keys_leave_witness :
  let C := mkProviderConfig "ns" ["web"] true in
  let D := sim_deps canonical_order sim_table in
  let os := [(reversed_order, mkEvent sim_new (Some sim_noted) SecretEventTypeUpdate)] in
  let keys := accumulate_all sim_libraries C os ∅ in
  let run := ProvideWithCleanup sim_libraries D C sim_sched keys (newProvider, sim_cluster [sim_new]) in
  delivered sim_edits = Some os.*2 ∧ run.1 = Ret true ∧ sim_data run "web" "note" = Some (Some "mine") ∧
  ∃ s', kube_store run.2.2 "ns" "web" = Some s' ∧ nilmap_lookup (Data s') "old" = None.
Proof.
  intros C D os keys run.
  assert (delivered sim_edits = Some os.*2) as Hd by (vm_compute; reflexivity).
  assert (run.1 = Ret true) as Hrun by (vm_compute; reflexivity).
  split; [exact Hd|]. split; [exact Hrun|]. split; [vm_compute; reflexivity|].
  assert (final "web" sim_old sim_edits = sim_new) as Hfin by reflexivity.
  assert (removed sim_libraries C "web" sim_old sim_edits "old") as Hrem.
  { split; [reflexivity|]. rewrite Hfin. split; [intros [c Hc]; vm_compute in Hc; discriminate Hc|].
    exists sim_old. split; [apply elem_of_cons; by left|]. exists (YString "web/old"). vm_compute. reflexivity. }
  destruct (removed_keys_leave sim_libraries D C sim_edits os.*2 os "web" sim_old sim_sched newProvider
    (sim_cluster [sim_new]) true run.2.1 run.2.2) as (ids & conj & m & s' & _ & _ & _ & Hs' & Hkeys).
  - repeat split; vm_compute; reflexivity.
  - exact Hd.
  - reflexivity.
  - reflexivity.
  - reflexivity.
  - reflexivity.
  - intros n s Hn Hs. apply list_elem_of_singleton in Hn as ->. vm_compute in Hs. injection Hs as <-.
    apply tidy_check_ok. vm_compute. reflexivity.
  - left.
  - vm_compute. reflexivity.
  - exists "old". exact Hrem.
  - exact (run_parts _ _ Hrun).
  - exists s'. split; [exact Hs'|]. rewrite decide_False in Hkeys by discriminate.
    destruct (proj1 (Hkeys "old") Hrem) as [-> Hside]. apply eq_None_not_Some. intros Hk.
    apply (beside_none sim_libraries conj sim_new "old"); [apply tidy_check_ok| | |exact (Hside Hk)];
      vm_compute; reflexivity.
Defined.

(** C11: the provider does not wake itself up, apart from one case: whatever a
    successful run on an orderly cluster has changed, the informer queues no
    event for it, unless the Secret had no data at all before, as one with
    group annotations only may - then its first write queues one event. This is
    so when no conjur-map and no group of the Secrets that the run selects
    names the key "conjur-map", fetch-all finds no variable of that name, and
    that key is not to be removed ([conjur_map_overwritten] shows the need). *)
Theorem own_writes_ignored {W} L (D : k8sProviderDeps W) `{!K8sAccess (k8s D)} C keys sched p w u p' w'
    ns n old new isched si :
  ready w → secretsState p = empty_state → secretsGroups p = ∅ → orderly L D C w →
  (∀ n s, selected L D C w n → cluster w (podNamespace C) n = Some s →
     conjur_map L s !! ConjurMapKey = None ∧
     (∀ ids conj, retrieveSecrets D ids w = Ret conj → ¬ beside_map L conj s ConjurMapKey) ∧
     ConjurMapKey ∉ keys !!! n) →
  ProvideWithCleanup L D C sched keys (p, w) = (Ret u, (p', w')) →
  cluster w ns n = Some old → cluster w' ns n = Some new →
  onUpdate isched (SecretObject (Some old)) (SecretObject (Some new)) si = Some (own_event old new si).
Proof.
  intros Hr Hp Hg Ho Hmap Hrun Hold Hnew.
  destruct (run_changes L D C keys sched p w u p' w' ns n Hr Hp Hg Ho Hrun)
    as [Hsame|(-> & Hn & s & ids & conj & m & Hs & Hret & Hm & Hw)].
  - rewrite Hnew, Hold in Hsame. injection Hsame as ->. apply unchanged_event.
  - rewrite Hold in Hs. injection Hs as <-. rewrite Hnew in Hw. injection Hw as ->.
    destruct (Hmap n old Hn Hold) as (Hkey & Hside & Hrem). apply own_update_event.
    + apply eq_None_not_Some. intros [[? Hk]|Hk]%(expected_origin _ _ _ _ _ _ Hm); [congruence|].
      by apply (Hside ids conj).
    + by rewrite lookup_total_default in Hrem.
Qed.

(** The first run of a provider, which writes the Secret. *)
Lemma own_writes_ignored_witness :
  let C := mkProviderConfig "ns" ["web"] true in
  let run := ProvideWithCleanup sim_libraries (sim_deps canonical_order sim_table) C sim_sched ∅
    (newProvider, sim_cluster [sim_web]) in
  let new := default sim_web (kube_store run.2.2 "ns" "web") in
  run.1 = Ret true ∧ sim_data run "web" "key" = Some (Some "k1") ∧
  onUpdate sim_sched (SecretObject (Some sim_web)) (SecretObject (Some new)) (mkInformer true true [] false) =
    Some (mkInformer true true [] false).
Proof.
  intros C run new. assert (run.1 = Ret true) as Hrun by (vm_compute; reflexivity).
  split; [exact Hrun|]. split; [vm_compute; reflexivity|].
  apply (own_writes_ignored sim_libraries (sim_deps canonical_order sim_table) C ∅ sim_sched newProvider
    (sim_cluster [sim_web]) true run.2.1 run.2.2 "ns" "web").
  - reflexivity.
  - reflexivity.
  - reflexivity.
  - intros n s Hn Hs. apply list_elem_of_singleton in Hn as ->. vm_compute in Hs. injection Hs as <-.
    apply tidy_check_ok. vm_compute. reflexivity.
  - intros n s Hn Hs. apply list_elem_of_singleton in Hn as ->. vm_compute in Hs. injection Hs as <-.
    split; [vm_compute; reflexivity|].
    split; [intros ids conj _; apply beside_none; [apply tidy_check_ok| |]; vm_compute; reflexivity|].
    rewrite lookup_total_empty. apply not_elem_of_nil.
  - exact (run_parts _ _ Hrun).
  - vm_compute. reflexivity.
  - vm_compute. reflexivity.
Defined.

(** A Secret with group annotations and no data: the provider's first write
    makes its data non-nil, which the informer takes for a change of the
    conjur-map, and the provider runs once more. *)
Theorem annotation_only_wakes :
  let C := mkProviderConfig "ns" [] true in
  let app := mkK8sSecret "app" (Some {[ManagedByProviderKey := "true"]})
    (Some {[SecretGroupPrefix +:+ "conf" := "- pw:db/pw"; SecretGroupFileTemplatePrefix +:+ "conf" := "cfg "]})
    None in
  let run := sim_run C sim_table [app] in
  let new := default app (kube_store run.2.2 "ns" "app") in
  let second := ProvideWithCleanup sim_libraries (sim_deps canonical_order sim_table) C sim_sched ∅ run.2 in
  run.1 = Ret true ∧ sim_data run "app" "conf" = Some (Some "cfg pw=hunter2") ∧
  onUpdate sim_sched (SecretObject (Some app)) (SecretObject (Some new)) (mkInformer true true [] false) =
    Some (mkInformer true true [mkEvent new (Some app) SecretEventTypeUpdate] false) ∧
  second.1 = Ret false.
Proof. cbv zeta. split_and!; vm_compute; reflexivity. Qed.

(** Nothing stops a conjur-map from naming the key "conjur-map": the value of
    the variable then replaces the conjur-map, the provider's own update wakes
    it up, and the run that follows skips the Secret, whose conjur-map it can
    no longer read. *)
Theorem conjur_map_overwritten :
  let C := mkProviderConfig "ns" [] true in
  let own := sim_secret "own" "conjur-map:web/key" ∅ in
  let run := sim_run C sim_table [own] in
  let new := default own (kube_store run.2.2 "ns" "own") in
  run.1 = Ret true ∧ sim_data run "own" ConjurMapKey = Some (Some "k1") ∧
  onUpdate sim_sched (SecretObject (Some own)) (SecretObject (Some new)) (mkInformer true true [] false) =
    Some (mkInformer true true [mkEvent new (Some own) SecretEventTypeUpdate] false) ∧
  let second := ProvideWithCleanup sim_libraries (sim_deps canonical_order sim_table) C sim_sched ∅ run.2 in
  second.1 = Ret false ∧ sim_data second "own" ConjurMapKey = Some (Some "k1").
Proof. cbv zeta. split_and!; vm_compute; reflexivity. Qed.
