(* ===== verification/Concurrency.v ===== *)
(** * The two refreshing goroutines, interleaved

    [RunSecretsProvider] starts [periodicSecretProvider] and
    [informerTriggeredProvider], which run at the same time: they share the
    provider, the backoff policy of the retry wrapper, the readiness flag and
    the unbuffered error channel. Runner.v takes every run of the provider,
    with its retries, as one step; here a step is one call of the provider
    (which its mutex makes exclusive), one call of the policy or one report,
    and the goroutines take turns in any order; in between, others may change
    the world as the relation [env] says. The wrapper's loop is that of
    the backoff library as [RetryLaws] states it. Go gives an unsynchronised
    access to the policy no meaning: its calls are steps here.

    Every execution of Runner.v is an execution here, with the runs one after
    another; what holds here for all interleavings holds for those too. *)

From S2P Require Import Prelude GoString GoBytes FileTemplates K8sClient K8sProvider K8sKeys K8sProviderProps Informer Runner.
Open Scope Z_scope.

Inductive worker := Periodic | Informed.

#[export] Instance worker_eq_dec : EqDecision worker.
Proof. solve_decision. Defined.

(** Where a goroutine is: in its select; about to call the provider inside the
    wrapper, or after an error there; about to call it without the wrapper,
    with the keys to remove; with a result to report; sending an error. *)
Inductive position :=
| Selecting
| Calling
| Retrying (updated : bool) (err : string)
| CallingOnce (keys : gmap string (list string))
| Reporting (r : outcome (bool * string) bool)
| Sending (err : string).

(** What a step is counted as. *)
Inductive label := Tau | Begin (w : worker) | Retry (w : worker).

#[export] Instance label_eq_dec : EqDecision label.
Proof. solve_decision. Defined.

Record conc (W : Type) := mkConc {
  now : Z;
  main : run_phase;
  shared : runner_state W;
  periodic : position;
  informed : position;
  pending : informer_state
}.
Arguments mkConc {W} _ _ _ _ _ _.
Arguments now {W} _.
Arguments main {W} _.
Arguments shared {W} _.
Arguments periodic {W} _.
Arguments informed {W} _.
Arguments pending {W} _.

Section concurrency.
Context {W : Type}.
Context (raw : ProviderFunc W) (cleanup : gmap string (list string) → ProviderFunc W)
  (L : libraries) (C : provider_config) (status : StatusUpdater W) (cfg : ProviderRefreshConfig)
  (env : relation W).
#[local] Abbreviation St := (runner_state W).
#[local] Abbreviation conc := (conc W).

Definition position_of (w : worker) (x : conc) : position :=
  match w with Periodic => periodic x | Informed => informed x end.

(** The goroutine [w] moves to [p]; back in its select, the informer's has
    nothing pending. *)
Definition move (w : worker) (p : position) (st : St) (x : conc) : conc :=
  match w with
  | Periodic => mkConc (now x) (main x) st p (informed x) (pending x)
  | Informed => mkConc (now x) (main x) st (periodic x) p
      (match p with Selecting => after_informer_run (pending x) | _ => pending x end)
  end.

Definition set_main (m : run_phase) (x : conc) : conc :=
  mkConc (now x) m (shared x) (periodic x) (informed x) (pending x).
(** Something outside of the program has changed the world to [w]. *)
Definition set_world (w : W) (x : conc) : conc :=
  mkConc (now x) (main x) (mkRunner w (isReady (shared x)) (policy (shared x)))
    (periodic x) (informed x) (pending x).
Definition set_pending (i : informer_state) (x : conc) : conc :=
  mkConc (now x) (main x) (shared x) (periodic x) (informed x) i.

(** A call of the provider begins: the wrapper resets the policy. *)
Definition begin_call (w : worker) (st : St) : label * position * St :=
  if 0 <? RetryInterval cfg then (Begin w, Calling, set_policy st (Reset (policy st)))
  else (Tau, CallingOnce ∅, st).

Definition begin_informed (i : informer_state) (st : St) : label * position * St :=
  if decide (keysToRemoveCumulative i = ∅) then begin_call Informed st
  else (Tau, CallingOnce (keysToRemoveCumulative i), st).

(** The report of a result: the readiness, then the status file; [None] is a
    panic. *)
Definition report (r : outcome (bool * string) bool) (st : St) : option position * St :=
  match r with
  | Panic => (None, st)
  | Fail (_, err) => (Some (Sending err), setReady (Some err) st)
  | Ret false => (Some Selecting, setReady None st)
  | Ret true =>
      match call_world (SetSecretsUpdated status) (setReady None st) with
      | (Ret _, st1) => (Some Selecting, st1)
      | (Fail err, st1) => (Some (Sending err), st1)
      | (Panic, st1) => (None, st1)
      end
  end.

(** What a goroutine that is not waiting does next; a panic is reported at
    once, it ends the program. *)
Definition advance (w : worker) (p : position) (st : St) : option (label * option position * St) :=
  match p with
  | Selecting | Sending _ => None
  | Calling =>
      let '(r, st1) := call_world raw st in
      Some (match r with
            | Ret u => (Tau, Some (Reporting (Ret u)), st1)
            | Fail (u, err) => (Tau, Some (Retrying u err), st1)
            | Panic => (Tau, None, st1)
            end)
  | Retrying u err =>
      let '(d, b) := NextBackOff (policy st) in
      let st1 := set_policy st b in
      Some (match d with
            | None => (Tau, Some (Reporting (Fail (u, err))), st1)
            | Some _ => (Retry w, Some Calling, default (λ _ st, st) (onRetry st1) err st1)
            end)
  | CallingOnce keys =>
      let '(r, st1) := call_world (if decide (keys = ∅) then raw else cleanup keys) st in
      Some (match r with Panic => (Tau, None, st1) | _ => (Tau, Some (Reporting r), st1) end)
  | Reporting r => let '(p', st1) := report r st in Some (Tau, p', st1)
  end.

Inductive cstep : conc → label → conc → Prop :=
| c_time x n : now x ≤ n →
    cstep x Tau (mkConc n (main x) (shared x) (periodic x) (informed x) (pending x))
| c_tick x l p st' :
    main x ≠ Crashed → periodic x = Selecting → 0 < SecretRefreshInterval cfg →
    begin_call Periodic (shared x) = (l, p, st') → cstep x l (move Periodic p st' x)
| c_event o x event i :
    main x ≠ Crashed → informed x = Selecting → InformerEvents cfg = true →
    on_event L C o (now x) event (pending x) = (i, false) → cstep x Tau (set_pending i x)
| c_event_run o x event i l p st' :
    main x ≠ Crashed → informed x = Selecting → InformerEvents cfg = true →
    on_event L C o (now x) event (pending x) = (i, true) →
    begin_informed i (shared x) = (l, p, st') → cstep x l (move Informed p st' (set_pending i x))
| c_timer x d l p st' :
    main x ≠ Crashed → informed x = Selecting → timer (pending x) = Some d → d ≤ now x →
    begin_informed (pending x) (shared x) = (l, p, st') → cstep x l (move Informed p st' x)
| c_advance w x l p st' :
    main x ≠ Crashed → advance w (position_of w x) (shared x) = Some (l, Some p, st') →
    cstep x l (move w p st' x)
| c_panic w x l st' :
    main x ≠ Crashed → advance w (position_of w x) (shared x) = Some (l, None, st') →
    cstep x l (set_main Crashed (move w Selecting st' x))
| c_deliver w x err :
    main x = Serving → position_of w x = Sending err →
    cstep x Tau (set_main (on_periodic_error cfg err) (move w Selecting (shared x) x))
| c_quit x : main x = Serving → cstep x Tau (set_main (Returned None) x)
| c_env x w : env (world (shared x)) w → cstep x Tau (set_world w x).

(** Executions with their labels. *)
Inductive execution : conc → list label → conc → Prop :=
| exec_refl x : execution x [] x
| exec_step x l y ls z : cstep x l y → execution y ls z → execution x (l :: ls) z.

Lemma exec_one x l y : cstep x l y → execution x [l] y.
Proof. intros Hs. eapply exec_step; [done|apply exec_refl]. Qed.

Lemma exec_trans x ls y ls' z : execution x ls y → execution y ls' z → execution x (ls ++ ls') z.
Proof. induction 1; [done|]. intros Hz. eapply exec_step; eauto. Qed.

(** Both goroutines in their select. *)
Definition embed (x : running (W := W)) : conc :=
  mkConc (clock x) (phase x) (state x) Selecting Selecting (inf x).
End concurrency.

(** ** The runs of Runner.v as executions *)
Section simulation.
Context {W : Type} (RetryNotify : retry_relation) `{!RetryLaws RetryNotify}.
Context (raw : ProviderFunc W) (cleanup : gmap string (list string) → ProviderFunc W)
  (L : libraries) (C : provider_config) (status : StatusUpdater W) (cfg : ProviderRefreshConfig)
  (env : relation W).
#[local] Abbreviation St := (runner_state W).
#[local] Abbreviation cstep := (cstep raw cleanup L C status cfg env).
#[local] Abbreviation execution := (execution raw cleanup L C status cfg env).
#[local] Abbreviation advance := (advance raw cleanup status).
#[local] Abbreviation step := (step RetryNotify raw cleanup L C status cfg).

Lemma move_move w p1 p2 (st1 st2 : St) x :
  p1 ≠ Selecting → move w p2 st2 (move w p1 st1 x) = move w p2 st2 x.
Proof. intros Hp. destruct w; [done|]. cbn. by destruct p1. Qed.

Lemma position_move w p (st : St) x : position_of w (move w p st x) = p.
Proof. by destruct w. Qed.
Lemma shared_move w p (st : St) x : shared (move w p st x) = st.
Proof. by destruct w. Qed.
Lemma main_move w p (st : St) x : main (move w p st x) = main x.
Proof. by destruct w. Qed.

Lemma move_set_main w p (st : St) m x : move w p st (set_main m x) = set_main m (move w p st x).
Proof. by destruct w. Qed.

Lemma set_main_main (x : conc W) : set_main (main x) x = x.
Proof. by destruct x. Qed.

(** Whether there is a callback does not change. *)
Lemma onRetry_call_world {E A} (m : M W E A) (st : St) : onRetry (call_world m st).2 = onRetry st.
Proof. unfold call_world. by destruct (m (world st)). Qed.
Lemma onRetry_notified f err (st : St) :
  onRetry st = f → onRetry (default (λ _ st, st) f err st) = f.
Proof.
  intros <-. unfold onRetry. destruct (isReady st) as [b|] eqn:Hb; cbn; [|by rewrite Hb].
  unfold setReady. by rewrite Hb.
Qed.

(** One step of a goroutine, seen from where it ends. *)
Lemma exec_advance w x l p st' ls z :
  main x ≠ Crashed → advance w (position_of w x) (shared x) = Some (l, Some p, st') →
  execution (move w p st' x) ls z → execution x (l :: ls) z.
Proof. intros Hm Ha. apply exec_step. by apply c_advance. Qed.

Lemma advance_in w p st l p' st' x :
  main x ≠ Crashed → p ≠ Selecting → advance w p st = Some (l, Some p', st') →
  cstep (move w p st x) l (move w p' st' x).
Proof.
  intros Hm Hp Ha. assert (move w p' st' x = move w p' st' (move w p st x)) as -> by by rewrite move_move.
  apply c_advance; [by rewrite main_move|by rewrite position_move, shared_move].
Qed.

Lemma panic_in w p st l st' x :
  main x ≠ Crashed → p ≠ Selecting → advance w p st = Some (l, None, st') →
  cstep (move w p st x) l (set_main Crashed (move w Selecting st' x)).
Proof.
  intros Hm Hp Ha.
  assert (move w Selecting st' x = move w Selecting st' (move w p st x)) as -> by by rewrite move_move.
  eapply c_panic; [by rewrite main_move|by rewrite position_move, shared_move].
Qed.

(** The end of a call: its result is to be reported, or it has panicked. *)
Definition called (w : worker) (r : outcome (bool * string) bool) (st' : St) (x : conc W) : conc W :=
  match r with
  | Panic => set_main Crashed (move w Selecting st' x)
  | _ => move w (Reporting r) st' x
  end.

Lemma called_move w r p (st st' : St) x :
  p ≠ Selecting → called w r st' (move w p st x) = called w r st' x.
Proof. intros Hp. destruct r; cbn; by rewrite move_move. Qed.

Definition finite_calls (f : option (string → St → St)) (s : bool * St) (o : outcome string unit)
    (s' : bool * St) : Prop :=
  ∀ w x, onRetry s.2 = f → position_of w x = Calling → shared x = s.2 → main x ≠ Crashed →
    ∃ ls, execution x ls (called w (result_of o s'.1) s'.2 x).

Lemma attempts_finite f s o s' :
  attempt (bool * St)%type string (retry_op raw) retry_reset retry_next (retry_notify f) s o s' →
  finite_calls f s o s'.
Proof.
  apply (retry_least _ _ _ _ _ _ (finite_calls f)). clear s o s'. intros [u st] o [u' st'] Hb w x Hf Hp Hs Hm.
  unfold retry_body, retry_op in Hb. cbn [fst snd] in *.
  pose proof (onRetry_call_world raw st) as Hcb. rewrite Hf in Hcb.
  assert (advance w Calling st = Some (match (call_world raw st).1 with
    | Ret u => (Tau, Some (Reporting (Ret u)), (call_world raw st).2)
    | Fail (u, err) => (Tau, Some (Retrying u err), (call_world raw st).2)
    | Panic => (Tau, None, (call_world raw st).2) end)) as Ha
    by (cbn; by destruct (call_world raw st) as [[?|[??]|] ?]).
  rewrite <- Hp, <- Hs in Ha. rewrite Hs in Ha.
  destruct (call_world raw st) as [[a|[a e]|] st1]; cbn [fst snd] in *.
  - destruct Hb as [-> [= -> ->]]. eexists. eapply exec_advance; [done|by rewrite Hs|]. apply exec_refl.
  - assert (advance w (Retrying a e) st1 = Some (match (retry_next (a, st1)).1 with
      | None => (Tau, Some (Reporting (Fail (a, e))), (retry_next (a, st1)).2.2)
      | Some _ => (Retry w, Some Calling, default (λ _ st, st) f e (retry_next (a, st1)).2.2) end)) as Ha2.
    { cbn. unfold retry_next. cbn [snd fst]. destruct (NextBackOff (policy st1)) as [[d|] b]; cbn; [|done].
      assert (onRetry (set_policy st1 b) = f) as -> by exact Hcb. done. }
    unfold retry_next in Hb, Ha2. cbn [snd fst] in Hb, Ha2.
    destruct (NextBackOff (policy st1)) as [[d|] b]; cbn [fst snd] in Hb, Ha2.
    + destruct (Hb w (move w Calling (default (λ _ st, st) f e (set_policy st1 b)) x)) as [ls Hls].
      * rewrite notified. cbn. by apply onRetry_notified.
      * apply position_move.
      * rewrite shared_move, notified. done.
      * by rewrite main_move.
      * eexists. eapply exec_advance; [done|by rewrite Hs|].
        eapply exec_advance; [by rewrite main_move|by rewrite position_move, shared_move|].
        rewrite move_move by done. rewrite called_move in Hls by done. exact Hls.
    + destruct Hb as [-> [= -> ->]]. eexists. eapply exec_advance; [done|by rewrite Hs|].
      eapply exec_advance; [by rewrite main_move|by rewrite position_move, shared_move|].
      rewrite move_move by done. apply exec_refl.
  - destruct Hb as [-> [= -> ->]]. eexists. eapply exec_step; [|apply exec_refl]. apply (c_panic _ _ _ _ _ _ _ w x Tau); [done|by rewrite Hs].
Qed.

(** A run of the provider, from the step that begins it. *)
Lemma provide_execution w x st l p st1 r st' :
  main x ≠ Crashed → begin_call cfg w st = (l, p, st1) →
  provideSecrets RetryNotify raw cfg st r st' →
  ∃ ls, execution (move w p st1 x) ls (called w r st' x).
Proof.
  intros Hm Hb Hp. unfold begin_call in Hb. unfold provideSecrets in Hp.
  destruct (0 <? RetryInterval cfg).
  - injection Hb as <- <- <-. destruct Hp as (o & u & Ho & ->).
    rewrite retry_start in Ho. unfold retry_reset in Ho at 1. cbn [fst snd] in Ho.
    destruct (attempts_finite _ _ _ _ Ho w (move w Calling (set_policy st (Reset (policy st))) x)) as [ls Hls].
    + done.
    + apply position_move.
    + apply shared_move.
    + by rewrite main_move.
    + exists ls. rewrite called_move in Hls by done. by destruct o.
  - injection Hb as <- <- <-. eexists.
    assert (advance w (CallingOnce ∅) st = Some (match r with
      | Panic => (Tau, None, st') | _ => (Tau, Some (Reporting r), st') end)) as Ha
      by (unfold Concurrency.advance; rewrite decide_True by done; by rewrite <- Hp).
    destruct r; (eapply exec_step; [|apply exec_refl]); [by apply advance_in..|by eapply panic_in].
Qed.

Lemma cleanup_execution x keys st r st' :
  main x ≠ Crashed → keys ≠ ∅ → (r, st') = call_world (cleanup keys) st →
  ∃ ls, execution (move Informed (CallingOnce keys) st x) ls (called Informed r st' x).
Proof.
  intros Hm Hk Hp. eexists.
  assert (advance Informed (CallingOnce keys) st = Some (match r with
    | Panic => (Tau, None, st') | _ => (Tau, Some (Reporting r), st') end)) as Ha
    by (unfold Concurrency.advance; rewrite decide_False by done; by rewrite <- Hp).
  destruct r; (eapply exec_step; [|apply exec_refl]); [by apply advance_in..|by eapply panic_in].
Qed.

Lemma informed_execution x i l p st1 r st' :
  main x ≠ Crashed → begin_informed cfg i (shared x) = (l, p, st1) →
  informer_provide RetryNotify raw cleanup cfg i (shared x) r st' →
  ∃ ls, execution (move Informed p st1 x) ls (called Informed r st' x).
Proof.
  unfold begin_informed, informer_provide. intros Hm Hb Hp. case_decide as Hk.
  - by eapply provide_execution.
  - injection Hb as <- <- <-. by apply cleanup_execution.
Qed.

(** The report of a run, and the delivery of its error. *)
Lemma report_execution w x r st' :
  main x = Serving →
  ∃ ls, execution (called w r st' x) ls
    (set_main (after_refresh status cfg r st').1 (move w Selecting (after_refresh status cfg r st').2 x)).
Proof.
  intros Hm.
  assert (∀ st1, Some (Selecting) = Some Selecting →
    move w Selecting st1 x = set_main Serving (move w Selecting st1 x)) as Hserve.
  { intros st1 _. rewrite <- Hm, <- (main_move w Selecting st1 x). by rewrite set_main_main. }
  assert (∀ r err st1, r ≠ Panic → report status r st' = (Some (Sending err), st1) →
    ∃ ls, execution (called w r st' x) ls
      (set_main (on_periodic_error cfg err) (move w Selecting st1 x))) as Hsend.
  { intros r0 err st1 Hr Hrep. eexists.
    assert (called w r0 st' x = move w (Reporting r0) st' x) as -> by by destruct r0.
    eapply exec_advance; [by rewrite main_move, Hm| |].
    { rewrite position_move, shared_move. cbn. by rewrite Hrep. }
    rewrite move_move by done. eapply exec_step; [|apply exec_refl].
    assert (move w Selecting st1 x = move w Selecting (shared (move w (Sending err) st1 x))
      (move w (Sending err) st1 x)) as -> by by rewrite shared_move, move_move.
    apply c_deliver; [by rewrite main_move|by rewrite position_move]. }
  assert (∀ r st1, r ≠ Panic → report status r st' = (Some Selecting, st1) →
    ∃ ls, execution (called w r st' x) ls (set_main Serving (move w Selecting st1 x))) as Hsel.
  { intros r0 st1 Hr Hrep. eexists.
    assert (called w r0 st' x = move w (Reporting r0) st' x) as -> by by destruct r0.
    eapply exec_advance; [by rewrite main_move, Hm| |].
    { rewrite position_move, shared_move. cbn. by rewrite Hrep. }
    rewrite move_move by done. rewrite <- Hserve by done. apply exec_refl. }
  destruct r as [[]|[u err]|]; cbn [after_refresh fst snd].
  - destruct (call_world (SetSecretsUpdated status) (setReady None st')) as [[[]|err|] st1] eqn:Hc.
    + apply Hsel; [done|]. cbn. by rewrite Hc.
    + apply Hsend; [done|]. cbn. by rewrite Hc.
    + eexists. eapply exec_step; [|apply exec_refl]. eapply panic_in; [by rewrite Hm|done|].
      cbn. by rewrite Hc.
  - by apply Hsel.
  - by apply Hsend.
  - exists []. apply exec_refl.
Qed.

(** The whole run: its beginning is the step [Hstep]. *)
Lemma whole_run w x x0 l p st1 r st' :
  main x = Serving → cstep x0 l (move w p st1 x) →
  (∃ ls, execution (move w p st1 x) ls (called w r st' x)) →
  ∃ ls, execution x0 ls
    (set_main (after_refresh status cfg r st').1 (move w Selecting (after_refresh status cfg r st').2 x)).
Proof.
  intros Hm Hstep [ls1 H1]. destruct (report_execution w x r st' Hm) as [ls2 H2].
  eexists. eapply exec_step; [exact Hstep|]. by eapply exec_trans.
Qed.

(** Every step of Runner.v is a sequence of steps here. *)
Lemma step_executes x y : step x y → ∃ ls, execution (embed x) ls (embed y).
Proof.
  destruct 1 as [x n Hn|x r st' Hph Hi Hp|o x event i Hph He Hev|o x event i r st' Hph He Hev Hp
    |x d r st' Hph Ht Hd Hp|x Hph].
  - eexists. apply exec_one. by apply (c_time _ _ _ _ _ _ _ (embed x)).
  - destruct (begin_call cfg Periodic (state x)) as [[l p] st1] eqn:Hb.
    destruct (whole_run Periodic (embed x) (embed x) l p st1 r st') as [ls Hls].
    + done.
    + apply c_tick; [by cbn; rewrite Hph|done..].
    + eapply provide_execution; [by cbn; rewrite Hph|done..].
    + exists ls. exact Hls.
  - eexists. apply exec_one. rewrite <- (set_main_main (embed (mkRunning _ _ _ _))).
    assert (set_main (main (embed (mkRunning (clock x) Serving (state x) i))) (embed (mkRunning (clock x) Serving (state x) i))
      = set_pending i (embed x)) as -> by (unfold set_pending, embed; cbn; by rewrite Hph).
    eapply c_event; [by cbn; rewrite Hph|done..].
  - destruct (begin_informed cfg i (state x)) as [[l p] st1] eqn:Hb.
    destruct (whole_run Informed (set_pending i (embed x)) (embed x) l p st1 r st') as [ls Hls].
    + done.
    + eapply c_event_run; [by cbn; rewrite Hph|done..].
    + eapply informed_execution; [by cbn; rewrite Hph|done..].
    + exists ls. exact Hls.
  - destruct (begin_informed cfg (inf x) (state x)) as [[l p] st1] eqn:Hb.
    destruct (whole_run Informed (embed x) (embed x) l p st1 r st') as [ls Hls].
    + done.
    + eapply c_timer; [by cbn; rewrite Hph|done..].
    + eapply informed_execution; [by cbn; rewrite Hph|done..].
    + exists ls. exact Hls.
  - eexists. apply exec_one. by apply (c_quit _ _ _ _ _ _ _ (embed x)).
Qed.
End simulation.

(** ** What every interleaving keeps *)
Section kept.
Context {W : Type} (raw : ProviderFunc W) (cleanup : gmap string (list string) → ProviderFunc W)
  (L : libraries) (C : provider_config) (status : StatusUpdater W) (cfg : ProviderRefreshConfig)
  (env : relation W).
#[local] Abbreviation St := (runner_state W).

Lemma call_world_world {E A} (m : M W E A) (st : St) : world (call_world m st).2 = (m (world st)).2.
Proof. unfold call_world. by destruct (m (world st)). Qed.
Lemma setReady_world err (st : St) : world (setReady err st) = world st.
Proof. unfold setReady. by destruct (isReady st). Qed.
Lemma onRetry_world err (st st' : St) : world (default (λ _ st, st) (onRetry st') err st) = world st.
Proof. unfold onRetry. destruct (isReady st'); [apply setReady_world|done]. Qed.
Lemma begin_call_world w (st : St) l p st' : begin_call cfg w st = (l, p, st') → world st' = world st.
Proof. unfold begin_call. destruct (0 <? RetryInterval cfg); by intros [= <- <- <-]. Qed.
Lemma begin_informed_world i (st : St) l p st' :
  begin_informed cfg i st = (l, p, st') → world st' = world st.
Proof. unfold begin_informed. case_decide; [apply begin_call_world|by intros [= <- <- <-]]. Qed.

(** The operations on the world stay within the preorder [R]. *)
Context (R : relation W) `{!PreOrder R}.
Hypothesis raw_in : ∀ w, R w (raw w).2.
Hypothesis cleanup_in : ∀ keys w, R w (cleanup keys w).2.
Hypothesis status_in : ∀ w, R w (SetSecretsUpdated status w).2.
Hypothesis env_in : ∀ w w', env w w' → R w w'.

Lemma report_in r (st : St) : R (world st) (world (report status r st).2).
Proof.
  destruct r as [[]|[u err]|]; cbn.
  - pose proof (call_world_world (SetSecretsUpdated status) (setReady None st)) as Hw.
    rewrite setReady_world in Hw. pose proof (status_in (world st)) as Hs. rewrite <- Hw in Hs.
    by destruct (call_world _ _) as [[] ?].
  - by rewrite setReady_world.
  - by rewrite setReady_world.
  - done.
Qed.

Lemma advance_world_in w p (st : St) l p' st' :
  advance raw cleanup status w p st = Some (l, p', st') → R (world st) (world st').
Proof.
  destruct p as [| |u err|keys|r|err]; cbn -[decide]; try done.
  - pose proof (call_world_world raw st) as Hw. pose proof (raw_in (world st)) as Hr. rewrite <- Hw in Hr.
    destruct (call_world raw st) as [[?|[??]|] st1]; by intros [= <- <- <-].
  - destruct (NextBackOff (policy st)) as [[d|] b]; intros [= <- <- <-]; [|done].
    by rewrite onRetry_world.
  - match goal with |- context [call_world ?f st] => set (m := f) end.
    assert (R (world st) (m (world st)).2) as Hr by (subst m; case_decide; auto).
    pose proof (call_world_world m st) as Hw. rewrite <- Hw in Hr.
    destruct (call_world m st) as [[?|?|] st1]; by intros [= <- <- <-].
  - pose proof (report_in r st) as Hr. destruct (report status r st) as [o st1]. by intros [= <- <- <-].
Qed.

Lemma cstep_in x l y : cstep raw cleanup L C status cfg env x l y → R (world (shared x)) (world (shared y)).
Proof.
  destruct 1 as [x n Hn|x l p st' Hm Hp Hi Hb|o x event i Hm Hp He Hev|o x event i l p st' Hm Hp He Hev Hb
    |x d l p st' Hm Hp Ht Hd Hb|w x l p st' Hm Ha|w x l st' Hm Ha|w x err Hm Hp|x Hm|x w He].
  - done.
  - apply begin_call_world in Hb. by rewrite shared_move, Hb.
  - done.
  - apply begin_informed_world in Hb. by rewrite shared_move, Hb.
  - apply begin_informed_world in Hb. by rewrite shared_move, Hb.
  - rewrite shared_move. by eapply advance_world_in.
  - cbn [set_main shared]. rewrite shared_move. by eapply advance_world_in.
  - cbn [set_main shared]. by rewrite shared_move.
  - done.
  - by apply env_in.
Qed.

Lemma execution_in x ls y :
  execution raw cleanup L C status cfg env x ls y → R (world (shared x)) (world (shared y)).
Proof. induction 1 as [|x l y ls z Hs _ IH]; [done|]. etrans; [by eapply cstep_in|done]. Qed.

(** The first run, with its retries, before the goroutines start. *)
Context (RetryNotify : retry_relation) `{!RetryLaws RetryNotify}.
Hypothesis provided_in : ∀ w, R w (SetSecretsProvided status w).2.
Hypothesis scripts_in : ∀ w, R w (CopyScripts status w).2.

Lemma call_in {E A} (m : M W E A) (st : St) :
  (∀ w, R w (m w).2) → R (world st) (world (call_world m st).2).
Proof. intros Hm. rewrite call_world_world. apply Hm. Qed.

Lemma attempt_in f (s : bool * St) o s' :
  attempt (bool * St)%type string (retry_op raw) retry_reset retry_next (retry_notify f) s o s' →
  (∀ g err st, f = Some g → world (g err st) = world st) →
  R (world s.2) (world s'.2).
Proof.
  intros Ha Hf. revert s o s' Ha.
  apply (retry_least _ _ _ _ _ _ (λ s o s', R (world s.2) (world s'.2))).
  intros [u st] o [u' st'] Hb. unfold retry_body, retry_op in Hb. cbn [fst snd] in *.
  pose proof (call_in raw st raw_in) as Hr.
  destruct (call_world raw st) as [[a|[a e]|] st1]; cbn [fst snd] in *.
  - by destruct Hb as [_ [= _ ->]].
  - unfold retry_next in Hb. destruct (NextBackOff _) as [[d|] b]; cbn [fst snd] in Hb.
    + etrans; [exact Hr|]. rewrite notified in Hb. cbn [snd] in Hb.
      destruct f as [g|]; cbn in Hb; [by rewrite (Hf g) in Hb|done].
    + by destruct Hb as [_ [= _ ->]].
  - by destruct Hb as [_ [= _ ->]].
Qed.

Lemma provide_in st r st' : provideSecrets RetryNotify raw cfg st r st' → R (world st) (world st').
Proof.
  unfold provideSecrets. destruct (0 <? RetryInterval cfg).
  - intros (o & u & Ho & _). rewrite retry_start in Ho. apply attempt_in in Ho; [done|].
    intros g err st0. unfold onRetry. destruct (isReady st); [|done]. intros [= <-]. apply setReady_world.
  - intros Hc. pose proof (call_in raw st raw_in) as Hr. by rewrite <- Hc in Hr.
Qed.

(** A run that succeeds ends with a call that does. *)
Lemma attempt_last f (s : bool * St) o s' :
  attempt (bool * St)%type string (retry_op raw) retry_reset retry_next (retry_notify f) s o s' →
  (∀ g err st, f = Some g → world (g err st) = world st) → o = Ret tt →
  ∃ w, R (world s.2) w ∧ raw w = (Ret s'.1, world s'.2).
Proof.
  intros Ha Hf. revert s o s' Ha.
  apply (retry_least _ _ _ _ _ _ (λ s o s', o = Ret tt → ∃ w, R (world s.2) w ∧ raw w = (Ret s'.1, world s'.2))).
  intros [u st] o [u' st'] Hb ->. unfold retry_body, retry_op in Hb. cbn [fst snd] in *.
  pose proof (call_in raw st raw_in) as Hr. unfold call_world in Hb, Hr.
  destruct (raw (world st)) as [[a|[a e]|] w1] eqn:Hw; cbn [fst snd] in *; [| |by destruct Hb].
  - destruct Hb as [_ [= -> ->]]. by exists (world st).
  - unfold retry_next in Hb. destruct (NextBackOff _) as [[d|] b]; cbn [fst snd] in Hb; [|by destruct Hb].
    rewrite notified in Hb. destruct (Hb eq_refl) as (w & Hin & Hlast). exists w. split; [|done].
    etrans; [exact Hr|]. cbn [snd] in Hin. destruct f as [g|]; cbn in Hin; [by rewrite (Hf g) in Hin|done].
Qed.

Lemma provide_last st u st' :
  provideSecrets RetryNotify raw cfg st (Ret u) st' → ∃ w, R (world st) w ∧ raw w = (Ret u, world st').
Proof.
  unfold provideSecrets. destruct (0 <? RetryInterval cfg).
  - intros (o & u' & Ho & Hu). rewrite retry_start in Ho. destruct o as [[]|e|]; [|done|done].
    injection Hu as ->. apply attempt_last in Ho; [done| |done].
    intros g err st0. unfold onRetry. destruct (isReady st); [|done]. intros [= <-]. apply setReady_world.
  - unfold call_world. destruct (raw (world st)) as [r w] eqn:Hw. intros [= <- ->]. by exists (world st).
Qed.

(** Without an error, a runner that runs once has provided the secrets and
    recorded it. *)
Lemma start_once st st' :
  start RetryNotify raw status cfg st (Returned None) st' → RunOnce cfg = true →
  ∃ w u w1, R (world st) w ∧ raw w = (Ret u, w1) ∧ SetSecretsProvided status w1 = (Ret tt, world st').
Proof.
  unfold start. intros Hs Ho. pose proof (call_in (CopyScripts status) st scripts_in) as Hc.
  destruct (call_world (CopyScripts status) st) as [[?|e|] st1]; [|by destruct Hs..].
  destruct Hs as (r & st2 & Hp & Ha). unfold after_first in Ha. rewrite Ho in Ha.
  destruct r as [u|[u e]|]; [|done|done].
  destruct (provide_last st1 u st2 Hp) as (w & Hw & Hraw). exists w, u, (world st2).
  split; [by etrans|]. split; [done|]. unfold call_world in Ha. rewrite setReady_world in Ha.
  destruct (SetSecretsProvided status (world st2)) as [[[]|e|] w'] eqn:Hset; [|done|done].
  by injection Ha as ->.
Qed.

Lemma start_in st ph st' : start RetryNotify raw status cfg st ph st' → R (world st) (world st').
Proof.
  unfold start. pose proof (call_in (CopyScripts status) st scripts_in) as Hs.
  destruct (call_world (CopyScripts status) st) as [[?|e|] st1]; [|by intros [_ ->]..].
  cbn [snd] in Hs. intros (r & st2 & Hp & Ha). apply provide_in in Hp.
  assert (R (world st2) (world st')) as Hl; [|etrans; [exact Hs|]; by etrans].
  unfold after_first in Ha.
  pose proof (call_in (SetSecretsProvided status) (setReady None st2) provided_in) as Hc.
  rewrite setReady_world in Hc. destruct r as [u|[u e]|].
  - destruct (call_world (SetSecretsProvided status) _) as [[?|e|] st3]; by injection Ha as _ ->.
  - destruct (RunOnce cfg); injection Ha as _ ->; [done|]. by rewrite setReady_world.
  - by injection Ha as _ ->.
Qed.
End kept.

(** ** Counting retries *)
Definition counted (l : label) (ls : list label) : Z := Z.of_nat (length (filter (λ l', l' = l) ls)).
Definition begins (ls : list label) : Z := counted (Begin Periodic) ls + counted (Begin Informed) ls.
Definition retries (ls : list label) : Z := counted (Retry Periodic) ls + counted (Retry Informed) ls.

(** What is left until the policy says stop. *)
Definition left_over (b : limitedBackOff) : Z := Z.max 0 (RetryLimit b - retryCount b).

Lemma counted_cons l l' ls : counted l (l' :: ls) = (if decide (l' = l) then 1 else 0) + counted l ls.
Proof. unfold counted. rewrite filter_cons. case_decide; cbn [length]; lia. Qed.

Section counting.
Context {W : Type} (raw : ProviderFunc W) (cleanup : gmap string (list string) → ProviderFunc W)
  (L : libraries) (C : provider_config) (status : StatusUpdater W) (cfg : ProviderRefreshConfig)
  (env : relation W).
#[local] Abbreviation St := (runner_state W).

(** What one step does to the policy: nothing, a reset, or one retry. *)
Definition policy_step (l : label) (b b' : limitedBackOff) : Prop :=
  match l with
  | Tau => b' = b
  | Begin _ => b' = Reset b
  | Retry _ => NextBackOff b = (Some (Interval b), b')
  end.

Lemma setReady_policy err (st : St) : policy (setReady err st) = policy st.
Proof. unfold setReady. by destruct (isReady st). Qed.
Lemma onRetry_policy err (st st' : St) : policy (default (λ _ st, st) (onRetry st') err st) = policy st.
Proof. unfold onRetry. destruct (isReady st'); [apply setReady_policy|done]. Qed.
Lemma begin_call_policy w (st : St) l p st' :
  begin_call cfg w st = (l, p, st') → policy_step l (policy st) (policy st').
Proof. unfold begin_call. destruct (0 <? RetryInterval cfg); by intros [= <- <- <-]. Qed.
Lemma begin_informed_policy i (st : St) l p st' :
  begin_informed cfg i st = (l, p, st') → policy_step l (policy st) (policy st').
Proof. unfold begin_informed. case_decide; [apply begin_call_policy|by intros [= <- <- <-]]. Qed.

Lemma advance_policy w p (st : St) l p' st' :
  advance raw cleanup status w p st = Some (l, p', st') → policy_step l (policy st) (policy st').
Proof.
  destruct p as [| |u err|keys|r|err]; cbn -[decide]; try done.
  - pose proof (call_world_policy raw st) as Hw.
    destruct (call_world raw st) as [[?|[??]|] st1]; by intros [= <- <- <-].
  - destruct (NextBackOff (policy st)) as [[d|] b] eqn:Hb; intros [= <- <- <-]; cbn.
    + rewrite onRetry_policy. cbn. revert Hb. unfold NextBackOff.
      destruct (_ && _); [done|]. by intros [= <- <-].
    + revert Hb. unfold NextBackOff. by destruct (_ && _); intros [= <-].
  - match goal with |- context [call_world ?f st] => set (m := f) end.
    pose proof (call_world_policy m st) as Hw.
    destruct (call_world m st) as [[?|?|] st1]; by intros [= <- <- <-].
  - assert (policy (report status r st).2 = policy st) as Hr.
    { destruct r as [[]|[u err]|]; cbn; rewrite ?setReady_policy; try done.
      pose proof (call_world_policy (SetSecretsUpdated status) (setReady None st)) as Hw.
      rewrite setReady_policy in Hw. by destruct (call_world _ _) as [[] ?]. }
    destruct (report status r st) as [o st1]. by intros [= <- <- <-].
Qed.

Lemma cstep_policy x l y :
  cstep raw cleanup L C status cfg env x l y → policy_step l (policy (shared x)) (policy (shared y)).
Proof.
  destruct 1 as [x n Hn|x l p st' Hm Hp Hi Hb|o x event i Hm Hp He Hev|o x event i l p st' Hm Hp He Hev Hb
    |x d l p st' Hm Hp Ht Hd Hb|w x l p st' Hm Ha|w x l st' Hm Ha|w x err Hm Hp|x Hm|x w He].
  - done.
  - rewrite shared_move. by eapply begin_call_policy.
  - done.
  - rewrite shared_move. by eapply begin_informed_policy.
  - rewrite shared_move. by eapply begin_informed_policy.
  - rewrite shared_move. by eapply advance_policy.
  - cbn [set_main shared]. rewrite shared_move. by eapply advance_policy.
  - cbn [set_main shared policy_step]. by rewrite shared_move.
  - done.
  - done.
Qed.

(** One step spends at most what it counts. *)
Lemma policy_step_spends l b b' :
  policy_step l b b' → RetryLimit b' = RetryLimit b ∧
  (0 ≤ RetryLimit b → retries [l] + left_over b' ≤ left_over b + RetryLimit b * begins [l]).
Proof.
  unfold retries, begins. rewrite !counted_cons. unfold counted, left_over.
  destruct l as [|[]|[]]; cbn [policy_step filter list_filter length]; repeat case_decide; try done;
    try (intros ->; cbn [Reset RetryLimit retryCount]; split; [done|lia]).
  all: unfold NextBackOff; destruct (Z.leb_spec 0 (RetryLimit b)), (Z.leb_spec (RetryLimit b) (retryCount b));
    cbn; intros [= <-]; cbn; split; done || lia.
Qed.

Lemma execution_spends x ls y :
  execution raw cleanup L C status cfg env x ls y → 0 ≤ RetryLimit (policy (shared x)) →
  RetryLimit (policy (shared y)) = RetryLimit (policy (shared x)) ∧
  retries ls + left_over (policy (shared y)) ≤
    left_over (policy (shared x)) + RetryLimit (policy (shared x)) * begins ls.
Proof.
  induction 1 as [x|x l y ls z Hs _ IH]; intros H0; [unfold retries, begins, counted; cbn; split; [done|lia]|].
  apply cstep_policy, policy_step_spends in Hs as [Hl Hs]. specialize (Hs H0). rewrite Hl in IH.
  destruct (IH H0) as [-> IH2]. split; [done|]. unfold retries, begins in *. rewrite !counted_cons in *.
  change (counted _ []) with 0 in Hs. lia.
Qed.
End counting.

(** ** A provider that one goroutine finds broken *)

(** The calls of the provider fail and succeed in turns. *)
Fixpoint in_turns (n : nat) : list (option string) :=
  match n with O => [] | S n' => Some "timeout" :: None :: in_turns n' end.

Definition sim_conf : ProviderRefreshConfig := mkRefresh "sidecar" false 1 true 1 1.
Definition sim_conc (w : list (option string)) (count : Z) (p : position) (i : informer_state) :
    conc (list (option string)) :=
  mkConc 0 Serving (mkRunner w (Some true) (mkBackOff 1 1 count)) Selecting p i.
#[local] Abbreviation sim_execution :=
  (execution sim_provider (λ _, sim_provider) sim_libraries sim_config_required sim_status sim_conf
    (λ _ _, False)).
#[local] Abbreviation due := (mkInformerState (Some 0) 1 0 ∅).

(** The informer's call fails and is retried; then a periodic call succeeds. *)
Definition retry_and_tick : list label := [Tau; Retry Informed; Begin Periodic; Tau; Tau].

Lemma retried_once w i :
  sim_execution (sim_conc (Some "timeout" :: None :: w) 0 Calling i) retry_and_tick
    (sim_conc w 0 Calling i).
Proof.
  unfold retry_and_tick.
  eapply exec_step; [by eapply (c_advance _ _ _ _ _ _ _ Informed)|].
  eapply exec_step; [by eapply (c_advance _ _ _ _ _ _ _ Informed)|].
  eapply exec_step; [by eapply c_tick|].
  eapply exec_step; [by eapply (c_advance _ _ _ _ _ _ _ Periodic)|].
  eapply exec_step; [by eapply (c_advance _ _ _ _ _ _ _ Periodic)|]. apply exec_refl.
Qed.

Lemma retried_often n i :
  ∃ ls, sim_execution (sim_conc (in_turns n) 0 Calling i) ls (sim_conc [] 0 Calling i) ∧
    counted (Begin Informed) ls = 0 ∧ counted (Retry Informed) ls = Z.of_nat n.
Proof.
  induction n as [|n (ls & Hls & Hb & Hr)]; [exists []; split; [apply exec_refl|done]|].
  pose proof (retried_once (in_turns n) i) as Hone.
  exists (retry_and_tick ++ ls). split; [by eapply exec_trans|].
  unfold retry_and_tick. cbn [app]. rewrite !counted_cons. repeat case_decide; done || lia.
Qed.

(** ** Properties *)

(** The runner of Runner.v, where a run of the provider with all its
    retries is one step, refines the interleaving of the goroutines: whatever
    state it reaches from a start is reached here, by an execution in which
    the runs follow one another and a run is a finite number of calls, and
    that needs nothing to happen outside of the program. *)
Theorem runs_are_interleavings {W} RetryNotify `{!RetryLaws RetryNotify} (raw : ProviderFunc W) cleanup
    L C status cfg env st x :
  reachable RetryNotify raw cleanup L C status cfg st x →
  ∃ time ph st', start RetryNotify raw status cfg st ph st' ∧
    ∃ ls, execution raw cleanup L C status cfg env
      (mkConc time ph st' Selecting Selecting idle) ls (embed x).
Proof.
  induction 1 as [time ph st' Hst|x y _ (time & ph & st' & Hst & ls & Hls) Hstep].
  - exists time, ph, st'. split; [done|]. exists []. apply exec_refl.
  - exists time, ph, st'. split; [done|].
    destruct (step_executes RetryNotify raw cleanup L C status cfg env x y Hstep) as [ls' Hls'].
    exists (ls ++ ls'). by eapply exec_trans.
Qed.

Lemma runs_are_interleavings_witness :
  let st := mkRunner [None; Some "timeout"; None] (Some false) (mkBackOff 1 1 0) in
  ∃ time ph st', start sim_retry sim_provider sim_status sim_conf st ph st' ∧
    ∃ ls, execution sim_provider (λ _, sim_provider) sim_libraries sim_config_required sim_status
      sim_conf (λ _ _, False) (mkConc time ph st' Selecting Selecting idle) ls
      (embed (mkRunning 5 Serving (mkRunner [] (Some true) (mkBackOff 1 1 1)) idle)).
Proof.
  intros st. apply (runs_are_interleavings sim_retry sim_provider (λ _, sim_provider) sim_libraries
    sim_config_required sim_status sim_conf (λ _ _, False) st).
  set (x := mkRunning 5 Serving (mkRunner [Some "timeout"; None] (Some true) (mkBackOff 1 1 0)) idle).
  apply (reach_step _ _ _ _ _ _ _ _ x).
  - apply reach_start. eexists (Ret true), (mkRunner [Some "timeout"; None] (Some false) (mkBackOff 1 1 0)).
    split; [|reflexivity]. eexists (Ret tt), true. split; [|reflexivity].
    eapply sim_done. reflexivity.
  - refine (step_tick sim_retry sim_provider (λ _, sim_provider) sim_libraries sim_config_required
      sim_status sim_conf x (Ret true) (mkRunner [] (Some false) (mkBackOff 1 1 1)) eq_refl eq_refl _).
    eexists (Ret tt), true. split; [|reflexivity].
    eapply sim_again; [reflexivity|reflexivity|]. eapply sim_done. reflexivity.
Defined.

(** C16: with a retry limit, the retries of both goroutines together, in
    any interleaving, are at most the limit for every call that has begun, and
    what was left of the budget at the start: the provider is never called in
    a loop without end by the wrapper alone. *)
Theorem retries_within_budget {W} (raw : ProviderFunc W) cleanup L C status cfg env x ls y :
  execution raw cleanup L C status cfg env x ls y → 0 ≤ RetryLimit (policy (shared x)) →
  retries ls ≤ left_over (policy (shared x)) + RetryLimit (policy (shared x)) * begins ls ∧
  RetryLimit (policy (shared y)) = RetryLimit (policy (shared x)).
Proof.
  intros Hx H0. destruct (execution_spends raw cleanup L C status cfg env x ls y Hx H0) as [Hl Hr].
  split; [|done]. unfold left_over in *. lia.
Qed.

Lemma retries_within_budget_witness :
  ∃ ls, sim_execution (sim_conc (in_turns 3) 0 Calling idle) ls (sim_conc [] 0 Calling idle) ∧
    counted (Retry Informed) ls = 3 ∧ retries ls ≤ 1 + 1 * begins ls.
Proof.
  destruct (retried_often 3 idle) as (ls & Hls & _ & Hr). exists ls. split; [exact Hls|].
  split; [exact Hr|].
  apply (retries_within_budget _ _ _ _ _ _ _ _ _ _ Hls). discriminate.
Defined.

(** The goroutines share one retry budget, which each call resets.
    With a limit of one retry, one call of the informer's goroutine can be
    retried any number of times, because the periodic calls that begin
    meanwhile give it its budget back; and a call can fail without a retry,
    because the other goroutine has used up the budget. *)
Theorem retry_budget_shared :
  (∀ n, ∃ ls y, sim_execution (sim_conc (in_turns n) 0 Selecting due) (Begin Informed :: ls) y ∧
     counted (Begin Informed) ls = 0 ∧ counted (Retry Informed) ls = Z.of_nat n ∧
     main y = Serving ∧ informed y = Calling) ∧
  ∃ ls y, sim_execution (sim_conc [Some "e1"; Some "e2"] 0 Selecting due) (Begin Informed :: ls) y ∧
    counted (Retry Informed) ls = 0 ∧ informed y = Reporting (Fail (false, "e2")).
Proof.
  split.
  - intros n. destruct (retried_often n due) as (ls & Hls & Hb & Hr). exists ls. eexists.
    split_and!; [|done|done| |].
    + eapply exec_step; [by eapply (c_timer _ _ _ _ _ _ _ _ 0)|exact Hls].
    + done.
    + done.
  - exists [Begin Periodic; Tau; Retry Periodic; Tau; Tau]. eexists. split_and!.
    + eapply exec_step; [by eapply (c_timer _ _ _ _ _ _ _ _ 0)|].
      eapply exec_step; [by eapply c_tick|].
      eapply exec_step; [by eapply (c_advance _ _ _ _ _ _ _ Periodic)|].
      eapply exec_step; [by eapply (c_advance _ _ _ _ _ _ _ Periodic)|].
      eapply exec_step; [by eapply (c_advance _ _ _ _ _ _ _ Informed)|].
      eapply exec_step; [by eapply (c_advance _ _ _ _ _ _ _ Informed)|]. apply exec_refl.
    + reflexivity.
    + reflexivity.
Qed.
