(* ===== verification/Conjur.v ===== *)
(** * The Conjur retriever (pkg/secrets/clients/conjur)

    conjur_secrets_retriever.go and conjur_client_wrapper.go; the access tokens
    are in Authenticator.v. The Conjur API client (conjur-api-go) is the record [conjur_api]; its paginated listing has its
    documented behaviour as [serves]; [recordedError] is the text of the error
    that [log.RecordedError] makes of a message. What [Retrieve] returns is the
    retriever parameter of the two providers. *)

From S2P Require Import Prelude GoString GoBytes.
From Stdlib Require Import Ascii.
Open Scope Z_scope.

Definition CSPFK010E : string := "CSPFK010E Failed to authenticate".
Definition CSPFK033E : string := "CSPFK033E Failed to create DAP/Conjur client".
Definition CSPFK034E (reason : string) : string :=
  "CSPFK034E Failed to retrieve DAP/Conjur secrets. Reason: " +:+ reason.
Definition CSPFK092E : string := "CSPFK092E No secrets were successfully retrieved".
Definition fetchAllMaxSecrets : nat := 500.

(** ** The Conjur API *)

(** One entry of a V2 batch response. *)
Record v2_secret := mkV2 { ID : string; V2Value : string; Status : Z }.

(** [V2() != nil], the two batch calls, and one page of the listing of
    variables from an offset: the ["id"] of every resource, [None] when it is
    not a string. *)
Record conjur_api := mkApi {
  v2_client : bool;
  BatchRetrieveSecrets : list string → string + list v2_secret;
  v1_batch : list string → string + gmap string bytes;
  Resources : nat → nat → string + list (option string)
}.

(** ** Variable identifiers *)
Definition normaliseVariableId (fullVariableId : string) : string :=
  match SplitN fullVariableId ":" 3 with
  | [_; _; id] => id
  | _ => fullVariableId
  end.

Definition normalizeVariableIdForV2 (fullVariableId : string) : string :=
  match SplitN fullVariableId ":" 3 with
  | [_; _; id] => id
  | _ => fullVariableId
  end.

(** The loop that renames the identifiers of the fetched secrets. *)
Definition normalise_all (o : range_order) (byFullIDs : gmap string bytes) : gmap string bytes :=
  foldl (λ m kv, <[normaliseVariableId kv.1 := kv.2]> m) ∅ (range o byFullIDs).

(** ** The client wrapper *)
Section wrapper.
Context (recordedError : string → string) (api : conjur_api).

Definition isV2NotAvailableError (errMsg : string) : bool :=
  existsb (λ indicator, Contains errMsg indicator) ["not supported in"; "404"].

(** The map from normalized to original identifiers; a later identifier
    replaces an earlier one. *)
Definition original_ids (variableIDs : list string) : gmap string string :=
  foldl (λ m id, <[normalizeVariableIdForV2 id := id]> m) ∅ variableIDs.

Definition original_id (ids : gmap string string) (s : v2_secret) : string :=
  if decide (ids !!! ID s = "") then ID s else ids !!! ID s.

(** The successful entries of a response; the others are only logged. *)
Definition collect_v2 (ids : gmap string string) (resp : list v2_secret) : gmap string bytes :=
  foldl (λ m s, if decide (Status s = 200) then <[original_id ids s := Some (V2Value s)]> m else m)
    ∅ resp.

Definition retrieveBatchSecretsV2 (variableIDs : list string) : string + gmap string bytes :=
  if negb (v2_client api) then inl "V2 client not available"
  else match BatchRetrieveSecrets api (normalizeVariableIdForV2 <$> variableIDs) with
       | inl err => inl err
       | inr resp =>
           let secrets := collect_v2 (original_ids variableIDs) resp in
           if decide (secrets = ∅) then inl CSPFK092E else inr secrets
       end.

(** The state is [useV2]. *)
Definition RetrieveBatchSecretsSafe (variableIDs : list string) :
    M bool string (gmap string bytes) := λ useV2,
  let v1 (useV2 : bool) :=
    (match v1_batch api variableIDs with inl err => Fail err | inr m => Ret m end, useV2) in
  if useV2 then
    match retrieveBatchSecretsV2 variableIDs with
    | inl err => if isV2NotAvailableError err then v1 false else (Fail err, useV2)
    | inr secrets => (Ret secrets, useV2)
    end
  else v1 useV2.

(** ** The retriever *)
Definition retrieveConjurSecrets (o : range_order) (variableIDs : list string) :
    M bool string (gmap string bytes) :=
  if decide (variableIDs = []) then throw (recordedError (CSPFK034E "no variables to retrieve"))
  else byFullIDs ← RetrieveBatchSecretsSafe variableIDs; mret (normalise_all o byFullIDs).

(** The pages of variables from [offset] on, after [paths]; [None] when the
    fuel runs out. A resource whose identifier is not a string makes the type
    assertion panic. *)
Fixpoint list_pages (fuel offset : nat) (paths : list string) : option (outcome string (list string)) :=
  match fuel with
  | O => None
  | S fuel' =>
      match Resources api 100 offset with
      | inl err => Some (Fail err)
      | inr resources =>
          match mapM id resources with
          | None => Some Panic
          | Some ids =>
              let paths' := paths ++ ids in
              if (length resources <? 100)%nat then Some (Ret paths')
              else if (fetchAllMaxSecrets <=? length paths')%nat then Some (Ret paths')
              else list_pages fuel' (offset + 100) paths'
          end
      end
  end.

(** Five pages are enough: [list_pages_fuel]. *)
Definition allResourcePaths : outcome string (list string) :=
  default Panic (list_pages 5 0 []).

Definition retrieveConjurSecretsAll (o : range_order) : M bool string (gmap string bytes) :=
  paths ← lift_outcome allResourcePaths;
  if decide (paths = []) then throw (recordedError (CSPFK034E "no variables to retrieve"))
  else byFullIDs ← RetrieveBatchSecretsSafe paths; mret (normalise_all o byFullIDs).
End wrapper.

(** [Retrieve]: the access token (or an error), the client made from it (or an
    error), and the fetch. A new client starts with the V2 API. *)
Definition Retrieve (recordedError : string → string) (GetAccessToken : option string) (NewConjurClient : string → option conjur_api)
    (o : range_order) (variableIDs : list string) : outcome string (gmap string bytes) :=
  match GetAccessToken with
  | None => Fail (recordedError CSPFK010E)
  | Some accessTokenData =>
      match NewConjurClient accessTokenData with
      | None => Fail (recordedError CSPFK033E)
      | Some conjurClient =>
          let fetchAll := bool_decide (variableIDs = ["*"]) in
          (if fetchAll then retrieveConjurSecretsAll recordedError conjurClient o true
           else retrieveConjurSecrets recordedError conjurClient o variableIDs true).1
      end
  end.

(** ** Lemmas *)

(** Listing in pages from a fixed collection. *)
Definition serves (api : conjur_api) (vars : list string) : Prop :=
  ∀ limit offset, Resources api limit offset = inr (Some <$> take limit (drop offset vars)).

Lemma mapM_id_Some {A} (l : list (option A)) k : mapM id l = Some k → l = Some <$> k.
Proof.
  intros Hk%mapM_Some. induction Hk as [|o a l k Ho _ IH]; [done|]. cbn. by rewrite <- IH, <- Ho.
Qed.

Lemma mapM_id_fmap {A} (k : list A) : mapM id (Some <$> k) = Some k.
Proof. induction k as [|a k IH]; [done|]. cbn. by rewrite IH. Qed.

(** With [fuel] pages left, 500 identifiers are not far. *)
Lemma list_pages_fuel api fuel offset paths :
  (1 ≤ fuel)%nat → (500 ≤ length paths + 100 * fuel)%nat →
  list_pages api fuel offset paths ≠ None ∧
  ∀ more, list_pages api (fuel + more) offset paths = list_pages api fuel offset paths.
Proof.
  revert offset paths. induction fuel as [|fuel IH]; intros offset paths H1 H500; [lia|].
  cbn [list_pages Nat.add]. destruct (Resources api 100 offset) as [e|rs]; [done|].
  destruct (mapM id rs) as [ids|] eqn:Hids; [|done].
  apply mapM_id_Some in Hids as ->. rewrite length_fmap.
  destruct (Nat.ltb_spec (length ids) 100); [done|].
  destruct (Nat.leb_spec fetchAllMaxSecrets (length (paths ++ ids))) as [|Hlt]; [done|].
  rewrite length_app in *. unfold fetchAllMaxSecrets in Hlt.
  apply IH; rewrite ?length_app; lia.
Qed.

Lemma list_pages_serves api vars fuel offset :
  serves api vars → (1 ≤ fuel)%nat → (500 ≤ offset + 100 * fuel)%nat → (offset < 500)%nat →
  (∃ pages, offset = 100 * pages)%nat → (offset ≤ length vars)%nat →
  list_pages api fuel offset (take offset vars) = Some (Ret (take 500 vars)).
Proof.
  intros Hs. revert offset. induction fuel as [|fuel IH]; intros offset H1 H500 Hlt [pages Hp] Hle; [lia|].
  cbn [list_pages]. rewrite Hs, mapM_id_fmap, length_fmap, length_take, length_drop.
  assert (take offset vars ++ take 100 (drop offset vars) = take (offset + 100) vars) as ->
    by (by rewrite take_take_drop).
  destruct (Nat.ltb_spec (100 `min` (length vars - offset)) 100) as [Hlast|Hfull].
  - do 2 f_equal. by rewrite !take_ge by lia.
  - rewrite length_take. unfold fetchAllMaxSecrets.
    destruct (Nat.leb_spec 500 ((offset + 100) `min` length vars)).
    + do 3 f_equal. lia.
    + apply IH; try lia. exists (S pages). lia.
Qed.

(** The identifiers are those of the pages, also when they are renamed. *)
Lemma normalise_all_lookup o m k b :
  (∀ i j, is_Some (m !! i) → is_Some (m !! j) → normaliseVariableId i = normaliseVariableId j → i = j) →
  normalise_all o m !! k = Some b ↔ ∃ i, m !! i = Some b ∧ normaliseVariableId i = k.
Proof.
  intros Hinj. unfold normalise_all.
  rewrite (foldl_insert_lookup (λ kv, normaliseVariableId kv.1) snd).
  - rewrite lookup_empty. split.
    + intros [([i b'] & Hi%elem_of_range & Hk & Hb)|[_ ?]]; [|done]. cbn in *. subst. by exists i.
    + intros (i & Hi & Hk). left. exists (i, b). by rewrite elem_of_range.
  - change (NoDup (normaliseVariableId ∘ fst <$> range o m)). rewrite list_fmap_compose.
    apply NoDup_fmap_2_strong; [|apply range_NoDup_keys].
    intros i j Hi%elem_of_range_keys Hj%elem_of_range_keys. by apply Hinj.
Qed.

Lemma original_ids_lookup ids k i :
  NoDup (normalizeVariableIdForV2 <$> ids) →
  original_ids ids !! k = Some i ↔ i ∈ ids ∧ normalizeVariableIdForV2 i = k.
Proof.
  intros Hnd. unfold original_ids. rewrite (foldl_insert_lookup normalizeVariableIdForV2 id) by done.
  rewrite lookup_empty. unfold id. naive_solver.
Qed.

(** A response for [ids]: every entry answers one of them, none twice. *)
Definition answers (ids : list string) (resp : list v2_secret) : Prop :=
  NoDup (ID <$> resp) ∧ ∀ s, s ∈ resp → ID s ∈ normalizeVariableIdForV2 <$> ids.

(** The identifier a response entry answers. *)
Lemma original_id_spec ids s :
  NoDup (normalizeVariableIdForV2 <$> ids) → "" ∉ ids →
  ID s ∈ normalizeVariableIdForV2 <$> ids →
  original_id (original_ids ids) s ∈ ids ∧
  normalizeVariableIdForV2 (original_id (original_ids ids) s) = ID s.
Proof.
  intros Hnd Hne (i & Hi & Hin)%list_elem_of_fmap. unfold original_id.
  assert (original_ids ids !!! ID s = i) as ->.
  { rewrite lookup_total_alt. by rewrite (proj2 (original_ids_lookup ids (ID s) i Hnd)). }
  rewrite decide_False by (intros ->; done). by split.
Qed.

Lemma collect_v2_lookup ids resp i b :
  NoDup (normalizeVariableIdForV2 <$> ids) → "" ∉ ids → answers ids resp →
  collect_v2 (original_ids ids) resp !! i = Some b ↔
  i ∈ ids ∧ ∃ s, s ∈ resp ∧ Status s = 200 ∧ ID s = normalizeVariableIdForV2 i ∧
    b = Some (V2Value s).
Proof.
  intros Hnd Hne [Hresp Hin]. unfold collect_v2.
  assert (∀ m, foldl (λ m s, if decide (Status s = 200)
      then <[original_id (original_ids ids) s := Some (V2Value s)]> m else m) m resp =
    foldl (λ m s, <[original_id (original_ids ids) s := Some (V2Value s)]> m) m
      (filter (λ s, Status s = 200) resp)) as ->.
  { clear Hresp Hin. induction resp as [|s resp IH]; intros m; [done|].
    cbn [foldl]. rewrite IH, filter_cons. by case_decide. }
  rewrite (foldl_insert_lookup (original_id (original_ids ids)) (λ s, Some (V2Value s))).
  - rewrite lookup_empty. split.
    + intros [(s & [Hst Hs]%list_elem_of_filter & <- & <-)|[_ ?]]; [|done].
      destruct (original_id_spec ids s Hnd Hne (Hin s Hs)) as [H1 H2].
      split; [done|]. by exists s.
    + intros (Hi & s & Hs & Hst & Hid & ->). left. exists s. rewrite list_elem_of_filter.
      split_and!; [done..| |done].
      destruct (original_id_spec ids s Hnd Hne (Hin s Hs)) as [H1 H2].
      rewrite Hid in H2. by eapply (NoDup_fmap_inj_on normalizeVariableIdForV2 ids).
  - apply (NoDup_fmap_2_strong _ (filter (λ s, Status s = 200) resp)).
    + intros s s' [_ Hs]%list_elem_of_filter [_ Hs']%list_elem_of_filter Heq.
      destruct (original_id_spec ids s Hnd Hne (Hin s Hs)) as [_ H1].
      destruct (original_id_spec ids s' Hnd Hne (Hin s' Hs')) as [_ H2].
      apply (NoDup_fmap_inj_on ID resp s s' Hresp Hs Hs'). congruence.
    + apply NoDup_filter. by eapply NoDup_fmap_1.
Qed.

Lemma normalize_same id : normalizeVariableIdForV2 id = normaliseVariableId id.
Proof. done. Qed.

Lemma original_id_inj ids i j :
  NoDup (normaliseVariableId <$> ids) → i ∈ ids → j ∈ ids →
  normaliseVariableId i = normaliseVariableId j → i = j.
Proof. intros Hnd Hi Hj. by eapply NoDup_fmap_inj_on. Qed.

(** The variables of a response that was successful for them. *)
Definition answered (ids : list string) (resp : list v2_secret) (k : string) (b : bytes) : Prop :=
  k ∈ normaliseVariableId <$> ids ∧
  ∃ s, s ∈ resp ∧ Status s = 200 ∧ ID s = k ∧ b = Some (V2Value s).

Lemma v2_batch_lookup o ids resp k b :
  NoDup (normaliseVariableId <$> ids) → "" ∉ ids → answers ids resp →
  normalise_all o (collect_v2 (original_ids ids) resp) !! k = Some b ↔ answered ids resp k b.
Proof.
  intros Hnd Hne Ha. rewrite normalise_all_lookup.
  - setoid_rewrite (collect_v2_lookup ids resp); [|done..]. unfold answered. split.
    + intros (i & [Hi (s & Hs & Hst & Hid & ->)] & <-). split; [by apply list_elem_of_fmap_2|].
      by exists s.
    + intros [(i & -> & Hi)%list_elem_of_fmap (s & Hs & Hst & Hid & ->)].
      exists i. split; [|done]. split; [done|]. by exists s.
  - intros i j [bi Hi] [bj Hj]. apply (collect_v2_lookup ids resp) in Hi as [Hi _]; [|done..].
    apply (collect_v2_lookup ids resp) in Hj as [Hj _]; [|done..]. by apply (original_id_inj ids).
Qed.

Lemma collect_v2_empty ids resp :
  NoDup (normaliseVariableId <$> ids) → "" ∉ ids → answers ids resp →
  collect_v2 (original_ids ids) resp = ∅ ↔ ∀ s, s ∈ resp → Status s ≠ 200.
Proof.
  intros Hnd Hne Ha. split.
  - intros He s Hs Hst. 
    destruct (proj1 (list_elem_of_fmap _ _ _) (proj2 Ha s Hs)) as (i & Hid & Hi).
    assert (collect_v2 (original_ids ids) resp !! i = Some (Some (V2Value s))) as Hl.
    { apply (collect_v2_lookup ids resp); [done..|]. split; [done|]. by exists s. }
    by rewrite He, lookup_empty in Hl.
  - intros Hall. apply map_eq. intros i. rewrite lookup_empty.
    destruct (collect_v2 (original_ids ids) resp !! i) as [b|] eqn:Hl; [|done].
    apply (collect_v2_lookup ids resp) in Hl as (_ & s & Hs & Hst & _); [|done..].
    by destruct (Hall s Hs).
Qed.

(** ** A server with a store of variables *)
Definition v2_answer (store : gmap string string) (id : string) : v2_secret :=
  mkV2 id (store !!! id) (if decide (is_Some (store !! id)) then 200 else 404).
Definition full_id (account id : string) : string := account +:+ ":variable:" +:+ id.

(** The server has all of the variables, or some of them. *)
Definition all_present (store : gmap string string) (ids : list string) : Prop :=
  Forall (λ i, is_Some (store !! i)) ids.
Definition some_present (store : gmap string string) (ids : list string) : Prop :=
  Exists (λ i, is_Some (store !! i)) ids.
#[export] Instance all_present_dec store ids : Decision (all_present store ids).
Proof. unfold all_present. apply _. Defined.
#[export] Instance some_present_dec store ids : Decision (some_present store ids).
Proof. unfold some_present. apply _. Defined.

(** Identifiers without an account. *)
Definition plain (id : string) : Prop := no_byte ":"%char id ∧ id ≠ "".

(** V2 answers per identifier; V1 answers with full identifiers and the values
    of all variables, or with an error when one of them is missing. *)
Definition serves_v2 (api : conjur_api) (store : gmap string string) : Prop :=
  v2_client api = true ∧ ∀ ids, BatchRetrieveSecrets api ids = inr (v2_answer store <$> ids).
Definition serves_v1 (api : conjur_api) (account : string) (store : gmap string string) : Prop :=
  ∀ ids, Forall plain ids →
    if decide (all_present store ids)
    then v1_batch api ids = inr (list_to_map ((λ i, (full_id account i, Some (store !!! i))) <$> ids))
    else ∃ err, v1_batch api ids = inl err.
Definition lacks_v2 (api : conjur_api) : Prop :=
  v2_client api = true ∧
  ∀ ids, ∃ err, BatchRetrieveSecrets api ids = inl err ∧ isV2NotAvailableError err = true.

Lemma normalise_plain id : no_byte ":"%char id → normaliseVariableId id = id.
Proof. intros Hi. unfold normaliseVariableId. by rewrite SplitN_no_byte. Qed.

Lemma normalise_full account id : no_byte ":"%char account → normaliseVariableId (full_id account id) = id.
Proof.
  intros Ha. unfold normaliseVariableId, full_id.
  change (account +:+ ":variable:" +:+ id) with
    (account +:+ String ":" ("variable" +:+ String ":" id)).
  rewrite SplitN_3_sep; [done|done|]. by repeat constructor.
Qed.

Lemma normalise_plain_ids ids : Forall plain ids → normaliseVariableId <$> ids = ids.
Proof. induction 1 as [|i ids [Hi _] _ IH]; [done|]. cbn. by rewrite normalise_plain, IH. Qed.

Lemma answers_plain store ids : Forall plain ids → NoDup ids → answers ids (v2_answer store <$> ids).
Proof.
  intros Hp Hnd. unfold answers. rewrite <- list_fmap_compose.
  assert (ID ∘ v2_answer store <$> ids = ids) as -> by apply list_fmap_id.
  split; [done|]. intros s (i & -> & Hi)%list_elem_of_fmap.
  change (i ∈ normaliseVariableId <$> ids). by rewrite normalise_plain_ids.
Qed.

(** The values of the store for [ids]. *)
Definition store_values (store : gmap string string) (ids : list string) (m : gmap string bytes) : Prop :=
  ∀ k b, m !! k = Some b ↔ k ∈ ids ∧ ∃ v, store !! k = Some v ∧ b = Some v.

Lemma v2_answer_ok store i : Status (v2_answer store i) = 200 ↔ is_Some (store !! i).
Proof. cbn. by case_decide. Qed.

(** A V2 server answers with the values that it has. *)
Lemma v2_values store ids o :
  Forall plain ids → NoDup ids →
  store_values store ids
    (normalise_all o (collect_v2 (original_ids ids) (v2_answer store <$> ids))).
Proof.
  intros Hp Hnd k b. rewrite v2_batch_lookup; [| |  |by apply answers_plain].
  - unfold answered. rewrite normalise_plain_ids by done. split.
    + intros [Hk (s & (i & -> & Hi)%list_elem_of_fmap & [v Hv]%v2_answer_ok & <- & ->)].
      split; [done|]. exists v. cbn. by rewrite (lookup_total_correct _ _ _ Hv).
    + intros [Hk (v & Hv & ->)]. split; [done|]. exists (v2_answer store k).
      split_and!; [by apply list_elem_of_fmap_2|by apply v2_answer_ok; exists v|done|].
      cbn. by rewrite (lookup_total_correct _ _ _ Hv).
  - by rewrite normalise_plain_ids.
  - intros Hin. rewrite Forall_forall in Hp. by destruct (Hp _ Hin).
Qed.

Lemma v1_values account store ids o :
  no_byte ":"%char account → NoDup ids → Forall (λ i, is_Some (store !! i)) ids →
  store_values store ids
    (normalise_all o (list_to_map ((λ i, (full_id account i, Some (store !!! i))) <$> ids))).
Proof.
  intros Ha Hnd Hall. set (m := list_to_map _).
  assert (∀ i b, m !! i = Some b ↔ ∃ j, j ∈ ids ∧ i = full_id account j ∧ b = Some (store !!! j)) as Hm.
  { intros i b. unfold m. rewrite <- elem_of_list_to_map.
    - rewrite list_elem_of_fmap. naive_solver.
    - rewrite <- list_fmap_compose. apply (NoDup_fmap_2_strong (full_id account) ids); [|done].
      intros x y _ _ Heq. rewrite <- (normalise_full account x Ha), <- (normalise_full account y Ha).
      by f_equal. }
  intros k b. rewrite normalise_all_lookup.
  - setoid_rewrite Hm. rewrite Forall_forall in Hall. split.
    + intros (i & (j & Hj & -> & ->) & <-). rewrite normalise_full by done.
      split; [done|]. destruct (Hall j Hj) as [v Hv]. exists v.
      by rewrite (lookup_total_correct _ _ _ Hv).
    + intros [Hk (v & Hv & ->)]. exists (full_id account k). split; [|by apply normalise_full].
      exists k. by rewrite (lookup_total_correct _ _ _ Hv).
  - intros i j [bi (x & _ & -> & _)%Hm] [bj (y & _ & -> & _)%Hm].
    rewrite !normalise_full by done. by intros ->.
Qed.

(** ** Properties *)

(** C31: listing all variables always ends, after at most five requests,
    whatever the server answers; from a server that pages through a fixed
    collection it gives the collection, cut at 500 variables. *)
Theorem fetch_all_listing api :
  (∀ more, list_pages api (5 + more) 0 [] = Some (allResourcePaths api)) ∧
  ∀ vars, serves api vars → allResourcePaths api = Ret (take 500 vars).
Proof.
  split.
  - intros more. destruct (list_pages_fuel api 5 0 []) as [Hn Hm]; [cbn; lia..|].
    rewrite Hm. unfold allResourcePaths. by destruct (list_pages api 5 0 []).
  - intros vars Hs. unfold allResourcePaths.
    pose proof (list_pages_serves api vars 5 0 Hs) as Hl. rewrite take_0 in Hl.
    rewrite Hl; [done|lia..| |lia]. by exists 0%nat.
Qed.

(** C17: over the V2 API the retriever asks for the variables of the
    identifiers, with or without "account:variable:", and returns exactly the
    values of the entries with status 200, each under its variable, in every
    iteration order; when no entry has status 200 it fails with CSPFK092E, and
    it does not fall back to V1 in either case. *)
Theorem v2_batch_spec recordedError api o ids resp :
  ids ≠ [] → NoDup (normaliseVariableId <$> ids) → "" ∉ ids →
  v2_client api = true →
  BatchRetrieveSecrets api (normaliseVariableId <$> ids) = inr resp → answers ids resp →
  match retrieveConjurSecrets recordedError api o ids true with
  | (Ret m, useV2) => useV2 = true ∧ (∃ s, s ∈ resp ∧ Status s = 200) ∧
      ∀ k b, m !! k = Some b ↔ answered ids resp k b
  | (Fail e, useV2) => useV2 = true ∧ e = CSPFK092E ∧ ∀ s, s ∈ resp → Status s ≠ 200
  | (Panic, _) => False
  end.
Proof.
  intros Hids Hnd Hne Hv2 Hb Ha. unfold retrieveConjurSecrets. rewrite decide_False by done.
  unfold mbind, M_bind, RetrieveBatchSecretsSafe, retrieveBatchSecretsV2. rewrite Hv2. cbn [negb].
  change (normalizeVariableIdForV2 <$> ids) with (normaliseVariableId <$> ids). rewrite Hb.
  destruct (decide (collect_v2 _ _ = ∅)) as [He|He].
  - split_and!; [done|done|]. by apply (collect_v2_empty ids).
  - cbn. split_and!; [done| |intros k b; by apply v2_batch_lookup].
    destruct (decide (Exists (λ s, Status s = 200) resp)) as [Hex|Hno]; [by apply Exists_exists in Hex|].
    destruct He. apply (collect_v2_empty ids); [done..|]. intros s Hs Hst. apply Hno, Exists_exists. by exists s.
Qed.

(** The answer of a V2 server, and of one without V2, to plain identifiers. *)
Lemma retrieve_over_v2 recordedError api store ids o :
  ids ≠ [] → Forall plain ids → NoDup ids → serves_v2 api store →
  retrieveConjurSecrets recordedError api o ids true =
    (if decide (some_present store ids)
     then Ret (normalise_all o (collect_v2 (original_ids ids) (v2_answer store <$> ids)))
     else Fail CSPFK092E, true).
Proof.
  intros Hne Hp Hnd [Hc H2]. unfold retrieveConjurSecrets. rewrite decide_False by done.
  unfold mbind, M_bind, RetrieveBatchSecretsSafe, retrieveBatchSecretsV2. rewrite Hc. cbn [negb].
  change (normalizeVariableIdForV2 <$> ids) with (normaliseVariableId <$> ids).
  rewrite normalise_plain_ids, H2 by done.
  assert (collect_v2 (original_ids ids) (v2_answer store <$> ids) = ∅ ↔ ¬ some_present store ids) as He.
  { rewrite collect_v2_empty; [| | |by apply answers_plain].
    - unfold some_present. rewrite Exists_exists. split.
      + intros Hno (i & Hi & Hs). by apply (Hno (v2_answer store i)); [apply list_elem_of_fmap_2|apply v2_answer_ok].
      + intros Hno s (i & -> & Hi)%list_elem_of_fmap Hs%v2_answer_ok. apply Hno. by exists i.
    - by rewrite normalise_plain_ids.
    - intros Hin. rewrite Forall_forall in Hp. by destruct (Hp _ Hin). }
  destruct (decide (some_present store ids)) as [Hs|Hs].
  - rewrite decide_False; [done|]. by intros [=Hno%He].
  - rewrite decide_True; [done|by apply He].
Qed.

Lemma retrieve_over_v1 recordedError api account store ids o :
  ids ≠ [] → Forall plain ids → lacks_v2 api → serves_v1 api account store →
  if decide (all_present store ids)
  then retrieveConjurSecrets recordedError api o ids true =
    (Ret (normalise_all o (list_to_map ((λ i, (full_id account i, Some (store !!! i))) <$> ids))), false)
  else ∃ err, retrieveConjurSecrets recordedError api o ids true = (Fail err, false).
Proof.
  intros Hne Hp [Hc H1] Hv1. unfold retrieveConjurSecrets. rewrite (decide_False (P := ids = [])) by done.
  unfold mbind, M_bind, RetrieveBatchSecretsSafe, retrieveBatchSecretsV2. rewrite Hc. cbn [negb].
  destruct (H1 (normalizeVariableIdForV2 <$> ids)) as (err & -> & ->).
  specialize (Hv1 ids Hp). destruct (decide (all_present store ids)); [by rewrite Hv1|].
  destruct Hv1 as [err' ->]. by exists err'.
Qed.

(** C22: where the two versions of the API are interchangeable, and where they
    are not. For variables named without an account, the retriever asks a
    server with V2 and one whose V2 call reports that it is not available, in
    which case it falls back to V1 and uses V1 from then on. When the server
    has all of the variables, both give the same map, their values and nothing
    else. When one is missing, V1 fails, and V2 gives the values of those that
    are there, or fails with CSPFK092E when there are none
    ([k8s_deletion_depends_on_api] shows what comes of it). *)
Theorem api_versions_agree recordedError api1 api2 account store ids o o' :
  ids ≠ [] → Forall plain ids → NoDup ids → no_byte ":"%char account →
  serves_v2 api2 store → lacks_v2 api1 → serves_v1 api1 account store →
  let over_v2 := retrieveConjurSecrets recordedError api2 o ids true in
  let over_v1 := retrieveConjurSecrets recordedError api1 o' ids true in
  if decide (all_present store ids)
  then ∃ m, over_v2 = (Ret m, true) ∧ over_v1 = (Ret m, false) ∧ store_values store ids m
  else (∃ err, over_v1 = (Fail err, false)) ∧
    if decide (some_present store ids)
    then ∃ m, over_v2 = (Ret m, true) ∧ store_values store ids m
    else over_v2 = (Fail CSPFK092E, true).
Proof.
  intros Hne Hp Hnd Ha H2 Hno Hv1 over_v2 over_v1.
  pose proof (retrieve_over_v2 recordedError api2 store ids o Hne Hp Hnd H2) as Hr2. fold over_v2 in Hr2.
  pose proof (retrieve_over_v1 recordedError api1 account store ids o' Hne Hp Hno Hv1) as Hr1. fold over_v1 in Hr1.
  pose proof (v2_values store ids o Hp Hnd) as Hm2.
  destruct (decide (all_present store ids)) as [Hall|Hmiss].
  - pose proof (v1_values account store ids o' Ha Hnd Hall) as Hm1.
    rewrite decide_True in Hr2.
    + eexists. split; [exact Hr2|]. split; [|exact Hm2]. rewrite Hr1. f_equal. f_equal.
      apply map_eq. intros k. apply option_eq. intros b. by rewrite (Hm1 k b), (Hm2 k b).
    + destruct ids as [|i ids]; [done|]. apply Forall_cons in Hall as [Hi _]. by apply Exists_cons_hd.
  - split; [done|]. destruct (decide (some_present store ids)); [by eexists|done].
Qed.

(** ** A concrete server *)
Definition sim_api (v2 : bool) (store : gmap string string) (vars : list string) : conjur_api := {|
  v2_client := true;
  BatchRetrieveSecrets ids := if v2 then inr (v2_answer store <$> ids) else inl "404 Not Found";
  v1_batch ids :=
    if decide (Forall (λ i, is_Some (store !! normaliseVariableId i)) ids)
    then inr (list_to_map ((λ i, (full_id "acct" (normaliseVariableId i),
                                  Some (store !!! normaliseVariableId i))) <$> ids))
    else inl "404 Not Found";
  Resources limit offset := inr (Some <$> take limit (drop offset vars))
|}.

Definition sim_store : gmap string string := {["db/user" := "admin"; "db/pw" := "hunter2"]}.

Lemma v2_batch_spec_witness :
  ∃ m, retrieveConjurSecrets id (sim_api true sim_store []) canonical_order ["db/user"; "gone"] true =
    (Ret m, true) ∧ (m !! "db/user" = Some (Some "admin")) ∧ m !! "gone" = None.
Proof.
  assert (["db/user"; "gone"] ≠ []) as H1 by discriminate.
  assert (NoDup (normaliseVariableId <$> ["db/user"; "gone"])) as H2 by compute_done.
  assert ("" ∉ ["db/user"; "gone"]) as H3 by compute_done.
  assert (answers ["db/user"; "gone"] (v2_answer sim_store <$> ["db/user"; "gone"])) as H4.
  { split; [compute_done|]. intros s [->|[->|[]%elem_of_nil]%elem_of_cons]%elem_of_cons; compute_done. }
  pose proof (v2_batch_spec id (sim_api true sim_store []) canonical_order ["db/user"; "gone"]
    (v2_answer sim_store <$> ["db/user"; "gone"]) H1 H2 H3 eq_refl eq_refl H4) as Hs.
  destruct (retrieveConjurSecrets _ _ _ _ _) as [[m|e|] u].
  - destruct Hs as (-> & _ & Hm). exists m. split; [reflexivity|]. split.
    + apply Hm. split; [compute_done|]. exists (v2_answer sim_store "db/user").
      split_and!; [by left|reflexivity..].
    + apply eq_None_not_Some. intros [b Hb]. apply Hm in Hb as [_ (s & Hs & Hst & Hid & _)].
      apply elem_of_cons in Hs as [->|Hs]; [discriminate Hid|].
      apply list_elem_of_singleton in Hs as ->. discriminate Hst.
  - destruct Hs as (_ & _ & Hno). destruct (Hno (v2_answer sim_store "db/user")); [by left|reflexivity].
  - destruct Hs.
Defined.

(** The server without V2 meets the assumptions. *)
Lemma sim_lacks_v2 store vars : lacks_v2 (sim_api false store vars).
Proof. split; [reflexivity|]. intros ids. by exists "404 Not Found". Qed.

Lemma sim_serves_v1 store vars : serves_v1 (sim_api false store vars) "acct" store.
Proof.
  intros ids Hp. cbn. unfold all_present.
  assert (∀ i, i ∈ ids → normaliseVariableId i = i) as Hn.
  { intros i Hi. apply normalise_plain. rewrite Forall_forall in Hp. by apply Hp. }
  assert (Forall (λ i, is_Some (store !! normaliseVariableId i)) ids ↔
    Forall (λ i, is_Some (store !! i)) ids) as Hiff.
  { rewrite !Forall_forall. split; intros Hall i Hi; specialize (Hall i Hi); by rewrite Hn in *. }
  destruct (decide (Forall (λ i, is_Some (store !! i)) ids)) as [Hall|Hall].
  - rewrite decide_True by by apply Hiff. do 2 f_equal. apply list_fmap_ext.
    intros j i Hi%list_elem_of_lookup_2. by rewrite Hn.
  - rewrite decide_False by by rewrite Hiff. by eexists.
Qed.

Lemma api_versions_agree_witness :
  (∃ m, (retrieveConjurSecrets id (sim_api false sim_store []) reversed_order ["db/pw"] true) = (Ret m, false) ∧
    m !! "db/pw" = Some (Some "hunter2")) ∧
  ∃ m, (retrieveConjurSecrets id (sim_api true sim_store []) canonical_order ["db/pw"; "gone"] true) = (Ret m, true) ∧
    m !! "db/pw" = Some (Some "hunter2").
Proof.
  split.
  - pose proof (api_versions_agree id (sim_api false sim_store []) (sim_api true sim_store []) "acct" sim_store
      ["db/pw"] canonical_order reversed_order) as Hagree. cbv zeta in Hagree.
    rewrite decide_True in Hagree by (repeat constructor; by eexists).
    destruct Hagree as (m & _ & H1 & Hm).
    + discriminate.
    + repeat constructor; done.
    + compute_done.
    + repeat constructor; done.
    + split; [reflexivity|]. intros ids. reflexivity.
    + apply sim_lacks_v2.
    + apply sim_serves_v1.
    + exists m. split; [exact H1|]. apply Hm. split; [by left|]. exists "hunter2". split; reflexivity.
  - pose proof (api_versions_agree id (sim_api false sim_store []) (sim_api true sim_store []) "acct" sim_store
      ["db/pw"; "gone"] canonical_order reversed_order) as Hagree. cbv zeta in Hagree.
    rewrite decide_False in Hagree by (intros [_ [[? ?] _]%Forall_cons]%Forall_cons; done).
    rewrite decide_True in Hagree by (apply Exists_cons_hd; by eexists).
    destruct Hagree as (_ & m & H2 & Hm).
    + discriminate.
    + repeat constructor; done.
    + compute_done.
    + repeat constructor; done.
    + split; [reflexivity|]. intros ids. reflexivity.
    + apply sim_lacks_v2.
    + apply sim_serves_v1.
    + exists m. split; [exact H2|]. apply Hm. split; [by left|]. exists "hunter2". split; reflexivity.
Defined.

(** An identifier that itself contains two colons is cut like a full
    identifier: over V2 the provider asks for another variable, and stores its
    value under that variable's name. *)
Theorem colons_ask_for_another_variable :
  let store := {["db:prod:pw" := "right"; "pw" := "wrong"]} : gmap string string in
  let api := sim_api true store [] in
  (retrieveConjurSecrets id api canonical_order ["db:prod:pw"] true).1 = Ret {["pw" := Some "wrong"]}.
Proof. vm_compute. reflexivity. Qed.
