(* ===== verification/Authenticator.v ===== *)
(** * Access tokens (pkg/secrets/clients/conjur/conjur_authenticator.go)

    The choice of the authenticator, the access tokens of each kind with the
    buffers they live in, the client made from a token, and the retriever of
    the entry point, which puts these together. The clients of the
    authenticators and of the Conjur API are parameters; [AuthnClientLaws] says
    where the authenticator's client keeps its token. *)

From S2P Require Import Prelude GoString GoBytes Conjur.
From Stdlib Require Import Ascii.
Open Scope Z_scope.

(** ** The authenticator (conjur_authenticator.go) *)
Inductive authenticator := K8sAuthenticator | JwtAuthenticator
| IamAuthenticator (authnURL : string) | AzureAuthenticator (authnURL : string)
| GcpAuthenticator (authnURL : string).

Inductive authenticator_error := AuthnConfigError | UnsupportedAuthenticator (authnURL : string).

(** [NewConfigFromCustomEnv] of the authenticator client succeeds or not. *)
Definition NewAuthenticator (authn_config : bool) (customEnv : string → string) :
    authenticator_error + authenticator :=
  let authnURL := customEnv "CONJUR_AUTHN_URL" in
  if Contains authnURL "authn-k8s" || Contains authnURL "authn-jwt" then
    if negb authn_config then inl AuthnConfigError
    else if Contains authnURL "authn-k8s" then inr K8sAuthenticator else inr JwtAuthenticator
  else if Contains authnURL "authn-iam" then inr (IamAuthenticator authnURL)
  else if Contains authnURL "authn-azure" then inr (AzureAuthenticator authnURL)
  else if Contains authnURL "authn-gcp" then inr (GcpAuthenticator authnURL)
  else inl (UnsupportedAuthenticator authnURL).

(** The path of the URL that [url.Parse] finds, or an error. *)
Definition parseServiceID (url_path : string → option string) (authnURL authnType : string) :
    option string :=
  match url_path authnURL with
  | None => None
  | Some p =>
      match reverse (filter (λ s, s ≠ "") (Split p "/")) with
      | serviceID :: kind :: _ => if decide (kind = "authn-" +:+ authnType) then Some serviceID else None
      | _ => None
      end
  end.

(** ** Access tokens (conjur_authenticator.go)

    The authenticator client's token lives in a buffer of the heap, which
    [Read] returns without copying it; the calls of the client and of the
    Conjur API client are parameters. *)
Inductive token_error :=
| NoToken | NoAuthenticator | AuthenticateFailed | TokenUnreadable
| BadServiceID | NoClient (err : string) | ClientAuthenticateFailed (err : string).

Abbreviation heap := (gmap positive string).

Record authn_client := mkAuthnClient {
  NewAccessToken : bool;
  NewWithAccessToken : bool;
  AuthenticateWithContext : M heap string unit;
  Read : M heap string positive;
  Delete : heap → heap
}.

(** [make], [copy] and the loop that overwrites the buffer with zeros. *)
Fixpoint zeros (s : string) : string :=
  match s with EmptyString => EmptyString | String _ s' => String "000" (zeros s') end.
Definition copy_and_wipe (tokenData : positive) (h : heap) : positive * heap :=
  let result := fresh (dom h) in
  (result, <[tokenData := zeros (h !!! tokenData)]> (<[result := h !!! tokenData]> h)).

(** The deferred [Delete] comes after the copy. *)
Definition take_token (c : authn_client) (tokenData : positive) : M heap token_error positive :=
  λ h, let '(result, h') := copy_and_wipe tokenData h in (Ret result, Delete c h').

(** [GetAccessToken] of [K8sAuthenticator]. *)
Definition GetAccessToken (c : authn_client) : M heap token_error positive :=
  if negb (NewAccessToken c) then throw NoToken
  else if negb (NewWithAccessToken c) then throw NoAuthenticator
  else
    _ ← on_error (AuthenticateWithContext c) (λ _, throw AuthenticateFailed);
    tokenData ← on_error (Read c) (λ _, throw TokenUnreadable);
    take_token c tokenData.

(** That of [JwtAuthenticator], which has a body of its own. *)
Definition JwtGetAccessToken (c : authn_client) : M heap token_error positive :=
  if negb (NewAccessToken c) then throw NoToken
  else if negb (NewWithAccessToken c) then throw NoAuthenticator
  else
    _ ← on_error (AuthenticateWithContext c) (λ _, throw AuthenticateFailed);
    tokenData ← on_error (Read c) (λ _, throw TokenUnreadable);
    take_token c tokenData.

(** [conjurapi.Config], with what the program sets in it beside the constant
    credential storage. *)
Record client_config := mkClientConfig {
  ApplianceURL : string;
  Account : string;
  JWTHostID : string;
  SSLCert : string;
  AuthnType : string;
  ServiceID : string
}.

(** The constructors of the Conjur API client, with the token or the error of
    [InternalAuthenticate] on the client they make. *)
Record api_clients (Client : Type) := mkClients {
  NewClientFromAWSCredentials : client_config → string + Client;
  NewClientFromAzureCredentials : client_config → string + Client;
  NewClientFromGCPCredentials : client_config → string → string + Client;
  NewClient : client_config → string + Client;
  InternalAuthenticate : Client → string + string
}.
Arguments NewClientFromAWSCredentials {Client} _.
Arguments NewClientFromAzureCredentials {Client} _.
Arguments NewClientFromGCPCredentials {Client} _.
Arguments NewClient {Client} _.
Arguments InternalAuthenticate {Client} _.

Section platforms.
Context {Client : Type} (clients : api_clients Client) (getenv : string → string)
  (url_path : string → option string).

Definition newConjurClientFromConfig (cfg : client_config) : string + Client :=
  if decide (AuthnType cfg = "iam") then NewClientFromAWSCredentials clients cfg
  else if decide (AuthnType cfg = "azure") then NewClientFromAzureCredentials clients cfg
  else if decide (AuthnType cfg = "gcp") then NewClientFromGCPCredentials clients cfg ""
  else NewClient clients cfg.

Definition createConjurClientForAuthenticator (authnURL authnType : string) : token_error + Client :=
  let cfg := mkClientConfig (getenv "CONJUR_APPLIANCE_URL") (getenv "CONJUR_ACCOUNT")
    (getenv "CONJUR_AUTHN_LOGIN") (getenv "CONJUR_SSL_CERTIFICATE") authnType in
  let create serviceID :=
    match newConjurClientFromConfig (cfg serviceID) with
    | inl err => inl (NoClient err)
    | inr client => inr client
    end in
  if decide (authnType = "iam" ∨ authnType = "azure") then
    match parseServiceID url_path authnURL authnType with
    | None => inl BadServiceID
    | Some serviceID => create serviceID
    end
  else create "".

(** The token comes in a new buffer. *)
Definition readToken (client : Client) : M heap token_error positive := λ h,
  match InternalAuthenticate clients client with
  | inl err => (Fail (ClientAuthenticateFailed err), h)
  | inr token => let result := fresh (dom h) in (Ret result, <[result := token]> h)
  end.

Definition IamGetAccessToken (authnURL : string) : M heap token_error positive :=
  match createConjurClientForAuthenticator authnURL "iam" with
  | inl err => throw err
  | inr client => readToken client
  end.
Definition AzureGetAccessToken (authnURL : string) : M heap token_error positive :=
  match createConjurClientForAuthenticator authnURL "azure" with
  | inl err => throw err
  | inr client => readToken client
  end.
Definition GcpGetAccessToken (authnURL : string) : M heap token_error positive :=
  match createConjurClientForAuthenticator authnURL "gcp" with
  | inl err => throw err
  | inr client => readToken client
  end.

(** The method of the interface [ConjurAuthenticator]. *)
Definition access_token (c : authn_client) (authn : authenticator) : M heap token_error positive :=
  match authn with
  | K8sAuthenticator => GetAccessToken c
  | JwtAuthenticator => JwtGetAccessToken c
  | IamAuthenticator authnURL => IamGetAccessToken authnURL
  | AzureAuthenticator authnURL => AzureGetAccessToken authnURL
  | GcpAuthenticator authnURL => GcpGetAccessToken authnURL
  end.
End platforms.

(** ** The retriever with its token (conjur_client.go, conjur_secrets_retriever.go) *)
Inductive client_error := NoClientConfig (err : string) | NoTokenClient (err : string).

(** A client of the Conjur API with its [Cleanup], which may change the heap. *)
Record conjur_client := mkConjurClient {
  client_api : conjur_api;
  client_cleanup : heap → heap
}.

(** [LoadConfig] and [NewClientFromToken] of the Conjur API client; the
    credential storage of the configuration is switched off in between. The
    client gets the token as a string: [string(tokenData)] is a copy of its
    own, which cannot be overwritten. *)
Definition string_of_bytes (tokenData : positive) (h : heap) : positive * heap :=
  let result := fresh (dom h) in (result, <[result := h !!! tokenData]> h).

Definition NewConjurClient {Config} (LoadConfig : string + Config) (without_storage : Config → Config)
    (NewClientFromToken : Config → string → string + conjur_client) (tokenData : positive) :
    M heap client_error conjur_client := λ h,
  match LoadConfig with
  | inl err => (Fail (NoClientConfig err), h)
  | inr config =>
      let '(token, h') := string_of_bytes tokenData h in
      match NewClientFromToken (without_storage config) (h' !!! token) with
      | inl err => (Fail (NoTokenClient err), h')
      | inr client => (Ret client, h')
      end
  end.

Section retriever.
Context (recordedError : string → string) (token : authenticator → M heap token_error positive)
  (NewConjurClient : positive → M heap client_error conjur_client).

(** The deferred function that wipes the token. *)
Definition wipe (accessTokenData : positive) (h : heap) : heap :=
  <[accessTokenData := zeros (h !!! accessTokenData)]> h.

(** [Retrieve] of an authenticator; the client's [Cleanup] is deferred last and
    runs first. *)
Definition retrieve_secrets (authn : authenticator) (o : range_order) (variableIDs : list string) :
    M heap string (gmap string bytes) := λ h,
  match token authn h with
  | (Panic, h1) => (Panic, h1)
  | (Fail _, h1) => (Retrieve recordedError None (λ _, None) o variableIDs, h1)
  | (Ret accessTokenData, h1) =>
      let fetch client := Retrieve recordedError (Some (h1 !!! accessTokenData)) (λ _, client) o variableIDs in
      match NewConjurClient accessTokenData h1 with
      | (Panic, h2) => (Panic, wipe accessTokenData h2)
      | (Fail _, h2) => (fetch None, wipe accessTokenData h2)
      | (Ret client, h2) =>
          (fetch (Some (client_api client)), wipe accessTokenData (client_cleanup client h2))
      end
  end.

(** [secretRetriever] of entrypoint.go over [NewAuthenticator] and
    [NewSecretRetriever]. *)
Definition secretRetriever (authn_config : bool) (customEnv : string → string) :
    authenticator_error + (range_order → list string → M heap string (gmap string bytes)) :=
  match NewAuthenticator authn_config customEnv with
  | inl err => inl err
  | inr authn => inr (retrieve_secrets authn)
  end.
End retriever.

(** ** Where the token is *)

(** The client has its token in the one buffer that it hands out, and deleting
    it makes no new copy. *)
Class AuthnClientLaws (c : authn_client) := {
  one_copy h h1 h2 b :
    AuthenticateWithContext c h = (Ret tt, h1) → Read c h1 = (Ret b, h2) →
    is_Some (h2 !! b) ∧ ∀ l, l ≠ b → h2 !! l = h !! l;
  delete_wipes h l t : Delete c h !! l = Some t → h !! l = Some t ∨ t = zeros t
}.




Section wiping.
Context {Client : Type} (clients : api_clients Client) (getenv : string → string)
  (url_path : string → option string) (c : authn_client) `{!AuthnClientLaws c}.
#[local] Abbreviation token := (access_token clients getenv url_path c).




End wiping.

(** An authenticator client that keeps its token in one place. *)
Definition sim_authn : authn_client :=
  mkAuthnClient true true (λ h, (Ret tt, <[1%positive := "token"]> h)) (λ h, (Ret 1%positive, h))
    (delete 1%positive).

#[export] Instance sim_authn_laws : AuthnClientLaws sim_authn.
Proof.
  split; cbn.
  - intros h h1 h2 b [= <-] [= <- <-]. rewrite lookup_insert_eq. split; [by eexists|].
    intros l Hl. by rewrite lookup_insert_ne.
  - intros h l t [_ Ht]%lookup_delete_Some. by left.
Qed.

(** A cloud that hands out no clients. *)
Definition sim_clients : api_clients Empty_set :=
  mkClients _ (λ _, inl "none") (λ _, inl "none") (λ _ _, inl "none") (λ _, inl "none") (λ c : Empty_set, match c with end).



(** ** Properties *)


(** A client of the Conjur API over a server without variables. *)
Definition sim_client : conjur_client :=
  mkConjurClient (mkApi true (λ _, inl "none") (λ _, inl "none") (λ _ _, inl "none")) id.
Definition sim_new_client : positive → M heap client_error conjur_client :=
  NewConjurClient (Config := unit) (inr tt) id (λ _ _, inr sim_client).


(** The string that the client of the Conjur API gets is a copy of the token
    that nothing overwrites. *)
Theorem token_string_stays :
  let token := access_token sim_clients (λ _, "") (λ _, None) sim_authn in
  let run := retrieve_secrets id token sim_new_client JwtAuthenticator canonical_order ["db/pw"] ∅ in
  run.2 !! 2%positive = Some (zeros "token") ∧ run.2 !! 3%positive = Some "token" ∧
  size run.2 = 2%nat.
Proof. cbv zeta. split_and!; vm_compute; reflexivity. Qed.
