(* ===== verification/GoQuote.v ===== *)
(** * Quoted strings (Go's strconv) and lines (Go's bufio)

    [strconv.Unquote] on the three kinds of literals, [strconv.Quote] on ASCII
    text, [utf8.AppendRune] and [utf8.ValidString], and the lines that a
    [bufio.Scanner] with its default buffer reads. *)

From S2P Require Import Prelude GoString GoBytes.
From Stdlib Require Import Ascii.
Open Scope Z_scope.

Definition backslash : ascii := ascii_of_nat 92.
Definition squote : ascii := ascii_of_nat 39.
Definition backquote : ascii := ascii_of_nat 96.

(** ** utf8 *)
Definition ValidRune (r : Z) : bool := in_range 0 55295 r || in_range 57344 1114111 r.

Definition AppendRune (r : Z) : string :=
  let r := if ValidRune r then r else RuneError in
  bytes_to_string
    (if r <=? 127 then [r]
     else if r <=? 2047 then [Z.lor 192 (Z.shiftr r 6); Z.lor 128 (Z.land r 63)]
     else if r <=? 65535 then
       [Z.lor 224 (Z.shiftr r 12); Z.lor 128 (Z.land (Z.shiftr r 6) 63); Z.lor 128 (Z.land r 63)]
     else [Z.lor 240 (Z.shiftr r 18); Z.lor 128 (Z.land (Z.shiftr r 12) 63);
           Z.lor 128 (Z.land (Z.shiftr r 6) 63); Z.lor 128 (Z.land r 63)]).

Definition ValidString (s : string) : bool :=
  forallb (λ rb : Z * string, negb ((rb.1 =? RuneError) && (String.length rb.2 =? 1)%nat)) (runes s).

(** ** strconv.UnquoteChar *)
Definition unhex (c : ascii) : option Z :=
  let b := byte_of c in
  if in_range 48 57 b then Some (b - 48)
  else if in_range 97 102 b then Some (b - 97 + 10)
  else if in_range 65 70 b then Some (b - 65 + 10)
  else None.

Fixpoint unhex_n (n : nat) (v : Z) (s : string) : option (Z * string) :=
  match n with
  | O => Some (v, s)
  | S n' =>
      match s with
      | "" => None
      | String c s' => match unhex c with None => None | Some x => unhex_n n' (16 * v + x) s' end
      end
  end.

Fixpoint unoctal_n (n : nat) (v : Z) (s : string) : option (Z * string) :=
  match n with
  | O => Some (v, s)
  | S n' =>
      match s with
      | "" => None
      | String c s' =>
          if in_range 48 55 (byte_of c) then unoctal_n n' (8 * v + (byte_of c - 48)) s' else None
      end
  end.

(** The value of a simple escape. *)
Definition simple_escape (c : ascii) : option Z :=
  match byte_of c with
  | 97 => Some 7 | 98 => Some 8 | 102 => Some 12 | 110 => Some 10 | 114 => Some 13
  | 116 => Some 9 | 118 => Some 11 | 92 => Some 92
  | _ => None
  end.

(** The rune, whether it is to be written in UTF-8, and the rest. *)
Definition UnquoteChar (quote : ascii) (s : string) : option (Z * bool * string) :=
  match s with
  | "" => None
  | String c rest =>
      if decide (c = quote) then None
      else if 128 <=? byte_of c then
        let '(r, size) := decode_rune (byte_of c) rest in Some (r, true, slice_from size s)
      else if decide (c ≠ backslash) then Some (byte_of c, false, rest)
      else match rest with
      | "" => None
      | String e s2 =>
          match simple_escape e with
          | Some v => Some (v, false, s2)
          | None =>
              let b := byte_of e in
              if b =? 120 then
                match unhex_n 2 0 s2 with Some (v, s3) => Some (v, false, s3) | None => None end
              else if (b =? 117) || (b =? 85) then
                match unhex_n (if b =? 117 then 4 else 8) 0 s2 with
                | Some (v, s3) => if ValidRune v then Some (v, true, s3) else None
                | None => None
                end
              else if in_range 48 55 b then
                match unoctal_n 2 (b - 48) s2 with
                | Some (v, s3) => if 255 <? v then None else Some (v, false, s3)
                | None => None
                end
              else if decide (e = squote ∨ e = dquote) then
                if decide (e = quote) then Some (b, false, s2) else None
              else None
          end
      end
  end.

(** ** strconv.Unquote *)

(** The text before the first [c], and the text after it. *)
Fixpoint cut_at (c : ascii) (s : string) : option (string * string) :=
  match s with
  | "" => None
  | String a s' =>
      if decide (a = c) then Some ("", s')
      else match cut_at c s' with Some (b, r) => Some (String a b, r) | None => None end
  end.

Fixpoint has_byte (c : ascii) (s : string) : bool :=
  match s with "" => false | String a s' => if decide (a = c) then true else has_byte c s' end.

Fixpoint drop_byte (c : ascii) (s : string) : string :=
  match s with
  | "" => ""
  | String a s' => if decide (a = c) then drop_byte c s' else String a (drop_byte c s')
  end.

(** The loop over the characters; every one takes at least a byte, so the
    length of the text is enough fuel: [unquote_loop_fuel]. *)
Fixpoint unquote_loop (fuel : nat) (quote : ascii) (s buf : string) : option (string * string) :=
  match fuel with
  | O => None
  | S fuel' =>
      match s with
      | "" => None
      | String c rest =>
          if decide (c = quote) then Some (buf, rest)
          else match UnquoteChar quote s with
          | None => None
          | Some (r, multibyte, rem) =>
              if decide (c = lf) then None
              else
                let buf' := buf +:+ (if (r <? 128) || negb multibyte then String (char_of r) ""
                                     else AppendRune r) in
                if decide (quote = squote) then
                  match rem with
                  | String q rem' => if decide (q = quote) then Some (buf', rem') else None
                  | "" => None
                  end
                else unquote_loop fuel' quote rem buf'
          end
      end
  end.

(** ** The fuel of [Unquote] *)
Lemma unhex_n_length n v s x s' :
  unhex_n n v s = Some (x, s') → (String.length s' ≤ String.length s)%nat.
Proof.
  revert v s. induction n as [|n IH]; intros v s; cbn [unhex_n]; [by intros [= _ <-]|].
  destruct s as [|c s]; [done|]. destruct (unhex c); [|done]. intros H%IH. cbn. lia.
Qed.

Lemma unoctal_n_length n v s x s' :
  unoctal_n n v s = Some (x, s') → (String.length s' ≤ String.length s)%nat.
Proof.
  revert v s. induction n as [|n IH]; intros v s; cbn [unoctal_n]; [by intros [= _ <-]|].
  destruct s as [|c s]; [done|]. destruct (in_range _ _ _); [|done]. intros H%IH. cbn. lia.
Qed.

Lemma decode_rune_size b0 rest : (1 ≤ (decode_rune b0 rest).2)%nat.
Proof.
  unfold decode_rune.
  repeat (match goal with
    | |- context [if ?b then _ else _] => destruct b
    | |- context [match ?t with "" => _ | _ => _ end] => is_var t; destruct t
    end; cbn [snd]); lia.
Qed.

Lemma slice_from_shorter n s : (String.length (slice_from n s) ≤ String.length s - n)%nat.
Proof.
  revert s. induction n as [|n IH]; intros [|c s]; cbn [slice_from String.length]; try lia.
  etransitivity; [apply IH|lia].
Qed.

(** Every character takes at least a byte. *)
Lemma UnquoteChar_shorter quote s r mb rem :
  UnquoteChar quote s = Some (r, mb, rem) → (String.length rem < String.length s)%nat.
Proof.
  unfold UnquoteChar. destruct s as [|c rest]; [done|].
  destruct (decide (c = quote)); [done|]. destruct (128 <=? byte_of c).
  { pose proof (decode_rune_size (byte_of c) rest) as Hd.
    destruct (decode_rune (byte_of c) rest) as [r' size]. intros [= _ _ <-].
    pose proof (slice_from_shorter size (String c rest)). cbn in *. lia. }
  destruct (decide (c ≠ backslash)); [intros [= _ _ <-]; cbn; lia|].
  destruct rest as [|e s2]; [done|]. destruct (simple_escape e); [intros [= _ _ <-]; cbn; lia|].
  cbn zeta. destruct (byte_of e =? 120).
  { destruct (unhex_n 2 0 s2) as [[v s3]|] eqn:Hx; [|done]. intros [= _ _ <-].
    apply unhex_n_length in Hx. cbn. lia. }
  destruct (_ || _).
  { destruct (unhex_n _ 0 s2) as [[v s3]|] eqn:Hx; [|done]. destruct (ValidRune v); [|done].
    intros [= _ _ <-]. apply unhex_n_length in Hx. cbn. lia. }
  destruct (in_range 48 55 (byte_of e)).
  { destruct (unoctal_n 2 _ s2) as [[v s3]|] eqn:Hx; [|done]. destruct (255 <? v); [done|].
    intros [= _ _ <-]. apply unoctal_n_length in Hx. cbn. lia. }
  destruct (decide (e = squote ∨ e = dquote)); [|done].
  destruct (decide (e = quote)); [|done]. intros [= _ _ <-]. cbn. lia.
Qed.

(** More fuel than the length of the text changes nothing. *)
Lemma unquote_loop_fuel n fuel quote s buf :
  (String.length s < n)%nat → (String.length s < fuel)%nat →
  unquote_loop fuel quote s buf = unquote_loop n quote s buf.
Proof.
  revert fuel s buf. induction n as [|n IH]; intros [|fuel] s buf Hn Hf; try lia.
  cbn [unquote_loop]. destruct s as [|c rest]; [done|].
  destruct (decide (c = quote)); [done|].
  destruct (UnquoteChar quote (String c rest)) as [[[r mb] rem]|] eqn:Hu; [|done].
  apply UnquoteChar_shorter in Hu. destruct (decide (c = lf)); [done|].
  cbn zeta. destruct (decide (quote = squote)); [done|]. apply IH; lia.
Qed.

(** The text between the quotes when it holds no escape. *)
Definition unquote_plain (quote : ascii) (before : string) : bool :=
  if has_byte backslash before || has_byte lf before then false
  else if decide (quote = dquote) then ValidString before
  else match runes before with
       | [(r, w)] => negb ((r =? RuneError) && (String.length w =? 1)%nat)
       | _ => false
       end.

Definition Unquote (s : string) : option string :=
  match s with
  | "" => None
  | String quote rest =>
      match cut_at quote rest with
      | None => None
      | Some (before, after) =>
          let '(out, rem) :=
            if decide (quote = backquote) then (Some (drop_byte cr before), after)
            else if decide (quote = dquote ∨ quote = squote) then
              if unquote_plain quote before then (Some before, after)
              else match unquote_loop (S (String.length rest)) quote rest "" with
                   | Some (buf, rem) => (Some buf, rem)
                   | None => (None, "")
                   end
            else (None, "") in
          if decide (rem = "") then out else None
      end
  end.

Example unquote_examples :
  let q (s : string) := String dquote (s +:+ String dquote "") in
  Unquote (q "") = Some "" ∧ Unquote (q "a\tb\x41\u00e9\101") = Some ("a" +:+ String (ascii_of_nat 9) "bAéA") ∧
  Unquote (q "a\") = None ∧ Unquote "'x'" = Some "x" ∧ Unquote "'xy'" = None ∧
  Unquote "`a\n`" = Some "a\n" ∧ Unquote "plain" = None ∧ Unquote (q "a" +:+ "b") = None ∧
  Unquote (q "\ud800") = None ∧ Unquote (q "é") = Some "é" ∧ Unquote "" = None.
Proof. vm_compute. done. Qed.

(** ** strconv.Quote on ASCII text *)
Definition is_ascii (s : string) : Prop := Forall (λ b, b < 128) (string_bytes s).

Definition quote_char (c : ascii) : string :=
  let b := byte_of c in
  let esc (e : ascii) := String backslash (String e "") in
  if decide (c = dquote ∨ c = backslash) then esc c
  else if in_range 32 126 b then String c ""
  else match b with
       | 7 => esc "a"%char | 8 => esc "b"%char | 12 => esc "f"%char | 10 => esc "n"%char
       | 13 => esc "r"%char | 9 => esc "t"%char | 11 => esc "v"%char
       | _ => String backslash (String "x" (String (hex_digit (b / 16)) (String (hex_digit (b mod 16)) "")))
       end.

Fixpoint quote_body (s : string) : string :=
  match s with "" => "" | String c s' => quote_char c +:+ quote_body s' end.

Definition Quote (s : string) : string := String dquote (quote_body s +:+ String dquote "").

(** ** The lines of a bufio.Scanner *)
Definition MaxScanTokenSize : Z := 65536.

Definition drop_cr (line : string) : string := TrimSuffix line (String cr "").

(** A text that ends in a newline has no line after it. *)
Fixpoint drop_last_empty (ls : list string) : list string :=
  match ls with
  | [] => []
  | [l] => if decide (l = "") then [] else [l]
  | l :: ls' => l :: drop_last_empty ls'
  end.

(** The scanner stops, without a sign other than [Err], at a line that does
    not fit its buffer. *)
Fixpoint fitting (ls : list string) : list string :=
  match ls with
  | [] => []
  | l :: ls' => if Z.of_nat (String.length l) <? MaxScanTokenSize then l :: fitting ls' else []
  end.

Definition scan_lines (text : string) : list string :=
  drop_cr <$> fitting (drop_last_empty (Split text lf)).

(** ** Lemmas *)
Lemma unquote_quote_char c rest :
  byte_of c < 128 →
  UnquoteChar dquote (quote_char c +:+ rest) = Some (byte_of c, false, rest).
Proof.
  intros Hc. destruct c as [[] [] [] [] [] [] [] []]; try (exfalso; vm_compute in Hc; discriminate);
    reflexivity.
Qed.

Lemma quote_char_head c : byte_of c < 128 →
  (quote_char c = String c "" ∧ c ≠ backslash ∧ c ≠ dquote ∧ c ≠ lf) ∨
  ∃ e s, quote_char c = String backslash (String e s).
Proof.
  intros Hc. destruct c as [[] [] [] [] [] [] [] []]; try (exfalso; vm_compute in Hc; discriminate);
    first [left; split_and!; (reflexivity || discriminate) | right; by repeat eexists].
Qed.

Lemma quote_char_ne c rest : byte_of c < 128 →
  ∃ a s, quote_char c +:+ rest = String a s ∧ a ≠ dquote ∧ a ≠ lf.
Proof.
  intros Hc. destruct (quote_char_head c Hc) as [(-> & _ & H1 & H2)|(e & s & ->)].
  - exists c, rest. by split_and!.
  - exists backslash, (String e (s +:+ rest)). by split_and!.
Qed.

Lemma is_ascii_cons c s : is_ascii (String c s) ↔ byte_of c < 128 ∧ is_ascii s.
Proof. unfold is_ascii. cbn [string_bytes]. apply (Forall_cons (λ b, b < 128)). Qed.

(** The loop inverts [quote_body]. *)
Lemma unquote_loop_quote s buf fuel rest :
  is_ascii s → (String.length s < fuel)%nat →
  unquote_loop fuel dquote (quote_body s +:+ String dquote rest) buf = Some (buf +:+ s, rest).
Proof.
  revert buf fuel. induction s as [|c s IH]; intros buf [|fuel] Ha Hf; cbn [String.length] in Hf; try lia.
  { cbn [quote_body]. rewrite append_nil_r. reflexivity. }
  apply is_ascii_cons in Ha as [Hc Ha]. cbn [quote_body]. rewrite append_assoc_str.
  destruct (quote_char_ne c (quote_body s +:+ String dquote rest) Hc) as (a & t & Heq & Hq & Hl).
  pose proof (unquote_quote_char c (quote_body s +:+ String dquote rest) Hc) as Hu.
  rewrite Heq in *. cbn [unquote_loop]. rewrite (decide_False (P := a = dquote)), Hu by done.
  rewrite (decide_False (P := a = lf)), (decide_False (P := dquote = squote)) by done.
  rewrite (proj2 (Z.ltb_lt _ _) Hc). cbn [orb].
  rewrite char_of_byte_of, IH, append_assoc_str by (done || lia). done.
Qed.

Lemma runes_ascii s : is_ascii s → runes s = (λ c, (byte_of c, String c "")) <$> String.list_ascii_of_string s.
Proof.
  unfold runes. induction s as [|c s IH]; [done|]. intros [Hc Hs]%is_ascii_cons.
  cbn [runes_go String.list_ascii_of_string]. unfold decode_rune.
  rewrite (proj2 (Z.ltb_lt _ _) Hc). cbn. by rewrite <- IH; [destruct s|].
Qed.

Lemma valid_ascii s : is_ascii s → ValidString s = true.
Proof.
  intros Hs. unfold ValidString. rewrite runes_ascii by done. unfold is_ascii in Hs.
  apply forallb_forall. intros [r w] Hin%list_elem_of_In. apply list_elem_of_fmap in Hin as (c & [= -> ->] & Hin).
  cbn [fst snd]. replace (byte_of c =? RuneError) with false; [done|]. symmetry. apply Z.eqb_neq.
  pose proof (byte_of_range c) as Hr. unfold is_byte, RuneError in *. lia.
Qed.

(** Up to the first double quote, a quoted text either is the text itself or
    holds a backslash. *)
Lemma cut_quote_body s :
  is_ascii s →
  ∃ before after, cut_at dquote (quote_body s +:+ String dquote "") = Some (before, after) ∧
    (has_byte backslash before = true ∨ before = s ∧ after = "" ∧ has_byte lf before = false).
Proof.
  induction s as [|c s IH]; intros Ha.
  { exists "", "". split; [reflexivity|]. by right. }
  apply is_ascii_cons in Ha as [Hc Ha]. destruct (IH Ha) as (before & after & Hcut & Hor).
  cbn [quote_body]. rewrite append_assoc_str.
  destruct (quote_char_head c Hc) as [(-> & Hb & Hq & Hl)|(e & t & ->)].
  - exists (String c before), after. rewrite append_cons. cbn [cut_at].
    change ("" +:+ ?x) with x. rewrite decide_False, Hcut by done. split; [done|].
    cbn [has_byte]. rewrite !decide_False by done. destruct Hor as [?|(-> & -> & ?)]; [by left|by right].
  - rewrite !append_cons. cbn [cut_at].
    set (tail := t +:+ quote_body s +:+ String dquote "").
    assert (∃ b r, cut_at dquote (String e tail) = Some (b, r)) as (b & r & Hbr).
    { assert (∀ x, ∃ b r, cut_at dquote (x +:+ String dquote "") = Some (b, r)) as Hall.
      { induction x as [|y x IHx]; [by exists "", ""|]. rewrite append_cons. cbn [cut_at].
        case_decide; [by repeat eexists|]. destruct IHx as (b & r & ->). by repeat eexists. }
      unfold tail. rewrite <- append_assoc_str, <- append_cons. apply Hall. }
    exists (String backslash b), r. cbn [cut_at] in Hbr. rewrite Hbr. split; [done|]. by left.
Qed.

Lemma Unquote_Quote s : is_ascii s → Unquote (Quote s) = Some s.
Proof.
  intros Ha. unfold Unquote, Quote.
  destruct (cut_quote_body s Ha) as (before & after & -> & Hor).
  rewrite (decide_False (P := dquote = backquote)), (decide_True (P := dquote = dquote ∨ _)) by (done || by left).
  unfold unquote_plain. destruct (has_byte backslash before) eqn:Hb; cbn [orb].
  - rewrite <- (append_nil_r s) at 3. rewrite unquote_loop_quote; [|done|].
    + cbn. by rewrite append_nil_r.
    + rewrite length_append.
      assert (String.length s ≤ String.length (quote_body s))%nat; [|lia].
      clear Hor Hb. induction s as [|c s IH]; [done|]. apply is_ascii_cons in Ha as [Hc Ha].
      specialize (IH Ha). cbn [quote_body]. rewrite length_append.
      destruct (quote_char_head c Hc) as [(-> & _)|(e & t & ->)]; cbn [String.length]; lia.
  - destruct Hor as [?|(-> & -> & ->)]; [done|]. rewrite decide_True by done.
    by rewrite valid_ascii.
Qed.

Lemma quote_char_no_lf c : byte_of c < 128 → no_byte lf (quote_char c).
Proof.
  intros Hc. destruct c as [[] [] [] [] [] [] [] []]; try (exfalso; vm_compute in Hc; discriminate);
    cbn; split_and!; done.
Qed.

Lemma Quote_no_lf s : is_ascii s → no_byte lf (Quote s).
Proof.
  intros Ha. unfold Quote. split; [done|]. rewrite no_byte_app. split; [|by split].
  induction s as [|c s IH]; [done|]. apply is_ascii_cons in Ha as [Hc Ha]. cbn [quote_body].
  rewrite no_byte_app. split; [by apply quote_char_no_lf|by apply IH].
Qed.
