(* ===== verification/Annotations.v ===== *)
(** * The annotations file (pkg/secrets/annotations)

    annotation_parser.go: the file that the Downward API writes, one line
    [key="quoted value"] per annotation. A read error ends the text like the
    end of the file: the scanner's [Err] is not looked at. *)

From S2P Require Import Prelude GoString GoBytes GoQuote.
From Stdlib Require Import Ascii.
Open Scope Z_scope.

(** The file cannot be opened, or a line (counted from 1) is malformed. *)
Inductive annotations_error := CannotOpen | BadLine (lineNumber : nat).

(** One line: its key and value. *)
Definition parse_line (line : string) : option (string * string) :=
  match SplitN line "=" 2 with
  | [key; quoted] => match Unquote quoted with Some value => Some (key, value) | None => None end
  | _ => None
  end.

Fixpoint parse_lines (lineNumber : nat) (annotationsMap : gmap string string) (lines : list string) :
    annotations_error + gmap string string :=
  match lines with
  | [] => inr annotationsMap
  | line :: lines' =>
      match parse_line line with
      | None => inl (BadLine (S lineNumber))
      | Some (key, value) => parse_lines (S lineNumber) (<[key := value]> annotationsMap) lines'
      end
  end.

Definition newAnnotationsFromReader (annotationsFile : string) : annotations_error + gmap string string :=
  parse_lines 0 ∅ (scan_lines annotationsFile).

(** The content of the file, when it can be opened. *)
Definition newAnnotationsFromFile (opened : option string) : annotations_error + gmap string string :=
  match opened with
  | None => inl CannotOpen
  | Some annotationsFile => newAnnotationsFromReader annotationsFile
  end.

(** The error comes with the path in its text. *)
Definition NewAnnotationsFromFile (file : string → option string) (path : string) :
    (string * annotations_error) + gmap string string :=
  match newAnnotationsFromFile (file path) with
  | inl err => inl (path, err)
  | inr res => inr res
  end.

(** ** The Downward API *)
Definition annotation_line (kv : string * string) : string := kv.1 +:+ String "=" (Quote kv.2).

Definition downward_file (entries : list (string * string)) : string :=
  Join (annotation_line <$> entries) (String lf "").

(** An annotation that the file represents: the key has no "=" and no newline,
    the value is ASCII, and the line is below 64 KiB. *)
Definition representable (kv : string * string) : Prop :=
  no_byte "="%char kv.1 ∧ no_byte lf kv.1 ∧ is_ascii kv.2 ∧
  Z.of_nat (String.length (annotation_line kv)) < MaxScanTokenSize.

(** ** Lemmas *)
Lemma parse_annotation_line kv :
  no_byte "="%char kv.1 → is_ascii kv.2 → parse_line (annotation_line kv) = Some kv.
Proof.
  intros Hk Hv. unfold parse_line, annotation_line. rewrite SplitN_2_sep by done.
  rewrite Unquote_Quote by done. by destruct kv.
Qed.

Lemma rev_append_cons_last s c : ∃ t, String.rev (s +:+ String c "") = String c t.
Proof.
  assert (∀ s acc, ∃ t, String.rev_app (s +:+ String c "") acc = String c t) as Hgo.
  { clear s. induction s as [|a s IH]; intros acc; [by exists acc|]. apply IH. }
  apply Hgo.
Qed.

(** A line of the file does not end in a carriage return. *)
Lemma drop_cr_quoted s : drop_cr (s +:+ String dquote "") = s +:+ String dquote "".
Proof.
  unfold drop_cr, TrimSuffix, HasSuffix. destruct (rev_append_cons_last s dquote) as [t Ht].
  rewrite Ht. reflexivity.
Qed.

Lemma annotation_line_end kv : ∃ s, annotation_line kv = s +:+ String dquote "".
Proof.
  exists (kv.1 +:+ String "=" (String dquote (quote_body kv.2))).
  unfold annotation_line, Quote. by rewrite append_assoc_str.
Qed.

Lemma annotation_line_ne kv : annotation_line kv ≠ "".
Proof. destruct (annotation_line_end kv) as [[|c s] ->]; done. Qed.

Lemma annotation_line_no_lf kv : no_byte lf kv.1 → is_ascii kv.2 → no_byte lf (annotation_line kv).
Proof.
  intros Hk Hv. unfold annotation_line. rewrite no_byte_app. split; [done|].
  split; [done|]. by apply Quote_no_lf.
Qed.

Lemma drop_last_empty_cons l ls : ls ≠ [] → drop_last_empty (l :: ls) = l :: drop_last_empty ls.
Proof. by destruct ls. Qed.

Lemma drop_last_empty_id ls : (∀ l, l ∈ ls → l ≠ "") → drop_last_empty ls = ls.
Proof.
  induction ls as [|l ls IH]; intros Hne; [done|]. destruct ls as [|l' ls].
  - cbn. by rewrite decide_False by (apply Hne; left).
  - rewrite drop_last_empty_cons by done. f_equal. apply IH.
    intros x Hx. apply Hne. by right.
Qed.

Lemma fitting_app ls ls' :
  Forall (λ l, Z.of_nat (String.length l) < MaxScanTokenSize) ls → fitting (ls ++ ls') = ls ++ fitting ls'.
Proof.
  induction 1 as [|l ls Hl _ IH]; [done|]. cbn [app fitting].
  rewrite (proj2 (Z.ltb_lt _ _) Hl). by rewrite IH.
Qed.

Lemma scan_downward entries :
  entries ≠ [] → Forall representable entries →
  scan_lines (downward_file entries) = annotation_line <$> entries.
Proof.
  intros Hne Hr. unfold scan_lines, downward_file.
  rewrite Split_Join; [|by destruct entries|].
  2: { apply Forall_fmap. eapply Forall_impl; [done|]. intros kv (_ & Hk & Hv & _).
       by apply annotation_line_no_lf. }
  rewrite drop_last_empty_id.
  2: { intros l (kv & -> & _)%list_elem_of_fmap. apply annotation_line_ne. }
  rewrite <- (app_nil_r (annotation_line <$> entries)), fitting_app.
  2: { apply Forall_fmap. eapply Forall_impl; [done|]. by intros kv (_ & _ & _ & ?). }
  cbn [fitting]. rewrite app_nil_r, <- list_fmap_compose. apply list_fmap_ext. intros i kv _.
  cbn. destruct (annotation_line_end kv) as [s ->]. apply drop_cr_quoted.
Qed.

Lemma parse_lines_annotations n m entries :
  Forall representable entries →
  parse_lines n m (annotation_line <$> entries) = inr (foldl (λ m kv, <[kv.1 := kv.2]> m) m entries).
Proof.
  intros Hr. revert n m. induction Hr as [|kv entries (Hk & _ & Hv & _) _ IH]; intros n m; [done|].
  cbn [fmap list_fmap parse_lines]. rewrite parse_annotation_line by done. destruct kv as [k v]. apply IH.
Qed.

Lemma scan_long pre line post :
  Forall (no_byte lf) pre → Forall (λ l, Z.of_nat (String.length l) < MaxScanTokenSize ∧ l ≠ "") pre →
  no_byte lf line → MaxScanTokenSize ≤ Z.of_nat (String.length line) →
  Forall (no_byte lf) post →
  scan_lines (Join (pre ++ line :: post) (String lf "")) = drop_cr <$> pre.
Proof.
  intros Hpre Hshort Hline Hlong Hpost. unfold scan_lines.
  rewrite Split_Join; [|by destruct pre|by repeat first [apply Forall_app_2|constructor]].
  assert (∃ tail, drop_last_empty (pre ++ line :: post) = pre ++ line :: tail) as [tail ->].
  { clear Hpre Hshort. induction pre as [|l pre [tail IH]].
    - destruct post as [|p post]; [|by eexists]. exists []. cbn. rewrite decide_False; [done|].
      intros ->. unfold MaxScanTokenSize in Hlong. cbn in Hlong. lia.
    - exists tail. cbn [app]. rewrite drop_last_empty_cons; [by rewrite IH|by destruct pre]. }
  rewrite fitting_app by (eapply Forall_impl; [done|]; by intros l [? _]).
  cbn [fitting]. destruct (Z.ltb_spec (Z.of_nat (String.length line)) MaxScanTokenSize); [lia|].
  by rewrite app_nil_r.
Qed.

(** [no_byte] of a concrete text. *)
Ltac solve_no_byte := vm_compute; repeat (split; [intros Heq; discriminate Heq|]); exact I.

(** ** Properties *)

(** C33: the parser reads back every set of annotations that the Downward
    API writes with ASCII values and lines below 64 KiB, whatever order it
    writes them in and whatever quotes, backslashes, newlines and control
    characters the values hold. *)
Theorem annotations_roundtrip (o : range_order) (m : gmap string string) :
  map_Forall (λ k v, representable (k, v)) m →
  newAnnotationsFromReader (downward_file (range o m)) = inr m.
Proof.
  intros Hm. destruct (decide (m = ∅)) as [->|Hne]; [by rewrite range_empty|].
  assert (Forall representable (range o m)) as Hr.
  { apply Forall_forall. intros [k v] Hkv%elem_of_range. by apply Hm. }
  unfold newAnnotationsFromReader. rewrite scan_downward; [|intros Hn|done].
  - rewrite parse_lines_annotations by done. f_equal. apply map_eq. intros k. apply option_eq. intros v.
    rewrite (foldl_insert_lookup fst snd) by apply range_NoDup_keys. rewrite lookup_empty.
    split; [intros [([k' v'] & Hin%elem_of_range & <- & <-)|[_ ?]]; done|].
    intros Hk. left. exists (k, v). by rewrite elem_of_range.
  - apply Hne. rewrite <- (list_to_map_range o m), Hn. done.
Qed.

Lemma annotations_roundtrip_witness :
  let m : gmap string string :=
    {["conjur.org/container-mode" := "init";
      "conjur.org/conjur-secrets.db" := "- url: db/url" +:+ String lf ("- " +:+ String dquote "\")]} in
  newAnnotationsFromReader (downward_file (range reversed_order m)) = inr m.
Proof.
  intros m. apply (annotations_roundtrip reversed_order m).
  apply map_Forall_insert_2; [|apply map_Forall_singleton]; unfold representable; cbn [fst snd];
    (split; [solve_no_byte|split; [solve_no_byte|]]);
    (split; [apply (bool_decide_unpack _); vm_compute; exact I|vm_compute; reflexivity]).
Defined.

(** A line of 64 KiB or more ends the parsing without an error: the
    annotation on it and all annotations after it are dropped, and the result
    is that of the lines before it. *)
Theorem long_line_drops_rest pre line post :
  pre ≠ [] →
  Forall (λ l, no_byte lf l ∧ Z.of_nat (String.length l) < MaxScanTokenSize ∧ l ≠ "") pre →
  no_byte lf line → MaxScanTokenSize ≤ Z.of_nat (String.length line) →
  Forall (no_byte lf) post →
  newAnnotationsFromReader (Join (pre ++ line :: post) (String lf "")) =
  newAnnotationsFromReader (Join pre (String lf "")).
Proof.
  intros Hne Hpre Hline Hlong Hpost. unfold newAnnotationsFromReader. f_equal.
  assert (Forall (no_byte lf) pre) as Hno by (eapply Forall_impl; [exact Hpre|]; by intros l (? & _)).
  rewrite scan_long; [|done| |done..].
  2: { eapply Forall_impl; [exact Hpre|]. by intros l (_ & ?). }
  unfold scan_lines. rewrite Split_Join by done. rewrite drop_last_empty_id.
  - rewrite <- (app_nil_r pre) at 2. rewrite fitting_app; [by rewrite app_nil_r|].
    eapply Forall_impl; [exact Hpre|]. by intros l (_ & ? & _).
  - intros l Hl. rewrite Forall_forall in Hpre. by destruct (Hpre l Hl) as (_ & _ & ?).
Qed.

(** A text of [2 ^ n] copies of a character. *)
Fixpoint doubled (n : nat) (c : ascii) : string :=
  match n with O => String c "" | S n' => doubled n' c +:+ doubled n' c end.

Lemma doubled_length n c : Z.of_nat (String.length (doubled n c)) = 2 ^ Z.of_nat n.
Proof.
  induction n as [|n IH]; [done|]. cbn [doubled]. rewrite length_append, Nat2Z.inj_add, IH.
  rewrite Nat2Z.inj_succ, Z.pow_succ_r by lia. lia.
Qed.

Lemma doubled_no_byte n c d : c ≠ d → no_byte d (doubled n c).
Proof. intros Hcd. induction n as [|n IH]; cbn [doubled]; [by split|]. by rewrite no_byte_app. Qed.

Lemma long_line_drops_rest_witness :
  let mode := annotation_line ("conjur.org/container-mode", "sidecar") in
  let sanitize := annotation_line ("conjur.org/remove-deleted-secrets-enabled", "false") in
  newAnnotationsFromReader (Join ([mode] ++ doubled 16 "x" :: [sanitize]) (String lf "")) =
    inr {["conjur.org/container-mode" := "sidecar"]}.
Proof.
  intros mode sanitize.
  rewrite (long_line_drops_rest [mode] (doubled 16 "x") [sanitize]).
  - vm_compute. reflexivity.
  - discriminate.
  - apply Forall_singleton. split; [solve_no_byte|]. split; [vm_compute; reflexivity|discriminate].
  - apply doubled_no_byte. discriminate.
  - rewrite doubled_length. unfold MaxScanTokenSize. vm_compute. discriminate.
  - apply Forall_singleton. solve_no_byte.
Defined.
