(* ===== verification/Entrypoint.v ===== *)
(** * The entry point (pkg/entrypoint)

    entrypoint.go and the configuration of trace.go, with [NewProviderForType]
    of pkg/secrets: from the annotations file and the environment to the
    provider, the configuration of the runner and the exit code. Creating the
    tracer, the authenticator, the HTTP listener and the Kubernetes client and
    running the provider are parameters, each of which can fail. *)

From S2P Require Import Prelude GoString GoConv GoBytes Config Annotations Runner.
Open Scope Z_scope.

Definition defaultContainerMode : string := "init".

Definition envAnnotationsConversion : gmap string string := list_to_map [
  ("CONJUR_AUTHN_LOGIN", "conjur.org/authn-identity");
  ("CONTAINER_MODE", "conjur.org/container-mode");
  ("SECRETS_DESTINATION", "conjur.org/secrets-destination");
  ("K8S_SECRETS", "conjur.org/k8s-secrets");
  ("RETRY_COUNT_LIMIT", "conjur.org/retry-count-limit");
  ("RETRY_INTERVAL_SEC", "conjur.org/retry-interval-sec");
  ("DEBUG", "conjur.org/debug-logging");
  ("LOG_LEVEL", "conjur.org/log-level");
  ("JAEGER_COLLECTOR_URL", "conjur.org/jaeger-collector-url");
  ("LOG_TRACES", "conjur.org/log-traces");
  ("JWT_TOKEN_PATH", "conjur.org/jwt-token-path");
  ("REMOVE_DELETED_SECRETS", "conjur.org/remove-deleted-secrets-enabled");
  ("NAMESPACE_ALLOWLIST", "conjur.org/namespace-allowlist");
  ("SERVER_ADDRESS", "conjur.org/server-address")].

(** [logErrorsAndInfos] is an error when there are errors; what it logs is not
    modelled. *)
Definition logErrorsAndInfos {A B} (errLogs : list A) (infoLogs : list B) : bool :=
  bool_decide (errLogs = []).

(** ** Tracing *)
Inductive TracerProviderType := NoopProviderType | ConsoleProviderType | JaegerProviderType.

Definition getTracerConfigFromEnv (getenv : string → string) : TracerProviderType * string :=
  if decide (getenv "JAEGER_COLLECTOR_URL" ≠ "") then (JaegerProviderType, getenv "JAEGER_COLLECTOR_URL")
  else if decide (getenv "LOG_TRACES" = "true") then (ConsoleProviderType, "")
  else (NoopProviderType, "").

(** [None] is the error of the annotations file. *)
Definition getTracerConfigFromAnnotations (file : string → option string) (path : string) :
    option (TracerProviderType * string) :=
  match NewAnnotationsFromFile file path with
  | inl _ => None
  | inr annotationsMap =>
      let jaegerURL := annotationsMap !!! (envAnnotationsConversion !!! "JAEGER_COLLECTOR_URL") in
      if decide (jaegerURL ≠ "") then Some (JaegerProviderType, jaegerURL)
      else if decide (annotationsMap !!! (envAnnotationsConversion !!! "LOG_TRACES") = "true")
      then Some (ConsoleProviderType, "")
      else Some (NoopProviderType, "")
  end.

Definition getTracerConfig (getenv : string → string) (file : string → option string) (path : string) :
    TracerProviderType * string :=
  match getTracerConfigFromAnnotations file path with
  | None | Some (NoopProviderType, _) => getTracerConfigFromEnv getenv
  | Some conf => conf
  end.

(** ** Settings *)
Definition customEnv (getenv : string → string) (annotationsMap : gmap string string) (key : string) :
    string :=
  match envAnnotationsConversion !! key with
  | Some annotation =>
      if decide (annotationsMap !!! annotation ≠ "") then annotationsMap !!! annotation
      else if decide (getenv key = "" ∧ key = "CONTAINER_MODE") then defaultContainerMode
      else getenv key
  | None => getenv key
  end.

Definition getContainerMode (getenv : string → string) (annotationsMap : gmap string string) : string :=
  match annotationsMap !! ContainerModeKey with
  | Some mode => mode
  | None =>
      let mode := getenv "CONTAINER_MODE" in
      if decide (mode = "sidecar" ∨ mode = "application" ∨ mode = "standalone") then mode else "init"
  end.

Definition setupSecretsConfig (o : range_order) (getenv : string → string)
    (annotationsMap : gmap string string) : option Config :=
  let secretsProviderSettings := GatherSecretsProviderSettings o getenv annotationsMap in
  let '(errLogs, infoLogs) := ValidateSecretsProviderSettings secretsProviderSettings in
  if logErrorsAndInfos errLogs infoLogs then Some (NewConfig secretsProviderSettings) else None.

(** Only a file that is there is read; without it there are no annotations. *)
Definition processAnnotations (o : range_order) (stat : bool) (file : string → option string)
    (path : string) : option (gmap string string) :=
  if negb stat then Some ∅
  else match NewAnnotationsFromFile file path with
       | inl _ => None
       | inr annotationsMap =>
           let '(errLogs, infoLogs) := ValidateAnnotations o annotationsMap in
           if logErrorsAndInfos errLogs infoLogs then Some annotationsMap else None
       end.

(** ** The provider

    The base paths of Push-to-File, which are passed on as they are, belong to
    the factory. *)
Record ProviderConfig := mkProviderConf {
  provider_store : string;
  provider_sanitize : bool;
  k8s_namespace : string;
  k8s_required : list string;
  p2f_annotations : gmap string string
}.

(** The provider of a store: the K8s provider, Push-to-File with its groups,
    or the errors of the groups or of an unknown store. *)
Inductive provider_error {E : Type} := GroupErrors (errs : list E) | UnknownStore (store : string).
Arguments provider_error : clear implicits.
Inductive provider {G : Type} :=
| K8sFor (namespace : string) (required : list string) (sanitize : bool)
| FileFor (groups : list G) (sanitize : bool).
Arguments provider : clear implicits.

Definition NewProviderForType {E G} (NewSecretGroups : gmap string string → list E + list G)
    (c : ProviderConfig) : provider_error E + provider G :=
  if decide (provider_store c = K8s)
  then inr (K8sFor (k8s_namespace c) (k8s_required c) (provider_sanitize c))
  else if decide (provider_store c = File) then
    match NewSecretGroups (p2f_annotations c) with
    | inl errs => inl (GroupErrors errs)
    | inr groups => inr (FileFor groups (provider_sanitize c))
    end
  else inl (UnknownStore (provider_store c)).

(** [secretsProvider]: the provider with the configuration it was made from. *)
Definition secretsProvider {E P} (providerFactory : ProviderConfig → list E + P)
    (secretsConfig : option Config) (annotationsMap : gmap string string) : option (P * Config) :=
  match secretsConfig with
  | None => None
  | Some c =>
      match providerFactory (mkProviderConf (StoreType c) (SanitizeEnabled c) (PodNamespace c)
                               (RequiredK8sSecrets c) annotationsMap) with
      | inl errs => None
      | inr p => Some (p, c)
      end
  end.

(** ** startSecretsProviderWithDeps *)

(** The collaborators: each [bool] or [option] says whether it succeeds.
    [run] is [RunSecretsProvider], with the provider, its configuration and
    whether there is an HTTP server; its result is an error or not. *)
Record environment (E P : Type) := mkEnvironment {
  getenv : string → string;
  stat_annotations : bool;
  read_file : string → option string;
  createTracer : TracerProviderType → string → bool;
  secretRetriever : (string → string) → bool;
  providerFactory : ProviderConfig → list E + P;
  NewServer : string → bool;
  NewInClusterK8sClient : bool;
  run : P → ProviderRefreshConfig → bool → option string
}.
Arguments getenv {E P} _.
Arguments stat_annotations {E P} _.
Arguments read_file {E P} _.
Arguments createTracer {E P} _.
Arguments secretRetriever {E P} _.
Arguments providerFactory {E P} _.
Arguments NewServer {E P} _.
Arguments NewInClusterK8sClient {E P} _.
Arguments run {E P} _.

(** How far a start gets. *)
Inductive started_as {P : Type} :=
| FailedBefore
| NoServer
| Ran (provide : P) (conf : Config) (refresh : ProviderRefreshConfig) (http : bool).
Arguments started_as : clear implicits.

Definition runs_once (containerMode : string) : bool :=
  bool_decide (containerMode ≠ "sidecar" ∧ containerMode ≠ "standalone").

(** The informer's channel is made in the long-running modes of the K8s store
    without a list of Secrets, also when the Kubernetes client then fails. *)
Definition informer_channel (runOnce : bool) (c : Config) : bool :=
  negb runOnce && bool_decide (StoreType c = K8s) && bool_decide (RequiredK8sSecrets c = []).

(** [time.Duration(secs) * time.Second] on 64 bits. *)
Definition seconds (secs : Z) : Z := wrap_int64 (secs * Second).

Definition refresh_config (containerMode : string) (c : Config) : ProviderRefreshConfig :=
  let runOnce := runs_once containerMode in
  mkRefresh containerMode runOnce (Config.SecretsRefreshInterval c) (informer_channel runOnce c)
    (seconds (Config.RetryIntervalSec c)) (Config.RetryCountLimit c).

Section start.
Context {E P : Type} (env : environment E P) (sched : schedule) (path : string).

Definition startSecretsProviderWithDeps : Z * started_as P :=
  let failed := (1, FailedBefore) in
  let '(tracerType, tracerURL) := getTracerConfig (getenv env) (read_file env) path in
  if negb (createTracer env tracerType tracerURL) then failed
  else match processAnnotations (loop sched 0) (stat_annotations env) (read_file env) path with
  | None => failed
  | Some annotationsMap =>
      if negb (secretRetriever env (customEnv (getenv env) annotationsMap)) then failed
      else match secretsProvider (providerFactory env)
                   (setupSecretsConfig (loop sched 1) (getenv env) annotationsMap) annotationsMap with
      | None => failed
      | Some (provideSecrets, secretsConfig) =>
          let containerMode := getContainerMode (getenv env) annotationsMap in
          let standalone := bool_decide (containerMode = "standalone") in
          if standalone && negb (NewServer env (ServerAddress secretsConfig)) then (0, NoServer)
          else
            let refresh := refresh_config containerMode secretsConfig in
            match run env provideSecrets refresh standalone with
            | Some err => (1, Ran provideSecrets secretsConfig refresh standalone)
            | None => (0, Ran provideSecrets secretsConfig refresh standalone)
            end
      end
  end.
End start.

(** ** Lemmas *)

Lemma logErrorsAndInfos_ok {A B} (errs : list A) (infos : list B) :
  logErrorsAndInfos errs infos = true → errs = [].
Proof. apply bool_decide_eq_true_1. Qed.

(** Annotations without a validation error respect the restraints of their
    keys. *)
Lemma validated_annotation o annots k v r :
  (ValidateAnnotations o annots).1 = [] → annots !! k = Some v →
  restraints_of k = inr r → validateAnnotationValue k v r = None.
Proof.
  intros Hv Hk Hr. destruct (validateAnnotationValue k v r) as [e|] eqn:He; [|done].
  assert (Hin : e ∈ (ValidateAnnotations o annots).1).
  { apply ValidateAnnotations_elem. exists k, v. split; [done|].
    rewrite validate_annotation_restraints, Hr, He. by left. }
  rewrite Hv in Hin. by apply not_elem_of_nil in Hin.
Qed.

Lemma valueInArray_spec v l : valueInArray v l = true ↔ v ∈ l.
Proof.
  unfold valueInArray. rewrite existsb_exists, list_elem_of_In.
  setoid_rewrite bool_decide_eq_true. naive_solver.
Qed.

Lemma container_mode_restraint :
  restraints_of ContainerModeKey =
  inr (Restraints TYPESTRING ["init"; "application"; "sidecar"; "standalone"]).
Proof. vm_compute. reflexivity. Qed.

Lemma validated_mode o annots mode :
  (ValidateAnnotations o annots).1 = [] → annots !! ContainerModeKey = Some mode →
  mode ∈ ["init"; "application"; "sidecar"; "standalone"].
Proof.
  intros Hv Hm. pose proof (validated_annotation o annots _ mode _ Hv Hm container_mode_restraint) as H.
  unfold validateAnnotationValue in H. cbn [allowedType allowedValues] in H.
  apply valueInArray_spec. by destruct (valueInArray mode _).
Qed.

Lemma long_running_spec mode :
  runs_once mode = false ↔ mode = "sidecar" ∨ mode = "standalone".
Proof.
  unfold runs_once. rewrite bool_decide_eq_false.
  destruct (decide (mode = "sidecar")), (decide (mode = "standalone")); naive_solver.
Qed.

(** A setting read from the annotations and one read from the environment. *)
Lemma settings_annotation o getenv annots k :
  is_Some (secretsProviderAnnotations !! k) → k ∉ validEnvVars →
  GatherSecretsProviderSettings o getenv annots !!! k = annots !!! k.
Proof.
  intros [r Hr] Hk. rewrite !lookup_total_alt, gather_settings_lookup, Hr.
  by rewrite decide_False by naive_solver.
Qed.

Lemma settings_env o getenv annots k :
  secretsProviderAnnotations !! k = None → k ∈ validEnvVars →
  GatherSecretsProviderSettings o getenv annots !!! k = getenv k.
Proof.
  intros Hr Hk. rewrite lookup_total_alt, gather_settings_lookup, Hr.
  case_decide as Hd; [done|]. cbn. destruct (decide (getenv k = "")) as [->|]; [done|].
  by destruct Hd.
Qed.

(** The settings' mode: the annotation, or the environment's. *)
Lemma settings_mode o getenv annots :
  annot_or_env (GatherSecretsProviderSettings o getenv annots) ContainerModeKey "CONTAINER_MODE" =
  if decide (annots !!! ContainerModeKey = "") then getenv "CONTAINER_MODE"
  else annots !!! ContainerModeKey.
Proof.
  unfold annot_or_env. rewrite settings_annotation, settings_env; [done|..].
  - by vm_compute.
  - apply (bool_decide_unpack _). by vm_compute.
  - eexists. by vm_compute.
  - apply (bool_decide_unpack _). by vm_compute.
Qed.

(** The two readings of the container mode agree on which long-running mode
    it is. *)
Lemma container_modes_agree o o' getenv annots mode :
  (ValidateAnnotations o annots).1 = [] →
  mode = "sidecar" ∨ mode = "standalone" →
  getContainerMode getenv annots = mode ↔
  ContainerMode (NewConfig (GatherSecretsProviderSettings o' getenv annots)) = mode.
Proof.
  intros Hv Hmode. cbn [NewConfig ContainerMode]. rewrite settings_mode.
  unfold getContainerMode. rewrite lookup_total_alt.
  destruct (annots !! ContainerModeKey) as [m|] eqn:Hm.
  - cbn [default from_option id]. rewrite decide_False; [done|].
    intros ->. apply (validated_mode o) in Hm; [|done]. repeat (apply elem_of_cons in Hm as [?|Hm]; [done|]).
    by apply not_elem_of_nil in Hm.
  - cbn [default from_option]. rewrite (decide_True (P := "" = "")) by done.
    case_decide as Hd; [done|]. destruct Hmode as [-> | ->]; naive_solver.
Qed.

Lemma ValidateAnnotations_empty o : (ValidateAnnotations o ∅).1 = [].
Proof. unfold ValidateAnnotations. by rewrite range_empty. Qed.

Lemma processAnnotations_ok o stat file path annots :
  processAnnotations o stat file path = Some annots → (ValidateAnnotations o annots).1 = [].
Proof.
  unfold processAnnotations. destruct stat; cbn [negb]; [|intros [= <-]; apply ValidateAnnotations_empty].
  destruct (NewAnnotationsFromFile _ _) as [|m]; [done|].
  destruct (ValidateAnnotations o m) as [errs infos] eqn:Hv.
  destruct (logErrorsAndInfos errs infos) eqn:Hl; [|done]. intros [= <-].
  rewrite Hv. by apply logErrorsAndInfos_ok in Hl.
Qed.

Lemma setupSecretsConfig_ok o getenv annots c :
  setupSecretsConfig o getenv annots = Some c →
  c = NewConfig (GatherSecretsProviderSettings o getenv annots) ∧
  ∃ infos, ValidateSecretsProviderSettings (GatherSecretsProviderSettings o getenv annots) =
           ([], infos).
Proof.
  unfold setupSecretsConfig.
  destruct (ValidateSecretsProviderSettings _) as [errs infos] eqn:Hv.
  destruct (logErrorsAndInfos errs infos) eqn:Hl; [|done]. intros [= <-].
  apply logErrorsAndInfos_ok in Hl as ->. split; [done|]. by exists infos.
Qed.

(** What a start that reaches the run has gone through. *)
Lemma start_ran {E P} (env : environment E P) sched path code p c refresh http :
  startSecretsProviderWithDeps env sched path = (code, Ran p c refresh http) →
  ∃ annots,
    processAnnotations (loop sched 0) (stat_annotations env) (read_file env) path = Some annots ∧
    setupSecretsConfig (loop sched 1) (getenv env) annots = Some c ∧
    providerFactory env (mkProviderConf (StoreType c) (SanitizeEnabled c) (PodNamespace c)
      (RequiredK8sSecrets c) annots) = inr p ∧
    refresh = refresh_config (getContainerMode (getenv env) annots) c ∧
    http = bool_decide (getContainerMode (getenv env) annots = "standalone").
Proof.
  unfold startSecretsProviderWithDeps, secretsProvider.
  destruct (getTracerConfig _ _ _) as [ty url]. destruct (createTracer _ _ _); cbn [negb]; [|done].
  destruct (processAnnotations _ _ _ _) as [annots|] eqn:Hp; [|done].
  destruct (secretRetriever _ _); cbn [negb]; [|done].
  destruct (setupSecretsConfig _ _ _) as [c'|] eqn:Hc; [|done].
  destruct (providerFactory _ _) as [|p'] eqn:Hf; [done|].
  destruct (bool_decide _ && negb _); [done|]. intros H. exists annots.
  by destruct (run _ _ _ _); simplify_eq.
Qed.

Lemma start_ran_zero {E P} (env : environment E P) sched path p c refresh http :
  startSecretsProviderWithDeps env sched path = (0, Ran p c refresh http) →
  run env p refresh http = None.
Proof.
  unfold startSecretsProviderWithDeps.
  destruct (getTracerConfig _ _ _) as [ty url]. destruct (createTracer _ _ _); cbn [negb]; [|done].
  destruct (processAnnotations _ _ _ _) as [annots|]; [|done].
  destruct (secretRetriever _ _); cbn [negb]; [|done].
  destruct (secretsProvider _ _ _) as [[p' c']|]; [|done].
  destruct (bool_decide _ && negb _); [done|]. destruct (run _ _ _ _) eqn:Hr; naive_solver.
Qed.

Lemma seconds_bounds secs : 0 <= secs <= MaxInt64 → seconds secs = secs * Second ↔ secs <= 9223372036.
Proof.
  unfold seconds, wrap_int64, MaxInt64, two63, two64. change Second with 1000000000.
  intros Hs. split; [intros H|intros H].
  - pose proof (Z.mod_pos_bound (secs * 1000000000 + 9223372036854775808) 18446744073709551616). lia.
  - rewrite Z.mod_small; lia.
Qed.

(** ** Properties *)

(** C20: a run that starts has a coherent configuration: the provider
    was made for the store, the namespace and the Secrets of the validated
    settings; a run-once mode has no refresh interval and no informer; a
    long-running mode is the one of the settings, though the code reads it a
    second time from other places; there is an HTTP server exactly in
    standalone mode, which uses the K8s store with a non-blank allowlist; the
    informer is only for a K8s store without a list of Secrets. *)
Theorem started_run_coherent {E P} (env : environment E P) sched path code p c refresh http :
  startSecretsProviderWithDeps env sched path = (code, Ran p c refresh http) →
  (∃ annots, providerFactory env (mkProviderConf (StoreType c) (SanitizeEnabled c)
     (PodNamespace c) (RequiredK8sSecrets c) annots) = inr p) ∧
  PodNamespace c ≠ "" ∧ (StoreType c = K8s ∨ StoreType c = File) ∧
  (RunOnce refresh = true → SecretRefreshInterval refresh = 0 ∧ InformerEvents refresh = false) ∧
  (RunOnce refresh = false →
   Mode refresh = ContainerMode c ∧ (Mode refresh = "sidecar" ∨ Mode refresh = "standalone")) ∧
  (http = true ↔ Mode refresh = "standalone") ∧
  (Mode refresh = "standalone" → StoreType c = K8s ∧ TrimSpace (NamespaceAllowlist c) ≠ "") ∧
  (InformerEvents refresh = true → StoreType c = K8s ∧ RequiredK8sSecrets c = []) ∧
  -1 <= Runner.RetryCountLimit refresh.
Proof.
  intros (annots & Hp%processAnnotations_ok & Hc%setupSecretsConfig_ok & Hf & -> & ->)%start_ran.
  destruct Hc as [Hc [infos Hwf%validated_settings_wf]].
  cbn zeta in Hwf. rewrite <- Hc in Hwf.
  destruct Hwf as (Hns & Hst & Hint & Halone & _ & _).
  pose proof (container_modes_agree _ (loop sched 1) (getenv env) annots "sidecar" Hp (or_introl eq_refl)) as Hside.
  pose proof (container_modes_agree _ (loop sched 1) (getenv env) annots "standalone" Hp (or_intror eq_refl)) as Hsta.
  rewrite <- Hc in Hside, Hsta. unfold refresh_config. cbn [Mode RunOnce SecretRefreshInterval
    InformerEvents Runner.RetryCountLimit].
  set (mode := getContainerMode (getenv env) annots) in *.
  split_and!; [by exists annots|done|done|..].
  - intros Hro. unfold informer_channel. rewrite Hro. split; [|done].
    destruct Hint as [?|[_ Hm]]; [done|]. apply not_false_iff_true in Hro. destruct Hro.
    apply long_running_spec.
    destruct Hm as [Hm|Hm]; [left; by apply Hside|right; by apply Hsta].
  - intros [Hm|Hm]%long_running_spec.
    + split; [|by left]. rewrite Hm. symmetry. by apply Hside.
    + split; [|by right]. rewrite Hm. symmetry. by apply Hsta.
  - apply bool_decide_eq_true.
  - intros Hm. by apply Halone, Hsta.
  - unfold informer_channel. rewrite !andb_true_iff, !bool_decide_eq_true. by intros [[_ ?] ?].
  - rewrite Hc. cbn [NewConfig Config.RetryCountLimit].
    apply parseInt_bounds; repeat case_decide; by vm_compute.
Qed.

(** An environment in which everything succeeds, with the K8s provider. *)
Definition sim_environment (vars : gmap string string) (server_ok : bool) (outcome : option string) :
    environment unit ProviderConfig :=
  mkEnvironment _ _ (λ k, vars !!! k) false (λ _, None) (λ _ _, true) (λ _, true)
    (λ conf, inr conf) (λ _, server_ok) true (λ _ _ _, outcome).

Definition sim_vars (mode : string) : gmap string string :=
  {[ "MY_POD_NAMESPACE" := "ns"; "SECRETS_DESTINATION" := "k8s_secrets"; "CONTAINER_MODE" := mode;
     "NAMESPACE_ALLOWLIST" := "*" ]}.

Lemma started_run_coherent_witness :
  match startSecretsProviderWithDeps (sim_environment (sim_vars "standalone") true None)
          (λ _, canonical_order) "/conjur/podinfo/annotations" with
  | (code, Ran p c refresh http) => http = true ∧ StoreType c = K8s ∧ RequiredK8sSecrets c = []
  | _ => False
  end.
Proof.
  destruct (startSecretsProviderWithDeps (sim_environment (sim_vars "standalone") true None)
    (λ _, canonical_order) "/conjur/podinfo/annotations") as [code [| |p c refresh http]] eqn:Hs;
    pose proof Hs as Hs'; vm_compute in Hs'; [done|done|].
  injection Hs' as _ Hp Hc Hr Hh.
  destruct (started_run_coherent _ _ _ _ _ _ _ _ Hs) as (_ & _ & _ & _ & _ & H1 & H2 & H3 & _).
  assert (Hm : Mode refresh = "standalone") by (by rewrite <- Hr).
  split_and!; [by apply H1|by apply H2|apply H3; by rewrite <- Hr].
Defined.

(** The exit code is 0 in exactly two cases: the provider ran and
    came back without an error, or the HTTP server of standalone mode could
    not be made. Every other failure exits with 1. *)
Theorem exit_code_spec {E P} (env : environment E P) sched path :
  let '(code, how) := startSecretsProviderWithDeps env sched path in
  (code = 0 ∨ code = 1) ∧
  (code = 0 ↔ how = NoServer ∨ ∃ p c refresh http,
     how = Ran p c refresh http ∧ run env p refresh http = None).
Proof.
  unfold startSecretsProviderWithDeps.
  destruct (getTracerConfig _ _ _) as [ty url]. destruct (createTracer _ _ _); cbn [negb]; [|naive_solver].
  destruct (processAnnotations _ _ _ _) as [annots|]; [|naive_solver].
  destruct (secretRetriever _ _); cbn [negb]; [|naive_solver].
  destruct (secretsProvider _ _ _) as [[p c]|]; [|naive_solver].
  destruct (bool_decide _ && negb _); [naive_solver|].
  destruct (run _ _ _ _) eqn:Hr; naive_solver.
Qed.

(** C38: the runner's retry interval is the configured number of seconds
    exactly up to 9223372036 of them: beyond, the product by [time.Second]
    wraps around, in any mode and for any settings. *)
Theorem retry_interval_exact mode m :
  let c := NewConfig m in
  RetryInterval (refresh_config mode c) = RetryIntervalSec c * Second ↔
  RetryIntervalSec c <= 9223372036.
Proof.
  cbn zeta. apply seconds_bounds. cbn [NewConfig RetryIntervalSec].
  apply parseInt_bounds; by vm_compute.
Qed.

(** Such a setting passes the validation, and the interval is negative. *)
Lemma retry_interval_wraps :
  let m : gmap string string := {[ "MY_POD_NAMESPACE" := "ns"; "SECRETS_DESTINATION" := "k8s_secrets";
    "RETRY_INTERVAL_SEC" := "9223372037" ]} in
  (ValidateSecretsProviderSettings m).1 = [] ∧
  RetryInterval (refresh_config "init" (NewConfig m)) < 0.
Proof. by vm_compute. Qed.

(** The failure of the HTTP server, which the code logs as an error, exits
    with 0. *)
Lemma server_failure_exits_with_zero :
  startSecretsProviderWithDeps (sim_environment (sim_vars "standalone") false None)
    (λ _, canonical_order) "/conjur/podinfo/annotations" = (0, NoServer).
Proof. by vm_compute. Qed.
