(* ===== verification/Status.v ===== *)
(** * What the outside sees (provider_status.go and pkg/server)

    The sentinel files and the scripts that the runner leaves in a shared
    volume, and the health and readiness answers of the HTTP server. The
    operating system is the record [osFuncs] of the source with [io.Copy]; its
    documented behaviour is the class [StatusFS]. *)

From S2P Require Import Prelude GoString GoConv GoQuote GoPath Runner.
Open Scope Z_scope.

(** ** Status files (provider_status.go) *)
Definition statusFileMode : Z := 438. (* 0666 *)
Definition scriptFileMode : Z := 493. (* 0755 *)
Definition ModePerm : Z := 511. (* os.ModePerm, 0777 *)

(** [copy dest src] is [io.Copy] between the two opened files. *)
Record osFuncs (W : Type) := mkOsFuncs {
  chmod : string → Z → M W string unit;
  create : string → M W string unit;
  open : string → M W string unit;
  mkdirAll : string → Z → M W string unit;
  copy : string → string → M W string unit
}.
Arguments chmod {W} _.
Arguments create {W} _.
Arguments open {W} _.
Arguments mkdirAll {W} _.
Arguments copy {W} _.

Record fileUpdater (W : Type) := mkFileUpdater {
  providedFile : string;
  updatedFile : string;
  scripts : list string;
  scriptSrcDir : string;
  scriptDestDir : string;
  os : osFuncs W
}.
Arguments providedFile {W} _.
Arguments updatedFile {W} _.
Arguments scripts {W} _.
Arguments scriptSrcDir {W} _.
Arguments scriptDestDir {W} _.
Arguments os {W} _.

(** The updater of the program, over the functions of the package [os]. *)
Definition NewStatusUpdater {W} (stdOSFuncs : osFuncs W) : fileUpdater W :=
  mkFileUpdater W "/conjur/status/CONJUR_SECRETS_PROVIDED" "/conjur/status/CONJUR_SECRETS_UPDATED"
    ["conjur-secrets-unchanged.sh"] "/usr/local/bin" "/conjur/status" stdOSFuncs.

Section updater.
Context {W : Type} (f : fileUpdater W).

Definition setStatus (path : string) : M W string unit :=
  _ ← create (os f) path; chmod (os f) path statusFileMode.

Definition setSecretsProvided : M W string unit := setStatus (providedFile f).
Definition setSecretsUpdated : M W string unit := setStatus (updatedFile f).

Definition copyFile (srcPath destPath : string) : M W string unit :=
  _ ← open (os f) srcPath; _ ← create (os f) destPath; copy (os f) destPath srcPath.

Definition src_of (script : string) : string := join2 (scriptSrcDir f) script.
Definition dest_of (script : string) : string := join2 (scriptDestDir f) script.

Definition copy_script (script : string) : M W string unit :=
  _ ← copyFile (src_of script) (dest_of script); chmod (os f) (dest_of script) scriptFileMode.

Definition copyScripts : M W string unit :=
  _ ← on_error (mkdirAll (os f) (scriptDestDir f) ModePerm)
        (λ err, throw ("unable to mkdir at " +:+ Quote (scriptDestDir f) +:+ ": " +:+ err));
  for_each (scripts f) copy_script.

(** The updater as the runner uses it. *)
Definition status_updater : StatusUpdater W :=
  mkStatus W setSecretsProvided setSecretsUpdated copyScripts.
End updater.

(** ** The HTTP server (pkg/server/server.go) *)
Record Server := mkServer { isHealthy : bool; isReady : bool }.

Definition DefaultAddress : string := ":8080".
Definition StatusOK : Z := 200.
Definition StatusServiceUnavailable : Z := 503.

(** [net.Listen] on an address, or an error. *)
Definition NewServer (listen : string → option string) (address : string) : string + Server :=
  match listen (if decide (address = "") then DefaultAddress else address) with
  | Some err => inl err
  | None => inr (mkServer false false)
  end.

Definition SetHealthy (healthy : bool) (s : Server) : Server := mkServer healthy (isReady s).
Definition SetReady (ready : bool) (s : Server) : Server := mkServer (isHealthy s) ready.
(** Serving in the background fails silently. *)
Definition Start (s : Server) : Server := SetHealthy true s.

Definition healthHandler (s : Server) : Z := if isHealthy s then StatusOK else StatusServiceUnavailable.
Definition readyHandler (s : Server) : Z := if isReady s then StatusOK else StatusServiceUnavailable.

(** ** The files behind the status *)

(** Files as their content and mode. *)
Class StatusFS {W} (fs : osFuncs W) := {
  file : W → string → option (string * Z);
  create_spec : ∀ p w, match create fs p w with
    | (Ret _, w') => (∃ m, file w' p = Some ("", m)) ∧ ∀ q, q ≠ p → file w' q = file w q
    | (Fail _, w') => ∀ q, file w' q = file w q
    | (Panic, _) => False
    end;
  chmod_spec : ∀ p m w, match chmod fs p m w with
    | (Ret _, w') => (∃ c m', file w p = Some (c, m') ∧ file w' p = Some (c, m)) ∧
        ∀ q, q ≠ p → file w' q = file w q
    | (Fail _, w') => ∀ q, file w' q = file w q
    | (Panic, _) => False
    end;
  open_spec : ∀ p w, match open fs p w with
    | (Ret _, w') => is_Some (file w p) ∧ ∀ q, file w' q = file w q
    | (Fail _, w') => ∀ q, file w' q = file w q
    | (Panic, _) => False
    end;
  mkdirAll_spec : ∀ p m w, (mkdirAll fs p m w).1 ≠ Panic ∧ ∀ q, file (mkdirAll fs p m w).2 q = file w q;
  (** A failing copy may have written a part of the content. *)
  copy_spec : ∀ dest src c m m' w, dest ≠ src →
    file w src = Some (c, m) → file w dest = Some ("", m') →
    match copy fs dest src w with
    | (Ret _, w') => file w' dest = Some (c, m') ∧ ∀ q, q ≠ dest → file w' q = file w q
    | (Fail _, w') => ∀ q, q ≠ dest → file w' q = file w q
    | (Panic, _) => False
    end
}.

Section specs.
Context {W : Type} (f : fileUpdater W) `{!StatusFS (os f)}.
#[local] Abbreviation file := (file (fs := os f)).

(** Everything but the file [p] is unchanged. *)
Definition only (p : string) (w w' : W) : Prop := ∀ q, q ≠ p → file w' q = file w q.

(** A file that the calls so far have not touched. *)
#[local] Ltac untouched := let q := fresh "q" in intros q ?; cbn [fst snd] in *;
  repeat match goal with H : ∀ q, _ |- _ => rewrite H by done end; done.

Lemma setStatus_wp path w :
  wp (setStatus f path) (λ r w', r ≠ Panic ∧ only path w w' ∧
    (r = Ret tt → file w' path = Some ("", statusFileMode))) w.
Proof.
  unfold setStatus. apply wp_bind. unfold wp. pose proof (create_spec path w) as Hc.
  destruct (create (os f) path w) as [[[]|e|] w1]; [|split_and!; [done|untouched|done]|done].
  cbn [fst snd]. destruct Hc as [(m & Hm) Hc]. pose proof (chmod_spec path statusFileMode w1) as Hd.
  destruct (chmod (os f) path statusFileMode w1) as [[[]|e|] w2];
    [|split_and!; [done|untouched|done]|done].
  destruct Hd as [(c & m' & Hp & Hp') Hd]. rewrite Hm in Hp. simplify_eq.
  split_and!; [done|untouched|done].
Qed.

Lemma copyFile_wp s d w :
  d ≠ s →
  wp (copyFile f s d) (λ r w', r ≠ Panic ∧ only d w w' ∧
    (r = Ret tt → ∃ c m m', file w s = Some (c, m) ∧ file w' d = Some (c, m'))) w.
Proof.
  intros Hne. unfold copyFile. apply wp_bind. unfold wp at 1. pose proof (open_spec s w) as Ho.
  destruct (open (os f) s w) as [[[]|e|] w1]; [|split_and!; [done|untouched|done]|done].
  cbn [fst snd]. destruct Ho as [[[c m] Hs] Ho]. apply wp_bind. unfold wp at 1. pose proof (create_spec d w1) as Hc.
  destruct (create (os f) d w1) as [[[]|e|] w2]; [|split_and!; [done|untouched|done]|done].
  cbn [fst snd]. destruct Hc as [[m' Hd] Hc].
  assert (file w2 s = Some (c, m)) as Hs2 by (by rewrite Hc, Ho).
  pose proof (copy_spec d s c m m' w2 Hne Hs2 Hd) as Hp. unfold wp.
  destruct (copy (os f) d s w2) as [[[]|e|] w3]; [|split_and!; [done|untouched|done]|done].
  destruct Hp as [Hd3 Hp]. split_and!; [done|untouched|]. intros _. by exists c, m, m'.
Qed.

Lemma copy_script_wp script w :
  dest_of f script ≠ src_of f script →
  wp (copy_script f script) (λ r w', r ≠ Panic ∧ only (dest_of f script) w w' ∧
    (r = Ret tt → ∃ c m, file w (src_of f script) = Some (c, m) ∧
       file w' (dest_of f script) = Some (c, scriptFileMode))) w.
Proof.
  intros Hne. unfold copy_script. apply wp_bind.
  eapply wp_mono; [by apply copyFile_wp|]. intros [[]|e|] w1 (Hpan & Ho & Hr); [|done..].
  destruct Hr as (c & m & m' & Hs & Hd); [done|]. unfold wp. 
  pose proof (chmod_spec (dest_of f script) scriptFileMode w1) as Hm. unfold only in *.
  destruct (chmod (os f) (dest_of f script) scriptFileMode w1) as [[[]|e|] w2];
    [|split_and!; [done|untouched|done]|done].
  destruct Hm as [(c' & m'' & H1 & H2) Hm]. rewrite Hd in H1. simplify_eq.
  split_and!; [done|untouched|]. intros _. by exists c', m.
Qed.

(** The scripts already copied are in place, and nothing else has changed. *)
Lemma copy_scripts_wp ss w :
  NoDup (dest_of f <$> ss) → (∀ s s', s ∈ ss → s' ∈ ss → dest_of f s ≠ src_of f s') →
  wp (for_each ss (copy_script f)) (λ r w', r ≠ Panic ∧
    (∀ q, q ∉ dest_of f <$> ss → file w' q = file w q) ∧
    (r = Ret tt → ∀ s, s ∈ ss → ∃ c m, file w (src_of f s) = Some (c, m) ∧
       file w' (dest_of f s) = Some (c, scriptFileMode))) w.
Proof.
  revert w. induction ss as [|s ss IH]; intros w Hnd Hdis.
  { unfold wp. cbn. split_and!; [done..|]. intros _ s ?%not_elem_of_nil. done. }
  cbn [for_each fmap list_fmap] in *. apply NoDup_cons in Hnd as [Hs Hnd]. apply wp_bind.
  eapply wp_mono; [apply copy_script_wp, Hdis; by left|].
  intros [[]|e|] w1 (Hpan & Ho & Hr); [| |done].
  - eapply wp_mono; [apply IH; [done|]; intros; apply Hdis; by right|].
    intros r w2 (Hpan2 & Ho2 & Hr2). split_and!; [done| |].
    + intros q [Hq Hq']%not_elem_of_cons. by rewrite Ho2, Ho.
    + intros -> s' [->|Hs']%elem_of_cons.
      * destruct Hr as (c & m & H1 & H2); [done|]. exists c, m. split; [done|]. by rewrite Ho2.
      * destruct (Hr2 eq_refl s' Hs') as (c & m & H1 & H2). exists c, m. split; [|done].
        rewrite <- H1. symmetry. apply Ho. apply not_eq_sym, Hdis; [by left|by right].
  - split_and!; [done| |done]. intros q [Hq _]%not_elem_of_cons. by apply Ho.
Qed.
End specs.

(** ** Properties *)

(** C36: copying the scripts never touches another file, whatever fails;
    when it succeeds, every script has the content of its source and can be
    executed (mode 0755); recording a status creates an empty file with mode
    0666 or, when that fails, touches nothing but that file. *)
Theorem status_updater_spec {W} (f : fileUpdater W) `{!StatusFS (os f)} w :
  NoDup (dest_of f <$> scripts f) →
  (∀ s s', s ∈ scripts f → s' ∈ scripts f → dest_of f s ≠ src_of f s') →
  let file := Status.file (fs := os f) in
  (let '(r, w') := CopyScripts (status_updater f) w in
   r ≠ Panic ∧ (∀ q, q ∉ dest_of f <$> scripts f → file w' q = file w q) ∧
   (r = Ret tt → ∀ s, s ∈ scripts f → ∃ c m, file w (src_of f s) = Some (c, m) ∧
      file w' (dest_of f s) = Some (c, scriptFileMode))) ∧
  ∀ record path,
    (record, path) ∈ [(SetSecretsProvided (status_updater f), providedFile f);
                      (SetSecretsUpdated (status_updater f), updatedFile f)] →
    let '(r, w') := record w in
    r ≠ Panic ∧ (∀ q, q ≠ path → file w' q = file w q) ∧
    (r = Ret tt → file w' path = Some ("", statusFileMode)).
Proof.
  intros Hnd Hdis file. split.
  - assert (wp (copyScripts f) (λ r w', r ≠ Panic ∧ (∀ q, q ∉ dest_of f <$> scripts f → file w' q = file w q) ∧
      (r = Ret tt → ∀ s, s ∈ scripts f → ∃ c m, file w (src_of f s) = Some (c, m) ∧
        file w' (dest_of f s) = Some (c, scriptFileMode))) w) as Hw; [|by destruct (CopyScripts _ w) eqn:Hr; apply (wp_run _ _ _ _ _ Hw) in Hr].
    apply wp_bind, wp_on_error. unfold wp at 1. destruct (mkdirAll_spec (scriptDestDir f) ModePerm w) as [Hp Hm].
    destruct (mkdirAll (os f) (scriptDestDir f) ModePerm w) as [[[]|e|] w1]; [| |done]; cbn in Hm.
    + cbn [fst snd]. eapply wp_mono; [by apply copy_scripts_wp|]. intros r w2 (? & Ho & Hr).
      split_and!; [done|intros q Hq; by rewrite Ho, Hm|]. intros Hret s Hs. rewrite <- Hm. by apply Hr.
    + unfold wp. cbn. by split_and!.
  - intros record path [[= -> ->]|[[= -> ->]|[]%elem_of_nil]%elem_of_cons]%elem_of_cons; cbn [status_updater SetSecretsProvided SetSecretsUpdated].
    + pose proof (setStatus_wp f (providedFile f) w) as Hw. unfold wp in Hw. unfold setSecretsProvided.
      by destruct (setStatus f (providedFile f) w).
    + pose proof (setStatus_wp f (updatedFile f) w) as Hw. unfold wp in Hw. unfold setSecretsUpdated.
      by destruct (setStatus f (updatedFile f) w).
Qed.

(** ** A file system *)

Abbreviation sim_files := (gmap string (string * Z)).

(** The calls in [deny] fail. *)
Section sim.
Context (deny : list string).
Definition sim_do (name : string) (m : M sim_files string unit) : M sim_files string unit :=
  if decide (name ∈ deny) then throw "denied" else m.

Definition sim_status_os : osFuncs sim_files := {|
  chmod p m := sim_do "chmod" (λ f, match f !! p with
    | Some (c, _) => (Ret tt, <[p := (c, m)]> f) | None => (Fail "no file", f) end);
  create p := sim_do "create" (λ f, (Ret tt, <[p := ("", default 420 (snd <$> f !! p))]> f));
  open p := sim_do "open" (λ f, match f !! p with
    | Some _ => (Ret tt, f) | None => (Fail "no file", f) end);
  mkdirAll p m := sim_do "mkdir" (λ f, (Ret tt, f));
  copy dest src := sim_do "copy" (λ f, match f !! src, f !! dest with
    | Some (c, _), Some (_, m) => (Ret tt, <[dest := (c, m)]> f) | _, _ => (Fail "no file", f) end)
|}.

#[export] Program Instance sim_status_fs : StatusFS sim_status_os := {| file f p := f !! p |}.
Next Obligation.
  intros p f. unfold sim_status_os, sim_do. cbn [create]. case_decide; [done|]. split; [eexists; apply lookup_insert_eq|].
  intros q Hq. by apply lookup_insert_ne.
Qed.
Next Obligation.
  intros p m f. unfold sim_status_os, sim_do. cbn [chmod]. case_decide; [done|].
  destruct (f !! p) as [[c m']|]; [|done].
  split; [exists c, m'; split; [done|apply lookup_insert_eq]|]. intros q Hq. by apply lookup_insert_ne.
Qed.
Next Obligation.
  intros p f. unfold sim_status_os, sim_do. cbn [open]. case_decide; [done|]. by destruct (f !! p).
Qed.
Next Obligation. intros p m f. unfold sim_status_os, sim_do. cbn [mkdirAll]. by case_decide. Qed.
Next Obligation.
  intros dest src c m m' f Hne Hs Hd. unfold sim_status_os, sim_do. cbn [copy]. case_decide; [done|].
  rewrite Hs, Hd. split; [apply lookup_insert_eq|]. intros q Hq. by apply lookup_insert_ne.
Qed.
End sim.

Lemma status_updater_spec_witness :
  let f := NewStatusUpdater (sim_status_os []) in
  let files : sim_files := {["/usr/local/bin/conjur-secrets-unchanged.sh" := ("#!/bin/sh", 420)]} in
  ∃ c m, files !! "/usr/local/bin/conjur-secrets-unchanged.sh" = Some (c, m) ∧
    (copyScripts f files).2 !! "/conjur/status/conjur-secrets-unchanged.sh" = Some (c, 493).
Proof.
  intros f files.
  destruct (status_updater_spec f files) as [Hc _]; [apply NoDup_singleton| |].
  - intros s s' ->%list_elem_of_singleton ->%list_elem_of_singleton. vm_compute. discriminate.
  - assert ((copyScripts f files).1 = Ret tt) as Hr by (vm_compute; reflexivity).
    change (CopyScripts (status_updater f) files) with (copyScripts f files) in Hc.
    destruct (copyScripts f files) as [r w']. destruct Hc as (_ & _ & Hc).
    destruct (Hc Hr "conjur-secrets-unchanged.sh" (list_elem_of_here _ _)) as (c & m & H1 & H2).
    exists c, m. split; [etransitivity; [|exact H1]; reflexivity|etransitivity; [|exact H2]; reflexivity].
Defined.

(** What /readyz answers, when there is a server. *)
Definition readyz {W} (st : runner_state W) : option Z :=
  (λ ready, readyHandler (mkServer true ready)) <$> Runner.isReady st.

Lemma readyz_setReady {W} err (st : runner_state W) :
  is_Some (Runner.isReady st) →
  readyz (setReady err st) = Some (if decide (err = None) then StatusOK else StatusServiceUnavailable).
Proof.
  intros [b Hb]. unfold readyz, setReady. rewrite Hb. cbn. by destruct (decide (err = None)), err.
Qed.

Lemma readyz_call_world {W E A} (m : M W E A) (st : runner_state W) : readyz (call_world m st).2 = readyz st.
Proof. unfold call_world. by destruct (m (world st)). Qed.

(** C30: while the runner goes on, readiness tells whether the last run
    provided the secrets: after the first run and after every refresh /readyz
    answers 200 when the run succeeded and 503 when it failed, also when
    recording the status in the shared volume fails. *)
Theorem readiness_follows_runs {W} (status : StatusUpdater W) cfg r st :
  RunOnce cfg = false → is_Some (Runner.isReady st) → r ≠ Panic →
  let expected := Some (if decide (error_of r = None) then StatusOK else StatusServiceUnavailable) in
  readyz (after_first status cfg r st).2 = expected ∧
  readyz (after_refresh status cfg r st).2 = expected.
Proof.
  intros Hro Hs Hp expected. subst expected. unfold after_first, after_refresh. rewrite Hro.
  destruct r as [u|[u e]|]; [| |done].
  - assert (∀ m : M W string unit, readyz (call_world m (setReady None st)).2 = Some StatusOK) as Hm
      by (intros m; by rewrite readyz_call_world, readyz_setReady).
    split; [|destruct u; [|by cbn [snd]; rewrite readyz_setReady]].
    + specialize (Hm (SetSecretsProvided status)). by destruct (call_world _ _) as [[[]|e|] st1].
    + specialize (Hm (SetSecretsUpdated status)). by destruct (call_world _ _) as [[[]|e|] st1].
  - cbn. by rewrite readyz_setReady.
Qed.

Lemma readiness_follows_runs_witness :
  let status := status_updater (NewStatusUpdater (sim_status_os ["create"])) in
  let cfg := mkRefresh "standalone" false 0 true 0 (-1) in
  let st := mkRunner ∅ (Some false) (NewLimitedBackOff 0 (-1)) in
  readyz (after_first status cfg (Ret true) st).2 = Some 200.
Proof.
  intros status cfg st.
  apply (readiness_follows_runs status cfg (Ret true) st); [reflexivity|by exists false|discriminate].
Defined.
