(* ===== verification/Composition.v ===== *)
(** * The providers over the Conjur retriever

    The composition that entrypoint.go makes: the retriever of Conjur.v is the
    retriever parameter of the Push-to-File provider and of the K8s provider.
    What a deletion of variables in Conjur does to the provided files and
    Secrets depends on the answers of both parts: here the two are put
    together. *)

From S2P Require Import Prelude GoString GoBytes FileTemplates K8sClient K8sProvider K8sProviderSpec K8sGroups K8sData K8sProviderProps SecretGroup AtomicWriter PushToFile Informer Runner Conjur.
Open Scope Z_scope.

(** The retriever of a run whose authentication succeeds. *)
Definition conjur_retriever (recordedError : string → string) (api : conjur_api) (o : range_order) :
    RetrieveSecretsFunc :=
  Retrieve recordedError (Some "token") (λ _, Some api) o.

(** ** Lemmas *)

(** What the retriever returns from a V2 server with a store. *)
Lemma retrieve_v2 recordedError api store o ids :
  serves_v2 api store → Forall plain ids → NoDup ids → ids ≠ [] → ids ≠ ["*"] →
  match conjur_retriever recordedError api o ids with
  | Ret m => store_values store ids m ∧ ∃ i, i ∈ ids ∧ is_Some (store !! i)
  | Fail e => e = CSPFK092E ∧ ∀ i, i ∈ ids → store !! i = None
  | Panic => False
  end.
Proof.
  intros [Hc Hb] Hp Hnd Hne Hall. unfold conjur_retriever, Retrieve.
  rewrite bool_decide_eq_false_2 by done. unfold Conjur.retrieveConjurSecrets.
  rewrite decide_False by done. unfold mbind, M_bind, RetrieveBatchSecretsSafe, retrieveBatchSecretsV2.
  rewrite Hc. cbn [negb].
  change (normalizeVariableIdForV2 <$> ids) with (normaliseVariableId <$> ids).
  rewrite normalise_plain_ids, Hb by done.
  pose proof (v2_values store ids o Hp Hnd) as Hv.
  assert (NoDup (normaliseVariableId <$> ids)) as Hnd' by by rewrite normalise_plain_ids.
  assert ("" ∉ ids) as Hemp.
  { intros Hin. rewrite Forall_forall in Hp. by destruct (Hp _ Hin). }
  destruct (decide (collect_v2 _ _ = ∅)) as [He|He].
  - split; [done|]. intros i Hi. destruct (store !! i) as [v|] eqn:Hs; [|done].
    rewrite collect_v2_empty in He; [|done..|by apply answers_plain].
    destruct (He (v2_answer store i)); [by apply list_elem_of_fmap_2|by apply v2_answer_ok].
  - cbn. split; [done|]. destruct (decide (Exists (λ i, is_Some (store !! i)) ids)) as [Hex|Hno].
    { apply Exists_exists in Hex as (i & Hi & Hs). by exists i. }
    destruct He. apply collect_v2_empty; [done..|by apply answers_plain|].
    intros s (i & -> & Hi)%list_elem_of_fmap Hs%v2_answer_ok.
    apply Hno, Exists_exists. by exists i.
Qed.

(** The text for a path that was not fetched is one of a deletion. *)
Lemma missing_path_is_deletion path group : PushToFile.deletion_error (CSPFK068E path group) = true.
Proof.
  unfold PushToFile.deletion_error. rewrite orb_true_iff. right. apply Contains_spec.
  exists "", (" Retrieved secrets did not include secret '" +:+ path +:+
    "' requested by secret group '" +:+ group +:+ "'"). reflexivity.
Qed.

Lemma no_answer_is_no_deletion : PushToFile.deletion_error CSPFK092E = false.
Proof. vm_compute. reflexivity. Qed.

(** ** Fetching for groups from a store *)

(** The secret that a spec gets from a store that has its variable. *)
Definition stored_secret (store : gmap string string) (spec : SecretSpec) : Secret :=
  mkSecret (if decide (Alias spec = "" ∨ Alias spec = "*") then Path spec else Alias spec)
    (bytes_string (decodeIfNeeded spec (Some (store !!! Path spec)))).

(** Variables named without an account, and not the fetch-all variable. *)
Definition named (paths : list string) : Prop := ∀ p, p ∈ paths → plain p ∧ p ≠ "*".

Lemma elem_of_all_specs groups spec : spec ∈ all_specs groups ↔ ∃ g, g ∈ groups ∧ spec ∈ SecretSpecs g.
Proof.
  unfold all_specs. rewrite list_elem_of_join. setoid_rewrite list_elem_of_fmap. naive_solver.
Qed.

Lemma elem_of_paths groups g spec :
  g ∈ groups → spec ∈ SecretSpecs g → Path spec ∈ Path <$> all_specs groups.
Proof. intros Hg Hs. apply list_elem_of_fmap_2, elem_of_all_specs. by exists g. Qed.

Lemma stored_value store ids m spec :
  store_values store ids m → Path spec ∈ ids → is_Some (store !! Path spec) →
  getSecretValueByID m spec (Path spec) = Some (stored_secret store spec).
Proof.
  intros Hm Hin [v Hv]. unfold getSecretValueByID, stored_secret.
  rewrite (proj2 (Hm (Path spec) (Some v))) by (split; [done|by exists v]).
  by rewrite (lookup_total_correct _ _ _ Hv).
Qed.

Lemma mapM_join_cons {A B} (f : A → option (list B)) x y xs ys :
  f x = Some [y] → mjoin <$> mapM f xs = Some ys → mjoin <$> mapM f (x :: xs) = Some (y :: ys).
Proof.
  intros Hx. change (mapM f (x :: xs)) with (y ← f x; k ← mapM f xs; mret (y :: k)).
  rewrite Hx. destruct (mapM f xs) as [k|]; [|done]. by intros [= <-].
Qed.

Lemma mapM_join_None {A B} (f : A → option (list B)) x xs :
  f x = None → x ∈ xs → mjoin <$> mapM f xs = None.
Proof.
  intros Hx Hin. destruct (mapM f xs) as [k|] eqn:Hk; [|done]. exfalso.
  apply mapM_Some in Hk. apply list_elem_of_lookup in Hin as [i Hi].
  destruct (Forall2_lookup_l _ _ _ _ _ Hk Hi) as (y & _ & Hy). congruence.
Qed.

(** A group one of whose variables was not fetched has no secrets. *)
Lemma group_secrets_missing m g spec :
  spec ∈ SecretSpecs g → Path spec ≠ "*" → m !! Path spec = None → group_secrets m g = None.
Proof.
  intros Hs Hne Hm. apply (mapM_join_None _ spec); [|done]. unfold spec_secrets, requested_paths.
  rewrite decide_False by done. cbn. unfold getSecretValueByID. by rewrite Hm.
Qed.

Lemma group_secrets_stored store ids m g :
  store_values store ids m →
  (∀ spec, spec ∈ SecretSpecs g → Path spec ≠ "*" ∧ Path spec ∈ ids ∧ is_Some (store !! Path spec)) →
  group_secrets m g = Some (stored_secret store <$> SecretSpecs g).
Proof.
  intros Hm. unfold group_secrets. induction (SecretSpecs g) as [|spec specs IH]; [done|].
  intros Hs. destruct (Hs spec) as (Hne & Hin & Hv); [by left|].
  assert (spec_secrets m spec = Some [stored_secret store spec]) as Hspec.
  { unfold spec_secrets, requested_paths. rewrite decide_False by done. cbn.
    by rewrite (stored_value store ids). }
  apply mapM_join_cons; [done|]. apply IH. intros s Hs0. apply Hs. by right.
Qed.

Lemma group_requests_named m g :
  (∀ spec, spec ∈ SecretSpecs g → Path spec ≠ "*") → group_requests m g = Path <$> SecretSpecs g.
Proof.
  unfold group_requests. induction (SecretSpecs g) as [|spec specs IH]; [done|]. intros Hs.
  cbn. unfold requested_paths at 1. rewrite decide_False by (apply Hs; by left).
  cbn. f_equal. apply IH. intros s Hin. apply Hs. by right.
Qed.

Section fetching.
Context (recordedError : string → string) (api : conjur_api) (store : gmap string string).
Context (o : range_order) (sched : schedule) (groups : list SecretGroup).
Context (Hserves : serves_v2 api store) (Hnames : NoDup (Name <$> groups)).
Context (Hspecs : all_specs groups ≠ []) (Hnamed : named (Path <$> all_specs groups)).

Lemma asked_paths :
  let asked := getAllPaths (loop sched 0) groups in
  (∀ p, p ∈ asked ↔ p ∈ Path <$> all_specs groups) ∧
  match conjur_retriever recordedError api o asked with
  | Ret m => store_values store asked m ∧ ∃ i, i ∈ asked ∧ is_Some (store !! i)
  | Fail e => e = CSPFK092E ∧ ∀ i, i ∈ asked → store !! i = None
  | Panic => False
  end.
Proof.
  intros asked. destruct (getAllPaths_eq (loop sched 0) groups) as [[Hall _]|(_ & Hnd & Hin)].
  { by destruct (Hnamed "*" Hall). }
  fold asked in Hnd, Hin. split; [exact Hin|].
  assert (∃ p, p ∈ asked) as [p Hp].
  { destruct (all_specs groups) as [|spec specs]; [done|]. exists (Path spec). apply Hin. by left. }
  apply retrieve_v2; [done| |done| |].
  - apply Forall_forall. intros q Hq%Hin. by apply Hnamed.
  - intros He. rewrite He in Hp. by apply not_elem_of_nil in Hp.
  - intros He. destruct (Hnamed "*") as [_ []]; [|done]. apply Hin. rewrite He. by left.
Qed.

(** The three cases: no variable is there, some are missing, all are there. *)
Lemma fetch_from_v2 :
  match FetchSecretsForGroups (conjur_retriever recordedError api o) sched groups with
  | Ret byGroup =>
      (∀ p, p ∈ Path <$> all_specs groups → is_Some (store !! p)) ∧
      ∀ g, g ∈ groups → byGroup !!! Name g = stored_secret store <$> SecretSpecs g
  | Fail e =>
      e = CSPFK092E ∧ (∀ p, p ∈ Path <$> all_specs groups → store !! p = None) ∨
      (∃ p, p ∈ Path <$> all_specs groups ∧ is_Some (store !! p)) ∧
      ∃ g path, g ∈ groups ∧ path ∈ Path <$> SecretSpecs g ∧ store !! path = None ∧
        e = CSPFK068E path (Name g)
  | Panic => False
  end.
Proof.
  destruct asked_paths as [Hin Hr].
  pose proof (Fetch_eq (conjur_retriever recordedError api o) sched groups Hnames) as Hf.
  set (asked := getAllPaths (loop sched 0) groups) in *.
  destruct (conjur_retriever recordedError api o asked) as [m|e|]; [|..|done].
  - destruct Hr as [Hm (i & Hi & Hsome)].
    assert (∀ g spec, g ∈ groups → spec ∈ SecretSpecs g → Path spec ≠ "*" ∧ Path spec ∈ asked) as Hp.
    { intros g spec Hg Hs. assert (Path spec ∈ Path <$> all_specs groups) as Hps by by apply (elem_of_paths groups g).
      split; [by apply Hnamed|by apply Hin]. }
    assert (∀ p, p ∈ asked → m !! p = None ↔ store !! p = None) as Hnone.
    { intros p Hpa. rewrite !eq_None_not_Some. apply not_iff_compat. split.
      - intros [b (_ & v & Hv & _)%Hm]. by exists v.
      - intros [v Hv]. exists (Some v). apply Hm. split; [done|]. by exists v. }
    destruct (FetchSecretsForGroups _ _ _) as [byGroup|e|]; [| |done].
    + destruct Hf as [Hg _].
      assert (∀ g spec, g ∈ groups → spec ∈ SecretSpecs g → is_Some (store !! Path spec)) as Hall.
      { intros g spec Hgin Hs. destruct (Hp g spec Hgin Hs) as [Hne Hpa].
        destruct (Hg g Hgin) as (ss & Hss & _).
        destruct (store !! Path spec) as [v|] eqn:Hv; [by exists v|exfalso].
        rewrite (group_secrets_missing m g spec) in Hss; [done..|]. by apply Hnone. }
      split.
      * intros p (spec & -> & (g & Hgin & Hs)%elem_of_all_specs)%list_elem_of_fmap. by apply (Hall g).
      * intros g Hgin. destruct (Hg g Hgin) as (ss & Hss & ->). rewrite lookup_total_empty.
        rewrite (group_secrets_stored store asked m g Hm) in Hss; [by injection Hss as <-|].
        intros spec Hs. destruct (Hp g spec Hgin Hs). split_and!; [done..|]. by apply (Hall g).
    + right. destruct Hf as (g & path & Hg & _ & Hpath & Hmp & ->). split.
      { exists i. by rewrite <- Hin. }
      rewrite group_requests_named in Hpath by (intros spec Hs; by apply (Hp g)).
      exists g, path. split_and!; [done..| |done].
      apply list_elem_of_fmap in Hpath as (spec & -> & Hs). apply Hnone; [by apply (Hp g)|done].
  - rewrite Hf. left. destruct Hr as [-> Hno]. split; [done|]. intros p Hp%Hin. by apply Hno.
Qed.
End fetching.

(** ** Properties *)

(** C15: [Provide] over a V2 server, for groups that name their
    variables: it fetches exactly the stored values when all the variables
    exist; when some are gone it reports one of them and, with sanitizing on,
    every file of the groups is removed; and when all are gone it reports that
    nothing was retrieved and removes no file, whatever the sanitizing flag. *)
Theorem v2_deletion_of_files {F} (os : providerOS F) `{!ProviderFS os} engine recordedError api store
    o sched groups sanitize s :
  serves_v2 api store → removable (base os) → NoDup (Name <$> groups) → all_specs groups ≠ [] →
  named (Path <$> all_specs groups) →
  let paths := Path <$> all_specs groups in
  let retrieve := conjur_retriever recordedError api o in
  let run := provideWithDeps os engine retrieve sanitize sched groups s in
  ((∀ p, p ∈ paths → is_Some (store !! p)) →
   ∃ byGroup, FetchSecretsForGroups retrieve sched groups = Ret byGroup ∧
     ∀ g, g ∈ groups → byGroup !!! Name g = stored_secret store <$> SecretSpecs g) ∧
  ((∃ p, p ∈ paths ∧ is_Some (store !! p)) → (∃ p, p ∈ paths ∧ store !! p = None) →
   (∃ g path, g ∈ groups ∧ path ∈ Path <$> SecretSpecs g ∧ store !! path = None ∧
      run.1 = Fail (sanitize, FetchError (CSPFK068E path (Name g)))) ∧
   ∀ g, g ∈ groups → content (os := base os) run.2.1 (FilePath g) =
     if sanitize then None else content (os := base os) s.1 (FilePath g)) ∧
  ((∀ p, p ∈ paths → store !! p = None) → run = (Fail (false, FetchError CSPFK092E), s)).
Proof.
  intros Hv2 Hrem Hnd Hspecs Hnamed paths retrieve run.
  pose proof (fetch_from_v2 recordedError api store o sched groups Hv2 Hnd Hspecs Hnamed) as Hf.
  fold paths in Hf. fold retrieve in Hf.
  assert (∃ p, p ∈ paths) as [p0 Hp0].
  { subst paths. destruct (all_specs groups) as [|spec specs]; [done|]. exists (Path spec). by left. }
  subst run. unfold provideWithDeps.
  destruct (FetchSecretsForGroups retrieve sched groups) as [byGroup|e|]; [..|done].
  - destruct Hf as [Hall Hg]. split_and!.
    + intros _. by exists byGroup.
    + intros _ (p & Hp & Hn). destruct (Hall p Hp) as [v Hv]. congruence.
    + intros Hn. destruct (Hall p0 Hp0) as [v Hv]. by rewrite Hn in Hv.
  - split_and!.
    + intros Hall. destruct Hf as [[_ Hno]|(_ & g & path & Hg & Hp & Hn & _)].
      * destruct (Hall p0 Hp0) as [v Hv]. by rewrite Hno in Hv.
      * apply list_elem_of_fmap in Hp as (spec & -> & Hs).
        destruct (Hall (Path spec)) as [v Hv]; [by apply (elem_of_paths groups g)|congruence].
    + intros (p & Hp & v & Hv) _.
      destruct Hf as [[_ Hno]|(_ & g & path & Hg & Hpath & Hn & ->)]; [by rewrite Hno in Hv|].
      rewrite missing_path_is_deletion. cbn [andb]. destruct sanitize.
      * pose proof (remove_files_wp os (E := bool * p2f_error) groups s Hrem) as Hr. unfold wp in Hr.
        unfold mbind, M_bind. destruct (remove_files os groups s) as [r [f' cs']].
        destruct Hr as (Hr & _ & Hc). cbn in Hr, Hc. subst r. cbn. split; [by exists g, path|]. intros g' Hg'.
        rewrite Hc, decide_True; [done|]. by apply list_elem_of_fmap_2.
      * cbn. split; [by exists g, path|done].
    + intros Hno. destruct Hf as [[-> _]|((p & Hp & v & Hv) & _)]; [|by rewrite Hno in Hv].
      by rewrite no_answer_is_no_deletion.
Qed.

Definition two_specs_group : SecretGroup :=
  mkSecretGroup "db" "/s/db.yaml" "" "yaml" "" 420
    [mkSpec "user" "db/user" "text"; mkSpec "pw" "db/pw" "text"].

Definition sim_files_after (store : gmap string string) : sim_fs :=
  (provideWithDeps (sim_provider_os []) sim_engine
     (conjur_retriever id (sim_api true store []) canonical_order) true (λ _, canonical_order)
     [two_specs_group] sim_start).2.1.

Lemma v2_deletion_of_files_witness :
  sim_files_after {["db/user" := "admin"]} !! "/s/db.yaml" = None ∧
  sim_files_after ∅ !! "/s/db.yaml" = Some "old".
Proof.
  assert (NoDup (Name <$> [two_specs_group])) as H1 by compute_done.
  assert (all_specs [two_specs_group] ≠ []) as H2 by discriminate.
  assert (named (Path <$> all_specs [two_specs_group])) as H3.
  { intros p [->|[->|[]%elem_of_nil]%elem_of_cons]%elem_of_cons;
      (split; [split; [repeat split; discriminate|discriminate]|discriminate]). }
  assert (∀ store, serves_v2 (sim_api true store []) store) as H4 by (intros store; by split).
  split.
  - destruct (v2_deletion_of_files (sim_provider_os []) sim_engine id
      (sim_api true {["db/user" := "admin"]} []) {["db/user" := "admin"]} canonical_order
      (λ _, canonical_order) [two_specs_group] true sim_start (H4 _)
      (sim_removable [] ltac:(compute_done)) H1 H2 H3) as (_ & Hsome & _).
    destruct Hsome as [_ Hg].
    + exists "db/user". split; [by left|]. by exists "admin".
    + exists "db/pw". split; [by right; left|reflexivity].
    + specialize (Hg two_specs_group (list_elem_of_here _ _)).
      etransitivity; [|exact Hg]. reflexivity.
  - destruct (v2_deletion_of_files (sim_provider_os []) sim_engine id
      (sim_api true ∅ []) ∅ canonical_order
      (λ _, canonical_order) [two_specs_group] true sim_start (H4 _)
      (sim_removable [] ltac:(compute_done)) H1 H2 H3) as (_ & _ & Hall).
    unfold sim_files_after. rewrite Hall; [reflexivity|].
    intros p Hp. apply lookup_empty.
Defined.

(** The K8s provider over the same server, for one labelled Secret. *)
Definition sim_pair : K8sSecret :=
  sim_secret "db" ("user:db/user" +:+ String lf "pw:db/pw") {["user" := Some "admin"; "pw" := Some "hunter2"]}.

Definition sim_k8s_run (v2 : bool) (store : gmap string string) :
    outcome (bool * string) bool * (K8sProvider * sim_world) :=
  ProvideWithCleanup sim_libraries
    (mkDeps sim_world (defaultAccess canonical_order)
       (λ ids _, conjur_retriever id (sim_api v2 store []) canonical_order ids) id)
    (mkProviderConfig "ns" [] true) sim_sched ∅ (newProvider, sim_cluster [sim_pair]).

(** What a deletion in Conjur does to a K8s Secret depends on the
    API and on what else is deleted. Over V2, when one of two variables is gone
    its entry is emptied and the run succeeds; when both are gone the run fails
    and both old values stay in the Secret. Over V1 either deletion is a 404
    and empties both entries, also the one of the variable that is still
    there. *)
Theorem k8s_deletion_depends_on_api :
  let one := {["db/user" := "admin"]} : gmap string string in
  let entries r := (sim_data r "db" "user", sim_data r "db" "pw") in
  let v2_one := sim_k8s_run true one in
  let v2_none := sim_k8s_run true ∅ in
  let v1_one := sim_k8s_run false one in
  v2_one.1 = Ret true ∧ entries v2_one = (Some (Some "admin"), Some (Some "")) ∧
  v2_none.1 = Fail (false, K8sProvider.CSPFK034E (K8sProvider.CSPFK034E CSPFK092E)) ∧
  entries v2_none = (Some (Some "admin"), Some (Some "hunter2")) ∧
  entries v1_one = (Some (Some ""), Some (Some "")).
Proof. vm_compute. done. Qed.

(** ** No panic *)

(** What the Conjur API documents: the identifier of a resource is a string,
    and a batch of variables is returned whole or not at all. *)
Record api_documented (api : conjur_api) : Prop := {
  resource_strings limit offset rs : Resources api limit offset = inr rs → Forall is_Some rs;
  batch_whole ids m : ids ≠ [] → v1_batch api ids = inr m → m ≠ ∅
}.

Lemma normalise_all_nonempty o m : m ≠ ∅ → normalise_all o m ≠ ∅.
Proof.
  intros Hm. unfold normalise_all. destruct (range o m) as [|kv l] eqn:Hr using rev_ind.
  - destruct Hm. apply map_empty. intros k. destruct (m !! k) as [v|] eqn:Hk; [|done].
    apply (elem_of_range o) in Hk. rewrite Hr in Hk. by apply not_elem_of_nil in Hk.
  - rewrite foldl_snoc. apply insert_non_empty.
Qed.

(** At least one value, or an error. *)
Definition some_value (r : outcome string (gmap string bytes)) : Prop :=
  match r with Ret m => m ≠ ∅ | Fail _ => True | Panic => False end.

Lemma batch_nonempty api ids b :
  api_documented api → ids ≠ [] → some_value (RetrieveBatchSecretsSafe api ids b).1.
Proof.
  intros Hd Hids. unfold RetrieveBatchSecretsSafe.
  assert (some_value (match v1_batch api ids with inl err => Fail err | inr m => Ret m end)) as H1.
  { destruct (v1_batch api ids) as [e|m] eqn:Hb; [done|]. by eapply batch_whole. }
  destruct b; [|done]. unfold retrieveBatchSecretsV2.
  destruct (negb _); [by destruct (isV2NotAvailableError _)|].
  destruct (BatchRetrieveSecrets _ _) as [e|resp]; [by destruct (isV2NotAvailableError _)|].
  destruct (decide _) as [|Hne]; [by destruct (isV2NotAvailableError _)|done].
Qed.

Lemma list_pages_strings api fuel offset paths :
  api_documented api → list_pages api fuel offset paths ≠ Some Panic.
Proof.
  intros Hd. revert offset paths. induction fuel as [|fuel IH]; intros offset paths; [done|].
  cbn [list_pages]. destruct (Resources api 100 offset) as [e|rs] eqn:Hr; [done|].
  apply (resource_strings _ Hd) in Hr.
  destruct (mapM id rs) as [ids|] eqn:Hm.
  - destruct (_ <? _)%nat; [done|]. destruct (_ <=? _)%nat; [done|apply IH].
  - apply mapM_None, Exists_exists in Hm as (o & Ho & Hn). rewrite Forall_forall in Hr.
    destruct (Hr o Ho) as [? ?]. unfold id in Hn. congruence.
Qed.

Lemma allResourcePaths_strings api : api_documented api → allResourcePaths api ≠ Panic.
Proof.
  intros Hd. unfold allResourcePaths. pose proof (list_pages_strings api 5 0 [] Hd) as Hs.
  destruct (list_pages_fuel api 5 0 []) as [Hn _]; [lia|cbn; lia|].
  destruct (list_pages api 5 0 []) as [r|]; [|done]. cbn. congruence.
Qed.

Lemma Retrieve_some_value recorded token client o ids :
  (∀ t api, client t = Some api → api_documented api) →
  some_value (Retrieve recorded token client o ids).
Proof.
  intros Hd. unfold Retrieve. destruct token as [t|]; [|done].
  destruct (client t) as [api|] eqn:Hc; [|done]. specialize (Hd t api Hc).
  assert (∀ l, l ≠ [] → some_value
    ((byFullIDs ← RetrieveBatchSecretsSafe api l; mret (normalise_all o byFullIDs)) true).1) as Hb.
  { intros l Hl. pose proof (batch_nonempty api l true Hd Hl) as Hv. unfold mbind, M_bind.
    destruct (RetrieveBatchSecretsSafe api l true) as [[m|e|] b]; [|done..].
    by apply normalise_all_nonempty. }
  destruct (bool_decide _).
  - unfold retrieveConjurSecretsAll. unfold mbind at 1, M_bind at 1, lift_outcome.
    destruct (allResourcePaths api) as [paths|e|] eqn:Hp; [|done|by destruct (allResourcePaths_strings api Hd)].
    destruct (decide (paths = [])); [done|]. by apply Hb.
  - unfold retrieveConjurSecrets. destruct (decide (ids = [])); [done|]. by apply Hb.
Qed.

(** The K8s provider over the retriever: the access token and the client are
    whatever they are at the time. *)
Definition authenticated_deps {W} (access : k8sAccessDeps W) (recorded : string → string)
    (token : W → option string) (client : W → string → option conjur_api) (o : range_order) :
    k8sProviderDeps W :=
  mkDeps W access (λ ids w, Retrieve recorded (token w) (client w) o ids) recorded.

(** C9: the K8s provider over the Conjur retriever does not panic: whatever
    the access token, the clients and the answers of a Conjur API that keeps
    to its documentation, on an orderly cluster - with fetch-all Secrets and
    group templates, in label mode or with required Secrets -, with any keys to
    remove and in any iteration order. *)
Theorem provide_never_panics {W} L (access : k8sAccessDeps W) `{!K8sAccess access} recorded token client o
    C sched keys p w :
  let D := authenticated_deps access recorded token client o in
  (∀ w t api, client w t = Some api → api_documented api) →
  ready w → secretsState p = empty_state → secretsGroups p = ∅ → orderly L D C w →
  (ProvideWithCleanup L D C sched keys (p, w)).1 ≠ Panic.
Proof.
  intros D Hd Hr Hp Hg Ho Hpanic.
  destruct (ProvideWithCleanup L D C sched keys (p, w)) as [r [p' w']] eqn:Hrun. cbn in Hpanic. subst r.
  pose proof (provide_result L D C sched keys p w Panic p' w' Hr Hp Hg Ho Hrun) as (ids & _ & Hcase).
  pose proof (Retrieve_some_value recorded (token w) (client w) o ids (Hd w)) as Hv.
  change (retrieveSecrets D ids w) with (Retrieve recorded (token w) (client w) o ids) in Hcase.
  by destruct Hcase as [Hx|(_ & _ & Hx)]; rewrite Hx in Hv.
Qed.

Lemma sim_api_documented v2 store vars : api_documented (sim_api v2 store vars).
Proof.
  split.
  - intros limit offset rs [= <-]. apply Forall_fmap, Forall_forall. intros x _. by eexists.
  - intros [|i ids] m Hids; [done|]. cbn [v1_batch sim_api]. destruct (decide _); [|done].
    intros [= <-]. apply insert_non_empty.
Qed.

(** A fetch-all Secret and a group template, over a server with a store. *)
Lemma provide_never_panics_witness :
  let store : gmap string string := {["db/user" := "admin"; "db/pw" := "hunter2"; "web/key" := "k1"]} in
  let client (_ : sim_world) (_ : string) := Some (sim_api true store ["db/user"; "db/pw"; "web/key"]) in
  let C := mkProviderConfig "ns" ["all"; "app"] true in
  let D := authenticated_deps (defaultAccess canonical_order) id (λ _, Some "token") client canonical_order in
  let run := ProvideWithCleanup sim_libraries D C sim_sched ∅ (newProvider, sim_cluster [sim_all; sim_app]) in
  run.1 ≠ Panic ∧ run.1 = Ret true ∧ sim_data run "all" "db.pw" = Some (Some "hunter2") ∧
  sim_data run "app" "conf" = Some (Some "cfg pw=hunter2,key=k1").
Proof.
  intros store client C D run. split; [|do 2 (split; [vm_compute; reflexivity|]); vm_compute; reflexivity].
  apply (provide_never_panics sim_libraries (defaultAccess canonical_order) id (λ _, Some "token") client
    canonical_order C sim_sched ∅ newProvider (sim_cluster [sim_all; sim_app])).
  - intros w t api [= <-]. apply sim_api_documented.
  - reflexivity.
  - reflexivity.
  - reflexivity.
  - intros n s _ Hs%sim_stored. apply tidy_check_ok.
    rewrite !elem_of_cons in Hs. destruct Hs as [->|[->|Hs]];
      [| |destruct (not_elem_of_nil s Hs)]; vm_compute; reflexivity.
Defined.

(** ** Cleared conjur-maps *)

(** The K8s provider over the Conjur retriever. *)
Definition conjur_deps {W} (access : k8sAccessDeps W) (api : conjur_api) (o : range_order) :
    k8sProviderDeps W :=
  mkDeps W access (λ ids _, conjur_retriever id api o ids) id.

(** The retriever refuses an empty list, with a text that is none of a
    deletion. *)
Definition nothing_to_fetch : string :=
  K8sProvider.CSPFK034E (K8sProvider.CSPFK034E (CSPFK034E "no variables to retrieve")).

Lemma retrieve_nothing api o :
  conjur_retriever id api o [] = Fail (CSPFK034E "no variables to retrieve").
Proof. reflexivity. Qed.

(** C40: when the conjur-maps of all listed Secrets have become empty and no group
    template is left, the
    keys that the informer's events ask to remove are never removed, although
    the README promises it for a conjur-map that is cleared: the provider asks
    the retriever for no variables, which is an error, so that every run with
    keys to remove fails and changes nothing in the cluster, whatever the Conjur
    server and the iteration order. *)
Theorem cleared_maps_fail {W} L (access : k8sAccessDeps W) `{!K8sAccess access} api o C sched keys p w :
  let D := conjur_deps access api o in
  ready w → secretsState p = empty_state → secretsGroups p = ∅ → orderly L D C w →
  (∀ x, ¬ asked_for L D C w x) → keys ≠ ∅ →
  let '(r, (_, w')) := ProvideWithCleanup L D C sched keys (p, w) in
  w' = w ∧ (r = Fail (false, nothing_to_fetch) ∨ r = Fail (false, K8sProvider.CSPFK021E)).
Proof.
  intros D Hr Hp Hg Ho Hno Hk.
  assert (wp (provide_locked L D C sched keys) (λ r t, t.2 = w ∧
    (r = Fail (false, nothing_to_fetch) ∨ r = Fail (false, K8sProvider.CSPFK021E))) (p, w)) as Hwp.
  { unfold provide_locked. apply wp_bind, wp_on_error.
    assert (origin_ok D C w (secretsState p)) as Horig.
    { rewrite Hp. intros n s. cbn. by rewrite lookup_empty. }
    eapply wp_mono; [apply wp_and; [by apply retrieve_all_keeps|by apply retrieve_selected]|].
    intros [[]|e|] [p1 w1] [(Hw1 & _ & _ & Hnp) Hret]; cbn in Hw1; subst w1;
      [|by split; [|right]|by destruct (Hnp Hr)].
    destruct (Hret eq_refl) as (ss & Hss & Hrp). cbn [fst snd] in *.
    apply wp_bind. unfold wp at 1, gets. cbn [fst snd].
    rewrite decide_False by (by intros (_ & _ & ?)).
    apply wp_bind, wp_try. unfold K8sProvider.retrieveConjurSecrets. apply wp_bind. unfold wp at 1. cbn [fst snd].
    destruct (fetch_requested L D C (sub sched 1) ss p1 w Hrp Hss) as (ids & -> & Hids).
    assert (ids = []) as ->.
    { destruct Hids as [[(s & d & Hs & Hf) _]|(_ & _ & Hids)].
      - destruct (Hno "*"). exists s. split; [done|]. left. by exists d.
      - destruct ids as [|x ids]; [done|]. destruct (Hno x). apply Hids, list_elem_of_here. }
    apply wp_on_error. unfold wp at 1, D at 1. cbn [retrieveSecrets conjur_deps fst snd].
    rewrite retrieve_nothing. apply wp_bind.
    assert (K8sProvider.deletion_error (recordedError D
      (K8sProvider.CSPFK034E (CSPFK034E "no variables to retrieve"))) = false) as -> by (vm_compute; reflexivity).
    cbn. split; [done|by left]. }
  unfold wp in Hwp. unfold ProvideWithCleanup.
  by destruct (provide_locked L D C sched keys (p, w)) as [r [p' w']].
Qed.

(** One Secret, whose conjur-map is cleared. *)
Definition sim_cleared : K8sSecret := sim_secret "web" "" {["key" := Some "k1"]}.

Lemma cleared_maps_fail_witness :
  let C := mkProviderConfig "ns" [] true in
  let api := sim_api true {["web/key" := "k1"]} [] in
  let event := mkEvent sim_cleared (Some (sim_secret "web" "key:web/key" {["key" := Some "k1"]}))
                 SecretEventTypeUpdate in
  let keys := accumulate sim_libraries C canonical_order ∅ event in
  let run := ProvideWithCleanup sim_libraries (conjur_deps (defaultAccess canonical_order) api canonical_order)
               C sim_sched keys (newProvider, sim_cluster [sim_cleared]) in
  keys = {["web" := ["key"]]} ∧ run.2.2 = sim_cluster [sim_cleared] ∧
  sim_data run "web" "key" = Some (Some "k1").
Proof.
  intros C api event keys run. assert (keys = {["web" := ["key"]]}) as Hk by (vm_compute; reflexivity).
  split; [exact Hk|]. split; [|vm_compute; reflexivity].
  assert (conjur_map sim_libraries sim_cleared = ∅) as Hm by (vm_compute; reflexivity).
  assert (∀ l s, (listLabeledSecrets (defaultAccess canonical_order) "ns" (sim_cluster [sim_cleared])).1 = Ret l →
    s ∈ l → s = sim_cleared) as Hl.
  { intros l s Hl Hs. vm_compute in Hl. injection Hl as <-. apply list_elem_of_singleton in Hs as ->.
    vm_compute. reflexivity. }
  pose proof (cleared_maps_fail sim_libraries (defaultAccess canonical_order) api canonical_order C sim_sched keys
    newProvider (sim_cluster [sim_cleared])) as Hf. cbv zeta in Hf. fold run in Hf.
  destruct run as [r [p' w']]. apply Hf.
  - reflexivity.
  - reflexivity.
  - reflexivity.
  - intros l s Hlist Hs. assert (s = sim_cleared) as -> by exact (Hl l s Hlist Hs).
    split; [apply tidy_check_ok; vm_compute; reflexivity|left].
    split; [apply groups_check_ok|apply map_check_ok]; vm_compute; reflexivity.
  - intros x (s & (n & (l & s' & Hlist & Hs & _ & <-) & Hc) & Hask).
    assert (s' = sim_cleared) as -> by exact (Hl l s' Hlist Hs). vm_compute in Hc. injection Hc as <-.
    destruct Hask as [(d & _ & c & Hf' & _)|(k & specs & Hspecs & _)].
    + change (conjur_map sim_libraries sim_cleared !! secretName d = Some c) in Hf'.
      rewrite Hm, lookup_empty in Hf'. discriminate Hf'.
    + discriminate Hspecs.
  - rewrite Hk. discriminate.
Defined.
