(* ===== verification/Program.v ===== *)
(** * The running program: providers, goroutines, status files

    The runner with its two goroutines over the providers themselves. The
    world of the runner is here the state of the provider with what it works
    on, the files of the status updater, and the number of runs so far, by
    which Conjur's answers and the iteration orders may differ from run to
    run. *)

From S2P Require Import Prelude GoString GoBytes Config FileTemplates K8sClient K8sProvider K8sProviderSpec K8sGroups K8sData K8sProviderProps K8sInvariant Informer Runner Concurrency.
Open Scope Z_scope.

Record program_world (P F : Type) := mkProgram {
  run_count : nat;
  provided_state : P;
  status_state : F
}.
Arguments mkProgram {P F} _ _ _.
Arguments run_count {P F} _.
Arguments provided_state {P F} _.
Arguments status_state {P F} _.

Section worlds.
Context {P F : Type}.
#[local] Abbreviation PW := (program_world P F).

(** A run of the provider, and an update of the status files. *)
Definition provider_run (run : nat → M P (bool * string) bool) : ProviderFunc PW :=
  λ w, let '(r, p) := run (run_count w) (provided_state w) in
       (r, mkProgram (S (run_count w)) p (status_state w)).
Definition status_run {A} (m : M F string A) : M PW string A :=
  λ w, let '(r, f) := m (status_state w) in (r, mkProgram (run_count w) (provided_state w) f).
Definition program_status (s : StatusUpdater F) : StatusUpdater PW :=
  mkStatus _ (status_run (SetSecretsProvided s)) (status_run (SetSecretsUpdated s))
    (status_run (CopyScripts s)).

Lemma provider_run_state run w :
  provided_state (provider_run run w).2 = (run (run_count w) (provided_state w)).2.
Proof. unfold provider_run. by destruct (run _ _). Qed.
Lemma status_run_state {A} (m : M F string A) w : provided_state (status_run m w).2 = provided_state w.
Proof. unfold status_run. by destruct (m _). Qed.
End worlds.

(** ** The goroutines over the K8s provider *)
Section k8s.
Context {W F : Type} (L : libraries) (access : k8sAccessDeps W) `{!K8sAccess access}.
Context (recorded : string → string) (C : provider_config)
  (retrieve : nat → list string → W → outcome string (gmap string bytes)) (scheds : nat → schedule)
  (status : StatusUpdater F) (cfg : ProviderRefreshConfig) (X : gset string) (Y : string → Prop)
  (env : relation (program_world (K8sProvider * W) F)).

(** [Provide] and [ProvideWithCleanup] of the one provider instance. *)
Definition k8s_cleanup (keys : gmap string (list string)) :
    ProviderFunc (program_world (K8sProvider * W) F) :=
  provider_run (λ n, ProvideWithCleanup L (mkDeps W access (retrieve n) recorded) C (scheds n) keys).
Definition k8s_provide : ProviderFunc (program_world (K8sProvider * W) F) := k8s_cleanup ∅.

(** What the program may do to the cluster: replace the data of Secrets of its
    namespace that it requires by name or that have the label. *)
Definition cluster_frame (w w' : W) : Prop :=
  ∀ ns n, cluster w' ns n = cluster w ns n ∨
    ns = podNamespace C ∧ ∃ s d, cluster w ns n = Some s ∧ cluster w' ns n = Some (set_data s d) ∧
      if decide (requiredK8sSecrets C = []) then labelled s else n ∈ requiredK8sSecrets C.

#[export] Instance cluster_frame_preorder : PreOrder cluster_frame.
Proof.
  split; [intros w ns n; by left|]. intros w1 w2 w3 H1 H2 ns n.
  destruct (H2 ns n) as [->|(-> & s & d & Hs & Hs' & Hm)]; [apply H1|].
  destruct (H1 (podNamespace C) n) as [Heq|(_ & s1 & d1 & Hs1 & Hs1' & Hm1)]; right; (split; [done|]).
  - rewrite Heq in Hs. by exists s, d.
  - rewrite Hs in Hs1'. injection Hs1' as ->. by exists s1, d.
Qed.

Lemma managed_frame retr keys w w' :
  only_managed_changed (mkDeps W access retr recorded) C keys w w' → cluster_frame w w'.
Proof.
  intros Hm ns n. destruct (Hm ns n) as [|(-> & s & m & ks & Hman & Hn & Hs & _ & Hw)]; [by left|right].
  split; [done|]. eexists s, _. split_and!; [done|exact Hw|].
  unfold managed in Hman. case_decide; [|by rewrite Hn in Hman].
  destruct Hman as (l & Hl & Hin). destruct (list_ok _ _ _ Hl) as [_ Hc]. by apply Hc.
Qed.

Lemma run_frame retr sched keys (t : K8sProvider * W) :
  settled access recorded C X Y t →
  let t' := (ProvideWithCleanup L (mkDeps W access retr recorded) C sched keys t).2 in
  settled access recorded C X Y t' ∧ cluster_frame t.2 t'.2.
Proof.
  intros Hset. cbv zeta. split; [by apply run_settled|]. destruct t as [p c], Hset as (He & _ & Hr & _).
  cbn in He, Hr. pose proof (provide_locked_frame L (mkDeps W access retr recorded) C sched keys p c) as Hf.
  unfold wp in Hf. unfold ProvideWithCleanup. destruct (provide_locked _ _ _ _ _ _) as [r [p' c']].
  eapply managed_frame, Hf; [|done]. rewrite He. intros n s. cbn. by rewrite lookup_empty.
Qed.

(** One change of the world: by the program, or by others. *)
Definition change (w w' : program_world (K8sProvider * W) F) : Prop :=
  cluster_frame (provided_state w).2 (provided_state w').2 ∨ env w w'.

(** Others edit the cluster, and nothing else. *)
Definition edits : Prop :=
  ∀ w w', env w w' → edit_once access recorded C X Y (provided_state w) (provided_state w').

(** Changes from a settled state. *)
Definition run_relation (w w' : program_world (K8sProvider * W) F) : Prop :=
  settled access recorded C X Y (provided_state w) →
  settled access recorded C X Y (provided_state w') ∧ rtc change w w'.

#[export] Instance run_relation_preorder : PreOrder run_relation.
Proof.
  split; [intros w Hw; by split|]. intros w1 w2 w3 H1 H2 Hw.
  destruct (H1 Hw) as [Hw2 Hf1], (H2 Hw2) as [Hw3 Hf2]. split; [done|by etrans].
Qed.

Lemma k8s_cleanup_in keys w : run_relation w (k8s_cleanup keys w).2.
Proof.
  intros Hset. destruct (run_frame (retrieve (run_count w)) (scheds (run_count w)) keys _ Hset) as [Hs Hf].
  split; [by unfold k8s_cleanup; rewrite provider_run_state|]. apply rtc_once. left.
  unfold k8s_cleanup. by rewrite provider_run_state.
Qed.

Lemma status_in_relation {A} (m : M F string A) w : run_relation w (status_run m w).2.
Proof.
  intros Hw. split; [by rewrite status_run_state|]. apply rtc_once. left. by rewrite status_run_state.
Qed.

Lemma edits_in w w' : edits → env w w' → run_relation w w'.
Proof.
  intros He Hw Hset. split; [by eapply edit_settled; [apply He|]|]. apply rtc_once. by right.
Qed.

Lemma goroutines_in x ls y :
  edits → execution k8s_provide k8s_cleanup L C (program_status status) cfg env x ls y →
  run_relation (world (shared x)) (world (shared y)).
Proof.
  intros He. apply execution_in; [apply _|intros w; apply k8s_cleanup_in..|
    intros w; apply status_in_relation|intros w w'; by apply edits_in].
Qed.

(** Before the goroutines start, only the program changes the world. *)
Lemma start_in_relation (RetryNotify : retry_relation) `{!RetryLaws RetryNotify} st ph st' :
  start RetryNotify k8s_provide (program_status status) cfg st ph st' →
  run_relation (world st) (world st').
Proof.
  apply start_in; [apply _|intros w; apply k8s_cleanup_in|done|intros w; apply status_in_relation..].
Qed.
End k8s.

(** A concrete program: two goroutines over one Secret in label mode. *)
Definition sim_retrieve (n : nat) : list string → sim_world → outcome string (gmap string bytes) :=
  K8sProviderProps.sim_conjur sim_table.
Definition sim_label_config : provider_config := mkProviderConfig "ns" [] true.
Definition sim_files_status : StatusUpdater unit := mkStatus _ (mret tt) (mret tt) (mret tt).
Definition sim_program : program_world (K8sProvider * sim_world) unit :=
  mkProgram 0 (newProvider, sim_cluster [sim_web; sim_broken]) tt.

(** ** Properties *)

(** C3: the running program over the K8s provider, from the first run of a
    new provider on and in every interleaving of the periodic and the informer's
    goroutine, with their retries and whatever keys the informer's events ask
    to remove, while others edit the cluster between those runs: whatever
    changes is changed by others, or it is the data of a Secret of the program's
    namespace that it requires by name or that has its label; between the
    runs no Secret object is kept in memory; and every run of either goroutine
    that succeeds on an orderly cluster provides the values Conjur has returned
    to it to the Secrets, and their keys, that others have left alone since the
    program wrote them, also where it did not write them again: others may do
    anything to the Secrets [Y] and to the entries [X] of every Secret, for any
    [Y] and [X], and of these nothing is claimed. *)
Theorem interleaved_runs_provide {W F} L (access : k8sAccessDeps W) `{!K8sAccess access} recorded C
    retrieve scheds (status : StatusUpdater F) cfg X Y env RetryNotify `{!RetryLaws RetryNotify}
    c0 st time ph st' ls y :
  ready c0 → provided_state (world st) = (newProvider, c0) → edits access recorded C X Y env →
  let provide := k8s_provide L access recorded C retrieve scheds in
  let cleanup := k8s_cleanup L access recorded C retrieve scheds in
  start RetryNotify provide (program_status status) cfg st ph st' →
  execution provide cleanup L C (program_status status) cfg env
    (mkConc time ph st' Selecting Selecting idle) ls y →
  let w := world (shared y) in
  rtc (change access C env) (world st) w ∧ settled access recorded C X Y (provided_state w) ∧
  ∀ keys u w', cleanup keys w = (Ret u, w') →
    let D := mkDeps W access (retrieve (run_count w)) recorded in
    orderly L D C (provided_state w).2 →
    values_provided L D C X Y (provided_state w).2 (provided_state w').2.
Proof.
  intros Hr Hst Henv provide cleanup Hstart Hx w.
  assert (run_relation access recorded C X Y env (world st) w) as Hrel.
  { etrans.
    - exact (start_in_relation L access recorded C retrieve scheds status cfg X Y env RetryNotify _ _ _ Hstart).
    - exact (goroutines_in L access recorded C retrieve scheds status cfg X Y env _ ls y Henv Hx). }
  destruct Hrel as [Hset Hchange].
  { rewrite Hst. by split_and!. }
  split; [done|]. split; [done|]. intros keys u w' Hrun D Hord.
  destruct Hset as (He & Hg & Hrd & Hi). unfold cleanup, k8s_cleanup, provider_run in Hrun.
  destruct (provided_state w) as [p c]. cbn [fst snd] in *. fold D in Hrun.
  destruct (ProvideWithCleanup L D C (scheds (run_count w)) keys (p, c)) as [r [p' c']] eqn:Hp.
  injection Hrun as -> <-. cbn [provided_state snd].
  eapply (run_provided L D C X Y keys (prevSecretsChecksums p)); [done|].
  by apply (provide_result L D C (scheds (run_count w)) keys p c (Ret u) p').
Qed.

(** Someone creates a Secret. *)
Definition creates (s : K8sSecret) (w : program_world (K8sProvider * sim_world) unit) :
    program_world (K8sProvider * sim_world) unit :=
  mkProgram (run_count w)
    ((provided_state w).1, (kube_update "ns" s (provided_state w).2).2) (status_state w).
Definition sim_edit (s : K8sSecret) : relation (program_world (K8sProvider * sim_world) unit) :=
  λ w w', w' = creates s w ∧ sim_config (provided_state w).2 = true ∧
    prevSecretsChecksums (provided_state w).1 !! secretName_ s = None.

Lemma sim_edits X Y s :
  edits (defaultAccess canonical_order) id sim_label_config X Y (sim_edit s).
Proof.
  intros w w' (-> & Hc & Hn). split; [done|]. unfold creates. cbn [provided_state fst snd].
  split; [cbn; by case_decide|]. intros n s' _ Hrec Hs'. exists s'. split; [|by intros k v _].
  assert (n ≠ secretName_ s) as Hne by (intros ->; rewrite Hn in Hrec; by destruct Hrec).
  revert Hs'. cbn -[kube_update]. destruct (kube_update "ns" s (provided_state w).2) as [[] c] eqn:Hu; cbn [snd].
  - change sim_lookup with (kube_store (W := sim_world)). rewrite (update_stored _ _ _ _ Hu).
    by rewrite decide_False by naive_solver.
  - change sim_lookup with (kube_store (W := sim_world)). by rewrite (update_rejected _ _ _ _ Hu).
Qed.

(** The first run; someone creates a Secret; a periodic call provides it. *)
Definition sim_later : K8sSecret := sim_secret "later" "key:web/key" ∅.

Lemma interleaved_runs_provide_witness :
  let access := defaultAccess canonical_order in
  let provide := k8s_provide (F := unit) sim_libraries access id sim_label_config sim_retrieve (λ _, sim_sched) in
  let w1 := (provide sim_program).2 in
  let w2 := (provide (creates sim_later w1)).2 in
  run_count w2 = 2%nat ∧ sim_data ((provide w2).1, (provided_state w2)) "later" "key" = Some (Some "k1") ∧
  settled access id sim_label_config ∅ nobody (provided_state w2) ∧
  rtc (change access sim_label_config (sim_edit sim_later)) sim_program w2.
Proof.
  intros access provide w1 w2. split; [vm_compute; reflexivity|]. split; [vm_compute; reflexivity|].
  set (b := NewLimitedBackOff 0 0).
  destruct (interleaved_runs_provide sim_libraries access id sim_label_config sim_retrieve (λ _, sim_sched)
    sim_files_status (sim_refresh "sidecar") ∅ nobody (sim_edit sim_later) sim_retry (sim_cluster [sim_web; sim_broken])
    (mkRunner sim_program (Some false) b) 5 Serving (mkRunner w1 (Some true) b) [Tau; Tau; Tau]
    (mkConc 5 Serving (mkRunner w2 (Some true) b) (Reporting (provide (creates sim_later w1)).1) Selecting idle))
    as (Hc & Hs & _).
  - reflexivity.
  - reflexivity.
  - apply sim_edits.
  - exists (Ret true), (mkRunner w1 (Some false) b). split; [vm_compute; reflexivity|reflexivity].
  - eapply exec_step; [apply c_env; repeat split; vm_compute; reflexivity|].
    eapply exec_step; [by eapply c_tick|]. eapply exec_step; [|apply exec_refl].
    eapply (c_advance _ _ _ _ _ _ _ Periodic); [done|vm_compute; reflexivity].
  - split; [exact Hs|exact Hc].
Defined.

(** ** A lost event

    The notifier drops an event when the channel is not read for three
    seconds, while the runner's goroutine is busy with a run, its buffer full. *)
Definition old_table : gmap string bytes := {["web/key" := Some "k1"; "web/old" := Some "o1"]}.
Definition two_keys : K8sSecret := sim_secret "web" ("key:web/key" +:+ String lf "old:web/old") ∅.
Definition lost_run (keys : gmap string (list string)) (t : K8sProvider * sim_world) :=
  ProvideWithCleanup sim_libraries (sim_deps canonical_order old_table) sim_label_config sim_sched keys t.

(** The Secret after the first run; without the key in its conjur-map; with
    the key and a further label. *)
Definition first_run : K8sProvider * sim_world := (lost_run ∅ (newProvider, sim_cluster [two_keys])).2.
Definition provided_secret : K8sSecret := default two_keys (kube_store first_run.2 "ns" "web").
Definition edited_secret : K8sSecret :=
  set_data provided_secret (Some (<[ConjurMapKey := Some "key:web/key"]> (nilmap (Data provided_secret)))).
Definition edited : K8sProvider * sim_world := (first_run.1, (kube_update "ns" edited_secret first_run.2).2).
Definition edit_event : SecretEvent := mkEvent edited_secret (Some provided_secret) SecretEventTypeUpdate.

(** An update event that the notifier drops is not made up for,
    although the comment in [processNextItem] leaves it to the next event or
    refresh: with sanitizing on, a key that was taken out of the conjur-map is
    removed from the Secret when the event arrives; when it is dropped,
    the refresh keeps the key with its value, and so does a run for a later
    event of that Secret. *)
Theorem dropped_update_keeps_key :
  sanitizeEnabled sim_label_config = true ∧
  processEvent (Some false) edit_event = Dropped edit_event ∧
  let keys e := accumulate sim_libraries sim_label_config canonical_order ∅ e in
  let later := mkEvent edited_secret (Some edited_secret) SecretEventTypeUpdate in
  sim_data (lost_run (keys edit_event) edited) "web" "old" = None ∧
  sim_data (lost_run ∅ edited) "web" "old" = Some (Some "o1") ∧
  sim_data (lost_run (keys later) (lost_run ∅ edited).2) "web" "old" = Some (Some "o1").
Proof. cbv zeta. split_and!; vm_compute; reflexivity. Qed.
