(* ===== verification/EndToEnd.v ===== *)
(** * From the settings to the provided secrets

    [startSecretsProviderWithDeps] with the program's own providers behind its
    provider factory and the program's own runner behind [RunSecretsProvider]:
    what an exit code of 0 means for the cluster or the files. *)

From S2P Require Import Prelude GoString GoBytes FileTemplates K8sClient K8sProvider K8sProviderSpec K8sGroups K8sData K8sProviderProps K8sInvariant SecretGroup AtomicWriter PushToFile FilesInvariant Config Runner Concurrency Entrypoint Status Program.
Open Scope Z_scope.

#[local] Abbreviation group := SecretGroup.SecretGroup.

(** The factory of the program: [NewProviderForType] with the groups of
    Push-to-File. Of several errors only that there are some matters. *)
Definition program_factory (yaml_nodes : string → option (list yaml_node)) (engine : template_engine)
    (paths : SecretGroup.Config) (sched : schedule) (conf : ProviderConfig) :
    list (provider_error group_error) + provider group :=
  match NewProviderForType (newSecretGroupsWithDeps yaml_nodes engine paths sched) conf with
  | inl e => inl [e]
  | inr p => inr p
  end.

Section program.
Context {W FS : Type} (L : libraries) (access : k8sAccessDeps W) `{!K8sAccess access}.
Context (recorded : string → string) (os : providerOS FS) `{!ProviderFS os} (engine : template_engine).
(** What Conjur answers to the [n]-th run, the texts of the errors of
    Push-to-File, and the iteration orders. *)
Context (k8s_retrieve : nat → list string → W → outcome string (gmap string bytes))
  (file_retrieve : nat → RetrieveSecretsFunc) (error_text : p2f_error → string)
  (scheds : nat → schedule).

(** What the providers work on: the K8s provider with the cluster, the files
    with their recorded checksums. *)
Definition stores : Type := (K8sProvider * W) * (FS * gmap string Checksum).

Definition k8s_deps (n : nat) : k8sProviderDeps W := mkDeps W access (k8s_retrieve n) recorded.

Definition run_k8s (C : provider_config) (n : nat) : M stores (bool * string) bool :=
  λ s, let '(r, k) := ProvideWithCleanup L (k8s_deps n) C (scheds n) ∅ s.1 in (r, (k, s.2)).

Definition run_files (groups : list group) (sanitize : bool) (n : nat) : M stores (bool * string) bool :=
  λ s, let '(r, f) := provideWithDeps os engine (file_retrieve n) sanitize (scheds n) groups s.2 in
       (match r with
        | Ret u => Ret u
        | Fail (u, e) => Fail (u, error_text e)
        | Panic => Panic
        end, (s.1, f)).

Definition program_provide {F} (p : provider group) : ProviderFunc (program_world stores F) :=
  provider_run (match p with
                | K8sFor ns required sanitize => run_k8s (mkProviderConfig ns required sanitize)
                | FileFor groups sanitize => run_files groups sanitize
                end).

(** The number of the first run of the process. *)
Context (first : nat).

(** Whether the run [k] fetched its secrets. *)
Definition fetched (groups : list group) (k : nat) : Prop :=
  ∃ byGroup, FetchSecretsForGroups (file_retrieve k) (scheds k) groups = Ret byGroup.

(** Before the run [n], sanitizing has not removed the files that an earlier
    run, which had fetched its secrets, may have written. *)
Definition undisturbed (groups : list group) (sanitize : bool) (n : nat) : Prop :=
  ∀ j k, (first ≤ j)%nat → (j < k)%nat → (k < n)%nat → fetched groups j →
    removes_files groups (file_retrieve k) sanitize (scheds k) = false.

Lemma undisturbed_prefix groups sanitize n :
  undisturbed groups sanitize (S n) → undisturbed groups sanitize n.
Proof. intros Hu j k Hj Hk Hn. apply Hu; [done|done|lia]. Qed.

Lemma undisturbed_unsanitized groups n : undisturbed groups false n.
Proof.
  intros j k _ _ _ _. unfold removes_files. destruct (FetchSecretsForGroups _ _ _); [done| |done].
  apply andb_false_r.
Qed.

(** What the run [n] from [s] to [s'] has provided. *)
Definition provides (p : provider group) (n : nat) (s s' : stores) : Prop :=
  match p with
  | K8sFor ns required sanitize =>
      let C := mkProviderConfig ns required sanitize in
      orderly L (k8s_deps n) C s.1.2 → values_provided L (k8s_deps n) C ∅ nobody s.1.2 s'.1.2
  | FileFor groups sanitize =>
      undisturbed groups sanitize n → files_provided os engine (file_retrieve n) (scheds n) groups s'.2.1
  end.

(** ** What the runs of one provider keep *)

(** The files are in step, unless they were disturbed; and there are no
    checksums before the first run that fetches. *)
Definition files_in_order (groups : list group) (sanitize : bool) (n : nat)
    (s : FS * gmap string Checksum) : Prop :=
  (first ≤ n)%nat ∧ (undisturbed groups sanitize n → in_sync (base os) groups s) ∧
  ((∀ k, (first ≤ k)%nat → (k < n)%nat → ¬ fetched groups k) → s.2 = ∅).

Definition stores_in_order (p : provider group) (n : nat) (s : stores) : Prop :=
  match p with
  | K8sFor ns required sanitize =>
      settled access recorded (mkProviderConfig ns required sanitize) ∅ nobody s.1
  | FileFor groups sanitize => files_in_order groups sanitize n s.2
  end.

Definition stores_frame (p : provider group) (s s' : stores) : Prop :=
  match p with
  | K8sFor ns required sanitize =>
      cluster_frame access (mkProviderConfig ns required sanitize) s.1.2 s'.1.2 ∧ s'.2 = s.2
  | FileFor _ _ => s'.1 = s.1
  end.

#[export] Instance stores_frame_preorder p : PreOrder (stores_frame p).
Proof.
  destruct p; split; cbn.
  - by intros s.
  - intros s1 s2 s3 [H1 E1] [H2 E2]. split; [by etrans|congruence].
  - by intros s.
  - intros s1 s2 s3 E1 E2. congruence.
Qed.

(** Names and paths of the groups are distinct. *)
Definition distinct_groups (p : provider group) : Prop :=
  match p with
  | K8sFor _ _ _ => True
  | FileFor groups _ => NoDup (Name <$> groups) ∧ NoDup (FilePath <$> groups)
  end.

Section runs.
Context {F : Type} (p : provider group).
Hypothesis files_removable : removable (base os).
Hypothesis files_reliable : reliable (base os).
Hypothesis groups_distinct : distinct_groups p.
#[local] Abbreviation PW := (program_world stores F).

Definition in_order (w : PW) : Prop := stores_in_order p (run_count w) (provided_state w).

Definition in_order_frame (w w' : PW) : Prop :=
  in_order w → in_order w' ∧ stores_frame p (provided_state w) (provided_state w').

#[export] Instance in_order_frame_preorder : PreOrder in_order_frame.
Proof.
  split; [intros w Hw; by split|]. intros w1 w2 w3 H1 H2 Hw.
  destruct (H1 Hw) as [Hw2 Hf1], (H2 Hw2) as [Hw3 Hf2]. split; [done|by etrans].
Qed.

(** One run of Push-to-File. *)
Lemma run_files_in_order groups sanitize n f :
  NoDup (Name <$> groups) → NoDup (FilePath <$> groups) → files_in_order groups sanitize n f →
  files_in_order groups sanitize (S n)
    (provideWithDeps os engine (file_retrieve n) sanitize (scheds n) groups f).2.
Proof.
  intros Hn Hp (Hle & Hsync & Hnone). split; [lia|].
  assert (¬ fetched groups n → (∀ k, (first ≤ k)%nat → (k < n)%nat → ¬ fetched groups k) →
    (provideWithDeps os engine (file_retrieve n) sanitize (scheds n) groups f).2.2 = ∅) as Hempty.
  { intros Hno Hbefore. rewrite (provide_unfetched os engine groups) by done. by apply Hnone. }
  split.
  - intros Hu. destruct (removes_files groups (file_retrieve n) sanitize (scheds n)) eqn:Hrem.
    + destruct (provideWithDeps _ _ _ _ _ _ f) as [r [f' cs']]. cbn in *.
      rewrite Hempty; [apply in_sync_fresh|by eapply removes_unfetched|].
      intros k Hk Hlt Hf. specialize (Hu k n Hk Hlt ltac:(lia) Hf). congruence.
    + apply provide_keeps_sync; [done..| |done]. by apply Hsync, undisturbed_prefix.
  - intros Hno. apply Hempty; [apply Hno; lia|]. intros k Hk Hlt. apply Hno; lia.
Qed.

Lemma provider_run_count run (w : PW) : run_count (provider_run run w).2 = S (run_count w).
Proof. unfold provider_run. by destruct (run _ _). Qed.
Lemma status_run_count {A} (m : M F string A) (w : PW) : run_count (status_run m w).2 = run_count w.
Proof. unfold status_run. by destruct (m _). Qed.

Lemma program_provide_in (w : PW) : in_order_frame w (program_provide p w).2.
Proof.
  unfold in_order_frame, in_order, program_provide. rewrite provider_run_state, provider_run_count.
  generalize (run_count w). intros n Hw.
  unfold stores_in_order, stores_frame, distinct_groups in *.
  destruct (provided_state w) as [k f]. destruct p as [ns required sanitize|groups sanitize].
  - unfold run_k8s. cbn [fst snd] in *.
    pose proof (run_frame L access recorded (mkProviderConfig ns required sanitize) ∅ nobody
      (k8s_retrieve n) (scheds n) ∅ k Hw) as [Hs Hf]. fold (k8s_deps n) in Hs, Hf.
    by destruct (ProvideWithCleanup _ _ _ _ _ k) as [r k'].
  - unfold run_files. cbn [fst snd] in *. destruct groups_distinct as [Hn Hp].
    pose proof (run_files_in_order groups sanitize n f Hn Hp Hw) as Hs.
    by destruct (provideWithDeps _ _ _ _ _ _ f) as [r f'].
Qed.

Lemma program_status_in {A} (m : M F string A) (w : PW) : in_order_frame w (status_run m w).2.
Proof.
  unfold in_order_frame, in_order. rewrite status_run_state, status_run_count. intros Hw. by split.
Qed.

(** A successful run from stores in order provides the secrets. *)
Lemma program_provide_provided (w w' : PW) u :
  in_order w → program_provide p w = (Ret u, w') →
  provides p (run_count w) (provided_state w) (provided_state w').
Proof.
  unfold in_order, program_provide, provider_run, provides, stores_in_order.
  generalize (run_count w). intros n.
  destruct (provided_state w) as [k f]. unfold distinct_groups in groups_distinct.
  destruct p as [ns required sanitize|groups sanitize]; cbn [fst snd].
  - set (C := mkProviderConfig ns required sanitize). intros (He & Hg & Hr & Hi) Hrun Hord.
    unfold run_k8s in Hrun. cbn [fst snd] in Hrun.
    destruct (ProvideWithCleanup L (k8s_deps n) C (scheds n) ∅ k) as [r [p' c']] eqn:Hp.
    injection Hrun as -> <-. cbn [provided_state fst snd]. destruct k as [k c].
    eapply (run_provided L (k8s_deps n) C ∅ nobody ∅ (prevSecretsChecksums k)); [done|].
    by apply (provide_result L (k8s_deps n) C (scheds n) ∅ k c (Ret u) p').
  - intros (_ & Hs & _) Hrun Hsan. unfold run_files in Hrun. cbn [fst snd] in Hrun.
    destruct groups_distinct as [Hn Hp].
    destruct (provideWithDeps _ _ _ _ _ _ f) as [r f'] eqn:Hf.
    injection Hrun as Hret <-. cbn [provided_state snd].
    destruct r as [u'|[u' e]|]; [|done..].
    by apply (run_files_provided os engine (file_retrieve n) sanitize (scheds n) groups f u'); [..|apply Hs|].
Qed.
End runs.
End program.

(** The groups of the program's factory are distinct. *)
Lemma program_factory_distinct yaml_nodes engine paths sched conf p :
  program_factory yaml_nodes engine paths sched conf = inr p → distinct_groups p.
Proof.
  unfold program_factory, NewProviderForType. case_decide; [by intros [= <-]|].
  case_decide; [|done].
  destruct (newSecretGroupsWithDeps _ _ _ _ _) as [errs|groups] eqn:Hg; intros [= <-].
  apply newSecretGroups_inr in Hg. destruct Hg as (_ & _ & Hp & Hn & _). by split.
Qed.

(** ** Properties *)

(** C2: when the process exits with 0 after running once, as an init or
    an application container, whatever annotations, environment, retries and
    earlier failures led there: behind the factory are the program's providers,
    behind [run] its runner, over a new provider and a new Push-to-File state.
    The last run of the provider succeeded, and then the sentinel file was
    written with mode 0666. With the K8s store only Secrets it may change have
    changed, and, when the cluster was orderly as that run began, the Secrets
    selected by name or by label hold the values that Conjur returned to it.
    With Push-to-File, sanitizing or not, the file of every annotated group has
    the checksum of what renders from them - unless an earlier run had fetched
    its secrets, failed to push them all, and a run after it was answered with
    a 403 or 404 and removed the files: the checksums it may have recorded
    survive ([sanitized_file_stays_empty]). It takes that files can be
    removed and that the final flush and rename do not fail. *)
Theorem init_container_provides {W FS F} L (access : k8sAccessDeps W) `{!K8sAccess access} recorded
    (os : providerOS FS) `{!ProviderFS os} engine k8s_retrieve file_retrieve error_text scheds
    (f : fileUpdater F) `{!StatusFS (Status.os f)} RetryNotify `{!RetryLaws RetryNotify}
    yaml_nodes paths factory_sched
    (env : environment (provider_error group_error) (provider group)) sched path p c refresh http
    (w0 : program_world (stores (W := W) (FS := FS)) F) c0 f0 st' :
  removable (base os) → reliable (base os) →
  providerFactory env = program_factory yaml_nodes engine paths factory_sched →
  startSecretsProviderWithDeps env sched path = (0, Ran p c refresh http) → RunOnce refresh = true →
  provided_state w0 = ((newProvider, c0), (f0, ∅)) → ready c0 →
  start RetryNotify
    (program_provide L access recorded os engine k8s_retrieve file_retrieve error_text scheds p)
    (program_status (status_updater f)) refresh
    (mkRunner w0 (if http then Some false else None)
       (NewLimitedBackOff (RetryInterval refresh) (Runner.RetryCountLimit refresh)))
    (Returned (run env p refresh http)) st' →
  let provide := program_provide L access recorded os engine k8s_retrieve file_retrieve error_text scheds p in
  let w' := world st' in
  file (fs := Status.os f) (status_state w') (providedFile f) = Some ("", statusFileMode) ∧
  stores_frame access p (provided_state w0) (provided_state w') ∧
  ∃ (w w1 : program_world stores F) u, stores_frame access p (provided_state w0) (provided_state w) ∧
    provide w = (Ret u, w1) ∧ provided_state w1 = provided_state w' ∧
    provides L access recorded os engine k8s_retrieve file_retrieve scheds (run_count w0) p
      (run_count w) (provided_state w) (provided_state w').
Proof.
  intros Hrem Hrel Hfac Hstart Honce Hw0 Hready Hrun provide w'.
  rewrite (start_ran_zero _ _ _ _ _ _ _ Hstart) in Hrun.
  assert (distinct_groups p) as Hd.
  { apply start_ran in Hstart as (annots & _ & _ & Hp & _). rewrite Hfac in Hp.
    by eapply program_factory_distinct. }
  assert (in_order access recorded os file_retrieve scheds (run_count w0) p w0) as H0.
  { unfold in_order. rewrite Hw0. destruct p; cbn; [by split_and!|].
    split_and!; [done|intros _; apply in_sync_fresh|done]. }
  set (R := in_order_frame access recorded os file_retrieve scheds (run_count w0) (F := F) p).
  assert (∀ w, R w (provide w).2) as Hprov by (intros w; by apply program_provide_in).
  destruct (start_once provide (program_status (status_updater f)) refresh R Hprov RetryNotify
    (λ w, program_status_in access recorded os file_retrieve scheds (run_count w0) p _ w) _ _ Hrun Honce)
    as (w & u & w1 & Hw & Hlast & Hset).
  cbn [world] in Hw. destruct (Hw H0) as [Hin Hframe].
  assert (R w w1) as Hw1 by (specialize (Hprov w); by rewrite Hlast in Hprov).
  destruct (Hw1 Hin) as [_ Hframe1].
  cbn [program_status SetSecretsProvided status_updater] in Hset. unfold status_run in Hset.
  pose proof (setStatus_wp f (providedFile f) (status_state w1)) as Hfile. unfold wp in Hfile.
  unfold setSecretsProvided in Hset.
  destruct (setStatus f (providedFile f) (status_state w1)) as [r fs]. injection Hset as -> Hw'.
  fold w' in Hw'. rewrite <- Hw'. cbn [status_state provided_state].
  destruct Hfile as (_ & _ & Hfile). split; [by apply Hfile|]. split; [by etrans|].
  exists w, w1, u. split_and!; [done..|].
  by apply (program_provide_provided L access recorded os engine k8s_retrieve file_retrieve error_text
    scheds (run_count w0) p Hrem Hrel Hd w w1 u).
Qed.

(** ** An init container

    Push-to-File with one group and the default settings, with sanitizing, and
    a Conjur that answers with a 404 the first time, so that the file is
    removed. *)
Definition newline : string := String lf "".
Definition annotation_line (k v : string) : string :=
  k +:+ "=" +:+ String dquote (v +:+ String dquote newline).
Definition sim_annotations : string :=
  annotation_line "conjur.org/secrets-destination" "file" +:+
  annotation_line "conjur.org/container-mode" "init" +:+
  annotation_line "conjur.org/conjur-secrets.db" "- url: db/url".
Definition sim_paths : SecretGroup.Config := SecretGroup.mkConfig "/s" "/t" (λ _, FileNotExist).
Definition sim_nodes (_ : string) : option (list yaml_node) :=
  Some [MappingNode (Some {["url" := "db/url"]})].
Definition sim_init : environment (provider_error group_error) (provider group) :=
  mkEnvironment _ _ (λ k, if decide (k = "MY_POD_NAMESPACE") then "ns" else "") true
    (λ _, Some sim_annotations) (λ _ _, true) (λ _, true)
    (program_factory sim_nodes sim_engine sim_paths (λ _, canonical_order)) (λ _, true) true
    (λ _ _ _, None).
Definition sim_answers (n : nat) : RetrieveSecretsFunc :=
  match n with O => λ _, Fail "404 Not Found" | _ => PushToFile.sim_conjur sim_values end.
Definition sim_updater : fileUpdater sim_files := NewStatusUpdater (sim_status_os []).
Definition sim_volume : sim_files := {["/usr/local/bin/conjur-secrets-unchanged.sh" := ("#!/bin/sh", 420)]}.
Definition sim_new : program_world (stores (W := sim_world) (FS := sim_fs)) sim_files :=
  mkProgram 0 ((newProvider, sim_cluster []), (∅, ∅)) sim_volume.

Definition sim_provide (p : provider group) : ProviderFunc (program_world (stores (W := sim_world) (FS := sim_fs)) sim_files) :=
  program_provide sim_libraries (defaultAccess canonical_order) id (sim_provider_os []) sim_engine
    (λ _ _ _, Panic) sim_answers (λ _, "not found") (λ _ _, canonical_order) p.

(** The states of the runner: when the retries begin, after each of the two
    calls, at the end. *)
Definition sim_begun (refresh : ProviderRefreshConfig) :=
  retry_reset (false, (call_world (CopyScripts (program_status (status_updater sim_updater)))
    (mkRunner sim_new None (NewLimitedBackOff (RetryInterval refresh) (Runner.RetryCountLimit refresh)))).2).
Definition sim_failed (p : provider group) (refresh : ProviderRefreshConfig) :=
  (retry_op (sim_provide p) (sim_begun refresh)).2.
Definition sim_retried (p : provider group) (refresh : ProviderRefreshConfig) :=
  (retry_op (sim_provide p) (retry_next (sim_failed p refresh)).2).2.
Definition sim_ended (p : provider group) (refresh : ProviderRefreshConfig) :=
  (after_first (program_status (status_updater sim_updater)) refresh (Ret true) (sim_retried p refresh).2).2.

Lemma pair_first {A B} (x : A * B) a : x.1 = a → x = (a, x.2).
Proof. intros <-. apply surjective_pairing. Qed.

Lemma init_container_provides_witness :
  ∃ p c refresh st',
    startSecretsProviderWithDeps sim_init (λ _, canonical_order) "/conjur/podinfo/annotations" =
      (0, Ran p c refresh false) ∧ st' = sim_ended p refresh ∧
    status_state (world st') !! "/conjur/status/CONJUR_SECRETS_PROVIDED" = Some ("", 438) ∧
    (provided_state (world st')).2.1 !! "/s/db.yaml" = Some ("url=pg" +:+ newline) ∧
    ∃ n, files_provided (sim_provider_os []) sim_engine (sim_answers n) (λ _, canonical_order)
      (match p with FileFor groups _ => groups | _ => [] end) (provided_state (world st')).2.1.
Proof.
  destruct (startSecretsProviderWithDeps sim_init (λ _, canonical_order) "/conjur/podinfo/annotations")
    as [code [| |p c refresh http]] eqn:Hs; pose proof Hs as Hs'; vm_compute in Hs'; [done|done|].
  injection Hs' as <- Hp Hc Hr <-. exists p, c, refresh, (sim_ended p refresh).
  split; [reflexivity|]. split; [reflexivity|].
  destruct (init_container_provides sim_libraries (defaultAccess canonical_order) id (sim_provider_os [])
    sim_engine (λ _ _ _, Panic) sim_answers (λ _, "not found") (λ _ _, canonical_order) sim_updater sim_retry
    sim_nodes sim_paths (λ _, canonical_order) sim_init (λ _, canonical_order)
    "/conjur/podinfo/annotations" p c refresh false sim_new (sim_cluster []) ∅ (sim_ended p refresh))
    as (Hfile & _ & w & w1 & u & _ & _ & _ & Hprov).
  - apply sim_removable. compute_done.
  - apply sim_reliable; compute_done.
  - reflexivity.
  - exact Hs.
  - by rewrite <- Hr.
  - reflexivity.
  - reflexivity.
  - exists (Ret true), (sim_retried p refresh).2.
    assert (0 <? RetryInterval refresh = true) as Hi by by rewrite <- Hr.
    split; [|symmetry; apply pair_first; subst p refresh; vm_compute; reflexivity].
    unfold provideSecrets. rewrite Hi. exists (Ret tt), true. split; [|reflexivity].
    rewrite <- (pair_first (sim_retried p refresh) true) by (subst p refresh; vm_compute; reflexivity).
    apply (sim_again _ _ _ _ _ _ (sim_begun refresh) "not found" (sim_failed p refresh) 1000000000
      (retry_next (sim_failed p refresh)).2);
      [apply pair_first; subst p refresh; vm_compute; reflexivity..|].
    apply sim_done, pair_first. subst p refresh. vm_compute. reflexivity.
  - split; [exact Hfile|]. split; [subst p refresh; vm_compute; reflexivity|].
    exists (run_count w). subst p. apply Hprov.
    (* only the first run is answered with an error *)
    intros j [|k] _ Hjk _ _; [lia|vm_compute; reflexivity].
Defined.
